(* ===== verification/_CoqProject ===== *)
-Q . S2P
Prelude.v
Geometry.v
Float32.v
Events.v
DisplayConfig.v
DisplayChanger.v
Occlusion.v
Schedule.v
Arbiter.v
BufferMap.v
Stream.v
BufferVault.v
FrameDropping.v
CompositorThreads.v
RenderingTracker.v
SurfaceStack.v
PromptSessions.v
SeatTracker.v
Validator.v
SurfaceDispatcher.v
KeyRepeat.v
AnrDetector.v
FrameClock.v
Cookie.v
ReadWriteMutex.v
ShellFocus.v
ServerLifecycle.v
WindowInfo.v
WindowManager.v
ObserverList.v
BasicSurface.v
ApplicationSession.v
Wire.v
RpcChannel.v
MessageProcessor.v
CursorController.v
TouchspotController.v
SystemCompositor.v
Multiplexer.v
ActionQueue.v
ThreadedDispatcher.v
MainLoop.v
InputDevices.v
InputHub.v
ConfigChanger.v
