(* ===== verification/Prelude.v ===== *)
(** * Verification of the Mir display server

    Mir is a system-level display server: clients draw into buffers they share
    with it, the server composites the surfaces' buffers onto the outputs, and
    input devices feed events to the surface that has the focus or lies under
    the pointer.  This library models the parts of src/ that decide things - who
    may use which buffer, which surface is where and told what, which event goes
    to whom, which display configuration applies - as executable definitions
    translated from the C++ code, and proves what makes them correct.

    ** How the code is modelled

    A method body is a program ([prog], below): it reads and writes the object's
    fields, a [Record], calls its collaborators, which is recorded as a trace of
    observations, and returns or throws.  Writes and calls made before a throw
    stay, as in C++.  A component is a [machine]: its operations, with what its
    callers must respect ([m_allowed]); [reachable] are the states and histories
    any sequence of operations leads to, and the theorems about a component are
    about those.  An operation is atomic when the component's mutex makes it
    so; where the code releases the mutex in the middle (the buffer vault, the
    frame clock's resync, queued actions, alarms) the parts are separate
    operations or what happens in between is an argument, and where calls of
    several threads overlap in ways that matter ([AnrDetector],
    [CursorController], [ReadWriteMutex], [ObserverList], [Multiplexer],
    [ThreadedDispatcher], [CompositorThreads]) the machine's operations are the
    steps between two locks of one call.  Two places are coarser and say so:
    [ShellFocus.update_focused_surface_confined_region], which takes no lock, and
    calls out of a component that come last in a method, which belong to the
    step before them.  Code outside src/ and what
    collaborators answer are arguments: records of answers that come with each
    call, or functions with the property the code relies on as a hypothesis.
    Machine integers wrap at their width; [float] values are IEEE binary32.
    Identities ([shared_ptr]s, file descriptors, buffer, surface and session
    ids) are integers; a [weak_ptr] is an id and whether it still locks.

    ** The parts

    Buffers, server side.  [Schedule] (compositor/queueing_schedule.cpp,
    dropping_schedule.cpp) with the type class of schedules that [Arbiter]
    (multi_monitor_arbiter.cpp) is verified against; [BufferMap]
    (buffer_map.cpp); [Stream] (stream.cpp, temporary_buffers.cpp) puts the three
    together.  Theorems: ownership of every buffer is agreed on and exclusive,
    none in use is sent back, none is lost, compositors always find one.

    Buffers, client side.  [BufferVault] (client/buffer_vault.cpp, buffer.cpp):
    exclusive hand-out, accounting, progress of waiting futures, termination of
    [set_interval].  The loop over the vault has the number of surplus buffers
    as fuel, which the theorem shows to be enough.  [FrameClock]
    (client/frame_clock.cpp): the targets a client sleeps until.

    Scene.  [Geometry] (core/geometry), [Occlusion] (compositor/occlusion.cpp:
    what is left out cannot be seen), [RenderingTracker] and [SurfaceStack]
    (scene/rendering_tracker.cpp, surface_stack.cpp: stacking order, the scene of
    a compositor, visibility the surfaces are told), [PromptSessions]
    (scene/prompt_session_*.cpp), [ShellFocus] (scene/session_manager.cpp,
    default_session_container.cpp, shell/abstract_shell.cpp: sessions, the focus
    and how it goes round), [AnrDetector]
    (scene/timeout_application_not_responding_detector.cpp: a watchdog, whose
    announcements may come late when calls overlap).

    Displays.  [DisplayConfig] (platform/graphics/display_configuration.cpp,
    pixel_format_utils.cpp, overlapping_output_grouping.cpp,
    server/graphics/default_display_configuration_policy.cpp,
    shell/graphics_display_layout.cpp) and [DisplayChanger]
    (scene/mediating_display_changer.cpp, frontend/authorizing_display_changer.cpp,
    the latter over a type class of display changers): when policies give
    valid configurations, output groups are the connected components, the compositor is
    stopped around reconfigurations and the display goes back when one fails,
    previews, permissions.

    Input.  [Float32], [Events] (common/events, client/events,
    client/input/input_event.cpp: the accessors and the coordinate shift),
    [SeatTracker] (server/input/seat_input_device_tracker.cpp: key protocol,
    button and spot aggregation, pointer confinement), [Validator]
    (server/input/validator.cpp: the touch stream becomes well-formed),
    [KeyRepeat] (key_repeat_dispatcher.cpp), [SurfaceDispatcher]
    (surface_input_dispatcher.cpp: enter/leave brackets, gestures, key focus),
    [CursorController] (cursor_controller.cpp: which image the cursor
    shows, and which change of it may be overtaken),
    [TouchspotController] (touchspot_controller.cpp: a spot per touch), [Cookie]
    (src/cookie: authorization of input events, a round trip against HMAC-SHA1 as
    a parameter), [InputDevices] (default_device.cpp, client's
    mir_input_config.cpp: the settings of a device and their checks), [InputHub]
    (default_input_device_hub.cpp: seat, observers and handles know the same
    devices) and [ConfigChanger] (config_changer.cpp: the devices have the
    settings of the session with the focus).

    Windows.  [WindowInfo] (shell/window_management_info.cpp: types, states, the
    constraints of a resize) and [WindowManager] (shell/basic_window_manager.cpp
    with the policy of canonical_window_manager.cpp): windows form trees that
    are raised and moved whole until a client gives a window another parent or a
    session ends with its surfaces, restoring undoes every change of state, which
    window gets the focus, where a new one goes.

    Surfaces and sessions.  [ObserverList] (include/common/mir/thread_safe_list.h:
    every interleaving is one of atomic accesses), [BasicSurface]
    (scene/basic_surface.cpp: attributes, layers, cursor, who hears of what) and
    [ApplicationSession] (scene/application_session.cpp, surface_event_source.cpp,
    output_properties_cache.cpp: the surfaces and streams of a client, the
    outputs it is told of).

    The connection.  [Wire] (common/fd/fd_socket_transmission.cpp,
    client/rpc/stream_socket_transport.cpp, frontend/socket_messenger.cpp,
    socket_connection.cpp, reordering_message_sender.cpp: what is framed on one
    side is read on the other, however the kernel cuts it), [RpcChannel]
    (client/rpc: every call is completed once) and [MessageProcessor]
    (frontend/protobuf_message_processor.cpp: every call is answered once).

    Dispatch.  [Multiplexer] (common/dispatch/multiplexing_dispatchable.cpp: the
    descriptors watched, with the kernel's entries for them, by several threads),
    [ActionQueue] (action_queue.cpp: queued actions run once and in order),
    [ThreadedDispatcher] (threaded_dispatcher.cpp: threads are added, removed and
    joined) and [MainLoop] (server/glib_main_loop.cpp, the actions of
    glib_main_loop_sources.cpp: when an action of a paused owner runs).

    Threads and life cycle.  [ReadWriteMutex]
    (common/thread/recursive_read_write_mutex.cpp) refines a lock that counts
    what every thread holds; [CompositorThreads]
    (compositor/multi_threaded_compositor.cpp: no frame is lost, starting and
    stopping are all or nothing, progress); [FrameDropping]
    (compositor/timeout_frame_dropping_policy_factory.cpp over the alarms of
    glib_main_loop.cpp); [ServerLifecycle] (display_server.cpp: pausing and
    resuming switch all parts or none).

    ** How they interact

    [Stream] contains [Arbiter] and [BufferMap] and is verified through the
    [Schedule] class.  [SurfaceStack] contains the [RenderingTracker]s.
    [SeatTracker] uses [Events], [Geometry] and [Float32]; [KeyRepeat] and
    [SurfaceDispatcher] pass [Events] on; [Validator] uses their touch contacts.
    [DisplayChanger] uses [DisplayConfig], which uses [Geometry], as
    [WindowManager] does with [WindowInfo]; [SystemCompositor] places with
    [DisplayConfig]'s layout.  [InputHub] and [ConfigChanger] keep and apply the
    settings of [InputDevices].  [ThreadedDispatcher] relies on what [Multiplexer]
    proves: a source that is not reentrant is dispatched by one thread at a time;
    [ActionQueue] is such a source.  [BasicSurface]'s observers are
    [ObserverList]s, and [ApplicationSession] applies [BasicSurface]'s checks and
    [DisplayConfig]'s outputs.  The others meet in their observations: what one
    emits is another's operation.

    ** Fuel

    Recursion is structural except for [Stream.take_loop] and
    [Stream.drain_loop] (fuel: the buffers scheduled), [BufferVault.trim_loop]
    (the surplus buffers), [ShellFocus.next_session_loop] (the sessions) and the
    walks along children and parents in [WindowManager] (the windows) and
    [Wire.pump] (twice the bytes that arrived); the lemmas about them show that the fuel given is never used up.

    ** Not modelled

    Graphics and input platforms, rendering and reports (calls into drivers and
    libraries), the contents of protobuf messages, the session mediator and the
    client API (conversions around the modelled components), the signals and
    descriptors of the main loop (GLib), construction and options.  Memory orders, data races and lock
    ordering are out of scope; where two threads really interleave the model says
    so at the definition. *)

From stdpp Require Export base tactics numbers strings list sorting gmap fin_maps.
From Stdlib Require Export Lia.

#[global] Open Scope Z_scope.

(** ** Exceptions and outcomes

    The C++ code signals failure with [BOOST_THROW_EXCEPTION] of standard
    exception classes; the class and the message are kept. *)
Inductive exn : Type :=
  | logic_error (what : string)
  | runtime_error (what : string)
  | invalid_argument (what : string)
  | out_of_range (what : string)
  (** not an exception: the C++ run would be undefined from here on *)
  | undefined_behaviour (what : string).

Inductive outcome (A : Type) : Type :=
  | Ret (v : A)
  | Throw (e : exn).
Arguments Ret {A} v.
Arguments Throw {A} e.

#[export] Instance exn_eq_dec : EqDecision exn.
Proof. solve_decision. Defined.
#[export] Instance outcome_eq_dec {A} `{EqDecision A} : EqDecision (outcome A).
Proof. solve_decision. Defined.

(** Sequencing of code that only may throw. *)
Definition obind {A B} (m : outcome A) (k : A → outcome B) : outcome B :=
  match m with Ret a => k a | Throw e => Throw e end.

(** A loop that threads a value. *)
Fixpoint ofold {A B} (f : B → A → outcome A) (l : list B) (a : A) : outcome A :=
  match l with
  | [] => Ret a
  | x :: l' => obind (f x a) (ofold f l')
  end.

(** [std::vector] built by a loop. *)
Fixpoint omapM {A B} (f : A → outcome B) (l : list A) : outcome (list B) :=
  match l with
  | [] => Ret []
  | x :: l' => obind (f x) (λ y, obind (omapM f l') (λ ys, Ret (y :: ys)))
  end.

Lemma omapM_ret {A B} (f : A → outcome B) (g : A → B) l :
  (∀ x, x ∈ l → f x = Ret (g x)) → omapM f l = Ret (g <$> l).
Proof.
  induction l as [|x l IH]; intros Hf; cbn; [done|]. rewrite Hf by left. cbn.
  rewrite IH; [done|]. intros y Hy. apply Hf. by right.
Qed.

(** ** Stateful programs

    A method body is a [prog S O A]: it reads and writes the object's fields
    (the state [S]), calls its collaborators (each call is an observation of
    type [O], recorded in order) and returns a value or throws.  A throw keeps
    the writes and the calls made before it, as C++ does. *)
Record run (S O A : Type) : Type := Run {
  value : outcome A;
  post : S;
  trace : list O
}.
Arguments Run {S O A} value post trace.
Arguments value {S O A} r.
Arguments post {S O A} r.
Arguments trace {S O A} r.

Definition prog (S O A : Type) : Type := S → run S O A.

Section prog.
Context {S O : Type}.

Definition pret {A} (a : A) : prog S O A := λ s, Run (Ret a) s [].
Definition pthrow {A} (e : exn) : prog S O A := λ s, Run (Throw e) s [].
Definition pget : prog S O S := λ s, Run (Ret s) s [].
Definition pput (s' : S) : prog S O unit := λ _, Run (Ret tt) s' [].
Definition pmodify (f : S → S) : prog S O unit := λ s, Run (Ret tt) (f s) [].
Definition pemit (o : O) : prog S O unit := λ s, Run (Ret tt) s [o].

Definition pbind {A B} (m : prog S O A) (k : A → prog S O B) : prog S O B := λ s,
  match value (m s) with
  | Ret a =>
      let r := k a (post (m s)) in
      Run (value r) (post r) (trace (m s) ++ trace r)
  | Throw e => Run (Throw e) (post (m s)) (trace (m s))
  end.

Definition pwhen (b : bool) (m : prog S O unit) : prog S O unit :=
  if b then m else pret tt.

(** [try m catch (e) handler(e)], and code that runs on every way out of [m]. *)
Definition pcatch {A} (m : prog S O A) (handler : exn → prog S O A) : prog S O A := λ s,
  match value (m s) with
  | Ret a => m s
  | Throw e =>
      let r := handler e (post (m s)) in
      Run (value r) (post r) (trace (m s) ++ trace r)
  end.
Definition pfinally {A} (m : prog S O A) (fin : prog S O unit) : prog S O A := λ s,
  let r := fin (post (m s)) in
  Run (match value r with Ret _ => value (m s) | Throw e => Throw e end) (post r) (trace (m s) ++ trace r).

(** A second exception while the stack is unwound. *)
Definition terminated : exn := undefined_behaviour "std::terminate".

(** [auto guard = try_but_revert_if_unwinding(apply, revert); rest], the guard
    destroyed behind [rest]; [uncaught] is what [std::uncaught_exception]
    answers when no exception is under way: once an exception was rethrown GCC
    answers true. *)
Definition try_but_revert_if_unwinding (uncaught : bool) (apply revert rest : prog S O unit) : prog S O unit :=
  pbind apply (λ _ s,
    let r := rest s in
    match value r with
    | Ret _ => let r' := pwhen uncaught revert (post r) in Run (value r') (post r') (trace r ++ trace r')
    | Throw e =>
        let r' := revert (post r) in
        Run (Throw (match value r' with Ret _ => e | Throw _ => terminated end)) (post r') (trace r ++ trace r')
    end).
(** [auto guard = on_unwind(action); rest] *)
Definition on_unwind (uncaught : bool) (action rest : prog S O unit) : prog S O unit :=
  try_but_revert_if_unwinding uncaught (pret tt) action rest.

(** [for (auto x : l) body(x)] *)
Fixpoint pfor {A} (l : list A) (body : A → prog S O unit) : prog S O unit :=
  match l with
  | [] => pret tt
  | x :: l' => pbind (body x) (λ _, pfor l' body)
  end.
End prog.

(** Runs [m] and reports each of its calls as [f] of it. *)
Definition pmap_trace {S O O' A} (f : O → O') (m : prog S O A) : prog S O' A := λ s,
  Run (value (m s)) (post (m s)) (f <$> trace (m s)).

(** Runs a component's program inside its owner, then performs the calls the
    component made of its collaborators. *)
Definition pcomponent {S T O O' A} (get : S → T) (set : T → S → S)
    (perform : O' → prog S O unit) (m : prog T O' A) : prog S O A := λ s,
  let r := m (get s) in
  pbind (pfor (trace r) perform) (λ _ s', Run (value r) s' []) (set (post r) s).

(** Raises what pure code threw. *)
Definition plift {S O A} (m : outcome A) : prog S O A := λ s, Run m s [].

Declare Scope prog_scope.
Delimit Scope prog_scope with prog.
Notation "'let*' x ':=' m 'in' k" := (pbind m (λ x, k))
  (at level 10, x binder, m at level 100, k at level 200,
   format "'[hv' 'let*'  x  ':='  '[' m ']'  'in'  '//' k ']'") : prog_scope.
Notation "'do*' m 'in' k" := (pbind m (λ _, k))
  (at level 10, m at level 100, k at level 200,
   format "'[hv' 'do*'  '[' m ']'  'in'  '//' k ']'") : prog_scope.
Notation "'let?' x ':=' m 'in' k" := (obind m (λ x, k))
  (at level 10, x binder, m at level 100, k at level 200,
   format "'[hv' 'let?'  x  ':='  '[' m ']'  'in'  '//' k ']'") : prog_scope.
#[global] Open Scope prog_scope.

(** Unfolds the program constructors and computes one run. *)
Ltac run_prog :=
  unfold pbind, pret, pthrow, pget, pput, pmodify, pemit, pwhen in *; cbn in *.

(** Splits on every [match], [if] and decision left in the goal. *)
Ltac split_cases := repeat (case_match || case_decide); simplify_eq; cbn in *.

(** *** Monad laws and loops *)
Section prog_laws.
Context {S O : Type}.
Implicit Types s : S.

Lemma pbind_ret_l {A B} (a : A) (k : A → prog S O B) s : pbind (pret a) k s = k a s.
Proof. unfold pbind, pret; cbn. by destruct (k a s). Qed.

Lemma pbind_get {B} (k : S → prog S O B) s : pbind pget k s = k s s.
Proof. unfold pbind, pget; cbn. by destruct (k s s). Qed.
Lemma pbind_put {B} (k : unit → prog S O B) s s' : pbind (pput s') k s = k tt s'.
Proof. unfold pbind, pput; cbn. by destruct (k tt s'). Qed.
Lemma pbind_modify {B} (f : S → S) (k : unit → prog S O B) s : pbind (pmodify f) k s = k tt (f s).
Proof. unfold pbind, pmodify; cbn. by destruct (k tt (f s)). Qed.
Lemma pbind_emit {B} (o : O) (k : unit → prog S O B) s :
  pbind (pemit o) k s = Run (value (k tt s)) (post (k tt s)) (o :: trace (k tt s)).
Proof. done. Qed.
(** Running the first program when its result is known. *)
Lemma pbind_run {A B} (m : prog S O A) (k : A → prog S O B) s a s' t r :
  m s = Run (Ret a) s' t → k a s' = r →
  pbind m k s = Run (value r) (post r) (t ++ trace r).
Proof. unfold pbind. intros -> Hk. cbn. by rewrite Hk. Qed.
Lemma pbind_silent {A B} (m : prog S O A) (k : A → prog S O B) s a s' :
  m s = Run (Ret a) s' [] → pbind m k s = k a s'.
Proof. unfold pbind. intros ->. cbn. by destruct (k a s'). Qed.
Lemma pbind_throw {A B} (m : prog S O A) (k : A → prog S O B) s e s' t :
  m s = Run (Throw e) s' t → pbind m k s = Run (Throw e) s' t.
Proof. unfold pbind. by intros ->. Qed.

(** Raising what pure code threw. *)
Lemma pbind_plift {A B} (m : outcome A) (k : A → prog S O B) s :
  pbind (plift m) k s = match m with Ret a => k a s | Throw e => Run (Throw e) s [] end.
Proof. unfold pbind, plift. destruct m as [a|e]; cbn; [by destruct (k a s)|done]. Qed.

(** [ends r Q]: the final state and the calls of a run satisfy [Q]. *)
Definition ends {A} (r : run S O A) (Q : S → list O → Prop) : Prop := Q (post r) (trace r).
Lemma ends_bind {A B} (m : prog S O A) (k : A → prog S O B) s a s' t Q :
  m s = Run (Ret a) s' t → ends (k a s') (λ s'' t', Q s'' (t ++ t')) → ends (pbind m k s) Q.
Proof. unfold ends, pbind. by intros ->. Qed.

Lemma pbind_ret_r {A} (m : prog S O A) s : pbind m pret s = m s.
Proof. unfold pbind, pret; destruct (m s) as [[] ? ?]; cbn; by rewrite ?app_nil_r. Qed.

Lemma pbind_assoc {A B C} (m : prog S O A) (f : A → prog S O B) (g : B → prog S O C) s :
  pbind (pbind m f) g s = pbind m (λ a, pbind (f a) g) s.
Proof.
  unfold pbind; destruct (m s) as [[a|e] s1 t1]; cbn; [|done].
  destruct (f a s1) as [[b|e] s2 t2]; cbn; [|done].
  by rewrite app_assoc.
Qed.

Lemma pfor_app {A} (l1 l2 : list A) (body : A → prog S O unit) s :
  pfor (l1 ++ l2) body s = pbind (pfor l1 body) (λ _, pfor l2 body) s.
Proof.
  revert s; induction l1 as [|x l1 IH]; intros s; cbn [app pfor].
  - by rewrite pbind_ret_l.
  - rewrite pbind_assoc. unfold pbind at 1 2.
    destruct (body x s) as [[[]|e] s1 t1]; cbn; [|done]. by rewrite IH.
Qed.

(** A loop that only calls collaborators records the calls in order. *)
Lemma pfor_emit {A} (l : list A) (f : A → O) s :
  pfor l (λ x, pemit (f x)) s = Run (Ret tt) s (f <$> l).
Proof.
  induction l as [|x l IH]; [done|]. cbn [pfor].
  unfold pbind at 1, pemit at 1; cbn. by rewrite IH.
Qed.

(** A loop whose body leaves the state alone records what each round calls. *)
Lemma pfor_trace {A} (l : list A) (body : A → prog S O unit) (t : A → list O) s :
  (∀ x, x ∈ l → body x s = Run (Ret tt) s (t x)) → pfor l body s = Run (Ret tt) s (l ≫= t).
Proof.
  induction l as [|x l IH]; intros Hb; [done|]. cbn [pfor].
  rewrite (pbind_run _ _ _ _ _ _ _ (Hb x ltac:(left)) (IH ltac:(intros y Hy; apply Hb; by right))). done.
Qed.

Lemma pfor_fmap {A B} (f : A → B) (l : list A) (body : B → prog S O unit) s :
  pfor (f <$> l) body s = pfor l (λ x, body (f x)) s.
Proof.
  revert s. induction l as [|x l IH]; intros s; [done|]. cbn [fmap list_fmap pfor]. unfold pbind.
  destruct (body (f x) s) as [[[]|e] s1 t1]; cbn; [|done]. by rewrite IH.
Qed.

(** Invariant rule: [I] relates the state to everything observed so far. *)
Definition preserves (I : S → list O → Prop) {A} (m : prog S O A) : Prop :=
  ∀ s h, I s h → I (post (m s)) (h ++ trace (m s)).

Lemma preserves_ret I {A} (a : A) : preserves I (pret a).
Proof. intros s h HI; cbn. by rewrite app_nil_r. Qed.
Lemma preserves_throw I {A} e : preserves I (pthrow (A := A) e).
Proof. intros s h HI; cbn. by rewrite app_nil_r. Qed.
Lemma preserves_get I : preserves I pget.
Proof. intros s h HI; cbn. by rewrite app_nil_r. Qed.
(** Likewise from one state and history. *)
Lemma after_bind (I : S → list O → Prop) {A B} (m : prog S O A) (k : A → prog S O B) s h :
  I (post (m s)) (h ++ trace (m s)) → (∀ a, preserves I (k a)) →
  I (post (pbind m k s)) (h ++ trace (pbind m k s)).
Proof.
  intros Hm Hk. unfold pbind. destruct (m s) as [[a|e] s1 t1]; cbn in *; [|done].
  rewrite app_assoc. by apply Hk.
Qed.
Lemma preserves_bind I {A B} (m : prog S O A) (k : A → prog S O B) :
  preserves I m → (∀ a, preserves I (k a)) → preserves I (pbind m k).
Proof. intros Hm Hk s h HI. apply after_bind; auto. Qed.
Lemma preserves_catch I {A} (m : prog S O A) (handler : exn → prog S O A) :
  preserves I m → (∀ e, preserves I (handler e)) → preserves I (pcatch m handler).
Proof.
  intros Hm Hh s h HI. specialize (Hm s h HI). unfold pcatch.
  destruct (m s) as [[a|e] s1 t1]; cbn in *; [done|]. rewrite app_assoc. by apply Hh.
Qed.
Lemma preserves_modify I (f : S → S) : (∀ s h, I s h → I (f s) h) → preserves I (pmodify f).
Proof. intros Hf s h HI; cbn. rewrite app_nil_r. auto. Qed.
Lemma preserves_emit I (o : O) : (∀ s h, I s h → I s (h ++ [o])) → preserves I (pemit o).
Proof. intros Ho s h HI; cbn. auto. Qed.
(** Reading the state: the rest may use what was read. *)
Lemma preserves_read I {A} (k : S → prog S O A) :
  (∀ s h, I s h → I (post (k s s)) (h ++ trace (k s s))) → preserves I (pbind pget k).
Proof. intros Hk s h HI. rewrite pbind_get. auto. Qed.
Lemma preserves_when I b m : preserves I m → preserves I (pwhen b m).
Proof. intros Hm; destruct b; [done|apply preserves_ret]. Qed.
Lemma preserves_for I {A} (l : list A) body :
  (∀ x, x ∈ l → preserves I (body x)) → preserves I (pfor l body).
Proof.
  induction l as [|x l IH]; intros Hb; cbn [pfor]; [apply preserves_ret|].
  apply preserves_bind; [apply Hb; left|].
  intros _; apply IH; intros y Hy; apply Hb; by right.
Qed.
End prog_laws.

Create HintDb preserve discriminated.
#[export] Hint Resolve preserves_ret preserves_throw preserves_get preserves_bind
  preserves_when preserves_for preserves_catch : preserve.

(** ** Components as state machines

    A component is its initial states, its operations (each a program) and
    the obligations its callers meet ([m_allowed], executable).  [reachable]
    collects every state and every sequence of observations that arises. *)
Record machine : Type := Machine {
  m_state : Type;
  m_op : Type;
  m_obs : Type;
  m_init : m_state → Prop;
  m_allowed : m_state → list m_obs → m_op → bool;
  m_exec : m_op → prog m_state m_obs unit
}.

Inductive reachable (M : machine) : m_state M → list (m_obs M) → Prop :=
  | reachable_init s : m_init M s → reachable M s []
  | reachable_step s h op :
      reachable M s h →
      m_allowed M s h op = true →
      reachable M (post (m_exec M op s)) (h ++ trace (m_exec M op s)).

(** Runs a list of operations, refusing one its caller may not call. *)
Fixpoint run_ops (M : machine) (ops : list (m_op M)) (s : m_state M) (h : list (m_obs M)) :
    option (m_state M * list (m_obs M)) :=
  match ops with
  | [] => Some (s, h)
  | op :: ops' =>
      if m_allowed M s h op
      then run_ops M ops' (post (m_exec M op s)) (h ++ trace (m_exec M op s))
      else None
  end.

Section machine.
Context (M : machine).

Lemma reachable_invariant (I : m_state M → list (m_obs M) → Prop) :
  (∀ s, m_init M s → I s []) →
  (∀ s h op, reachable M s h → I s h → m_allowed M s h op = true →
     I (post (m_exec M op s)) (h ++ trace (m_exec M op s))) →
  ∀ s h, reachable M s h → I s h.
Proof. intros Hinit Hstep s h Hr. induction Hr; eauto. Qed.

Lemma run_ops_reachable ops s h s' h' :
  reachable M s h → run_ops M ops s h = Some (s', h') → reachable M s' h'.
Proof.
  revert s h; induction ops as [|op ops IH]; cbn; intros s h Hr Hrun.
  - by simplify_eq.
  - destruct (m_allowed M s h op) eqn:Hok; [|done].
    eapply IH; [by constructor|done].
Qed.

Lemma run_ops_from_init ops s s' h' :
  m_init M s → run_ops M ops s [] = Some (s', h') → reachable M s' h'.
Proof. intros Hs. apply run_ops_reachable. by constructor. Qed.
End machine.

(** ** Machine integers

    Signed overflow is undefined in C++; the definitions wrap as the
    supported compilers do, and a theorem states the range it needs. *)
Definition int32 (z : Z) : Z := (z + 2 ^ 31) mod 2 ^ 32 - 2 ^ 31.
Definition int64 (z : Z) : Z := (z + 2 ^ 63) mod 2 ^ 64 - 2 ^ 63.
Definition uint32 (z : Z) : Z := z mod 2 ^ 32.
Definition uint64 (z : Z) : Z := z mod 2 ^ 64.

Definition int_max : Z := 2 ^ 31 - 1.
Definition int_min : Z := - 2 ^ 31.

Lemma int32_id z : int_min ≤ z ≤ int_max → int32 z = z.
Proof. unfold int32, int_min, int_max. intros. rewrite Z.mod_small; lia. Qed.
Lemma int64_id z : - 2 ^ 63 ≤ z < 2 ^ 63 → int64 z = z.
Proof. unfold int64. intros. rewrite Z.mod_small; lia. Qed.
Lemma uint32_id z : 0 ≤ z < 2 ^ 32 → uint32 z = z.
Proof. apply Z.mod_small. Qed.
Lemma uint64_id z : 0 ≤ z < 2 ^ 64 → uint64 z = z.
Proof. apply Z.mod_small. Qed.
Lemma int32_range z : int_min ≤ int32 z ≤ int_max.
Proof.
  unfold int32, int_min, int_max.
  pose proof (Z.mod_pos_bound (z + 2 ^ 31) (2 ^ 32)). lia.
Qed.

(** ** Ordered containers

    A [std::map] or [std::set] keyed by an integer is a [gmap] or [gset];
    iterating over it visits the keys in ascending order. *)
Definition key_le {A} (p q : Z * A) : Prop := p.1 ≤ q.1.
#[export] Instance key_le_dec {A} : RelDecision (@key_le A).
Proof. intros p q. unfold key_le. apply _. Defined.
#[export] Instance key_le_total {A} : Total (@key_le A).
Proof. intros p q. unfold key_le. lia. Qed.
#[export] Instance key_le_trans {A} : Transitive (@key_le A).
Proof. intros p q r. unfold key_le. lia. Qed.

Definition entries {A} (m : gmap Z A) : list (Z * A) := merge_sort key_le (map_to_list m).
Definition ascending (s : gset Z) : list Z := merge_sort Z.le (elements s).

Section ordered.
Context {A : Type}.
Implicit Types m : gmap Z A.

Lemma entries_perm m : entries m ≡ₚ map_to_list m.
Proof. apply merge_sort_Permutation. Qed.
Lemma elem_of_entries m k x : (k, x) ∈ entries m ↔ m !! k = Some x.
Proof. by rewrite entries_perm, elem_of_map_to_list. Qed.
Lemma entries_sorted m : StronglySorted key_le (entries m).
Proof. apply StronglySorted_merge_sort; apply _. Qed.
Lemma entries_keys_NoDup m : NoDup (entries m).*1.
Proof. rewrite entries_perm. apply NoDup_fst_map_to_list. Qed.
Lemma length_entries m : length (entries m) = size m.
Proof. rewrite entries_perm. apply length_map_to_list. Qed.
Lemma elem_of_ascending s k : k ∈ ascending s ↔ k ∈ s.
Proof. unfold ascending. by rewrite merge_sort_Permutation, elem_of_elements. Qed.
Lemma ascending_NoDup s : NoDup (ascending s).
Proof. unfold ascending. rewrite merge_sort_Permutation. apply NoDup_elements. Qed.
End ordered.

(** ** Generic lemmas on lists *)
Section lists.
Context {A : Type}.
Implicit Types l : list A.

(** [std::find_if]: the first element that satisfies the predicate. *)
Definition find_if (p : A → bool) l : option A := head (filter (λ x, p x = true) l).

Lemma find_if_Some p l x : find_if p l = Some x → x ∈ l ∧ p x = true.
Proof.
  unfold find_if. intros Hx.
  assert (x ∈ filter (λ x, p x = true) l) as Hin.
  { destruct (filter _ l); simplify_eq/=. left. }
  apply list_elem_of_filter in Hin. tauto.
Qed.
Lemma find_if_None p l : find_if p l = None ↔ ∀ x, x ∈ l → p x = false.
Proof.
  unfold find_if. split.
  - intros Hx x Hin. destruct (p x) eqn:Hp; [|done].
    assert (x ∈ filter (λ x, p x = true) l) as Hf by by apply list_elem_of_filter.
    destruct (filter _ l); [by apply elem_of_nil in Hf|done].
  - intros Hall. destruct (filter (λ x, p x = true) l) as [|y ys] eqn:Hf; [done|].
    assert (y ∈ filter (λ x, p x = true) l) as Hy by (rewrite Hf; left).
    apply list_elem_of_filter in Hy as [Hy Hin]. by rewrite Hall in Hy.
Qed.
Lemma find_if_cons p x l : find_if p (x :: l) = if p x then Some x else find_if p l.
Proof.
  unfold find_if. rewrite filter_cons. destruct (p x) eqn:Hp.
  - by rewrite decide_True.
  - rewrite decide_False by congruence. done.
Qed.

Lemma elem_of_rev l x : x ∈ rev l ↔ x ∈ l.
Proof. by rewrite !list_elem_of_In, <- in_rev. Qed.
Lemma find_if_app p l1 l2 :
  find_if p (l1 ++ l2) = match find_if p l1 with Some x => Some x | None => find_if p l2 end.
Proof.
  induction l1 as [|x l1 IH]; [done|]. cbn [app]. rewrite !find_if_cons. by destruct (p x).
Qed.
(** Searching from the back. *)
Lemma find_last_spec p l1 x l2 :
  (x ∉ l2) →
  find_if p (rev (l1 ++ (x :: l2))) = Some x ↔ p x = true ∧ ∀ y, y ∈ l2 → p y = false.
Proof.
  intros Hx. rewrite rev_app_distr. cbn. rewrite <- app_assoc, find_if_app. cbn [app].
  rewrite find_if_cons. destruct (find_if p (rev l2)) as [z|] eqn:Hf.
  - apply find_if_Some in Hf as [Hz Hp]. rewrite elem_of_rev in Hz. split; [intros Heq; simplify_eq|].
    { by destruct Hx. }
    intros [_ Hall]. by rewrite Hall in Hp.
  - assert (∀ y, y ∈ l2 → p y = false) as Hall.
    { intros y Hy. apply (proj1 (find_if_None _ _) Hf). by apply elem_of_rev. }
    destruct (p x) eqn:Hpx; [done|]. split; [|by intros [? _]].
    intros Hf'. apply find_if_Some in Hf' as [_ Hp]. congruence.
Qed.

Lemma filter_idem (P : A → Prop) `{∀ x, Decision (P x)} l : filter P (filter P l) = filter P l.
Proof.
  induction l as [|x l IH]; [done|]. rewrite !filter_cons. case_decide; [|done].
  rewrite filter_cons, decide_True by done. by rewrite IH.
Qed.
Lemma filter_all (P : A → Prop) `{∀ x, Decision (P x)} l : (∀ x, x ∈ l → P x) → filter P l = l.
Proof.
  induction l as [|x l IH]; [done|]. intros Hall. rewrite filter_cons, decide_True by (apply Hall; left).
  f_equal. apply IH. intros y Hy. apply Hall. by right.
Qed.
Lemma filter_none (P : A → Prop) `{∀ x, Decision (P x)} l : (∀ x, x ∈ l → ¬ P x) → filter P l = [].
Proof.
  induction l as [|x l IH]; [done|]. intros Hno. rewrite filter_cons, decide_False by (apply Hno; left). apply IH.
  intros y Hy. apply Hno. by right.
Qed.
Lemma filter_disjoint (P Q : A → Prop) `{∀ x, Decision (P x)} `{∀ x, Decision (Q x)} l :
  (∀ x, Q x → ¬ P x) → filter P (filter Q l) = [].
Proof.
  intros HPQ. induction l as [|x l IH]; [done|]. rewrite filter_cons. case_decide; [|done].
  rewrite filter_cons, decide_False by auto. done.
Qed.

Lemma filter_ext_in (P Q : A → Prop) `{∀ x, Decision (P x)} `{∀ x, Decision (Q x)} l :
  (∀ x, x ∈ l → P x ↔ Q x) → filter P l = filter Q l.
Proof.
  induction l as [|x l IH]; [done|]. intros Hl. rewrite !filter_cons. rewrite IH by (intros y Hy; apply Hl; by right).
  assert (P x ↔ Q x) as Hx by (apply Hl; left).
  destruct (decide (P x)) as [Hp|Hp], (decide (Q x)) as [Hq|Hq]; tauto.
Qed.

(** [std::find] then [erase]: drops the first equal element, if any. *)
Fixpoint erase_first `{EqDecision A} (x : A) (l : list A) : list A :=
  match l with
  | [] => []
  | y :: l' => if decide (y = x) then l' else y :: erase_first x l'
  end.

Lemma erase_first_notin `{EqDecision A} x l : x ∉ l → erase_first x l = l.
Proof.
  induction l as [|y l IH]; cbn; [done|]. intros Hx. rewrite decide_False by set_solver.
  rewrite IH by set_solver. done.
Qed.
Lemma erase_first_perm `{EqDecision A} x l : x ∈ l → x :: erase_first x l ≡ₚ l.
Proof.
  induction l as [|y l IH]; cbn; [by intros ?%elem_of_nil|].
  intros [->|Hin]%elem_of_cons; [by rewrite decide_True|].
  destruct (decide (y = x)) as [->|]; [done|]. rewrite Permutation_swap, IH; done.
Qed.
Lemma erase_first_sublist `{EqDecision A} x l : sublist (erase_first x l) l.
Proof.
  induction l as [|y l IH]; cbn; [done|]. destruct (decide _); by constructor.
Qed.

Lemma elem_of_erase_first `{EqDecision A} (x z : A) l : NoDup l → z ∈ erase_first x l ↔ z ∈ l ∧ z ≠ x.
Proof.
  intros Hnd. destruct (decide (x ∈ l)) as [Hx|Hx].
  - pose proof (erase_first_perm x l Hx) as Hp. rewrite <- Hp in Hnd. apply NoDup_cons in Hnd as [Hn _].
    assert (z ∈ l ↔ z ∈ x :: erase_first x l) as -> by by rewrite Hp. rewrite elem_of_cons.
    split; [|tauto]. intros Hz. split; [by right|]. by intros ->.
  - rewrite erase_first_notin by done. split; [|tauto]. intros Hz. split; [done|]. by intros ->.
Qed.

(** A function whose image of [l] has no duplicates is injective on [l]. *)
Lemma NoDup_fmap_inj {B} (f : A → B) l x y :
  NoDup (f <$> l) → x ∈ l → y ∈ l → f x = f y → x = y.
Proof.
  induction l as [|z l IH]; cbn; [by intros _ ?%elem_of_nil|].
  intros [Hz Hnd]%NoDup_cons Hx Hy Hf.
  apply elem_of_cons in Hx as [->|Hx]; apply elem_of_cons in Hy as [->|Hy]; try done.
  - destruct Hz. rewrite Hf. by apply list_elem_of_fmap_2.
  - destruct Hz. rewrite <- Hf. by apply list_elem_of_fmap_2.
  - by apply IH.
Qed.

Lemma NoDup_app_sublist (l l' k : list A) : sublist l' l → NoDup (l ++ k) → NoDup (l' ++ k).
Proof. intros Hs Hnd. eapply sublist_NoDup; [exact Hnd|]. by apply sublist_app. Qed.

Lemma sublist_rev l k : sublist l k → sublist (rev l) (rev k).
Proof.
  induction 1; cbn; [done|by apply sublist_app|by apply sublist_inserts_r].
Qed.
End lists.

(** ** Calls under way

    Several threads are inside a component: a list of where each is, by thread.
    A thread that is in a call from within a call has its innermost one first. *)
Section calls.
Context {A : Type}.
Implicit Types l : list (Z * A).

(** A thread's innermost call and what is around it. *)
Fixpoint split_at (t : Z) l : option (list (Z * A) * A * list (Z * A)) :=
  match l with
  | [] => None
  | (u, f) :: l' =>
      if bool_decide (u = t) then Some ([], f, l')
      else match split_at t l' with Some (a, g, b) => Some ((u, f) :: a, g, b) | None => None end
  end.

Lemma split_at_spec t l a f b : split_at t l = Some (a, f, b) → l = a ++ (t, f) :: b.
Proof.
  revert a. induction l as [|[u g] l IH]; intros a; cbn; [done|]. case_bool_decide as Hu; [by intros [= <- <- <-]; subst|].
  destruct (split_at t l) as [[[a' f'] b']|]; [|done]. intros [= <- -> ->]. cbn. f_equal. by apply IH.
Qed.
Lemma split_at_None t l : split_at t l = None ↔ t ∉ l.*1.
Proof.
  induction l as [|[u g] l IH]; cbn; [split; [intros _; apply not_elem_of_nil|done]|]. rewrite not_elem_of_cons, <- IH.
  case_bool_decide as Hu; [split; [done|by intros [? _]]|]. destruct (split_at t l) as [[[a' f'] b']|]; split; try done; try (by intros [_ ?]).
Qed.
(** Only the thread that steps moves. *)
Lemma elem_middle (a b : list (Z * A)) t q q' u p : NoDup (a ++ (t, q) :: b).*1 →
  (u, p) ∈ a ++ (t, q') :: b ↔ (u = t ∧ p = q') ∨ (u ≠ t ∧ (u, p) ∈ a ++ (t, q) :: b).
Proof.
  intros Hnd. assert (∀ x, (t, x) ∉ a ++ b) as Hno.
  { intros x Hx. rewrite fmap_app in Hnd. cbn in Hnd. rewrite <- Permutation_middle in Hnd. apply NoDup_cons in Hnd as [Hnd _].
    apply Hnd. rewrite <- fmap_app. apply list_elem_of_fmap. by exists (t, x). }
  rewrite <- !Permutation_middle, !elem_of_cons. split.
  - intros [[= -> ->]|Hx]; [by left|]. right. split; [intros ->; by eapply Hno|by right].
  - intros [[-> ->]|[Hne [[= ? ->]|Hx]]]; [by left|done|by right].
Qed.
Lemma fst_middle (a b : list (Z * A)) t q q' : (a ++ (t, q') :: b).*1 = (a ++ (t, q) :: b).*1.
Proof. by rewrite !fmap_app. Qed.
Lemma unique_pc l t p q : NoDup l.*1 → (t, p) ∈ l → (t, q) ∈ l → p = q.
Proof. intros Hnd Hp Hq. assert ((t, p) = (t, q)) as [= ->]; [|done]. by apply (NoDup_fmap_inj fst l). Qed.
End calls.
