(* ===== verification/Geometry.v ===== *)
(** Points, sizes, displacements and rectangles, and the ordered collection
    [Rectangles] used for outputs and pointer confinement: the types of
    include/core/mir/geometry and the methods of src/core/geometry. *)

From S2P Require Import Prelude.

(** ** Data: [IntWrapper] holds an [int], so every coordinate is a [Z] kept in
    range by [int32] wherever the code computes one. *)
Record Point := Pt { px : Z; py : Z }.
Record Size := Sz { width : Z; height : Z }.
Record Displacement := Dp { dx : Z; dy : Z }.
Record Rectangle := Rect { top_left : Point; size : Size }.

#[export] Instance Point_eq_dec : EqDecision Point.
Proof. solve_decision. Defined.
#[export] Instance Size_eq_dec : EqDecision Size.
Proof. solve_decision. Defined.
#[export] Instance Displacement_eq_dec : EqDecision Displacement.
Proof. solve_decision. Defined.
#[export] Instance Rectangle_eq_dec : EqDecision Rectangle.
Proof. solve_decision. Defined.

(** Default-constructed values: every [IntWrapper] starts at 0. *)
Definition point0 : Point := Pt 0 0.
Definition size0 : Size := Sz 0 0.
Definition rectangle0 : Rectangle := Rect point0 size0.

Definition int_add (a b : Z) : Z := int32 (a + b).
Definition int_sub (a b : Z) : Z := int32 (a - b).

(** [operator+(Point, Displacement)], [operator-(Point, Displacement)] and
    [operator-(Point, Point)] *)
Definition point_add (p : Point) (d : Displacement) : Point :=
  Pt (int_add (px p) (dx d)) (int_add (py p) (dy d)).
Definition point_move_back (p : Point) (d : Displacement) : Point :=
  Pt (int_sub (px p) (dx d)) (int_sub (py p) (dy d)).
Definition point_sub (p q : Point) : Displacement :=
  Dp (int_sub (px p) (px q)) (int_sub (py p) (py q)).
Definition disp_add (a b : Displacement) : Displacement :=
  Dp (int_add (dx a) (dx b)) (int_add (dy a) (dy b)).

(** [Displacement::length_squared] works in [long long]. *)
Definition length_squared (d : Displacement) : Z :=
  int64 (int64 (dx d * dx d) + int64 (dy d * dy d)).
Definition disp_lt (a b : Displacement) : bool := bool_decide (length_squared a < length_squared b).

Definition as_displacement (s : Size) : Displacement := Dp (width s) (height s).
Definition as_size (d : Displacement) : Size := Sz (dx d) (dy d).

(** ** Rectangle *)
Definition bottom_right (r : Rectangle) : Point :=
  point_add (top_left r) (as_displacement (size r)).
Definition top_right (r : Rectangle) : Point :=
  Pt (int_add (px (top_left r)) (width (size r))) (py (top_left r)).
Definition bottom_left (r : Rectangle) : Point :=
  Pt (px (top_left r)) (int_add (py (top_left r)) (height (size r))).

Definition left_ (r : Rectangle) : Z := px (top_left r).
Definition right_ (r : Rectangle) : Z := px (bottom_right r).
Definition top_ (r : Rectangle) : Z := py (top_left r).
Definition bottom_ (r : Rectangle) : Z := py (bottom_right r).

Definition contains_rect (self r : Rectangle) : bool :=
  bool_decide (left_ r >= left_ self) &&
  bool_decide (int_add (left_ r) (width (size r)) <= int_add (left_ self) (width (size self))) &&
  bool_decide (top_ r >= top_ self) &&
  bool_decide (int_add (top_ r) (height (size r)) <= int_add (top_ self) (height (size self))).

Definition contains_point (self : Rectangle) (p : Point) : bool :=
  if bool_decide (width (size self) = 0) || bool_decide (height (size self) = 0) then false
  else
    let br := bottom_right self in
    bool_decide (px p >= left_ self) && bool_decide (px p < px br) &&
    bool_decide (py p >= top_ self) && bool_decide (py p < py br).

Definition overlaps (self r : Rectangle) : bool :=
  let disjoint :=
    bool_decide (left_ r >= right_ self)
    || bool_decide (right_ r <= left_ self)
    || bool_decide (top_ r >= bottom_ self)
    || bool_decide (bottom_ r <= top_ self)
    || bool_decide (width (size self) = 0)
    || bool_decide (height (size self) = 0)
    || bool_decide (width (size r) = 0)
    || bool_decide (height (size r) = 0) in
  negb disjoint.

Definition intersection_with (self r : Rectangle) : Rectangle :=
  let max_left := Z.max (left_ self) (left_ r) in
  let min_right := Z.min (right_ self) (right_ r) in
  let max_top := Z.max (top_ self) (top_ r) in
  let min_bottom := Z.min (bottom_ self) (bottom_ r) in
  if bool_decide (max_left < min_right) && bool_decide (max_top < min_bottom)
  then Rect (Pt max_left max_top) (Sz (int_sub min_right max_left) (int_sub min_bottom max_top))
  else rectangle0.

(** ** Rectangles: a vector of rectangles *)
Definition Rectangles := list Rectangle.

Definition rectangles_add (rs : Rectangles) (rect : Rectangle) : Rectangles := rs ++ [rect].

(** [std::find] then [erase]: drops the first equal rectangle, if any. *)
Fixpoint rectangles_remove (rs : Rectangles) (rect : Rectangle) : Rectangles :=
  match rs with
  | [] => []
  | r :: rs' => if decide (r = rect) then rs' else r :: rectangles_remove rs' rect
  end.

Definition rectangles_clear (rs : Rectangles) : Rectangles := [].

Definition clamp (x min max : Z) : Z := Z.min (Z.max x min) max.

Definition rect_from_points (tl br : Point) : Rectangle := Rect tl (as_size (point_sub br tl)).

(** The candidate position [confine] considers inside one rectangle. *)
Definition confined_point (rect : Rectangle) (point : Point) : Point :=
  let br := bottom_right rect in
  let min_x := px (top_left rect) in
  let max_x := int_sub (px br) 1 in
  let min_y := py (top_left rect) in
  let max_y := int_sub (py br) 1 in
  Pt (clamp (px point) min_x max_x) (clamp (py point) min_y max_y).

(** The loop of [confine]; [break] returns [point] at once. *)
Fixpoint confine_loop (point ret_point : Point) (min_dp : Displacement) (rs : Rectangles) : Point :=
  match rs with
  | [] => ret_point
  | rect :: rs' =>
      if contains_point rect point then point
      else if bool_decide (width (size rect) > 0) && bool_decide (height (size rect) > 0) then
        let confined := confined_point rect point in
        let dp := point_sub confined point in
        if disp_lt dp min_dp
        then confine_loop point confined dp rs'
        else confine_loop point ret_point min_dp rs'
      else confine_loop point ret_point min_dp rs'
  end.

Definition confine (rs : Rectangles) (point : Point) : Point :=
  confine_loop point point (Dp int_max int_max) rs.

(** The corners accumulated by the loop of [bounding_rectangle]; [None] until
    [points_initialized]. *)
Definition bounding_step (acc : option (Point * Point)) (rect : Rectangle) : option (Point * Point) :=
  let rtl := top_left rect in
  let rbr := bottom_right rect in
  match acc with
  | None => Some (rtl, rbr)
  | Some (tl, br) =>
      Some (Pt (Z.min (px rtl) (px tl)) (Z.min (py rtl) (py tl)),
            Pt (Z.max (px rbr) (px br)) (Z.max (py rbr) (py br)))
  end.

Definition bounding_rectangle (rs : Rectangles) : Rectangle :=
  match foldl bounding_step None rs with
  | None => rectangle0
  | Some (tl, br) => rect_from_points tl br
  end.

(** [operator==]: each rectangle claims an unused equal slot of [other]. *)
Fixpoint claim_slot (rect : Rectangle) (other : Rectangles) (used : list bool) : option (list bool) :=
  match other, used with
  | o :: other', u :: used' =>
      if negb u && bool_decide (o = rect) then Some (true :: used')
      else (λ t, u :: t) <$> claim_slot rect other' used'
  | _, _ => None
  end.

Fixpoint claim_all (rs other : Rectangles) (used : list bool) : bool :=
  match rs with
  | [] => true
  | rect :: rs' =>
      match claim_slot rect other used with
      | Some used' => claim_all rs' other used'
      | None => false
      end
  end.

Definition rectangles_eqb (self other : Rectangles) : bool :=
  if negb (bool_decide (length self = length other)) then false
  else claim_all self other (replicate (length self) false).

(** ** The plane the code computes with

    Coordinates of at most [2^30 - 1] in absolute value never overflow: the
    theorems below are about rectangles that lie in that range. *)
Definition coord_bound : Z := 2 ^ 30 - 1.
Definition coord_ok (z : Z) : Prop := - coord_bound ≤ z ≤ coord_bound.
Definition point_ok (p : Point) : Prop := coord_ok (px p) ∧ coord_ok (py p).
Definition rect_ok (r : Rectangle) : Prop :=
  point_ok (top_left r) ∧ 0 ≤ width (size r) ∧ 0 ≤ height (size r) ∧
  coord_ok (px (top_left r) + width (size r)) ∧ coord_ok (py (top_left r) + height (size r)).

(** The half-open set of points a rectangle stands for. *)
Definition covers (r : Rectangle) (p : Point) : Prop :=
  px (top_left r) ≤ px p < px (top_left r) + width (size r) ∧
  py (top_left r) ≤ py p < py (top_left r) + height (size r).

(** Squared distance without machine integers. *)
Definition dist2 (p q : Point) : Z := (px p - px q) * (px p - px q) + (py p - py q) * (py p - py q).

#[export] Instance coord_ok_dec z : Decision (coord_ok z).
Proof. unfold coord_ok. apply _. Defined.
#[export] Instance point_ok_dec p : Decision (point_ok p).
Proof. unfold point_ok. apply _. Defined.
#[export] Instance rect_ok_dec r : Decision (rect_ok r).
Proof. unfold rect_ok. apply _. Defined.
#[export] Instance covers_dec r p : Decision (covers r p).
Proof. unfold covers. apply _. Defined.

Ltac unfold_coords :=
  unfold rect_ok, point_ok, coord_ok, covers, coord_bound, int_max, int_min in *.

(** Reads boolean tests as propositions. *)
Ltac bool_to_prop :=
  rewrite ?andb_true_iff, ?orb_true_iff, ?negb_true_iff, ?orb_false_iff, ?andb_false_iff,
    ?bool_decide_eq_true, ?bool_decide_eq_false in *.

Lemma int_add_exact a b : int_min ≤ a + b ≤ int_max → int_add a b = a + b.
Proof. apply int32_id. Qed.
Lemma int_sub_exact a b : int_min ≤ a - b ≤ int_max → int_sub a b = a - b.
Proof. apply int32_id. Qed.

Section rectangle.
Implicit Types r a b : Rectangle.

Lemma bottom_right_exact r :
  rect_ok r →
  bottom_right r = Pt (px (top_left r) + width (size r)) (py (top_left r) + height (size r)).
Proof.
  intros Hok. unfold bottom_right, point_add; cbn.
  rewrite !int_add_exact by (unfold_coords; lia). done.
Qed.
Lemma right_exact r : rect_ok r → right_ r = px (top_left r) + width (size r).
Proof. intros Hok. unfold right_. by rewrite bottom_right_exact. Qed.
Lemma bottom_exact r : rect_ok r → bottom_ r = py (top_left r) + height (size r).
Proof. intros Hok. unfold bottom_. by rewrite bottom_right_exact. Qed.

Lemma contains_point_covers r p : rect_ok r → contains_point r p = true ↔ covers r p.
Proof.
  intros Hok. unfold contains_point. rewrite bottom_right_exact by done.
  unfold left_, top_; cbn.
  destruct (bool_decide (width _ = 0) || bool_decide (height _ = 0)) eqn:Hz;
    bool_to_prop; unfold_coords; lia.
Qed.

Lemma contains_rect_covers a b p :
  rect_ok a → rect_ok b → contains_rect a b = true → covers b p → covers a p.
Proof.
  unfold contains_rect, left_, top_. intros Ha Hb.
  rewrite !int_add_exact by (unfold_coords; lia). bool_to_prop. unfold_coords. lia.
Qed.

Lemma contains_rect_exact a b :
  rect_ok a → rect_ok b →
  contains_rect a b = true ↔
    px (top_left a) ≤ px (top_left b) ∧
    px (top_left b) + width (size b) ≤ px (top_left a) + width (size a) ∧
    py (top_left a) ≤ py (top_left b) ∧
    py (top_left b) + height (size b) ≤ py (top_left a) + height (size a).
Proof.
  intros Ha Hb. unfold contains_rect, left_, top_.
  rewrite !int_add_exact by (unfold_coords; lia). bool_to_prop. lia.
Qed.

Lemma rect_ok_empty : rect_ok rectangle0.
Proof. unfold_coords; cbn; lia. Qed.

Lemma intersection_exact a b :
  rect_ok a → rect_ok b →
  rect_ok (intersection_with a b) ∧
  ∀ p, covers (intersection_with a b) p ↔ covers a p ∧ covers b p.
Proof.
  intros Ha Hb. unfold intersection_with, left_, top_.
  rewrite !right_exact, !bottom_exact by done.
  destruct (bool_decide _ && bool_decide _) eqn:Hlt; bool_to_prop.
  - rewrite !int_sub_exact by (unfold_coords; lia). unfold_coords; cbn. split; [lia|].
    intros p; lia.
  - split; [apply rect_ok_empty|]. intros p. unfold_coords; cbn. lia.
Qed.

Lemma overlaps_iff a b :
  rect_ok a → rect_ok b → overlaps a b = true ↔ ∃ p, covers a p ∧ covers b p.
Proof.
  intros Ha Hb. unfold overlaps, left_, top_.
  rewrite !right_exact, !bottom_exact by done. bool_to_prop. split.
  - intros Hd.
    exists (Pt (Z.max (px (top_left a)) (px (top_left b))) (Z.max (py (top_left a)) (py (top_left b)))).
    unfold_coords; cbn. lia.
  - intros [p Hp]. unfold_coords. lia.
Qed.

Lemma overlaps_sym a b : overlaps a b = overlaps b a.
Proof.
  unfold overlaps. apply eq_iff_eq_true. bool_to_prop. lia.
Qed.
End rectangle.

(** ** Confinement *)
Section confine.
Implicit Types (r : Rectangle) (p q x : Point).

(** [q] is a point of [rs] nearest to [p]. *)
Definition nearest_in (rs : Rectangles) p q : Prop :=
  (∃ r, r ∈ rs ∧ covers r q) ∧ ∀ r x, r ∈ rs → covers r x → dist2 q p ≤ dist2 x p.

(** What [confine] promises: nothing to confine to, or the nearest point. *)
Definition confines (rs : Rectangles) p q : Prop :=
  (∀ r x, r ∈ rs → ¬ covers r x) ∧ q = p ∨ nearest_in rs p q.

Lemma square_le a b : Z.abs a ≤ Z.abs b → a * a ≤ b * b.
Proof. rewrite <- (Z.abs_square a), <- (Z.abs_square b). intros. apply Z.mul_le_mono_nonneg; lia. Qed.

Lemma dist2_refl p : dist2 p p = 0.
Proof. unfold dist2. lia. Qed.
Lemma dist2_eq0 p q : dist2 p q ≤ 0 → p = q.
Proof.
  destruct p as [a b], q as [c d]; unfold dist2; cbn; intros H.
  pose proof (Z.square_nonneg (a - c)). pose proof (Z.square_nonneg (b - d)).
  assert ((a - c) * (a - c) = 0) as Ha by lia. assert ((b - d) * (b - d) = 0) as Hb by lia.
  apply Z.mul_eq_0 in Ha. apply Z.mul_eq_0 in Hb. f_equal; lia.
Qed.

Lemma length_squared_exact d :
  - int_max ≤ dx d ≤ int_max → - int_max ≤ dy d ≤ int_max →
  length_squared d = dx d * dx d + dy d * dy d.
Proof.
  unfold length_squared, int_max; intros Hx Hy.
  rewrite (int64_id (dx d * dx d)), (int64_id (dy d * dy d)) by nia.
  rewrite int64_id by nia. done.
Qed.

Lemma point_sub_dist2 p q :
  point_ok p → point_ok q → length_squared (point_sub q p) = dist2 q p.
Proof.
  intros Hp Hq. unfold point_sub.
  rewrite !int_sub_exact by (unfold_coords; lia).
  rewrite length_squared_exact by (cbn; unfold_coords; lia). done.
Qed.

Lemma dist2_below_initial p q :
  point_ok p → point_ok q → dist2 q p < length_squared (Dp int_max int_max).
Proof.
  intros Hp Hq. rewrite length_squared_exact by (cbn; unfold_coords; lia).
  unfold dist2; cbn; unfold_coords. nia.
Qed.

Lemma covers_point_ok r p : rect_ok r → covers r p → point_ok p.
Proof. unfold_coords. lia. Qed.

Lemma clamp_nearest v lo hi c :
  lo ≤ v ≤ hi → (clamp c lo hi - c) * (clamp c lo hi - c) ≤ (v - c) * (v - c).
Proof. intros. apply square_le. unfold clamp. lia. Qed.

Lemma confined_point_exact r p :
  rect_ok r → width (size r) > 0 → height (size r) > 0 →
  covers r (confined_point r p) ∧
  ∀ x, covers r x → dist2 (confined_point r p) p ≤ dist2 x p.
Proof.
  intros Hr Hw Hh. unfold confined_point. rewrite bottom_right_exact by done.
  cbn. rewrite !int_sub_exact by (unfold_coords; lia). split.
  - unfold covers, clamp; cbn; lia.
  - intros x Hc. unfold covers in Hc. unfold dist2; cbn.
    apply Z.add_le_mono; apply clamp_nearest; lia.
Qed.

(** What the loop of [confine] has found after the rectangles [seen]. *)
Definition confine_inv (seen : Rectangles) p ret (min_dp : Displacement) : Prop :=
  (∀ r x, r ∈ seen → ¬ covers r x) ∧ ret = p ∧ min_dp = Dp int_max int_max ∨
  nearest_in seen p ret ∧ min_dp = point_sub ret p ∧ point_ok ret.

Lemma nearest_in_self rs p r : r ∈ rs → covers r p → nearest_in rs p p.
Proof.
  intros Hr Hc; split; [by exists r|]. intros r' x _ _. rewrite dist2_refl.
  unfold dist2. pose proof (Z.square_nonneg (px x - px p)). pose proof (Z.square_nonneg (py x - py p)). lia.
Qed.

Lemma confine_inv_skip seen p ret min_dp r :
  (∀ x, ¬ covers r x) → confine_inv seen p ret min_dp → confine_inv (seen ++ [r]) p ret min_dp.
Proof.
  intros Hr [(Hn & ? & ?)|([(r0 & Hin & Hc) Hmin] & ? & ?)].
  - left. split; [|done]. intros r' x [Hin| ->%list_elem_of_singleton]%elem_of_app; eauto.
  - right. split; [|done]. split.
    + exists r0. split; [set_solver|done].
    + intros r' x [Hin'| ->%list_elem_of_singleton]%elem_of_app Hx; eauto. by destruct (Hr x).
Qed.

Lemma confine_inv_step seen p ret min_dp r :
  point_ok p → rect_ok r → width (size r) > 0 → height (size r) > 0 →
  confine_inv seen p ret min_dp →
  let c := confined_point r p in
  let d := point_sub c p in
  if disp_lt d min_dp then confine_inv (seen ++ [r]) p c d
  else confine_inv (seen ++ [r]) p ret min_dp.
Proof.
  intros Hp Hr Hw Hh Hinv c d. destruct (confined_point_exact r p Hr Hw Hh) as [Hc Hnear].
  pose proof (covers_point_ok _ _ Hr Hc) as Hcok. fold c in Hc, Hnear, Hcok.
  assert (length_squared d = dist2 c p) as Hd by by apply point_sub_dist2.
  unfold disp_lt. case_bool_decide as Hlt.
  - right. split; [|done]. split; [exists r; set_solver|].
    intros r' x [Hin| ->%list_elem_of_singleton]%elem_of_app Hx; [|by apply Hnear].
    destruct Hinv as [(Hn & _)|([_ Hmin] & -> & Hret)]; [by destruct (Hn r' x)|].
    rewrite Hd, point_sub_dist2 in Hlt by done. specialize (Hmin r' x Hin Hx). lia.
  - destruct Hinv as [(Hn & -> & ->)|([(r0 & Hin & Hc0) Hmin] & -> & Hret)].
    + pose proof (dist2_below_initial p c Hp Hcok). lia.
    + rewrite Hd, point_sub_dist2 in Hlt by done.
      right. split; [|done]. split; [exists r0; set_solver|].
      intros r' x [Hin'| ->%list_elem_of_singleton]%elem_of_app Hx; [by eapply Hmin|].
      specialize (Hnear x Hx). lia.
Qed.

Lemma confine_loop_spec rs seen p ret min_dp :
  Forall rect_ok rs → point_ok p → confine_inv seen p ret min_dp →
  confines (seen ++ rs) p (confine_loop p ret min_dp rs).
Proof.
  intros Hrs Hp. revert seen ret min_dp.
  induction Hrs as [|r rs Hr Hrs IH]; intros seen ret min_dp Hinv; cbn [confine_loop].
  { rewrite app_nil_r. unfold confines. destruct Hinv as [(? & ? & ?)|(? & ? & ?)]; auto. }
  destruct (contains_point r p) eqn:Hcp.
  { right. apply contains_point_covers in Hcp; [|done].
    apply (nearest_in_self _ _ r); [set_solver|done]. }
  rewrite (app_assoc seen [r] rs : seen ++ r :: rs = _).
  destruct (bool_decide _ && bool_decide _) eqn:Hpos; bool_to_prop.
  - pose proof (confine_inv_step seen p ret min_dp r) as Hstep.
    cbn zeta in Hstep. destruct (disp_lt _ _); apply IH, Hstep; tauto.
  - apply IH, confine_inv_skip; [|done]. intros x Hx. unfold_coords. lia.
Qed.

Lemma confine_spec rs p : Forall rect_ok rs → point_ok p → confines rs p (confine rs p).
Proof.
  intros Hrs Hp. apply (confine_loop_spec rs []); [done..|].
  left. split; [|done]. intros r x Hin. by apply elem_of_nil in Hin.
Qed.

(** A point that is already inside some rectangle stays where it is. *)
Lemma confines_inside rs p q r : confines rs p q → r ∈ rs → covers r p → q = p.
Proof.
  intros [[Hn _]|[_ Hmin]] Hin Hc; [by destruct (Hn r p)|].
  apply dist2_eq0. rewrite <- (dist2_refl p). by apply (Hmin r).
Qed.
End confine.

(** ** Bounding rectangle *)
Section bounding.
Implicit Types (r : Rectangle) (tl br : Point).

(** The corners reached from [tl], [br] are the componentwise minimum and
    maximum, stated by their lower and upper bounds. *)
Definition corners_of (rs : Rectangles) tl br tl' br' : Prop :=
  (∀ l, l ≤ px tl' ↔ l ≤ px tl ∧ ∀ r, r ∈ rs → l ≤ px (top_left r)) ∧
  (∀ l, l ≤ py tl' ↔ l ≤ py tl ∧ ∀ r, r ∈ rs → l ≤ py (top_left r)) ∧
  (∀ u, px br' ≤ u ↔ px br ≤ u ∧ ∀ r, r ∈ rs → px (bottom_right r) ≤ u) ∧
  (∀ u, py br' ≤ u ↔ py br ≤ u ∧ ∀ r, r ∈ rs → py (bottom_right r) ≤ u).

Lemma forall_elem_of_cons {A} (P : A → Prop) x l :
  (∀ y, y ∈ x :: l → P y) ↔ P x ∧ ∀ y, y ∈ l → P y.
Proof.
  split; [intros H; split; [|intros]; apply H; by constructor|].
  intros [Hx Hl] y [->|Hin]%elem_of_cons; auto.
Qed.

Lemma bounding_fold rs tl br :
  ∃ tl' br', foldl bounding_step (Some (tl, br)) rs = Some (tl', br') ∧
    corners_of rs tl br tl' br'.
Proof.
  revert tl br; induction rs as [|r rs IH]; intros tl br; cbn [foldl bounding_step].
  - exists tl, br. split; [done|].
    repeat split; try tauto; intros ? Hin; by apply elem_of_nil in Hin.
  - destruct (IH (Pt (Z.min (px (top_left r)) (px tl)) (Z.min (py (top_left r)) (py tl)))
      (Pt (Z.max (px (bottom_right r)) (px br)) (Z.max (py (bottom_right r)) (py br))))
      as (tl' & br' & Hf & H1 & H2 & H3 & H4).
    exists tl', br'. split; [done|].
    split_and!; [intros l; rewrite H1|intros l; rewrite H2|intros u; rewrite H3|intros u; rewrite H4];
      cbn [px py]; rewrite ?Z.min_glb_iff, ?Z.max_lub_iff, forall_elem_of_cons; tauto.
Qed.

Lemma corners_ok rs r tl br :
  Forall rect_ok (r :: rs) → corners_of rs (top_left r) (bottom_right r) tl br →
  point_ok tl ∧ point_ok br ∧ px tl ≤ px br ∧ py tl ≤ py br.
Proof.
  intros [Hr Hrs]%Forall_cons (H1 & H2 & H3 & H4).
  destruct (proj1 (H1 (px tl)) ltac:(lia)) as [Hx _]. destruct (proj1 (H2 (py tl)) ltac:(lia)) as [Hy _].
  destruct (proj1 (H3 (px br)) ltac:(lia)) as [Hx' _]. destruct (proj1 (H4 (py br)) ltac:(lia)) as [Hy' _].
  rewrite bottom_right_exact in H3, H4, Hx', Hy' by done; cbn in *.
  assert (- coord_bound ≤ px tl ∧ - coord_bound ≤ py tl ∧ px br ≤ coord_bound ∧ py br ≤ coord_bound)
    as (? & ? & ? & ?); [|unfold_coords; lia].
  split_and!; [apply H1|apply H2|apply H3|apply H4]; (split; [unfold_coords; lia|]);
    intros r' Hin; pose proof (proj1 (Forall_forall _ _) Hrs r' Hin) as Hr';
    rewrite ?int_add_exact by (unfold_coords; lia); unfold_coords; lia.
Qed.

Lemma bounding_spec r rs :
  Forall rect_ok (r :: rs) →
  rect_ok (bounding_rectangle (r :: rs)) ∧
  ∀ c, rect_ok c →
    (contains_rect c (bounding_rectangle (r :: rs)) = true ↔
     ∀ r', r' ∈ r :: rs → contains_rect c r' = true).
Proof.
  intros Hok. unfold bounding_rectangle. cbn [foldl bounding_step].
  destruct (bounding_fold rs (top_left r) (bottom_right r)) as (tl & br & -> & Hc).
  destruct (corners_ok _ _ _ _ Hok Hc) as (Htl & Hbr & Hx & Hy).
  assert (rect_ok (rect_from_points tl br)) as Hb.
  { unfold rect_from_points, point_sub. cbn.
    unfold_coords; cbn. rewrite !int_sub_exact by (unfold_coords; lia). lia. }
  split; [done|]. intros c Hcok. rewrite contains_rect_exact by done.
  unfold rect_from_points, point_sub; cbn. rewrite !int_sub_exact by (unfold_coords; lia).
  rewrite !Zplus_minus. destruct Hc as (H1 & H2 & H3 & H4).
  rewrite H1, H2, H3, H4.
  assert (∀ r', r' ∈ r :: rs → contains_rect c r' = true ↔
    px (top_left c) ≤ px (top_left r') ∧ py (top_left c) ≤ py (top_left r') ∧
    px (bottom_right r') ≤ px (top_left c) + width (size c) ∧
    py (bottom_right r') ≤ py (top_left c) + height (size c)) as Hall.
  { intros r' Hin. pose proof (proj1 (Forall_forall _ _) Hok r' Hin) as Hr'.
    rewrite contains_rect_exact, bottom_right_exact by done; cbn. lia. }
  split.
  - intros Hc r' Hin. apply Hall; [done|]. apply elem_of_cons in Hin as [->|Hin]; naive_solver.
  - intros Hc.
    assert (∀ r', r' ∈ r :: rs → _) as Hc' by (intros r' Hin; exact (proj1 (Hall r' Hin) (Hc r' Hin))).
    pose proof (Hc' r ltac:(left)). assert (∀ r', r' ∈ rs → r' ∈ r :: rs) by (by right).
    naive_solver.
Qed.
End bounding.

(** ** Equality of collections *)
Section equality.
Implicit Types (rect : Rectangle) (other rs : Rectangles).

(** The slots no rectangle has claimed yet. *)
Fixpoint unused other (used : list bool) : Rectangles :=
  match other, used with
  | o :: other', u :: used' => if u then unused other' used' else o :: unused other' used'
  | _, _ => []
  end.

Lemma unused_all other : unused other (replicate (length other) false) = other.
Proof. induction other as [|o other IH]; cbn; [done|]. by rewrite IH. Qed.

Lemma claim_slot_Some rect other used used' :
  claim_slot rect other used = Some used' → unused other used ≡ₚ rect :: unused other used'.
Proof.
  revert used used'; induction other as [|o other IH]; intros [|u used] used'; cbn; try done.
  case_match eqn:Hu; [intros; simplify_eq|].
  - bool_to_prop. by destruct Hu as [-> ->].
  - intros (t & Ht & ->)%fmap_Some. apply IH in Ht.
    destruct u; [done|]. rewrite Ht. by constructor.
Qed.

Lemma claim_slot_None rect other used : claim_slot rect other used = None → rect ∉ unused other used.
Proof.
  revert used; induction other as [|o other IH]; intros [|u used]; cbn; try (by intros; apply not_elem_of_nil).
  case_match eqn:Hu; [done|]. intros Hf%fmap_None. specialize (IH _ Hf).
  destruct u; [done|]. bool_to_prop. set_solver.
Qed.

Lemma claim_all_iff rs other used :
  claim_all rs other used = true ↔ ∃ l, rs ++ l ≡ₚ unused other used.
Proof.
  revert used; induction rs as [|rect rs IH]; intros used; cbn.
  - split; [by exists (unused other used)|done].
  - destruct (claim_slot rect other used) as [used'|] eqn:Hs.
    + rewrite IH. apply claim_slot_Some in Hs.
      split; intros [l Hl]; exists l; rewrite Hs in *; [by constructor|].
      by apply Permutation_cons_inv in Hl.
    + apply claim_slot_None in Hs. split; [done|]. intros [l Hl]. destruct Hs. rewrite <- Hl. left.
Qed.

Lemma rectangles_eqb_iff self other : rectangles_eqb self other = true ↔ self ≡ₚ other.
Proof.
  unfold rectangles_eqb. case_bool_decide as Hlen; cbn.
  - rewrite claim_all_iff, Hlen, unused_all. split; [|intros; exists []; by rewrite app_nil_r].
    intros [l Hl]. pose proof (Permutation_length Hl) as Hl'. rewrite length_app in Hl'.
    destruct l; [by rewrite app_nil_r in Hl|cbn in Hl'; lia].
  - split; [done|]. intros Hp%Permutation_length. lia.
Qed.
End equality.

(** ** Properties *)

(** Confining a point to a collection of rectangles either leaves it alone,
    when no rectangle has an inside, or moves it to a point inside one of them
    such that no point of any rectangle is nearer: the loop's running minimum
    over clamped candidates, its early exit and its machine arithmetic give the
    true nearest point. *)
Theorem confine_nearest rs p :
  Forall rect_ok rs → point_ok p → confines rs p (confine rs p).
Proof. apply confine_spec. Qed.

Lemma confine_nearest_witness :
  confines [Rect (Pt 0 0) (Sz 10 10); Rect (Pt 20 0) (Sz 5 5)] (Pt 18 9)
    (confine [Rect (Pt 0 0) (Sz 10 10); Rect (Pt 20 0) (Sz 5 5)] (Pt 18 9)).
Proof.
  apply confine_nearest.
  - apply (bool_decide_unpack (Forall rect_ok _)). vm_compute. exact I.
  - apply (bool_decide_unpack (point_ok _)). vm_compute. exact I.
Defined.

(** The bounding rectangle of a non-empty collection is in range and is the
    least one: a rectangle contains it exactly when it contains every rectangle
    of the collection. *)
Theorem bounding_rectangle_least r rs :
  Forall rect_ok (r :: rs) →
  rect_ok (bounding_rectangle (r :: rs)) ∧
  ∀ c, rect_ok c →
    (contains_rect c (bounding_rectangle (r :: rs)) = true ↔
     ∀ r', r' ∈ r :: rs → contains_rect c r' = true).
Proof. apply bounding_spec. Qed.

Lemma bounding_rectangle_least_witness :
  bounding_rectangle [Rect (Pt (-3) 2) (Sz 4 4); Rect (Pt 0 0) (Sz 2 9)] = Rect (Pt (-3) 0) (Sz 5 9) ∧
  rect_ok (bounding_rectangle [Rect (Pt (-3) 2) (Sz 4 4); Rect (Pt 0 0) (Sz 2 9)]).
Proof.
  split; [vm_compute; reflexivity|].
  apply (bounding_rectangle_least (Rect (Pt (-3) 2) (Sz 4 4)) [Rect (Pt 0 0) (Sz 2 9)]).
  apply (bool_decide_unpack (Forall rect_ok _)). vm_compute. exact I.
Defined.

(** Comparing two collections slot by slot with the [element_used] flags
    decides equality up to order: it answers true exactly on permutations. *)
Theorem rectangles_eqb_permutation self other :
  rectangles_eqb self other = true ↔ self ≡ₚ other.
Proof. apply rectangles_eqb_iff. Qed.

(** The intersection of two rectangles covers exactly the points both cover,
    [overlaps] says whether there is such a point, and a rectangle containing
    another covers all of its points. *)
Theorem rectangle_point_semantics a b :
  rect_ok a → rect_ok b →
  (∀ p, covers (intersection_with a b) p ↔ covers a p ∧ covers b p) ∧
  (overlaps a b = true ↔ ∃ p, covers a p ∧ covers b p) ∧
  (contains_rect a b = true → ∀ p, covers b p → covers a p).
Proof.
  intros Ha Hb. split_and!.
  - by apply intersection_exact.
  - by apply overlaps_iff.
  - intros Hc p. by apply contains_rect_covers.
Qed.

Lemma rectangle_point_semantics_witness :
  overlaps (Rect (Pt 0 0) (Sz 4 4)) (Rect (Pt 3 3) (Sz 4 4)) = true ∧
  ∃ p, covers (Rect (Pt 0 0) (Sz 4 4)) p ∧ covers (Rect (Pt 3 3) (Sz 4 4)) p.
Proof.
  split; [vm_compute; reflexivity|].
  apply rectangle_point_semantics.
  - apply (bool_decide_unpack (rect_ok _)). vm_compute. exact I.
  - apply (bool_decide_unpack (rect_ok _)). vm_compute. exact I.
  - vm_compute. reflexivity.
Defined.
