(* ===== verification/Float32.v ===== *)
(** The IEEE 754 binary32 arithmetic behind the code's [float] values: pointer
    coordinates, alpha and scale factors.  The operations are the Standard
    Library's executable specification of binary floating point at 24 bits of
    precision, with the two integer conversions the code uses. *)

From Stdlib Require Export SpecFloat.
From S2P Require Import Prelude.

Definition float32 : Type := spec_float.

#[export] Instance float32_eq_dec : EqDecision float32.
Proof. solve_decision. Defined.

Definition f32_add : float32 → float32 → float32 := SFadd 24 128.
Definition f32_sub : float32 → float32 → float32 := SFsub 24 128.
Definition f32_mul : float32 → float32 → float32 := SFmul 24 128.
Definition f32_eqb : float32 → float32 → bool := SFeqb.
Definition f32_ltb : float32 → float32 → bool := SFltb.

(** [static_cast<float>(int)]: round to nearest even. *)
Definition f32_of_int (z : Z) : float32 := binary_normalize 24 128 z 0 false.

(** [static_cast<int>(float)]: truncation; the conversions the standard leaves
    undefined give [int_min], as the x86 instruction does. *)
Definition f32_to_int (f : float32) : Z :=
  match f with
  | S754_zero _ => 0
  | S754_finite s m e =>
      let a := if 0 <=? e then Z.pos m * 2 ^ e else Z.pos m / 2 ^ (- e) in
      let z := if s then - a else a in
      if bool_decide (int_min ≤ z ≤ int_max) then z else int_min
  | S754_infinity _ | S754_nan => int_min
  end.

Definition f32_zero : float32 := S754_zero false.
Definition f32_one : float32 := f32_of_int 1.

(** ** Integers of at most 24 bits convert exactly *)
Lemma digits2_pos_bound m : 2 ^ (Z.pos (digits2_pos m) - 1) ≤ Z.pos m < 2 ^ Z.pos (digits2_pos m).
Proof.
  induction m as [m IH|m IH|]; cbn [digits2_pos]; [..|lia].
  - rewrite Pos2Z.inj_succ. replace (Z.succ _ - 1) with (Z.pos (digits2_pos m) - 1 + 1) by lia.
    rewrite Z.pow_add_r, Z.pow_succ_r by lia. lia.
  - rewrite Pos2Z.inj_succ. replace (Z.succ _ - 1) with (Z.pos (digits2_pos m) - 1 + 1) by lia.
    rewrite Z.pow_add_r, Z.pow_succ_r by lia. lia.
Qed.

Lemma iter_xO m d : Z.pos (Pos.iter xO m d) = Z.pos m * 2 ^ Z.pos d.
Proof.
  induction d as [|d IH] using Pos.peano_ind; cbn [Pos.iter]; [lia|].
  rewrite Pos.iter_succ, Pos2Z.inj_xO, IH, Pos2Z.inj_succ, Z.pow_succ_r by lia. lia.
Qed.

Lemma digits2_unique m d : 2 ^ (Z.pos d - 1) ≤ Z.pos m < 2 ^ Z.pos d → digits2_pos m = d.
Proof.
  intros Hd. pose proof (digits2_pos_bound m) as Hm.
  assert (Z.pos (digits2_pos m) - 1 < Z.pos d).
  { apply (Z.pow_lt_mono_r_iff 2); lia. }
  assert (Z.pos d - 1 < Z.pos (digits2_pos m)).
  { apply (Z.pow_lt_mono_r_iff 2); lia. }
  lia.
Qed.

(** A 24-bit mantissa with a representable exponent is already rounded. *)
Lemma binary_round_aux_exact s m e :
  digits2_pos m = 24%positive → -149 ≤ e ≤ 104 →
  binary_round_aux 24 128 s (Z.pos m) e loc_Exact = S754_finite s m e.
Proof.
  intros Hm He. unfold binary_round_aux, shr_fexp. cbn [Zdigits2 shr_record_of_loc].
  rewrite Hm. assert (fexp 24 128 (24 + e) - e = 0) as Hz by (unfold fexp, emin; lia).
  rewrite Hz. cbn. rewrite Hm, Hz. cbn.
  destruct (Z.leb_spec e (128 - 24)); [done|lia].
Qed.

Lemma f32_of_pos_exact s m :
  Z.pos m < 2 ^ 24 →
  ∃ d, 0 ≤ d < 24 ∧ binary_round 24 128 s m 0 = S754_finite s (Z.to_pos (Z.pos m * 2 ^ d)) (- d).
Proof.
  intros Hm. pose proof (digits2_pos_bound m) as Hb. set (k := digits2_pos m) in *.
  assert (Z.pos k - 1 < 24) by (apply (Z.pow_lt_mono_r_iff 2); lia).
  exists (24 - Z.pos k). split; [lia|]. unfold binary_round. fold k.
  assert (fexp 24 128 (Z.pos k + 0) = Z.pos k - 24) as -> by (unfold fexp, emin; lia).
  unfold shl_align. rewrite Z.sub_0_r.
  assert (binary_round_aux 24 128 s (Z.pos (Z.to_pos (Z.pos m * 2 ^ (24 - Z.pos k)))) (Z.pos k - 24) loc_Exact
    = S754_finite s (Z.to_pos (Z.pos m * 2 ^ (24 - Z.pos k))) (Z.pos k - 24)) as Hr.
  { apply binary_round_aux_exact; [|lia]. apply digits2_unique.
    assert (0 < 2 ^ (24 - Z.pos k)) by (apply Z.pow_pos_nonneg; lia).
    rewrite Z2Pos.id by nia.
    assert (2 ^ (Z.pos 24 - 1) = 2 ^ (Z.pos k - 1) * 2 ^ (24 - Z.pos k)) as ->.
    { rewrite <- Z.pow_add_r by lia. f_equal. lia. }
    assert (2 ^ Z.pos 24 = 2 ^ Z.pos k * 2 ^ (24 - Z.pos k)) as ->.
    { rewrite <- Z.pow_add_r by lia. f_equal. lia. }
    nia. }
  replace (- (24 - Z.pos k)) with (Z.pos k - 24) by lia.
  destruct (Z.pos k - 24) as [|p|p] eqn:Hp; [..|].
  - replace (24 - Z.pos k) with 0 in * by lia. rewrite Z.mul_1_r in *. exact Hr.
  - lia.
  - cbn iota beta. rewrite iter_xO. replace (Z.pos p) with (24 - Z.pos k) by lia.
    rewrite Z2Pos.id in Hr by (apply Z.mul_pos_pos; [lia|apply Z.pow_pos_nonneg; lia]).
    exact Hr.
Qed.

Lemma f32_to_int_round s m :
  Z.pos m < 2 ^ 24 →
  f32_to_int (binary_round 24 128 s m 0) = if s then - Z.pos m else Z.pos m.
Proof.
  intros Hm. destruct (f32_of_pos_exact s m Hm) as (d & Hd & ->). cbn [f32_to_int].
  rewrite Z2Pos.id by (apply Z.mul_pos_pos; [lia|apply Z.pow_pos_nonneg; lia]).
  assert ((if 0 <=? - d then Z.pos m * 2 ^ d * 2 ^ (- d) else Z.pos m * 2 ^ d / 2 ^ (- - d)) = Z.pos m) as ->.
  { destruct (Z.leb_spec 0 (- d)); [replace d with 0 by lia; lia|].
    rewrite Z.opp_involutive, Z.div_mul; [done|]. apply Z.pow_nonzero; lia. }
  rewrite bool_decide_true; [done|]. unfold int_min, int_max. destruct s; lia.
Qed.

Lemma f32_int_roundtrip z : - 2 ^ 24 < z < 2 ^ 24 → f32_to_int (f32_of_int z) = z.
Proof.
  intros Hz. unfold f32_of_int. destruct z as [|m|m]; [done|..]; cbn [binary_normalize];
    rewrite f32_to_int_round; lia.
Qed.
