(* ===== verification/Events.v ===== *)
(** Input events (src/common/events/touch_event.cpp, pointer_event.cpp,
    src/client/events/event_builders.cpp, src/client/input/input_event.cpp): the
    capnproto messages behind [MirEvent] as records, their accessors with their
    bounds checks, the builders and the coordinate shift dispatchers apply. *)

From S2P Require Import Prelude Geometry Float32.

Inductive key_action := key_up | key_down | key_repeat.
#[export] Instance key_action_eq_dec : EqDecision key_action.
Proof. solve_decision. Defined.
Inductive touch_action := touch_up | touch_down | touch_change.
#[export] Instance touch_action_eq_dec : EqDecision touch_action.
Proof. solve_decision. Defined.
Inductive pointer_action := button_up | button_down | pointer_enter | pointer_leave | pointer_motion.
#[export] Instance pointer_action_eq_dec : EqDecision pointer_action.
Proof. solve_decision. Defined.

(** ** Messages *)

(** One contact of a touch event, as the message and as [ContactState] hold it. *)
Record ContactState := mkContact {
  touch_id : Z;
  action : touch_action;
  tooltype : Z;
  x : float32;
  y : float32;
  pressure : float32;
  touch_major : float32;
  touch_minor : float32;
  orientation : float32
}.
#[export] Instance ContactState_eq_dec : EqDecision ContactState.
Proof. solve_decision. Defined.
Definition contact0 : ContactState :=
  mkContact 0 touch_up 0 f32_zero f32_zero f32_zero f32_zero f32_zero f32_zero.

Definition max_count : nat := 16.

(** What every input event carries. *)
Record InputHeader := mkHeader { device_id : Z; event_time : Z; modifiers : Z; cookie : list Z }.
#[export] Instance InputHeader_eq_dec : EqDecision InputHeader.
Proof. solve_decision. Defined.

(** [contacts] always has [max_count] entries; [count] of them are in use. *)
Record MirTouchEvent := mkTouch { touch_header : InputHeader; count : Z; contacts : list ContactState }.
#[export] Instance MirTouchEvent_eq_dec : EqDecision MirTouchEvent.
Proof. solve_decision. Defined.

Record MirPointerEvent := mkPointer {
  pointer_header : InputHeader;
  pointer_action_of : pointer_action;
  buttons : Z;
  pointer_x : float32;
  pointer_y : float32;
  dx : float32;
  dy : float32;
  vscroll : float32;
  hscroll : float32
}.
#[export] Instance MirPointerEvent_eq_dec : EqDecision MirPointerEvent.
Proof. solve_decision. Defined.

Record MirKeyboardEvent := mkKey {
  key_header : InputHeader;
  key_action_of : key_action;
  key_code : Z;
  scan_code : Z
}.
#[export] Instance MirKeyboardEvent_eq_dec : EqDecision MirKeyboardEvent.
Proof. solve_decision. Defined.

Inductive MirEvent :=
  | Key (e : MirKeyboardEvent)
  | Touch (e : MirTouchEvent)
  | Pointer (e : MirPointerEvent)
  (** any event that is not an input event *)
  | NonInput (kind : Z).
#[export] Instance MirEvent_eq_dec : EqDecision MirEvent.
Proof. solve_decision. Defined.

(** ** MirTouchEvent *)
Definition touch_event_empty (h : InputHeader) : MirTouchEvent := mkTouch h 0 (replicate max_count contact0).

Definition throw_if_out_of_bounds (index : Z) (e : MirTouchEvent) : outcome unit :=
  if count e <? index then Throw (out_of_range "Out of bounds index in pointer coordinates") else Ret tt.

(** [getContacts()[index]]; past the list capnproto promises nothing. *)
Definition contact_get (index : Z) (e : MirTouchEvent) : outcome ContactState :=
  let? _ := throw_if_out_of_bounds index e in
  match contacts e !! Z.to_nat index with
  | Some c => Ret c
  | None => Throw (undefined_behaviour "list index out of range")
  end.
Definition contact_set (index : Z) (f : ContactState → ContactState) (e : MirTouchEvent) : outcome MirTouchEvent :=
  let? _ := throw_if_out_of_bounds index e in
  match contacts e !! Z.to_nat index with
  | Some c => Ret (mkTouch (touch_header e) (count e) (<[Z.to_nat index := f c]> (contacts e)))
  | None => Throw (undefined_behaviour "list index out of range")
  end.

Definition touch_event_id i e := let? c := contact_get i e in Ret (touch_id c).
Definition touch_event_x i e := let? c := contact_get i e in Ret (x c).
Definition touch_event_y i e := let? c := contact_get i e in Ret (y c).
Definition touch_event_touch_major i e := let? c := contact_get i e in Ret (touch_major c).
Definition touch_event_touch_minor i e := let? c := contact_get i e in Ret (touch_minor c).
Definition touch_event_pressure i e := let? c := contact_get i e in Ret (pressure c).
Definition touch_event_orientation i e := let? c := contact_get i e in Ret (orientation c).
Definition touch_event_tool_type i e := let? c := contact_get i e in Ret (tooltype c).
Definition touch_event_action i e := let? c := contact_get i e in Ret (action c).

Definition touch_event_set_id i v := contact_set i (λ c,
  mkContact v (action c) (tooltype c) (x c) (y c) (pressure c) (touch_major c) (touch_minor c) (orientation c)).
Definition touch_event_set_x i v := contact_set i (λ c,
  mkContact (touch_id c) (action c) (tooltype c) v (y c) (pressure c) (touch_major c) (touch_minor c) (orientation c)).
Definition touch_event_set_y i v := contact_set i (λ c,
  mkContact (touch_id c) (action c) (tooltype c) (x c) v (pressure c) (touch_major c) (touch_minor c) (orientation c)).
Definition touch_event_set_touch_major i v := contact_set i (λ c,
  mkContact (touch_id c) (action c) (tooltype c) (x c) (y c) (pressure c) v (touch_minor c) (orientation c)).
Definition touch_event_set_touch_minor i v := contact_set i (λ c,
  mkContact (touch_id c) (action c) (tooltype c) (x c) (y c) (pressure c) (touch_major c) v (orientation c)).
Definition touch_event_set_pressure i v := contact_set i (λ c,
  mkContact (touch_id c) (action c) (tooltype c) (x c) (y c) v (touch_major c) (touch_minor c) (orientation c)).
Definition touch_event_set_orientation i v := contact_set i (λ c,
  mkContact (touch_id c) (action c) (tooltype c) (x c) (y c) (pressure c) (touch_major c) (touch_minor c) v).
Definition touch_event_set_tool_type i v := contact_set i (λ c,
  mkContact (touch_id c) (action c) v (x c) (y c) (pressure c) (touch_major c) (touch_minor c) (orientation c)).
Definition touch_event_set_action i v := contact_set i (λ c,
  mkContact (touch_id c) v (tooltype c) (x c) (y c) (pressure c) (touch_major c) (touch_minor c) (orientation c)).
Definition set_pointer_count (n : Z) (e : MirTouchEvent) : MirTouchEvent := mkTouch (touch_header e) (uint32 n) (contacts e).

(** The constructor from contacts: [initContacts(MAX_COUNT)], then entry by
    entry; the list has no room for more. *)
Definition make_touch_event (h : InputHeader) (cs : list ContactState) : outcome MirTouchEvent :=
  if bool_decide (length cs ≤ max_count)%nat
  then Ret (mkTouch h (Z.of_nat (length cs)) (cs ++ replicate (max_count - length cs) contact0))
  else Throw (undefined_behaviour "list index out of range").

Definition add_touch (c : ContactState) (e : MirTouchEvent) : outcome MirTouchEvent :=
  let i := count e in
  let e := set_pointer_count (i + 1) e in
  let? e := touch_event_set_id i (touch_id c) e in
  let? e := touch_event_set_tool_type i (tooltype c) e in
  let? e := touch_event_set_x i (x c) e in
  let? e := touch_event_set_y i (y c) e in
  let? e := touch_event_set_pressure i (pressure c) e in
  let? e := touch_event_set_touch_major i (touch_major c) e in
  let? e := touch_event_set_touch_minor i (touch_minor c) e in
  touch_event_set_action i (action c) e.

(** ** The client accessors; [abort] ends the run *)
Inductive touch_axis := axis_x | axis_y | axis_pressure | axis_touch_major | axis_touch_minor | axis_size.
Definition aborted : exn := undefined_behaviour "abort".

(** [std::max] of floats: the second only when the first is less. *)
Definition f32_max (a b : float32) : float32 := if f32_ltb a b then b else a.

Definition mir_touch_event_id (e : MirTouchEvent) (i : Z) : outcome Z :=
  if count e <=? i then Throw aborted else touch_event_id i e.
Definition mir_touch_event_action (e : MirTouchEvent) (i : Z) : outcome touch_action :=
  if count e <? i then Throw aborted else touch_event_action i e.
Definition mir_touch_event_tooltype (e : MirTouchEvent) (i : Z) : outcome Z :=
  if count e <? i then Throw aborted else touch_event_tool_type i e.
Definition mir_touch_event_axis_value (e : MirTouchEvent) (i : Z) (a : touch_axis) : outcome float32 :=
  if count e <? i then Throw aborted else
  match a with
  | axis_x => touch_event_x i e
  | axis_y => touch_event_y i e
  | axis_pressure => touch_event_pressure i e
  | axis_touch_major => touch_event_touch_major i e
  | axis_touch_minor => touch_event_touch_minor i e
  | axis_size =>
      let? a := touch_event_touch_major i e in
      let? b := touch_event_touch_minor i e in
      Ret (f32_max a b)
  end.

Definition mir_pointer_event_button_state (e : MirPointerEvent) (button : Z) : bool :=
  negb (Z.land (buttons e) button =? 0).

(** The contacts in use are looked at until one is going up or down. *)
Fixpoint any_contact_changing (e : MirTouchEvent) (l : list Z) : outcome bool :=
  match l with
  | [] => Ret false
  | i :: l' =>
      let? a := mir_touch_event_action e i in
      if bool_decide (a = touch_up ∨ a = touch_down) then Ret true else any_contact_changing e l'
  end.
Definition indices (n : Z) : list Z := Z.of_nat <$> seq 0 (Z.to_nat n).

Definition mir_input_event_has_cookie (ev : MirEvent) : outcome bool :=
  match ev with
  | Key _ => Ret true
  | Pointer e => Ret (bool_decide (pointer_action_of e = button_up ∨ pointer_action_of e = button_down))
  | Touch e => any_contact_changing e (indices (count e))
  | NonInput _ => Throw aborted
  end.

(** ** Builders *)
Definition make_pointer_event (h : InputHeader) (a : pointer_action) (b : Z)
    (x_axis_value y_axis_value hscroll_value vscroll_value relative_x_value relative_y_value : float32) : MirPointerEvent :=
  mkPointer h a b x_axis_value y_axis_value relative_x_value relative_y_value vscroll_value hscroll_value.

Definition set_modifier (m : Z) (ev : MirEvent) : outcome MirEvent :=
  let set h := mkHeader (device_id h) (event_time h) m (cookie h) in
  match ev with
  | Key e => Ret (Key (mkKey (set (key_header e)) (key_action_of e) (key_code e) (scan_code e)))
  | Touch e => Ret (Touch (mkTouch (set (touch_header e)) (count e) (contacts e)))
  | Pointer e =>
      Ret (Pointer (mkPointer (set (pointer_header e)) (pointer_action_of e) (buttons e) (pointer_x e) (pointer_y e)
        (dx e) (dy e) (vscroll e) (hscroll e)))
  | NonInput _ => Throw (invalid_argument "Input event modifiers are only valid for input events.")
  end.

Definition pointer_at (px py : float32) (e : MirPointerEvent) : MirPointerEvent :=
  mkPointer (pointer_header e) (pointer_action_of e) (buttons e) px py (dx e) (dy e) (vscroll e) (hscroll e).
Definition pointer_with_buttons (b : Z) (e : MirPointerEvent) : MirPointerEvent :=
  mkPointer (pointer_header e) (pointer_action_of e) b (pointer_x e) (pointer_y e) (dx e) (dy e) (vscroll e) (hscroll e).

Definition set_cursor_position (px py : float32) (ev : MirEvent) : outcome MirEvent :=
  match ev with
  | Pointer e => Ret (Pointer (pointer_at px py e))
  | _ => Throw (invalid_argument "Cursor position is only valid for pointer events.")
  end.
Definition set_button_state (b : Z) (ev : MirEvent) : outcome MirEvent :=
  match ev with
  | Pointer e => Ret (Pointer (pointer_with_buttons b e))
  | _ => Throw (invalid_argument "Updating button state is only valid for pointer events.")
  end.

Definition shift (v : float32) (d : Z) : float32 := f32_sub v (f32_of_int d).

Definition transform_touch (movement : Displacement) (e : MirTouchEvent) : outcome MirTouchEvent :=
  ofold (λ i e,
    let? vx := touch_event_x i e in
    let? vy := touch_event_y i e in
    let? e := touch_event_set_x i (shift vx (Geometry.dx movement)) e in
    touch_event_set_y i (shift vy (Geometry.dy movement)) e) (indices (count e)) e.

Definition transform_positions (movement : Displacement) (ev : MirEvent) : outcome MirEvent :=
  match ev with
  | Pointer e =>
      Ret (Pointer (pointer_at (shift (pointer_x e) (Geometry.dx movement)) (shift (pointer_y e) (Geometry.dy movement)) e))
  | Touch e => let? e := transform_touch movement e in Ret (Touch e)
  | _ => Ret ev
  end.

(** ** Touch events that a constructor made *)
Definition touch_wf (e : MirTouchEvent) : Prop :=
  length (contacts e) = max_count ∧ 0 ≤ count e ≤ Z.of_nat max_count.
#[export] Instance touch_wf_dec e : Decision (touch_wf e).
Proof. unfold touch_wf. apply _. Defined.

(** The contacts in use. *)
Definition points (e : MirTouchEvent) : list ContactState := take (Z.to_nat (count e)) (contacts e).

Lemma make_touch_event_ok h cs :
  (length cs ≤ max_count)%nat →
  ∃ e, make_touch_event h cs = Ret e ∧ touch_wf e ∧ touch_header e = h ∧ points e = cs.
Proof.
  intros Hl. unfold make_touch_event. rewrite bool_decide_true by done. eexists. split; [done|].
  unfold touch_wf, points. cbn [contacts count touch_header]. rewrite length_app, length_replicate.
  split; [lia|]. split; [done|]. rewrite Nat2Z.id. by rewrite take_app_length.
Qed.

Lemma contact_get_ok i c e :
  touch_wf e → 0 ≤ i → points e !! Z.to_nat i = Some c → contact_get i e = Ret c.
Proof.
  intros [Hl Hc] Hi Hp. unfold points in Hp. apply lookup_take_Some in Hp as [Hp Hlt].
  unfold contact_get, throw_if_out_of_bounds. destruct (Z.ltb_spec (count e) i); [lia|]. cbn. by rewrite Hp.
Qed.

Lemma contact_set_ok i f c e :
  touch_wf e → 0 ≤ i → points e !! Z.to_nat i = Some c →
  ∃ e', contact_set i f e = Ret e' ∧ touch_wf e' ∧ touch_header e' = touch_header e ∧ count e' = count e ∧
    points e' = <[Z.to_nat i := f c]> (points e) ∧
    drop (Z.to_nat (count e)) (contacts e') = drop (Z.to_nat (count e)) (contacts e).
Proof.
  intros [Hl Hc] Hi Hp. unfold points in Hp. pose proof Hp as Hp'. apply lookup_take_Some in Hp' as [Hp' Hlt].
  unfold contact_set, throw_if_out_of_bounds. destruct (Z.ltb_spec (count e) i); [lia|]. cbn [obind]. rewrite Hp'.
  eexists. split; [done|]. unfold touch_wf, points. cbn [contacts count touch_header].
  rewrite length_insert. do 3 (split; [done|]). split; [by rewrite take_insert_lt|].
  apply drop_insert_lt. lia.
Qed.

Definition shifted (d : Displacement) (c : ContactState) : ContactState :=
  mkContact (touch_id c) (action c) (tooltype c) (shift (x c) (Geometry.dx d)) (shift (y c) (Geometry.dy d))
    (pressure c) (touch_major c) (touch_minor c) (orientation c).

Lemma transform_step d i c e :
  touch_wf e → 0 ≤ i → points e !! Z.to_nat i = Some c →
  ∃ e', (let? vx := touch_event_x i e in
         let? vy := touch_event_y i e in
         let? e := touch_event_set_x i (shift vx (Geometry.dx d)) e in
         touch_event_set_y i (shift vy (Geometry.dy d)) e) = Ret e' ∧
    touch_wf e' ∧ touch_header e' = touch_header e ∧ count e' = count e ∧
    points e' = <[Z.to_nat i := shifted d c]> (points e) ∧
    drop (Z.to_nat (count e)) (contacts e') = drop (Z.to_nat (count e)) (contacts e).
Proof.
  intros Hwf Hi Hp. unfold touch_event_x, touch_event_y. rewrite (contact_get_ok i c) by done. cbn [obind].
  unfold touch_event_set_x, touch_event_set_y.
  edestruct (contact_set_ok i) as (e1 & -> & Hwf1 & Hh1 & Hc1 & Hp1 & Hd1); [exact Hwf|done|exact Hp|]. cbn [obind].
  edestruct (contact_set_ok i) as (e2 & -> & Hwf2 & Hh2 & Hc2 & Hp2 & Hd2); [exact Hwf1|done| |].
  { rewrite Hp1. apply list_lookup_insert_eq. by apply lookup_lt_Some in Hp. }
  exists e2. split; [done|]. split; [done|]. rewrite Hh2, Hc2, Hp2, Hp1, list_insert_insert_eq. cbn.
  split_and!; [done..|]. by rewrite <- Hd1, <- Hc1.
Qed.

(** Every contact in use is moved; nothing else changes, and no access fails. *)
Lemma transform_touch_spec d e :
  touch_wf e →
  ∃ e', transform_touch d e = Ret e' ∧ touch_wf e' ∧ touch_header e' = touch_header e ∧ count e' = count e ∧
    points e' = shifted d <$> points e ∧
    drop (Z.to_nat (count e)) (contacts e') = drop (Z.to_nat (count e)) (contacts e).
Proof.
  intros Hwf. unfold transform_touch, indices.
  assert (length (points e) = Z.to_nat (count e)) as Hlen.
  { unfold points. destruct Hwf. rewrite length_take. lia. }
  assert (∀ k n e1, (k + n = Z.to_nat (count e))%nat → touch_wf e1 → touch_header e1 = touch_header e → count e1 = count e →
    points e1 = (shifted d <$> take k (points e)) ++ drop k (points e) →
    drop (Z.to_nat (count e)) (contacts e1) = drop (Z.to_nat (count e)) (contacts e) →
    ∃ e', ofold (λ i e,
        let? vx := touch_event_x i e in
        let? vy := touch_event_y i e in
        let? e := touch_event_set_x i (shift vx (Geometry.dx d)) e in
        touch_event_set_y i (shift vy (Geometry.dy d)) e) (Z.of_nat <$> seq k n) e1 = Ret e' ∧ touch_wf e' ∧
      touch_header e' = touch_header e ∧ count e' = count e ∧ points e' = shifted d <$> points e ∧
      drop (Z.to_nat (count e)) (contacts e') = drop (Z.to_nat (count e)) (contacts e)) as Hloop.
  { intros k n. revert k. induction n as [|n IH]; intros k e1 Hk Hwf1 Hh1 Hc1 Hp1 Hd1; cbn [seq fmap list_fmap ofold].
    - exists e1. split; [done|]. do 3 (split; [done|]). split; [|done].
      rewrite Hp1, take_ge, drop_ge, app_nil_r by lia. done.
    - destruct (points e !! k) as [c|] eqn:Hlk.
      2: { apply lookup_ge_None in Hlk. lia. }
      destruct (transform_step d (Z.of_nat k) c e1) as (e2 & -> & Hwf2 & Hh2 & Hc2 & Hp2 & Hd2); [done|lia| |].
      { rewrite Nat2Z.id, Hp1, lookup_app_r; rewrite length_fmap, length_take; [|lia].
        rewrite lookup_drop. replace (k + (k - k `min` length (points e)))%nat with k by lia. done. }
      cbn [obind]. apply IH; [lia|done|by rewrite Hh2|by rewrite Hc2| |by rewrite <- Hd1, <- Hc1, Hd2].
      rewrite Hp2, Nat2Z.id, Hp1, (take_S_r _ _ c) by done. rewrite fmap_app, (drop_S _ c k) by done.
      rewrite <- app_assoc. cbn [fmap list_fmap app].
      rewrite insert_app_r_alt; rewrite length_fmap, length_take; [|lia].
      replace (k - k `min` length (points e))%nat with 0%nat by lia. done. }
  destruct (Hloop 0%nat (Z.to_nat (count e)) e) as (e' & H1 & H2); try done. by exists e'.
Qed.

(** The coordinate shift applied to an event on its way to a surface moves
    every touch contact in use, and a pointer, by the displacement in float
    arithmetic; ids, actions, the other axes, the contacts not in use, header
    and every other kind of event stay as they are, and no bounds check fails. *)
Theorem transform_positions_spec d ev :
  match ev with
  | Touch e =>
      touch_wf e →
      ∃ e', transform_positions d ev = Ret (Touch e') ∧ touch_wf e' ∧ touch_header e' = touch_header e ∧
        points e' = shifted d <$> points e ∧
        drop (Z.to_nat (count e)) (contacts e') = drop (Z.to_nat (count e)) (contacts e)
  | Pointer e =>
      ∃ e', transform_positions d ev = Ret (Pointer e') ∧ pointer_x e' = shift (pointer_x e) (Geometry.dx d) ∧
        pointer_y e' = shift (pointer_y e) (Geometry.dy d) ∧ e = pointer_at (pointer_x e) (pointer_y e) e'
  | _ => transform_positions d ev = Ret ev
  end.
Proof.
  destruct ev as [e|e|e|k]; [done| | |done].
  - intros Hwf. destruct (transform_touch_spec d e Hwf) as (e' & He & H2 & H3 & _ & H5).
    exists e'. unfold transform_positions. by rewrite He.
  - eexists. split; [done|]. by destruct e.
Qed.

Lemma transform_positions_spec_witness :
  ∃ e', transform_positions (Dp 10 20) (Touch (mkTouch (mkHeader 1 0 0 []) 1 (replicate 16 contact0))) = Ret (Touch e').
Proof.
  destruct (transform_positions_spec (Dp 10 20) (Touch (mkTouch (mkHeader 1 0 0 []) 1 (replicate 16 contact0))))
    as (e' & He & _).
  - apply (bool_decide_unpack (touch_wf _)). vm_compute. exact I.
  - exists e'. exact He.
Defined.

Lemma contact_set_again h n i f c l :
  (Z.to_nat i < length l)%nat → i ≤ n →
  contact_set i f (mkTouch h n (<[Z.to_nat i := c]> l)) = Ret (mkTouch h n (<[Z.to_nat i := f c]> l)).
Proof.
  intros Hl Hi. unfold contact_set, throw_if_out_of_bounds. cbn [count contacts touch_header].
  destruct (Z.ltb_spec n i); [lia|]. cbn [obind]. rewrite list_lookup_insert_eq by done.
  by rewrite list_insert_insert_eq.
Qed.

Lemma add_touch_slot c old e :
  touch_wf e → count e < Z.of_nat max_count → contacts e !! Z.to_nat (count e) = Some old →
  add_touch c e = Ret (mkTouch (touch_header e) (count e + 1)
    (<[Z.to_nat (count e) := mkContact (touch_id c) (action c) (tooltype c) (x c) (y c) (pressure c)
       (touch_major c) (touch_minor c) (orientation old)]> (contacts e))).
Proof.
  intros [Hl Hb] Hlt Hold. unfold add_touch. cbn zeta. unfold set_pointer_count, max_count in *.
  rewrite uint32_id by lia. set (n := count e) in *. clearbody n. set (l := contacts e) in *. clearbody l.
  set (h := touch_header e). clearbody h. rewrite <- (list_insert_id l (Z.to_nat n) old Hold) at 1.
  assert (Z.to_nat n < length l)%nat by lia. assert (n ≤ n + 1) by lia.
  destruct old as [o1 o2 o3 o4 o5 o6 o7 o8 o9].
  unfold touch_event_set_id, touch_event_set_tool_type, touch_event_set_x, touch_event_set_y, touch_event_set_pressure,
    touch_event_set_touch_major, touch_event_set_touch_minor, touch_event_set_action.
  do 8 (rewrite contact_set_again by done;
    cbn [obind touch_id action tooltype x y pressure touch_major touch_minor orientation]).
  done.
Qed.

(** The bounds of touch contacts.  Below the count every accessor reads the
    contact in use; at the count itself the check does not refuse, and a
    contact that is not part of the event is read, or the list is overrun when
    the event is full; above it [std::out_of_range] is thrown.  Adding a touch
    to an event with room appends it, apart from its orientation, which the
    slot keeps. *)
Theorem touch_bounds e :
  touch_wf e →
  (∀ i c, 0 ≤ i → points e !! Z.to_nat i = Some c → contact_get i e = Ret c) ∧
  (count e < Z.of_nat max_count →
    ∃ c, drop (Z.to_nat (count e)) (contacts e) !! 0%nat = Some c ∧ contact_get (count e) e = Ret c) ∧
  (count e = Z.of_nat max_count →
    contact_get (count e) e = Throw (undefined_behaviour "list index out of range")) ∧
  (∀ i, count e < i → contact_get i e = Throw (out_of_range "Out of bounds index in pointer coordinates")) ∧
  (count e < Z.of_nat max_count →
    ∀ c, ∃ e' o, add_touch c e = Ret e' ∧ touch_wf e' ∧ touch_header e' = touch_header e ∧
      points e' = points e ++ [mkContact (touch_id c) (action c) (tooltype c) (x c) (y c) (pressure c)
        (touch_major c) (touch_minor c) o]).
Proof.
  intros Hwf. pose proof Hwf as [Hl Hb].
  assert (count e < Z.of_nat max_count → is_Some (contacts e !! Z.to_nat (count e))) as Hslot.
  { intros Hlt. apply lookup_lt_is_Some. unfold max_count in *. lia. }
  split; [intros; by apply contact_get_ok|].
  unfold contact_get, throw_if_out_of_bounds. rewrite Z.ltb_irrefl. cbn [obind].
  split; [|split; [|split]].
  - intros Hlt. destruct (Hslot Hlt) as [c Hc]. exists c. rewrite lookup_drop, Nat.add_0_r, Hc. done.
  - intros Heq. rewrite lookup_ge_None_2; [done|]. unfold max_count in *. lia.
  - intros i Hi. destruct (Z.ltb_spec (count e) i); [done|lia].
  - intros Hlt c. destruct (Hslot Hlt) as [old Hold]. rewrite (add_touch_slot c old) by done.
    eexists _, (orientation old). split; [done|]. unfold touch_wf, points. cbn [contacts count touch_header].
    rewrite length_insert. split; [lia|]. split; [done|].
    replace (Z.to_nat (count e + 1)) with (S (Z.to_nat (count e))) by lia.
    rewrite (take_S_r _ _ (mkContact (touch_id c) (action c) (tooltype c) (x c) (y c) (pressure c)
      (touch_major c) (touch_minor c) (orientation old))) by (apply list_lookup_insert_eq; unfold max_count in *; lia).
    by rewrite take_insert_ge.
Qed.

Lemma touch_event_empty_wf h : touch_wf (touch_event_empty h).
Proof. split; [done|]. cbn. lia. Qed.

Lemma touch_bounds_witness :
  ∃ c, contact_get 0 (touch_event_empty (mkHeader 1 0 0 [])) = Ret c ∧ count (touch_event_empty (mkHeader 1 0 0 [])) = 0.
Proof.
  destruct (proj1 (proj2 (touch_bounds _ (touch_event_empty_wf (mkHeader 1 0 0 []))))) as (c & _ & Hc).
  - by vm_compute.
  - exists c. split; [exact Hc|reflexivity].
Defined.
