(* ===== verification/DisplayConfig.v ===== *)
(** Display configurations (src/platform/graphics/display_configuration.cpp,
    pixel_format_utils.cpp), the policies that fill them in
    (src/server/graphics/default_display_configuration_policy.cpp), the grouping
    of overlapping outputs (src/platform/graphics/overlapping_output_grouping.cpp)
    and where surfaces may be placed
    (src/server/shell/graphics_display_layout.cpp). *)

From S2P Require Import Prelude Geometry Float32.

(** ** Data *)
Inductive MirPixelFormat :=
  | format_invalid | abgr_8888 | xbgr_8888 | argb_8888 | xrgb_8888 | bgr_888 | rgb_888 | rgb_565 | rgba_5551 | rgba_4444.
#[export] Instance MirPixelFormat_eq_dec : EqDecision MirPixelFormat.
Proof. solve_decision. Defined.

Inductive MirOrientation := orientation_normal | orientation_left | orientation_inverted | orientation_right.
#[export] Instance MirOrientation_eq_dec : EqDecision MirOrientation.
Proof. solve_decision. Defined.

Inductive MirPowerMode := power_on | power_standby | power_suspend | power_off.
#[export] Instance MirPowerMode_eq_dec : EqDecision MirPowerMode.
Proof. solve_decision. Defined.

Record DisplayConfigurationMode := mkMode { mode_size : Size; vrefresh_hz : Z }.
#[export] Instance Mode_eq_dec : EqDecision DisplayConfigurationMode.
Proof. solve_decision. Defined.

(** Ids are numbers; physical data, scale, gamma and EDID are left out. *)
Record DisplayConfigurationOutput := mkOutput {
  output_id : Z;
  pixel_formats : list MirPixelFormat;
  modes : list DisplayConfigurationMode;
  preferred_mode_index : Z;
  connected : bool;
  used : bool;
  output_top_left : Point;
  current_mode_index : Z;
  current_format : MirPixelFormat;
  power_mode : MirPowerMode;
  orientation : MirOrientation
}.
#[export] Instance Output_eq_dec : EqDecision DisplayConfigurationOutput.
Proof. solve_decision. Defined.

(** A configuration as [for_each_output] shows it. *)
Definition DisplayConfiguration : Type := list DisplayConfigurationOutput.
#[export] Instance DisplayConfiguration_eq_dec : EqDecision DisplayConfiguration.
Proof. unfold DisplayConfiguration. apply _. Defined.

(** ** Pixel formats: the bits of the alpha channel, by the table *)
Definition alpha_bits (f : MirPixelFormat) : Z :=
  match f with
  | abgr_8888 | argb_8888 => 8
  | rgba_5551 => 1
  | rgba_4444 => 4
  | _ => 0
  end.
Definition valid_pixel_format (f : MirPixelFormat) : bool := bool_decide (f ≠ format_invalid).
Definition alpha_channel_depth (f : MirPixelFormat) : Z := if valid_pixel_format f then alpha_bits f else 0.
Definition contains_alpha (f : MirPixelFormat) : bool := negb (alpha_channel_depth f =? 0).

(** ** One output *)
Definition mode_at (o : DisplayConfigurationOutput) (i : Z) : option DisplayConfigurationMode :=
  if 0 <=? i then modes o !! Z.to_nat i else None.

Definition extents (o : DisplayConfigurationOutput) : Rectangle :=
  match mode_at o (current_mode_index o) with
  | None => rectangle0
  | Some m =>
      if bool_decide (orientation o = orientation_normal ∨ orientation o = orientation_inverted)
      then Rect (output_top_left o) (mode_size m)
      else Rect (output_top_left o) (Sz (height (mode_size m)) (width (mode_size m)))
  end.

Definition output_valid (o : DisplayConfigurationOutput) : bool :=
  if negb (connected o) then negb (used o)
  else
    bool_decide (current_format o ∈ pixel_formats o) &&
    bool_decide (is_Some (mode_at o (current_mode_index o))).
Definition configuration_valid (c : DisplayConfiguration) : bool := forallb output_valid c.

(** ** Policies *)
Definition size_max : Z := 2 ^ 64 - 1.
Definition select_mode_index (mode_index : Z) (ms : list DisplayConfigurationMode) : Z :=
  match ms with
  | [] => size_max
  | _ => if Z.of_nat (length ms) <=? mode_index then 0 else mode_index
  end.

Definition select_opaque_format (format : MirPixelFormat) (formats : list MirPixelFormat) : MirPixelFormat :=
  let format_in_formats := bool_decide (format ∈ formats) in
  if negb (contains_alpha format) && format_in_formats then format else
  match find_if (λ f, negb (contains_alpha f)) formats with
  | Some f => f
  | None => if format_in_formats then format else match formats with f :: _ => f | [] => format_invalid end
  end.

Definition with_setup (u : bool) (tl : Point) (mode : Z) (f : MirPixelFormat) (p : MirPowerMode) (r : MirOrientation)
    (o : DisplayConfigurationOutput) : DisplayConfigurationOutput :=
  mkOutput (output_id o) (pixel_formats o) (modes o) (preferred_mode_index o) (connected o) u tl mode f p r.
(** [used = false] and a power mode; the rest stays. *)
Definition unused (p : MirPowerMode) (o : DisplayConfigurationOutput) : DisplayConfigurationOutput :=
  with_setup false (output_top_left o) (current_mode_index o) (current_format o) p (orientation o) o.

Definition clone_output (o : DisplayConfigurationOutput) : DisplayConfigurationOutput :=
  if negb (connected o) || bool_decide (modes o = []) then unused power_on o
  else
    with_setup true point0 (select_mode_index (preferred_mode_index o) (modes o))
      (select_opaque_format (current_format o) (pixel_formats o)) power_on orientation_normal o.
Definition clone_policy (conf : DisplayConfiguration) : DisplayConfiguration := clone_output <$> conf.

(** The loop of [SideBySideDisplayConfigurationPolicy]; [max_x] is an [int]. *)
Fixpoint side_by_side_loop (max_x : Z) (conf : DisplayConfiguration) : DisplayConfiguration :=
  match conf with
  | [] => []
  | o :: conf' =>
      if connected o && bool_decide (0 < length (modes o))%nat then
        let i := select_mode_index (preferred_mode_index o) (modes o) in
        let w := match mode_at o i with Some m => width (mode_size m) | None => 0 end in
        with_setup true (Pt max_x 0) i (current_format o) power_on orientation_normal o ::
        side_by_side_loop (int_add max_x w) conf'
      else unused power_off o :: side_by_side_loop max_x conf'
  end.
Definition side_by_side_policy (conf : DisplayConfiguration) : DisplayConfiguration := side_by_side_loop 0 conf.

Fixpoint single_loop (done : bool) (conf : DisplayConfiguration) : DisplayConfiguration :=
  match conf with
  | [] => []
  | o :: conf' =>
      if negb done && connected o && bool_decide (0 < length (modes o))%nat then
        with_setup true point0 (select_mode_index (preferred_mode_index o) (modes o)) (current_format o) power_on
          (orientation o) o :: single_loop true conf'
      else unused power_off o :: single_loop done conf'
  end.
Definition single_policy (conf : DisplayConfiguration) : DisplayConfiguration := single_loop false conf.

(** ** Overlapping outputs *)
#[local] Abbreviation Group := (list DisplayConfigurationOutput).

Definition group_bounding_rectangle (g : Group) : Rectangle := bounding_rectangle (extents <$> g).

(** [unordered_set::insert] by id, in insertion order. *)
Definition insert_output (g : Group) (o : DisplayConfigurationOutput) : Group :=
  if bool_decide (output_id o ∈ output_id <$> g) then g else g ++ [o].

Definition touches (o conf_o : DisplayConfigurationOutput) : bool :=
  overlaps (extents conf_o) (extents o) && bool_decide (orientation conf_o = orientation o).
Definition found_overlap (o : DisplayConfigurationOutput) (g : Group) : bool := existsb (touches o) g.

(** The indices of the overlapping groups, the last group first. *)
Definition overlapping_groups (o : DisplayConfigurationOutput) (groups : list Group) : list nat :=
  filter (λ i, default false (found_overlap o <$> groups !! i) = true) (rev (seq 0 (length groups))).

Definition unite_step (acc : Group * list Group) (i : nat) : Group * list Group :=
  let '(new_group, groups) := acc in
  match groups !! i with
  | Some g => (foldl insert_output new_group g, delete i groups)
  | None => (new_group, groups)
  end.

Definition add_output (groups : list Group) (o : DisplayConfigurationOutput) : list Group :=
  let found := overlapping_groups o groups in
  if bool_decide (0 < length found)%nat then
    let '(new_group, rest) := foldl unite_step ([], groups) found in
    rest ++ [insert_output new_group o]
  else groups ++ [[o]].

Definition output_shown (o : DisplayConfigurationOutput) : bool :=
  connected o && used o && bool_decide (power_mode o = power_on) && bool_decide (is_Some (mode_at o (current_mode_index o))).

Definition output_grouping (conf : DisplayConfiguration) : list Group :=
  foldl add_output [] (filter (λ o, output_shown o = true) conf).

(** ** Placing surfaces on outputs *)

(** [area] is an [int]. *)
Definition overlap_area (rect screen : Rectangle) : Z :=
  let s := size (intersection_with rect screen) in int32 (width s * height s).

(** The best screen so far and its overlap; [screens] are the view areas of the
    display buffers, in order. *)
Definition best_step (rect : Rectangle) (acc : Rectangle * Z) (screen : Rectangle) : Rectangle * Z :=
  let area := overlap_area rect screen in
  if acc.2 <? area then (screen, area) else acc.
Definition get_output_for (screens : list Rectangle) (rect : Rectangle) : Rectangle :=
  (foldl (best_step rect) (rect, -1) screens).1.

Definition clip_to_output (screens : list Rectangle) (rect : Rectangle) : Rectangle :=
  let output := get_output_for screens rect in
  if (0 <? width (size output)) && (0 <? height (size output)) && (0 <? width (size rect)) && (0 <? height (size rect))
  then
    let tl_closed := confine [output] (top_left rect) in
    let br_closed := confine [output] (point_move_back (bottom_right rect) (Dp 1 1)) in
    Rect tl_closed (as_size (disp_add (point_sub br_closed tl_closed) (Dp 1 1)))
  else Rect (top_left rect) (Sz 0 0).

Definition size_to_output (screens : list Rectangle) (rect : Rectangle) : Rectangle := get_output_for screens rect.

Definition place_in_output (conf : DisplayConfiguration) (id : Z) (rect : Rectangle) : bool * Rectangle :=
  foldl (λ acc o,
    if bool_decide (output_id o = id) && bool_decide (is_Some (mode_at o (current_mode_index o)))
    then (true, Rect (output_top_left o) (size (extents o))) else acc) (false, rect) conf.

(** ** Policies make valid configurations *)
Lemma select_mode_ok o : modes o ≠ [] → 0 ≤ preferred_mode_index o →
  is_Some (mode_at o (select_mode_index (preferred_mode_index o) (modes o))).
Proof.
  intros Hm Hp. unfold select_mode_index, mode_at. destruct (modes o) as [|m ms] eqn:Hms; [done|].
  destruct (Z.leb_spec (Z.of_nat (length (m :: ms))) (preferred_mode_index o)); cbn zeta.
  - by eexists.
  - destruct (Z.leb_spec 0 (preferred_mode_index o)); [|lia]. apply lookup_lt_is_Some. lia.
Qed.

Lemma select_format_ok f fs : fs ≠ [] → select_opaque_format f fs ∈ fs.
Proof.
  intros Hf. unfold select_opaque_format. cbn zeta. case_bool_decide as Hin.
  - destruct (negb (contains_alpha f)); [done|]. cbn [andb].
    destruct (find_if _ fs) eqn:Hx; [|done]. by apply find_if_Some in Hx as [? _].
  - rewrite andb_false_r. destruct (find_if _ fs) eqn:Hx; [by apply find_if_Some in Hx as [? _]|].
    destruct fs; [done|]. left.
Qed.

(** An opaque format is chosen whenever there is one. *)
Lemma select_format_opaque f fs :
  (∃ g, g ∈ fs ∧ contains_alpha g = false) → contains_alpha (select_opaque_format f fs) = false.
Proof.
  intros (g & Hg & Ha). unfold select_opaque_format. cbn zeta.
  destruct (negb (contains_alpha f) && bool_decide (f ∈ fs)) eqn:H1.
  - apply andb_true_iff in H1 as [H1 _]. by apply negb_true_iff.
  - destruct (find_if _ fs) as [x|] eqn:Hx.
    + apply find_if_Some in Hx as [_ Hx]. by apply negb_true_iff.
    + eapply find_if_None in Hx; [|exact Hg]. by rewrite Ha in Hx.
Qed.

Lemma set_up_valid tl i f p r o : connected o = true → is_Some (mode_at o i) →
  output_valid (with_setup true tl i f p r o) = bool_decide (f ∈ pixel_formats o).
Proof. intros Hc Hi. unfold output_valid. cbn. rewrite Hc. cbn. by rewrite (bool_decide_true (is_Some _)), andb_true_r. Qed.

(** What an output is left with that a policy does not use: its format and its
    mode. *)
Definition keeps_valid (o : DisplayConfigurationOutput) : Prop :=
  current_format o ∈ pixel_formats o ∧ is_Some (mode_at o (current_mode_index o)).
#[export] Instance keeps_valid_dec o : Decision (keeps_valid o).
Proof. unfold keeps_valid. apply _. Defined.
Lemma unused_valid p o : output_valid (unused p o) = negb (connected o) || bool_decide (keeps_valid o).
Proof.
  unfold output_valid. cbn. destruct (connected o); [|done]. cbn [negb orb]. unfold keeps_valid.
  rewrite <- bool_decide_and. by apply bool_decide_ext.
Qed.
Lemma no_modes_no_mode o : modes o = [] → ¬ keeps_valid o.
Proof. unfold keeps_valid, mode_at. intros -> [_ [m Hm]]. by destruct (0 <=? _). Qed.

(** Indices are unsigned in the code. *)
Definition unsigned_index (o : DisplayConfigurationOutput) : Prop := 0 ≤ preferred_mode_index o.

(** Every connected output satisfies [P]. *)
Definition every_connected (P : DisplayConfigurationOutput → Prop) (conf : DisplayConfiguration) : Prop :=
  Forall (λ o, connected o = true → P o) conf.

Lemma clone_output_valid o : unsigned_index o →
  output_valid (clone_output o) = true ↔ (connected o = true → modes o ≠ [] ∧ pixel_formats o ≠ []).
Proof.
  intros Hp. unfold clone_output. destruct (connected o) eqn:Hco; cbn [negb orb].
  2: { rewrite unused_valid, Hco. split; [|done]. by intros _ ?. }
  case_bool_decide as Hm.
  - rewrite unused_valid, Hco, bool_decide_false by (by apply no_modes_no_mode). split; [done|]. intros H. by destruct (H eq_refl).
  - rewrite set_up_valid, bool_decide_eq_true; [|done|by apply select_mode_ok]. split.
    + intros Hf _. split; [done|]. intros Hn. rewrite Hn in Hf. by apply elem_of_nil in Hf.
    + intros H. apply select_format_ok. by apply H.
Qed.
Lemma clone_valid conf : Forall unsigned_index conf →
  configuration_valid (clone_policy conf) = true ↔ every_connected (λ o, modes o ≠ [] ∧ pixel_formats o ≠ []) conf.
Proof.
  unfold configuration_valid, every_connected. induction 1 as [|o conf Ho _ IH]; cbn [clone_policy fmap list_fmap forallb]; [done|].
  rewrite andb_true_iff, Forall_cons, clone_output_valid by done. by rewrite IH.
Qed.

Lemma side_by_side_valid conf : Forall unsigned_index conf → ∀ x,
  configuration_valid (side_by_side_loop x conf) = true ↔
  every_connected (λ o, modes o ≠ [] ∧ current_format o ∈ pixel_formats o) conf.
Proof.
  unfold configuration_valid, every_connected. induction 1 as [|o conf Ho _ IH]; intros x; [done|].
  rewrite Forall_cons. cbn [side_by_side_loop]. destruct (connected o) eqn:Hco; cbn [andb].
  2: { cbn [forallb]. rewrite unused_valid, Hco. cbn [negb orb andb]. rewrite IH. naive_solver. }
  case_bool_decide as Hl; cbn [forallb]; rewrite andb_true_iff, IH.
  - assert (modes o ≠ []) as Hm by (intros Hn; rewrite Hn in Hl; cbn in Hl; lia).
    rewrite set_up_valid, bool_decide_eq_true; [naive_solver|done|by apply select_mode_ok].
  - assert (modes o = []) as Hm by (destruct (modes o); [done|cbn in Hl; lia]).
    rewrite unused_valid, Hco, bool_decide_false by (by apply no_modes_no_mode). naive_solver.
Qed.

(** Where the single policy finds the output it uses: the first that is
    connected and has modes. *)
Definition usable (o : DisplayConfigurationOutput) : bool := connected o && bool_decide (0 < length (modes o))%nat.
Definition single_condition (done : bool) (conf : DisplayConfiguration) : Prop :=
  ∀ i o, conf !! i = Some o → connected o = true →
    if negb done && usable o && negb (existsb usable (take i conf)) then current_format o ∈ pixel_formats o else keeps_valid o.

Lemma single_condition_cons b o conf : single_condition b (o :: conf) ↔
  (connected o = true → if negb b && usable o then current_format o ∈ pixel_formats o else keeps_valid o) ∧
  single_condition (b || usable o) conf.
Proof.
  unfold single_condition. split.
  - intros H. split.
    + intros Hc. specialize (H 0%nat o eq_refl Hc). cbn in H. by rewrite andb_true_r in H.
    + intros i o' Hi Hc. specialize (H (S i) o' Hi Hc). cbn [take existsb] in H.
      by destruct b, (usable o), (usable o'), (existsb usable (take i conf)).
  - intros [H0 H] [|i] o' Hi Hc; cbn in Hi.
    + injection Hi as ->. specialize (H0 Hc). cbn. by rewrite andb_true_r.
    + specialize (H i o' Hi Hc). cbn [take existsb].
      by destruct b, (usable o), (usable o'), (existsb usable (take i conf)).
Qed.
Lemma single_valid conf : Forall unsigned_index conf → ∀ b,
  configuration_valid (single_loop b conf) = true ↔ single_condition b conf.
Proof.
  unfold configuration_valid. induction 1 as [|o conf Ho _ IH]; intros b; [done|].
  rewrite single_condition_cons. cbn [single_loop]. rewrite <- andb_assoc. fold (usable o).
  destruct (negb b && usable o) eqn:Hb; cbn [forallb]; rewrite andb_true_iff, IH.
  - apply andb_true_iff in Hb as [Hb Hu]. apply negb_true_iff in Hb as ->. rewrite Hu. cbn [orb].
    unfold usable in Hu. apply andb_true_iff in Hu as [Hc Hl%bool_decide_eq_true].
    rewrite set_up_valid, bool_decide_eq_true; [naive_solver|done|].
    apply select_mode_ok; [|done]. intros Hn. rewrite Hn in Hl. cbn in Hl. lia.
  - assert (b || usable o = b) as -> by (by destruct b, (usable o)).
    rewrite unused_valid, orb_true_iff, negb_true_iff, bool_decide_eq_true. destruct (connected o); naive_solver.
Qed.

(** *** Where the policies put the outputs *)
Definition mode_width (o : DisplayConfigurationOutput) (i : Z) : Z :=
  match mode_at o i with Some m => width (mode_size m) | None => 0 end.

(** The widths the side-by-side policy adds up. *)
Definition row_width (conf : DisplayConfiguration) : Z :=
  foldr (λ o acc, (if connected o && bool_decide (0 < length (modes o))%nat
    then mode_width o (select_mode_index (preferred_mode_index o) (modes o)) else 0) + acc) 0 conf.

Definition widths_ok (o : DisplayConfigurationOutput) : Prop :=
  Forall (λ m, 0 ≤ width (mode_size m)) (modes o).
#[export] Instance widths_ok_dec o : Decision (widths_ok o).
Proof. unfold widths_ok. apply _. Defined.

Lemma mode_width_nonneg o i : widths_ok o → 0 ≤ mode_width o i.
Proof.
  intros Ho. unfold mode_width, mode_at. destruct (0 <=? i); [|lia].
  destruct (modes o !! _) as [m|] eqn:Hm; [|lia]. unfold widths_ok in Ho. rewrite Forall_forall in Ho. apply Ho.
  by eapply list_elem_of_lookup_2.
Qed.
Lemma row_width_nonneg conf : Forall widths_ok conf → 0 ≤ row_width conf.
Proof.
  induction 1 as [|o conf Ho Hc IH]; cbn; [lia|]. pose proof (mode_width_nonneg o (select_mode_index (preferred_mode_index o) (modes o)) Ho).
  fold (row_width conf). destruct (_ && _); lia.
Qed.

(** Every used output starts where those before it end. *)
Definition in_a_row (x : Z) (conf : DisplayConfiguration) : Prop :=
  ∃ xs, length xs = length conf ∧
    ∀ i o, conf !! i = Some o → used o = true →
      ∃ xi, xs !! i = Some xi ∧ output_top_left o = Pt xi 0 ∧ x ≤ xi ∧
        ∀ j o' xj, (i < j)%nat → conf !! j = Some o' → used o' = true → xs !! j = Some xj →
          xi + width (size (extents o)) ≤ xj.

Lemma side_by_side_row conf x :
  Forall widths_ok conf → 0 ≤ x → x + row_width conf ≤ int_max → in_a_row x (side_by_side_loop x conf).
Proof.
  intros Hw. revert x. induction Hw as [|o conf Ho Hc IH]; intros x Hx Hb.
  { exists []. split; [done|]. intros i o. by rewrite lookup_nil. }
  pose proof (mode_width_nonneg o (select_mode_index (preferred_mode_index o) (modes o)) Ho) as Hm.
  pose proof (row_width_nonneg conf Hc) as Hrw. cbn [side_by_side_loop]. cbn [row_width foldr] in Hb. fold (row_width conf) in Hb.
  destruct (connected o && bool_decide (0 < length (modes o))%nat) eqn:Hu.
  - fold (mode_width o (select_mode_index (preferred_mode_index o) (modes o))) in *. cbn zeta. set (w := mode_width _ _) in *.
    rewrite int_add_exact by (unfold int_min; lia).
    destruct (IH (x + w)) as (xs & Hl & Hxs); [lia..|]. exists (x :: xs). split; [cbn; by rewrite Hl|].
    intros [|i] o1 Hi Hu1; cbn in Hi.
    + injection Hi as <-. exists x. split; [done|]. split; [done|]. split; [lia|].
      intros [|j] o' xj Hj Ho' Hu' Hxj; [lia|]. cbn in Ho', Hxj. destruct (Hxs j o' Ho' Hu') as (xj' & Hxj' & _ & Hle & _).
      assert (xs !! j = Some xj) as Hxj2 by exact Hxj. rewrite Hxj2 in Hxj'. injection Hxj' as <-.
      assert (width (size (extents (with_setup true (Pt x 0) (select_mode_index (preferred_mode_index o) (modes o))
        (current_format o) power_on orientation_normal o))) = w) as ->; [|lia].
      unfold extents, w, mode_width, mode_at. cbn. destruct (0 <=? _); [|done]. by destruct (modes o !! _).
    + destruct (Hxs i o1 Hi Hu1) as (xi & Hxi & Htl & Hle & Hnext). exists xi. split; [done|]. split; [done|]. split; [lia|].
      intros [|j] o' xj Hj Ho' Hu' Hxj; [lia|]. eapply (Hnext j); [lia|done..].
  - destruct (IH x) as (xs & Hl & Hxs); [lia..|]. exists (x :: xs). split; [cbn; by rewrite Hl|].
    intros [|i] o1 Hi Hu1; cbn in Hi; [by injection Hi as <-|].
    destruct (Hxs i o1 Hi Hu1) as (xi & Hxi & Htl & Hle & Hnext). exists xi. split; [done|]. split; [done|]. split; [lia|].
    intros [|j] o' xj Hj Ho' Hu' Hxj; [lia|]. eapply (Hnext j); [lia|done..].
Qed.

(** ** Grouping *)
Definition output_ids (l : list DisplayConfigurationOutput) : list Z := output_id <$> l.

Lemma touches_sym a b : touches a b = touches b a.
Proof.
  unfold touches. rewrite overlaps_sym. f_equal. apply bool_decide_ext. split; congruence.
Qed.

(** Distinct ids: inserting appends. *)
Lemma insert_fresh g o : output_id o ∉ output_ids g → insert_output g o = g ++ [o].
Proof. intros Ho. unfold insert_output. by rewrite bool_decide_false. Qed.
Lemma insert_all_fresh g l : NoDup (output_ids (g ++ l)) → foldl insert_output g l = g ++ l.
Proof.
  revert g. induction l as [|o l IH]; intros g; cbn [foldl]; [by rewrite app_nil_r|]. intros Hnd.
  rewrite insert_fresh.
  - rewrite IH by by rewrite <- app_assoc. by rewrite <- app_assoc.
  - unfold output_ids in *. rewrite fmap_app in Hnd. apply NoDup_app in Hnd as (_ & Hd & _). intros Hin.
    apply (Hd (output_id o) Hin). left.
Qed.

Lemma overlapping_snoc o l g :
  overlapping_groups o (l ++ [g]) = (if found_overlap o g then [length l] else []) ++ overlapping_groups o l.
Proof.
  unfold overlapping_groups. rewrite length_app. cbn [length]. rewrite Nat.add_1_r, seq_S, rev_app_distr. cbn [rev app Nat.add].
  rewrite (filter_ext_in (λ i, default false (found_overlap o <$> l !! i) = true)
    (λ i, default false (found_overlap o <$> (l ++ [g]) !! i) = true) (rev (seq 0 (length l)))).
  2: { intros i Hi. rewrite elem_of_rev, elem_of_seq in Hi. rewrite lookup_app_l by lia. done. }
  rewrite filter_cons. assert (default false (found_overlap o <$> (l ++ [g]) !! length l) = found_overlap o g) as Hg.
  { by rewrite list_lookup_middle. }
  destruct (found_overlap o g); [rewrite decide_True by done|rewrite decide_False by congruence]; done.
Qed.

(** What the two loops of [add_output] leave: the other groups in order, and
    the united ones, last group first. *)
Lemma unite_spec o pre : ∀ acc suf,
  NoDup (output_ids (acc ++ concat (rev (filter (λ g, found_overlap o g = true) pre)))) →
  foldl unite_step (acc, pre ++ suf) (overlapping_groups o pre) =
    (acc ++ concat (rev (filter (λ g, found_overlap o g = true) pre)),
     filter (λ g, found_overlap o g = false) pre ++ suf).
Proof.
  induction pre as [|g pre IH] using rev_ind; intros acc suf Hnd.
  { cbn. by rewrite app_nil_r. }
  rewrite overlapping_snoc. rewrite !filter_app, !filter_cons, !filter_nil in *.
  destruct (found_overlap o g) eqn:Hg.
  - rewrite decide_True by done. rewrite decide_True in Hnd by done. rewrite decide_False by done.
    rewrite rev_app_distr in *. cbn [rev app concat] in *. rewrite app_nil_r. cbn [app foldl].
    unfold unite_step at 2. rewrite <- app_assoc, lookup_app_r, Nat.sub_diag by lia. cbn [lookup list_lookup app].
    rewrite delete_middle. rewrite insert_all_fresh.
    + rewrite IH by by rewrite <- app_assoc. by rewrite <- app_assoc.
    + rewrite app_assoc in Hnd. unfold output_ids in *. rewrite fmap_app in Hnd. by apply NoDup_app in Hnd as [? _].
  - rewrite decide_False by done. rewrite decide_False in Hnd by done. rewrite decide_True by done.
    rewrite app_nil_r in *. cbn [app]. rewrite <- app_assoc, IH by done. by rewrite <- app_assoc.
Qed.

Definition united (o : DisplayConfigurationOutput) (groups : list (list DisplayConfigurationOutput)) : list DisplayConfigurationOutput :=
  concat (rev (filter (λ g, found_overlap o g = true) groups)) ++ [o].
Definition apart (o : DisplayConfigurationOutput) (groups : list (list DisplayConfigurationOutput)) :=
  filter (λ g, found_overlap o g = false) groups.

Lemma concat_split o groups : concat groups ≡ₚ concat (filter (λ g, found_overlap o g = true) groups) ++ concat (apart o groups).
Proof.
  unfold apart. induction groups as [|g groups IH]; [done|]. rewrite !filter_cons. cbn [concat].
  destruct (found_overlap o g) eqn:Hg.
  - rewrite decide_True, decide_False by done. cbn [concat]. by rewrite IH, app_assoc.
  - rewrite decide_False, decide_True by done. cbn [concat]. rewrite IH. by rewrite Permutation_app_swap_app.
Qed.
Lemma concat_rev {A} (l : list (list A)) : concat (rev l) ≡ₚ concat l.
Proof. induction l as [|x l IH]; cbn; [done|]. rewrite concat_app, IH. cbn. rewrite app_nil_r. apply Permutation_app_comm. Qed.

Lemma united_perm o groups : concat groups ++ [o] ≡ₚ concat (apart o groups ++ [united o groups]).
Proof.
  rewrite concat_app. cbn [concat]. rewrite app_nil_r. unfold united. rewrite (concat_split o groups), concat_rev.
  rewrite <- app_assoc. rewrite Permutation_app_swap_app. done.
Qed.

Lemma add_output_spec groups o :
  NoDup (output_ids (concat groups ++ [o])) → add_output groups o = apart o groups ++ [united o groups].
Proof.
  intros Hnd. assert (NoDup (output_ids (united o groups))) as Hu.
  { unfold output_ids in *. rewrite united_perm, concat_app, fmap_app in Hnd. apply NoDup_app in Hnd as (_ & _ & Hnd).
    cbn in Hnd. by rewrite app_nil_r in Hnd. }
  unfold add_output. pose proof (unite_spec o groups [] []) as Hs. rewrite app_nil_r in Hs. cbn [app] in Hs.
  assert (NoDup (output_ids (concat (rev (filter (λ g, found_overlap o g = true) groups))))) as Hc.
  { unfold united, output_ids in *. rewrite fmap_app in Hu. by apply NoDup_app in Hu as [? _]. }
  rewrite Hs by done. rewrite app_nil_r. case_bool_decide as Hl.
  - unfold united. f_equal. f_equal. apply insert_fresh. unfold united, output_ids in *. rewrite fmap_app in Hu.
    apply NoDup_app in Hu as (_ & Hd & _). intros Hin. apply (Hd _ Hin). left.
  - assert (overlapping_groups o groups = []) as He by (destruct (overlapping_groups o groups); [done|cbn in Hl; lia]).
    rewrite He in Hs. cbn [foldl] in Hs. specialize (Hs Hc). injection Hs as H1 H2. unfold united, apart.
    rewrite <- H1. rewrite app_nil_r in H2. by rewrite <- H2.
Qed.

(** Connected by outputs that touch. *)
Definition joined (os : list DisplayConfigurationOutput) (a b : DisplayConfigurationOutput) : Prop :=
  a ∈ os ∧ b ∈ os ∧ touches a b = true.
Definition together (groups : list (list DisplayConfigurationOutput)) (a b : DisplayConfigurationOutput) : Prop :=
  ∃ g, g ∈ groups ∧ a ∈ g ∧ b ∈ g.

Record grouping_inv (os : list DisplayConfigurationOutput) (groups : list (list DisplayConfigurationOutput)) : Prop := {
  iv_perm : concat groups ≡ₚ os;
  iv_joined a b : together groups a b → rtc (joined os) a b;
  iv_touch a b : joined os a b → together groups a b
}.

Lemma joined_mono os os' a b : (∀ o, o ∈ os → o ∈ os') → rtc (joined os) a b → rtc (joined os') a b.
Proof. intros Hs. apply rtc_subrel. intros c d (Hc & Hd & Ht). split; [|split]; auto. Qed.
Lemma joined_sym os a b : rtc (joined os) a b → rtc (joined os) b a.
Proof.
  induction 1 as [|c d e (Hc & Hd & Ht) _ IH]; [done|]. eapply rtc_r; [exact IH|].
  split; [done|]. split; [done|]. by rewrite touches_sym.
Qed.

Lemma found_overlap_iff o g : found_overlap o g = true ↔ ∃ a, a ∈ g ∧ touches o a = true.
Proof. unfold found_overlap. rewrite existsb_exists. by setoid_rewrite list_elem_of_In. Qed.

Lemma elem_of_concat {A} (x : A) l : x ∈ concat l ↔ ∃ g, g ∈ l ∧ x ∈ g.
Proof. rewrite list_elem_of_In, in_concat. setoid_rewrite <- list_elem_of_In. done. Qed.

Lemma elem_of_united o groups a : a ∈ united o groups ↔ a = o ∨ ∃ g, g ∈ groups ∧ found_overlap o g = true ∧ a ∈ g.
Proof.
  unfold united. rewrite elem_of_app, list_elem_of_singleton, concat_rev, elem_of_concat.
  setoid_rewrite list_elem_of_filter. naive_solver.
Qed.

Lemma add_output_inv os groups o :
  NoDup (output_ids (os ++ [o])) → grouping_inv os groups → grouping_inv (os ++ [o]) (add_output groups o).
Proof.
  intros Hnd [Hp Hj Ht]. rewrite add_output_spec.
  2: { unfold output_ids in *. rewrite fmap_app, Hp. by rewrite fmap_app in Hnd. }
  assert (∀ g a, g ∈ groups → a ∈ g → a ∈ os) as Hin by (intros g a Hg Ha; rewrite <- Hp, elem_of_concat; by exists g).
  assert (∀ a, a ∈ os → ∃ g, g ∈ groups ∧ a ∈ g) as Hex by (intros a; by rewrite <- Hp, elem_of_concat).
  assert (∀ a b, rtc (joined os) a b → rtc (joined (os ++ [o])) a b) as Hmono.
  { intros a b. apply joined_mono. intros c Hc. apply elem_of_app. by left. }
  assert (∀ a, a ∈ united o groups → rtc (joined (os ++ [o])) o a) as Hto.
  { intros a [->|(g & Hg & (c & Hc & Htc)%found_overlap_iff & Ha)]%elem_of_united; [done|].
    eapply rtc_l; [|apply Hmono, (Hj c a); by exists g].
    split; [|split; [|done]]; apply elem_of_app; [right; left|left; by eapply Hin]. }
  constructor.
  - by rewrite <- united_perm, Hp.
  - intros a b (g & [Hg|Hg]%elem_of_app & Ha & Hb).
    + apply list_elem_of_filter in Hg as [_ Hg]. apply Hmono, Hj. by exists g.
    + apply list_elem_of_singleton in Hg as ->. etrans; [apply joined_sym|]; by apply Hto.
  - assert (∀ b, b ∈ os → touches o b = true → b ∈ united o groups) as Hnew.
    { intros b Hb Htb. destruct (Hex b Hb) as (g & Hg & Hbg). apply elem_of_united. right. exists g. split; [done|].
      split; [|done]. apply found_overlap_iff. by exists b. }
    assert (o ∈ united o groups) as Ho by (apply elem_of_united; by left).
    assert (united o groups ∈ apart o groups ++ [united o groups]) as Hu by (apply elem_of_app; right; left).
    intros a b (Ha & Hb & Htab).
    apply elem_of_app in Ha as [Ha|Ha%list_elem_of_singleton]; apply elem_of_app in Hb as [Hb|Hb%list_elem_of_singleton]; subst.
    + destruct (Ht a b) as (g & Hg & Hag & Hbg); [done|]. destruct (found_overlap o g) eqn:Hf.
      * exists (united o groups). split; [done|]. split; apply elem_of_united; right; by exists g.
      * exists g. split; [|done]. apply elem_of_app. left. by apply list_elem_of_filter.
    + exists (united o groups). split; [done|]. split; [|done]. apply Hnew; [done|]. by rewrite touches_sym.
    + exists (united o groups). split; [done|]. split; [done|]. by apply Hnew.
    + by exists (united o groups).
Qed.

Lemma grouping_fold os : ∀ seen groups,
  NoDup (output_ids (seen ++ os)) → grouping_inv seen groups → grouping_inv (seen ++ os) (foldl add_output groups os).
Proof.
  induction os as [|o os IH]; intros seen groups Hnd Hinv; cbn [foldl]; [by rewrite app_nil_r|].
  rewrite cons_middle, app_assoc in *. apply IH; [done|]. apply add_output_inv; [|done].
  unfold output_ids in *. rewrite fmap_app in Hnd. by apply NoDup_app in Hnd as [? _].
Qed.

(** Two groups that share an output are one. *)
Lemma concat_NoDup_inj {A} (l : list (list A)) g1 g2 x : NoDup (concat l) → g1 ∈ l → g2 ∈ l → x ∈ g1 → x ∈ g2 → g1 = g2.
Proof.
  induction l as [|g l IH]; cbn; [by intros _ ?%elem_of_nil|]. intros (Hn1 & Hd & Hn2)%NoDup_app.
  intros [->|H1]%elem_of_cons [->|H2]%elem_of_cons Hx1 Hx2; [done| | |by apply IH].
  - exfalso. apply (Hd x Hx1). apply elem_of_concat. by exists g2.
  - exfalso. apply (Hd x Hx2). apply elem_of_concat. by exists g1.
Qed.

(** ** Surfaces stay on their output *)
Lemma best_screen screens : ∀ rect best area,
  let r := foldl (best_step rect) (best, area) screens in
  (r.1 = best ∧ r.2 = area ∨ r.1 ∈ screens ∧ r.2 = overlap_area rect r.1) ∧ area ≤ r.2 ∧
  (∀ s, s ∈ screens → overlap_area rect s ≤ r.2).
Proof.
  induction screens as [|s screens IH]; intros rect best area r.
  { split; [by left|]. split; [cbn; lia|]. by intros s ?%elem_of_nil. }
  subst r. cbn [foldl].
  assert (best_step rect (best, area) s = if area <? overlap_area rect s then (s, overlap_area rect s) else (best, area)) as -> by done.
  destruct (Z.ltb_spec area (overlap_area rect s)) as [Hlt|Hge].
  - destruct (IH rect s (overlap_area rect s)) as (H1 & H2 & H3). split; [right|split; [lia|]].
    + destruct H1 as [[H1 H1']|[H1 H1']]; [rewrite H1; split; [left|done]|split; [by right|done]].
    + intros y [->|Hy]%elem_of_cons; [done|]. by apply H3.
  - destruct (IH rect best area) as (H1 & H2 & H3). split; [|split; [done|]].
    + destruct H1 as [?|[H1 H1']]; [by left|right; split; [by right|done]].
    + intros y [->|Hy]%elem_of_cons; [lia|]. by apply H3.
Qed.

(** ** Properties *)

(** C15. When the default policies make valid configurations (every connected
    output has a mode of its own and a format it supports, no other is used): for
    any configuration, cloning does exactly if every connected output has a mode
    and a format to choose from; side by side exactly if every connected output
    has a mode and a current format it supports, which the policy keeps; the
    single one exactly if the first connected output with modes has a current
    format it supports and every other connected one, which is left as it is,
    already had a valid mode and format.  Cloning places the outputs it uses at
    the origin, with an opaque format whenever there is one; side by side places
    them in one row, each starting where those before it end, as long as the
    widths are not negative and add up to an [int]. *)
Theorem policies_valid conf :
  Forall unsigned_index conf →
  (configuration_valid (clone_policy conf) = true ↔ every_connected (λ o, modes o ≠ [] ∧ pixel_formats o ≠ []) conf) ∧
  (configuration_valid (side_by_side_policy conf) = true ↔
    every_connected (λ o, modes o ≠ [] ∧ current_format o ∈ pixel_formats o) conf) ∧
  (configuration_valid (single_policy conf) = true ↔
    ∀ i o, conf !! i = Some o → connected o = true →
      if usable o && negb (existsb usable (take i conf)) then current_format o ∈ pixel_formats o
      else current_format o ∈ pixel_formats o ∧ is_Some (mode_at o (current_mode_index o))) ∧
  (∀ o, o ∈ conf → used (clone_output o) = true → output_top_left (clone_output o) = point0 ∧
    ((∃ f, f ∈ pixel_formats o ∧ contains_alpha f = false) → contains_alpha (current_format (clone_output o)) = false)) ∧
  (Forall widths_ok conf → row_width conf ≤ int_max → in_a_row 0 (side_by_side_policy conf)).
Proof.
  intros Hr. split; [by apply clone_valid|]. split; [by apply side_by_side_valid|]. split; [by apply single_valid|].
  split; [|intros; by apply side_by_side_row].
  intros o Ho. unfold clone_output. destruct (negb (connected o) || _); [done|]. intros _. split; [done|].
  apply select_format_opaque.
Qed.

Definition policy_example : DisplayConfiguration :=
  [mkOutput 1 [argb_8888; xrgb_8888] [mkMode (Sz 1024 768) 60; mkMode (Sz 800 600) 60] 1 true false point0 7 argb_8888 power_off orientation_left;
   mkOutput 2 [] [] 0 false true point0 0 format_invalid power_on orientation_normal;
   mkOutput 3 [rgb_565] [mkMode (Sz 640 480) 60] 5 true false point0 0 rgb_565 power_on orientation_normal].

Lemma policies_valid_witness :
  configuration_valid (clone_policy policy_example) = true ∧ configuration_valid (single_policy policy_example) = true ∧
  configuration_valid policy_example = false ∧
  (output_top_left <$> side_by_side_policy policy_example) = [Pt 0 0; Pt 0 0; Pt 800 0].
Proof.
  destruct (policies_valid policy_example) as (Hclone & _ & Hsingle & _).
  { do 3 (constructor; [unfold unsigned_index; cbn; lia|]). constructor. }
  split; [apply Hclone; do 3 (constructor; [intros Hc; cbn in Hc; split; cbn; congruence|]); constructor|].
  split; [apply Hsingle|split; by vm_compute].
  intros [|[|[|i]]] o Ho Hc; cbn in Ho; simplify_eq; cbn in Hc; try done; cbn.
  - left.
  - split; [left|by eexists].
Defined.

(** Two connected monitors as KMS reports them when the second has no mode of
    its own set yet: its current mode index is the invalid one.  The single
    policy leaves it, and the configuration it makes is refused. *)
Definition second_monitor_dark : DisplayConfiguration :=
  let o i m := mkOutput i [argb_8888; xrgb_8888] [mkMode (Sz 1024 768) 60] 0 true false point0 m xrgb_8888 power_on orientation_normal in
  [o 1 0; o 2 (2 ^ 32 - 1)].
Lemma single_policy_keeps_invalid_mode :
  configuration_valid (single_policy second_monitor_dark) = false ∧
  configuration_valid (side_by_side_policy second_monitor_dark) = true ∧
  configuration_valid (clone_policy second_monitor_dark) = true.
Proof.
  split; [|split; by vm_compute]. apply not_true_is_false. intros Hv. apply single_valid in Hv.
  - specialize (Hv 1%nat _ eq_refl eq_refl). destruct Hv as [_ [m Hm]].
    apply lookup_lt_Some in Hm. cbn [current_mode_index modes length] in Hm. lia.
  - do 2 (constructor; [unfold unsigned_index; cbn; lia|]). constructor.
Qed.

(** C16. The grouping of outputs is the grouping into connected components: with
    distinct ids every shown output is in exactly one group, and two outputs
    share a group if and only if a chain of outputs leads from one to the
    other in which neighbours overlap and have the same orientation. *)
Theorem output_grouping_components conf :
  NoDup (output_ids conf) →
  let shown := filter (λ o, output_shown o = true) conf in
  concat (output_grouping conf) ≡ₚ shown ∧
  (∀ a b, a ∈ shown → b ∈ shown → together (output_grouping conf) a b ↔ rtc (joined shown) a b).
Proof.
  intros Hnd shown. assert (NoDup (output_ids shown)) as Hs.
  { eapply sublist_NoDup; [exact Hnd|]. unfold output_ids. apply fmap_sublist, sublist_filter. }
  assert (grouping_inv [] []) as H0.
  { constructor; [done| |]; [by intros a b (g & ?%elem_of_nil & _)|by intros a b (?%elem_of_nil & _)]. }
  destruct (grouping_fold shown [] [] Hs H0) as [Hp Hj Ht]. cbn [app] in *.
  change (foldl add_output [] shown) with (output_grouping conf) in *. split; [done|]. intros a b Ha Hb. split; [apply Hj|].
  intros Hr. clear Hb. induction Hr as [a|a c b Hac _ IH].
  - rewrite <- Hp, elem_of_concat in Ha. destruct Ha as (g & Hg & Ha). by exists g.
  - destruct (Ht a c Hac) as (g & Hg & Hag & Hcg). destruct IH as (g' & Hg' & Hcg' & Hbg'); [apply Hac|].
    assert (g = g') as <-; [|by exists g]. eapply (concat_NoDup_inj (output_grouping conf)); [|done|done|exact Hcg|done].
    apply (NoDup_fmap_1 output_id). unfold output_ids in Hs. by rewrite Hp.
Qed.

Definition grouping_example : DisplayConfiguration :=
  let o i x r := mkOutput i [rgb_565] [mkMode (Sz 100 100) 60] 0 true true (Pt x 0) 0 rgb_565 power_on r in
  [o 1 0 orientation_normal; o 2 150 orientation_normal; o 3 90 orientation_normal; o 4 95 orientation_left].

Lemma output_grouping_components_witness :
  concat (output_grouping grouping_example) ≡ₚ filter (λ o, output_shown o = true) grouping_example ∧
  length (output_grouping grouping_example) = 2%nat.
Proof.
  split; [refine (proj1 (output_grouping_components grouping_example _))|by vm_compute].
  apply (bool_decide_unpack (NoDup _)). vm_compute. exact I.
Defined.
