(* ===== verification/DisplayChanger.v ===== *)
(** Changing the display configuration
    (src/server/scene/mediating_display_changer.cpp,
    src/server/frontend/authorizing_display_changer.cpp): per-session
    configurations, the base configuration, its preview, and what happens when
    the display refuses one. *)

From S2P Require Import Prelude Geometry Float32 DisplayConfig.

(** ** The display, the policy and the sessions, as one call finds them

    [configure_error] is the exception [Display::configure] throws when it moves
    from the first configuration to the second; [damaged] is what the display
    then reports. *)
Record Environment := mkEnv {
  preserves_display_buffers : DisplayConfiguration → DisplayConfiguration → bool;
  configure_error : DisplayConfiguration → DisplayConfiguration → option exn;
  damaged : DisplayConfiguration → DisplayConfiguration → DisplayConfiguration;
  policy_apply_to : DisplayConfiguration → DisplayConfiguration;
  session_alive : Z → bool;
  all_sessions : list Z
}.

(** ** State *)

(** The actions put on the server's action queue, with what they captured. *)
Inductive action :=
  | AConfigure (session : Z) (conf : DisplayConfiguration)
  | AApplyBase (session : Z)
  | APreview (session : Z) (conf : DisplayConfiguration)
  | ACancelPreview (session : Z)
  | AHardwareChange (conf : DisplayConfiguration)
  | ASetBase (conf : DisplayConfiguration)
  | AFocusChange (session : Z)
  | ANoFocus
  | ASessionStopping (session : Z).
#[export] Instance action_eq_dec : EqDecision action.
Proof. solve_decision. Defined.

(** [display_config] and [compositor_running] are the display's and the
    compositor's; [region] the input region's rectangles.  The preview alarm is
    the session it captured and whether it is still pending. *)
Record Changer := mkChanger {
  display_config : DisplayConfiguration;
  compositor_running : bool;
  region : Rectangles;
  config_map : gmap Z DisplayConfiguration;
  focused_session : option Z;
  base_configuration_ : DisplayConfiguration;
  base_configuration_applied : bool;
  preview_configuration_timeout : option (Z * bool);
  currently_previewing_session : option Z;
  queue : list action
}.

Inductive display_error := ConfigurationFailedError.
#[export] Instance display_error_eq_dec : EqDecision display_error.
Proof. solve_decision. Defined.

Inductive changer_obs :=
  | DisplayConfigure (conf : DisplayConfiguration)
  | CompositorStop
  | CompositorStart
  | ConfigurationApplied (conf : DisplayConfiguration)
  | ConfigurationFailed (conf : DisplayConfiguration)
  | CatastrophicError (conf : DisplayConfiguration)
  | BaseConfigurationUpdated (conf : DisplayConfiguration)
  | SessionConfigurationApplied (session : Z) (conf : DisplayConfiguration)
  | SessionConfigurationRemoved (session : Z)
  | SendDisplayConfig (session : Z) (conf : DisplayConfiguration)
  | SendError (session : Z) (e : display_error)
  | SetInputRectangles (r : Rectangles)
  | RescheduleAlarm (timeout : Z)
  | PauseProcessing
  | ResumeProcessing
  (** an exception left an action of the queue *)
  | ActionFailed (a : action).
#[export] Instance changer_obs_eq_dec : EqDecision changer_obs.
Proof. solve_decision. Defined.

#[local] Abbreviation M := (prog Changer changer_obs).

Definition set_display c s := mkChanger c (compositor_running s) (region s) (config_map s) (focused_session s) (base_configuration_ s) (base_configuration_applied s) (preview_configuration_timeout s) (currently_previewing_session s) (queue s).
Definition set_running b s := mkChanger (display_config s) b (region s) (config_map s) (focused_session s) (base_configuration_ s) (base_configuration_applied s) (preview_configuration_timeout s) (currently_previewing_session s) (queue s).
Definition set_region r s := mkChanger (display_config s) (compositor_running s) r (config_map s) (focused_session s) (base_configuration_ s) (base_configuration_applied s) (preview_configuration_timeout s) (currently_previewing_session s) (queue s).
Definition set_config_map m s := mkChanger (display_config s) (compositor_running s) (region s) m (focused_session s) (base_configuration_ s) (base_configuration_applied s) (preview_configuration_timeout s) (currently_previewing_session s) (queue s).
Definition set_focused f s := mkChanger (display_config s) (compositor_running s) (region s) (config_map s) f (base_configuration_ s) (base_configuration_applied s) (preview_configuration_timeout s) (currently_previewing_session s) (queue s).
Definition set_base c s := mkChanger (display_config s) (compositor_running s) (region s) (config_map s) (focused_session s) c (base_configuration_applied s) (preview_configuration_timeout s) (currently_previewing_session s) (queue s).
Definition set_applied b s := mkChanger (display_config s) (compositor_running s) (region s) (config_map s) (focused_session s) (base_configuration_ s) b (preview_configuration_timeout s) (currently_previewing_session s) (queue s).
Definition set_preview a p s := mkChanger (display_config s) (compositor_running s) (region s) (config_map s) (focused_session s) (base_configuration_ s) (base_configuration_applied s) a p (queue s).
Definition set_queue q s := mkChanger (display_config s) (compositor_running s) (region s) (config_map s) (focused_session s) (base_configuration_ s) (base_configuration_applied s) (preview_configuration_timeout s) (currently_previewing_session s) q.

Definition enqueue (a : action) : M unit := pmodify (λ s, set_queue (queue s ++ [a]) s).

(** ** Applying a configuration *)
Definition enabled_outputs (c : DisplayConfiguration) : list Z := output_id <$> filter (λ o, used o = true) c.
Definition configuration_has_new_outputs_enabled (existing updated : DisplayConfiguration) : bool :=
  foldl (λ has_new_output o,
    if used o then has_new_output || bool_decide (output_id o ∉ enabled_outputs existing) else has_new_output)
    false updated.

Definition input_rectangles (config : DisplayConfiguration) : Rectangles :=
  foldl (λ rectangles o,
    if used o && connected o && bool_decide (power_mode o = power_on) then
      match mode_at o (current_mode_index o) with
      | Some m => rectangles_add rectangles (Rect (output_top_left o) (mode_size m))
      | None => rectangles
      end
    else rectangles) [] config.

Definition update_input_rectangles (config : DisplayConfiguration) : M unit :=
  let rectangles := input_rectangles config in
  do* pmodify (set_region rectangles) in pemit (SetInputRectangles rectangles).

(** The state a fresh changer starts from: the configuration the display has. *)
Definition new_changer (initial : DisplayConfiguration) : Changer :=
  mkChanger initial true (input_rectangles initial) ∅ None initial true None None [].

Section environment.
Context (env : Environment).

Definition display_configure (conf : DisplayConfiguration) : M unit :=
  let* s := pget in
  do* pemit (DisplayConfigure conf) in
  match configure_error env (display_config s) conf with
  | None => pput (set_display conf s)
  | Some e => do* pput (set_display (damaged env (display_config s) conf) s) in pthrow e
  end.

(** [ApplyNowAndRevertOnScopeExit] around [configure]. *)
Definition configure_with_compositor_stopped (conf : DisplayConfiguration) : M unit :=
  do* pemit CompositorStop in
  do* pmodify (set_running false) in
  pfinally (display_configure conf) (do* pemit CompositorStart in pmodify (set_running true)).

Definition apply_config (conf : DisplayConfiguration) : M unit :=
  let* s := pget in
  let existing_configuration := display_config s in
  pcatch
    (do* (if configuration_has_new_outputs_enabled existing_configuration conf
             || negb (preserves_display_buffers env existing_configuration conf)
          then configure_with_compositor_stopped conf
          else pmodify (set_display conf)) in
     do* pemit (ConfigurationApplied conf) in
     do* update_input_rectangles conf in
     pmodify (set_applied false))
    (λ e,
      do* pcatch (configure_with_compositor_stopped existing_configuration)
        (λ e', do* pemit (CatastrophicError existing_configuration) in pthrow e') in
      do* pemit (ConfigurationFailed conf) in
      pthrow e).

Definition apply_base_config : M unit :=
  let* s := pget in
  do* apply_config (base_configuration_ s) in
  pmodify (set_applied true).

Definition send_config_to_all_sessions (conf : DisplayConfiguration) : M unit :=
  pfor (all_sessions env) (λ session, pemit (SendDisplayConfig session conf)).

Definition when_alive (session : Z) (m : M unit) : M unit := pwhen (session_alive env session) m.

Definition is_runtime_error (e : exn) : bool := match e with runtime_error _ => true | _ => false end.

(** ** The handlers, run from the action queue *)
Definition focus_change_handler (session : Z) : M unit :=
  do* pmodify (set_focused (Some session)) in
  let* s := pget in
  match config_map s !! session with
  | Some conf => pcatch (apply_config conf) (λ _, pemit (SendError session ConfigurationFailedError))
  | None => pwhen (negb (base_configuration_applied s)) apply_base_config
  end.

Definition no_focus_handler : M unit :=
  do* pmodify (set_focused None) in
  let* s := pget in
  pwhen (negb (base_configuration_applied s)) apply_base_config.

Definition session_stopping_handler (session : Z) : M unit :=
  pmodify (λ s, set_config_map (delete session (config_map s)) s).

(** [std::weak_ptr::lock] *)
Definition lock (weak : option Z) : option Z :=
  match weak with Some session => if session_alive env session then Some session else None | None => None end.

(** The actions the calls below put on the queue. *)
Definition configure_action (session : Z) (conf : DisplayConfiguration) : M unit :=
  when_alive session
    (let* s := pget in
     pwhen (bool_decide (lock (focused_session s) = Some session))
       (pcatch (apply_config conf) (λ _, pemit (SendError session ConfigurationFailedError)))).

Definition apply_base_action (session : Z) : M unit :=
  when_alive session (pcatch apply_base_config (λ _, pemit (SendError session ConfigurationFailedError))).

Definition preview_action (session : Z) (conf : DisplayConfiguration) : M unit :=
  when_alive session
    (pcatch (do* apply_config conf in pemit (SendDisplayConfig session conf))
       (λ e, if is_runtime_error e then pemit (SendError session ConfigurationFailedError) else pthrow e)).

Definition back_to_base (session : Z) : M unit :=
  when_alive session
    (do* apply_base_config in
     let* s := pget in pemit (SendDisplayConfig session (base_configuration_ s))).

Definition hardware_change_action (conf : DisplayConfiguration) : M unit :=
  let* s := pget in
  let existing_configuration := base_configuration_ s in
  do* pput (set_base (policy_apply_to env conf) s) in
  do* pwhen (base_configuration_applied s)
    (pcatch
       (do* apply_base_config in
        let* s := pget in pemit (BaseConfigurationUpdated (base_configuration_ s)))
       (λ _, pmodify (set_base existing_configuration))) in
  do* pmodify (set_config_map ∅) in
  let* s := pget in
  send_config_to_all_sessions (base_configuration_ s).

Definition set_base_action (conf : DisplayConfiguration) : M unit :=
  do* pmodify (set_base conf) in
  let* s := pget in
  do* pwhen (base_configuration_applied s) apply_base_config in
  do* pemit (BaseConfigurationUpdated conf) in
  send_config_to_all_sessions conf.

Definition perform (a : action) : M unit :=
  match a with
  | AConfigure session conf => configure_action session conf
  | AApplyBase session => apply_base_action session
  | APreview session conf => preview_action session conf
  | ACancelPreview session => back_to_base session
  | AHardwareChange conf => hardware_change_action conf
  | ASetBase conf => set_base_action conf
  | AFocusChange session => when_alive session (focus_change_handler session)
  | ANoFocus => no_focus_handler
  | ASessionStopping session => when_alive session (session_stopping_handler session)
  end.

(** ** The calls of the frontend and the scene *)
Definition configure (session : Z) (conf : DisplayConfiguration) : M unit :=
  do* pmodify (λ s, set_config_map (<[session := conf]> (config_map s)) s) in
  do* pemit (SessionConfigurationApplied session conf) in
  let* s := pget in
  pwhen (bool_decide (lock (focused_session s) = Some session)) (enqueue (AConfigure session conf)).

Definition remove_session_configuration (session : Z) : M unit :=
  let* s := pget in
  do* pwhen (bool_decide (is_Some (config_map s !! session)))
    (do* pput (set_config_map (delete session (config_map s)) s) in
     pemit (SessionConfigurationRemoved session)) in
  pwhen (bool_decide (lock (focused_session s) = Some session)) (enqueue (AApplyBase session)).

Definition preview_in_progress : exn := runtime_error "Base display configuration already in progress".
Definition no_preview_in_progress : exn := runtime_error "No base display configuration preview in progress".

Definition preview_base_configuration (session : Z) (conf : DisplayConfiguration) (timeout : Z) : M unit :=
  let* s := pget in
  match preview_configuration_timeout s with
  | Some _ => pthrow preview_in_progress
  | None =>
      do* pemit (RescheduleAlarm timeout) in
      do* pput (set_preview (Some (session, true)) (Some session) s) in
      enqueue (APreview session conf)
  end.

Definition set_base_configuration (conf : DisplayConfiguration) : M unit := enqueue (ASetBase conf).

Definition confirm_base_configuration (session : Z) (confirmed_conf : DisplayConfiguration) : M unit :=
  do* pmodify (set_preview None None) in
  set_base_configuration confirmed_conf.

Definition cancel_base_configuration_preview (session : Z) : M unit :=
  let* s := pget in
  match preview_configuration_timeout s with
  | Some (captured, pending) =>
      if bool_decide (lock (currently_previewing_session s) = Some session) then
        do* pput (set_preview None None s) in
        pwhen pending (enqueue (ACancelPreview session))
      else pthrow no_preview_in_progress
  | None => pthrow no_preview_in_progress
  end.

(** The alarm's callback; from now on the alarm is not pending. *)
Definition preview_timeout_fires : M unit :=
  let* s := pget in
  match preview_configuration_timeout s with
  | Some (session, _) =>
      do* pput (set_preview (Some (session, false)) (currently_previewing_session s) s) in
      back_to_base session
  | None => pret tt
  end.

Definition configure_for_hardware_change (conf : DisplayConfiguration) : M unit := enqueue (AHardwareChange conf).
Definition pause_display_config_processing : M unit := pemit PauseProcessing.
Definition resume_display_config_processing : M unit := pemit ResumeProcessing.

(** The handlers registered with the session events. *)
Definition focus_changed (session : Z) : M unit := enqueue (AFocusChange session).
Definition focus_lost : M unit := enqueue ANoFocus.
Definition session_stopping (session : Z) : M unit := enqueue (ASessionStopping session).

(** The action queue performs its oldest action. *)
Definition process_next : M unit :=
  let* s := pget in
  match queue s with
  | [] => pret tt
  | a :: q =>
      do* pput (set_queue q s) in
      pcatch (perform a) (λ e, do* pemit (ActionFailed a) in pthrow e)
  end.
End environment.

(** ** The compositor and the display *)

Ltac unfold_action :=
  cbn [perform]; unfold configure_action, apply_base_action, preview_action, back_to_base, hardware_change_action, set_base_action.


(** The display is configured only while the compositor is stopped; stop and
    start alternate. *)
Definition comp_step (running : bool) (o : changer_obs) : bool :=
  match o with CompositorStop => false | CompositorStart => true | _ => running end.
Fixpoint compositor_protocol (running : bool) (t : list changer_obs) : Prop :=
  match t with
  | [] => True
  | o :: t' =>
      match o with
      | CompositorStop => running = true
      | CompositorStart | DisplayConfigure _ => running = false
      | _ => True
      end ∧ compositor_protocol (comp_step running o) t'
  end.
Lemma compositor_protocol_app b t u :
  compositor_protocol b (t ++ u) ↔ compositor_protocol b t ∧ compositor_protocol (foldl comp_step b t) u.
Proof. revert b. induction t as [|o t IH]; intros b; cbn; [tauto|]. rewrite IH. tauto. Qed.

Definition no_catastrophe (h : list changer_obs) : Prop := ∀ c, CatastrophicError c ∉ h.
Definition no_base_rejected (h : list changer_obs) : Prop := ∀ c, ActionFailed (ASetBase c) ∉ h.
Lemma no_catastrophe_app h t : no_catastrophe (h ++ t) → no_catastrophe h ∧ no_catastrophe t.
Proof. intros Hn. split; intros c Hc; apply (Hn c), elem_of_app; auto. Qed.
Lemma no_base_rejected_app h t : no_base_rejected (h ++ t) → no_base_rejected h ∧ no_base_rejected t.
Proof. intros Hn. split; intros c Hc; apply (Hn c), elem_of_app; auto. Qed.

(** A balanced piece of history. *)
Definition balanced (t : list changer_obs) : Prop := compositor_protocol true t ∧ foldl comp_step true t = true.

Lemma balanced_app t u : balanced t → balanced u → balanced (t ++ u).
Proof.
  intros [H1 H2] [H3 H4]. split; [apply compositor_protocol_app; by rewrite H2|]. by rewrite foldl_app, H2.
Qed.

(** *** Configuring with the compositor stopped *)
Lemma set_running_same b s : compositor_running s = b → set_running b s = s.
Proof. destruct s; cbn; by intros ->. Qed.

Lemma configure_stopped_run env conf s :
  compositor_running s = true →
  configure_with_compositor_stopped env conf s =
    Run match configure_error env (display_config s) conf with None => Ret tt | Some e => Throw e end
      (set_display (match configure_error env (display_config s) conf with
        None => conf | Some _ => damaged env (display_config s) conf end) s)
      [CompositorStop; DisplayConfigure conf; CompositorStart].
Proof.
  intros Hr. unfold configure_with_compositor_stopped, pfinally, display_configure. run_prog.
  destruct (configure_error env (display_config s) conf); cbn; unfold set_running, set_display; cbn; rewrite ?Hr; done.
Qed.

(** *** The three ways a configuration ends: applied, refused with the display
    back where it was, or refused with the display lost. *)
Definition applied_state (conf : DisplayConfiguration) (s : Changer) : Changer :=
  set_applied false (set_region (input_rectangles conf) (set_display conf s)).

Definition tells_client (o : changer_obs) : bool :=
  match o with SendError _ _ | SendDisplayConfig _ _ => true | _ => false end.

Inductive apply_result (s : Changer) (conf : DisplayConfiguration) : run Changer changer_obs unit → Prop :=
  | apply_done t :
      balanced t → no_catastrophe t → Forall (λ o, tells_client o = false) t →
      apply_result s conf (Run (Ret tt) (applied_state conf s) t)
  | apply_refused e t :
      balanced t → no_catastrophe t → apply_result s conf (Run (Throw e) s t)
  | apply_lost e d t :
      balanced t → CatastrophicError (display_config s) ∈ t → apply_result s conf (Run (Throw e) (set_display d s) t).

Lemma set_display_back d s : set_display (display_config s) (set_display d s) = s.
Proof. by destruct s. Qed.

(** The observations of a piece of history, listed. *)
Ltac solve_balanced := split; [cbn; tauto|done].
Ltac solve_no_catastrophe :=
  intros ? Hin; repeat (apply elem_of_cons in Hin as [Hin|Hin]; [done|]); by apply elem_of_nil in Hin.

Lemma apply_config_cases env conf s :
  compositor_running s = true → apply_result s conf (apply_config env conf s).
Proof.
  intros Hr. pose proof (configure_stopped_run env conf s Hr) as Hrun.
  unfold apply_config. rewrite pbind_get.
  destruct (configuration_has_new_outputs_enabled (display_config s) conf ||
    negb (preserves_display_buffers env (display_config s) conf)).
  2: { cbn. apply apply_done; [solve_balanced|solve_no_catastrophe|by repeat constructor]. }
  unfold pcatch at 1, pbind. rewrite Hrun.
  destruct (configure_error env (display_config s) conf) as [e|]; cbn [value post trace].
  2: { cbn. apply apply_done; [solve_balanced|solve_no_catastrophe|by repeat constructor]. }
  set (s' := set_display _ s).
  pose proof (configure_stopped_run env (display_config s) s' Hr) as Hback. unfold pcatch. rewrite Hback.
  destruct (configure_error env (display_config s') (display_config s)) as [e'|]; cbn.
  - assert (∀ c, set_display c s' = set_display c s) as -> by done.
    apply apply_lost; [solve_balanced|]. set_solver.
  - unfold s'. rewrite set_display_back. apply apply_refused; [solve_balanced|solve_no_catastrophe].
Qed.

Lemma apply_base_result env s :
  compositor_running s = true →
  (∃ t, apply_base_config env s = Run (Ret tt) (set_applied true (applied_state (base_configuration_ s) s)) t ∧
    balanced t ∧ no_catastrophe t) ∨
  (∃ e t, apply_base_config env s = Run (Throw e) s t ∧ balanced t ∧ no_catastrophe t) ∨
  (∃ e d t, apply_base_config env s = Run (Throw e) (set_display d s) t ∧ balanced t ∧
    CatastrophicError (display_config s) ∈ t).
Proof.
  intros Hr. pose proof (apply_config_cases env (base_configuration_ s) s Hr) as Hc.
  unfold apply_base_config. rewrite pbind_get. unfold pbind.
  destruct Hc as [t Hb Hn Hq|e t Hb Hn|e d t Hb Hc]; cbn.
  - left. exists t. by rewrite app_nil_r.
  - right; left. by exists e, t.
  - right; right. by exists e, d, t.
Qed.

(** ** The invariant *)

(** What the changer believes is so, as long as the display never failed to go
    back and no configuration set as base was refused. *)
Record consistent (s : Changer) (h : list changer_obs) : Prop := {
  co_running : compositor_running s = true;
  co_balanced : balanced h;
  co_region : no_catastrophe h → region s = input_rectangles (display_config s);
  co_base : no_catastrophe h → no_base_rejected h → base_configuration_applied s = true →
    display_config s = base_configuration_ s
}.

Lemma consistent_emit o s h :
  (o ≠ CompositorStop) → (o ≠ CompositorStart) → (∀ c, o ≠ DisplayConfigure c) →
  consistent s h → consistent s (h ++ [o]).
Proof.
  intros H1 H2 H3 [Hr Hb Hg Hc]. split; [done| | |].
  - apply balanced_app; [done|]. destruct o; try done; by destruct (H3 conf).
  - intros [Hn _]%no_catastrophe_app. auto.
  - intros [Hn _]%no_catastrophe_app [Hn' _]%no_base_rejected_app. auto.
Qed.

Lemma preserves_quiet o :
  (o ≠ CompositorStop) → (o ≠ CompositorStart) → (∀ c, o ≠ DisplayConfigure c) →
  preserves consistent (pemit o).
Proof. intros. apply preserves_emit. intros. by apply consistent_emit. Qed.

(** An update of the fields the invariant does not read. *)
Lemma consistent_frame s s' h :
  consistent s h →
  display_config s' = display_config s → compositor_running s' = compositor_running s →
  region s' = region s → base_configuration_ s' = base_configuration_ s →
  base_configuration_applied s' = base_configuration_applied s →
  consistent s' h.
Proof. intros [H1 H2 H3 H4] Hd Hr Hg Hb Ha. split; rewrite ?Hd, ?Hr, ?Hg, ?Hb, ?Ha; auto. Qed.

Lemma consistent_applied conf b s h t :
  consistent s h → balanced t → (b = true → conf = base_configuration_ s) →
  consistent (set_applied b (applied_state conf s)) (h ++ t).
Proof. intros [] Ht Hb. split; cbn; auto using balanced_app. Qed.
Lemma consistent_refused s h t : consistent s h → balanced t → consistent s (h ++ t).
Proof.
  intros [] Ht. split; [done|by apply balanced_app| |].
  - intros [Hn _]%no_catastrophe_app. auto.
  - intros [Hn _]%no_catastrophe_app [Hn' _]%no_base_rejected_app. auto.
Qed.
Lemma consistent_lost c d s h t :
  consistent s h → balanced t → CatastrophicError c ∈ t → consistent (set_display d s) (h ++ t).
Proof.
  intros [] Ht Hc. split; [done|by apply balanced_app| |];
    intros [_ Hn]%no_catastrophe_app; by destruct (Hn _ Hc).
Qed.

Lemma apply_config_preserves env conf : preserves consistent (apply_config env conf).
Proof.
  intros s h Hs. destruct (apply_config_cases env conf s (co_running _ _ Hs)) as [t Hb Hn Hq|e t Hb Hn|e d t Hb Hc]; cbn.
  - by apply (consistent_applied conf false).
  - by apply consistent_refused.
  - by eapply consistent_lost.
Qed.
Lemma apply_base_preserves env : preserves consistent (apply_base_config env).
Proof.
  intros s h Hs.
  destruct (apply_base_result env s (co_running _ _ Hs)) as [(t & -> & Hb & _)|[(e & t & -> & Hb & _)|(e & d & t & -> & Hb & Hc)]]; cbn.
  - by apply consistent_applied.
  - by apply consistent_refused.
  - by eapply consistent_lost.
Qed.
#[local] Hint Resolve apply_config_preserves apply_base_preserves : preserve.
#[local] Hint Extern 1 (preserves consistent (pemit _)) => (apply preserves_quiet; done) : preserve.
#[local] Hint Extern 1 (preserves consistent (pmodify _)) =>
  (apply preserves_modify; let H := fresh in intros ? ? H; by apply (consistent_frame _ _ _ H)) : preserve.

Lemma send_config_preserves env conf : preserves consistent (send_config_to_all_sessions env conf).
Proof. apply preserves_for. eauto 20 with preserve. Qed.
#[local] Hint Resolve send_config_preserves : preserve.

Lemma hardware_change_preserves env conf : preserves consistent (perform env (AHardwareChange conf)).
Proof.
  intros s h Hs. unfold_action. rewrite pbind_get, pbind_put. apply (after_bind consistent); [|eauto 20 with preserve].
  cbn [base_configuration_applied set_base]. set (s1 := set_base _ s). unfold pwhen.
  destruct (base_configuration_applied s) eqn:Ha.
  - unfold pcatch, pbind.
    destruct (apply_base_result env s1 (co_running _ _ Hs))
      as [(t & -> & Hb & _)|[(e & t & -> & Hb & _)|(e & d & t & -> & Hb & Hc)]]; cbn [value post trace].
    + cbn. destruct Hs. split; cbn; [done| |done|done].
      apply balanced_app; [done|]. apply balanced_app; [done|]. solve_balanced.
    + cbn. rewrite app_nil_r. eapply consistent_frame; [by apply (consistent_refused s)|..]; done.
    + cbn. rewrite app_nil_r. eapply consistent_frame; [by apply (consistent_lost (display_config s1) d s h t)|..]; done.
  - cbn. rewrite app_nil_r. destruct Hs. split; cbn; auto. congruence.
Qed.

(** [set_base_configuration] does not put the old base configuration back when
    the new one is refused: that failure is what the invariant excludes. *)
Definition reported (m : M unit) (a : action) : M unit := pcatch m (λ e, do* pemit (ActionFailed a) in pthrow e).

Lemma set_base_preserves env conf : preserves consistent (reported (perform env (ASetBase conf)) (ASetBase conf)).
Proof.
  intros s h Hs. set (s1 := set_base conf s).
  set (sent := BaseConfigurationUpdated conf :: ((λ x, SendDisplayConfig x conf) <$> all_sessions env)).
  set (tail := do* pemit (BaseConfigurationUpdated conf) in send_config_to_all_sessions env conf).
  assert (∀ s', tail s' = Run (Ret tt) s' sent) as Hrun.
  { intros s'. unfold tail, send_config_to_all_sessions. by rewrite pbind_emit, pfor_emit. }
  assert (∀ s' h', consistent s' h' → consistent s' (h' ++ sent)) as Htail.
  { intros s' h' Hs'. assert (preserves consistent tail) as Ht by (unfold tail; eauto 20 with preserve).
    specialize (Ht s' h' Hs'). by rewrite Hrun in Ht. }
  assert (perform env (ASetBase conf) s = pbind (pwhen (base_configuration_applied s) (apply_base_config env)) (λ _, tail) s1) as Hp.
  { unfold_action. by rewrite pbind_modify, pbind_get. }
  unfold reported, pcatch. rewrite Hp. unfold pbind, pwhen.
  destruct (base_configuration_applied s) eqn:Ha.
  - destruct (apply_base_result env s1 (co_running _ _ Hs))
      as [(t & -> & Hb & _)|[(e & t & -> & Hb & _)|(e & d & t & -> & Hb & Hc)]]; cbn [value post trace].
    + rewrite Hrun. cbn [value post trace]. rewrite app_assoc. apply Htail. destruct Hs.
      split; cbn; auto using balanced_app.
    + destruct Hs as [H1 H2 H3 H4]. cbn. split; cbn; [done| | |].
      * apply balanced_app; [done|]. apply balanced_app; [done|solve_balanced].
      * intros [Hn _]%no_catastrophe_app. auto.
      * intros _ Hn. destruct (Hn conf). rewrite !elem_of_app. right; right. left.
    + destruct Hs as [H1 H2 H3 H4]. cbn. split; cbn; [done| | |].
      * apply balanced_app; [done|]. apply balanced_app; [done|solve_balanced].
      * intros Hn. destruct (Hn (display_config s1)). rewrite !elem_of_app. auto.
      * intros Hn. destruct (Hn (display_config s1)). rewrite !elem_of_app. auto.
  - unfold pret. cbn [value post trace]. rewrite Hrun. cbn [value post trace app]. apply Htail. destruct Hs. split; cbn; auto. congruence.
Qed.

Lemma catching_preserves (m handler : M unit) :
  preserves consistent m → preserves consistent handler → preserves consistent (pcatch m (λ _, handler)).
Proof. intros. by apply preserves_catch. Qed.
Lemma throw_after_preserves o e :
  preserves consistent (pemit o) → preserves consistent (do* pemit o in pthrow (A := unit) e).
Proof. intros. apply preserves_bind; eauto with preserve. Qed.
#[local] Hint Resolve catching_preserves : preserve.

Lemma read_preserves (k : Changer → M unit) : (∀ s, preserves consistent (k s)) → preserves consistent (pbind pget k).
Proof. intros. apply preserves_bind; eauto with preserve. Qed.
#[local] Hint Resolve read_preserves : preserve.

Lemma perform_preserves env a : preserves consistent (reported (perform env a) a).
Proof.
  destruct a as [session conf|session|session conf|session|conf|conf|session| |session];
    [| | | | |apply set_base_preserves| | |];
    (apply preserves_catch; [|eauto with preserve]; unfold_action; unfold when_alive; try apply preserves_when).
  - eauto 20 with preserve.
  - eauto 20 with preserve.
  - apply preserves_catch; [eauto with preserve|]. intros e. destruct (is_runtime_error e); eauto with preserve.
  - eauto 20 with preserve.
  - apply hardware_change_preserves.
  - unfold focus_change_handler. apply preserves_bind; [eauto with preserve|]. intros _. apply read_preserves.
    intros s. destruct (config_map s !! session); eauto with preserve.
  - unfold no_focus_handler. eauto 20 with preserve.
  - unfold session_stopping_handler. eauto with preserve.
Qed.

(** ** The changer as a machine *)
Inductive changer_op :=
  | Configure (env : Environment) (session : Z) (conf : DisplayConfiguration)
  | RemoveSessionConfiguration (env : Environment) (session : Z)
  | PreviewBaseConfiguration (session : Z) (conf : DisplayConfiguration) (timeout : Z)
  | ConfirmBaseConfiguration (session : Z) (conf : DisplayConfiguration)
  | CancelBaseConfigurationPreview (env : Environment) (session : Z)
  | SetBaseConfiguration (conf : DisplayConfiguration)
  | ConfigureForHardwareChange (conf : DisplayConfiguration)
  | PauseDisplayConfigProcessing
  | ResumeDisplayConfigProcessing
  | FocusChanged (session : Z)
  | FocusLost
  | SessionStopping (session : Z)
  | ProcessNext (env : Environment)
  | PreviewTimeoutFires (env : Environment).

Definition changer_exec (op : changer_op) : M unit :=
  match op with
  | Configure env session conf => configure env session conf
  | RemoveSessionConfiguration env session => remove_session_configuration env session
  | PreviewBaseConfiguration session conf timeout => preview_base_configuration session conf timeout
  | ConfirmBaseConfiguration session conf => confirm_base_configuration session conf
  | CancelBaseConfigurationPreview env session => cancel_base_configuration_preview env session
  | SetBaseConfiguration conf => set_base_configuration conf
  | ConfigureForHardwareChange conf => configure_for_hardware_change conf
  | PauseDisplayConfigProcessing => pause_display_config_processing
  | ResumeDisplayConfigProcessing => resume_display_config_processing
  | FocusChanged session => focus_changed session
  | FocusLost => focus_lost
  | SessionStopping session => session_stopping session
  | ProcessNext env => process_next env
  | PreviewTimeoutFires env => preview_timeout_fires env
  end.

(** An alarm fires only while it is pending. *)
Definition changer_machine : machine := Machine Changer changer_op changer_obs
  (λ s, ∃ initial, s = new_changer initial)
  (λ s _ op, match op with
    | PreviewTimeoutFires _ => match preview_configuration_timeout s with Some (_, pending) => pending | None => false end
    | _ => true
    end)
  changer_exec.

Lemma put_frame s s' :
  display_config s' = display_config s → compositor_running s' = compositor_running s →
  region s' = region s → base_configuration_ s' = base_configuration_ s →
  base_configuration_applied s' = base_configuration_applied s →
  ∀ {A} (k : unit → M A) h, preserves consistent (k tt) → consistent s h →
  consistent (post (pbind (pput s') k s)) (h ++ trace (pbind (pput s') k s)).
Proof. intros Hd Hr Hg Hb Ha A k h Hk Hs. rewrite pbind_put. apply Hk. by apply (consistent_frame s). Qed.

Lemma enqueue_preserves a : preserves consistent (enqueue a).
Proof. unfold enqueue. eauto with preserve. Qed.
#[local] Hint Resolve enqueue_preserves : preserve.

Lemma changer_exec_preserves op : preserves consistent (changer_exec op).
Proof.
  destruct op; cbn [changer_exec];
    unfold set_base_configuration, configure_for_hardware_change, pause_display_config_processing,
      resume_display_config_processing, focus_changed, focus_lost, session_stopping; eauto with preserve.
  - apply preserves_read. intros s h Hs. apply (after_bind consistent); [|eauto with preserve].
    destruct (bool_decide _); cbn [pwhen]; [|cbn; by rewrite app_nil_r].
    apply put_frame; eauto with preserve.
  - apply preserves_read. intros s h Hs. destruct (preview_configuration_timeout s); [cbn; by rewrite app_nil_r|].
    rewrite pbind_emit. cbn [post trace]. rewrite cons_middle, app_assoc.
    apply put_frame; eauto with preserve. by apply consistent_emit.
  - apply preserves_read. intros s h Hs.
    destruct (preview_configuration_timeout s) as [[c p]|]; [|cbn; by rewrite app_nil_r].
    case_bool_decide; [|cbn; by rewrite app_nil_r]. apply put_frame; eauto with preserve.
  - apply preserves_read. intros s h Hs. destruct (queue s) as [|a q]; [cbn; by rewrite app_nil_r|].
    apply put_frame; eauto with preserve. apply (perform_preserves env).
  - apply preserves_read. intros s h Hs.
    destruct (preview_configuration_timeout s) as [[c p]|]; [|cbn; by rewrite app_nil_r].
    apply put_frame; [done..| |done]. unfold back_to_base, when_alive. apply preserves_when. eauto 20 with preserve.
Qed.

Lemma changer_reachable s h : reachable changer_machine s h → consistent s h.
Proof.
  revert s h. apply (reachable_invariant changer_machine).
  - intros ? [c ->]. split; cbn; [done|by split|done|done].
  - intros s h op _ Hs _. by apply changer_exec_preserves.
Qed.

(** ** Previews *)

(** The session that previews is the one the preview's alarm was made for. *)
Definition preview_is (p : option (Z * bool)) (c : option Z) (s : Changer) (h : list changer_obs) : Prop :=
  preview_configuration_timeout s = p ∧ currently_previewing_session s = c.

Section keeps_preview.
Context (p : option (Z * bool)) (c : option Z).
#[local] Abbreviation I := (preview_is p c).

Lemma kp_emit o : preserves I (pemit o).
Proof. by apply preserves_emit. Qed.
Lemma kp_modify f : (∀ s h, I s h → I (f s) h) → preserves I (pmodify f).
Proof. apply preserves_modify. Qed.
Lemma kp_put s' : I s' [] → preserves I (pput s').
Proof. by intros Hs s h _. Qed.
Lemma kp_read {A} (k : Changer → M A) : (∀ s, I s [] → preserves I (k s)) → preserves I (pbind pget k).
Proof. intros Hk s h Hs. rewrite pbind_get. apply Hk; done. Qed.
Lemma kp_finally {A} (m : M A) fin : preserves I m → preserves I fin → preserves I (pfinally m fin).
Proof. intros Hm Hf s h Hs. unfold pfinally. cbn. rewrite app_assoc. auto. Qed.
#[local] Hint Resolve kp_emit kp_put kp_read kp_finally : preserve.
#[local] Hint Extern 1 (preserves I (pmodify _)) =>
  (apply kp_modify; let s := fresh in let h := fresh in intros s h; exact (λ x, x)) : preserve.

Lemma configure_stopped_keeps env conf : preserves I (configure_with_compositor_stopped env conf).
Proof.
  unfold configure_with_compositor_stopped. do 2 (apply preserves_bind; [eauto with preserve|intros _]).
  apply kp_finally; [|eauto 20 with preserve]. unfold display_configure. apply kp_read. intros s Hs.
  apply preserves_bind; [eauto with preserve|]. intros _.
  destruct (configure_error env (display_config s) conf); eauto 20 with preserve.
Qed.
#[local] Hint Resolve configure_stopped_keeps : preserve.

Lemma apply_config_keeps env conf : preserves I (apply_config env conf).
Proof.
  unfold apply_config, update_input_rectangles. apply kp_read. intros s _. apply preserves_catch.
  - apply preserves_bind; [|eauto 20 with preserve]. destruct (_ || _); eauto with preserve.
  - intros e. apply preserves_bind; [apply preserves_catch|]; eauto 20 with preserve.
Qed.
#[local] Hint Resolve apply_config_keeps : preserve.
Lemma apply_base_keeps env : preserves I (apply_base_config env).
Proof. unfold apply_base_config. eauto 20 with preserve. Qed.
#[local] Hint Resolve apply_base_keeps : preserve.
Lemma send_config_keeps env conf : preserves I (send_config_to_all_sessions env conf).
Proof. apply preserves_for. eauto with preserve. Qed.
#[local] Hint Resolve send_config_keeps : preserve.

Lemma catching_keeps (m handler : M unit) : preserves I m → preserves I handler → preserves I (pcatch m (λ _, handler)).
Proof. intros. by apply preserves_catch. Qed.
#[local] Hint Resolve catching_keeps : preserve.

Lemma perform_keeps env a : preserves I (perform env a).
Proof.
  destruct a as [session conf|session|session conf|session|conf|conf|session| |session]; unfold_action;
    unfold when_alive; try apply preserves_when.
  - eauto 20 with preserve.
  - eauto 20 with preserve.
  - apply preserves_catch; [eauto with preserve|]. intros e. destruct (is_runtime_error e); eauto with preserve.
  - eauto 20 with preserve.
  - apply kp_read. intros s Hs. apply preserves_bind; [by apply kp_put|]. intros _.
    apply preserves_bind; [apply preserves_when|]; eauto 20 with preserve.
  - eauto 20 with preserve.
  - unfold focus_change_handler. apply preserves_bind; [eauto with preserve|]. intros _. apply kp_read.
    intros s _. destruct (config_map s !! session); eauto with preserve.
  - unfold no_focus_handler. eauto 20 with preserve.
  - unfold session_stopping_handler. eauto with preserve.
Qed.
End keeps_preview.

Definition preview_consistent (s : Changer) : Prop :=
  fst <$> preview_configuration_timeout s = currently_previewing_session s.

Lemma preview_exec op s : preview_consistent s → preview_consistent (post (changer_exec op s)).
Proof.
  intros Hs. destruct op as [env session conf|env session|session conf timeout|session conf|env session|conf|conf| | |session| |session|env|env];
    try done; cbn [changer_exec].
  - unfold configure, enqueue. run_prog. by case_bool_decide.
  - unfold remove_session_configuration, enqueue. run_prog. repeat case_bool_decide; done.
  - unfold preview_base_configuration, enqueue. run_prog. by destruct (preview_configuration_timeout s).
  - unfold cancel_base_configuration_preview, enqueue. run_prog.
    destruct (preview_configuration_timeout s) as [[? []]|]; try done; by case_bool_decide.
  - unfold process_next. rewrite pbind_get. destruct (queue s) as [|a q]; [done|]. rewrite pbind_put.
    set (s1 := set_queue q s).
    assert (preserves (preview_is (preview_configuration_timeout s1) (currently_previewing_session s1)) (reported (perform env a) a)) as Hp.
    { apply preserves_catch; [apply perform_keeps|]. intros e s' h' Hs'. done. }
    destruct (Hp s1 []) as [H1 H2]; [done|]. unfold preview_consistent. unfold reported in H1, H2. by rewrite H1, H2.
  - unfold preview_timeout_fires. rewrite pbind_get. destruct (preview_configuration_timeout s) as [[c p]|] eqn:Ht; [|done].
    rewrite pbind_put. set (s1 := set_preview _ _ s).
    assert (preserves (preview_is (preview_configuration_timeout s1) (currently_previewing_session s1))
      (back_to_base env c)) as Hp.
    { apply preserves_when. apply preserves_bind; [apply apply_base_keeps|]. intros _ s' h' Hs'. done. }
    destruct (Hp s1 []) as [H1 H2]; [done|]. unfold preview_consistent. rewrite H1, H2.
    unfold preview_consistent in Hs. by rewrite Ht in Hs.
Qed.

Lemma preview_reachable s h : reachable changer_machine s h → preview_consistent s.
Proof.
  revert s h. apply (reachable_invariant changer_machine (λ s _, preview_consistent s)).
  - by intros ? [c ->].
  - intros s h op _ Hs _. by apply preview_exec.
Qed.

(** ** Authorization (src/server/frontend/authorizing_display_changer.cpp)

    The interface of the frontend's display changers, and the adaptor that
    checks a client's two permissions before it passes a call on. *)
Class FrontendDisplayChanger (S O : Type) := {
  dc_configure : Environment → Z → DisplayConfiguration → prog S O unit;
  dc_remove_session_configuration : Environment → Z → prog S O unit;
  dc_set_base_configuration : DisplayConfiguration → prog S O unit;
  dc_preview_base_configuration : Z → DisplayConfiguration → Z → prog S O unit;
  dc_confirm_base_configuration : Z → DisplayConfiguration → prog S O unit;
  dc_cancel_base_configuration_preview : Environment → Z → prog S O unit
}.

#[export] Instance mediating_display_changer : FrontendDisplayChanger Changer changer_obs := {|
  dc_configure := configure;
  dc_remove_session_configuration := remove_session_configuration;
  dc_set_base_configuration := set_base_configuration;
  dc_preview_base_configuration := preview_base_configuration;
  dc_confirm_base_configuration := confirm_base_configuration;
  dc_cancel_base_configuration_preview := cancel_base_configuration_preview
|}.

Section authorizing.
Context {S O : Type} (changer : FrontendDisplayChanger S O).
Context (configure_display_is_allowed set_base_configuration_is_allowed : bool).

Definition if_allowed (allowed : bool) (what : string) (m : prog S O unit) : prog S O unit :=
  if allowed then m else pthrow (runtime_error what).

Definition authorizing_display_changer : FrontendDisplayChanger S O := {|
  dc_configure env session config :=
    if_allowed configure_display_is_allowed "not authorized to apply display configurations"
      (dc_configure env session config);
  dc_remove_session_configuration env session :=
    if_allowed configure_display_is_allowed "not authorized to remove display configurations"
      (dc_remove_session_configuration env session);
  dc_set_base_configuration config :=
    if_allowed set_base_configuration_is_allowed "not authorized to set base display configurations"
      (dc_set_base_configuration config);
  dc_preview_base_configuration session config timeout :=
    if_allowed set_base_configuration_is_allowed "Not authorized to set base display configuration"
      (dc_preview_base_configuration session config timeout);
  dc_confirm_base_configuration session config :=
    if_allowed set_base_configuration_is_allowed "not authorized to set base display configurations"
      (dc_confirm_base_configuration session config);
  dc_cancel_base_configuration_preview env session := dc_cancel_base_configuration_preview env session
|}.
End authorizing.

(** The calls a client makes through its changer. *)
Inductive client_call :=
  | CallConfigure (env : Environment) (conf : DisplayConfiguration)
  | CallRemove (env : Environment)
  | CallSetBase (conf : DisplayConfiguration)
  | CallPreview (conf : DisplayConfiguration) (timeout : Z)
  | CallConfirm (conf : DisplayConfiguration)
  | CallCancel (env : Environment).

Definition client_exec {S O} (D : FrontendDisplayChanger S O) (session : Z) (call : client_call) : prog S O unit :=
  match call with
  | CallConfigure env conf => dc_configure env session conf
  | CallRemove env => dc_remove_session_configuration env session
  | CallSetBase conf => dc_set_base_configuration conf
  | CallPreview conf timeout => dc_preview_base_configuration session conf timeout
  | CallConfirm conf => dc_confirm_base_configuration session conf
  | CallCancel env => dc_cancel_base_configuration_preview env session
  end.

Definition needs_base_permission (call : client_call) : bool :=
  match call with CallSetBase _ | CallPreview _ _ | CallConfirm _ => true | _ => false end.
Definition needs_configure_permission (call : client_call) : bool :=
  match call with CallConfigure _ _ | CallRemove _ => true | _ => false end.

(** The actions that change the base configuration, or show another one in its place. *)
Definition changes_base (a : action) : bool :=
  match a with ASetBase _ | APreview _ _ | AHardwareChange _ => true | _ => false end.

(** For any changer, the adaptor refuses exactly the calls the client has no
    permission for, before the changer sees them. *)
Lemma authorizing_refuses {S O} (D : FrontendDisplayChanger S O) c b session call s :
  (client_exec (authorizing_display_changer D c b) session call s = client_exec D session call s ∧
    (needs_base_permission call = true → b = true) ∧ (needs_configure_permission call = true → c = true)) ∨
  (∃ what, client_exec (authorizing_display_changer D c b) session call s = Run (Throw (runtime_error what)) s [] ∧
    (needs_base_permission call && negb b || needs_configure_permission call && negb c) = true).
Proof. destruct call, c, b; cbn; try (left; done); right; eauto. Qed.


(** The end of an [apply_base_config]: the base configuration is shown, or the
    exception escapes with the display where it was, or lost. *)
Lemma apply_base_ends env s (k : unit → M unit) :
  compositor_running s = true →
  let r := pbind (apply_base_config env) k s in
  let s' := set_applied true (applied_state (base_configuration_ s) s) in
  (value r = value (k tt s') ∧ post r = post (k tt s') ∧ ∃ t, trace r = t ++ trace (k tt s')) ∨
  (∃ e, value r = Throw e ∧ post r = s) ∨
  (∃ e d, value r = Throw e ∧ post r = set_display d s ∧ CatastrophicError (display_config s) ∈ trace r).
Proof.
  intros Hr. cbn zeta. unfold pbind.
  destruct (apply_base_result env s Hr) as [(t & -> & Hb & _)|[(e & t & -> & Hb & _)|(e & d & t & -> & Hb & Hc)]];
    cbn [value post trace]; [left; eauto|right; left; eauto|right; right; eauto].
Qed.

(** Only one preview at a time: while a session's preview is recorded a
    further one is refused, and only that session, alive, can cancel it, which
    queues the return to the base configuration if the alarm had not fired.
    The alarm returns to the base configuration and tells the session, or
    leaves the display where it was, and keeps the preview recorded: the next
    one is refused until the preview is confirmed or cancelled.  Without a
    preview, cancelling is refused, and a new one arms the alarm and queues
    the configuration. *)
Theorem preview_protocol env s h session conf timeout :
  reachable changer_machine s h →
  confirm_base_configuration session conf s = Run (Ret tt) (set_queue (queue s ++ [ASetBase conf]) (set_preview None None s)) [] ∧
  match preview_configuration_timeout s with
  | None =>
      cancel_base_configuration_preview env session s = Run (Throw no_preview_in_progress) s [] ∧
      preview_base_configuration session conf timeout s =
        Run (Ret tt) (set_queue (queue s ++ [APreview session conf]) (set_preview (Some (session, true)) (Some session) s))
          [RescheduleAlarm timeout]
  | Some (owner, pending) =>
      preview_base_configuration session conf timeout s = Run (Throw preview_in_progress) s [] ∧
      cancel_base_configuration_preview env session s =
        (if bool_decide (session = owner) && session_alive env owner
         then Run (Ret tt) (set_queue (queue s ++ if pending then [ACancelPreview session] else []) (set_preview None None s)) []
         else Run (Throw no_preview_in_progress) s []) ∧
      (let r := preview_timeout_fires env s in
       preview_configuration_timeout (post r) = Some (owner, false) ∧
       (session_alive env owner = true →
         (value r = Ret tt ∧ display_config (post r) = base_configuration_ s ∧
          base_configuration_applied (post r) = true ∧
          last (trace r) = Some (SendDisplayConfig owner (base_configuration_ s))) ∨
         (∃ e, value r = Throw e) ∧
         (display_config (post r) = display_config s ∨ CatastrophicError (display_config s) ∈ trace r)))
  end.
Proof.
  intros Hr. pose proof (preview_reachable _ _ Hr) as Hp. destruct (changer_reachable _ _ Hr) as [Hrun _ _ _].
  split; [done|]. unfold preview_consistent in Hp.
  unfold cancel_base_configuration_preview, preview_base_configuration, preview_timeout_fires. rewrite !pbind_get.
  destruct (preview_configuration_timeout s) as [[owner pending]|]; [|done].
  cbn in Hp. split; [done|]. split.
  - rewrite <- Hp. unfold lock. destruct (session_alive env owner); [|by rewrite andb_false_r].
    rewrite andb_true_r. destruct (decide (session = owner)) as [->|Hne].
    + rewrite !bool_decide_true by done. destruct pending; [done|]. cbn. by rewrite app_nil_r.
    + rewrite !bool_decide_false by congruence. done.
  - cbn zeta. rewrite pbind_put. set (s1 := set_preview _ _ s). unfold back_to_base, when_alive, pwhen.
    destruct (session_alive env owner); [|done].
    destruct (apply_base_ends env s1 (λ _, let* s := pget in pemit (SendDisplayConfig owner (base_configuration_ s))) Hrun)
      as [(-> & -> & t & ->)|[(e & -> & ->)|(e & d & -> & -> & Hc)]]; (split; [done|]); intros _.
    + left. split; [done|]. split; [done|]. split; [done|]. cbn. by rewrite last_snoc.
    + right. split; [by eexists|by left].
    + right. split; [by eexists|by right].
Qed.

(** When a session gets the focus its own configuration is applied, or, when
    the display refuses it, the display stays where it was (unless it is lost)
    and the session is told; a session without one gets the base configuration,
    and nothing is done when that is what the display shows. *)
Theorem focus_applies_configuration env s h session :
  reachable changer_machine s h →
  let r := focus_change_handler env session s in
  focused_session (post r) = Some session ∧
  match config_map s !! session with
  | Some conf =>
      value r = Ret tt ∧
      (display_config (post r) = conf ∧ base_configuration_applied (post r) = false ∧
        Forall (λ o, tells_client o = false) (trace r) ∨
       last (trace r) = Some (SendError session ConfigurationFailedError) ∧
        base_configuration_applied (post r) = base_configuration_applied s ∧
        (display_config (post r) = display_config s ∨ CatastrophicError (display_config s) ∈ trace r))
  | None =>
      if base_configuration_applied s then r = Run (Ret tt) (set_focused (Some session) s) []
      else
        value r = Ret tt ∧ display_config (post r) = base_configuration_ s ∧ base_configuration_applied (post r) = true ∨
        (∃ e, value r = Throw e) ∧ base_configuration_applied (post r) = false ∧
        (display_config (post r) = display_config s ∨ CatastrophicError (display_config s) ∈ trace r)
  end.
Proof.
  intros Hr. destruct (changer_reachable _ _ Hr) as [Hrun _ _ _]. cbn zeta.
  unfold focus_change_handler. rewrite pbind_modify, pbind_get. set (s1 := set_focused _ s).
  change (config_map s1) with (config_map s). change (base_configuration_applied s1) with (base_configuration_applied s).
  destruct (config_map s !! session) as [conf|].
  - unfold pcatch. destruct (apply_config_cases env conf s1 Hrun) as [t Hb Hn Hq|e t Hb Hn|e d t Hb Hc]; cbn;
      (split; [done|]; split; [done|]).
    + left. by split_and!.
    + right. rewrite last_snoc. split_and!; [done..|by left].
    + right. rewrite last_snoc. split_and!; [done..|]. right. apply elem_of_app. by left.
  - unfold pwhen. destruct (base_configuration_applied s) eqn:Ha; [done|]. cbn [negb].
    destruct (apply_base_result env s1 Hrun)
      as [(t & -> & Hb & _)|[(e & t & -> & Hb & _)|(e & d & t & -> & Hb & Hc)]]; cbn; (split; [done|]).
    + by left.
    + right. split; [by eexists|]. auto.
    + right. split; [by eexists|]. auto.
Qed.

(** A client's calls reach the display changer only with the permission they
    need.  A client that may not modify the base configuration queues nothing
    that changes or replaces it, and one with no permission changes nothing but
    a preview of its own. *)
Theorem authorization_enforced configure_allowed base_allowed session call s :
  let r := client_exec (authorizing_display_changer mediating_display_changer configure_allowed base_allowed) session call s in
  (∃ new, queue (post r) = queue s ++ new ∧ (base_allowed = false → Forall (λ a, changes_base a = false) new)) ∧
  base_configuration_ (post r) = base_configuration_ s ∧ display_config (post r) = display_config s ∧
  (configure_allowed = false → config_map (post r) = config_map s) ∧
  (base_allowed = false → currently_previewing_session s ≠ Some session →
    preview_configuration_timeout (post r) = preview_configuration_timeout s ∧
    (configure_allowed = false → post r = s)) ∧
  (configure_allowed = true → base_allowed = true → r = client_exec mediating_display_changer session call s).
Proof.
  cbn zeta.
  assert (∃ new, queue s = queue s ++ new ∧ (base_allowed = false → Forall (λ a, changes_base a = false) new)) as Hnil
    by (exists []; rewrite app_nil_r; auto).
  destruct (authorizing_refuses mediating_display_changer configure_allowed base_allowed session call s)
    as [(-> & Hb & Hc)|(what & -> & Hw)].
  2: { cbn. repeat split; auto. intros -> ->. destruct (needs_base_permission call), (needs_configure_permission call); done. }
  assert (∀ a, changes_base a = false →
    ∃ new, queue s ++ [a] = queue s ++ new ∧ (base_allowed = false → Forall (λ a, changes_base a = false) new)) as Hone
    by eauto.
  assert (∀ a, base_allowed = true →
    ∃ new, queue s ++ [a] = queue s ++ new ∧ (base_allowed = false → Forall (λ a, changes_base a = false) new)) as Hany
    by (intros a ->; by exists [a]).
  destruct call as [env conf|env|conf|conf timeout|conf|env]; cbn in Hb, Hc;
    try (pose proof (Hb eq_refl) as Hb'); try (pose proof (Hc eq_refl) as Hc');
    cbn [client_exec dc_configure dc_remove_session_configuration dc_set_base_configuration dc_preview_base_configuration
      dc_confirm_base_configuration dc_cancel_base_configuration_preview mediating_display_changer].
  - unfold configure, enqueue. run_prog. case_bool_decide; cbn; split_and!; auto; intros; try split_and!; intros; auto; congruence.
  - unfold remove_session_configuration, enqueue. run_prog. repeat case_bool_decide; cbn; split_and!; auto; intros; try split_and!; intros; auto; congruence.
  - cbn. split_and!; auto; intros; try split_and!; intros; auto; congruence.
  - unfold preview_base_configuration, enqueue. run_prog.
    destruct (preview_configuration_timeout s) eqn:Hp; cbn; split_and!; auto; intros; try split_and!; intros; auto; congruence.
  - cbn. split_and!; auto; intros; try split_and!; intros; auto; congruence.
  - unfold cancel_base_configuration_preview, enqueue. run_prog.
    destruct (preview_configuration_timeout s) as [[owner pending]|] eqn:Hp; cbn; [|cbn; split_and!; auto; intros; try split_and!; auto; congruence].
    case_bool_decide as Hl; [|cbn; split_and!; auto; intros; try split_and!; auto; congruence].
    assert (currently_previewing_session s = Some session) as Hs.
    { unfold lock in Hl. destruct (currently_previewing_session s); [|done]. by destruct (session_alive env z). }
    destruct pending; cbn; split_and!; auto; intros; try split_and!; intros; auto; congruence.
Qed.

(** *** Examples *)
Definition example_output (n x : Z) (on : bool) : DisplayConfigurationOutput :=
  mkOutput n [xrgb_8888] [mkMode (Sz 1024 768) 60] 0 true on (Pt x 0) 0 xrgb_8888
    (if on then power_on else power_off) orientation_normal.
Definition one_output : DisplayConfiguration := [example_output 1 0 true; example_output 2 1024 false].
Definition two_outputs : DisplayConfiguration := [example_output 1 0 true; example_output 2 1024 true].
Definition swapped_outputs : DisplayConfiguration := [example_output 1 1024 true; example_output 2 0 true].

(** A display that cannot show the outputs swapped. *)
Definition example_env : Environment :=
  mkEnv (λ _ _, false)
    (λ _ c, if bool_decide (c = swapped_outputs) then Some (runtime_error "no CRTC") else None)
    (λ old _, old) (λ c, c) (λ session, bool_decide (session ≤ 2)) [1; 2].

Definition changer_example_ops : list changer_op :=
  [Configure example_env 1 two_outputs; FocusChanged 1; ProcessNext example_env;
   Configure example_env 2 swapped_outputs; FocusChanged 2; ProcessNext example_env;
   SessionStopping 2; ProcessNext example_env; FocusLost; ProcessNext example_env;
   SetBaseConfiguration two_outputs; ProcessNext example_env;
   PreviewBaseConfiguration 1 one_output 30; ProcessNext example_env;
   PreviewBaseConfiguration 2 one_output 30; PreviewTimeoutFires example_env;
   PreviewBaseConfiguration 2 one_output 30; Configure example_env 2 one_output].
Definition changer_example_run : Changer * list changer_obs :=
  default (new_changer one_output, []) (run_ops changer_machine changer_example_ops (new_changer one_output) []).

Lemma changer_example_reachable : reachable changer_machine changer_example_run.1 changer_example_run.2.
Proof.
  apply (run_ops_from_init changer_machine changer_example_ops (new_changer one_output)); [by exists one_output|].
  by vm_compute.
Qed.


Lemma preview_protocol_witness :
  preview_configuration_timeout changer_example_run.1 = Some (1, false) ∧
  preview_base_configuration 2 two_outputs 30 changer_example_run.1 =
    Run (Throw preview_in_progress) changer_example_run.1 [].
Proof.
  split; [by vm_compute|].
  pose proof (preview_protocol example_env _ _ 2 two_outputs 30 changer_example_reachable) as [_ Hp].
  replace (preview_configuration_timeout changer_example_run.1) with (Some (1, false)) in Hp by by vm_compute.
  exact (proj1 Hp).
Defined.

Lemma focus_applies_configuration_witness :
  config_map changer_example_run.1 !! 2 = Some one_output ∧
  value (focus_change_handler example_env 2 changer_example_run.1) = Ret tt.
Proof.
  split; [by vm_compute|].
  pose proof (focus_applies_configuration example_env _ _ 2 changer_example_reachable) as [_ Hf].
  replace (config_map changer_example_run.1 !! 2) with (Some one_output) in Hf by by vm_compute.
  exact (proj1 Hf).
Defined.
