(* ===== verification/Occlusion.v ===== *)
(** Occlusion filtering (src/server/compositor/occlusion.cpp): before a frame is
    drawn, scene elements hidden behind opaque ones are split off.  The main
    theorem says that dropping them does not change what can be seen at any
    point of the area. *)

From S2P Require Import Prelude Geometry Float32.

Module Occlusion.
Section occlusion.
(** GLM's matrices are a third-party type; the code only compares a
    renderable's transformation with the identity. *)
Context {mat4 : Type} (mat4_eqb : mat4 → mat4 → bool) (identity : mat4).

(** What [renderable_is_occluded] asks a [Renderable]. *)
Record Renderable := mkRenderable {
  transformation : mat4;
  screen_position : Rectangle;
  alpha : float32;
  shaped : bool
}.

(** A [SceneElement] carries a renderable and a name to tell it apart. *)
Record SceneElement := mkElement { element_id : Z; renderable : Renderable }.

(** The boolean result and the updated [coverage]. *)
Definition renderable_is_occluded (r : Renderable) (area : Rectangle) (coverage : list Rectangle)
    : bool * list Rectangle :=
  if negb (mat4_eqb (transformation r) identity) then (false, coverage)
  else
    let window := screen_position r in
    let clipped_window := intersection_with window area in
    if bool_decide (clipped_window = rectangle0) then (true, coverage)
    else
      let occluded := existsb (λ c, contains_rect c clipped_window) coverage in
      let coverage :=
        if negb occluded && f32_eqb (alpha r) f32_one && negb (shaped r)
        then coverage ++ [clipped_window] else coverage in
      (occluded, coverage).

(** The loop over [elements.rbegin() .. rend()]: [rest] are the elements not
    yet visited, topmost first; [kept] and [occluded] are in stacking order. *)
Fixpoint filter_loop (area : Rectangle) (rest : list SceneElement) (coverage : list Rectangle)
    (kept occluded : list SceneElement) : list SceneElement * list SceneElement :=
  match rest with
  | [] => (kept, occluded)
  | e :: rest' =>
      let '(hidden, coverage') := renderable_is_occluded (renderable e) area coverage in
      if hidden
      then filter_loop area rest' coverage' kept (e :: occluded)
      else filter_loop area rest' coverage' (e :: kept) occluded
  end.

(** [filter_occlusions_from]: the elements left in the sequence, and the
    occluded ones it returns. *)
Definition filter_occlusions_from (elements : list SceneElement) (area : Rectangle)
    : list SceneElement * list SceneElement :=
  filter_loop area (rev elements) [] [] [].

(** ** What is seen at a point

    An element may paint a point inside its screen position, and anywhere if
    it is transformed; an untransformed, unshaped element of alpha 1 hides
    everything below it.  [seen_at p l] lists, from the top, the elements of
    [l] (topmost first) that contribute to [p]. *)
Definition may_paint (p : Point) (e : SceneElement) : bool :=
  negb (mat4_eqb (transformation (renderable e)) identity) ||
  bool_decide (covers (screen_position (renderable e)) p).

Definition opaque_at (p : Point) (e : SceneElement) : bool :=
  mat4_eqb (transformation (renderable e)) identity &&
  bool_decide (covers (screen_position (renderable e)) p) &&
  f32_eqb (alpha (renderable e)) f32_one && negb (shaped (renderable e)).

Fixpoint seen_from_top (p : Point) (l : list SceneElement) : list SceneElement :=
  match l with
  | [] => []
  | e :: l' =>
      if opaque_at p e then [e]
      else if may_paint p e then e :: seen_from_top p l'
      else seen_from_top p l'
  end.
Definition seen_at (p : Point) (elements : list SceneElement) : list SceneElement :=
  seen_from_top p (rev elements).

(** ** Proofs *)
Implicit Types (e : SceneElement) (area c : Rectangle) (p : Point).

Definition element_ok e : Prop := rect_ok (screen_position (renderable e)).

(** The elements the loop keeps, topmost first. *)
Fixpoint scan_kept area (rest : list SceneElement) coverage : list SceneElement :=
  match rest with
  | [] => []
  | e :: rest' =>
      let '(hidden, coverage') := renderable_is_occluded (renderable e) area coverage in
      if hidden then scan_kept area rest' coverage' else e :: scan_kept area rest' coverage'
  end.
Fixpoint scan_occluded area (rest : list SceneElement) coverage : list SceneElement :=
  match rest with
  | [] => []
  | e :: rest' =>
      let '(hidden, coverage') := renderable_is_occluded (renderable e) area coverage in
      if hidden then e :: scan_occluded area rest' coverage' else scan_occluded area rest' coverage'
  end.

Lemma filter_loop_scan area rest coverage kept occluded :
  filter_loop area rest coverage kept occluded =
    (rev (scan_kept area rest coverage) ++ kept, rev (scan_occluded area rest coverage) ++ occluded).
Proof.
  revert coverage kept occluded.
  induction rest as [|e rest IH]; intros coverage kept occluded; cbn; [done|].
  destruct (renderable_is_occluded _ _ _) as [[] coverage']; rewrite IH; cbn [rev];
    by rewrite <- app_assoc.
Qed.

Lemma scan_partition area rest coverage :
  scan_kept area rest coverage ++ scan_occluded area rest coverage ≡ₚ rest ∧
  sublist (scan_kept area rest coverage) rest ∧ sublist (scan_occluded area rest coverage) rest.
Proof.
  revert coverage. induction rest as [|e rest IH]; intros coverage; cbn; [done|].
  destruct (renderable_is_occluded _ _ _) as [[] coverage'];
    destruct (IH coverage') as (Hp & Hk & Ho); split_and!; try (by constructor).
  by rewrite <- Permutation_middle, Hp.
Qed.

Definition blocked p (coverage : list Rectangle) : Prop := ∃ c, c ∈ coverage ∧ covers c p.

(** One element: what the decision says about [p], and what it adds to the
    coverage. *)
Lemma occluded_sound e area coverage p :
  element_ok e → rect_ok area → covers area p → Forall rect_ok coverage → ¬ blocked p coverage →
  let '(hidden, coverage') := renderable_is_occluded (renderable e) area coverage in
  Forall rect_ok coverage' ∧
  (hidden = true → may_paint p e = false ∧ opaque_at p e = false ∧ coverage' = coverage) ∧
  (hidden = false → opaque_at p e = false → ¬ blocked p coverage').
Proof.
  intros He Ha Hp Hcov Hnb. unfold renderable_is_occluded, opaque_at, may_paint.
  destruct (mat4_eqb _ _) eqn:Hid; cbn [negb]; [|done].
  destruct (intersection_exact _ _ He Ha) as [Hok Hint].
  case_bool_decide as Hempty.
  { split; [done|]. split; [|done]. intros _.
    assert (¬ covers (screen_position (renderable e)) p) as Hn.
    { intros Hc. assert (covers rectangle0 p) as H0 by (rewrite <- Hempty; by apply Hint).
      unfold_coords; cbn in *; lia. }
    by rewrite bool_decide_false. }
  destruct (existsb _ coverage) eqn:Hex; cbn [negb andb].
  { split; [done|]. split; [|done]. intros _.
    apply existsb_exists in Hex as (c & Hin%list_elem_of_In & Hc).
    assert (¬ covers (screen_position (renderable e)) p) as Hn.
    { intros Hcp. apply Hnb. exists c. split; [done|].
      eapply contains_rect_covers; [by eapply Forall_forall|exact Hok|done|by apply Hint]. }
    by rewrite bool_decide_false. }
  destruct (f32_eqb _ _ && negb _) eqn:Hop.
  - split; [by apply Forall_app; split; [|apply Forall_singleton]|]. split; [done|].
    intros _ Hnop (c & [Hin| ->%list_elem_of_singleton]%elem_of_app & Hc); [apply Hnb; by exists c|].
    apply Hint in Hc as [Hc _].
    rewrite <- andb_assoc, Hop, bool_decide_true in Hnop by done. done.
  - split; [done|]. split; [done|]. by intros _ _.
Qed.

Lemma scan_seen area rest coverage p :
  Forall element_ok rest → rect_ok area → covers area p → Forall rect_ok coverage →
  ¬ blocked p coverage →
  seen_from_top p (scan_kept area rest coverage) = seen_from_top p rest.
Proof.
  intros Hok Ha Hp. revert coverage.
  induction Hok as [|e rest He Hok IH]; intros coverage Hcov Hnb; [done|]. cbn [scan_kept].
  pose proof (occluded_sound e area coverage p He Ha Hp Hcov Hnb) as Hs.
  destruct (renderable_is_occluded _ _ _) as [hidden coverage'].
  destruct Hs as (Hcov' & Hh & Hv). destruct hidden; cbn [seen_from_top].
  - destruct Hh as (-> & -> & ->); [done|]. by apply IH.
  - destruct (opaque_at p e) eqn:Hop; [done|]. rewrite IH; auto.
Qed.
End occlusion.
Arguments Renderable : clear implicits.
Arguments SceneElement : clear implicits.
End Occlusion.
Import Occlusion.

(** ** Properties *)

(** C40. Dropping the elements [filter_occlusions_from] reports as occluded leaves
    the list of elements that contribute to any point of the area, from the top
    down to the first opaque one, unchanged. *)
Theorem filter_occlusions_preserves_seen {mat4} (eqb : mat4 → mat4 → bool) (identity : mat4)
    elements area p :
  Forall element_ok elements → rect_ok area → covers area p →
  seen_at eqb identity p (filter_occlusions_from eqb identity elements area).1 =
  seen_at eqb identity p elements.
Proof.
  intros Hok Ha Hp. unfold filter_occlusions_from, seen_at. rewrite filter_loop_scan.
  cbn [fst]. rewrite app_nil_r, rev_involutive. apply scan_seen; [|done..|].
  - by apply Forall_rev.
  - intros (c & Hin & _). by apply elem_of_nil in Hin.
Qed.

Definition occlusion_example : list (SceneElement bool) :=
  [mkElement 1 (mkRenderable true (Rect (Pt 2 2) (Sz 4 4)) f32_one false);
   mkElement 2 (mkRenderable true (Rect (Pt 0 0) (Sz 9 9)) f32_one false);
   mkElement 3 (mkRenderable true (Rect (Pt 3 3) (Sz 2 2)) f32_one true)].

Lemma filter_occlusions_preserves_seen_witness :
  element_id <$> (filter_occlusions_from eqb true occlusion_example (Rect (Pt 0 0) (Sz 20 20))).2 = [1] ∧
  seen_at eqb true (Pt 4 4) (filter_occlusions_from eqb true occlusion_example (Rect (Pt 0 0) (Sz 20 20))).1 =
  seen_at eqb true (Pt 4 4) occlusion_example.
Proof.
  split; [vm_compute; reflexivity|].
  apply filter_occlusions_preserves_seen.
  - repeat constructor; cbn; unfold coord_bound; lia.
  - apply (bool_decide_unpack (rect_ok _)). vm_compute. exact I.
  - apply (bool_decide_unpack (covers _ _)). vm_compute. exact I.
Defined.

(** The kept and the occluded elements partition the scene, and both keep
    its stacking order. *)
Theorem filter_occlusions_partition {mat4} (eqb : mat4 → mat4 → bool) (identity : mat4) elements area :
  let '(kept, occluded) := filter_occlusions_from eqb identity elements area in
  kept ++ occluded ≡ₚ elements ∧ sublist kept elements ∧ sublist occluded elements.
Proof.
  unfold filter_occlusions_from. rewrite filter_loop_scan, !app_nil_r.
  destruct (scan_partition eqb identity area (rev elements) []) as (Hp & Hk & Ho).
  split_and!.
  - etrans; [symmetry; apply Permutation_app; apply Permutation_rev|].
    rewrite Hp. symmetry. apply Permutation_rev.
  - apply sublist_rev in Hk. by rewrite rev_involutive in Hk.
  - apply sublist_rev in Ho. by rewrite rev_involutive in Ho.
Qed.
