(* ===== verification/Schedule.v ===== *)
(** Buffer schedules (src/server/compositor/queueing_schedule.cpp and
    dropping_schedule.cpp) and the interface the arbiter and the stream use
    them through. *)

From S2P Require Import Prelude Geometry.

(** ** Buffers

    A [graphics::Buffer] is known by its id, which [BufferBasic] draws from a
    counter: two shared pointers are equal when the ids are.  [pixel_format] is
    the value of the [MirPixelFormat] enumeration. *)
Record Buffer := mkBuffer { buffer_id : Z; buffer_size : Size; pixel_format : Z }.

#[export] Instance Buffer_eq_dec : EqDecision Buffer.
Proof. solve_decision. Defined.

(** ** The [Schedule] interface

    [schedule b s] returns the new schedule and the ids handed back through
    [ClientBuffers::send_buffer] on the way. *)
Class Schedule (S : Type) := {
  schedule_buffer : Buffer → S → S * list Z;
  num_scheduled : S → Z;
  next_buffer : S → outcome Buffer * S
}.

(** What every schedule promises: it is a queue of buffers [contents], a new
    buffer goes last and may push out the oldest ones, each of which is sent
    back, and [next_buffer] takes the oldest. *)
Class ScheduleLaws (S : Type) `{Schedule S} := {
  contents : S → list Buffer;
  num_scheduled_contents s : num_scheduled s = Z.of_nat (length (contents s));
  next_buffer_contents s :
    match contents s with
    | [] => next_buffer s = (Throw (logic_error "no buffer scheduled"), s)
    | b :: rest => ∃ s', next_buffer s = (Ret b, s') ∧ contents s' = rest
    end;
  schedule_buffer_contents b s :
    b ∉ contents s →
    ∃ dropped kept, contents s = dropped ++ kept ∧
      contents (schedule_buffer b s).1 = kept ++ [b] ∧
      (schedule_buffer b s).2 = buffer_id <$> dropped
}.

(** ** QueueingSchedule *)
Record QueueingSchedule := mkQueueing { queue : list Buffer }.

Definition queueing_schedule (buffer : Buffer) (s : QueueingSchedule) : QueueingSchedule * list Z :=
  let q := if bool_decide (buffer ∈ queue s) then erase_first buffer (queue s) else queue s in
  (mkQueueing (q ++ [buffer]), []).

Definition queueing_num_scheduled (s : QueueingSchedule) : Z := Z.of_nat (length (queue s)).

Definition queueing_next_buffer (s : QueueingSchedule) : outcome Buffer * QueueingSchedule :=
  match queue s with
  | [] => (Throw (logic_error "no buffer scheduled"), s)
  | buffer :: q => (Ret buffer, mkQueueing q)
  end.

#[export] Instance queueing_Schedule : Schedule QueueingSchedule := {
  schedule_buffer := queueing_schedule;
  num_scheduled := queueing_num_scheduled;
  next_buffer := queueing_next_buffer
}.

(** ** DroppingSchedule *)
Record DroppingSchedule := mkDropping { the_only_buffer : option Buffer }.

Definition dropping_schedule (buffer : Buffer) (s : DroppingSchedule) : DroppingSchedule * list Z :=
  let sent :=
    match the_only_buffer s with
    | Some old => if decide (old = buffer) then [] else [buffer_id old]
    | None => []
    end in
  (mkDropping (Some buffer), sent).

Definition dropping_num_scheduled (s : DroppingSchedule) : Z :=
  match the_only_buffer s with Some _ => 1 | None => 0 end.

Definition dropping_next_buffer (s : DroppingSchedule) : outcome Buffer * DroppingSchedule :=
  match the_only_buffer s with
  | None => (Throw (logic_error "no buffer scheduled"), s)
  | Some buffer => (Ret buffer, mkDropping None)
  end.

#[export] Instance dropping_Schedule : Schedule DroppingSchedule := {
  schedule_buffer := dropping_schedule;
  num_scheduled := dropping_num_scheduled;
  next_buffer := dropping_next_buffer
}.

(** ** Both implementations keep the promises *)
#[export] Instance queueing_ScheduleLaws : ScheduleLaws QueueingSchedule.
Proof.
  refine {| contents := queue |}.
  - done.
  - intros [[|b q]]; cbn; [done|]. by exists (mkQueueing q).
  - intros b [q] Hb; cbn in *. unfold queueing_schedule; cbn.
    rewrite bool_decide_false by done. by exists [], q.
Defined.

#[export] Instance dropping_ScheduleLaws : ScheduleLaws DroppingSchedule.
Proof.
  refine {| contents s := option_list (the_only_buffer s) |}.
  - by intros [[]].
  - intros [[b|]]; cbn; [|done]. by exists (mkDropping None).
  - intros b [[old|]] Hb; cbn in *.
    + exists [old], []. unfold dropping_schedule; cbn.
      rewrite decide_False by set_solver. done.
    + by exists [], [].
Defined.

(** ** A schedule of either kind, as [std::shared_ptr<Schedule>] holds it *)
Inductive AnySchedule :=
  | Queueing (s : QueueingSchedule)
  | Dropping (s : DroppingSchedule).

#[export] Instance any_Schedule : Schedule AnySchedule := {
  schedule_buffer b s :=
    match s with
    | Queueing q => let '(q', sent) := schedule_buffer b q in (Queueing q', sent)
    | Dropping d => let '(d', sent) := schedule_buffer b d in (Dropping d', sent)
    end;
  num_scheduled s := match s with Queueing q => num_scheduled q | Dropping d => num_scheduled d end;
  next_buffer s :=
    match s with
    | Queueing q => let '(b, q') := next_buffer q in (b, Queueing q')
    | Dropping d => let '(b, d') := next_buffer d in (b, Dropping d')
    end
}.

#[export] Instance any_ScheduleLaws : ScheduleLaws AnySchedule.
Proof.
  refine {| contents s := match s with Queueing q => contents q | Dropping d => contents d end |}.
  - intros [q|d]; [exact (num_scheduled_contents q)|exact (num_scheduled_contents d)].
  - intros [q|d]; cbn [next_buffer any_Schedule].
    + pose proof (next_buffer_contents q) as H. destruct (contents q); [by rewrite H|].
      destruct H as (q' & -> & Hq). by exists (Queueing q').
    + pose proof (next_buffer_contents d) as H. destruct (contents d); [by rewrite H|].
      destruct H as (d' & -> & Hd). by exists (Dropping d').
  - intros b [q|d] Hb; cbn [schedule_buffer any_Schedule].
    + pose proof (schedule_buffer_contents b q Hb) as (l & k & ? & ? & ?).
      destruct (schedule_buffer b q). by exists l, k.
    + pose proof (schedule_buffer_contents b d Hb) as (l & k & ? & ? & ?).
      destruct (schedule_buffer b d). by exists l, k.
Defined.
