(* ===== verification/Arbiter.v ===== *)
(** The multi-monitor arbiter (src/server/compositor/multi_monitor_arbiter.cpp):
    it hands the buffers of a schedule to any number of compositors and
    snapshotters, counts their users and gives a buffer back to the client once
    nobody needs it.  It is verified against the [Schedule] interface alone. *)

From S2P Require Import Prelude Geometry Schedule.

(** ** Data *)
Inductive MultiMonitorMode := multi_monitor_sync | single_monitor_fast.
#[export] Instance MultiMonitorMode_eq_dec : EqDecision MultiMonitorMode.
Proof. solve_decision. Defined.

Record ScheduleEntry := mkEntry { entry_buffer : Buffer; use_count : Z }.
Definition entry_id (e : ScheduleEntry) : Z := buffer_id (entry_buffer e).

(** [CompositorID]s are addresses.  The schedule is the object the arbiter
    shares with its stream. *)
Record Arbiter (S : Type) := mkArbiter {
  mode : MultiMonitorMode;
  onscreen_buffers : list ScheduleEntry;
  current_buffer_users : gset Z;
  schedule : S
}.
Arguments mkArbiter {S} mode onscreen_buffers current_buffer_users schedule.
Arguments mode {S} a.
Arguments onscreen_buffers {S} a.
Arguments current_buffer_users {S} a.
Arguments schedule {S} a.

(** A call of [ClientBuffers::send_buffer]. *)
Inductive client_call := SendBuffer (id : Z).
#[export] Instance client_call_eq_dec : EqDecision client_call.
Proof. solve_decision. Defined.

Section arbiter.
Context {S : Type} `{Schedule S}.

Abbreviation M := (prog (Arbiter S) client_call).

Definition set_onscreen (l : list ScheduleEntry) (a : Arbiter S) : Arbiter S :=
  mkArbiter (mode a) l (current_buffer_users a) (schedule a).
Definition set_users (u : gset Z) (a : Arbiter S) : Arbiter S :=
  mkArbiter (mode a) (onscreen_buffers a) u (schedule a).

(** [onscreen_buffers.emplace_front(schedule->next_buffer(), 0)] *)
Definition push_next_buffer : M unit :=
  let* a := pget in
  let '(b, s') := next_buffer (schedule a) in
  match b with
  | Ret b => pput (mkArbiter (mode a) (mkEntry b 0 :: onscreen_buffers a) (current_buffer_users a) s')
  | Throw e => pthrow e
  end.

(** The loop of [clean_onscreen_buffers]; [at_begin] says whether the iterator
    is at the current front of the deque. *)
Fixpoint clean_loop (scheduled : Z) (at_begin : bool) (l : list ScheduleEntry)
    : list ScheduleEntry * list Z :=
  match l with
  | [] => ([], [])
  | e :: l' =>
      if bool_decide (use_count e = 0) && (negb at_begin || bool_decide (scheduled ≠ 0))
      then let '(kept, sent) := clean_loop scheduled at_begin l' in (kept, entry_id e :: sent)
      else let '(kept, sent) := clean_loop scheduled false l' in (e :: kept, sent)
  end.

Definition clean_onscreen_buffers : M unit :=
  let* a := pget in
  let '(kept, sent) := clean_loop (num_scheduled (schedule a)) true (onscreen_buffers a) in
  do* pfor sent (λ id, pemit (SendBuffer id)) in
  pput (set_onscreen kept a).

(** [last_entry.use_count++] on the front of the deque. *)
Definition use_front : M Buffer :=
  let* a := pget in
  match onscreen_buffers a with
  | [] => pthrow (undefined_behaviour "front of an empty deque")
  | e :: l =>
      do* pput (set_onscreen (mkEntry (entry_buffer e) (uint32 (use_count e + 1)) :: l) a) in
      pret (entry_buffer e)
  end.

Definition compositor_acquire (id : Z) : M Buffer :=
  let* a := pget in
  if bool_decide (onscreen_buffers a = []) && bool_decide (num_scheduled (schedule a) = 0)
  then pthrow (logic_error "no buffer to give to compositor")
  else
    do* pwhen (bool_decide (id ∈ current_buffer_users a) || bool_decide (onscreen_buffers a = []))
      (do* pwhen (bool_decide (num_scheduled (schedule a) ≠ 0)) push_next_buffer in
       pmodify (set_users ∅)) in
    do* pmodify (λ a, set_users ({[id]} ∪ current_buffer_users a) a) in
    let* last_entry_buffer := use_front in
    do* pwhen (bool_decide (mode a = multi_monitor_sync)) clean_onscreen_buffers in
    pret last_entry_buffer.

(** [find_if] for the entry, then [it->use_count--]. *)
Fixpoint decrease_entry (id : Z) (l : list ScheduleEntry) : option (list ScheduleEntry) :=
  match l with
  | [] => None
  | e :: l' =>
      if bool_decide (entry_id e = id)
      then Some (mkEntry (entry_buffer e) (uint32 (use_count e - 1)) :: l')
      else cons e <$> decrease_entry id l'
  end.

Definition decrease_refcount_for (id : Z) : M unit :=
  let* a := pget in
  match decrease_entry id (onscreen_buffers a) with
  | None => pthrow (logic_error "buffer not scheduled")
  | Some l => pput (set_onscreen l a)
  end.

Definition compositor_release (buffer : Buffer) : M unit :=
  do* decrease_refcount_for (buffer_id buffer) in
  let* a := pget in
  match onscreen_buffers a with
  | [] => pthrow (undefined_behaviour "begin of an empty deque")
  | e :: _ =>
      pwhen (bool_decide (mode a = single_monitor_fast) || bool_decide (entry_buffer e ≠ buffer))
        clean_onscreen_buffers
  end.

Definition snapshot_acquire : M Buffer :=
  let* a := pget in
  if bool_decide (onscreen_buffers a = []) && bool_decide (num_scheduled (schedule a) = 0)
  then pthrow (logic_error "no buffer to give to snapshotter")
  else
    do* pwhen (bool_decide (onscreen_buffers a = []))
      (pwhen (bool_decide (num_scheduled (schedule a) ≠ 0)) push_next_buffer) in
    use_front.

Definition snapshot_release (buffer : Buffer) : M unit :=
  do* decrease_refcount_for (buffer_id buffer) in
  clean_onscreen_buffers.

Definition set_schedule (new_schedule : S) : M unit :=
  pmodify (λ a, mkArbiter (mode a) (onscreen_buffers a) (current_buffer_users a) new_schedule).

Definition set_mode (new_mode : MultiMonitorMode) : M unit :=
  pmodify (λ a, mkArbiter new_mode (onscreen_buffers a) (current_buffer_users a) (schedule a)).

Definition buffer_ready_for (id : Z) (a : Arbiter S) : bool :=
  bool_decide (num_scheduled (schedule a) ≠ 0) ||
  (bool_decide (id ∉ current_buffer_users a) && negb (bool_decide (onscreen_buffers a = []))).

Definition has_buffer (a : Arbiter S) : bool := negb (bool_decide (onscreen_buffers a = [])).

Definition advance_schedule : M unit :=
  let* a := pget in
  pwhen (bool_decide (num_scheduled (schedule a) ≠ 0))
    (do* push_next_buffer in pmodify (set_users ∅)).

(** [~MultiMonitorArbiter]: unused buffers go back to the client. *)
Definition destroy_arbiter : M unit :=
  let* a := pget in
  pfor (onscreen_buffers a) (λ it, pwhen (bool_decide (use_count it = 0)) (pemit (SendBuffer (entry_id it)))).
End arbiter.

(** ** What the arbiter keeps true

    [users b] is the number of acquisitions of [b] not yet released.  The
    invariant ties the reference counts to it and says that a buffer in use is
    on screen, and that a buffer is held only once. *)
Section invariant.
Context {S : Type} `{ScheduleLaws S}.
Implicit Types (a : Arbiter S) (users : Buffer → Z) (l : list ScheduleEntry).

Definition held a : list Z :=
  (entry_id <$> onscreen_buffers a) ++ (buffer_id <$> contents (schedule a)).

Record arbiter_inv a users : Prop := {
  inv_nodup : NoDup (held a);
  inv_count e : e ∈ onscreen_buffers a → use_count e = users (entry_buffer e);
  inv_onscreen b : users b ≠ 0 → b ∈ entry_buffer <$> onscreen_buffers a;
  inv_range b : 0 ≤ users b < 2 ^ 32
}.

Definition add_user (b : Buffer) (d : Z) users : Buffer → Z :=
  λ b', users b' + (if decide (b' = b) then d else 0).

(** No buffer with this id is in use. *)
Definition unused_id users (id : Z) : Prop := ∀ b, buffer_id b = id → users b = 0.

Lemma clean_loop_spec n at_begin l kept sent :
  clean_loop n at_begin l = (kept, sent) →
  (entry_id <$> kept) ++ sent ≡ₚ entry_id <$> l ∧ sublist kept l ∧
  (∀ id, id ∈ sent → ∃ e, e ∈ l ∧ entry_id e = id ∧ use_count e = 0) ∧
  (∀ e, e ∈ l → use_count e ≠ 0 → e ∈ kept) ∧
  (n = 0 → at_begin = true → l ≠ [] → kept ≠ []).
Proof.
  revert at_begin kept sent. induction l as [|e l IH]; intros at_begin kept sent; cbn.
  { intros; simplify_eq. split_and!; set_solver. }
  destruct (bool_decide (use_count e = 0) && _) eqn:Hc;
    destruct (clean_loop n _ l) as [kept' sent'] eqn:Hl; intros; simplify_eq;
    destruct (IH _ _ _ Hl) as (Hp & Hs & Hsent & Hkept & Hne).
  - bool_to_prop. destruct Hc as [Hu Hc]. split_and!.
    + rewrite <- Hp. symmetry. apply Permutation_middle.
    + by constructor.
    + intros id [->|Hin]%elem_of_cons; [exists e; set_solver|].
      destruct (Hsent _ Hin) as (e' & ? & ? & ?). exists e'. set_solver.
    + intros e' [->|Hin]%elem_of_cons ?; [done|eauto].
    + intros -> ->. destruct Hc; done.
  - split_and!.
    + cbn. by rewrite Hp.
    + by constructor.
    + intros id Hin. destruct (Hsent _ Hin) as (e' & ? & ? & ?). exists e'. set_solver.
    + set_solver.
    + done.
Qed.

Lemma clean_effect a :
  ∃ kept sent, clean_loop (num_scheduled (schedule a)) true (onscreen_buffers a) = (kept, sent) ∧
    clean_onscreen_buffers a = Run (Ret tt) (set_onscreen kept a) (SendBuffer <$> sent).
Proof.
  unfold clean_onscreen_buffers, pbind, pget, pput. cbn.
  destruct (clean_loop _ _ _) as [kept sent]. exists kept, sent. split; [done|].
  rewrite pfor_emit. cbn. by rewrite app_nil_r.
Qed.

Lemma clean_inv a users kept sent :
  arbiter_inv a users →
  clean_loop (num_scheduled (schedule a)) true (onscreen_buffers a) = (kept, sent) →
  arbiter_inv (set_onscreen kept a) users ∧ Forall (unused_id users) sent ∧
  held (set_onscreen kept a) ++ sent ≡ₚ held a ∧
  (held a ≠ [] → held (set_onscreen kept a) ≠ []).
Proof.
  intros [Hnd Hcount Hon Hnn] (Hp & Hs & Hsent & Hkept & Hne)%clean_loop_spec.
  unfold held in *. cbn in *. split_and!.
  - constructor; cbn.
    + eapply NoDup_app_sublist; [|done]. by apply fmap_sublist.
    + intros e Hin. apply Hcount. by eapply elem_of_sublist.
    + intros b Hb. pose proof (Hon b Hb) as (e & -> & Hin)%list_elem_of_fmap.
      apply list_elem_of_fmap_2, Hkept; [done|]. by rewrite Hcount.
    + done.
  - apply Forall_forall. intros id Hin b Hid. destruct (Hsent id Hin) as (e & He & Heid & Hz).
    destruct (decide (users b = 0)) as [|Hb]; [done|exfalso].
    pose proof (Hon b Hb) as (e' & -> & He')%list_elem_of_fmap.
    assert (e' = e) as ->; [|by rewrite <- Hcount in Hb].
    apply NoDup_app in Hnd as [Hnd _]. eapply NoDup_fmap_inj; [exact Hnd|done..|].
    unfold entry_id in *. congruence.
  - rewrite <- Hp, <- !app_assoc. apply Permutation_app_head, Permutation_app_comm.
  - intros Hheld [Hk Hc]%app_nil. apply fmap_nil_inv in Hk, Hc.
    destruct (onscreen_buffers a) eqn:Ho; [by rewrite Hc in Hheld|].
    apply Hne; [|done..]. by rewrite num_scheduled_contents, Hc.
Qed.

(** The outcome of one operation: the invariant for the new users, only unused
    buffers sent, and none lost. *)
Record arbiter_step a a' users' (sent : list Z) : Prop := {
  step_inv : arbiter_inv a' users';
  step_sent : Forall (unused_id users') sent;
  step_held : held a' ++ sent ≡ₚ held a;
  step_nonempty : held a ≠ [] → held a' ≠ []
}.

(** Reference counts are [unsigned int]s: none is about to wrap. *)
Definition room a : Prop := Forall (λ e, use_count e < 2 ^ 32 - 1) (onscreen_buffers a).

Lemma held_nil a : held a = [] ↔ onscreen_buffers a = [] ∧ num_scheduled (schedule a) = 0.
Proof.
  unfold held. rewrite num_scheduled_contents. split.
  - intros [Ho Hc]%app_nil. apply fmap_nil_inv in Ho, Hc. by rewrite Ho, Hc.
  - intros [-> Hc]. by destruct (contents (schedule a)).
Qed.

Lemma arbiter_inv_set_users a u users : arbiter_inv (set_users u a) users ↔ arbiter_inv a users.
Proof. split; intros [? ? ? ?]; by constructor. Qed.
Lemma held_set_users a u : held (set_users u a) = held a.
Proof. done. Qed.

Lemma push_effect a users :
  arbiter_inv a users → num_scheduled (schedule a) ≠ 0 →
  ∃ a', push_next_buffer a = Run (Ret tt) a' [] ∧ arbiter_inv a' users ∧ (room a → room a') ∧
    held a' ≡ₚ held a ∧ onscreen_buffers a' ≠ [] ∧ mode a' = mode a.
Proof.
  intros [Hnd Hcount Hon Hnn] Hn. rewrite num_scheduled_contents in Hn.
  unfold push_next_buffer, pbind, pget, pput, held in *. cbn.
  pose proof (next_buffer_contents (schedule a)) as Hnext.
  destruct (contents (schedule a)) as [|b rest]; [done|].
  destruct Hnext as (s' & -> & Hs'). eexists. split; [done|].
  assert (users b = 0) as Hub.
  { destruct (decide (users b = 0)) as [|Hb]; [done|exfalso].
    pose proof (Hon b Hb) as (e & -> & He)%list_elem_of_fmap.
    apply NoDup_app in Hnd as (_ & Hdisj & _).
    apply (Hdisj (entry_id e)); [by apply list_elem_of_fmap_2|left]. }
  unfold held; cbn. rewrite Hs'. split_and!; [|by constructor|by rewrite <- Permutation_middle|done|done].
  constructor; unfold held; cbn; rewrite ?Hs'.
  - by rewrite Permutation_middle.
  - intros e [->|He]%elem_of_cons; [by cbn|by apply Hcount].
  - intros b' Hb'. right. by apply Hon.
  - done.
Qed.

Lemma use_front_effect a users :
  arbiter_inv a users → room a → onscreen_buffers a ≠ [] →
  ∃ b a', use_front a = Run (Ret b) a' [] ∧ arbiter_inv a' (add_user b 1 users) ∧
    held a' = held a ∧ mode a' = mode a.
Proof.
  intros [Hnd Hcount Hon Hnn] Hroom Hne. unfold use_front, pbind, pget, pput, pret, room in *. cbn.
  destruct (onscreen_buffers a) as [|e l] eqn:Ho; [done|]. do 2 eexists. split; [done|].
  unfold held in *; cbn in *; rewrite Ho in *. split_and!; [|done|done].
  apply Forall_cons in Hroom as [Hroom _].
  pose proof (Hcount e ltac:(left)) as He. pose proof (Hnn (entry_buffer e)) as Hpos.
  constructor; unfold held; cbn.
  - done.
  - intros e' [->|He']%elem_of_cons; unfold add_user; cbn.
    + rewrite decide_True by done. rewrite uint32_id by lia. lia.
    + rewrite decide_False, Z.add_0_r; [apply Hcount; by right|]. intros Heq.
      apply NoDup_cons in Hnd as [Hnd _]. apply Hnd, elem_of_app. left.
      apply list_elem_of_fmap. exists e'. unfold entry_id. by rewrite Heq.
  - unfold add_user. intros b Hb. destruct (decide (b = _)) as [->|Hne']; [left|].
    apply Hon. lia.
  - unfold add_user. intros b. specialize (Hnn b). destruct (decide _) as [->|]; lia.
Qed.

Lemma decrease_entry_spec id l :
  match decrease_entry id l with
  | None => id ∉ entry_id <$> l
  | Some l' => ∃ l1 e l2, l = l1 ++ (e :: l2) ∧ entry_id e = id ∧ (id ∉ entry_id <$> l1) ∧
      l' = l1 ++ (mkEntry (entry_buffer e) (uint32 (use_count e - 1)) :: l2)
  end.
Proof.
  induction l as [|e l IH]; cbn; [by intros ?%elem_of_nil|].
  case_bool_decide as Hid.
  - exists [], e, l. split_and!; try done. apply not_elem_of_nil.
  - destruct (decrease_entry id l) as [l'|]; cbn.
    + destruct IH as (l1 & e' & l2 & -> & ? & ? & ->). exists (e :: l1), e', l2. cbn. set_solver.
    + set_solver.
Qed.

Lemma decrease_effect a users b :
  arbiter_inv a users → 0 < users b →
  ∃ a', decrease_refcount_for (buffer_id b) a = Run (Ret tt) a' [] ∧
    arbiter_inv a' (add_user b (-1) users) ∧ held a' = held a ∧ onscreen_buffers a' ≠ [] ∧
    mode a' = mode a.
Proof.
  intros [Hnd Hcount Hon Hnn] Hb. unfold decrease_refcount_for, pbind, pget, pput. cbn.
  pose proof (Hon b ltac:(lia)) as (e0 & Hbe0 & He0)%list_elem_of_fmap. subst b.
  pose proof (decrease_entry_spec (entry_id e0) (onscreen_buffers a)) as Hdec.
  change (buffer_id (entry_buffer e0)) with (entry_id e0).
  destruct (decrease_entry _ _) as [l'|]; [|destruct Hdec; by apply list_elem_of_fmap_2].
  destruct Hdec as (l1 & e & l2 & Hl & Hid & Hl1 & ->). eexists. split; [done|].
  unfold held in *; cbn in *. rewrite Hl in *.
  assert (e0 = e) as ->.
  { apply NoDup_app in Hnd as [Hnd _]. eapply NoDup_fmap_inj; [exact Hnd|done|set_solver|done]. }
  assert (∀ x, x ∈ l1 ++ l2 → entry_buffer x ≠ entry_buffer e) as Hother.
  { intros x Hx Heq. apply NoDup_app in Hnd as [Hnd _].
    rewrite fmap_app in Hnd. cbn in Hnd. rewrite <- Permutation_middle in Hnd.
    apply NoDup_cons in Hnd as [Hnd _]. apply Hnd. rewrite <- fmap_app.
    apply list_elem_of_fmap. exists x. unfold entry_id. by rewrite Heq. }
  split_and!; [|by rewrite !fmap_app|by destruct l1|done].
  constructor; unfold held; cbn.
  - by rewrite !fmap_app in *.
  - intros x Hx. unfold add_user.
    assert (x ∈ l1 ++ l2 ∨ x = mkEntry (entry_buffer e) (uint32 (use_count e - 1))) as [Hx'| ->] by set_solver.
    + rewrite decide_False, Z.add_0_r by (by apply Hother). apply Hcount. set_solver.
    + cbn. rewrite decide_True by done. rewrite (Hcount e) by set_solver.
      specialize (Hnn (entry_buffer e)). rewrite uint32_id by lia. lia.
  - intros b Hb'. unfold add_user in Hb'. rewrite fmap_app. cbn.
    destruct (decide (b = entry_buffer e)) as [->|]; [set_solver|].
    specialize (Hon b ltac:(lia)). rewrite fmap_app in Hon. cbn in Hon. set_solver.
  - intros b'. unfold add_user. specialize (Hnn b'). destruct (decide _) as [->|]; lia.
Qed.

Lemma arbiter_step_refl a users : arbiter_inv a users → arbiter_step a a users [].
Proof. intros Hinv. constructor; [done|constructor|by rewrite app_nil_r|done]. Qed.

(** Cleaning after a change that kept the held buffers. *)
Lemma clean_step a0 a users :
  arbiter_inv a users → held a ≡ₚ held a0 →
  ∃ a' sent, clean_onscreen_buffers a = Run (Ret tt) a' (SendBuffer <$> sent) ∧
    arbiter_step a0 a' users sent.
Proof.
  intros Hinv Hheld. destruct (clean_effect a) as (kept & sent & Hc & Hrun).
  destruct (clean_inv a users kept sent Hinv Hc) as (? & ? & Hp & Hne).
  do 2 eexists. split; [exact Hrun|]. constructor; [done|done|by rewrite Hp|].
  intros Hne0. apply Hne. intros Hnil. rewrite Hnil in Hheld. by apply Permutation_nil_l in Hheld.
Qed.

Lemma held_perm_nonempty a a' : held a' ≡ₚ held a → held a ≠ [] → held a' ≠ [].
Proof. intros Hp Hne Hnil. rewrite Hnil in Hp. by apply Permutation_nil_l in Hp. Qed.

(** Using the front buffer, then cleaning if asked to: the tail of both
    acquisitions. *)
Lemma use_then_clean a0 a users (c : bool) :
  arbiter_inv a users → room a → onscreen_buffers a ≠ [] → held a ≡ₚ held a0 →
  ∃ b a' sent,
    pbind use_front (λ b, pbind (pwhen c clean_onscreen_buffers) (λ _, pret b)) a =
      Run (Ret b) a' (SendBuffer <$> sent) ∧
    arbiter_step a0 a' (add_user b 1 users) sent.
Proof.
  intros Hinv Hroom Hne Hheld.
  destruct (use_front_effect a users Hinv Hroom Hne) as (b & a1 & Hrun & Hinv1 & Hheld1 & _).
  rewrite <- Hheld1 in Hheld. exists b. unfold pbind at 1. rewrite Hrun. cbn. destruct c; cbn.
  - destruct (clean_step a0 a1 _ Hinv1 Hheld) as (a' & sent & Hc & Hs).
    exists a', sent. unfold pbind. rewrite Hc. cbn. by rewrite app_nil_r.
  - exists a1, []. split; [done|].
    constructor; [done|constructor|by rewrite app_nil_r|]. by apply held_perm_nonempty.
Qed.

Lemma compositor_acquire_spec a users id :
  arbiter_inv a users → room a →
  match held a with
  | [] => compositor_acquire id a = Run (Throw (logic_error "no buffer to give to compositor")) a []
  | _ :: _ => ∃ b a' sent, compositor_acquire id a = Run (Ret b) a' (SendBuffer <$> sent) ∧
      arbiter_step a a' (add_user b 1 users) sent
  end.
Proof.
  intros Hinv Hroom. unfold compositor_acquire. unfold pbind at 1, pget at 1. cbn.
  destruct (held a) as [|i ids] eqn:Hh.
  { apply held_nil in Hh as [Ho Hn]. by rewrite Ho, Hn. }
  destruct (bool_decide (onscreen_buffers a = []) && _) eqn:Hempty.
  { bool_to_prop. destruct Hempty as [Ho Hn].
    assert (held a = []) as Hnil by by apply held_nil. congruence. }
  clear i ids Hh.
  set (c := bool_decide (id ∈ current_buffer_users a) || _).
  assert (∃ a1, pwhen c
      (pbind (pwhen (bool_decide (num_scheduled (schedule a) ≠ 0)) push_next_buffer)
         (λ _, pmodify (set_users ∅))) a = Run (Ret tt) a1 [] ∧
      arbiter_inv a1 users ∧ room a1 ∧ held a1 ≡ₚ held a ∧ onscreen_buffers a1 ≠ [])
    as (a1 & Hrun1 & Hinv1 & Hroom1 & Hheld1 & Hne1).
  { unfold c. bool_to_prop. destruct Hempty as [Hempty|Hempty]; bool_to_prop.
    - destruct (bool_decide (id ∈ _) || _); cbn; [|by exists a].
      case_bool_decide as Hn; cbn.
      + destruct (push_effect a users Hinv Hn) as (a1 & Hp & ? & ? & ? & ? & _).
        exists (set_users ∅ a1). unfold pbind. rewrite Hp. cbn.
        split_and!; try done; [by apply arbiter_inv_set_users|auto].
      + exists (set_users ∅ a). split_and!; try done. by apply arbiter_inv_set_users.
    - destruct (bool_decide (id ∈ _) || bool_decide (onscreen_buffers a = [])) eqn:Hc; cbn.
      + rewrite bool_decide_true by done. cbn.
        destruct (push_effect a users Hinv Hempty) as (a1 & Hp & ? & ? & ? & ? & _).
        exists (set_users ∅ a1). unfold pbind. rewrite Hp. cbn.
        split_and!; try done; [by apply arbiter_inv_set_users|auto].
      + exists a. bool_to_prop. destruct Hc. split_and!; done. }
  rewrite (pbind_silent _ _ _ _ _ Hrun1).
  rewrite (pbind_silent _ _ _ tt (set_users ({[id]} ∪ current_buffer_users a1) a1)) by done.
  destruct (use_then_clean a (set_users ({[id]} ∪ current_buffer_users a1) a1) users
    (bool_decide (mode a = multi_monitor_sync))) as (b & a' & sent & Hrun & Hstep); try (done || by apply Hroom1).
  { by apply arbiter_inv_set_users. }
  exists b, a', sent. by rewrite Hrun.
Qed.

Lemma snapshot_acquire_spec a users :
  arbiter_inv a users → room a →
  match held a with
  | [] => snapshot_acquire a = Run (Throw (logic_error "no buffer to give to snapshotter")) a []
  | _ :: _ => ∃ b a', snapshot_acquire a = Run (Ret b) a' [] ∧
      arbiter_step a a' (add_user b 1 users) []
  end.
Proof.
  intros Hinv Hroom. unfold snapshot_acquire. unfold pbind at 1, pget at 1. cbn.
  destruct (held a) as [|i ids] eqn:Hh.
  { apply held_nil in Hh as [Ho Hn]. by rewrite Ho, Hn. }
  destruct (bool_decide (onscreen_buffers a = []) && _) eqn:Hempty.
  { bool_to_prop. destruct Hempty as [Ho Hn].
    assert (held a = []) as Hnil by by apply held_nil. congruence. }
  clear i ids Hh. case_bool_decide as Ho; cbn [pwhen].
  - cbn in Hempty. apply bool_decide_eq_false in Hempty as Hn. rewrite bool_decide_true by done. cbn [pwhen].
    destruct (push_effect a users Hinv Hn) as (a1 & Hp & Hinv1 & Hroom1 & Hheld & Hne & _).
    destruct (use_front_effect a1 users Hinv1 (Hroom1 Hroom) Hne) as (b' & a'' & Hu & Hi & Hhe & _).
    exists b', a''. rewrite (pbind_silent _ _ _ _ _ Hp), Hu. split; [done|].
    constructor; [done|constructor|by rewrite app_nil_r, Hhe|]. apply held_perm_nonempty. by rewrite Hhe.
  - destruct (use_front_effect a users Hinv Hroom Ho) as (b' & a'' & Hu & Hi & Hhe & _).
    exists b', a''. rewrite (pbind_silent _ _ _ tt a), Hu by done. split; [done|].
    constructor; [done|constructor|by rewrite app_nil_r, Hhe|by rewrite Hhe].
Qed.

Lemma decreased_step a a1 users b (c : bool) :
  arbiter_inv a1 (add_user b (-1) users) → held a1 = held a →
  ∃ a' sent, pwhen c clean_onscreen_buffers a1 = Run (Ret tt) a' (SendBuffer <$> sent) ∧
    arbiter_step a a' (add_user b (-1) users) sent.
Proof.
  intros Hinv Hheld. destruct c.
  - apply clean_step; [done|by rewrite Hheld].
  - exists a1, []. split; [done|].
    constructor; [done|constructor|by rewrite app_nil_r, Hheld|by rewrite Hheld].
Qed.

Lemma compositor_release_spec a users b :
  arbiter_inv a users → 0 < users b →
  ∃ a' sent, compositor_release b a = Run (Ret tt) a' (SendBuffer <$> sent) ∧
    arbiter_step a a' (add_user b (-1) users) sent.
Proof.
  intros Hinv Hb. destruct (decrease_effect a users b Hinv Hb) as (a1 & Hrun & Hinv1 & Hheld & Hne & _).
  unfold compositor_release. rewrite (pbind_silent _ _ _ _ _ Hrun).
  rewrite (pbind_silent _ _ _ a1 a1) by done.
  destruct (onscreen_buffers a1) as [|e l]; [done|]. by apply decreased_step.
Qed.

Lemma snapshot_release_spec a users b :
  arbiter_inv a users → 0 < users b →
  ∃ a' sent, snapshot_release b a = Run (Ret tt) a' (SendBuffer <$> sent) ∧
    arbiter_step a a' (add_user b (-1) users) sent.
Proof.
  intros Hinv Hb. destruct (decrease_effect a users b Hinv Hb) as (a1 & Hrun & Hinv1 & Hheld & Hne & _).
  unfold snapshot_release. rewrite (pbind_silent _ _ _ _ _ Hrun). by apply (decreased_step a a1 users b true).
Qed.

Lemma advance_schedule_spec a users :
  arbiter_inv a users →
  ∃ a', advance_schedule a = Run (Ret tt) a' [] ∧ arbiter_step a a' users [] ∧ (room a → room a') ∧
    (held a ≠ [] → onscreen_buffers a' ≠ []).
Proof.
  intros Hinv. unfold advance_schedule. rewrite (pbind_silent _ _ _ a a) by done.
  case_bool_decide as Hn; cbn [pwhen].
  - destruct (push_effect a users Hinv Hn) as (a1 & Hp & Hinv1 & ? & Hheld & Hne & _).
    rewrite (pbind_silent _ _ _ _ _ Hp). exists (set_users ∅ a1). split_and!; try done.
    constructor; [by apply arbiter_inv_set_users|constructor|by rewrite app_nil_r|].
    by apply held_perm_nonempty.
  - exists a. split_and!; [done|by apply arbiter_step_refl|done|].
    intros Hne Ho. apply Hne, held_nil. split; [done|]. lia.
Qed.

(** Replacing the shared schedule: the contents change, nothing else does. *)
Lemma set_contents_inv a users s' :
  arbiter_inv a users → NoDup ((entry_id <$> onscreen_buffers a) ++ (buffer_id <$> contents s')) →
  arbiter_inv (mkArbiter (mode a) (onscreen_buffers a) (current_buffer_users a) s') users.
Proof. intros [? ? ? ?] ?. by constructor. Qed.

(** A new buffer goes to the schedule. *)
Lemma schedule_step a users b s' sent :
  arbiter_inv a users → buffer_id b ∉ held a → schedule_buffer b (schedule a) = (s', sent) →
  let a' := mkArbiter (mode a) (onscreen_buffers a) (current_buffer_users a) s' in
  arbiter_inv a' users ∧ Forall (unused_id users) sent ∧
  held a' ++ sent ≡ₚ buffer_id b :: held a ∧ held a' ≠ [].
Proof.
  intros Hinv Hb Hs. destruct (schedule_buffer_contents b (schedule a)) as (dropped & kept & Hc & Hc' & Hsent).
  { intros Hin. apply Hb. unfold held. apply elem_of_app. right. by apply list_elem_of_fmap_2. }
  rewrite Hs in Hc', Hsent. cbn in Hc', Hsent. subst sent. cbn zeta.
  pose proof (inv_nodup _ _ Hinv) as Hnd. unfold held in *. cbn. rewrite Hc, fmap_app in *.
  assert ((entry_id <$> onscreen_buffers a) ++ (buffer_id <$> contents s') ++ (buffer_id <$> dropped) ≡ₚ
    buffer_id b :: (entry_id <$> onscreen_buffers a) ++ (buffer_id <$> dropped) ++ (buffer_id <$> kept)) as Hp.
  { rewrite Hc', fmap_app. cbn. solve_Permutation. }
  split_and!.
  - apply set_contents_inv; [done|].
    assert (NoDup (buffer_id b :: (entry_id <$> onscreen_buffers a) ++ (buffer_id <$> dropped) ++ (buffer_id <$> kept))) as Hnd'
      by by constructor.
    rewrite <- Hp in Hnd'. rewrite app_assoc in Hnd'. by apply NoDup_app in Hnd' as [? _].
  - apply Forall_forall. intros id Hid b' Hb'. destruct (decide (users b' = 0)) as [|Hu]; [done|exfalso].
    pose proof (inv_onscreen _ _ Hinv b' Hu) as (e & -> & He)%list_elem_of_fmap.
    apply NoDup_app in Hnd as (_ & Hdisj & _).
    apply (Hdisj (entry_id e)); [by apply list_elem_of_fmap_2|]. apply elem_of_app. left. unfold entry_id. by rewrite Hb'.
  - rewrite <- app_assoc. exact Hp.
  - rewrite Hc', fmap_app. intros [_ Hnil]%app_nil. by apply app_nil in Hnil as [_ ?].
Qed.
End invariant.

(** ** The arbiter only takes buffers from its schedule *)
Section schedule_kept.
Context {S : Type} `{Schedule S} (P : S → Prop).
Context (next_buffer_kept : ∀ s b s', next_buffer s = (Ret b, s') → P s → P s').

Definition keeps (a : Arbiter S) (h : list client_call) : Prop := P (schedule a).

Lemma keeps_push : preserves keeps push_next_buffer.
Proof.
  intros a h Ha. unfold push_next_buffer. rewrite pbind_get.
  destruct (next_buffer (schedule a)) as [[b|e] s'] eqn:Hn; cbn; [|done]. by eapply next_buffer_kept.
Qed.
Lemma keeps_clean : preserves keeps clean_onscreen_buffers.
Proof.
  intros a h Ha. unfold clean_onscreen_buffers. rewrite pbind_get.
  destruct (clean_loop _ _ _) as [kept sent]. unfold pbind. by rewrite pfor_emit.
Qed.
Lemma keeps_use_front : preserves keeps use_front.
Proof. intros a h Ha. unfold use_front. rewrite pbind_get. by destruct (onscreen_buffers a). Qed.
Lemma keeps_users f : (∀ a, schedule (f a) = schedule a) → preserves keeps (pmodify f).
Proof. intros Hf a h Ha. unfold keeps. cbn. by rewrite Hf. Qed.
Lemma keeps_decrease id : preserves keeps (decrease_refcount_for id).
Proof. intros a h Ha. unfold decrease_refcount_for. rewrite pbind_get. by destruct (decrease_entry _ _). Qed.

Hint Resolve keeps_push keeps_clean keeps_use_front keeps_decrease : preserve.
Hint Extern 1 (preserves keeps (pmodify _)) => apply keeps_users; done : preserve.
Ltac solve_keeps := repeat first [progress (intros; cbn zeta) | case_match | solve [auto with preserve]
  | apply preserves_bind | apply preserves_when].

Lemma keeps_compositor_acquire id : preserves keeps (compositor_acquire id).
Proof. unfold compositor_acquire. solve_keeps. Qed.
Lemma keeps_compositor_release b : preserves keeps (compositor_release b).
Proof. unfold compositor_release. solve_keeps. Qed.
Lemma keeps_snapshot_acquire : preserves keeps snapshot_acquire.
Proof. unfold snapshot_acquire. solve_keeps. Qed.
Lemma keeps_snapshot_release b : preserves keeps (snapshot_release b).
Proof. unfold snapshot_release. solve_keeps. Qed.
Lemma keeps_advance_schedule : preserves keeps advance_schedule.
Proof. unfold advance_schedule. solve_keeps. Qed.
End schedule_kept.

(** ** The arbiter as a state machine

    The schedule's owner schedules buffers the client has just submitted, so
    none the arbiter still holds; compositors and snapshotters release what
    they acquired (TemporaryCompositorBuffer and TemporarySnapshotBuffer do so
    in their destructors). *)
Section machine.
Context {S : Type} `{ScheduleLaws S}.
Implicit Types (a : Arbiter S) (users : Buffer → Z).

Inductive arbiter_op :=
  | OpSchedule (b : Buffer)
  | OpCompositorAcquire (id : Z)
  | OpCompositorRelease (b : Buffer)
  | OpSnapshotAcquire
  | OpSnapshotRelease (b : Buffer)
  | OpSetMode (m : MultiMonitorMode)
  | OpAdvance.

Inductive arbiter_obs :=
  | Scheduled (b : Buffer)
  | Acquired (b : Buffer)
  | Released (b : Buffer)
  | Sent (id : Z).

Definition sent_of (c : client_call) : arbiter_obs := match c with SendBuffer id => Sent id end.

Definition arbiter_schedule (b : Buffer) : prog (Arbiter S) arbiter_obs unit :=
  let* a := pget in
  let '(s', sent) := schedule_buffer b (schedule a) in
  do* pemit (Scheduled b) in
  do* pfor sent (λ id, pemit (Sent id)) in
  pput (mkArbiter (mode a) (onscreen_buffers a) (current_buffer_users a) s').

Definition arbiter_exec (op : arbiter_op) : prog (Arbiter S) arbiter_obs unit :=
  match op with
  | OpSchedule b => arbiter_schedule b
  | OpCompositorAcquire id =>
      let* b := pmap_trace sent_of (compositor_acquire id) in pemit (Acquired b)
  | OpCompositorRelease b => do* pemit (Released b) in pmap_trace sent_of (compositor_release b)
  | OpSnapshotAcquire => let* b := pmap_trace sent_of snapshot_acquire in pemit (Acquired b)
  | OpSnapshotRelease b => do* pemit (Released b) in pmap_trace sent_of (snapshot_release b)
  | OpSetMode m => pmap_trace sent_of (set_mode m)
  | OpAdvance => pmap_trace sent_of advance_schedule
  end.

(** Acquisitions minus releases, along a history. *)
Definition observe_user (users : Buffer → Z) (o : arbiter_obs) : Buffer → Z :=
  match o with
  | Acquired b => add_user b 1 users
  | Released b => add_user b (-1) users
  | _ => users
  end.
Definition users_of (h : list arbiter_obs) : Buffer → Z := foldl observe_user (λ _, 0) h.

Definition arbiter_allowed (a : Arbiter S) (h : list arbiter_obs) (op : arbiter_op) : bool :=
  match op with
  | OpSchedule b => bool_decide (buffer_id b ∉ held a)
  | OpCompositorAcquire _ | OpSnapshotAcquire =>
      forallb (λ e, bool_decide (use_count e < 2 ^ 32 - 1)) (onscreen_buffers a)
  | OpCompositorRelease b | OpSnapshotRelease b => bool_decide (0 < users_of h b)
  | OpSetMode _ | OpAdvance => true
  end.

Definition arbiter_machine : machine := {|
  m_state := Arbiter S;
  m_op := arbiter_op;
  m_obs := arbiter_obs;
  m_init a := onscreen_buffers a = [] ∧ contents (schedule a) = [];
  m_allowed := arbiter_allowed;
  m_exec := arbiter_exec
|}.

(** Walking along a history, no buffer is sent while somebody uses it. *)
Fixpoint sends_unused (users : Buffer → Z) (h : list arbiter_obs) : Prop :=
  match h with
  | [] => True
  | o :: h' =>
      match o with Sent id => unused_id users id | _ => True end ∧
      sends_unused (observe_user users o) h'
  end.

Definition scheduled_ids (h : list arbiter_obs) : list Z :=
  omap (λ o, match o with Scheduled b => Some (buffer_id b) | _ => None end) h.
Definition sent_ids (h : list arbiter_obs) : list Z :=
  omap (λ o, match o with Sent id => Some id | _ => None end) h.

Lemma users_of_app h t : users_of (h ++ t) = foldl observe_user (users_of h) t.
Proof. unfold users_of. apply foldl_app. Qed.
Lemma foldl_observe_sent users sent : foldl observe_user users (Sent <$> sent) = users.
Proof. by induction sent. Qed.
Lemma sends_unused_app users h t :
  sends_unused users (h ++ t) ↔ sends_unused users h ∧ sends_unused (foldl observe_user users h) t.
Proof. revert users; induction h as [|o h IH]; intros users; cbn; [tauto|]. rewrite IH. tauto. Qed.
Lemma sends_unused_sent users sent : sends_unused users (Sent <$> sent) ↔ Forall (unused_id users) sent.
Proof. induction sent as [|id sent IH]; cbn; [by rewrite Forall_nil|]. by rewrite Forall_cons, IH. Qed.
Lemma sent_of_fmap (sent : list Z) : sent_of <$> (SendBuffer <$> sent) = Sent <$> sent.
Proof. by rewrite <- list_fmap_compose. Qed.
Lemma sent_ids_fmap sent : sent_ids (Sent <$> sent) = sent.
Proof. unfold sent_ids. induction sent; cbn; by f_equal. Qed.
Lemma scheduled_ids_fmap sent : scheduled_ids (Sent <$> sent) = [].
Proof. unfold scheduled_ids. by induction sent. Qed.
Lemma scheduled_ids_app h t : scheduled_ids (h ++ t) = scheduled_ids h ++ scheduled_ids t.
Proof. apply omap_app. Qed.
Lemma sent_ids_app h t : sent_ids (h ++ t) = sent_ids h ++ sent_ids t.
Proof. apply omap_app. Qed.

(** What one operation does to the invariant and the books. *)
Record exec_effect (a a' : Arbiter S) users (t : list arbiter_obs) : Prop := {
  eff_inv : arbiter_inv a' (foldl observe_user users t);
  eff_sends : sends_unused users t;
  eff_books : scheduled_ids t ++ held a ≡ₚ held a' ++ sent_ids t;
  eff_nonempty : held a ≠ [] ∨ scheduled_ids t ≠ [] → held a' ≠ []
}.

Lemma unused_id_acquire users b id :
  (∀ b, 0 ≤ users b) → unused_id (add_user b 1 users) id → unused_id users id.
Proof.
  intros Hnn Hu b' Hb'. specialize (Hu b' Hb'). specialize (Hnn b').
  unfold add_user in Hu. destruct (decide _); lia.
Qed.

Lemma acquire_effect a a' users b sent :
  arbiter_inv a users → arbiter_step a a' (add_user b 1 users) sent →
  exec_effect a a' users ((Sent <$> sent) ++ [Acquired b]).
Proof.
  intros Hinv [? Hsent ? Hne]. constructor.
  - by rewrite foldl_app, foldl_observe_sent.
  - rewrite sends_unused_app, sends_unused_sent, foldl_observe_sent. cbn. split; [|done].
    eapply Forall_impl; [exact Hsent|]. intros id. apply unused_id_acquire.
    intros b'. apply (inv_range _ _ Hinv).
  - rewrite scheduled_ids_app, sent_ids_app, scheduled_ids_fmap, sent_ids_fmap. cbn. by rewrite app_nil_r.
  - rewrite scheduled_ids_app, scheduled_ids_fmap. cbn. tauto.
Qed.

Lemma release_effect a a' users b sent :
  arbiter_step a a' (add_user b (-1) users) sent →
  exec_effect a a' users (Released b :: (Sent <$> sent)).
Proof.
  intros [? Hsent ? Hne]. constructor; cbn.
  - by rewrite foldl_observe_sent.
  - by rewrite sends_unused_sent.
  - by rewrite scheduled_ids_fmap, sent_ids_fmap.
  - rewrite scheduled_ids_fmap. tauto.
Qed.

Lemma silent_effect a a' users : arbiter_step a a' users [] → exec_effect a a' users [].
Proof. intros [? _ Hp ?]. constructor; cbn; [done|done|by rewrite Hp|tauto]. Qed.

Lemma room_allowed a :
  forallb (λ e, bool_decide (use_count e < 2 ^ 32 - 1)) (onscreen_buffers a) = true ↔ room a.
Proof.
  unfold room. rewrite forallb_forall, Forall_forall. split; intros Hall e He.
  - specialize (Hall e). rewrite bool_decide_eq_true in Hall. by apply Hall, list_elem_of_In.
  - rewrite bool_decide_eq_true. by apply Hall, list_elem_of_In.
Qed.

Lemma arbiter_schedule_effect a users b :
  arbiter_inv a users → buffer_id b ∉ held a →
  let r := arbiter_schedule b a in value r = Ret tt ∧ exec_effect a (post r) users (trace r).
Proof.
  intros Hinv Hb. unfold arbiter_schedule, pbind, pget, pput. cbn.
  destruct (schedule_buffer b (schedule a)) as [s' sent] eqn:Hs. rewrite pfor_emit. cbn.
  destruct (schedule_step a users b s' sent Hinv Hb Hs) as (Hinv' & Hsent & Hp & Hne).
  rewrite app_nil_r. split; [done|]. constructor; cbn.
  - by rewrite foldl_observe_sent.
  - by rewrite sends_unused_sent.
  - rewrite scheduled_ids_fmap, sent_ids_fmap. by rewrite Hp.
  - done.
Qed.

(** Every allowed operation has such an effect; it throws only when an
    acquisition finds no buffer at all. *)
Lemma arbiter_exec_effect a h op :
  arbiter_inv a (users_of h) → arbiter_allowed a h op = true →
  let r := arbiter_exec op a in
  exec_effect a (post r) (users_of h) (trace r) ∧ (held a ≠ [] → value r = Ret tt).
Proof.
  intros Hinv Hok.
  assert (exec_effect a a (users_of h) []) as Hrefl by by apply silent_effect, arbiter_step_refl.
  destruct op as [b|id|b| |b|m|]; cbn [arbiter_allowed arbiter_exec] in *.
  - apply bool_decide_eq_true in Hok. by destruct (arbiter_schedule_effect a (users_of h) b Hinv Hok).
  - apply room_allowed in Hok. pose proof (compositor_acquire_spec a _ id Hinv Hok) as Hs.
    unfold pbind, pmap_trace. destruct (held a); [rewrite Hs; by split|].
    destruct Hs as (b & a' & sent & -> & Hs). cbn [value post trace pemit].
    rewrite sent_of_fmap. split; [by apply acquire_effect|done].
  - apply bool_decide_eq_true in Hok. destruct (compositor_release_spec a _ b Hinv Hok) as (a' & sent & Hr & Hs).
    unfold pbind, pmap_trace, pemit. cbn [value post trace]. rewrite Hr. cbn [value post trace app].
    rewrite sent_of_fmap. split; [by apply release_effect|done].
  - apply room_allowed in Hok. pose proof (snapshot_acquire_spec a _ Hinv Hok) as Hs.
    unfold pbind, pmap_trace. destruct (held a); [rewrite Hs; by split|].
    destruct Hs as (b & a' & -> & Hs). cbn [value post trace pemit].
    split; [|done]. by apply (acquire_effect a a' (users_of h) b []).
  - apply bool_decide_eq_true in Hok. destruct (snapshot_release_spec a _ b Hinv Hok) as (a' & sent & Hr & Hs).
    unfold pbind, pmap_trace, pemit. cbn [value post trace]. rewrite Hr. cbn [value post trace app].
    rewrite sent_of_fmap. split; [by apply release_effect|done].
  - split; [|done]. cbn. apply silent_effect. destruct Hinv. constructor; [by constructor|constructor| |done].
    by rewrite app_nil_r.
  - destruct (advance_schedule_spec a _ Hinv) as (a' & Hr & Hs & _).
    unfold pmap_trace. rewrite Hr. split; [|done]. by apply silent_effect.
Qed.

Lemma arbiter_reachable a h :
  reachable arbiter_machine a h →
  arbiter_inv a (users_of h) ∧ sends_unused (λ _, 0) h ∧
  scheduled_ids h ≡ₚ held a ++ sent_ids h ∧ (scheduled_ids h ≠ [] → held a ≠ []).
Proof.
  revert a h. apply (reachable_invariant arbiter_machine); cbn.
  - intros a [Ho Hc]. unfold held. rewrite Ho, Hc. cbn. split_and!; try done.
    constructor; unfold held; rewrite ?Ho, ?Hc; cbn; [constructor|by intros ? ?%elem_of_nil|done|lia].
  - intros a h op _ (Hinv & Hsends & Hbooks & Hne) Hok.
    destruct (arbiter_exec_effect a h op Hinv Hok) as [[Hinv' Hs' Hb' Hne'] _].
    rewrite users_of_app, sends_unused_app, scheduled_ids_app, sent_ids_app. split_and!; try done.
    + rewrite Hbooks. rewrite <- app_assoc, (Permutation_app_comm (sent_ids h)), app_assoc.
      rewrite (Permutation_app_comm (held a)), Hb'. solve_Permutation.
    + intros Hnil. apply Hne'. destruct (scheduled_ids h); [by right|left; by apply Hne].
Qed.

(** ** Properties *)

(** C2. Whatever compositors, snapshotters and the client do, the arbiter never
    sends a buffer back to the client while a compositor or snapshotter uses
    it, every buffer in use stays among the on-screen ones, and releasing a
    buffer in use succeeds. *)
Theorem arbiter_never_sends_used a h :
  reachable arbiter_machine a h →
  sends_unused (λ _, 0) h ∧
  (∀ b, users_of h b ≠ 0 → b ∈ entry_buffer <$> onscreen_buffers a) ∧
  (∀ b, 0 < users_of h b →
     value (compositor_release b a) = Ret tt ∧ value (snapshot_release b a) = Ret tt).
Proof.
  intros (Hinv & Hs & _)%arbiter_reachable. split_and!; [done|apply (inv_onscreen _ _ Hinv)|].
  intros b Hb. destruct (compositor_release_spec a _ b Hinv Hb) as (? & ? & -> & _).
  by destruct (snapshot_release_spec a _ b Hinv Hb) as (? & ? & -> & _).
Qed.

(** Once a buffer has been scheduled there is always one to show: no
    compositor or snapshotter is turned away, however many buffers were
    consumed, released or dropped since (reference counts are assumed not to
    reach 2^32 - 1). *)
Theorem arbiter_no_starvation a h id :
  reachable arbiter_machine a h → scheduled_ids h ≠ [] → room a →
  (∃ b, value (compositor_acquire id a) = Ret b) ∧ (∃ b, value (snapshot_acquire a) = Ret b).
Proof.
  intros (Hinv & _ & _ & Hne)%arbiter_reachable Hsched Hroom. specialize (Hne Hsched).
  pose proof (compositor_acquire_spec a _ id Hinv Hroom) as Hc.
  pose proof (snapshot_acquire_spec a _ Hinv Hroom) as Hsn.
  destruct (held a); [done|].
  destruct Hc as (b & ? & ? & -> & _), Hsn as (b' & ? & -> & _). split; by eexists.
Qed.

(** C4. The arbiter and its schedule lose no buffer and duplicate none: the
    buffers scheduled so far are exactly those sent back plus those still on
    screen or waiting, each held once. *)
Theorem arbiter_conserves_buffers a h :
  reachable arbiter_machine a h →
  scheduled_ids h ≡ₚ held a ++ sent_ids h ∧ NoDup (held a).
Proof. intros (Hinv & _ & ? & _)%arbiter_reachable. split; [done|apply (inv_nodup _ _ Hinv)]. Qed.
End machine.

(** *** Witnesses: two compositors and a snapshot over a queueing schedule *)
Definition example_buffer (id : Z) : Buffer := mkBuffer id (Sz 4 3) 1.
Definition arbiter_example : Arbiter QueueingSchedule := mkArbiter multi_monitor_sync [] ∅ (mkQueueing []).
Definition arbiter_example_ops : list arbiter_op :=
  [OpSchedule (example_buffer 1); OpSchedule (example_buffer 2); OpCompositorAcquire 10;
   OpCompositorAcquire 11; OpCompositorAcquire 10; OpSnapshotAcquire;
   OpCompositorRelease (example_buffer 1)].
Definition arbiter_example_run : Arbiter QueueingSchedule * list arbiter_obs :=
  default (arbiter_example, []) (run_ops arbiter_machine arbiter_example_ops arbiter_example []).

Lemma arbiter_example_reachable :
  reachable (@arbiter_machine QueueingSchedule _ _) arbiter_example_run.1 arbiter_example_run.2.
Proof.
  apply (run_ops_from_init (@arbiter_machine QueueingSchedule _ _) arbiter_example_ops arbiter_example);
    [done|]. by vm_compute.
Qed.

Lemma arbiter_never_sends_used_witness :
  sends_unused (λ _, 0) arbiter_example_run.2 ∧ users_of arbiter_example_run.2 (example_buffer 2) = 2.
Proof.
  split; [|by vm_compute]. exact (proj1 (arbiter_never_sends_used _ _ arbiter_example_reachable)).
Defined.

Lemma arbiter_no_starvation_witness :
  ∃ b, value (compositor_acquire 11 arbiter_example_run.1) = Ret b.
Proof.
  refine (proj1 (arbiter_no_starvation _ _ 11 arbiter_example_reachable _ _)); [by vm_compute|].
  apply (bool_decide_unpack (Forall _ _)). vm_compute. exact I.
Defined.

Lemma arbiter_conserves_buffers_witness :
  [1; 2] ≡ₚ held arbiter_example_run.1 ++ sent_ids arbiter_example_run.2.
Proof.
  exact (proj1 (arbiter_conserves_buffers _ _ arbiter_example_reachable)).
Defined.
