(* ===== verification/BufferMap.v ===== *)
(** The buffers a client shares with the server (src/server/compositor/buffer_map.cpp):
    which exist, who owns each, and what the client is told about them. *)

From S2P Require Import Prelude Geometry Schedule.

Inductive Owner := server | client.
#[export] Instance Owner_eq_dec : EqDecision Owner.
Proof. solve_decision. Defined.

(** Calls of the client's [frontend::BufferSink]. *)
Inductive sink_call :=
  | SinkAdd (b : Buffer)
  | SinkRemove (b : Buffer)
  | SinkUpdate (b : Buffer)
  | SinkError (sz : Size) (pf : Z) (error : string).
#[export] Instance sink_call_eq_dec : EqDecision sink_call.
Proof. solve_decision. Defined.

(** [sink_alive] says whether the weak pointer to the sink can still be locked. *)
Record BufferMap := mkBufferMap { buffers : gmap Z (Buffer * Owner); sink_alive : bool }.

Definition set_buffers (m : gmap Z (Buffer * Owner)) (s : BufferMap) : BufferMap :=
  mkBufferMap m (sink_alive s).

(** [std::exception::what] *)
Definition what (e : exn) : string :=
  match e with
  | logic_error w | runtime_error w | invalid_argument w | out_of_range w | undefined_behaviour w => w
  end.

Section buffer_map.
(** [BufferSink::add_buffer] sends the buffer's file descriptors and may throw. *)
Context (sink_add : Buffer → outcome unit).
Abbreviation M := (prog BufferMap sink_call).

Definition call_sink (c : sink_call) : M unit :=
  let* s := pget in pwhen (sink_alive s) (pemit c).

Definition checked_buffers_find (id : Z) : M (Buffer * Owner) :=
  let* s := pget in
  match buffers s !! id with
  | None => pthrow (logic_error "cannot find buffer by id")
  | Some entry => pret entry
  end.

Definition add_buffer (buffer : Buffer) : M Z :=
  do* pmodify (λ s, set_buffers (<[buffer_id buffer := (buffer, client)]> (buffers s)) s) in
  let* s := pget in
  if sink_alive s then
    do* pemit (SinkAdd buffer) in
    match sink_add buffer with
    | Ret _ => pret (buffer_id buffer)
    | Throw e =>
        do* pemit (SinkError (buffer_size buffer) (pixel_format buffer) (what e)) in pthrow e
    end
  else pret (buffer_id buffer).

Definition remove_buffer (id : Z) : M unit :=
  let* it := checked_buffers_find id in
  do* call_sink (SinkRemove it.1) in
  pmodify (λ s, set_buffers (delete id (buffers s)) s).

Definition send_buffer (id : Z) : M unit :=
  let* s := pget in
  match buffers s !! id with
  | None => pret tt
  | Some (buffer, _) =>
      do* pput (set_buffers (<[id := (buffer, client)]> (buffers s)) s) in
      call_sink (SinkUpdate buffer)
  end.

Definition receive_buffer (id : Z) : M unit :=
  let* s := pget in
  match buffers s !! id with
  | None => pret tt
  | Some (buffer, _) => pput (set_buffers (<[id := (buffer, server)]> (buffers s)) s)
  end.

(** [operator\[\]] *)
Definition buffer_at (id : Z) : M Buffer :=
  let* it := checked_buffers_find id in pret it.1.
End buffer_map.

(** ** Ownership *)
Definition owner_of (s : BufferMap) (id : Z) : option Owner := snd <$> buffers s !! id.

Definition with_owner (id : Z) (o : Owner) (s : BufferMap) : BufferMap :=
  match buffers s !! id with
  | None => s
  | Some (buffer, _) => set_buffers (<[id := (buffer, o)]> (buffers s)) s
  end.

Lemma send_buffer_run id s :
  send_buffer id s = Run (Ret tt) (with_owner id client s)
    (match buffers s !! id with
     | Some (b, _) => if sink_alive s then [SinkUpdate b] else []
     | None => [] end).
Proof.
  unfold send_buffer, call_sink, with_owner. run_prog. destruct (buffers s !! id) as [[b o]|]; [|done].
  cbn. by destruct (sink_alive s).
Qed.
Lemma receive_buffer_run id s : receive_buffer id s = Run (Ret tt) (with_owner id server s) [].
Proof.
  unfold receive_buffer, with_owner. run_prog. by destruct (buffers s !! id) as [[b o]|].
Qed.

Lemma remove_buffer_run id s :
  remove_buffer id s =
    match buffers s !! id with
    | None => Run (Throw (logic_error "cannot find buffer by id")) s []
    | Some it => Run (Ret tt) (set_buffers (delete id (buffers s)) s) (if sink_alive s then [SinkRemove it.1] else [])
    end.
Proof.
  unfold remove_buffer, checked_buffers_find, call_sink. run_prog.
  destruct (buffers s !! id) as [it|]; [|done]. by destruct s as [m []].
Qed.

Lemma with_owner_lookup id o s id' b o' :
  buffers (with_owner id o s) !! id' = Some (b, o') →
  ∃ o0, buffers s !! id' = Some (b, o0) ∧ o' = if decide (id' = id) then o else o0.
Proof.
  unfold with_owner. destruct (buffers s !! id) as [[b0 o0]|] eqn:Hl; cbn.
  - destruct (decide (id' = id)) as [->|].
    + rewrite lookup_insert_eq. intros; simplify_eq. by eexists.
    + rewrite lookup_insert_ne by done. intros ->. by eexists.
  - intros Hb. exists o'. split; [done|]. rewrite decide_False; [done|]. intros ->. congruence.
Qed.
Lemma with_owner_same id o s b o0 :
  buffers s !! id = Some (b, o0) → buffers (with_owner id o s) !! id = Some (b, o).
Proof. unfold with_owner. intros ->. apply lookup_insert_eq. Qed.
Lemma with_owner_alive id o s : sink_alive (with_owner id o s) = sink_alive s.
Proof. unfold with_owner. by destruct (buffers s !! id) as [[]|]. Qed.
