(* ===== verification/Stream.v ===== *)
(** Buffer streams (src/server/compositor/stream.cpp, temporary_buffers.cpp):
    a stream takes the buffers its client submits, schedules them, lends them
    to compositors through the arbiter and hands them back. *)

From S2P Require Import Prelude Geometry Schedule Arbiter BufferMap.

Inductive ScheduleMode := ModeQueueing | ModeDropping.
#[export] Instance ScheduleMode_eq_dec : EqDecision ScheduleMode.
Proof. solve_decision. Defined.

(** The stream's [schedule] and its arbiter's are one shared object from the
    constructor on, and [transition_schedule] replaces both: it is kept in the
    arbiter.  [map] is the client's [ClientBuffers]. *)
Record Stream := mkStream {
  schedule_mode : ScheduleMode;
  arbiter : Arbiter AnySchedule;
  map : BufferMap;
  stream_size : Size;
  first_frame_posted : bool;
  associated_buffers : gset Z
}.

Inductive stream_obs :=
  | Sink (c : sink_call)
  | SwapNowBlocking
  | SwapUnblocked
  | FramePosted (sz : Size)
  (** a compositor got, or gave back, a buffer *)
  | Locked (b : Buffer)
  | Unlocked (b : Buffer)
  (** [with_most_recent_buffer_do] ran its function *)
  | Snapshot (b : Buffer).
#[export] Instance stream_obs_eq_dec : EqDecision stream_obs.
Proof. solve_decision. Defined.

#[local] Abbreviation M := (prog Stream stream_obs).

Definition set_arbiter (a : Arbiter AnySchedule) (s : Stream) : Stream :=
  mkStream (schedule_mode s) a (map s) (stream_size s) (first_frame_posted s) (associated_buffers s).
Definition set_map (m : BufferMap) (s : Stream) : Stream :=
  mkStream (schedule_mode s) (arbiter s) m (stream_size s) (first_frame_posted s) (associated_buffers s).
Definition set_posted (s : Stream) : Stream :=
  mkStream (schedule_mode s) (arbiter s) (map s) (stream_size s) true (associated_buffers s).
Definition set_schedule_mode (m : ScheduleMode) (s : Stream) : Stream :=
  mkStream m (arbiter s) (map s) (stream_size s) (first_frame_posted s) (associated_buffers s).
Definition set_stream_size (sz : Size) (s : Stream) : Stream :=
  mkStream (schedule_mode s) (arbiter s) (map s) sz (first_frame_posted s) (associated_buffers s).
Definition set_associated (a : gset Z) (s : Stream) : Stream :=
  mkStream (schedule_mode s) (arbiter s) (map s) (stream_size s) (first_frame_posted s) a.

(** Calls into the buffer map, the arbiter and the schedule. *)
Definition in_map {A} (m : prog BufferMap sink_call A) : M A :=
  pcomponent map set_map (λ c, pemit (Sink c)) m.
Definition client_perform (c : client_call) : M unit :=
  match c with SendBuffer id => in_map (send_buffer id) end.
Definition in_arbiter {A} (m : prog (Arbiter AnySchedule) client_call A) : M A :=
  pcomponent arbiter set_arbiter client_perform m.

Definition scheduled (s : Stream) : AnySchedule := schedule (arbiter s).
Definition replace_schedule (sch : AnySchedule) (s : Stream) : Stream :=
  set_arbiter (mkArbiter (mode (arbiter s)) (onscreen_buffers (arbiter s))
    (current_buffer_users (arbiter s)) sch) s.

(** [schedule->schedule(buffer)] and [schedule->next_buffer()] *)
Definition schedule_on (sch : AnySchedule) (buffer : Buffer) : M AnySchedule :=
  let '(sch', sent) := schedule_buffer buffer sch in
  do* pfor sent (λ id, in_map (send_buffer id)) in pret sch'.
Definition stream_schedule (buffer : Buffer) : M unit :=
  let* s := pget in
  let* sch' := schedule_on (scheduled s) buffer in
  pmodify (replace_schedule sch').
Definition stream_next_buffer : M Buffer :=
  let* s := pget in
  let '(b, sch') := next_buffer (scheduled s) in
  match b with
  | Ret b => do* pmodify (replace_schedule sch') in pret b
  | Throw e => pthrow e
  end.

(** [while(schedule->num_scheduled()) transferred.emplace_back(schedule->next_buffer())]:
    each round takes one buffer, so the number scheduled bounds the rounds. *)
Fixpoint take_loop (fuel : nat) : M (list Buffer) :=
  let* s := pget in
  if bool_decide (num_scheduled (scheduled s) = 0) then pret []
  else match fuel with
  | O => pthrow (undefined_behaviour "out of fuel")
  | S fuel' =>
      let* b := stream_next_buffer in
      let* rest := take_loop fuel' in
      pret (b :: rest)
  end.
Definition take_scheduled : M (list Buffer) :=
  let* s := pget in take_loop (Z.to_nat (num_scheduled (scheduled s))).

(** [Stream::Stream] and [~Stream] *)
Definition new_stream (m : BufferMap) (sz : Size) : Stream :=
  let sch := Queueing (mkQueueing []) in
  mkStream ModeQueueing (mkArbiter multi_monitor_sync [] ∅ sch) m sz false ∅.
Fixpoint drain_loop (fuel : nat) : M unit :=
  let* s := pget in
  if bool_decide (num_scheduled (scheduled s) = 0) then pret tt
  else match fuel with
  | O => pthrow (undefined_behaviour "out of fuel")
  | S fuel' =>
      let* b := stream_next_buffer in
      do* in_map (send_buffer (buffer_id b)) in
      drain_loop fuel'
  end.
Definition destroy_stream : M unit :=
  let* s := pget in drain_loop (Z.to_nat (num_scheduled (scheduled s))).

Definition client_owned_buffer_count (s : Stream) : Z :=
  let server_count := num_scheduled (scheduled s) in
  let server_count := if has_buffer (arbiter s) then uint32 (server_count + 1) else server_count in
  uint32 (Z.of_nat (stdpp.base.size (associated_buffers s)) - server_count).

(** A null [shared_ptr] is [None]. *)
Definition submit_buffer (buffer : option Buffer) : M unit :=
  match buffer with
  | None => pthrow (invalid_argument "cannot submit null buffer")
  | Some buffer =>
      do* pmodify set_posted in
      do* in_map (receive_buffer (buffer_id buffer)) in
      let* b := in_map (buffer_at (buffer_id buffer)) in
      do* stream_schedule b in
      let* s := pget in
      do* pwhen (negb (bool_decide (associated_buffers s = ∅)) &&
                 bool_decide (client_owned_buffer_count s = 0)) (pemit SwapNowBlocking) in
      pemit (FramePosted (buffer_size buffer))
  end.

(** [TemporarySnapshotBuffer buffer(arbiter); fn(buffer);] *)
Definition with_most_recent_buffer_do : M unit :=
  let* b := in_arbiter snapshot_acquire in
  do* pemit (Snapshot b) in
  in_arbiter (snapshot_release b).

(** The [TemporaryCompositorBuffer] the caller gets releases in its destructor. *)
Definition lock_compositor_buffer (id : Z) : M Buffer :=
  do* pemit SwapUnblocked in
  in_arbiter (compositor_acquire id).
Definition destroy_compositor_buffer (b : Buffer) : M unit := in_arbiter (compositor_release b).

Definition resize (new_size : Size) : M unit := pmodify (set_stream_size new_size).

Fixpoint schedule_all (sch : AnySchedule) (l : list Buffer) : M AnySchedule :=
  match l with
  | [] => pret sch
  | b :: l' => let* sch' := schedule_on sch b in schedule_all sch' l'
  end.
Definition transition_schedule (new_schedule : AnySchedule) : M unit :=
  let* transferred_buffers := take_scheduled in
  let* sch := schedule_all new_schedule transferred_buffers in
  in_arbiter (set_schedule sch).

Definition allow_framedropping (dropping : bool) : M unit :=
  let* s := pget in
  if dropping && bool_decide (schedule_mode s = ModeQueueing) then
    do* transition_schedule (Dropping (mkDropping None)) in
    pmodify (set_schedule_mode ModeDropping)
  else pwhen (negb dropping && bool_decide (schedule_mode s = ModeDropping))
    (do* transition_schedule (Queueing (mkQueueing [])) in
     pmodify (set_schedule_mode ModeQueueing)).

Definition framedropping (s : Stream) : bool := bool_decide (schedule_mode s = ModeDropping).

Definition buffers_ready_for_compositor (id : Z) (s : Stream) : Z :=
  if buffer_ready_for id (arbiter s) then 1 else 0.

Definition drop_old_buffers : M unit :=
  let* transferred_buffers := take_scheduled in
  let* rest :=
    match last transferred_buffers with
    | None => pret transferred_buffers
    | Some b => do* stream_schedule b in pret (removelast transferred_buffers)
    end in
  do* pfor rest (λ b, in_map (send_buffer (buffer_id b))) in
  in_arbiter advance_schedule.

Definition has_submitted_buffer (s : Stream) : bool := first_frame_posted s.

Definition associate_buffer (id : Z) : M unit :=
  pmodify (λ s, set_associated ({[id]} ∪ associated_buffers s) s).
Definition disassociate_buffer (id : Z) : M unit :=
  pmodify (λ s, set_associated (associated_buffers s ∖ {[id]}) s).

(** What the frame dropping policy calls back. *)
Definition drop_frame : M unit :=
  let* s := pget in
  pwhen (bool_decide (1 < num_scheduled (scheduled s)))
    (let* b := stream_next_buffer in in_map (send_buffer (buffer_id b))).

(** ** How the calls run *)
Definition mark_client (l : list Z) (m : BufferMap) : BufferMap :=
  foldl (λ m id, with_owner id client m) m l.
(** What the sink hears when the ids [l] are sent back. *)
Definition updates (l : list Z) (m : BufferMap) : list sink_call :=
  if sink_alive m then SinkUpdate <$> omap (λ id, fst <$> buffers m !! id) l else [].

Lemma mark_client_alive l m : sink_alive (mark_client l m) = sink_alive m.
Proof. revert m; induction l as [|id l IH]; intros m; [done|].
  change (sink_alive (mark_client l (with_owner id client m)) = sink_alive m).
  by rewrite IH, with_owner_alive.
Qed.
Lemma with_owner_buffer id o m id' : fst <$> buffers (with_owner id o m) !! id' = fst <$> buffers m !! id'.
Proof.
  unfold with_owner. destruct (buffers m !! id) as [[b o0]|] eqn:Hl; [|done]. cbn.
  destruct (decide (id' = id)) as [->|]; [by rewrite lookup_insert_eq, Hl|by rewrite lookup_insert_ne].
Qed.
Lemma updates_with_owner l id o m : updates l (with_owner id o m) = updates l m.
Proof.
  unfold updates. rewrite with_owner_alive. destruct (sink_alive m); [|done]. f_equal.
  induction l as [|x l IH]; cbn; [done|]. by rewrite with_owner_buffer, IH.
Qed.

Lemma in_map_send id s :
  in_map (send_buffer id) s = Run (Ret tt) (set_map (mark_client [id] (map s)) s) (Sink <$> updates [id] (map s)).
Proof.
  unfold in_map, pcomponent. rewrite send_buffer_run. cbn [trace value post]. unfold pbind.
  rewrite pfor_emit. cbn. rewrite app_nil_r. f_equal. unfold updates. cbn.
  destruct (buffers (map s) !! id) as [[]|]; cbn; by destruct (sink_alive (map s)).
Qed.

Lemma sends_run l s :
  pfor l (λ id, in_map (send_buffer id)) s =
    Run (Ret tt) (set_map (mark_client l (map s)) s) (Sink <$> updates l (map s)).
Proof.
  revert s. induction l as [|id l IH]; intros s; cbn [pfor].
  { unfold updates. cbn. destruct s as [? ? [? []] ? ? ?]; done. }
  unfold pbind. rewrite in_map_send. cbn [value post trace]. rewrite IH. cbn [value post trace]. f_equal.
  rewrite <- fmap_app. f_equal. cbn [mark_client foldl map set_map]. rewrite updates_with_owner.
  unfold updates. destruct (sink_alive (map s)); [|done]. rewrite <- fmap_app. f_equal. cbn.
  by destruct (buffers (map s) !! id) as [[]|].
Qed.

Lemma in_arbiter_run {A} (m : prog (Arbiter AnySchedule) client_call A) s v a' sent :
  m (arbiter s) = Run v a' (SendBuffer <$> sent) →
  in_arbiter m s = Run v (set_map (mark_client sent (map s)) (set_arbiter a' s)) (Sink <$> updates sent (map s)).
Proof.
  intros Hm. unfold in_arbiter, pcomponent. rewrite Hm. cbn [trace value post].
  assert (∀ l s, pfor (SendBuffer <$> l) client_perform s = pfor l (λ id, in_map (send_buffer id)) s) as Hp.
  { clear. intros l. induction l as [|id l IH]; intros s; [done|]. cbn [fmap list_fmap pfor].
    unfold pbind. cbn [client_perform]. destruct (in_map (send_buffer id) s) as [[] ? ?]; cbn; [|done]. by rewrite IH. }
  unfold pbind. rewrite Hp, sends_run. cbn. by rewrite app_nil_r.
Qed.

Lemma schedule_on_run sch b s sch' sent :
  schedule_buffer b sch = (sch', sent) →
  schedule_on sch b s = Run (Ret sch') (set_map (mark_client sent (map s)) s) (Sink <$> updates sent (map s)).
Proof.
  intros Hs. unfold schedule_on. rewrite Hs. unfold pbind. rewrite sends_run. cbn. by rewrite app_nil_r.
Qed.

Definition mode_of (sch : AnySchedule) : ScheduleMode :=
  match sch with Queueing _ => ModeQueueing | Dropping _ => ModeDropping end.
Lemma next_buffer_mode k sch b sch' :
  next_buffer sch = (Ret b, sch') → mode_of sch = k → mode_of sch' = k.
Proof.
  destruct sch as [q|d]; cbn; [unfold queueing_next_buffer|unfold dropping_next_buffer];
    case_match; intros; by simplify_eq/=.
Qed.

Lemma stream_next_buffer_run s :
  match contents (scheduled s) with
  | [] => stream_next_buffer s = Run (Throw (logic_error "no buffer scheduled")) s []
  | b :: rest => ∃ sch', contents sch' = rest ∧ mode_of sch' = mode_of (scheduled s) ∧
      stream_next_buffer s = Run (Ret b) (replace_schedule sch' s) []
  end.
Proof.
  unfold stream_next_buffer. rewrite pbind_get.
  pose proof (next_buffer_contents (scheduled s)) as Hn. destruct (contents (scheduled s)) as [|b rest].
  - by rewrite Hn.
  - destruct Hn as (sch' & Hn & Hc). exists sch'. rewrite Hn. split_and!; [done| |done].
    by eapply next_buffer_mode.
Qed.

Lemma num_scheduled_eqb s :
  bool_decide (num_scheduled (scheduled s) = 0) = bool_decide (contents (scheduled s) = []).
Proof.
  apply bool_decide_ext. rewrite num_scheduled_contents. destruct (contents _); cbn; split; (done || lia).
Qed.

Lemma take_loop_run fuel s :
  (length (contents (scheduled s)) ≤ fuel)%nat →
  ∃ sch', contents sch' = [] ∧ mode_of sch' = mode_of (scheduled s) ∧
    take_loop fuel s = Run (Ret (contents (scheduled s))) (replace_schedule sch' s) [].
Proof.
  revert s. induction fuel as [|fuel IH]; intros s Hfuel; cbn [take_loop];
    rewrite pbind_get, num_scheduled_eqb.
  - destruct (contents (scheduled s)) eqn:Hc; [|cbn in Hfuel; lia]. rewrite bool_decide_true by done.
    exists (scheduled s). split_and!; [done|done|]. cbn. by destruct s as [? [] ? ? ? ?].
  - destruct (contents (scheduled s)) as [|b rest] eqn:Hc.
    + rewrite bool_decide_true by done. exists (scheduled s). split_and!; [done|done|]. cbn. by destruct s as [? [] ? ? ? ?].
    + rewrite bool_decide_false by done. pose proof (stream_next_buffer_run s) as Hn. rewrite Hc in Hn.
      destruct Hn as (sch1 & Hc1 & Hm1 & Hn).
      destruct (IH (replace_schedule sch1 s)) as (sch2 & Hc2 & Hm2 & Hr).
      { change (scheduled (replace_schedule sch1 s)) with sch1. rewrite Hc1. cbn in Hfuel. lia. }
      exists sch2. split_and!; [done|by rewrite Hm2|]. rewrite (pbind_silent _ _ _ _ _ Hn), (pbind_silent _ _ _ _ _ Hr).
      change (scheduled (replace_schedule sch1 s)) with sch1. by rewrite Hc1.
Qed.

Lemma take_scheduled_run s :
  ∃ sch', contents sch' = [] ∧ mode_of sch' = mode_of (scheduled s) ∧
    take_scheduled s = Run (Ret (contents (scheduled s))) (replace_schedule sch' s) [].
Proof.
  unfold take_scheduled. rewrite pbind_get.
  destruct (take_loop_run (Z.to_nat (num_scheduled (scheduled s))) s) as (sch' & ? & ? & ->).
  { rewrite num_scheduled_contents. lia. }
  by exists sch'.
Qed.

Lemma in_map_run {A} (m : prog BufferMap sink_call A) s v m' t :
  m (map s) = Run v m' t → in_map m s = Run v (set_map m' s) (Sink <$> t).
Proof.
  intros Hm. unfold in_map, pcomponent. rewrite Hm. cbn [trace value post]. unfold pbind.
  rewrite pfor_emit. cbn. by rewrite app_nil_r.
Qed.

Lemma schedule_all_queueing q l s :
  NoDup (queue q ++ l) →
  schedule_all (Queueing q) l s = Run (Ret (Queueing (mkQueueing (queue q ++ l)))) s [].
Proof.
  revert q. induction l as [|b l IH]; intros q Hnd; cbn [schedule_all].
  { rewrite app_nil_r. by destruct q. }
  assert (schedule_buffer b (Queueing q) = (Queueing (mkQueueing (queue q ++ [b])), [])) as Hs.
  { cbn. unfold queueing_schedule. rewrite bool_decide_false; [done|].
    apply NoDup_app in Hnd as (_ & Hd & _). intros Hin. apply (Hd b Hin). left. }
  pose proof (schedule_on_run _ _ s _ _ Hs) as Hr. cbn [mark_client foldl] in Hr.
  rewrite (pbind_silent _ _ _ (Queueing (mkQueueing (queue q ++ [b]))) s); cycle 1.
  { rewrite Hr. unfold updates. destruct s as [? ? [? []] ? ? ?]; done. }
  rewrite IH; cbn [queue]; by rewrite <- app_assoc.
Qed.

Lemma schedule_all_dropping d l s :
  NoDup (option_list (the_only_buffer d) ++ l) →
  let ids := buffer_id <$> option_list (the_only_buffer d) ++ l in
  schedule_all (Dropping d) l s =
    Run (Ret (Dropping (mkDropping (last (option_list (the_only_buffer d) ++ l)))))
      (set_map (mark_client (removelast ids) (map s)) s) (Sink <$> updates (removelast ids) (map s)).
Proof.
  revert d s. induction l as [|b l IH]; intros d s Hnd; cbn zeta; cbn [schedule_all].
  { rewrite app_nil_r. destruct d as [[]], s as [? ? [? []] ? ? ?]; done. }
  destruct d as [[old|]]; cbn [the_only_buffer option_list app] in *.
  - assert (schedule_buffer b (Dropping (mkDropping (Some old))) =
      (Dropping (mkDropping (Some b)), [buffer_id old])) as Hs.
    { cbn. rewrite decide_False; [done|]. intros ->. apply NoDup_cons in Hnd as [Hnd _]. apply Hnd. left. }
    unfold pbind. rewrite (schedule_on_run _ _ s _ _ Hs). cbn [value post trace].
    rewrite IH by (cbn; by apply NoDup_cons in Hnd as [_ ?]).
    cbn [the_only_buffer option_list app value post trace map set_map]. f_equal.
    rewrite <- fmap_app. f_equal. cbn [fmap list_fmap removelast mark_client foldl].
    rewrite updates_with_owner. unfold updates. destruct (sink_alive (map s)); [|done].
    rewrite <- fmap_app. f_equal. cbn. by destruct (buffers (map s) !! buffer_id old) as [[]|].
  - assert (schedule_buffer b (Dropping (mkDropping None)) = (Dropping (mkDropping (Some b)), [])) as Hs by done.
    pose proof (schedule_on_run _ _ s _ _ Hs) as Hr.
    rewrite (pbind_silent _ _ _ (Dropping (mkDropping (Some b))) s); cycle 1.
    { rewrite Hr. unfold updates. destruct s as [? ? [? []] ? ? ?]; done. }
    by rewrite IH.
Qed.

(** ** Invariant

    Besides the arbiter's invariant: the buffers the map gives the server are
    exactly those the stream holds. *)
Definition owns (m : BufferMap) (ids : list Z) : Prop :=
  ∀ id b o, buffers m !! id = Some (b, o) → buffer_id b = id ∧ (o = server ↔ id ∈ ids).


Record stream_inv (s : Stream) (users : Buffer → Z) : Prop := {
  si_arbiter : arbiter_inv (arbiter s) users;
  si_owns : owns (map s) (held (arbiter s));
  si_mode : schedule_mode s = mode_of (scheduled s)
}.

Lemma owns_mark l ids ids' m :
  owns m ids → NoDup ids → ids ≡ₚ ids' ++ l → owns (mark_client l m) ids'.
Proof.
  revert m ids. induction l as [|x l IH]; intros m ids Hown Hnd Hp.
  { rewrite app_nil_r in Hp. intros id b o Hb. by rewrite <- Hp; apply Hown. }
  change (mark_client (x :: l) m) with (mark_client l (with_owner x client m)).
  rewrite <- Permutation_middle in Hp. rewrite Hp in Hnd. apply NoDup_cons in Hnd as [Hx Hnd].
  apply (IH _ (ids' ++ l)); [|done|done].
  intros id b o (o0 & Hb & ->)%with_owner_lookup. destruct (Hown _ _ _ Hb) as [Hid Ho]. split; [done|].
  rewrite Hp in Ho. destruct (decide (id = x)) as [->|Hne]; [by split|].
  rewrite Ho, elem_of_cons. split; [by intros [?|?]|by right].
Qed.

Lemma owns_receive id ids m : owns m ids → owns (with_owner id server m) (id :: ids).
Proof.
  intros Hown id' b o (o0 & Hb & ->)%with_owner_lookup. destruct (Hown _ _ _ Hb) as [Hid Ho].
  split; [done|]. rewrite elem_of_cons. case_decide; [tauto|]. tauto.
Qed.

(** *** Histories *)
Definition stream_user (users : Buffer → Z) (o : stream_obs) : Buffer → Z :=
  match o with
  | Locked b => add_user b 1 users
  | Unlocked b => add_user b (-1) users
  | _ => users
  end.
Definition locks_of (h : list stream_obs) : Buffer → Z := foldl stream_user (λ _, 0) h.
Definition frames_posted (h : list stream_obs) : list Size :=
  omap (λ o, match o with FramePosted sz => Some sz | _ => None end) h.

Lemma locks_sink users (t : list sink_call) : foldl stream_user users (Sink <$> t) = users.
Proof. by induction t. Qed.
Lemma frames_sink (t : list sink_call) : frames_posted (Sink <$> t) = [].
Proof. unfold frames_posted. by induction t. Qed.
Lemma frames_app h t : frames_posted (h ++ t) = frames_posted h ++ frames_posted t.
Proof. apply omap_app. Qed.

(** What one operation does: the invariant for the locks taken meanwhile, and
    a buffer to show stays available, or becomes so when a frame is posted. *)
Record stream_effect (s s' : Stream) (users : Buffer → Z) (t : list stream_obs) : Prop := {
  fx_inv : stream_inv s' (foldl stream_user users t);
  fx_kept : held (arbiter s) ≠ [] ∨ frames_posted t ≠ [] → held (arbiter s') ≠ []
}.

Lemma stream_effect_refl s users : stream_inv s users → stream_effect s s users [].
Proof. intros ?. constructor; [done|]. cbn. tauto. Qed.

Lemma arbiter_inv_ext a users users' :
  (∀ b, users b = users' b) → arbiter_inv (S := AnySchedule) a users → arbiter_inv a users'.
Proof.
  intros Heq [? ? ? ?]. constructor; [done|..]; intros; rewrite <- Heq in *; auto.
Qed.

(** Running an arbiter operation whose effect on the arbiter is known. *)
Lemma arbiter_op_effect {A} (m : prog (Arbiter AnySchedule) client_call A) s users users' v a' sent :
  stream_inv s users → m (arbiter s) = Run v a' (SendBuffer <$> sent) →
  arbiter_step (arbiter s) a' users' sent →
  (∀ k, preserves (keeps (λ sch, mode_of sch = k)) m) →
  ∃ s', in_arbiter m s = Run v s' (Sink <$> updates sent (map s)) ∧ arbiter s' = a' ∧
    stream_inv s' users' ∧ (held (arbiter s) ≠ [] → held (arbiter s') ≠ []).
Proof.
  intros [Harb Hown Hmode] Hm [Hinv' _ Hp Hne] Hkeep. eexists.
  split_and!; [by apply in_arbiter_run|done| |done].
  specialize (Hkeep (mode_of (scheduled s)) (arbiter s) [] eq_refl). rewrite Hm in Hkeep.
  constructor; [done| |cbn; rewrite Hmode; symmetry; exact Hkeep].
  apply (owns_mark _ (held (arbiter s))); [done|apply (inv_nodup _ _ Harb)|by rewrite Hp].
Qed.

Lemma lock_effect s users id :
  stream_inv s users → room (arbiter s) →
  match held (arbiter s) with
  | [] => lock_compositor_buffer id s =
      Run (Throw (logic_error "no buffer to give to compositor")) s [SwapUnblocked]
  | _ :: _ => ∃ b s' t, lock_compositor_buffer id s = Run (Ret b) s' (SwapUnblocked :: (Sink <$> t)) ∧
      stream_inv s' (add_user b 1 users) ∧ held (arbiter s') ≠ []
  end.
Proof.
  intros Hinv Hroom. pose proof (compositor_acquire_spec _ _ id (si_arbiter _ _ Hinv) Hroom) as Hs.
  unfold lock_compositor_buffer. rewrite pbind_emit. destruct (held (arbiter s)) as [|i l] eqn:Hh.
  - rewrite (in_arbiter_run _ s _ (arbiter s) [] Hs). unfold updates.
    by destruct s as [? ? [? []] ? ? ?].
  - destruct Hs as (b & a' & sent & Hrun & Hstep).
    destruct (arbiter_op_effect _ s users _ _ _ _ Hinv Hrun Hstep) as (s' & -> & _ & Hinv' & Hne).
    { intros k. apply keeps_compositor_acquire. apply next_buffer_mode. }
    exists b, s'. eexists. split_and!; [done|done|]. apply Hne. by rewrite Hh.
Qed.

Lemma unlock_effect s users b :
  stream_inv s users → 0 < users b →
  ∃ s' t, destroy_compositor_buffer b s = Run (Ret tt) s' (Sink <$> t) ∧
    stream_inv s' (add_user b (-1) users) ∧ (held (arbiter s) ≠ [] → held (arbiter s') ≠ []).
Proof.
  intros Hinv Hb. destruct (compositor_release_spec _ _ b (si_arbiter _ _ Hinv) Hb) as (a' & sent & Hrun & Hstep).
  destruct (arbiter_op_effect _ s users _ _ _ _ Hinv Hrun Hstep) as (s' & Hr & _ & Hinv' & Hne).
  { intros k. apply keeps_compositor_release. }
  unfold destroy_compositor_buffer. rewrite Hr. by do 2 eexists.
Qed.

Lemma snapshot_effect s users :
  stream_inv s users → room (arbiter s) →
  match held (arbiter s) with
  | [] => with_most_recent_buffer_do s =
      Run (Throw (logic_error "no buffer to give to snapshotter")) s []
  | _ :: _ => ∃ b s' t, with_most_recent_buffer_do s = Run (Ret tt) s' (Snapshot b :: (Sink <$> t)) ∧
      stream_inv s' users ∧ held (arbiter s') ≠ []
  end.
Proof.
  intros Hinv Hroom. pose proof (snapshot_acquire_spec _ _ (si_arbiter _ _ Hinv) Hroom) as Hs.
  unfold with_most_recent_buffer_do. destruct (held (arbiter s)) as [|i l] eqn:Hh.
  - apply pbind_throw. rewrite (in_arbiter_run _ s _ (arbiter s) [] Hs). unfold updates.
    by destruct s as [? ? [? []] ? ? ?].
  - destruct Hs as (b & a1 & Hrun & Hstep).
    destruct (arbiter_op_effect _ s users _ _ _ [] Hinv Hrun Hstep) as (s1 & Hr & Ha1 & Hinv1 & Hne).
    { intros k. apply keeps_snapshot_acquire. apply next_buffer_mode. }
    assert (updates [] (map s) = []) as Hu by (unfold updates; by destruct (sink_alive _)).
    rewrite Hu in Hr. rewrite (pbind_silent _ _ _ _ _ Hr), pbind_emit.
    assert (0 < add_user b 1 users b) as Hb.
    { unfold add_user. rewrite decide_True by done. pose proof (inv_range _ _ (si_arbiter _ _ Hinv) b). lia. }
    destruct (snapshot_release_spec _ _ b (si_arbiter _ _ Hinv1) Hb) as (a2 & sent & Hrun2 & Hstep2).
    destruct (arbiter_op_effect _ s1 _ _ _ _ _ Hinv1 Hrun2 Hstep2) as (s2 & Hr2 & _ & [Ha2 Ho2 Hm2] & Hne2).
    { intros k. apply keeps_snapshot_release. }
    exists b, s2. eexists. rewrite Hr2. split_and!; [done| |apply Hne2, Hne; by rewrite Hh].
    constructor; [|done|done]. eapply arbiter_inv_ext; [|exact Ha2].
    intros b'. unfold add_user. case_decide; lia.
Qed.

(** A new schedule with the old contents, less those sent back. *)
Lemma reschedule_inv s users sch' sent md sz p assoc :
  stream_inv s users →
  buffer_id <$> contents (scheduled s) ≡ₚ (buffer_id <$> contents sch') ++ sent →
  md = mode_of sch' →
  stream_inv (mkStream md (arbiter (replace_schedule sch' s)) (mark_client sent (map s)) sz p assoc) users.
Proof.
  intros [Harb Hown Hmode] Hp ->. pose proof (inv_nodup _ _ Harb) as Hnd. unfold held, scheduled in *.
  rewrite Hp, app_assoc in Hnd. constructor; [|cbn|done].
  - apply set_contents_inv; [done|]. by apply NoDup_app in Hnd as [? _].
  - unfold held. cbn. apply (owns_mark _ _ _ _ Hown); [by rewrite Hp, app_assoc|].
    by rewrite Hp, app_assoc.
Qed.

Lemma advance_schedule_run (a : Arbiter AnySchedule) :
  match contents (schedule a) with
  | [] => advance_schedule a = Run (Ret tt) a []
  | b :: rest => ∃ sch', contents sch' = rest ∧
      advance_schedule a =
        Run (Ret tt) (mkArbiter (mode a) (mkEntry b 0 :: onscreen_buffers a) ∅ sch') []
  end.
Proof.
  unfold advance_schedule, push_next_buffer. rewrite pbind_get, num_scheduled_contents.
  pose proof (next_buffer_contents (schedule a)) as Hn.
  destruct (contents (schedule a)) as [|b rest]; [done|]. destruct Hn as (sch' & Hn & Hc).
  exists sch'. split; [done|]. rewrite bool_decide_true by (cbn; lia). cbn [pwhen].
  unfold pbind, pget. cbn [value post trace]. by rewrite Hn.
Qed.

Lemma removelast_last_ids (l : list Buffer) b :
  last l = Some b → l = removelast l ++ [b] ∧ (buffer_id <$> l) = (buffer_id <$> removelast l) ++ [buffer_id b].
Proof. intros [l' ->]%last_Some. rewrite removelast_last, fmap_app. by split. Qed.

Lemma schedule_into_empty sch b :
  contents sch = [] → ∃ sch', schedule_buffer b sch = (sch', []) ∧ contents sch' = [b] ∧ mode_of sch' = mode_of sch.
Proof.
  intros Hc. destruct (schedule_buffer_contents b sch) as (dropped & kept & Hdk & Hc' & Hsent).
  { rewrite Hc. apply not_elem_of_nil. }
  rewrite Hc in Hdk. symmetry in Hdk. apply app_nil in Hdk as [-> ->].
  exists (schedule_buffer b sch).1. destruct (schedule_buffer b sch) as [sch' sent] eqn:Hs. cbn in *. subst sent.
  split_and!; [done|done|]. destruct sch as [q|d]; cbn in Hs.
  - destruct (queueing_schedule b q). by simplify_eq.
  - destruct (dropping_schedule b d). by simplify_eq.
Qed.

Lemma updates_nil m : updates [] m = [].
Proof. unfold updates. by destruct (sink_alive m). Qed.

Lemma drop_old_spec s users :
  stream_inv s users →
  let q := contents (scheduled s) in
  ∃ s', drop_old_buffers s = Run (Ret tt) s' (Sink <$> updates (buffer_id <$> removelast q) (map s)) ∧
    contents (scheduled s') = [] ∧
    onscreen_buffers (arbiter s') = match last q with Some b => [mkEntry b 0] | None => [] end ++ onscreen_buffers (arbiter s) ∧
    stream_inv s' users.
Proof.
  intros Hinv q. unfold drop_old_buffers. destruct (take_scheduled_run s) as (sch0 & Hc0 & Hm0 & Ht).
  rewrite (pbind_silent _ _ _ _ _ Ht). fold q. pose proof (si_mode _ _ Hinv) as Hmode.
  destruct (last q) as [b|] eqn:Hlast.
  - destruct (removelast_last_ids q b Hlast) as [Hq Hids].
    destruct (schedule_into_empty sch0 b Hc0) as (sch1 & Hs1 & Hc1 & Hm1).
    assert (stream_schedule b (replace_schedule sch0 s) = Run (Ret tt) (replace_schedule sch1 s) []) as Hsch.
    { unfold stream_schedule. rewrite pbind_get.
      change (scheduled (replace_schedule sch0 s)) with sch0. unfold pbind.
      rewrite (schedule_on_run _ _ (replace_schedule sch0 s) _ _ Hs1), updates_nil.
      cbn. by destruct s as [? ? ? ? ? ?]. }
    rewrite pbind_assoc, (pbind_silent _ _ _ _ _ Hsch), pbind_ret_l. unfold pbind at 1.
    rewrite <- (pfor_fmap buffer_id (removelast q) (λ id, in_map (send_buffer id))), sends_run.
    cbn [value post trace].
    set (s2 := set_map _ _). assert (stream_inv s2 users) as Hinv2.
    { apply (reschedule_inv s users sch1 _ (schedule_mode s) (stream_size s) _ _ Hinv); [|by rewrite Hmode, <- Hm0].
      fold q. rewrite Hids, Hc1. cbn. apply Permutation_app_comm. }
    pose proof (advance_schedule_run (arbiter s2)) as Hadv.
    change (schedule (arbiter s2)) with sch1 in Hadv. rewrite Hc1 in Hadv.
    destruct Hadv as (sch2 & Hc2 & Hadv).
    destruct (advance_schedule_spec _ _ (si_arbiter _ _ Hinv2)) as (a2 & Hrun2 & Hstep2 & _).
    destruct (arbiter_op_effect _ s2 users _ _ _ [] Hinv2 Hrun2 Hstep2) as (s3 & Hr3 & Ha3 & Hinv3 & _).
    { intros k. apply keeps_advance_schedule, next_buffer_mode. }
    rewrite Hr3, updates_nil. cbn [value post trace]. exists s3. rewrite app_nil_r.
    rewrite Hadv in Hrun2. injection Hrun2 as Hrun2.
    unfold scheduled. rewrite Ha3, <- Hrun2. split_and!; done.
  - apply last_None in Hlast. rewrite Hlast, pbind_ret_l.
    cbn [pfor removelast fmap list_fmap]. rewrite pbind_ret_l.
    pose proof (advance_schedule_run (arbiter (replace_schedule sch0 s))) as Hadv.
    change (schedule (arbiter (replace_schedule sch0 s))) with sch0 in Hadv. rewrite Hc0 in Hadv. rewrite (in_arbiter_run _ _ _ _ [] Hadv), !updates_nil.
    eexists. split_and!; [done|done|done|].
    apply (reschedule_inv s users sch0 [] (schedule_mode s) (stream_size s) _ _ Hinv); [|by rewrite Hmode, <- Hm0].
    fold q. by rewrite Hlast, Hc0.
Qed.

(** The contents of the schedule of mode [md] that takes over [q]. *)
Definition carried (md : ScheduleMode) (q : list Buffer) : list Buffer :=
  match md with ModeQueueing => q | ModeDropping => option_list (last q) end.
Definition let_go (md : ScheduleMode) (q : list Buffer) : list Buffer :=
  match md with ModeQueueing => [] | ModeDropping => removelast q end.

Lemma carried_let_go md q : buffer_id <$> q ≡ₚ (buffer_id <$> carried md q) ++ (buffer_id <$> let_go md q).
Proof.
  destruct md; cbn; [by rewrite app_nil_r|]. destruct (last q) as [b|] eqn:Hl; cbn.
  - destruct (removelast_last_ids q b Hl) as [_ ->]. rewrite Permutation_app_comm. done.
  - apply last_None in Hl. by subst q.
Qed.

Definition empty_schedule (md : ScheduleMode) : AnySchedule :=
  match md with
  | ModeQueueing => Queueing (mkQueueing [])
  | ModeDropping => Dropping (mkDropping None)
  end.

Lemma contents_NoDup s users : stream_inv s users → NoDup (contents (scheduled s)).
Proof.
  intros Hinv. pose proof (inv_nodup _ _ (si_arbiter _ _ Hinv)) as Hnd. unfold held in Hnd.
  apply NoDup_app in Hnd as (_ & _ & Hnd). by eapply NoDup_fmap_1.
Qed.

Lemma schedule_all_spec md l s :
  NoDup l →
  ∃ sch', contents sch' = carried md l ∧ mode_of sch' = md ∧
    schedule_all (empty_schedule md) l s =
      Run (Ret sch') (set_map (mark_client (buffer_id <$> let_go md l) (map s)) s)
        (Sink <$> updates (buffer_id <$> let_go md l) (map s)).
Proof.
  intros Hnd. destruct md; cbn [empty_schedule carried let_go].
  - exists (Queueing (mkQueueing l)). split_and!; [done|done|].
    rewrite (schedule_all_queueing (mkQueueing [])) by done. cbn [fmap list_fmap]. rewrite updates_nil.
    by destruct s.
  - exists (Dropping (mkDropping (last l))). split_and!; [done|done|].
    assert (buffer_id <$> removelast l = removelast (buffer_id <$> l)) as ->.
    { clear. induction l as [|x l IH]; [done|]. destruct l; [done|]. cbn in *. by f_equal. }
    exact (schedule_all_dropping (mkDropping None) l s Hnd).
Qed.

Lemma transition_spec s users md :
  stream_inv s users →
  let q := contents (scheduled s) in
  ∃ sch', contents sch' = carried md q ∧ mode_of sch' = md ∧
    transition_schedule (empty_schedule md) s =
      Run (Ret tt) (set_map (mark_client (buffer_id <$> let_go md q) (map s)) (replace_schedule sch' s))
        (Sink <$> updates (buffer_id <$> let_go md q) (map s)).
Proof.
  intros Hinv q. destruct (take_scheduled_run s) as (sch0 & _ & _ & Ht).
  destruct (schedule_all_spec md q (replace_schedule sch0 s) (contents_NoDup s users Hinv)) as (sch' & Hc & Hm & Hr).
  exists sch'. split_and!; [done..|]. unfold transition_schedule.
  rewrite (pbind_silent _ _ _ _ _ Ht). fold q. unfold pbind. rewrite Hr. cbn [value post trace].
  set (s1 := set_map _ (replace_schedule sch0 s)).
  assert (set_schedule sch' (arbiter s1) = Run (Ret tt) (arbiter (replace_schedule sch' s)) (SendBuffer <$> [])) as Hss
    by done.
  rewrite (in_arbiter_run _ _ _ _ _ Hss), updates_nil. cbn [value post trace fmap list_fmap]. by rewrite app_nil_r.
Qed.

Lemma framedropping_spec s users dropping :
  stream_inv s users →
  let md := if dropping : bool then ModeDropping else ModeQueueing in
  let q := contents (scheduled s) in
  let sent := if bool_decide (schedule_mode s = md) then [] else buffer_id <$> let_go md q in
  ∃ s', allow_framedropping dropping s = Run (Ret tt) s' (Sink <$> updates sent (map s)) ∧
    contents (scheduled s') = (if bool_decide (schedule_mode s = md) then q else carried md q) ∧
    schedule_mode s' = md ∧ onscreen_buffers (arbiter s') = onscreen_buffers (arbiter s) ∧
    stream_inv s' users.
Proof.
  intros Hinv md q. unfold allow_framedropping. rewrite pbind_get.
  destruct (bool_decide (schedule_mode s = md)) eqn:Hmd; cbn zeta; bool_to_prop.
  - exists s. rewrite updates_nil. split_and!; try done.
    unfold md in Hmd. rewrite Hmd. by destruct dropping.
  - destruct (transition_spec s users md Hinv) as (sch' & Hc & Hm & Hr). fold q in Hr, Hc.
    set (sent := buffer_id <$> let_go md q) in *.
    exists (set_schedule_mode md (set_map (mark_client sent (map s)) (replace_schedule sch' s))).
    split_and!; [|done|done|done|].
    + fold sent in Hr. clearbody sent. unfold md in *. clear Hc Hm md.
      destruct dropping, (schedule_mode s); try done; cbn [andb negb];
        [rewrite (bool_decide_true (ModeQueueing = ModeQueueing)) by done
        |rewrite (bool_decide_true (ModeDropping = ModeDropping)) by done]; cbn [pwhen];
        rewrite (pbind_run _ _ _ _ _ _ _ Hr eq_refl); cbn [value post trace pmodify]; by rewrite app_nil_r.
    + apply (reschedule_inv s users sch' sent md); [done| |done].
      rewrite Hc. apply carried_let_go.
Qed.

Lemma drop_frame_spec s users :
  stream_inv s users →
  match contents (scheduled s) with
  | b :: ((_ :: _) as rest) =>
      ∃ s', drop_frame s = Run (Ret tt) s' (Sink <$> updates [buffer_id b] (map s)) ∧
        contents (scheduled s') = rest ∧ stream_inv s' users
  | _ => drop_frame s = Run (Ret tt) s []
  end.
Proof.
  intros Hinv. unfold drop_frame. rewrite pbind_get, num_scheduled_contents.
  pose proof (stream_next_buffer_run s) as Hn.
  destruct (contents (scheduled s)) as [|b [|b' rest]] eqn:Hq; [done|done|].
  rewrite bool_decide_true by (cbn; lia). cbn [pwhen].
  destruct Hn as (sch' & Hc & Hm & Hn). rewrite (pbind_silent _ _ _ _ _ Hn), in_map_send.
  eexists. split_and!; [done|exact Hc|].
  apply (reschedule_inv s users sch' _ (schedule_mode s) (stream_size s) _ _ Hinv);
    [|by rewrite (si_mode _ _ Hinv)].
  rewrite Hq, Hc. cbn. rewrite Permutation_swap. solve_Permutation.
Qed.

Lemma submit_unknown b s :
  buffers (map s) !! buffer_id b = None →
  submit_buffer (Some b) s = Run (Throw (logic_error "cannot find buffer by id")) (set_posted s) [].
Proof.
  intros Hb. unfold submit_buffer. rewrite pbind_modify.
  assert (with_owner (buffer_id b) server (map s) = map s) as Hw by (unfold with_owner; by rewrite Hb).
  rewrite (pbind_silent _ _ _ tt (set_posted s)); cycle 1.
  { rewrite (in_map_run _ (set_posted s) _ _ _ (receive_buffer_run _ _)). cbn [map set_posted]. rewrite Hw.
    by destruct s. }
  apply pbind_throw. rewrite (in_map_run _ _ (Throw (logic_error "cannot find buffer by id")) (map s) []).
  - by destruct s.
  - unfold buffer_at, checked_buffers_find. cbn. unfold pbind, pget. cbn. by rewrite Hb.
Qed.

Lemma submit_spec b b' s users :
  stream_inv s users → buffers (map s) !! buffer_id b = Some (b', client) →
  ∃ s' t t', submit_buffer (Some b) s = Run (Ret tt) s' ((Sink <$> t) ++ t' ++ [FramePosted (buffer_size b)]) ∧
    (t' = [] ∨ t' = [SwapNowBlocking]) ∧ stream_inv s' users ∧ held (arbiter s') ≠ [] ∧
    first_frame_posted s' = true.
Proof.
  intros [Harb Hown Hmode] Hb. destruct (Hown _ _ _ Hb) as [Hid Ho].
  set (id := buffer_id b) in *. set (s1 := set_map (with_owner id server (map s)) (set_posted s)).
  unfold submit_buffer. rewrite pbind_modify.
  rewrite (pbind_silent _ _ _ tt s1); [|by rewrite (in_map_run _ (set_posted s) _ _ _ (receive_buffer_run _ _))].
  rewrite (pbind_silent _ _ _ b' s1); cycle 1.
  { rewrite (in_map_run _ s1 (Ret b') (map s1) []); [done|].
    unfold buffer_at, checked_buffers_find, pbind, pget. cbn. by rewrite (with_owner_same _ _ _ _ _ Hb). }
  assert (buffer_id b' ∉ held (arbiter s)) as Hfresh by (rewrite Hid; by intros ?%Ho).
  destruct (schedule_buffer b' (scheduled s)) as [sch' sent] eqn:Hs.
  destruct (schedule_step _ _ b' sch' sent Harb Hfresh Hs) as (Harb' & _ & Hp & Hne).
  set (s2 := set_map (mark_client sent (map s1)) (replace_schedule sch' s1)).
  assert (stream_schedule b' s1 = Run (Ret tt) s2 (Sink <$> updates sent (map s1))) as Hsch.
  { unfold stream_schedule. rewrite pbind_get. change (scheduled s1) with (scheduled s).
    unfold pbind. rewrite (schedule_on_run _ _ s1 _ _ Hs). cbn. by rewrite app_nil_r. }
  rewrite (pbind_run _ _ _ _ _ _ _ Hsch eq_refl), pbind_get.
  set (blocking := negb (bool_decide (associated_buffers s2 = ∅)) && _).
  exists s2, (updates sent (map s1)), (if blocking then [SwapNowBlocking] else []).
  split_and!; [by destruct blocking|destruct blocking; [by right|by left]| |exact Hne|done].
  - constructor; [exact Harb'| |].
    + apply (owns_mark _ (id :: held (arbiter s))); [by apply owns_receive| |].
      * constructor; [by rewrite <- Hid|apply (inv_nodup _ _ Harb)].
      * rewrite <- Hid, <- Hp. done.
    + cbn. rewrite Hmode. unfold scheduled in *. destruct (schedule (arbiter s)) as [q|d]; cbn in Hs.
      * destruct (queueing_schedule b' q). by simplify_eq.
      * destruct (dropping_schedule b' d). by simplify_eq.
Qed.

(** ** A stream and its users as a state machine

    The client allocates buffers under fresh ids, and submits only buffers it
    owns (an id it never allocated, or has removed, is an error the stream
    answers); a compositor releases what it locked. *)
Section machine.
Context (sink_add : Buffer → outcome unit).

Inductive stream_op :=
  | OpAllocate (b : Buffer)
  | OpRemove (id : Z)
  | OpSubmit (b : option Buffer)
  | OpLock (id : Z)
  | OpUnlock (b : Buffer)
  | OpSnapshot
  | OpFramedropping (dropping : bool)
  | OpDropOld
  | OpDropFrame
  | OpResize (sz : Size)
  | OpAssociate (id : Z)
  | OpDisassociate (id : Z).

Definition stream_exec (op : stream_op) : M unit :=
  match op with
  | OpAllocate b => do* in_map (add_buffer sink_add b) in pret tt
  | OpRemove id => in_map (remove_buffer id)
  | OpSubmit b => submit_buffer b
  | OpLock id => let* b := lock_compositor_buffer id in pemit (Locked b)
  | OpUnlock b => do* pemit (Unlocked b) in destroy_compositor_buffer b
  | OpSnapshot => with_most_recent_buffer_do
  | OpFramedropping dropping => allow_framedropping dropping
  | OpDropOld => drop_old_buffers
  | OpDropFrame => drop_frame
  | OpResize sz => resize sz
  | OpAssociate id => associate_buffer id
  | OpDisassociate id => disassociate_buffer id
  end.

Definition stream_allowed (s : Stream) (h : list stream_obs) (op : stream_op) : bool :=
  match op with
  | OpAllocate b => bool_decide (buffers (map s) !! buffer_id b = None ∧ buffer_id b ∉ held (arbiter s))
  | OpSubmit (Some b) => negb (bool_decide (owner_of (map s) (buffer_id b) = Some server))
  | OpLock _ | OpSnapshot =>
      forallb (λ e, bool_decide (use_count e < 2 ^ 32 - 1)) (onscreen_buffers (arbiter s))
  | OpUnlock b => bool_decide (0 < locks_of h b)
  | _ => true
  end.

Definition stream_machine : machine := {|
  m_state := Stream;
  m_op := stream_op;
  m_obs := stream_obs;
  m_init s := ∃ alive sz, s = new_stream (mkBufferMap ∅ alive) sz;
  m_allowed := stream_allowed;
  m_exec := stream_exec
|}.

Lemma allocate_effect b s users :
  stream_inv s users → buffers (map s) !! buffer_id b = None → buffer_id b ∉ held (arbiter s) →
  let r := stream_exec (OpAllocate b) s in stream_effect s (post r) users (trace r).
Proof.
  intros [Harb Hown Hmode] Hb Hheld r.
  assert (∃ v t, r = Run v (set_map (set_buffers (<[buffer_id b := (b, client)]> (buffers (map s))) (map s)) s)
    (Sink <$> t)) as (v & t & ->).
  { set (m' := set_buffers _ _).
    assert (∃ v t, add_buffer sink_add b (map s) = Run v m' t) as (v & t & Hadd).
    { unfold add_buffer. rewrite pbind_modify, pbind_get. fold m'. destruct (sink_alive m').
      - rewrite pbind_emit. destruct (sink_add b); by do 2 eexists.
      - by do 2 eexists. }
    unfold r. cbn [stream_exec]. unfold pbind. rewrite (in_map_run _ _ _ _ _ Hadd). cbn [value post trace].
    destruct v as [v|e]; [exists (Ret tt)|exists (Throw e)]; exists t; cbn; by rewrite ?app_nil_r. }
  constructor; cbn [post trace]; rewrite ?frames_sink; [|by intros [?|?]].
  rewrite locks_sink. constructor; [done| |done]. intros id b' o. cbn.
  destruct (decide (id = buffer_id b)) as [->|Hne].
  - rewrite lookup_insert_eq. intros; simplify_eq. by split.
  - rewrite lookup_insert_ne by done. apply Hown.
Qed.

Lemma remove_effect id s users :
  stream_inv s users →
  let r := stream_exec (OpRemove id) s in stream_effect s (post r) users (trace r).
Proof.
  intros [Harb Hown Hmode] r.
  assert (∃ v t m', r = Run v (set_map m' s) (Sink <$> t) ∧ (m' = map s ∨ buffers m' = delete id (buffers (map s))))
    as (v & t & m' & -> & Hm').
  { unfold r. cbn [stream_exec].
    assert (∃ v m' t, remove_buffer id (map s) = Run v m' t ∧ (m' = map s ∨ buffers m' = delete id (buffers (map s))))
      as (v & m' & t & Hr & Hm').
    { rewrite remove_buffer_run. destruct (buffers (map s) !! id) as [it|];
        do 3 eexists; (split; [done|]); [by right|by left]. }
    exists v, t, m'. split; [by apply in_map_run|done]. }
  constructor; cbn [post trace]; rewrite ?frames_sink; [|by intros [?|?]].
  rewrite locks_sink. constructor; [done| |done]. intros id' b' o. cbn.
  destruct Hm' as [-> | ->]; [apply Hown|]. intros [_ Hl]%lookup_delete_Some. by apply Hown.
Qed.

(** An operation that only sends buffers back. *)
Lemma sink_effect s s' users (t : list sink_call) :
  stream_inv s' users → (held (arbiter s) ≠ [] → held (arbiter s') ≠ []) →
  stream_effect s s' users (Sink <$> t).
Proof.
  intros Hinv Hne. constructor; [by rewrite locks_sink|]. rewrite frames_sink. by intros [?|?]; auto.
Qed.

Lemma held_contents s s' :
  onscreen_buffers (arbiter s') = onscreen_buffers (arbiter s) →
  (contents (scheduled s) ≠ [] → contents (scheduled s') ≠ []) →
  held (arbiter s) ≠ [] → held (arbiter s') ≠ [].
Proof.
  unfold held, scheduled. intros -> Hc Hne [Ho Hk]%app_nil. apply fmap_nil_inv in Hk.
  rewrite Ho in Hne. apply Hc; [|done]. intros Heq. apply Hne. by rewrite Heq.
Qed.

Lemma stream_exec_effect s h op :
  stream_inv s (locks_of h) → stream_allowed s h op = true →
  stream_effect s (post (stream_exec op s)) (locks_of h) (trace (stream_exec op s)).
Proof.
  intros Hinv Hok. pose proof Hinv as [Harb Hown Hmode].
  destruct op as [b|id|[b|]|id|b| |dropping| | |sz|id|id]; cbn [stream_allowed] in *.
  - apply bool_decide_eq_true in Hok as [? ?]. by apply allocate_effect.
  - by apply remove_effect.
  - cbn [stream_exec]. destruct (buffers (map s) !! buffer_id b) as [[b' o]|] eqn:Hb.
    + assert (o = client) as ->.
      { destruct o; [|done]. unfold owner_of in Hok. rewrite Hb in Hok. by rewrite bool_decide_true in Hok. }
      destruct (submit_spec b b' s _ Hinv Hb) as (s' & t & t' & -> & Ht' & Hinv' & Hne & _).
      constructor; cbn [post trace]; [|done]. rewrite foldl_app, locks_sink. by destruct Ht' as [-> | ->].
    + rewrite (submit_unknown _ _ Hb). constructor; cbn; [by constructor|tauto].
  - by apply stream_effect_refl.
  - apply room_allowed in Hok. pose proof (lock_effect s _ id Hinv Hok) as Hs. cbn [stream_exec]. unfold pbind.
    destruct (held (arbiter s)) eqn:Hh.
    + rewrite Hs. constructor; cbn; [done|]. rewrite Hh. tauto.
    + destruct Hs as (b & s' & t & -> & Hinv' & Hne). cbn [value post trace pemit].
      constructor; [|done]. rewrite foldl_app. cbn [foldl stream_user]. by rewrite locks_sink.
  - apply bool_decide_eq_true in Hok. destruct (unlock_effect s _ b Hinv Hok) as (s' & t & Hr & Hinv' & Hne).
    cbn [stream_exec]. rewrite pbind_emit, Hr. constructor; cbn [value post trace foldl].
    + by rewrite locks_sink.
    + cbn. rewrite frames_sink. tauto.
  - apply room_allowed in Hok. pose proof (snapshot_effect s _ Hinv Hok) as Hs. cbn [stream_exec].
    destruct (held (arbiter s)) eqn:Hh.
    + rewrite Hs. constructor; cbn; [done|]. rewrite Hh. tauto.
    + destruct Hs as (b & s' & t & -> & Hinv' & Hne). constructor; [|done]. cbn [foldl post trace].
      by rewrite locks_sink.
  - destruct (framedropping_spec s _ dropping Hinv) as (s' & Hr & Hc & _ & Hon & Hinv').
    cbn [stream_exec]. rewrite Hr. apply sink_effect; [done|]. apply held_contents; [done|].
    intros Hne Hnil. cbn [post] in Hnil. rewrite Hc in Hnil. revert Hne Hnil.
    case_bool_decide; [done|]. destruct dropping; cbn; [|done].
    intros Hne Hl. apply Hne. by destruct (last _) eqn:Hlast; [|apply last_None].
  - destruct (drop_old_spec s _ Hinv) as (s' & Hr & Hc & Hon & Hinv'). cbn [stream_exec]. rewrite Hr.
    apply sink_effect; [done|]. cbn [post]. unfold held. rewrite Hon.
    fold (scheduled s) (scheduled s'). rewrite Hc. destruct (last _) eqn:Hlast; [done|].
    apply last_None in Hlast. by rewrite Hlast.
  - pose proof (drop_frame_spec s _ Hinv) as Hs. cbn [stream_exec].
    destruct (contents (scheduled s)) as [|b [|b' rest]] eqn:Hq; [rewrite Hs; by apply stream_effect_refl..|].
    destruct Hs as (s' & -> & Hc & Hinv'). apply sink_effect; [done|]. cbn [post]. intros _ Hnil.
    apply app_nil in Hnil as [_ Hnil]. fold (scheduled s') in Hnil. by rewrite Hc in Hnil.
  - constructor; cbn; [by constructor|tauto].
  - constructor; cbn; [by constructor|tauto].
  - constructor; cbn; [by constructor|tauto].
Qed.

Lemma stream_reachable s h :
  reachable stream_machine s h →
  stream_inv s (locks_of h) ∧ (frames_posted h ≠ [] → held (arbiter s) ≠ []).
Proof.
  revert s h. apply (reachable_invariant stream_machine); cbn.
  - intros s (alive & sz & ->). split; [|done]. constructor; [|by intros ? ? ? ?|done].
    constructor; cbn; [constructor|by intros ? ?%elem_of_nil|done|lia].
  - intros s h op _ [Hinv Hne] Hok.
    destruct (stream_exec_effect s h op Hinv Hok) as [Hinv' Hkept].
    unfold locks_of. rewrite foldl_app. split; [done|]. rewrite frames_app.
    intros Hf. apply Hkept. destruct (frames_posted h); [by right|left; by apply Hne].
Qed.

(** ** Properties *)


(** C3. From the first frame a stream posts on, compositors and snapshotters
    always find a buffer, through changes of the frame dropping mode, dropped
    frames and buffers removed by the client. *)
Theorem stream_always_presentable s h id :
  reachable stream_machine s h → frames_posted h ≠ [] → room (arbiter s) →
  (∃ b, value (lock_compositor_buffer id s) = Ret b) ∧ value (with_most_recent_buffer_do s) = Ret tt.
Proof.
  intros (Hinv & Hne)%stream_reachable Hf Hroom. specialize (Hne Hf).
  pose proof (lock_effect s _ id Hinv Hroom) as Hl. pose proof (snapshot_effect s _ Hinv Hroom) as Hsn.
  destruct (held (arbiter s)); [done|].
  destruct Hl as (b & ? & ? & -> & _), Hsn as (? & ? & ? & -> & _). split; [by eexists|done].
Qed.

(** [drop_old_buffers] puts the newest scheduled buffer on screen in front
    of the others, sends every older one back to the client in order and leaves
    nothing scheduled. *)
Theorem stream_drop_old_buffers s h :
  reachable stream_machine s h →
  let q := contents (scheduled s) in
  let r := drop_old_buffers s in
  value r = Ret tt ∧
  trace r = Sink <$> updates (buffer_id <$> removelast q) (map s) ∧
  contents (scheduled (post r)) = [] ∧
  onscreen_buffers (arbiter (post r)) =
    match last q with Some b => [mkEntry b 0] | None => [] end ++ onscreen_buffers (arbiter s).
Proof.
  intros (Hinv & _)%stream_reachable q r. destruct (drop_old_spec s _ Hinv) as (s' & Hr & ? & ? & _).
  unfold r. by rewrite Hr.
Qed.

(** Changing the frame dropping mode carries the scheduled buffers over:
    all of them, in order, to a queueing schedule; only the newest to a
    dropping schedule, the others going back to the client; setting the mode it
    already has does nothing. *)
Theorem stream_allow_framedropping s h dropping :
  reachable stream_machine s h →
  let q := contents (scheduled s) in
  let r := allow_framedropping dropping s in
  value r = Ret tt ∧ framedropping (post r) = dropping ∧
  contents (scheduled (post r)) = (if dropping then option_list (last q) else q) ∧
  trace r = Sink <$> updates (if dropping then buffer_id <$> removelast q else []) (map s) ∧
  (framedropping s = dropping → post r = s).
Proof.
  intros (Hinv & _)%stream_reachable q r.
  destruct (framedropping_spec s _ dropping Hinv) as (s' & Hr & Hc & Hm & _ & _). unfold r. rewrite Hr.
  assert (schedule_mode s = ModeDropping → contents (scheduled s) = option_list (last (contents (scheduled s))) ∧
    removelast (contents (scheduled s)) = []) as Hdrop.
  { intros Hmd. rewrite (si_mode _ _ Hinv) in Hmd. destruct (scheduled s) as [?|[[]]]; done. }
  cbn [value post trace]. fold q in Hc, Hdrop |- *. unfold framedropping. rewrite Hm.
  split_and!; [done|by destruct dropping| | |].
  - rewrite Hc. destruct dropping; case_bool_decide as Hmd; try done. by apply Hdrop.
  - f_equal. destruct dropping; case_bool_decide as Hmd; try done. destruct (Hdrop Hmd) as [_ ->]. done.
  - intros Hf. assert (post (allow_framedropping dropping s) = s) as Hs; [|by rewrite Hr in Hs].
    unfold allow_framedropping. rewrite pbind_get. subst dropping. by destruct (schedule_mode s).
Qed.
End machine.

(** *** Witnesses *)
Definition stream_example : Stream := new_stream (mkBufferMap ∅ true) (Sz 4 3).
Definition stream_example_ops : list stream_op :=
  [OpAllocate (example_buffer 1); OpAssociate 1; OpAllocate (example_buffer 2); OpAssociate 2;
   OpAllocate (example_buffer 3); OpSubmit (Some (example_buffer 1)); OpSubmit (Some (example_buffer 2));
   OpLock 10; OpSubmit (Some (example_buffer 3))].
Definition stream_example_run : Stream * list stream_obs :=
  default (stream_example, []) (run_ops (stream_machine (λ _, Ret tt)) stream_example_ops stream_example []).

Lemma stream_example_reachable :
  reachable (stream_machine (λ _, Ret tt)) stream_example_run.1 stream_example_run.2.
Proof.
  apply (run_ops_from_init (stream_machine (λ _, Ret tt)) stream_example_ops stream_example).
  - by exists true, (Sz 4 3).
  - by vm_compute.
Qed.


Lemma stream_always_presentable_witness :
  ∃ b, value (lock_compositor_buffer 11 stream_example_run.1) = Ret b.
Proof.
  refine (proj1 (stream_always_presentable _ _ _ 11 stream_example_reachable _ _)); [by vm_compute|].
  apply (bool_decide_unpack (Forall _ _)). vm_compute. exact I.
Defined.

Lemma stream_drop_old_buffers_witness :
  contents (scheduled (post (drop_old_buffers stream_example_run.1))) = [] ∧
  buffer_id <$> contents (scheduled stream_example_run.1) = [2; 3].
Proof.
  split; [|by vm_compute].
  exact (proj1 (proj2 (proj2 (stream_drop_old_buffers _ _ _ stream_example_reachable)))).
Defined.

Lemma stream_allow_framedropping_witness :
  framedropping (post (allow_framedropping true stream_example_run.1)) = true.
Proof. exact (proj1 (proj2 (stream_allow_framedropping _ _ _ true stream_example_reachable))). Defined.

(** [has_submitted_buffer] is set before the submitted id is looked up: a
    refused submission leaves a stream that claims a frame and has none. *)
Lemma refused_submission_claims_frame :
  let s := post (submit_buffer (Some (example_buffer 1)) stream_example) in
  has_submitted_buffer s = true ∧
  value (lock_compositor_buffer 10 s) = Throw (logic_error "no buffer to give to compositor").
Proof. by vm_compute. Qed.
