(* ===== verification/BufferVault.v ===== *)
(** The client's buffer vault (src/client/buffer_vault.cpp) and the buffers it
    holds (src/client/buffer.cpp): which buffer the content producer may draw
    into, which goes to the server, and who waits for one. *)

From S2P Require Import Prelude Geometry Float32.

(** ** Data *)
Inductive VaultOwner := Server | Self | ContentProducer | SelfWithContent.
#[export] Instance VaultOwner_eq_dec : EqDecision VaultOwner.
Proof. solve_decision. Defined.

(** A [client::Buffer]; [notify_vault] says whether its callback is still the
    vault's [incoming_buffer]. *)
Record ClientBuffer := mkClientBuffer {
  cb_size : Size;
  owned : bool;
  mapped : bool;
  notify_vault : bool
}.

(** [objects] are the buffers that exist, by rpc id; [surface_map] the ids the
    connection's surface map knows, [None] once it is gone.  A promise is known
    by its ticket, a deferred callback by a number. *)
Record Vault := mkVault {
  objects : gmap Z ClientBuffer;
  surface_map : option (gset Z);
  vbuffers : gmap Z VaultOwner;
  promises : list Z;
  vsize : Size;
  disconnected_ : bool;
  current_buffer_count : Z;
  needed_buffer_count : Z;
  initial_buffer_count : Z;
  last_received_id : Z;
  interval : Z;
  deferred_cb : option Z;
  next_ticket : Z
}.

Inductive vault_obs :=
  | Alloc (sz : Size)
  | Free (id : Z)
  | SubmitCall (id : Z)
  | MarkSubmitted (id : Z)
  | UpdateFrom (id : Z)
  | IncrementAge (id : Z)
  | Fulfilled (ticket id : Z)
  | Broken (ticket : Z)
  | Callback (cb : Z)
  | ExpectResult
  | ResultReceived
  (** a buffer the server just allocated is announced *)
  | Arrived (id : Z)
  (** the content producer gives a buffer back *)
  | Deposited (id : Z).
#[export] Instance vault_obs_eq_dec : EqDecision vault_obs.
Proof. solve_decision. Defined.

#[local] Abbreviation M := (prog Vault vault_obs).

Definition set_objects x v := mkVault x (surface_map v) (vbuffers v) (promises v) (vsize v)
  (disconnected_ v) (current_buffer_count v) (needed_buffer_count v) (initial_buffer_count v)
  (last_received_id v) (interval v) (deferred_cb v) (next_ticket v).
Definition set_surface_map x v := mkVault (objects v) x (vbuffers v) (promises v) (vsize v)
  (disconnected_ v) (current_buffer_count v) (needed_buffer_count v) (initial_buffer_count v)
  (last_received_id v) (interval v) (deferred_cb v) (next_ticket v).
Definition set_vbuffers x v := mkVault (objects v) (surface_map v) x (promises v) (vsize v)
  (disconnected_ v) (current_buffer_count v) (needed_buffer_count v) (initial_buffer_count v)
  (last_received_id v) (interval v) (deferred_cb v) (next_ticket v).
Definition set_promises x v := mkVault (objects v) (surface_map v) (vbuffers v) x (vsize v)
  (disconnected_ v) (current_buffer_count v) (needed_buffer_count v) (initial_buffer_count v)
  (last_received_id v) (interval v) (deferred_cb v) (next_ticket v).
Definition set_vsize x v := mkVault (objects v) (surface_map v) (vbuffers v) (promises v) x
  (disconnected_ v) (current_buffer_count v) (needed_buffer_count v) (initial_buffer_count v)
  (last_received_id v) (interval v) (deferred_cb v) (next_ticket v).
Definition set_disconnected x v := mkVault (objects v) (surface_map v) (vbuffers v) (promises v) (vsize v)
  x (current_buffer_count v) (needed_buffer_count v) (initial_buffer_count v)
  (last_received_id v) (interval v) (deferred_cb v) (next_ticket v).
Definition set_current x v := mkVault (objects v) (surface_map v) (vbuffers v) (promises v) (vsize v)
  (disconnected_ v) x (needed_buffer_count v) (initial_buffer_count v)
  (last_received_id v) (interval v) (deferred_cb v) (next_ticket v).
Definition set_needed x v := mkVault (objects v) (surface_map v) (vbuffers v) (promises v) (vsize v)
  (disconnected_ v) (current_buffer_count v) x (initial_buffer_count v)
  (last_received_id v) (interval v) (deferred_cb v) (next_ticket v).
Definition set_last x v := mkVault (objects v) (surface_map v) (vbuffers v) (promises v) (vsize v)
  (disconnected_ v) (current_buffer_count v) (needed_buffer_count v) (initial_buffer_count v)
  x (interval v) (deferred_cb v) (next_ticket v).
Definition set_interval_field x v := mkVault (objects v) (surface_map v) (vbuffers v) (promises v) (vsize v)
  (disconnected_ v) (current_buffer_count v) (needed_buffer_count v) (initial_buffer_count v)
  (last_received_id v) x (deferred_cb v) (next_ticket v).
Definition set_deferred x v := mkVault (objects v) (surface_map v) (vbuffers v) (promises v) (vsize v)
  (disconnected_ v) (current_buffer_count v) (needed_buffer_count v) (initial_buffer_count v)
  (last_received_id v) (interval v) x (next_ticket v).
Definition set_ticket x v := mkVault (objects v) (surface_map v) (vbuffers v) (promises v) (vsize v)
  (disconnected_ v) (current_buffer_count v) (needed_buffer_count v) (initial_buffer_count v)
  (last_received_id v) (interval v) (deferred_cb v) x.

(** ** client::Buffer *)
Definition absent_buffer : ClientBuffer := mkClientBuffer size0 false false false.
(** A shared pointer to the buffer with this id. *)
Definition object (id : Z) (v : Vault) : ClientBuffer := default absent_buffer (objects v !! id).
Definition set_object (id : Z) (b : ClientBuffer) : M unit :=
  pmodify (λ v, set_objects (<[id := b]> (objects v)) v).

Definition submitted (id : Z) : M unit :=
  let* v := pget in
  let b := object id v in
  if negb (owned b) then pthrow (logic_error "cannot submit unowned buffer")
  else
    do* pemit (MarkSubmitted id) in
    set_object id (mkClientBuffer (cb_size b) false false (notify_vault b)).

Definition map_region (id : Z) : M unit :=
  let* v := pget in
  let b := object id v in
  set_object id (mkClientBuffer (cb_size b) (owned b) true (notify_vault b)).
Definition unmap_region (id : Z) : M unit :=
  let* v := pget in
  let b := object id v in
  set_object id (mkClientBuffer (cb_size b) (owned b) false (notify_vault b)).
Definition ignore_callback (id : Z) : M unit :=
  let* v := pget in
  let b := object id v in
  set_object id (mkClientBuffer (cb_size b) (owned b) (mapped b) false).

(** ** BufferVault *)
Definition alloc_buffer (sz : Size) : M unit := pemit (Alloc sz).
Definition free_buffer (free_id : Z) : M unit := pemit (Free free_id).
Definition realloc_buffer (free_id : Z) (sz : Size) : M unit :=
  do* free_buffer free_id in alloc_buffer sz.

Definition checked_buffer_from_map (id : Z) : M ClientBuffer :=
  let* v := pget in
  match surface_map v with
  | None => pthrow (logic_error "connection resources lost; cannot access buffer")
  | Some ids =>
      if bool_decide (id ∈ ids) then pret (object id v)
      else pthrow (logic_error "no buffer in map")
  end.

(** [find_if] over the map for a buffer of ours with the current size, passing
    over the last one received if asked to. *)
Fixpoint find_self (not_last : bool) (l : list (Z * VaultOwner)) : M (option Z) :=
  match l with
  | [] => pret None
  | (id, owner) :: l' =>
      if bool_decide (owner = Self) then
        let* b := checked_buffer_from_map id in
        let* v := pget in
        if bool_decide (cb_size b = vsize v) && (negb not_last || bool_decide (id ≠ last_received_id v))
        then pret (Some id)
        else find_self not_last l'
      else find_self not_last l'
  end.

Definition available_buffer : M (option Z) :=
  let* v := pget in
  let* it := find_self true (entries (vbuffers v)) in
  match it with
  | Some id => pret (Some id)
  | None => find_self false (entries (vbuffers v))
  end.

(** The first loop of [withdraw]: returns the ids to free. *)
Fixpoint clean_sizes (l : list (Z * VaultOwner)) : M (list Z) :=
  match l with
  | [] => pret []
  | (id, owner) :: l' =>
      let* buffer := checked_buffer_from_map id in
      let* v := pget in
      if bool_decide (owner = Self) && bool_decide (cb_size buffer ≠ vsize v) then
        do* pput (set_current (uint64 (current_buffer_count v - 1)) (set_vbuffers (delete id (vbuffers v)) v)) in
        let* free_ids := clean_sizes l' in
        pret (id :: free_ids)
      else clean_sizes l'
  end.

Definition set_owner (id : Z) (o : VaultOwner) : M unit :=
  pmodify (λ v, set_vbuffers (<[id := o]> (vbuffers v)) v).

(** Returns the future's ticket. *)
Definition withdraw : M Z :=
  let* v := pget in
  if disconnected_ v then pthrow (logic_error "server_disconnected")
  else
    let* free_ids := clean_sizes (entries (vbuffers v)) in
    let* it := available_buffer in
    let* v := pget in
    let ticket := next_ticket v in
    do* pput (set_ticket (ticket + 1) v) in
    do* match it with
        | Some id =>
            do* set_owner id ContentProducer in
            do* checked_buffer_from_map id in
            pemit (Fulfilled ticket id)
        | None =>
            do* pmodify (λ v, set_promises (promises v ++ [ticket]) v) in
            let* v := pget in
            pwhen (bool_decide (current_buffer_count v < needed_buffer_count v))
              (do* pput (set_current (uint64 (current_buffer_count v + 1)) v) in
               alloc_buffer (vsize v))
        end in
    do* pfor free_ids free_buffer in
    pret ticket.

Definition deposit (id : Z) : M unit :=
  let* v := pget in
  if bool_decide (vbuffers v !! id = Some ContentProducer) then
    do* set_owner id SelfWithContent in
    do* checked_buffer_from_map id in
    pemit (IncrementAge id)
  else pthrow (logic_error "buffer cannot be deposited").

(** [wire_transfer_outbound] releases the lock while it talks to the server:
    the part before and the part after are separate steps. *)
Definition outbound_submit (id : Z) : M unit :=
  let* v := pget in
  if bool_decide (vbuffers v !! id = Some SelfWithContent) then
    do* set_owner id Server in
    do* submitted id in
    pemit (SubmitCall id)
  else pthrow (logic_error "buffer cannot be transferred").

Definition outbound_finish (done : Z) : M unit :=
  let* v := pget in
  if disconnected_ v then pthrow (logic_error "server_disconnected")
  else
    let* it := available_buffer in
    match it with
    | Some _ => pemit (Callback done)
    | None => do* pemit ExpectResult in pmodify (set_deferred (Some done))
    end.

Definition wire_transfer_outbound (id done : Z) : M unit :=
  do* outbound_submit id in outbound_finish done.

Definition trigger_callback : M unit :=
  let* v := pget in
  match deferred_cb v with
  | None => pret tt
  | Some cb =>
      do* pput (set_deferred None v) in
      do* pemit (Callback cb) in
      pemit ResultReceived
  end.

(** The tail of [wire_transfer_inbound]: a waiting producer gets the buffer. *)
Definition serve_waiter (buffer_id : Z) : M unit :=
  let* v := pget in
  match promises v with
  | [] => pret tt
  | front :: rest =>
      do* set_owner buffer_id ContentProducer in
      do* pemit (Fulfilled front buffer_id) in
      pmodify (set_promises rest)
  end.

Definition wire_transfer_inbound (buffer_id : Z) : M unit :=
  do* pmodify (set_last buffer_id) in
  let* buffer := checked_buffer_from_map buffer_id in
  let inbound_size := cb_size buffer in
  let* v := pget in
  match vbuffers v !! buffer_id with
  | None =>
      if bool_decide (inbound_size ≠ vsize v) then realloc_buffer buffer_id (vsize v)
      else
        do* set_owner buffer_id Self in
        do* serve_waiter buffer_id in
        trigger_callback
  | Some _ =>
      let should_decrease_count := bool_decide (needed_buffer_count v < current_buffer_count v) in
      if bool_decide (vsize v ≠ cb_size buffer) || should_decrease_count then
        do* pmodify (λ v, set_vbuffers (delete buffer_id (vbuffers v)) v) in
        do* pwhen should_decrease_count (pmodify (λ v, set_current (uint64 (current_buffer_count v - 1)) v)) in
        do* free_buffer buffer_id in
        pwhen (negb should_decrease_count) (alloc_buffer (vsize v))
      else
        do* set_owner buffer_id Self in
        do* serve_waiter buffer_id in
        trigger_callback
  end.

(** [Buffer::received()] and [Buffer::received(package)], which also updates the
    buffer; the callback is the vault's [incoming_buffer] or [ignore_buffer]. *)
Definition received (package : bool) (id : Z) : M unit :=
  let* v := pget in
  let b := object id v in
  do* pwhen (negb (owned b))
    (do* set_object id (mkClientBuffer (cb_size b) true (mapped b) (notify_vault b)) in
     pwhen package (pemit (UpdateFrom id))) in
  pwhen (notify_vault b) (wire_transfer_inbound id).

Definition disconnected : M unit :=
  let* v := pget in
  do* pput (set_disconnected true v) in
  do* pfor (promises v) (λ t, pemit (Broken t)) in
  do* pmodify (set_promises []) in
  trigger_callback.

Definition set_size (new_size : Size) : M unit := pmodify (set_vsize new_size).

(** [size * scale] multiplies in single precision and truncates. *)
Definition scale_size (sz : Size) (scale : float32) : Size :=
  Sz (f32_to_int (f32_mul scale (f32_of_int (width sz)))) (f32_to_int (f32_mul scale (f32_of_int (height sz)))).
Definition set_scale (scale : float32) : M unit :=
  let* v := pget in set_size (scale_size (vsize v) scale).

(** [set_interval], in the steps its mutex makes: the part before the loop with
    the loop's first round, and every further round, which retakes the mutex the
    round before it released to free its buffer.  A step says whether the loop
    goes on. *)
Definition trim_round : M bool :=
  let* v := pget in
  if bool_decide (needed_buffer_count v < current_buffer_count v) then
    match find_if (λ entry, bool_decide (entry.2 = Self)) (entries (vbuffers v)) with
    | None => pret false
    | Some (id, _) =>
        do* pput (set_current (uint64 (current_buffer_count v - 1)) (set_vbuffers (delete id (vbuffers v)) v)) in
        do* free_buffer id in
        pret true
    end
  else pret false.
Definition set_interval_start (i : Z) : M bool :=
  let* v := pget in
  if bool_decide (i = interval v) then pret false
  else
    do* pput (set_interval_field i v) in
    if bool_decide (i = 0) then
      do* pmodify (λ v, set_current (uint64 (current_buffer_count v + 1)) v) in
      do* pmodify (λ v, set_needed (uint64 (needed_buffer_count v + 1)) v) in
      do* alloc_buffer (vsize v) in
      pret false
    else
      do* pmodify (λ v, set_needed (initial_buffer_count v) v) in
      trim_round.

(** Without other calls in between.  Every round lowers [current_buffer_count],
    so its excess bounds the rounds. *)
Fixpoint trim_loop (fuel : nat) : M unit :=
  let* goes_on := trim_round in
  if goes_on : bool then
    match fuel with
    | O => pthrow (undefined_behaviour "out of fuel")
    | S fuel' => trim_loop fuel'
    end
  else pret tt.
Definition set_interval (i : Z) : M unit :=
  let* goes_on := set_interval_start i in
  if goes_on : bool then
    let* v := pget in trim_loop (Z.to_nat (current_buffer_count v - needed_buffer_count v))
  else pret tt.

(** [BufferVault::BufferVault] and [~BufferVault] *)
Definition new_vault_state (map : option (gset Z)) (sz : Size) (initial_nbuffers : Z) : Vault :=
  mkVault ∅ map ∅ [] sz false initial_nbuffers initial_nbuffers initial_nbuffers 0 1 None 0.
Definition construct_vault (sz : Size) (initial_nbuffers : Z) : M unit :=
  pfor (seqZ 0 initial_nbuffers) (λ _, alloc_buffer sz).

Definition destroy_vault : M unit :=
  let* v := pget in
  pfor (entries (vbuffers v)) (λ it,
    do* match surface_map v with
        | Some ids =>
            if bool_decide (it.1 ∈ ids) then ignore_callback it.1
            else pthrow (undefined_behaviour "null buffer")
        | None => pret tt
        end in
    pwhen (negb (disconnected_ v)) (free_buffer it.1)).

(** ** Books kept along a history *)

(** Allocations asked for and not yet announced. *)
Definition delta (o : vault_obs) : Z := match o with Alloc _ => 1 | Arrived _ => -1 | _ => 0 end.
Definition outstanding (h : list vault_obs) : Z := foldr (λ o n, delta o + n) 0 h.

(** The buffers the content producer holds. *)
Definition hold (H : gset Z) (o : vault_obs) : gset Z :=
  match o with
  | Fulfilled _ id => {[id]} ∪ H
  | Deposited id => H ∖ {[id]}
  | _ => H
  end.
Definition holders (h : list vault_obs) : gset Z := foldl hold ∅ h.

(** Every buffer handed out was held by nobody. *)
Fixpoint exclusive (H : gset Z) (h : list vault_obs) : Prop :=
  match h with
  | [] => True
  | o :: h' => match o with Fulfilled _ id => id ∉ H | _ => True end ∧ exclusive (hold H o) h'
  end.

Definition resolved (h : list vault_obs) : list Z :=
  omap (λ o, match o with Fulfilled t _ | Broken t => Some t | _ => None end) h.

Lemma outstanding_app h t : outstanding (h ++ t) = outstanding h + outstanding t.
Proof. unfold outstanding. induction h as [|o h IH]; cbn; [done|]. rewrite IH. lia. Qed.
Lemma resolved_app h t : resolved (h ++ t) = resolved h ++ resolved t.
Proof. apply omap_app. Qed.
Lemma exclusive_app H h t : exclusive H (h ++ t) ↔ exclusive H h ∧ exclusive (foldl hold H h) t.
Proof. revert H. induction h as [|o h IH]; intros H; cbn; [tauto|]. rewrite IH. tauto. Qed.

(** Calls that concern no book. *)
Definition neutral (o : vault_obs) : bool :=
  match o with Alloc _ | Arrived _ | Fulfilled _ _ | Broken _ | Deposited _ => false | _ => true end.
Lemma neutral_books H t :
  forallb neutral t = true →
  outstanding t = 0 ∧ foldl hold H t = H ∧ exclusive H t ∧ resolved t = [].
Proof.
  induction t as [|o t IH]; cbn; [done|]. intros [Ho Ht]%andb_prop. destruct (IH Ht) as (Hn & Hf & He & Hr).
  unfold outstanding, resolved in *. destruct o; try done; cbn; rewrite Hn, Hr; auto.
Qed.
Lemma free_neutral ids : forallb neutral (Free <$> ids) = true.
Proof. by induction ids. Qed.

(** ** Invariant *)
Record vault_inv (v : Vault) (out : Z) (H : gset Z) : Prop := {
  vi_count : current_buffer_count v = Z.of_nat (base.size (vbuffers v)) + out;
  vi_out : 0 ≤ out;
  vi_needed : 0 < initial_buffer_count v ≤ needed_buffer_count v;
  vi_range : current_buffer_count v < 2 ^ 64 ∧ needed_buffer_count v < 2 ^ 64;
  (** whoever waits, waits for a buffer that is still to come *)
  vi_waiting : promises v ≠ [] → 0 < current_buffer_count v ∧ ∀ id, vbuffers v !! id ≠ Some Self;
  vi_holders id : id ∈ H ↔ vbuffers v !! id = Some ContentProducer;
  vi_registered ids id o : surface_map v = Some ids → vbuffers v !! id = Some o → id ∈ ids
}.

Record vault_effect (v v' : Vault) (out : Z) (H : gset Z) (t : list vault_obs) : Prop := {
  ve_inv : vault_inv v' (out + outstanding t) (foldl hold H t);
  ve_exclusive : exclusive H t;
  ve_next : next_ticket v ≤ next_ticket v';
  ve_tickets : promises v' ++ resolved t ≡ₚ promises v ++ seqZ (next_ticket v) (next_ticket v' - next_ticket v)
}.

Lemma tickets_unchanged v v' :
  next_ticket v' = next_ticket v → promises v' = promises v →
  promises v' ≡ₚ promises v ++ seqZ (next_ticket v) (next_ticket v' - next_ticket v).
Proof. intros -> ->. rewrite Z.sub_diag. by rewrite app_nil_r. Qed.

Lemma neutral_effect v v' out H t :
  vault_inv v' out H → forallb neutral t = true →
  next_ticket v' = next_ticket v → promises v' = promises v → vault_effect v v' out H t.
Proof.
  intros Hinv Ht Hn Hp. destruct (neutral_books H t Ht) as (Ho & Hf & He & Hr).
  constructor; rewrite ?Ho, ?Hf, ?Hr, ?Z.add_0_r, ?app_nil_r; [done|done|lia|by apply tickets_unchanged].
Qed.

(** ** How the parts run *)
Definition registered (v : Vault) (id : Z) : Prop := ∃ ids, surface_map v = Some ids ∧ id ∈ ids.

Lemma checked_run id v :
  registered v id → checked_buffer_from_map id v = Run (Ret (object id v)) v [].
Proof.
  intros (ids & Hm & Hid). unfold checked_buffer_from_map. rewrite pbind_get, Hm.
  by rewrite bool_decide_true.
Qed.
Lemma checked_fails id v :
  ¬ registered v id → ∃ e, checked_buffer_from_map id v = Run (Throw e) v [].
Proof.
  intros Hr. unfold checked_buffer_from_map. rewrite pbind_get.
  destruct (surface_map v) as [ids|] eqn:Hm; [|by eexists].
  rewrite bool_decide_false; [by eexists|]. intros Hid. apply Hr. by exists ids.
Qed.
#[export] Instance registered_dec v id : Decision (registered v id).
Proof.
  destruct (surface_map v) as [ids|] eqn:Hm.
  - destruct (decide (id ∈ ids)) as [|Hid]; [left; by exists ids|right].
    intros (ids' & ? & ?). congruence.
  - right. intros (ids' & ? & ?). congruence.
Defined.

(** Searching changes nothing, and finds a buffer of ours of the right size. *)
Lemma find_self_run nl l v :
  ∃ r, find_self nl l v = Run r v [] ∧
    (∀ id, r = Ret (Some id) → (id, Self) ∈ l ∧ cb_size (object id v) = vsize v ∧ registered v id) ∧
    (r = Ret None → nl = false → ∀ id, (id, Self) ∈ l → cb_size (object id v) ≠ vsize v) ∧
    ((∀ id o, (id, o) ∈ l → registered v id) → ∃ it, r = Ret it).
Proof.
  induction l as [|[id o] l IH]; cbn [find_self].
  { exists (Ret None). split_and!; [done|done|by intros _ _ ? ?%elem_of_nil|by eexists]. }
  destruct IH as (r & IHr & Hs & Hn & Hc).
  case_bool_decide as Ho; cycle 1.
  { exists r. rewrite IHr. split_and!; [done|..].
    - intros i Hi. destruct (Hs i Hi) as (? & ? & ?). split_and!; [by right|done..].
    - intros Hr Hnl i [Hi|Hi]%elem_of_cons; [by simplify_eq|]. by apply Hn.
    - intros Hall. apply Hc. intros i o' Hi. apply (Hall i o'). by right. }
  subst o. destruct (decide (registered v id)) as [Hreg|Hreg]; cycle 1.
  { destruct (checked_fails id v Hreg) as [e He]. exists (Throw e). rewrite (pbind_throw _ _ _ _ _ _ He).
    split_and!; [done..|]. intros Hall. destruct Hreg. apply (Hall id Self). left. }
  rewrite (pbind_silent _ _ _ _ _ (checked_run id v Hreg)), pbind_get.
  destruct (bool_decide _ && _) eqn:Hb.
  - exists (Ret (Some id)). split_and!; [done| |done|by eexists].
    intros i Hi. simplify_eq. apply andb_prop in Hb as [Hb _]. apply bool_decide_eq_true in Hb.
    split_and!; [left|done|done].
  - exists r. rewrite IHr. split_and!; [done|..].
    + intros i Hi. destruct (Hs i Hi) as (? & ? & ?). split_and!; [by right|done..].
    + intros Hr Hnl i [Hi|Hi]%elem_of_cons; [|by apply Hn]. simplify_eq. cbn in Hb.
      rewrite andb_true_r in Hb. by apply bool_decide_eq_false in Hb.
    + intros Hall. apply Hc. intros i o' Hi. apply (Hall i o'). by right.
Qed.

Lemma available_run v :
  ∃ r, available_buffer v = Run r v [] ∧
    (∀ id, r = Ret (Some id) → vbuffers v !! id = Some Self ∧ cb_size (object id v) = vsize v ∧ registered v id) ∧
    (r = Ret None → ∀ id, vbuffers v !! id = Some Self → cb_size (object id v) ≠ vsize v) ∧
    ((∀ id o, vbuffers v !! id = Some o → registered v id) → ∃ it, r = Ret it).
Proof.
  unfold available_buffer. rewrite pbind_get.
  destruct (find_self_run true (entries (vbuffers v)) v) as (r1 & Hr1 & Hs1 & _ & Hc1).
  destruct (find_self_run false (entries (vbuffers v)) v) as (r2 & Hr2 & Hs2 & Hn2 & Hc2).
  destruct r1 as [[id|]|e].
  - exists (Ret (Some id)). rewrite (pbind_silent _ _ _ _ _ Hr1). split_and!; [done| |done|by eexists].
    intros i Hi. simplify_eq. destruct (Hs1 i eq_refl) as (He%elem_of_entries & ? & ?). done.
  - exists r2. rewrite (pbind_silent _ _ _ _ _ Hr1), Hr2. split_and!; [done|..].
    + intros i Hi. destruct (Hs2 i Hi) as (He%elem_of_entries & ? & ?). done.
    + intros Hr i Hi. apply Hn2; [done|done|]. by apply elem_of_entries.
    + intros Hall. apply Hc2. intros i o Hi%elem_of_entries. by eapply Hall.
  - exists (Throw e). rewrite (pbind_throw _ _ _ _ _ _ Hr1). split_and!; [done..|].
    intros Hall. destruct Hc1 as [it Hit]; [|done]. intros i o Hi%elem_of_entries. by eapply Hall.
Qed.

(** [withdraw]'s first loop frees exactly our buffers of the wrong size. *)
Definition wrong_size (v : Vault) (id : Z) : Prop := cb_size (object id v) ≠ vsize v.

Lemma clean_sizes_run l v :
  NoDup l.*1 → (∀ id o, (id, o) ∈ l → vbuffers v !! id = Some o ∧ registered v id) →
  Z.of_nat (length l) ≤ current_buffer_count v < 2 ^ 64 →
  ∃ ids m, clean_sizes l v =
      Run (Ret ids) (set_current (current_buffer_count v - Z.of_nat (length ids)) (set_vbuffers m v)) [] ∧
    (∀ id, id ∈ ids ↔ (id, Self) ∈ l ∧ wrong_size v id) ∧
    (∀ id, m !! id = if decide (id ∈ ids) then None else vbuffers v !! id) ∧
    Z.of_nat (base.size m) = Z.of_nat (base.size (vbuffers v)) - Z.of_nat (length ids).
Proof.
  revert v. induction l as [|[id o] l IH]; intros v Hnd Hl Hlen; cbn [clean_sizes].
  { exists [], (vbuffers v). cbn. rewrite !Z.sub_0_r. split_and!; [by destruct v| |done|done].
    intros id. split; [by intros ?%elem_of_nil|by intros [?%elem_of_nil _]]. }
  cbn in Hnd, Hlen. apply NoDup_cons in Hnd as [Hid Hnd].
  destruct (Hl id o ltac:(left)) as [Hlk Hreg].
  rewrite (pbind_silent _ _ _ _ _ (checked_run id v Hreg)), pbind_get.
  destruct (bool_decide (o = Self) && _) eqn:Hb.
  - apply andb_prop in Hb as [->%bool_decide_eq_true Hsz%bool_decide_eq_true].
    rewrite pbind_put. set (v1 := set_current _ _).
    assert (current_buffer_count v1 = current_buffer_count v - 1) as Hc1.
    { unfold v1; cbn. rewrite uint64_id by lia. done. }
    destruct (IH v1) as (ids & m & Hrun & Hids & Hm & Hsize); [done| |rewrite Hc1; lia|].
    { intros i o Hi. destruct (Hl i o ltac:(by right)) as [? ?]. split; [|done]. cbn.
      rewrite lookup_delete_ne; [done|]. intros ->. apply Hid. by apply (list_elem_of_fmap_2 fst _ (i, o)). }
    assert (id ∉ ids) as Hnot.
    { intros [Hin _]%Hids. apply Hid. by apply (list_elem_of_fmap_2 fst _ (id, Self)). }
    exists (id :: ids), m. rewrite (pbind_silent _ _ _ _ _ Hrun). split_and!.
    + unfold pret. rewrite Hc1. cbn [length]. f_equal. unfold set_current, set_vbuffers, v1; cbn. f_equal. lia.
    + intros i. rewrite elem_of_cons, Hids, elem_of_cons. split.
      * intros [->|[? ?]]; [split; [by left|done]|split; [by right|done]].
      * intros [[?|?] ?]; [simplify_eq; by left|by right].
    + intros i. rewrite Hm. cbn. destruct (decide (i = id)) as [->|Hne].
      * rewrite decide_False by done. rewrite decide_True by left. apply lookup_delete_eq.
      * rewrite lookup_delete_ne by done. destruct (decide (i ∈ ids)); [by rewrite decide_True by by right|].
        rewrite decide_False; [done|]. by intros [?|?]%elem_of_cons.
    + rewrite Hsize. cbn. rewrite map_size_delete, Hlk. cbn.
      assert (base.size (vbuffers v) ≠ 0%nat) as Hne by (intros Hz%map_size_empty_iff; by rewrite Hz in Hlk). lia.
  - destruct (IH v) as (ids & m & Hrun & Hids & Hm & Hsize); [done| |lia|].
    { intros i o' Hi. by apply Hl; right. }
    exists ids, m. rewrite Hrun. split_and!; [done| |done|done].
    intros i. rewrite Hids, elem_of_cons. split; [intros [? ?]; split; [by right|done]|].
    intros [[Hi|?] ?]; [|done]. simplify_eq. rewrite bool_decide_true in Hb by done. cbn in Hb.
    by apply bool_decide_eq_false in Hb.
Qed.

(** ** Effects of the operations *)
Lemma effect_refl v out H t : vault_inv v out H → forallb neutral t = true → vault_effect v v out H t.
Proof. intros ? ?. by apply neutral_effect. Qed.

Lemma size_positive {A} (m : gmap Z A) id x : m !! id = Some x → (0 < base.size m)%nat.
Proof.
  intros Hl. destruct (base.size m) eqn:Hs; [|lia]. apply map_size_empty_iff in Hs. by subst m.
Qed.
Lemma size_update {A} (m : gmap Z A) id x y : m !! id = Some x → base.size (<[id := y]> m) = base.size m.
Proof. intros Hl. rewrite map_size_insert, Hl. done. Qed.
Lemma size_remove {A} (m : gmap Z A) id x :
  m !! id = Some x → Z.of_nat (base.size (delete id m)) = Z.of_nat (base.size m) - 1.
Proof. intros Hl. pose proof (size_positive _ _ _ Hl). rewrite map_size_delete, Hl. cbn. lia. Qed.

Lemma seqZ_next a : seqZ a (a + 1 - a) = [a].
Proof. by replace (a + 1 - a) with 1 by lia. Qed.

(** Books of a trace that ends by freeing buffers. *)
Lemma books_app_free H t ids :
  outstanding (t ++ (Free <$> ids)) = outstanding t ∧
  foldl hold H (t ++ (Free <$> ids)) = foldl hold H t ∧
  (exclusive H (t ++ (Free <$> ids)) ↔ exclusive H t) ∧
  resolved (t ++ (Free <$> ids)) = resolved t.
Proof.
  destruct (neutral_books (foldl hold H t) (Free <$> ids) (free_neutral ids)) as (Ho & Hf & He & Hr).
  rewrite outstanding_app, foldl_app, resolved_app, exclusive_app, Ho, Hf, Hr, app_nil_r, Z.add_0_r. tauto.
Qed.

(** After the first loop: the wrong sizes are gone, the count agrees. *)
Lemma cleaned_inv v out H ids m :
  vault_inv v out H →
  (∀ id, id ∈ ids → vbuffers v !! id = Some Self) →
  (∀ id, m !! id = if decide (id ∈ ids) then None else vbuffers v !! id) →
  Z.of_nat (base.size m) = Z.of_nat (base.size (vbuffers v)) - Z.of_nat (length ids) →
  let v1 := set_current (current_buffer_count v - Z.of_nat (length ids)) (set_vbuffers m v) in
  vault_inv v1 out H.
Proof.
  intros [Hc Ho Hn Hr Hw Hh Hreg] Hids Hm Hsize v1. constructor; cbn; [lia|done|done|lia| | |].
  - intros Hp. destruct (Hw Hp) as [Hpos Hself]. destruct ids as [|id ids].
    + cbn. rewrite Z.sub_0_r. split; [done|]. intros id. rewrite Hm. rewrite decide_False; [done|].
      apply not_elem_of_nil.
    + destruct (Hself id). apply Hids. left.
  - intros id. rewrite Hh, Hm. case_decide as Hin; [|done]. split; [|done].
    rewrite (Hids id Hin). done.
  - intros rs id o Hs. rewrite Hm. case_decide; [done|]. by apply Hreg.
Qed.

Lemma free_loop ids v : pfor ids free_buffer v = Run (Ret tt) v (Free <$> ids).
Proof. apply pfor_emit. Qed.

Lemma withdraw_hands_out v out H id :
  vault_inv v out H → vbuffers v !! id = Some Self →
  vault_effect v (set_vbuffers (<[id := ContentProducer]> (vbuffers v)) (set_ticket (next_ticket v + 1) v))
    out H [Fulfilled (next_ticket v) id].
Proof.
  intros [Hc Ho Hn Hr Hw Hh Hreg] Hid. constructor; cbn; [|split; [|done]|lia|].
  - rewrite Z.add_0_r. constructor; cbn; [by rewrite (size_update _ _ _ _ Hid)|done|done|done| | |].
    + intros Hp. destruct (Hw Hp) as [_ Hself]. by destruct (Hself id).
    + intros i. rewrite elem_of_union, elem_of_singleton, Hh. destruct (decide (i = id)) as [->|Hne].
      * rewrite lookup_insert_eq. by split; [|left].
      * rewrite lookup_insert_ne by done. split; [by intros [?|?]|by right].
    + intros rs i o Hs [[<- _]|[_ Hi]]%lookup_insert_Some; eauto.
  - rewrite Hh, Hid. done.
  - by rewrite seqZ_next.
Qed.

Lemma withdraw_queues v out H (alloc : bool) :
  vault_inv v out H → (∀ id, vbuffers v !! id ≠ Some Self) →
  alloc = bool_decide (current_buffer_count v < needed_buffer_count v) →
  let v1 := set_promises (promises v ++ [next_ticket v]) (set_ticket (next_ticket v + 1) v) in
  vault_effect v (if alloc then set_current (uint64 (current_buffer_count v1 + 1)) v1 else v1) out H
    (if alloc then [Alloc (vsize v)] else []).
Proof.
  intros [Hc Ho Hn Hr Hw Hh Hreg] Hself Halloc v1.
  assert (current_buffer_count v1 = current_buffer_count v) as Hc1 by done.
  destruct alloc; symmetry in Halloc; bool_to_prop.
  - rewrite Hc1, uint64_id by lia. constructor; cbn; [|done|lia|].
    + constructor; cbn; [lia|lia|done|lia| |done|done]. intros _. split; [lia|done].
    + by rewrite app_nil_r, seqZ_next.
  - constructor; cbn; [|done|lia|].
    + rewrite Z.add_0_r. constructor; cbn; [done|done|done|done| |done|done]. intros _. split; [lia|done].
    + by rewrite app_nil_r, seqZ_next.
Qed.

(** Composing an effect-free preparation with an effect. *)
Lemma effect_after v v1 v' out H t ids :
  next_ticket v1 = next_ticket v → promises v1 = promises v →
  vault_effect v1 v' out H t → vault_effect v v' out H (t ++ (Free <$> ids)).
Proof.
  intros Hn Hp [Hinv He Hnext Ht]. destruct (books_app_free H t ids) as (Ho & Hf & Hex & Hr).
  constructor; rewrite ?Ho, ?Hf, ?Hr, ?Hex; [done|done|lia|]. by rewrite Ht, Hn, Hp.
Qed.

(** Without a surface map the vault is empty or the checks throw. *)
Lemma withdraw_no_map v out H :
  vault_inv v out H → disconnected_ v = false → surface_map v = None →
  ends (withdraw v) (λ v' t, vault_effect v v' out H t).
Proof.
  intros Hinv Hdis Hmap. unfold withdraw. rewrite pbind_get, Hdis.
  destruct (entries (vbuffers v)) as [|[id o] l] eqn:He; cycle 1.
  { cbn [clean_sizes]. destruct (checked_fails id v) as [e Hf].
    { intros (rs & Hrs & _). congruence. }
    rewrite (pbind_throw _ _ v e v []); [by apply effect_refl|]. by rewrite (pbind_throw _ _ _ _ _ _ Hf). }
  cbn [clean_sizes]. rewrite pbind_ret_l.
  assert (∀ id, vbuffers v !! id = None) as Hnone.
  { intros id. destruct (vbuffers v !! id) as [o|] eqn:Hl; [|done]. apply elem_of_entries in Hl.
    rewrite He in Hl. by apply elem_of_nil in Hl. }
  destruct (available_run v) as (r & Hav & Hsome & _ & Hret).
  destruct Hret as [it ->]; [intros id o; by rewrite Hnone|].
  destruct it as [id|]; [destruct (Hsome id eq_refl) as [Hl _]; by rewrite Hnone in Hl|].
  rewrite (pbind_silent _ _ _ _ _ Hav), pbind_get, pbind_put. cbn zeta.
  rewrite pbind_assoc, pbind_modify, pbind_assoc, pbind_get. cbn [pfor]. set (v1 := set_promises _ _).
  assert (∀ id, vbuffers v !! id ≠ Some Self) as Hself by (intros id; by rewrite Hnone).
  pose proof (withdraw_queues v out H _ Hinv Hself eq_refl) as Heff. fold v1 in Heff.
  change (current_buffer_count v1) with (current_buffer_count v).
  change (needed_buffer_count v1) with (needed_buffer_count v).
  cbn zeta in Heff. destruct (bool_decide _); cbn [pwhen]; exact Heff.
Qed.

Lemma withdraw_effect v out H :
  vault_inv v out H → ends (withdraw v) (λ v' t, vault_effect v v' out H t).
Proof.
  intros Hinv. destruct (disconnected_ v) eqn:Hdis.
  { unfold withdraw. rewrite pbind_get, Hdis. by apply effect_refl. }
  destruct (surface_map v) as [rs|] eqn:Hmap; [|by apply withdraw_no_map].
  unfold withdraw. rewrite pbind_get, Hdis.
  assert (∀ id o, vbuffers v !! id = Some o → registered v id) as Hreg.
  { intros id o Hl. exists rs. split; [done|]. by apply (vi_registered _ _ _ Hinv _ _ o). }
  destruct (clean_sizes_run (entries (vbuffers v)) v) as (ids & m & Hrun & Hids & Hm & Hsize).
  { apply entries_keys_NoDup. }
  { intros id o Hi%elem_of_entries. split; [done|by eapply Hreg]. }
  { rewrite length_entries, (vi_count _ _ _ Hinv). pose proof (vi_out _ _ _ Hinv).
    pose proof (vi_range _ _ _ Hinv) as [? _]. rewrite <- (vi_count _ _ _ Hinv). rewrite (vi_count _ _ _ Hinv) in *. lia. }
  set (v1 := set_current (current_buffer_count v - Z.of_nat (length ids)) (set_vbuffers m v)) in *.
  assert (vault_inv v1 out H) as Hinv1.
  { apply (cleaned_inv v out H ids m Hinv); [|done|done]. by intros id [Hi%elem_of_entries _]%Hids. }
  rewrite (pbind_silent _ _ _ _ _ Hrun).
  destruct (available_run v1) as (r & Hav & Hsome & Hnone & Hret).
  destruct Hret as [it ->].
  { intros id o Hl. cbn in Hl. rewrite Hm in Hl. case_decide; [done|]. by apply (Hreg id o). }
  rewrite (pbind_silent _ _ _ _ _ Hav), pbind_get, pbind_put. cbn zeta.
  destruct it as [id|].
  - destruct (Hsome id eq_refl) as (Hself & _ & Hr).
    unfold set_owner. rewrite pbind_assoc, pbind_modify. set (v2 := set_vbuffers _ _).
    rewrite pbind_assoc, (pbind_silent _ _ v2 (object id v2) v2); [|by apply checked_run].
    eapply ends_bind; [done|]. eapply ends_bind; [apply free_loop|]. unfold ends. cbn [post trace pret]. rewrite app_nil_r.
    apply (effect_after v v1); [done|done|]. exact (withdraw_hands_out v1 out H id Hinv1 Hself).
  - rewrite pbind_assoc, pbind_modify, pbind_assoc, pbind_get.
    assert (∀ id, vbuffers v1 !! id ≠ Some Self) as Hself.
    { intros id Hl. specialize (Hnone eq_refl id Hl). cbn in Hl. rewrite Hm in Hl.
      case_decide as Hin; [done|]. apply Hin, Hids. split; [by apply elem_of_entries|done]. }
    pose proof (withdraw_queues v1 out H _ Hinv1 Hself eq_refl) as Heff. cbn zeta in Heff.
    set (v2 := set_promises _ _) in *.
    change (current_buffer_count v2) with (current_buffer_count v1) in *.
    change (needed_buffer_count v2) with (needed_buffer_count v1).
    change (vsize v2) with (vsize v1).
    destruct (bool_decide _); cbn [pwhen]; (eapply ends_bind; [done|]); (eapply ends_bind; [apply free_loop|]);
      unfold ends; cbn [post trace pret]; rewrite app_nil_r; eapply effect_after in Heff; try exact Heff; done.
Qed.

Lemma effect_trans v v1 v2 out H t1 t2 :
  vault_effect v v1 out H t1 → vault_effect v1 v2 (out + outstanding t1) (foldl hold H t1) t2 →
  vault_effect v v2 out H (t1 ++ t2).
Proof.
  intros [Hi1 He1 Hn1 Ht1] [Hi2 He2 Hn2 Ht2]. constructor.
  - by rewrite outstanding_app, foldl_app, Z.add_assoc.
  - by apply exclusive_app.
  - lia.
  - rewrite resolved_app, (Permutation_app_comm (resolved t1)), app_assoc, Ht2.
    rewrite <- app_assoc, (Permutation_app_comm (seqZ (next_ticket v1) _)), app_assoc, Ht1, <- app_assoc.
    apply Permutation_app_head.
    replace (next_ticket v2 - next_ticket v)
      with ((next_ticket v1 - next_ticket v) + (next_ticket v2 - next_ticket v1)) by lia.
    rewrite seqZ_app by lia. by replace (next_ticket v + (next_ticket v1 - next_ticket v)) with (next_ticket v1) by lia.
Qed.

(** A buffer of the map changes hands. *)
Lemma owner_change_inv v out H H' id o0 o :
  vault_inv v out H → vbuffers v !! id = Some o0 → (o = Self → promises v = []) →
  (∀ i, i ∈ H' ↔ (if decide (i = id) then o = ContentProducer else i ∈ H)) →
  vault_inv (set_vbuffers (<[id := o]> (vbuffers v)) v) out H'.
Proof.
  intros [Hc Ho Hn Hr Hw Hh Hreg] Hid Hself HH. constructor; cbn; [|done|done|done| | |].
  - by rewrite (size_update _ _ _ _ Hid).
  - intros Hp. destruct (Hw Hp) as [Hpos Hs]. split; [done|]. intros i [[<- ->]|[_ Hi]]%lookup_insert_Some.
    + by rewrite Hself in Hp.
    + by destruct (Hs i).
  - intros i. rewrite HH. case_decide as Hi.
    + subst i. rewrite lookup_insert_eq. split; [by intros ->|by intros [= ->]].
    + by rewrite lookup_insert_ne.
  - intros rs i o' Hs [[<- _]|[_ Hi]]%lookup_insert_Some; eauto.
Qed.

Lemma deposit_effect v out H id :
  vault_inv v out H →
  ends (pbind (pemit (Deposited id)) (λ _, deposit id) v) (λ v' t, vault_effect v v' out H t).
Proof.
  intros Hinv. eapply ends_bind; [done|]. unfold deposit. rewrite pbind_get. cbn [post].
  case_bool_decide as Hid; cycle 1.
  { constructor; cbn; [|done|lia|rewrite app_nil_r; by apply tickets_unchanged]. rewrite Z.add_0_r.
    destruct Hinv as [Hc Ho Hn Hr Hw Hh Hreg]. constructor; try done. intros i.
    rewrite elem_of_difference, not_elem_of_singleton, Hh. split; [tauto|]. intros Hi. split; [done|congruence]. }
  unfold set_owner. rewrite pbind_modify. set (v1 := set_vbuffers _ v).
  assert (vault_effect v v1 out H [Deposited id]) as Heff.
  { constructor; cbn; [|done|lia|rewrite app_nil_r; by apply tickets_unchanged]. rewrite Z.add_0_r.
    eapply owner_change_inv; [done|done|done|]. intros i.
    rewrite elem_of_difference, not_elem_of_singleton. case_decide as Hi; [|tauto]. subst i.
    split; [tauto|done]. }
  destruct (decide (registered v1 id)) as [Hreg|Hreg].
  - rewrite (pbind_silent _ _ _ _ _ (checked_run id v1 Hreg)). unfold ends. cbn [post trace pemit].
    eapply effect_trans; [exact Heff|]. apply effect_refl; [|done]. apply (ve_inv _ _ _ _ _ Heff).
  - destruct (checked_fails id v1 Hreg) as [e He]. rewrite (pbind_throw _ _ _ _ _ _ He). exact Heff.
Qed.

(** Changing only the buffer objects, or the deferred callback, or the last id. *)
Lemma inv_same_books v v' out H :
  vault_inv v out H → vbuffers v' = vbuffers v → promises v' = promises v →
  current_buffer_count v' = current_buffer_count v → needed_buffer_count v' = needed_buffer_count v →
  initial_buffer_count v' = initial_buffer_count v →
  (surface_map v' = surface_map v ∨ surface_map v' = None) → vault_inv v' out H.
Proof.
  intros [Hc Ho Hn Hr Hw Hh Hreg] Hb Hp H1 H2 H3 Hm. constructor; rewrite ?Hb, ?Hp, ?H1, ?H2, ?H3; try done.
  intros rs id o Hs. destruct Hm as [Hm|Hm]; rewrite Hm in Hs; [by apply Hreg|done].
Qed.

Lemma outbound_submit_effect v out H id :
  vault_inv v out H → ends (outbound_submit id v) (λ v' t, vault_effect v v' out H t).
Proof.
  intros Hinv. unfold outbound_submit. rewrite pbind_get. case_bool_decide as Hid; [|by apply effect_refl].
  unfold set_owner. rewrite pbind_modify. set (v1 := set_vbuffers _ v).
  assert (vault_inv v1 out H) as Hinv1.
  { eapply owner_change_inv; [done|done|done|]. intros i. case_decide as Hi; [|done]. subst i.
    rewrite (vi_holders _ _ _ Hinv), Hid. done. }
  unfold submitted. rewrite pbind_assoc, pbind_get. destruct (negb _).
  - by apply neutral_effect.
  - unfold ends. cbn. apply neutral_effect; [|done|done|done].
    by apply (inv_same_books v1); [..|left].
Qed.

Lemma outbound_finish_effect v out H done :
  vault_inv v out H → ends (outbound_finish done v) (λ v' t, vault_effect v v' out H t).
Proof.
  intros Hinv. unfold outbound_finish. rewrite pbind_get. destruct (disconnected_ v); [by apply effect_refl|].
  destruct (available_run v) as (r & Hr & _). destruct r as [[i|]|e].
  - rewrite (pbind_silent _ _ _ _ _ Hr). by apply effect_refl.
  - rewrite (pbind_silent _ _ _ _ _ Hr). unfold ends. cbn. apply neutral_effect; [|done..].
    by apply (inv_same_books v); [..|left].
  - rewrite (pbind_throw _ _ _ _ _ _ Hr). by apply effect_refl.
Qed.

Lemma trigger_callback_effect v out H :
  vault_inv v out H → ends (trigger_callback v) (λ v' t, vault_effect v v' out H t).
Proof.
  intros Hinv. unfold trigger_callback. rewrite pbind_get. destruct (deferred_cb v) as [cb|].
  - unfold ends. cbn. apply neutral_effect; [|done..]. by apply (inv_same_books v); [..|left].
  - by apply effect_refl.
Qed.

(** A program that starts with an effect and goes on with another; [d] are the
    calls made before it. *)
Lemma ends_effect_bind {A B} (m : M A) (k : A → M B) v out H d :
  ends (m v) (λ v' t, vault_effect v v' out H (d ++ t)) →
  (∀ a v' out' H', vault_inv v' out' H' → ends (k a v') (λ v'' t, vault_effect v' v'' out' H' t)) →
  ends (pbind m k v) (λ v' t, vault_effect v v' out H (d ++ t)).
Proof.
  unfold ends, pbind. intros Hm Hk. destruct (m v) as [[a|e] v1 t1]; cbn in *; [|done].
  rewrite app_assoc. eapply effect_trans; [exact Hm|]. apply Hk, (ve_inv _ _ _ _ _ Hm).
Qed.

Lemma effect_insert v v' out H d n t :
  forallb neutral n = true → vault_effect v v' out H (d ++ t) → vault_effect v v' out H (d ++ n ++ t).
Proof.
  intros Hn [Hi He Hne Ht]. destruct (neutral_books (foldl hold H d) n Hn) as (Ho & Hf & Hex & Hr).
  rewrite outstanding_app, foldl_app in Hi. rewrite exclusive_app in He. rewrite resolved_app in Ht.
  constructor.
  - by rewrite !outstanding_app, !foldl_app, Ho, Hf.
  - rewrite !exclusive_app, Hf. tauto.
  - done.
  - by rewrite !resolved_app, Hr.
Qed.

Lemma effect_shift v v1 v' out H t :
  next_ticket v1 = next_ticket v → promises v1 = promises v →
  vault_effect v1 v' out H t → vault_effect v v' out H t.
Proof. intros Hn Hp [Hi He Hne Ht]. constructor; [done|done|lia|by rewrite Ht, Hn, Hp]. Qed.

Lemma ends_shift {A} v v1 out H d (r : run Vault vault_obs A) :
  next_ticket v1 = next_ticket v → promises v1 = promises v →
  ends r (λ v' t, vault_effect v1 v' out H (d ++ t)) → ends r (λ v' t, vault_effect v v' out H (d ++ t)).
Proof. intros ? ?. by apply effect_shift. Qed.

(** The server may announce a buffer it owns, or one it has just allocated. *)
Definition arrival (v : Vault) (id : Z) (out : Z) (d : list vault_obs) : Prop :=
  registered v id ∧
  ((vbuffers v !! id = None ∧ 0 < out ∧ d = [Arrived id]) ∨ (vbuffers v !! id = Some Server ∧ d = [])).

(** The buffer joins the vault in the hands of [o]. *)
Lemma arrival_inv v out H id d o H' :
  vault_inv v out H → arrival v id out d → (o = Self → promises v = []) →
  (∀ i, i ∈ H' ↔ (if decide (i = id) then o = ContentProducer else i ∈ H)) →
  vault_inv (set_vbuffers (<[id := o]> (vbuffers v)) v) (out + outstanding d) H' ∧ id ∉ H.
Proof.
  intros Hinv [Hrg [(Hid & Hpos & ->)|[Hid ->]]] Hself HH.
  - split; [|by rewrite (vi_holders _ _ _ Hinv), Hid]. destruct Hinv as [Hc Ho Hn Hr Hw Hh Hreg].
    assert (Z.of_nat (base.size (<[id := o]> (vbuffers v))) = Z.of_nat (base.size (vbuffers v)) + 1) as Hs.
    { rewrite map_size_insert, Hid. cbn. lia. }
    unfold outstanding. cbn [foldr delta]. constructor; cbn [vbuffers set_vbuffers current_buffer_count promises
      needed_buffer_count initial_buffer_count surface_map]; [lia|lia|done|done| | |].
    + intros Hp. destruct (Hw Hp) as [? Hs']. split; [done|]. intros i [[<- ->]|[_ Hi]]%lookup_insert_Some.
      * by rewrite Hself in Hp.
      * by destruct (Hs' i).
    + intros i. rewrite HH. case_decide as Hi.
      * subst i. rewrite lookup_insert_eq. split; [by intros ->|by intros [= ->]].
      * by rewrite lookup_insert_ne.
    + intros rs i o' Hs' [[<- _]|[_ Hi]]%lookup_insert_Some; [|eauto].
      destruct Hrg as (rs' & ? & ?). by simplify_eq.
  - split; [|by rewrite (vi_holders _ _ _ Hinv), Hid]. cbn. rewrite Z.add_0_r.
    by eapply owner_change_inv.
Qed.

Lemma arrival_books d id out v H :
  arrival v id out d → foldl hold H d = H ∧ (exclusive H d ↔ True) ∧ resolved d = [].
Proof. intros [_ [(_ & _ & ->)|[_ ->]]]; done. Qed.

Lemma serve_effect v out H id d :
  vault_inv v out H → arrival v id out d →
  ends (pbind (set_owner id Self) (λ _, serve_waiter id) v) (λ v' t, vault_effect v v' out H (d ++ t)).
Proof.
  intros Hinv Harr. destruct (arrival_books d id out v H Harr) as (Hf & Hex & Hr).
  unfold set_owner. rewrite pbind_modify. unfold serve_waiter. rewrite pbind_get.
  cbn [promises set_vbuffers]. destruct (promises v) as [|front rest] eqn:Hp.
  - unfold ends. cbn [post trace pret]. rewrite app_nil_r.
    destruct (arrival_inv v out H id d Self H Hinv Harr) as [Hinv' Hnot]; [done| |].
    { intros i. case_decide as Hi; [subst i|done]. split; [|done]. intros Hi.
      destruct (arrival_inv v out H id d Self (H ∖ {[id]}) Hinv Harr) as [_ ?]; [done| |done].
      intros i. rewrite elem_of_difference, not_elem_of_singleton. case_decide; [subst; split; [tauto|done]|tauto]. }
    constructor; rewrite ?Hf, ?Hr, ?Hex; [done|done|done|]. rewrite app_nil_r. by apply tickets_unchanged.
  - unfold set_owner. rewrite pbind_modify. unfold ends. cbn [post trace pbind pemit pmodify value].
    destruct (arrival_inv v out H id d ContentProducer ({[id]} ∪ H) Hinv Harr) as [Hinv' Hnot]; [done| |].
    { intros i. rewrite elem_of_union, elem_of_singleton. case_decide; [split; [done|by left]|].
      split; [by intros [?|?]|by right]. }
    constructor.
    + rewrite outstanding_app, foldl_app, Hf. cbn. rewrite Z.add_0_r, insert_insert_eq.
      destruct Hinv' as [Hc Ho Hn Hrr Hw Hh Hreg]. constructor; try done. cbn in *. intros _. apply Hw. by rewrite Hp.
    + rewrite exclusive_app, Hf, Hex. done.
    + done.
    + rewrite resolved_app, Hr. cbn. rewrite Z.sub_diag, Hp, app_nil_r. symmetry. apply Permutation_cons_append.
Qed.

Lemma pmodify_run (f : Vault → Vault) v : pmodify (O := vault_obs) f v = Run (Ret tt) (f v) [].
Proof. done. Qed.

Lemma inbound_effect v out H id d :
  vault_inv v out H → arrival v id out d →
  ends (wire_transfer_inbound id v) (λ v' t, vault_effect v v' out H (d ++ t)).
Proof.
  intros Hinv0 Harr0. unfold wire_transfer_inbound. rewrite pbind_modify.
  set (v1 := set_last id v).
  assert (vault_inv v1 out H) as Hinv by by (apply (inv_same_books v); [..|left]).
  assert (arrival v1 id out d) as Harr by exact Harr0.
  apply (ends_shift v v1); [done|done|].
  clear Hinv0 Harr0. clearbody v1. clear v. rename v1 into v.
  destruct (arrival_books d id out v H Harr) as (Hf & Hex & Hres).
  pose proof Harr as [Hreg Hcase].
  rewrite (pbind_silent _ _ _ _ _ (checked_run id v Hreg)). cbn zeta. rewrite pbind_get.
  assert (ends ((do* set_owner id Self in do* serve_waiter id in trigger_callback) v)
    (λ v' t, vault_effect v v' out H (d ++ t))) as Hkeep.
  { rewrite <- pbind_assoc. apply ends_effect_bind; [by apply serve_effect|].
    intros _ v' out' H' Hinv'. by apply trigger_callback_effect. }
  destruct Hcase as [(Hid & Hpos & ->)|[Hid ->]]; rewrite Hid.
  - case_bool_decide; [|exact Hkeep]. unfold ends. cbn.
    constructor; cbn; [|done|lia|rewrite app_nil_r; by apply tickets_unchanged].
    by rewrite Z.add_0_r.
  - destruct (bool_decide (vsize v ≠ _) || _) eqn:Hb; [|exact Hkeep].
    destruct Hinv as [Hc Ho Hn Hr Hw Hh Hrg]. pose proof (size_remove _ _ _ Hid) as Hs.
    pose proof (size_positive _ _ _ Hid) as Hpos.
    rewrite pbind_modify. set (v2 := set_vbuffers _ v).
    assert (∀ i, i ∈ H ↔ delete id (vbuffers v) !! i = Some ContentProducer) as Hh'.
    { intros i. rewrite Hh. destruct (decide (i = id)) as [->|Hne]; [|by rewrite lookup_delete_ne].
      rewrite lookup_delete_eq, Hid. done. }
    assert (∀ i, vbuffers v !! i ≠ Some Self → delete id (vbuffers v) !! i ≠ Some Self) as Hs'.
    { intros i Hi [_ Hl]%lookup_delete_Some. done. }
    destruct (bool_decide (needed_buffer_count v < current_buffer_count v)) eqn:Hdec; cbn [pwhen negb].
    + apply bool_decide_eq_true in Hdec. rewrite pbind_modify. unfold ends. cbn [post trace free_buffer pbind pemit value app pret].
      assert (current_buffer_count v2 = current_buffer_count v) as Hc2 by done. rewrite Hc2, uint64_id by lia.
      constructor; cbn; [|done|lia|rewrite app_nil_r; by apply tickets_unchanged].
      rewrite Z.add_0_r. constructor; cbn; [lia|done|done|lia| |done|].
      * intros Hp. destruct (Hw Hp) as [? Hss]. split; [lia|]. auto.
      * intros rs i o Hm [_ Hl]%lookup_delete_Some. eauto.
    + rewrite pbind_ret_l. unfold ends. cbn.
      constructor; cbn; [|done|lia|rewrite app_nil_r; by apply tickets_unchanged].
      constructor; cbn; [lia|lia|done|done| |done|].
      * intros Hp. destruct (Hw Hp) as [? Hss]. auto.
      * intros rs i o Hm [_ Hl]%lookup_delete_Some. eauto.
Qed.

Lemma received_effect package v out H id d :
  vault_inv v out H → arrival v id out d → notify_vault (object id v) = true →
  ends (received package id v) (λ v' t, vault_effect v v' out H (d ++ t)).
Proof.
  intros Hinv Harr Hnot. unfold received. rewrite pbind_get, Hnot. cbn [pwhen].
  destruct (owned (object id v)); cbn [negb pwhen]; [rewrite pbind_ret_l; by apply inbound_effect|].
  set (v1 := set_objects (<[id := mkClientBuffer (cb_size (object id v)) true (mapped (object id v)) true]>
    (objects v)) v).
  apply (ends_bind _ _ _ tt v1 (if package then [UpdateFrom id] else []));
    [by destruct package; cbn; unfold pbind, set_object, pmodify; cbn|].
  assert (ends (wire_transfer_inbound id v1) (λ v' t, vault_effect v1 v' out H (d ++ t))) as Hen.
  { apply inbound_effect; [|exact Harr]. by apply (inv_same_books v); [..|left]. }
  apply effect_insert; [by destruct package|]. eapply effect_shift; [| |exact Hen]; done.
Qed.

Lemma disconnected_effect v out H :
  vault_inv v out H → ends (disconnected v) (λ v' t, vault_effect v v' out H t).
Proof.
  intros Hinv. unfold disconnected. rewrite pbind_get, pbind_put.
  rewrite <- (pbind_assoc (pfor (promises v) _) (λ _, pmodify (set_promises []))).
  refine (ends_shift v (set_disconnected true v) out H [] _ eq_refl eq_refl _).
  assert (vault_inv (set_disconnected true v) out H) as Hinv1 by by apply (inv_same_books v); [..|left].
  refine (ends_effect_bind _ _ _ out H [] _ _); cycle 1.
  { intros _ v' out' H' Hinv'. by apply trigger_callback_effect. }
  clear Hinv. rename Hinv1 into Hinv. change (promises v) with (promises (set_disconnected true v)).
  generalize dependent (set_disconnected true v). clear v. intros v Hinv.
  eapply ends_bind; [apply pfor_emit|]. unfold ends. cbn [post trace pmodify app].
  rewrite app_nil_r.
  assert (∀ l H, outstanding (Broken <$> l) = 0 ∧ foldl hold H (Broken <$> l) = H ∧
    exclusive H (Broken <$> l) ∧ resolved (Broken <$> l) = l) as Hb.
  { clear. induction l as [|x l IH]; intros H; [done|]. destruct (IH H) as (Ho & Hf & He & Hr).
    unfold outstanding, resolved in *. cbn. by rewrite Ho, Hr. }
  destruct (Hb (promises v) H) as (Ho & Hf & He & Hr). constructor; rewrite ?Ho, ?Hf, ?Hr, ?Z.add_0_r; [|done|done|].
  - destruct Hinv as [Hc Hout Hn Hrr Hw Hh Hreg]. by constructor.
  - cbn. rewrite Z.sub_diag. by rewrite app_nil_r.
Qed.

(** A round of [set_interval]'s loop: nothing is left to do, or a buffer of our
    own is freed. *)
Lemma trim_round_cases v :
  trim_round v = Run (Ret false) v [] ∧
    (current_buffer_count v ≤ needed_buffer_count v ∨ ∀ id, vbuffers v !! id ≠ Some Self) ∨
  ∃ id, needed_buffer_count v < current_buffer_count v ∧ vbuffers v !! id = Some Self ∧
    trim_round v = Run (Ret true)
      (set_current (uint64 (current_buffer_count v - 1)) (set_vbuffers (delete id (vbuffers v)) v)) [Free id].
Proof.
  unfold trim_round. rewrite pbind_get. case_bool_decide as Hlt; [|left; split; [done|left; lia]].
  destruct (find_if _ _) as [[id o]|] eqn:Hf.
  - apply find_if_Some in Hf as [Hin%elem_of_entries Ho%bool_decide_eq_true]. cbn in Ho. subst o.
    right. exists id. split; [done|]. split; [done|]. by rewrite pbind_put.
  - left. split; [done|]. right. intros id Hid. pose proof (proj1 (find_if_None _ _) Hf (id, Self)) as Hno. cbn in Hno.
    rewrite bool_decide_true in Hno by done. by specialize (Hno (proj2 (elem_of_entries _ _ _) Hid)).
Qed.
Lemma trimmed_inv v out H id :
  vault_inv v out H → needed_buffer_count v < current_buffer_count v → vbuffers v !! id = Some Self →
  let v1 := set_current (uint64 (current_buffer_count v - 1)) (set_vbuffers (delete id (vbuffers v)) v) in
  vault_inv v1 out H ∧ current_buffer_count v1 = current_buffer_count v - 1.
Proof.
  intros [Hc Hout Hn Hr Hw Hh Hreg] Hlt Hin v1. pose proof (size_remove _ _ _ Hin) as Hs.
  pose proof (size_positive _ _ _ Hin) as Hpos.
  assert (current_buffer_count v1 = current_buffer_count v - 1) as Hc1 by (unfold v1; cbn; by rewrite uint64_id by lia).
  split; [|done]. constructor; [rewrite Hc1; cbn; lia|done|done|rewrite Hc1; cbn; lia| | |].
  - intros Hp. cbn in Hp. destruct (Hw Hp) as [_ Hself]. by destruct (Hself id).
  - intros i. cbn. rewrite Hh. destruct (decide (i = id)) as [->|Hne]; [|by rewrite lookup_delete_ne].
    by rewrite lookup_delete_eq, Hin.
  - intros rs i o Hm. cbn. intros [_ Hl]%lookup_delete_Some. eauto.
Qed.
Lemma trim_round_effect v out H : vault_inv v out H → ends (trim_round v) (λ v' t, vault_effect v v' out H t).
Proof.
  intros Hinv. unfold ends. destruct (trim_round_cases v) as [[-> _]|(id & Hlt & Hin & ->)]; [by apply effect_refl|].
  destruct (trimmed_inv v out H id Hinv Hlt Hin) as [Hinv1 _]. cbn [post trace].
  set (v1 := set_current _ _) in *. apply (effect_shift v v1); [done|done|].
  apply (effect_insert v1 _ out H [] [Free id] [] eq_refl). by apply effect_refl.
Qed.

(** The loop ends with the count down to what is needed, unless every buffer is
    out of our hands. *)
Lemma trim_loop_effect fuel v out H :
  vault_inv v out H → current_buffer_count v - needed_buffer_count v ≤ Z.of_nat fuel →
  let r := trim_loop fuel v in
  value r = Ret tt ∧ needed_buffer_count (post r) = needed_buffer_count v ∧
  (current_buffer_count (post r) ≤ needed_buffer_count v ∨ ∀ id, vbuffers (post r) !! id ≠ Some Self).
Proof.
  revert v. induction fuel as [|fuel IH]; intros v Hinv Hfuel; cbn zeta; cbn [trim_loop];
    (destruct (trim_round_cases v) as [[Hr Hend]|(id & Hlt & Hin & Hr)];
      [rewrite (pbind_silent _ _ _ _ _ Hr); by split_and!|]); [lia|].
  rewrite (pbind_run _ _ _ _ _ _ _ Hr eq_refl). cbn [value post].
  destruct (trimmed_inv v out H id Hinv Hlt Hin) as [Hinv1 Hc1].
  apply (IH _ Hinv1). rewrite Hc1. cbn. lia.
Qed.

Lemma set_interval_start_effect i v out H :
  vault_inv v out H → current_buffer_count v + 1 < 2 ^ 64 → needed_buffer_count v + 1 < 2 ^ 64 →
  ends (set_interval_start i v) (λ v' t, vault_effect v v' out H t).
Proof.
  intros Hinv H1 H2. unfold set_interval_start. rewrite pbind_get.
  case_bool_decide as Hi; [by apply effect_refl|]. rewrite pbind_put. pose proof Hinv as [Hc Hout Hn Hr Hw Hh Hreg].
  case_bool_decide as Hi0; rewrite !pbind_modify.
  - unfold ends, alloc_buffer. cbn. rewrite !uint64_id by lia. constructor; cbn; [|done|lia|rewrite app_nil_r; by apply tickets_unchanged].
    constructor; cbn; [lia|lia|lia|lia| |done|done]. intros Hp. destruct (Hw Hp). split; [lia|done].
  - set (v1 := set_needed _ _). assert (vault_inv v1 out H) as Hinv1 by (constructor; cbn; try done; lia).
    refine (ends_shift v v1 out H [] _ eq_refl eq_refl _). by apply trim_round_effect.
Qed.
Lemma set_interval_ends i v out H :
  vault_inv v out H → let r := set_interval i v in
  value r = Ret tt ∧
  (i ≠ 0 → i ≠ interval v →
     needed_buffer_count (post r) = initial_buffer_count v ∧
     (current_buffer_count (post r) ≤ initial_buffer_count v ∨ ∀ id, vbuffers (post r) !! id ≠ Some Self)).
Proof.
  intros Hinv r. unfold r, set_interval. destruct (decide (i = interval v)) as [Hi|Hi].
  { assert (set_interval_start i v = Run (Ret false) v []) as Hs by (unfold set_interval_start; by rewrite pbind_get, bool_decide_true).
    rewrite (pbind_silent _ _ _ _ _ Hs). by split. }
  destruct (decide (i = 0)) as [->|Hi0].
  { unfold set_interval_start. split; [|done]. unfold pbind at 1. rewrite pbind_get, bool_decide_false, pbind_put, bool_decide_true by done.
    by rewrite !pbind_modify. }
  set (v1 := set_needed (initial_buffer_count v) (set_interval_field i v)).
  assert (set_interval_start i v = trim_round v1) as Hs.
  { unfold set_interval_start. by rewrite pbind_get, bool_decide_false, pbind_put, bool_decide_false, pbind_modify by done. }
  assert (vault_inv v1 out H) as Hinv1 by (destruct Hinv as [Hc Hout Hn Hr Hw Hh Hreg]; constructor; cbn; try done; lia).
  destruct (trim_round_cases v1) as [[Hr Hend]|(id & Hlt & Hin & Hr)].
  - rewrite <- Hs in Hr. rewrite (pbind_silent _ _ _ _ _ Hr). by split_and!.
  - rewrite <- Hs in Hr. rewrite (pbind_run _ _ _ _ _ _ _ Hr eq_refl). cbn [value post]. rewrite pbind_get.
    destruct (trimmed_inv v1 out H id Hinv1 Hlt Hin) as [Hinv2 Hc2].
    set (v2 := set_current _ _) in *.
    destruct (trim_loop_effect (Z.to_nat (current_buffer_count v2 - needed_buffer_count v2)) v2 out H Hinv2) as (Hval & Hneed & Hend); [lia|].
    by split_and!.
Qed.

(** ** The vault, its producer and the server as a state machine

    [n] is the number of buffers asked for by the constructor.  The server
    announces buffers it owns or was asked for, through the buffer's own
    callback; the counters are far from wrapping. *)
Section machine.
Context (n : Z).

Inductive vault_op :=
  | OpRegister (id : Z) (sz : Size)
  | OpUnregister (id : Z)
  | OpLoseMap
  | OpWithdraw
  | OpDeposit (id : Z)
  | OpOutboundSubmit (id : Z)
  | OpOutboundFinish (done : Z)
  | OpReceived (package : bool) (id : Z)
  | OpDisconnected
  | OpSetSize (sz : Size)
  | OpSetScale (scale : float32)
  | OpSetInterval (i : Z)
  (** a further round of a [set_interval]; it may come at any time *)
  | OpTrimRound
  | OpMapRegion (id : Z)
  | OpUnmapRegion (id : Z).

Definition vault_exec (op : vault_op) : M unit :=
  match op with
  | OpRegister id sz => pmodify (λ v,
      set_surface_map (union {[id]} <$> surface_map v)
        (set_objects (<[id := mkClientBuffer sz false false true]> (objects v)) v))
  | OpUnregister id => pmodify (λ v, set_surface_map ((λ ids, ids ∖ {[id]}) <$> surface_map v) v)
  | OpLoseMap => pmodify (set_surface_map None)
  | OpWithdraw => do* withdraw in pret tt
  | OpDeposit id => do* pemit (Deposited id) in deposit id
  | OpOutboundSubmit id => outbound_submit id
  | OpOutboundFinish done => outbound_finish done
  | OpReceived package id =>
      let* v := pget in
      do* pwhen (bool_decide (vbuffers v !! id = None)) (pemit (Arrived id)) in
      received package id
  | OpDisconnected => disconnected
  | OpSetSize sz => set_size sz
  | OpSetScale scale => set_scale scale
  | OpSetInterval i => do* set_interval_start i in pret tt
  | OpTrimRound => do* trim_round in pret tt
  | OpMapRegion id => map_region id
  | OpUnmapRegion id => unmap_region id
  end.

Definition vault_allowed (v : Vault) (h : list vault_obs) (op : vault_op) : bool :=
  match op with
  | OpRegister id _ => bool_decide (objects v !! id = None)
  | OpUnregister id => bool_decide (vbuffers v !! id = None)
  | OpReceived _ id =>
      bool_decide (registered v id) && notify_vault (object id v) &&
      match vbuffers v !! id with
      | None => bool_decide (0 < n + outstanding h)
      | Some o => bool_decide (o = Server)
      end
  | OpSetInterval _ =>
      bool_decide (current_buffer_count v + 1 < 2 ^ 64) && bool_decide (needed_buffer_count v + 1 < 2 ^ 64)
  | _ => true
  end.

Definition vault_machine : machine := {|
  m_state := Vault;
  m_op := vault_op;
  m_obs := vault_obs;
  m_init v := 0 < n < 2 ^ 32 ∧ ∃ sz, v = new_vault_state (Some ∅) sz n;
  m_allowed := vault_allowed;
  m_exec := vault_exec
|}.

Lemma construct_vault_run sz v : 0 ≤ n → outstanding (trace (construct_vault sz n v)) = n.
Proof.
  intros Hn. unfold construct_vault, alloc_buffer. rewrite pfor_emit. cbn [trace].
  assert (∀ l : list Z, outstanding ((λ _, Alloc sz) <$> l) = Z.of_nat (length l)) as Hl.
  { unfold outstanding. induction l as [|x l IH]; [done|]. cbn. rewrite IH. lia. }
  rewrite Hl, length_seqZ. lia.
Qed.

Lemma vault_exec_effect v h op H :
  vault_inv v (n + outstanding h) H → vault_allowed v h op = true →
  ends (vault_exec op v) (λ v' t, vault_effect v v' (n + outstanding h) H t).
Proof.
  intros Hinv Hok. set (out := n + outstanding h) in *.
  assert (∀ v', vault_inv v' out H → next_ticket v' = next_ticket v → promises v' = promises v →
    vault_effect v v' out H []) as Hsilent by (intros; by apply neutral_effect).
  destruct op as [id sz|id| | |id|id|done|package id| |sz|scale|i| |id|id]; cbn [vault_allowed vault_exec] in *.
  - unfold ends. cbn. apply Hsilent; [|done|done]. destruct Hinv as [Hc Ho Hn Hr Hw Hh Hreg].
    constructor; try done. cbn. intros rs i o (rs0 & Hs & ->)%fmap_Some_1 Hi. apply elem_of_union. right. eauto.
  - apply bool_decide_eq_true in Hok. unfold ends. cbn. apply Hsilent; [|done|done].
    destruct Hinv as [Hc Ho Hn Hr Hw Hh Hreg].
    constructor; try done. cbn. intros rs i o (rs0 & Hs & ->)%fmap_Some_1 Hi.
    apply elem_of_difference. split; [eauto|]. rewrite elem_of_singleton. congruence.
  - unfold ends. cbn. apply Hsilent; [|done|done]. by apply (inv_same_books v); [..|right].
  - refine (ends_effect_bind _ _ v out H [] _ _); [by apply withdraw_effect|].
    intros a v' out' H' Hinv'. by apply effect_refl.
  - by apply deposit_effect.
  - by apply outbound_submit_effect.
  - by apply outbound_finish_effect.
  - rewrite pbind_get. apply andb_prop in Hok as [[Hreg%bool_decide_eq_true Hnot]%andb_prop Hid].
    destruct (vbuffers v !! id) as [o|] eqn:Hl; apply bool_decide_eq_true in Hid.
    + subst o. rewrite bool_decide_false by done. cbn [pwhen]. rewrite pbind_ret_l.
      apply (received_effect package v out H id []); [done| |done]. split; [done|by right].
    + rewrite bool_decide_true by done. cbn [pwhen]. eapply ends_bind; [done|].
      apply (received_effect package v out H id [Arrived id]); [done| |done]. split; [done|by left].
  - by apply disconnected_effect.
  - apply Hsilent; [|done|done]. by apply (inv_same_books v); [..|left].
  - unfold set_scale. rewrite pbind_get. apply Hsilent; [|done|done]. by apply (inv_same_books v); [..|left].
  - apply andb_prop in Hok as [?%bool_decide_eq_true ?%bool_decide_eq_true].
    refine (ends_effect_bind _ _ v out H [] _ _); [by apply set_interval_start_effect|].
    intros a v' out' H' Hinv'. by apply effect_refl.
  - refine (ends_effect_bind _ _ v out H [] _ _); [by apply trim_round_effect|].
    intros a v' out' H' Hinv'. by apply effect_refl.
  - unfold map_region. rewrite pbind_get. apply Hsilent; [|done|done]. by apply (inv_same_books v); [..|left].
  - unfold unmap_region. rewrite pbind_get. apply Hsilent; [|done|done]. by apply (inv_same_books v); [..|left].
Qed.

Lemma vault_reachable v h :
  reachable vault_machine v h →
  vault_inv v (n + outstanding h) (holders h) ∧ exclusive ∅ h ∧ 0 ≤ next_ticket v ∧
  promises v ++ resolved h ≡ₚ seqZ 0 (next_ticket v).
Proof.
  revert v h. apply (reachable_invariant vault_machine); cbn.
  - intros v [Hn [sz ->]]. split_and!; [|done|done|done].
    constructor; cbn [new_vault_state current_buffer_count vbuffers needed_buffer_count initial_buffer_count promises
      surface_map outstanding foldr]; [rewrite map_size_empty; lia|lia|lia|lia|done| |].
    + intros id. rewrite lookup_empty. split; [by intros ?%elem_of_empty|done].
    + intros rs id o _. by rewrite lookup_empty.
  - intros v h op _ (Hinv & Hex & Hn & Ht) Hok.
    destruct (vault_exec_effect v h op (holders h) Hinv Hok) as [Hi He Hne Ht'].
    unfold holders in *. rewrite foldl_app, outstanding_app, exclusive_app, resolved_app. split_and!; [|done|done|lia|].
    + by rewrite Z.add_assoc.
    + rewrite (Permutation_app_comm (resolved h)), app_assoc, Ht'.
      rewrite <- app_assoc, (Permutation_app_comm (seqZ _ _)), app_assoc, Ht.
      set (m := next_ticket (post (vault_exec op v))) in *.
      pose proof (seqZ_app 0 (next_ticket v) (m - next_ticket v) ltac:(lia) ltac:(lia)) as Hs.
      replace (next_ticket v + (m - next_ticket v)) with m in Hs by lia. by rewrite Hs.
Qed.
End machine.

(** ** Properties *)

(** C5. A buffer handed to the content producer is never one it already holds,
    and the vault's books agree with who holds what: the buffers with the
    producer are exactly those handed out and not deposited since. *)
Theorem vault_exclusive n v h :
  reachable (vault_machine n) v h →
  exclusive ∅ h ∧ ∀ id, id ∈ holders h ↔ vbuffers v !! id = Some ContentProducer.
Proof. intros (Hinv & He & _)%vault_reachable. split; [done|apply (vi_holders _ _ _ Hinv)]. Qed.

(** [current_buffer_count] is the number of buffers in the vault plus the
    allocations the server has not answered yet, and every future [withdraw]
    returned is either still queued or was resolved, and only once. *)
Theorem vault_accounting n v h :
  reachable (vault_machine n) v h →
  current_buffer_count v = Z.of_nat (base.size (vbuffers v)) + (n + outstanding h) ∧
  0 ≤ n + outstanding h ∧
  promises v ++ resolved h ≡ₚ seqZ 0 (next_ticket v).
Proof.
  intros (Hinv & _ & _ & Ht)%vault_reachable. split_and!; [apply (vi_count _ _ _ Hinv)|apply (vi_out _ _ _ Hinv)|done].
Qed.

(** C6. Nobody waits in vain: while a future is queued the vault keeps no
    buffer to itself, and some buffer is still to come, from the producer, from
    the server or as an allocation on its way. *)
Theorem vault_waiter_progress n v h :
  reachable (vault_machine n) v h → promises v ≠ [] →
  (∀ id, vbuffers v !! id ≠ Some Self) ∧
  (0 < n + outstanding h ∨ ∃ id o, vbuffers v !! id = Some o ∧ o ≠ Self).
Proof.
  intros (Hinv & _)%vault_reachable Hp. destruct Hinv as [Hc Ho _ _ Hw _ _].
  destruct (Hw Hp) as [Hpos Hself]. split; [done|].
  destruct (decide (0 < n + outstanding h)) as [|Hn]; [by left|right].
  assert (vbuffers v ≠ ∅) as Hne.
  { intros He. rewrite He, map_size_empty in Hc. lia. }
  apply map_choose in Hne as (id & o & Hid). exists id, o. split; [done|]. intros ->. by destruct (Hself id).
Qed.

(** [set_interval] alone always returns; leaving interval 0 gives up the extra
    buffers: afterwards the count is back to the initial one, or the vault has
    no buffer of its own left to free. *)
Theorem vault_set_interval n v h i :
  reachable (vault_machine n) v h →
  let r := set_interval i v in
  value r = Ret tt ∧
  (i ≠ 0 → i ≠ interval v →
     needed_buffer_count (post r) = initial_buffer_count v ∧
     (current_buffer_count (post r) ≤ initial_buffer_count v ∨ ∀ id, vbuffers (post r) !! id ≠ Some Self)).
Proof. intros (Hinv & _)%vault_reachable. by eapply set_interval_ends. Qed.

(** *** Witnesses *)
Definition vault_example : Vault := new_vault_state (Some ∅) (Sz 4 3) 2.
Definition vault_example_ops : list vault_op :=
  [OpRegister 1 (Sz 4 3); OpReceived false 1; OpRegister 2 (Sz 4 3); OpWithdraw; OpReceived false 2;
   OpSetInterval 0; OpDeposit 1; OpOutboundSubmit 1; OpOutboundFinish 7; OpWithdraw; OpWithdraw].
Definition vault_example_run : Vault * list vault_obs :=
  default (vault_example, []) (run_ops (vault_machine 2) vault_example_ops vault_example []).
Lemma vault_example_reachable : reachable (vault_machine 2) vault_example_run.1 vault_example_run.2.
Proof.
  apply (run_ops_from_init (vault_machine 2) vault_example_ops vault_example).
  - split; [done|]. by exists (Sz 4 3).
  - by vm_compute.
Qed.

Lemma vault_exclusive_witness : exclusive ∅ vault_example_run.2.
Proof. exact (proj1 (vault_exclusive _ _ _ vault_example_reachable)). Defined.
Lemma vault_accounting_witness : promises vault_example_run.1 ++ resolved vault_example_run.2 ≡ₚ seqZ 0 3.
Proof. exact (proj2 (proj2 (vault_accounting _ _ _ vault_example_reachable))). Defined.
Lemma vault_waiter_progress_witness :
  promises vault_example_run.1 = [2] ∧ ∀ id, vbuffers vault_example_run.1 !! id ≠ Some Self.
Proof.
  split; [by vm_compute|]. refine (proj1 (vault_waiter_progress _ _ _ vault_example_reachable _)). by vm_compute.
Defined.
Lemma vault_set_interval_witness : value (set_interval 1 vault_example_run.1) = Ret tt.
Proof. exact (proj1 (vault_set_interval _ _ _ 1 vault_example_reachable)). Defined.
