(* ===== verification/FrameDropping.v ===== *)
(** The frame dropping timer
    (src/server/compositor/timeout_frame_dropping_policy_factory.cpp) over the
    main loop's alarms (AlarmImpl in src/server/glib_main_loop.cpp, the timer
    source of glib_main_loop_sources.cpp).

    A stream calls its policy with the stream's mutex locked, and the main loop
    locks the same mutex before it dispatches the alarm
    ([Stream::DroppingCallback::lock]), so the calls below are atomic. *)

From S2P Require Import Prelude.

(** ** The alarm *)
Inductive AlarmState := Pending | Cancelled | Triggered.
#[export] Instance AlarmState_eq_dec : EqDecision AlarmState.
Proof. solve_decision. Defined.

(** [gsource]: the target time of the timer source that is attached and
    enabled; a disabled one does nothing when it is dispatched. *)
Record AlarmImpl := mkAlarm { alarm_state : AlarmState; gsource : option Z }.

(** [clock] is the main loop's time, [pending_swaps] an [unsigned int]. *)
Record DroppingPolicy := mkPolicy { alarm : AlarmImpl; pending_swaps : Z; clock : Z }.

(** [Blocked] and [Unblocked] mark a call that counted a swap and one that took
    a swap off the count; [DropFrame] is the wrapped callback. *)
Inductive drop_obs := Blocked | Unblocked | DropFrame.
#[export] Instance drop_obs_eq_dec : EqDecision drop_obs.
Proof. solve_decision. Defined.

#[local] Abbreviation M := (prog DroppingPolicy drop_obs).

Definition set_alarm (a : AlarmImpl) (s : DroppingPolicy) : DroppingPolicy := mkPolicy a (pending_swaps s) (clock s).
Definition set_swaps (n : Z) (s : DroppingPolicy) : DroppingPolicy := mkPolicy (alarm s) (uint32 n) (clock s).

Definition cancel : M bool :=
  do* pmodify (λ s, set_alarm
    (if bool_decide (alarm_state (alarm s) = Pending) then mkAlarm Cancelled None else mkAlarm (alarm_state (alarm s)) None) s) in
  let* s := pget in
  pret (bool_decide (alarm_state (alarm s) = Cancelled)).

Definition reschedule_in (delay : Z) : M unit :=
  pmodify (λ s, set_alarm (mkAlarm Pending (Some (clock s + delay))) s).

Section policy.
Context (timeout : Z).

(** [--pending_swaps > 0] *)
Definition decrement : M bool :=
  do* pmodify (λ s, set_swaps (pending_swaps s - 1) s) in
  let* s := pget in pret (0 <? pending_swaps s).

Definition swap_now_blocking : M unit :=
  do* pemit Blocked in
  let* s := pget in
  do* pput (set_swaps (pending_swaps s + 1) s) in
  pwhen (pending_swaps s =? 0) (reschedule_in timeout).

Definition swap_unblocked : M unit :=
  let* s := pget in
  if bool_decide (alarm_state (alarm s) ≠ Cancelled) then
    let* cancelled := cancel in
    if cancelled : bool then
      do* pemit Unblocked in
      let* more := decrement in
      pwhen more (reschedule_in timeout)
    else pret tt
  else pret tt.

(** The wrapped callback between its two hooks. *)
Definition alarm_callback : M unit :=
  let* s := pget in
  if bool_decide (0 < pending_swaps s) then
    do* pemit DropFrame in
    let* more := decrement in
    pwhen more (reschedule_in timeout)
  else pthrow (undefined_behaviour "assert(pending_swaps.load() > 0)").

(** The timer source is ready: its dispatch removes it, [AlarmImpl]'s own hook
    marks the alarm triggered. *)
Definition ready (s : DroppingPolicy) : bool :=
  match gsource (alarm s) with Some target => target <=? clock s | None => false end.
Definition dispatch : M unit :=
  let* s := pget in
  if ready s then
    do* pput (set_alarm (mkAlarm Triggered None) s) in alarm_callback
  else pret tt.

(** ** The policy as a machine *)
Inductive drop_op := OpBlocking | OpUnblocked | OpDispatch | OpWait (d : Z).
Definition drop_exec (op : drop_op) : M unit :=
  match op with
  | OpBlocking => swap_now_blocking
  | OpUnblocked => swap_unblocked
  | OpDispatch => dispatch
  | OpWait d => pmodify (λ s, mkPolicy (alarm s) (pending_swaps s) (clock s + d))
  end.
Definition drop_machine : machine := Machine DroppingPolicy drop_op drop_obs
  (λ s, ∃ t, s = mkPolicy (mkAlarm Cancelled None) 0 t)
  (λ s _ op, match op with
    | OpBlocking => pending_swaps s <? 2 ^ 32 - 1
    | OpWait d => 0 <=? d
    | _ => true
    end)
  drop_exec.

Definition occurrences (o : drop_obs) (h : list drop_obs) : Z := Z.of_nat (length (filter (λ o', o' = o) h)).

Record policy_ok (s : DroppingPolicy) (h : list drop_obs) : Prop := {
  p_count : occurrences Blocked h = occurrences Unblocked h + occurrences DropFrame h + pending_swaps s;
  p_range : 0 ≤ pending_swaps s < 2 ^ 32;
  p_armed : 0 < pending_swaps s →
    alarm_state (alarm s) = Pending ∧ ∃ target, gsource (alarm s) = Some target ∧ target ≤ clock s + timeout;
  p_off : pending_swaps s = 0 → alarm_state (alarm s) ≠ Pending ∧ gsource (alarm s) = None
}.

Lemma occurrences_snoc o h o' : occurrences o (h ++ [o']) = occurrences o h + if decide (o' = o) then 1 else 0.
Proof. unfold occurrences. rewrite filter_app, length_app, filter_cons. case_decide; cbn; lia. Qed.

(** Taking one swap off the count, [o] saying how, from a state whose alarm is
    off. *)
Definition rearmed (a : AlarmState) (s : DroppingPolicy) : DroppingPolicy :=
  if 1 <? pending_swaps s then mkPolicy (mkAlarm Pending (Some (clock s + timeout))) (pending_swaps s - 1) (clock s)
  else mkPolicy (mkAlarm a None) 0 (clock s).
Lemma decrement_run o a s g :
  0 < pending_swaps s < 2 ^ 32 →
  (do* pemit o in let* more := decrement in pwhen more (reschedule_in timeout)) (mkPolicy (mkAlarm a g) (pending_swaps s) (clock s)) =
    Run (Ret tt) (if 1 <? pending_swaps s then rearmed a s else mkPolicy (mkAlarm a g) 0 (clock s)) [o].
Proof.
  intros Hr. rewrite pbind_emit. unfold decrement. rewrite pbind_assoc, pbind_modify, pbind_assoc, pbind_get, pbind_ret_l.
  unfold set_swaps. cbn [pending_swaps alarm clock]. rewrite uint32_id by lia. unfold rearmed.
  destruct (Z.ltb_spec 1 (pending_swaps s)).
  - rewrite (proj2 (Z.ltb_lt 0 _)) by lia. done.
  - replace (pending_swaps s - 1) with 0 by lia. done.
Qed.
Lemma rearmed_ok o a s h :
  o ≠ Blocked → a ≠ Pending → 0 ≤ timeout → 0 < pending_swaps s → policy_ok s h → policy_ok (rearmed a s) (h ++ [o]).
Proof.
  intros Ho Ha Ht Hp [Hc Hr Harm Hoff].
  assert (∀ n, n = pending_swaps s - 1 →
    occurrences Blocked (h ++ [o]) = occurrences Unblocked (h ++ [o]) + occurrences DropFrame (h ++ [o]) + n) as Hcount.
  { intros n ->. rewrite !occurrences_snoc. destruct o; [done|..]; repeat case_decide; try done; lia. }
  unfold rearmed. destruct (Z.ltb_spec 1 (pending_swaps s)).
  - split; cbn [pending_swaps alarm clock alarm_state gsource]; [by apply Hcount|lia| |lia].
    intros _. split; [done|]. eexists. split; [done|lia].
  - split; cbn [pending_swaps alarm clock alarm_state gsource]; [apply Hcount; lia|lia|lia|done].
Qed.

Lemma drop_dispatch_run s h :
  policy_ok s h →
  dispatch s = if ready s then Run (Ret tt) (rearmed Triggered s) [DropFrame] else Run (Ret tt) s [].
Proof.
  intros [Hc Hr Harm Hoff]. unfold dispatch. rewrite pbind_get. destruct (ready s) eqn:Hready; [|done].
  assert (0 < pending_swaps s) as Hp.
  { destruct (decide (pending_swaps s = 0)) as [Hz|]; [|lia]. unfold ready in Hready. by rewrite (proj2 (Hoff Hz)) in Hready. }
  rewrite pbind_put.
  change (set_alarm (mkAlarm Triggered None) s) with (mkPolicy (mkAlarm Triggered None) (pending_swaps s) (clock s)).
  unfold alarm_callback. rewrite pbind_get. cbn [pending_swaps].
  rewrite bool_decide_true by done. rewrite decrement_run by lia. unfold rearmed. by destruct (1 <? pending_swaps s).
Qed.
Lemma swap_unblocked_run s h :
  policy_ok s h →
  swap_unblocked s = if 0 <? pending_swaps s then Run (Ret tt) (rearmed Cancelled s) [Unblocked]
    else Run (Ret tt) s [].
Proof.
  intros [Hc Hr Harm Hoff]. unfold swap_unblocked. rewrite pbind_get. destruct (Z.ltb_spec 0 (pending_swaps s)) as [Hp|Hp].
  - destruct (Harm Hp) as (Hst & _). rewrite bool_decide_true by (by rewrite Hst).
    unfold cancel. rewrite pbind_assoc, pbind_modify, pbind_assoc, pbind_get, pbind_ret_l.
    rewrite (bool_decide_true (alarm_state (alarm s) = Pending)) by done. unfold set_alarm. cbn [alarm alarm_state].
    rewrite bool_decide_true by done.
    rewrite decrement_run by lia. unfold rearmed. by destruct (1 <? pending_swaps s).
  - assert (pending_swaps s = 0) as Hz by lia. destruct (Hoff Hz) as [Hst Hg].
    destruct (decide (alarm_state (alarm s) = Cancelled)) as [Hs|Hs]; [by rewrite bool_decide_false by tauto|].
    rewrite bool_decide_true by done. unfold cancel. rewrite pbind_assoc, pbind_modify, pbind_assoc, pbind_get, pbind_ret_l.
    rewrite (bool_decide_false (alarm_state (alarm s) = Pending)) by done. unfold set_alarm. cbn [alarm alarm_state].
    rewrite bool_decide_false by done. cbn.
    f_equal. destruct s as [[st g] n t]. cbn in *. by subst.
Qed.
Lemma swap_now_blocking_run s h :
  policy_ok s h → pending_swaps s < 2 ^ 32 - 1 →
  swap_now_blocking s = Run (Ret tt)
    (mkPolicy (if bool_decide (pending_swaps s = 0) then mkAlarm Pending (Some (clock s + timeout)) else alarm s)
       (pending_swaps s + 1) (clock s)) [Blocked].
Proof.
  intros [Hc Hr Harm Hoff] Hlt. unfold swap_now_blocking. rewrite pbind_emit, pbind_get, pbind_put.
  unfold set_swaps. rewrite uint32_id by lia. destruct (Z.eqb_spec (pending_swaps s) 0).
  - by rewrite bool_decide_true.
  - by rewrite bool_decide_false.
Qed.

Lemma drop_reachable s h : 0 ≤ timeout → reachable drop_machine s h → policy_ok s h.
Proof.
  intros Ht. revert s h. apply (reachable_invariant drop_machine policy_ok).
  - intros s [t ->]. by split; cbn.
  - intros s h op _ Hok Hall. destruct op as [| | |d]; cbn [drop_machine m_exec m_allowed drop_exec] in *.
    + apply Z.ltb_lt in Hall. rewrite (swap_now_blocking_run s h) by done. pose proof Hok as [Hc Hr Harm Hoff].
      split; cbn [post trace pending_swaps alarm clock]; [|lia| |lia].
      * rewrite !occurrences_snoc. repeat case_decide; try done; lia.
      * intros _. case_bool_decide as Hz; [split; [done|]; eexists; split; [done|lia]|]. apply Harm. lia.
    + rewrite (swap_unblocked_run s h) by done. destruct (Z.ltb_spec 0 (pending_swaps s)); cbn [post trace].
      * by apply rearmed_ok.
      * by rewrite app_nil_r.
    + rewrite (drop_dispatch_run s h) by done. destruct (ready s) eqn:Hready; cbn [post trace]; [|by rewrite app_nil_r].
      apply rearmed_ok; try done. unfold ready in Hready. pose proof (p_range _ _ Hok).
      destruct (decide (pending_swaps s = 0)) as [Hz|]; [|lia]. by rewrite (proj2 (p_off _ _ Hok Hz)) in Hready.
    + apply Z.leb_le in Hall. destruct Hok as [Hc Hr Harm Hoff]. cbn. rewrite app_nil_r. split; cbn; [done..| |done].
      intros Hp. destruct (Harm Hp) as (Hst & target & Hg & Hle). split; [done|]. exists target. split; [done|lia].
Qed.

(** The main loop sleeps until the alarm is due and dispatches it. *)
Definition expire : M unit :=
  do* pmodify (λ s, match gsource (alarm s) with
    | Some target => mkPolicy (alarm s) (pending_swaps s) (Z.max (clock s) target)
    | None => s
    end) in
  dispatch.
Fixpoint expirations (n : nat) : M unit := match n with O => pret tt | S n' => do* expire in expirations n' end.
End policy.

Lemma expire_run timeout s h :
  0 ≤ timeout → policy_ok timeout s h → 0 < pending_swaps s →
  ∃ now, clock s ≤ now ≤ clock s + timeout ∧
    expire timeout s = Run (Ret tt) (rearmed timeout Triggered (mkPolicy (alarm s) (pending_swaps s) now)) [DropFrame].
Proof.
  intros Ht Hok Hp. destruct (p_armed _ _ _ Hok Hp) as (Hst & target & Hg & Hle).
  exists (Z.max (clock s) target). split; [lia|]. unfold expire. rewrite pbind_modify, Hg.
  assert (policy_ok timeout (mkPolicy (alarm s) (pending_swaps s) (Z.max (clock s) target)) h) as Hok'.
  { destruct Hok as [Hc Hr Harm Hoff]. split; cbn; try done. intros _. split; [done|]. exists target. split; [done|lia]. }
  rewrite (drop_dispatch_run _ _ h Hok'). unfold ready. cbn [alarm clock]. rewrite Hg.
  by rewrite (proj2 (Z.leb_le _ _)) by lia.
Qed.
Lemma expirations_run timeout n s h :
  0 ≤ timeout → policy_ok timeout s h → pending_swaps s = Z.of_nat n →
  let r := expirations timeout n s in
  value r = Ret tt ∧ pending_swaps (post r) = 0 ∧ trace r = replicate n DropFrame ∧
  clock (post r) ≤ clock s + Z.of_nat n * timeout.
Proof.
  intros Ht. revert s h. induction n as [|n IH]; intros s h Hok Hn; cbn [expirations].
  { cbn. split_and!; [done|lia|done|lia]. }
  destruct (expire_run timeout s h Ht Hok ltac:(lia)) as (now & Hnow & Hrun).
  set (s' := mkPolicy (alarm s) (pending_swaps s) now) in *.
  assert (policy_ok timeout s' h) as Hok'.
  { destruct Hok as [Hc Hr Harm Hoff]. split; cbn; try done. intros Hp. destruct (Harm Hp) as (? & t & ? & ?).
    split; [done|]. exists t. split; [done|lia]. }
  assert (pending_swaps (rearmed timeout Triggered s') = Z.of_nat n ∧ clock (rearmed timeout Triggered s') = now) as [Hn' Hc'].
  { unfold rearmed. destruct (Z.ltb_spec 1 (pending_swaps s')); cbn in *; lia. }
  destruct (IH _ _ (rearmed_ok timeout DropFrame Triggered s' h ltac:(done) ltac:(done) Ht ltac:(cbn; lia) Hok') Hn')
    as (Hv & Hz & Htr & Hcl).
  unfold pbind. rewrite Hrun. cbn [value post trace]. rewrite Hv, Hz, Htr. split_and!; [done..|]. lia.
Qed.

(** Every swap a client blocks on is answered exactly once: the swaps
    counted so far are those unblocked, those dropped and those pending; the
    counter never wraps, the callback's assertion holds whenever it runs, and
    the alarm is armed, for at most one [timeout] ahead, exactly while a swap is
    pending.  If the compositor takes no further buffer, the [n] swaps pending
    are dropped by the next [n] expirations, after at most [n] timeouts. *)
Theorem frame_drop_timer timeout s h :
  0 ≤ timeout → reachable (drop_machine timeout) s h →
  occurrences Blocked h = occurrences Unblocked h + occurrences DropFrame h + pending_swaps s ∧
  0 ≤ pending_swaps s < 2 ^ 32 ∧
  (0 < pending_swaps s ↔ alarm_state (alarm s) = Pending) ∧
  (∀ target, gsource (alarm s) = Some target → 0 < pending_swaps s ∧ target ≤ clock s + timeout) ∧
  value (dispatch timeout s) = Ret tt ∧
  let r := expirations timeout (Z.to_nat (pending_swaps s)) s in
  pending_swaps (post r) = 0 ∧ trace r = replicate (Z.to_nat (pending_swaps s)) DropFrame ∧
  clock (post r) ≤ clock s + pending_swaps s * timeout.
Proof.
  intros Ht Hr. pose proof (drop_reachable timeout s h Ht Hr) as Hok. pose proof Hok as [Hc Hrange Harm Hoff].
  split; [done|]. split; [done|]. split; [|split; [|split]].
  - split; [by intros [? _]%Harm|]. intros Hp. destruct (decide (pending_swaps s = 0)) as [Hz|]; [|lia]. by destruct (Hoff Hz).
  - intros target Hg. destruct (decide (pending_swaps s = 0)) as [Hz|].
    + destruct (Hoff Hz) as [_ Hn]. congruence.
    + assert (0 < pending_swaps s) as Hp by lia. split; [done|]. destruct (Harm Hp) as (_ & t & Hg' & Hle). congruence.
  - rewrite (drop_dispatch_run timeout s h) by done. by destruct (ready s).
  - destruct (expirations_run timeout (Z.to_nat (pending_swaps s)) s h Ht Hok ltac:(lia)) as (_ & Hz & Htr & Hcl).
    split; [done|]. split; [done|]. rewrite Z2Nat.id in Hcl by lia. done.
Qed.

Definition drop_example_ops : list drop_op :=
  [OpBlocking; OpWait 40; OpBlocking; OpUnblocked; OpUnblocked; OpUnblocked; OpBlocking; OpBlocking; OpBlocking; OpWait 120;
   OpDispatch; OpWait 30; OpDispatch].
Definition drop_example_run : DroppingPolicy * list drop_obs :=
  default (mkPolicy (mkAlarm Cancelled None) 0 0, [])
    (run_ops (drop_machine 100) drop_example_ops (mkPolicy (mkAlarm Cancelled None) 0 0) []).
Lemma drop_example_reachable : reachable (drop_machine 100) drop_example_run.1 drop_example_run.2.
Proof.
  apply (run_ops_from_init (drop_machine 100) drop_example_ops (mkPolicy (mkAlarm Cancelled None) 0 0)); [by exists 0|].
  vm_compute. reflexivity.
Qed.
Lemma frame_drop_timer_witness :
  pending_swaps drop_example_run.1 = 2 ∧ alarm_state (alarm drop_example_run.1) = Pending ∧
  trace (expirations 100 2 drop_example_run.1) = [DropFrame; DropFrame].
Proof.
  assert (pending_swaps drop_example_run.1 = 2) as Hp by (vm_compute; reflexivity). split; [exact Hp|].
  destruct (frame_drop_timer 100 _ _ ltac:(lia) drop_example_reachable) as (_ & _ & Harm & _ & _ & Hexp).
  split; [apply Harm; lia|]. rewrite Hp in Hexp. apply Hexp.
Defined.
