(* ===== verification/CompositorThreads.v ===== *)
(** The compositing threads (src/server/compositor/multi_threaded_compositor.cpp):
    the loop that composites each group of displays, at the grain of its mutex,
    and starting and stopping all of them. *)

From S2P Require Import Prelude Geometry.

(** ** State *)
Record DisplayBuffer := mkBuffer { buffer_id : Z; view_area : Rectangle }.
#[export] Instance DisplayBuffer_eq_dec : EqDecision DisplayBuffer.
Proof. solve_decision. Defined.
#[export] Instance DisplayBuffer_countable : Countable DisplayBuffer := inj_countable'
  (λ b, (buffer_id b, (px (top_left (view_area b)), py (top_left (view_area b))),
         (width (size (view_area b)), height (size (view_area b)))))
  (λ '(i, (x, y), (w, h)), mkBuffer i (Rect (Pt x y) (Sz w h)))
  ltac:(by intros [? [[] []]]).

(** Where a thread is: not yet in its loop, about to take [run_mutex], waiting
    for [run_cv] (and whether it was notified), between [unlock] and [lock]
    before and behind [post], returned from [operator()]. *)
Inductive phase := Starting | Ready | Asleep | Notified | Compositing | Composited | Finished.
#[export] Instance phase_eq_dec : EqDecision phase.
Proof. solve_decision. Defined.

(** [thread] numbers the functors; [started] is the promise: unset, a value or
    an exception. *)
Record CompositingFunctor := mkFunctor {
  thread : Z;
  group : list DisplayBuffer;
  running : bool;
  frames_scheduled : Z;
  not_posted_yet : bool;
  started : option (option exn);
  at_phase : phase
}.

Definition new_functor (t : Z) (g : list DisplayBuffer) : CompositingFunctor :=
  mkFunctor t g true 0 true None Starting.

Inductive CompositorState := CSStarted | CSStopped | CSStarting | CSStopping.
#[export] Instance CompositorState_eq_dec : EqDecision CompositorState.
Proof. solve_decision. Defined.

Record Compositor := mkCompositor {
  state : CompositorState;
  functors : list CompositingFunctor;
  compose_on_start : bool;
  next_thread : Z
}.

(** Calls that returned.  [Requested], [FrameStart] and [Recounted] mark a call
    of [schedule_compositing], a frame taken from the count and the frames the
    scene says are pending. *)
Inductive comp_obs :=
  | CreateCompositor (t : Z) (b : DisplayBuffer)
  | AddDisplay (t : Z) (b : DisplayBuffer)
  | RemoveDisplay (t : Z) (b : DisplayBuffer)
  | RegisterCompositor (t : Z) (b : DisplayBuffer)
  | UnregisterCompositor (t : Z) (b : DisplayBuffer)
  | Requested (t : Z) (num_frames : Z) (damage : option Rectangle)
  | FrameStart (t : Z)
  | Composite (t : Z) (b : DisplayBuffer)
  | Post (t : Z)
  | Recounted (t : Z) (pending : Z)
  | AddObserver
  | RemoveObserver
  | ReportStarted
  | ReportStopped
  | ReportScheduled.
#[export] Instance comp_obs_eq_dec : EqDecision comp_obs.
Proof. solve_decision. Defined.

(** The calls that may throw. *)
Inductive call :=
  | CCreate (b : DisplayBuffer)
  | CAddDisplay (b : DisplayBuffer)
  | CRegister (b : DisplayBuffer)
  | CAddObserver
  | CRemoveObserver.

#[local] Abbreviation F := (prog CompositingFunctor comp_obs).
#[local] Abbreviation M := (prog Compositor comp_obs).

Definition attempt {S} (error : option exn) (o : comp_obs) : prog S comp_obs unit :=
  match error with None => pemit o | Some e => pthrow e end.

(** ** CompositingFunctor *)
Definition set_phase (p : phase) (f : CompositingFunctor) : CompositingFunctor :=
  mkFunctor (thread f) (group f) (running f) (frames_scheduled f) (not_posted_yet f) (started f) p.
Definition set_frames (n : Z) (f : CompositingFunctor) : CompositingFunctor :=
  mkFunctor (thread f) (group f) (running f) n (not_posted_yet f) (started f) (at_phase f).
Definition set_started (r : option exn) (p : phase) (f : CompositingFunctor) : CompositingFunctor :=
  mkFunctor (thread f) (group f) (running f) (frames_scheduled f) (not_posted_yet f) (Some r) p.

(** [run_cv.notify_one()]: only the functor's own thread waits. *)
Definition notify_one (f : CompositingFunctor) : CompositingFunctor :=
  match at_phase f with Asleep => set_phase Notified f | _ => f end.

Section functor.
Context (error : call → option exn) (pending : DisplayBuffer → Z).

(** [operator()] up to [started.set_value()].  A guard made by [paired_calls]
    undoes what its first function did only once that function has returned. *)
Definition thread_startup : F unit :=
  let* f := pget in
  let t := thread f in
  pcatch
    (do* pfor (group f) (λ b, attempt (error (CCreate b)) (CreateCompositor t b)) in
     do* pfor (group f) (λ b, attempt (error (CAddDisplay b)) (AddDisplay t b)) in
     do* pcatch
       (pfor (group f) (λ b, attempt (error (CRegister b)) (RegisterCompositor t b)))
       (λ e, do* pfor (group f) (λ b, pemit (RemoveDisplay t b)) in pthrow e) in
     pmodify (set_started None Ready))
    (λ e, pmodify (set_started (Some e) Finished)).

(** The end of [operator()]: the two guards. *)
Definition thread_end : F unit :=
  let* f := pget in
  do* pfor (group f) (λ b, pemit (UnregisterCompositor (thread f) b)) in
  do* pfor (group f) (λ b, pemit (RemoveDisplay (thread f) b)) in
  pmodify (set_phase Finished).

(** From inside [run_cv.wait], under the lock, to the next [unlock]. *)
Definition wait : F unit :=
  let* f := pget in
  if (0 <? frames_scheduled f) || negb (running f) then
    if running f then
      do* pemit (FrameStart (thread f)) in
      pmodify (λ f, mkFunctor (thread f) (group f) (running f) (frames_scheduled f - 1) false (started f) Compositing)
    else thread_end
  else pmodify (set_phase Asleep).

(** [while (running)], under the lock. *)
Definition loop_head : F unit :=
  let* f := pget in if running f then wait else thread_end.

(** What the thread does without the lock. *)
Definition composite_all : F unit :=
  let* f := pget in
  do* pfor (group f) (λ b, pemit (Composite (thread f) b)) in
  do* pemit (Post (thread f)) in
  pmodify (set_phase Composited).

Definition max_pending (bs : list DisplayBuffer) : Z :=
  foldl (λ p b, if p <? pending b then pending b else p) 0 bs.

(** Behind [lock.lock()], and on to the head of the loop. *)
Definition recount : F unit :=
  let* f := pget in
  let p := max_pending (group f) in
  do* pemit (Recounted (thread f) p) in
  do* pwhen (frames_scheduled f <? p) (pmodify (set_frames p)) in
  loop_head.

(** One turn of the thread; [Asleep] stands for a spurious wake-up. *)
Definition thread_step : F unit :=
  let* f := pget in
  match at_phase f with
  | Starting => thread_startup
  | Ready => loop_head
  | Asleep | Notified => wait
  | Compositing => composite_all
  | Composited => recount
  | Finished => pret tt
  end.

Definition schedule_compositing (num_frames : Z) : F unit :=
  let* f := pget in
  do* pemit (Requested (thread f) num_frames None) in
  pwhen (frames_scheduled f <? num_frames) (pmodify (λ f, notify_one (set_frames num_frames f))).

Definition schedule_damage (num_frames : Z) (damage : Rectangle) : F unit :=
  let* f := pget in
  let took_damage := foldl (λ took b, if overlaps damage (view_area b) then true else took) (not_posted_yet f) (group f) in
  do* pemit (Requested (thread f) num_frames (Some damage)) in
  pwhen (took_damage && (frames_scheduled f <? num_frames)) (pmodify (λ f, notify_one (set_frames num_frames f))).

Definition functor_stop : F unit :=
  pmodify (λ f, notify_one
    (mkFunctor (thread f) (group f) false (frames_scheduled f) (not_posted_yet f) (started f) (at_phase f))).

(** [future.wait()] once the functor is stopped: three turns are enough. *)
Definition join_thread : F unit := do* thread_step in do* thread_step in thread_step.
End functor.

(** [late]: the thread has not started within 10 seconds. *)
Definition wait_until_started (late : bool) (f : CompositingFunctor) : outcome unit :=
  if late then Throw (runtime_error "Compositor thread failed to start")
  else match started f with
    | Some (Some e) => Throw e
    | Some None => Ret tt
    | None => Throw (runtime_error "Compositor thread failed to start")
    end.

(** ** MultiThreadedCompositor *)
Definition set_state (c : CompositorState) (s : Compositor) : Compositor :=
  mkCompositor c (functors s) (compose_on_start s) (next_thread s).
Definition set_functors (fs : list CompositingFunctor) (s : Compositor) : Compositor :=
  mkCompositor (state s) fs (compose_on_start s) (next_thread s).

(** [for (auto& f : thread_functors) m(f)], for calls that do not throw. *)
Definition each (m : F unit) : M unit := λ s,
  Run (Ret tt) (set_functors ((λ f, post (m f)) <$> functors s) s) (concat ((λ f, trace (m f)) <$> functors s)).

(** One turn of the thread with the given index. *)
Definition turn (i : nat) (m : F unit) : M unit := λ s,
  match functors s !! i with
  | Some f => Run (Ret tt) (set_functors (<[i := post (m f)]> (functors s)) s) (trace (m f))
  | None => Run (Ret tt) s []
  end.

Definition schedule_threads (num : Z) : M unit :=
  do* pemit ReportScheduled in each (schedule_compositing num).
Definition schedule_threads_damage (num : Z) (damage : Rectangle) : M unit :=
  do* pemit ReportScheduled in each (schedule_damage num damage).

Section compositor.
(** What the calls throw, which threads are late, what the scene says is
    pending, and what [std::uncaught_exception] answers outside an exception. *)
Context (error : call → option exn) (late : CompositingFunctor → bool) (pending : DisplayBuffer → Z) (uncaught : bool).

Definition create_compositing_threads (groups : list (list DisplayBuffer)) : M unit :=
  do* pfor groups (λ g, pmodify (λ s,
    mkCompositor (state s) (functors s ++ [new_functor (next_thread s) g]) (compose_on_start s) (next_thread s + 1))) in
  (** the threads start while [wait_until_started] waits for them in turn *)
  do* each (λ f, if late f then Run (Ret tt) f [] else thread_startup error f) in
  let* s := pget in
  pfor (functors s) (λ f, plift (wait_until_started (late f) f)).

Definition destroy_compositing_threads : M unit :=
  do* each functor_stop in
  do* each (join_thread error pending) in
  pmodify (set_functors []).

Definition start (groups : list (list DisplayBuffer)) : M unit :=
  let* s := pget in
  if bool_decide (state s = CSStopped) then
    do* pmodify (set_state CSStarting) in
    do* pemit ReportStarted in
    on_unwind uncaught
      (let* s := pget in
       if bool_decide (state s = CSStarted) then pret tt
       else do* destroy_compositing_threads in pmodify (set_state CSStopped))
      (do* create_compositing_threads groups in
       do* attempt (error CAddObserver) AddObserver in
       let* s := pget in
       do* pwhen (compose_on_start s) (schedule_threads 1) in
       pmodify (set_state CSStarted))
  else pret tt.

Definition stop : M unit :=
  let* s := pget in
  if bool_decide (state s = CSStarted) then
    do* pmodify (set_state CSStopping) in
    on_unwind uncaught
      (let* s := pget in
       if bool_decide (state s = CSStopped) then pret tt else pmodify (set_state CSStarted))
      (do* attempt (error CRemoveObserver) RemoveObserver in
       do* destroy_compositing_threads in
       do* pmodify (λ s, mkCompositor (state s) (functors s) true (next_thread s)) in
       do* pemit ReportStopped in
       pmodify (set_state CSStopped))
  else pret tt.
End compositor.

(** ** The compositor as a machine

    [start] and [stop] are called by one thread; while they run no observer is
    added, so the calls of the scene and the turns of the threads interleave with
    them as they do between them. *)
Inductive comp_op :=
  | OpStart (groups : list (list DisplayBuffer)) (error : call → option exn) (late : CompositingFunctor → bool)
      (pending : DisplayBuffer → Z) (uncaught : bool)
  | OpStop (error : call → option exn) (pending : DisplayBuffer → Z) (uncaught : bool)
  | OpSchedule (num : Z)
  | OpScheduleDamage (num : Z) (damage : Rectangle)
  | OpThread (i : nat) (pending : DisplayBuffer → Z).

Definition no_error : call → option exn := λ _, None.

Definition comp_exec (op : comp_op) : M unit :=
  match op with
  | OpStart groups error late pending uncaught => start error late pending uncaught groups
  | OpStop error pending uncaught => stop error pending uncaught
  | OpSchedule num => schedule_threads num
  | OpScheduleDamage num damage => schedule_threads_damage num damage
  | OpThread i pending => turn i (thread_step no_error pending)
  end.

(** Adding displays and registering compositors does not throw half-way. *)
Definition registers (error : call → option exn) (groups : list (list DisplayBuffer)) : bool :=
  forallb (forallb (λ b, bool_decide (error (CAddDisplay b) = None ∧ error (CRegister b) = None))) groups.

Definition comp_machine : machine := Machine Compositor comp_op comp_obs
  (λ s, ∃ compose, s = mkCompositor CSStopped [] compose 0)
  (λ _ _ op, match op with OpStart groups error _ _ _ => registers error groups | _ => true end)
  comp_exec.

(** ** What the history says *)
Definition shown_step (g : gset (Z * DisplayBuffer)) (o : comp_obs) : gset (Z * DisplayBuffer) :=
  match o with
  | AddDisplay t b => {[(t, b)]} ∪ g
  | RemoveDisplay t b => g ∖ {[(t, b)]}
  | _ => g
  end.
Definition shown (h : list comp_obs) : gset (Z * DisplayBuffer) := foldl shown_step ∅ h.
Definition registered_step (g : gset (Z * DisplayBuffer)) (o : comp_obs) : gset (Z * DisplayBuffer) :=
  match o with
  | RegisterCompositor t b => {[(t, b)]} ∪ g
  | UnregisterCompositor t b => g ∖ {[(t, b)]}
  | _ => g
  end.
Definition registered (h : list comp_obs) : gset (Z * DisplayBuffer) := foldl registered_step ∅ h.
Definition observing_step (b : bool) (o : comp_obs) : bool :=
  match o with AddObserver => true | RemoveObserver => false | _ => b end.
Definition observing (h : list comp_obs) : bool := foldl observing_step false h.

(** The frames a thread started. *)
Definition starts (t : Z) (h : list comp_obs) : Z :=
  Z.of_nat (length (filter (λ o, o = FrameStart t) h)).

(** What a call asks of a thread: a request without damage, or one whose damage
    concerns the thread, because it meets one of the displays or because the
    thread has not composited yet; and what the scene says is pending. *)
Definition asks (f : CompositingFunctor) (before : list comp_obs) (o : comp_obs) : option Z :=
  match o with
  | Requested t n None => if bool_decide (t = thread f) then Some n else None
  | Requested t n (Some damage) =>
      if bool_decide (t = thread f) &&
         (bool_decide (starts t before = 0) || existsb (λ b, overlaps damage (view_area b)) (group f))
      then Some n else None
  | Recounted t n => if bool_decide (t = thread f) then Some n else None
  | _ => None
  end.

(** ** Invariants of a thread *)
Definition obs_thread (o : comp_obs) : option Z :=
  match o with
  | CreateCompositor t _ | AddDisplay t _ | RemoveDisplay t _ | RegisterCompositor t _ | UnregisterCompositor t _
  | Requested t _ _ | FrameStart t | Composite t _ | Post t | Recounted t _ => Some t
  | _ => None
  end.
Definition foreign (t : Z) (o : comp_obs) : Prop := obs_thread o ≠ Some t.

(** Observations that ask nothing of thread [t] and are no frame of it. *)
Definition neutral (t : Z) (o : comp_obs) : Prop :=
  match o with Requested t' _ _ | FrameStart t' | Recounted t' _ => t' ≠ t | _ => True end.

(** Registered with the display listener and the scene. *)
Definition live (f : CompositingFunctor) : bool :=
  match at_phase f with Starting | Finished => false | _ => true end.

Record counts (f : CompositingFunctor) (h : list comp_obs) : Prop := {
  c_owed : ∀ h1 o h2 n, h = h1 ++ o :: h2 → asks f h1 o = Some n → n ≤ starts (thread f) h2 + frames_scheduled f;
  c_due : 0 < frames_scheduled f →
    ∃ h1 o h2 n, h = h1 ++ o :: h2 ∧ asks f h1 o = Some n ∧ n = starts (thread f) h2 + frames_scheduled f;
  c_nonneg : 0 ≤ frames_scheduled f;
  c_posted : not_posted_yet f = bool_decide (starts (thread f) h = 0)
}.
Record displays (f : CompositingFunctor) (h : list comp_obs) : Prop := {
  d_shown : ∀ b, (thread f, b) ∈ shown h ↔ live f = true ∧ b ∈ group f;
  d_registered : ∀ b, (thread f, b) ∈ registered h ↔ live f = true ∧ b ∈ group f
}.
Record thread_ok (f : CompositingFunctor) (h : list comp_obs) : Prop := {
  t_counts : counts f h;
  t_displays : displays f h;
  t_asleep : at_phase f = Asleep → frames_scheduled f = 0 ∧ running f = true;
  t_started : live f = true → started f = Some None
}.

Lemma starts_app t h k : starts t (h ++ k) = starts t h + starts t k.
Proof. unfold starts. rewrite filter_app, length_app. lia. Qed.
Lemma starts_cons t o h : starts t (o :: h) = (if decide (o = FrameStart t) then 1 else 0) + starts t h.
Proof. unfold starts. rewrite filter_cons. case_decide; cbn; lia. Qed.
Lemma starts_nonneg t h : 0 ≤ starts t h.
Proof. unfold starts. lia. Qed.
Lemma starts_neutral t h : (∀ o, o ∈ h → neutral t o) → starts t h = 0.
Proof.
  induction h as [|o h IH]; intros Hn; [done|]. rewrite starts_cons.
  rewrite IH by (intros ? ?; apply Hn; by right). case_decide as Ho; [|lia].
  specialize (Hn o ltac:(left)). by subst o.
Qed.
Lemma starts_none t h : (∀ o, o ∈ h → o ≠ FrameStart t) → starts t h = 0.
Proof.
  induction h as [|o h IH]; intros Hn; [done|]. rewrite starts_cons, decide_False by (apply Hn; left).
  apply IH. intros ? ?. apply Hn. by right.
Qed.
Lemma foreign_neutral t o : foreign t o → neutral t o.
Proof. unfold foreign. destruct o; cbn; try done; congruence. Qed.
Lemma asks_neutral f h o : neutral (thread f) o → asks f h o = None.
Proof. destruct o as [| | | | |? ? []| | | | | | | | |]; cbn; try done; intros; by rewrite bool_decide_false. Qed.
Lemma asks_same f f' h o : thread f' = thread f → group f' = group f → asks f' h o = asks f h o.
Proof. unfold asks. by intros -> ->. Qed.

(** One more observation. *)
Lemma counts_snoc f f' h o :
  counts f h → thread f' = thread f → group f' = group f →
  frames_scheduled f ≤ starts (thread f) [o] + frames_scheduled f' →
  (∀ n, asks f h o = Some n → n ≤ frames_scheduled f') →
  (0 < frames_scheduled f' → asks f h o = Some (frames_scheduled f') ∨
     0 < frames_scheduled f ∧ frames_scheduled f = starts (thread f) [o] + frames_scheduled f') →
  0 ≤ frames_scheduled f' →
  not_posted_yet f' = bool_decide (starts (thread f) (h ++ [o]) = 0) →
  counts f' (h ++ [o]).
Proof.
  intros [Howed Hdue Hnn Hp] Ht Hg Hle Hask Hd Hnn' Hp'. split; rewrite ?Ht; [|intros Hpos|done|done].
  - intros h1 x h2 n Heq. rewrite (asks_same f) by done. destruct h2 as [|y h2 _] using rev_ind.
    + apply app_inj_tail in Heq as [<- <-]. intros Hn%Hask. change (starts (thread f) []) with 0. lia.
    + rewrite app_comm_cons, app_assoc in Heq. apply app_inj_tail in Heq as [Heq <-]. intros Hn.
      pose proof (Howed _ _ _ _ Heq Hn). rewrite starts_app. lia.
  - setoid_rewrite (asks_same f f'); [|done|done]. destruct (Hd Hpos) as [Hn|[Hf Hs]].
    + exists h, o, [], (frames_scheduled f'). by repeat split.
    + destruct (Hdue Hf) as (h1 & x & h2 & n & -> & Hn & Hnf).
      exists h1, x, (h2 ++ [o]), n. rewrite <- app_assoc. split; [done|]. split; [done|]. rewrite starts_app. lia.
Qed.

Lemma counts_same f f' h :
  counts f h → thread f' = thread f → group f' = group f → frames_scheduled f' = frames_scheduled f →
  not_posted_yet f' = not_posted_yet f → counts f' h.
Proof.
  intros [Howed Hdue Hnn Hp] Ht Hg Hf Hn. split; rewrite ?Ht, ?Hf, ?Hn; [|intros Hpos|done|done].
  - intros h1 o h2 n ?. rewrite (asks_same f) by done. eauto.
  - setoid_rewrite (asks_same f f'); [|done|done]. auto.
Qed.
Lemma counts_neutral f h k : counts f h → (∀ o, o ∈ k → neutral (thread f) o) → counts f (h ++ k).
Proof.
  revert h. induction k as [|o k IH]; intros h Hc Hk; [by rewrite app_nil_r|].
  assert (neutral (thread f) o) as Ho by (apply Hk; left).
  assert (starts (thread f) [o] = 0) as Hs.
  { apply starts_neutral. intros x. rewrite list_elem_of_singleton. by intros ->. }
  replace (h ++ o :: k) with ((h ++ [o]) ++ k) by by rewrite <- app_assoc.
  apply IH; [|intros ? ?; apply Hk; by right].
  eapply counts_snoc; [exact Hc|done|done|lia| | |apply Hc|].
  - intros n. by rewrite asks_neutral.
  - intros Hpos. right. lia.
  - rewrite starts_app, Hs, Z.add_0_r. apply Hc.
Qed.

(** What is shown and registered, thread by thread. *)
Definition inert (o : comp_obs) : Prop :=
  match o with AddDisplay _ _ | RemoveDisplay _ _ | RegisterCompositor _ _ | UnregisterCompositor _ _ => False | _ => True end.

Lemma shown_app h k : shown (h ++ k) = foldl shown_step (shown h) k.
Proof. apply foldl_app. Qed.
Lemma registered_app h k : registered (h ++ k) = foldl registered_step (registered h) k.
Proof. apply foldl_app. Qed.

(** The same element after steps that do not name it. *)
Lemma shown_unnamed x k : (∀ o, o ∈ k → ∀ b, x.2 = b → (o ≠ AddDisplay x.1 b) ∧ (o ≠ RemoveDisplay x.1 b)) →
  ∀ g, (x ∈ foldl shown_step g k) ↔ x ∈ g.
Proof.
  destruct x as [t b]. cbn. induction k as [|o k IH]; intros Hk g; [done|]. cbn [foldl].
  rewrite IH by (intros ? ? ? ?; apply Hk; [by right|done]).
  destruct (Hk o ltac:(left) b eq_refl). destruct o; cbn; try done; set_solver.
Qed.
Lemma registered_unnamed x k : (∀ o, o ∈ k → ∀ b, x.2 = b → (o ≠ RegisterCompositor x.1 b) ∧ (o ≠ UnregisterCompositor x.1 b)) →
  ∀ g, (x ∈ foldl registered_step g k) ↔ x ∈ g.
Proof.
  destruct x as [t b]. cbn. induction k as [|o k IH]; intros Hk g; [done|]. cbn [foldl].
  rewrite IH by (intros ? ? ? ?; apply Hk; [by right|done]).
  destruct (Hk o ltac:(left) b eq_refl). destruct o; cbn; try done; set_solver.
Qed.
Lemma shown_foreign t b h k : (∀ o, o ∈ k → foreign t o) → (t, b) ∈ shown (h ++ k) ↔ (t, b) ∈ shown h.
Proof. intros Hk. rewrite shown_app. apply shown_unnamed. intros o Ho%Hk ? _. cbn. split; by intros ->. Qed.
Lemma registered_foreign t b h k :
  (∀ o, o ∈ k → foreign t o) → (t, b) ∈ registered (h ++ k) ↔ (t, b) ∈ registered h.
Proof. intros Hk. rewrite registered_app. apply registered_unnamed. intros o Ho%Hk ? _. cbn. split; by intros ->. Qed.
Lemma shown_inert t b h k : (∀ o, o ∈ k → inert o) → (t, b) ∈ shown (h ++ k) ↔ (t, b) ∈ shown h.
Proof. intros Hk. rewrite shown_app. apply shown_unnamed. intros o Ho%Hk ? _. cbn. split; by intros ->. Qed.
Lemma registered_inert t b h k : (∀ o, o ∈ k → inert o) → (t, b) ∈ registered (h ++ k) ↔ (t, b) ∈ registered h.
Proof. intros Hk. rewrite registered_app. apply registered_unnamed. intros o Ho%Hk ? _. cbn. split; by intros ->. Qed.

Lemma shown_adds t b bs g : (t, b) ∈ foldl shown_step g (AddDisplay t <$> bs) ↔ b ∈ bs ∨ (t, b) ∈ g.
Proof. revert g. induction bs as [|a bs IH]; intros g; cbn; [set_solver|]. rewrite IH. set_solver. Qed.
Lemma shown_removes t b bs g : (t, b) ∈ foldl shown_step g (RemoveDisplay t <$> bs) ↔ (b ∉ bs) ∧ (t, b) ∈ g.
Proof. revert g. induction bs as [|a bs IH]; intros g; cbn; [set_solver|]. rewrite IH. set_solver. Qed.
Lemma registered_adds t b bs g : (t, b) ∈ foldl registered_step g (RegisterCompositor t <$> bs) ↔ b ∈ bs ∨ (t, b) ∈ g.
Proof. revert g. induction bs as [|a bs IH]; intros g; cbn; [set_solver|]. rewrite IH. set_solver. Qed.
Lemma registered_removes t b bs g : (t, b) ∈ foldl registered_step g (UnregisterCompositor t <$> bs) ↔ (b ∉ bs) ∧ (t, b) ∈ g.
Proof. revert g. induction bs as [|a bs IH]; intros g; cbn; [set_solver|]. rewrite IH. set_solver. Qed.

(** A constructor that is never one of the registering calls. *)
Lemma shown_others {A} (mk : A → comp_obs) l g : (∀ x g', shown_step g' (mk x) = g') → foldl shown_step g (mk <$> l) = g.
Proof. intros Hmk. revert g. induction l as [|x l IH]; intros g; cbn; [done|]. by rewrite Hmk. Qed.
Lemma registered_others {A} (mk : A → comp_obs) l g :
  (∀ x g', registered_step g' (mk x) = g') → foldl registered_step g (mk <$> l) = g.
Proof. intros Hmk. revert g. induction l as [|x l IH]; intros g; cbn; [done|]. by rewrite Hmk. Qed.

Lemma thread_ok_foreign f h k : thread_ok f h → (∀ o, o ∈ k → foreign (thread f) o) → thread_ok f (h ++ k).
Proof.
  intros [Hc [Hs Hr] Ha Hst] Hk. split; [|split|done|done].
  - apply counts_neutral; [done|]. intros o Ho. by apply foreign_neutral, Hk.
  - intros b. by rewrite shown_foreign.
  - intros b. by rewrite registered_foreign.
Qed.

(** A turn of the thread that only asks, starts or composites frames. *)
Lemma displays_inert f f' h k :
  displays f h → thread f' = thread f → group f' = group f → live f' = live f → (∀ o, o ∈ k → inert o) →
  displays f' (h ++ k).
Proof.
  intros [Hs Hr] Ht Hg Hl Hk. split; intros b; rewrite Ht, Hg, Hl.
  - by rewrite shown_inert.
  - by rewrite registered_inert.
Qed.

(** ** What the thread's programs do *)

(** [m] only speaks for its own thread and keeps it well. *)
Definition own (m : F unit) (f : CompositingFunctor) : Prop :=
  thread (post (m f)) = thread f ∧ group (post (m f)) = group f ∧
  ∀ o, o ∈ trace (m f) → obs_thread o = Some (thread f).
Definition keeps (m : F unit) (f : CompositingFunctor) : Prop :=
  own m f ∧ ∀ h, thread_ok f h → thread_ok (post (m f)) (h ++ trace (m f)).

Definition ended (f : CompositingFunctor) : CompositingFunctor := set_phase Finished f.
Lemma thread_end_run f :
  thread_end f = Run (Ret tt) (ended f) ((UnregisterCompositor (thread f) <$> group f) ++ (RemoveDisplay (thread f) <$> group f)).
Proof.
  unfold thread_end. rewrite pbind_get. unfold pbind. rewrite !pfor_emit. cbn [value post trace].
  cbn. by rewrite ?app_nil_r.
Qed.

Ltac in_traces := intros o; rewrite ?elem_of_cons, ?elem_of_app, ?list_elem_of_fmap, ?elem_of_cons, ?list_elem_of_singleton; intros;
  repeat match goal with H : _ ∨ _ |- _ => destruct H | H : ∃ _, _ |- _ => destruct H as (? & ? & ?)
    | H : _ ∈ [] |- _ => by apply elem_of_nil in H end; subst; cbn; try done.

Lemma thread_end_keeps f : keeps thread_end f.
Proof.
  unfold keeps, own. rewrite thread_end_run. cbn [post trace]. split; [split_and!; [done..|in_traces]|].
  intros h [Hc [Hs Hr] Ha Hst]. split; [|split|done|done].
  - apply counts_neutral; [by eapply counts_same|]. in_traces.
  - intros b. cbn [thread live at_phase ended set_phase]. rewrite shown_app, foldl_app, shown_removes, shown_others by done.
    rewrite Hs. split; [tauto|by intros [? ?]].
  - intros b. cbn [thread live at_phase ended set_phase]. rewrite registered_app, foldl_app, (registered_others (RemoveDisplay _)) by done.
    rewrite registered_removes, Hr. split; [tauto|by intros [? ?]].
Qed.

Lemma attempts_run {S} (error : DisplayBuffer → option exn) (mk : DisplayBuffer → comp_obs) bs (s : S) :
  (∀ b, b ∈ bs → error b = None) ∧ pfor bs (λ b, attempt (error b) (mk b)) s = Run (Ret tt) s (mk <$> bs) ∨
  ∃ e pre, pfor bs (λ b, attempt (error b) (mk b)) s = Run (Throw e) s (mk <$> pre).
Proof.
  induction bs as [|b bs IH]; [left; split; [set_solver|done]|]. cbn [pfor]. unfold pbind.
  destruct (error b) as [e|] eqn:He; cbn [attempt pemit pthrow value post trace]; [right; by exists e, []|].
  destruct IH as [[Hn ->]|(e & pre & ->)]; cbn.
  - left. split; [|done]. intros x [->|Hx]%elem_of_cons; [done|by apply Hn].
  - right. by exists e, (b :: pre).
Qed.
Lemma attempts_ok {S} (error : DisplayBuffer → option exn) (mk : DisplayBuffer → comp_obs) bs (s : S) :
  (∀ b, b ∈ bs → error b = None) → pfor bs (λ b, attempt (error b) (mk b)) s = Run (Ret tt) s (mk <$> bs).
Proof.
  induction bs as [|b bs IH]; intros Hn; [done|]. cbn [pfor]. unfold pbind.
  rewrite Hn by left. cbn [attempt pemit value post trace]. rewrite IH; [done|]. intros x Hx. apply Hn. by right.
Qed.

Definition registers_group (error : call → option exn) (g : list DisplayBuffer) : Prop :=
  ∀ b, b ∈ g → error (CAddDisplay b) = None ∧ error (CRegister b) = None.
Lemma startup_run error f :
  registers_group error (group f) →
  ((∀ b, b ∈ group f → error (CCreate b) = None) ∧ thread_startup error f = Run (Ret tt) (set_started None Ready f)
    ((CreateCompositor (thread f) <$> group f) ++ (AddDisplay (thread f) <$> group f) ++ (RegisterCompositor (thread f) <$> group f))) ∨
  ∃ e pre, thread_startup error f = Run (Ret tt) (set_started (Some e) Finished f) (CreateCompositor (thread f) <$> pre).
Proof.
  intros Hreg. unfold thread_startup. rewrite pbind_get.
  destruct (attempts_run (λ b, error (CCreate b)) (CreateCompositor (thread f)) (group f) f) as [[Hn Hrun]|(e & pre & Hrun)].
  - left. split; [done|]. unfold pcatch, pbind. rewrite Hrun. cbn [value post trace].
    rewrite (attempts_ok (λ b, error (CAddDisplay b))) by (intros; by apply Hreg). cbn [value post trace].
    rewrite (attempts_ok (λ b, error (CRegister b))) by (intros; by apply Hreg). cbn.
    by rewrite app_nil_r.
  - right. exists e, pre. unfold pcatch, pbind. rewrite Hrun. cbn. by rewrite app_nil_r.
Qed.

Lemma startup_keeps error f :
  registers_group error (group f) → at_phase f = Starting → keeps (thread_startup error) f.
Proof.
  intros Hreg Hp. unfold keeps, own. destruct (startup_run error f Hreg) as [[_ ->]|(e & pre & ->)]; cbn [post trace].
  - split; [split_and!; [done..|in_traces]|]. intros h [Hc [Hs Hr] Ha Hst]. unfold live in *. rewrite Hp in *.
    split; [|split|done|done].
    + apply counts_neutral; [by eapply counts_same|]. in_traces.
    + intros b. cbn [thread group live at_phase set_started]. rewrite shown_app, !foldl_app.
      rewrite (shown_others (RegisterCompositor _)), (shown_adds), (shown_others (CreateCompositor _)) by done.
      rewrite Hs. naive_solver.
    + intros b. cbn [thread group live at_phase set_started]. rewrite registered_app, !foldl_app.
      rewrite registered_adds, (registered_others (AddDisplay _)), (registered_others (CreateCompositor _)) by done.
      rewrite Hr. naive_solver.
  - split; [split_and!; [done..|in_traces]|]. intros h [Hc Hd Ha Hst]. split; [| |done|done].
    + apply counts_neutral; [by eapply counts_same|]. in_traces.
    + eapply displays_inert; [exact Hd|done|done| |in_traces]. unfold live. cbn. by rewrite Hp.
Qed.

Lemma wait_keeps f : live f = true → keeps wait f.
Proof.
  intros Hl. unfold keeps, own, wait. rewrite pbind_get. destruct (running f) eqn:Hr; cbn [negb]; rewrite ?orb_true_r, ?orb_false_r.
  2: { apply thread_end_keeps. }
  destruct (0 <? frames_scheduled f) eqn:Hf.
  - rewrite pbind_emit. cbn [pmodify value post trace]. split; [split_and!; [done..|in_traces]|].
    intros h [Hc Hd Ha Hst]. split; [| |done|intros _; by apply Hst].
    + apply Z.ltb_lt in Hf.
      assert (starts (thread f) [FrameStart (thread f)] = 1) as H1 by by rewrite starts_cons, decide_True.
      pose proof (starts_nonneg (thread f) h).
      eapply counts_snoc; [exact Hc|done|done|rewrite H1; cbn; lia|done| |cbn; lia|].
      * intros _. right. rewrite H1. cbn. lia.
      * symmetry. apply bool_decide_false. rewrite starts_app, H1. lia.
    + eapply displays_inert; [exact Hd|done|done|by rewrite Hl|in_traces].
  - cbn [pmodify value post trace]. split; [split_and!; [done..|in_traces]|].
    intros h [Hc Hd Ha Hst]. rewrite app_nil_r. apply Z.ltb_ge in Hf. pose proof (c_nonneg _ _ Hc). split.
    + by eapply counts_same.
    + rewrite <- (app_nil_r h). eapply displays_inert; [exact Hd|done|done|by rewrite Hl|in_traces].
    + intros _. cbn. split; [lia|done].
    + intros _. by apply Hst.
Qed.
Lemma loop_head_keeps f : live f = true → keeps loop_head f.
Proof.
  intros Hl. unfold keeps, own, loop_head. rewrite pbind_get. destruct (running f); [by apply wait_keeps|apply thread_end_keeps].
Qed.

Lemma composite_all_run f :
  composite_all f = Run (Ret tt) (set_phase Composited f) ((Composite (thread f) <$> group f) ++ [Post (thread f)]).
Proof. unfold composite_all. rewrite pbind_get. unfold pbind. rewrite pfor_emit. done. Qed.
Lemma composite_all_keeps f : live f = true → keeps composite_all f.
Proof.
  intros Hl. unfold keeps, own. rewrite composite_all_run. cbn [post trace]. split; [split_and!; [done..|in_traces]|].
  intros h [Hc Hd Ha Hst]. split; [| |done|intros _; by apply Hst].
  - apply counts_neutral; [by eapply counts_same|in_traces].
  - eapply displays_inert; [exact Hd|done|done|by rewrite Hl|in_traces].
Qed.

(** The count raised to what one observation asks. *)
Lemma asked_ok f f' h o n :
  thread_ok f h → asks f h o = Some n ∨ (n ≤ frames_scheduled f ∧ asks f h o = None) →
  inert o → (o ≠ FrameStart (thread f)) →
  thread f' = thread f → group f' = group f → not_posted_yet f' = not_posted_yet f → started f' = started f →
  live f' = live f → frames_scheduled f' = Z.max (frames_scheduled f) n →
  (at_phase f' = Asleep → frames_scheduled f' = 0 ∧ running f' = true) → thread_ok f' (h ++ [o]).
Proof.
  intros [Hc Hd Ha Hst] Hn Hi Ho Ht Hg Hp Hs Hl Hf Has. pose proof (c_nonneg _ _ Hc).
  assert (starts (thread f) [o] = 0) as H0 by (rewrite starts_cons, decide_False by done; done).
  split; [| |done|by rewrite Hl, Hs].
  - eapply counts_snoc; [exact Hc|done|done|lia| | |lia|].
    + destruct Hn as [->|[_ ->]]; intros ? [= <-]. lia.
    + rewrite Hf, H0. intros Hpos. destruct Hn as [->|[? ->]].
      * destruct (decide (n ≤ frames_scheduled f)); [right; lia|left; f_equal; lia].
      * right; lia.
    + rewrite starts_app, H0, Z.add_0_r, Hp. apply Hc.
  - eapply displays_inert; [exact Hd|done|done|done|]. intros x. rewrite list_elem_of_singleton. by intros ->.
Qed.

Lemma keeps_bind (m k : F unit) f : keeps m f → value (m f) = Ret tt → keeps k (post (m f)) → keeps (do* m in k) f.
Proof.
  intros [(Ht & Hg & Ho) Hm] Hv [(Ht' & Hg' & Ho') Hk]. unfold keeps, own, pbind. rewrite Hv. cbn [post trace].
  split; [split_and!|]; [congruence..| |].
  - intros o [Hin|Hin]%elem_of_app; [by apply Ho|]. rewrite <- Ht. by apply Ho'.
  - intros h Hf. rewrite app_assoc. by apply Hk, Hm.
Qed.

Lemma recount_keeps pending f : at_phase f = Composited → keeps (recount pending) f.
Proof.
  intros Hp. assert (live f = true) as Hl by (unfold live; by rewrite Hp). set (p := max_pending pending (group f)).
  set (m := do* pemit (Recounted (thread f) p) in pwhen (frames_scheduled f <? p) (pmodify (set_frames p)) : F unit).
  assert (keeps m f ∧ value (m f) = Ret tt ∧ live (post (m f)) = true) as (Hm & Hv & Hl').
  { unfold keeps, own.
    assert (m f = Run (Ret tt) (if frames_scheduled f <? p then set_frames p f else f) [Recounted (thread f) p]) as ->
      by (unfold m; rewrite pbind_emit; by destruct (frames_scheduled f <? p)).
    cbn [value post trace]. split; [|split; [done|by destruct (frames_scheduled f <? p)]]. split; [split_and!; [by destruct (frames_scheduled f <? p)..|in_traces]|].
    intros h Hf. eapply asked_ok; [exact Hf|left; cbn; by rewrite bool_decide_true|done|done|..].
    1-6: cbn [post]; destruct (frames_scheduled f <? p) eqn:Hlt; cbn; try done; lia.
    cbn [post]. destruct (frames_scheduled f <? p) eqn:Hlt; cbn; by rewrite Hp. }
  assert (recount pending f = (do* m in loop_head) f) as Heq.
  { unfold recount, m. rewrite pbind_get, pbind_assoc. done. }
  unfold keeps, own. rewrite Heq. apply keeps_bind; [done|done|by apply loop_head_keeps].
Qed.

Lemma notify_live f : live (notify_one f) = live f.
Proof. unfold notify_one, live. by destruct (at_phase f) eqn:Hp; rewrite ?Hp. Qed.
Lemma notify_awake f : at_phase (notify_one f) ≠ Asleep.
Proof. unfold notify_one. by destruct (at_phase f) eqn:Hp; rewrite ?Hp. Qed.
Lemma notify_thread f : thread (notify_one f) = thread f.
Proof. unfold notify_one. by destruct (at_phase f). Qed.
Lemma notify_group f : group (notify_one f) = group f.
Proof. unfold notify_one. by destruct (at_phase f). Qed.
Lemma notify_running f : running (notify_one f) = running f.
Proof. unfold notify_one. by destruct (at_phase f). Qed.
Lemma notify_frames f : frames_scheduled (notify_one f) = frames_scheduled f.
Proof. unfold notify_one. by destruct (at_phase f). Qed.
Lemma notify_posted f : not_posted_yet (notify_one f) = not_posted_yet f.
Proof. unfold notify_one. by destruct (at_phase f). Qed.
Lemma notify_started f : started (notify_one f) = started f.
Proof. unfold notify_one. by destruct (at_phase f). Qed.
Create Rewrite HintDb notify.
#[local] Hint Rewrite notify_live notify_thread notify_group notify_running notify_frames notify_posted notify_started : notify.

(** A request and the count it leaves. *)
Definition requested (took : bool) (n : Z) (f : CompositingFunctor) : CompositingFunctor :=
  if took && (frames_scheduled f <? n) then notify_one (set_frames n f) else f.
Lemma request_keeps (took : bool) n damage f (m : F unit) :
  m f = Run (Ret tt) (requested took n f) [Requested (thread f) n damage] →
  (∀ h, thread_ok f h → asks f h (Requested (thread f) n damage) = if took then Some n else None) → keeps m f.
Proof.
  unfold keeps, own. intros -> Hasks. cbn [post trace]. unfold requested.
  split; [split_and!; [destruct (_ && _); autorewrite with notify; done..|in_traces]|].
  intros h Hf. specialize (Hasks h Hf).
  destruct (took && (frames_scheduled f <? n)) eqn:Htook.
  - apply andb_true_iff in Htook as [-> Hlt%Z.ltb_lt].
    eapply asked_ok; [exact Hf|by left|done|done|..]; autorewrite with notify; cbn; try done; [lia|].
    intros Hasl. by apply notify_awake in Hasl.
  - destruct took; cbn in Htook.
    + apply Z.ltb_ge in Htook. eapply asked_ok; [exact Hf|by left|done..| |apply Hf]. lia.
    + eapply (asked_ok f f _ _ 0); [exact Hf| |done..| |apply Hf]; pose proof (c_nonneg _ _ (t_counts _ _ Hf)); [by right|lia].
Qed.

Lemma schedule_run n f :
  schedule_compositing n f = Run (Ret tt) (requested true n f) [Requested (thread f) n None].
Proof. unfold schedule_compositing, requested. rewrite pbind_get, pbind_emit. cbn [andb]. by destruct (_ <? _). Qed.
Lemma schedule_keeps n f : keeps (schedule_compositing n) f.
Proof.
  apply (request_keeps true n None); [apply schedule_run|].
  intros h _. cbn. by rewrite bool_decide_true.
Qed.
Lemma took_spec damage bs b :
  foldl (λ took b, if overlaps damage (view_area b) then true else took) b bs =
    (b || existsb (λ b, overlaps damage (view_area b)) bs).
Proof.
  revert b. induction bs as [|x bs IH]; intros b; cbn; [by rewrite orb_false_r|]. rewrite IH.
  destruct (overlaps damage (view_area x)); cbn; [by rewrite orb_true_r|done].
Qed.
Definition took_damage (damage : Rectangle) (f : CompositingFunctor) : bool :=
  not_posted_yet f || existsb (λ b, overlaps damage (view_area b)) (group f).
Lemma schedule_damage_run n damage f :
  schedule_damage n damage f = Run (Ret tt) (requested (took_damage damage f) n f) [Requested (thread f) n (Some damage)].
Proof.
  unfold schedule_damage, requested, took_damage. rewrite pbind_get, pbind_emit. cbn zeta. rewrite took_spec.
  by destruct (_ && _).
Qed.
Lemma schedule_damage_keeps n damage f : keeps (schedule_damage n damage) f.
Proof.
  eapply request_keeps; [apply schedule_damage_run|].
  intros h Hf. cbn. rewrite bool_decide_true by done. unfold took_damage. cbn. by rewrite (c_posted _ _ (t_counts _ _ Hf)).
Qed.
Lemma functor_stop_keeps f : keeps functor_stop f.
Proof.
  unfold keeps, own, functor_stop. cbn [pmodify post trace]. autorewrite with notify.
  split; [split_and!; [done..|intros o Ho; by apply elem_of_nil in Ho]|].
  intros h [Hc Hd Ha Hst]. rewrite app_nil_r. split.
  - by eapply counts_same; autorewrite with notify.
  - rewrite <- (app_nil_r h). eapply displays_inert; [exact Hd|by autorewrite with notify..|intros o Ho; by apply elem_of_nil in Ho].
  - intros Hasl. by apply notify_awake in Hasl.
  - autorewrite with notify. exact Hst.
Qed.

(** Its start-up, if still to come, registers the displays. *)
Definition startable (error : call → option exn) (f : CompositingFunctor) : Prop :=
  at_phase f = Starting → registers_group error (group f).
Lemma thread_step_keeps error pending f :
  startable error f → keeps (thread_step error pending) f.
Proof.
  intros Hreg. assert (keeps (match at_phase f with Starting => thread_startup error | Ready => loop_head
    | Asleep | Notified => wait | Compositing => composite_all | Composited => recount pending | Finished => pret tt end) f) as Hk.
  { destruct (at_phase f) eqn:Hp.
    - apply startup_keeps; auto.
    - apply loop_head_keeps. unfold live. by rewrite Hp.
    - apply wait_keeps. unfold live. by rewrite Hp.
    - apply wait_keeps. unfold live. by rewrite Hp.
    - apply composite_all_keeps. unfold live. by rewrite Hp.
    - by apply recount_keeps.
    - split; [split_and!; [done..|intros o Ho; by apply elem_of_nil in Ho]|]. intros h Hf. cbn. by rewrite app_nil_r. }
  unfold keeps, own, thread_step in *. by rewrite pbind_get.
Qed.

(** Stopping: a stopped thread is at its end after three turns. *)
Lemma loop_head_stopped f : running f = false → post (loop_head f) = ended f.
Proof. unfold loop_head. rewrite pbind_get. intros ->. by rewrite thread_end_run. Qed.
Lemma wait_stopped f : running f = false → post (wait f) = ended f.
Proof. unfold wait. rewrite pbind_get. intros ->. rewrite orb_true_r. by rewrite thread_end_run. Qed.

Definition raised (n : Z) (f : CompositingFunctor) : CompositingFunctor :=
  if frames_scheduled f <? n then set_frames n f else f.
Lemma recount_run pending f :
  recount pending f =
    let p := max_pending pending (group f) in
    Run (value (loop_head (raised p f))) (post (loop_head (raised p f))) (Recounted (thread f) p :: trace (loop_head (raised p f))).
Proof.
  unfold recount, raised. rewrite pbind_get, pbind_emit. unfold pwhen. destruct (_ <? _).
  - by rewrite pbind_modify.
  - by rewrite pbind_ret_l.
Qed.
Lemma wait_value f : value (wait f) = Ret tt.
Proof.
  unfold wait. rewrite pbind_get. destruct (_ || _); [|done]. destruct (running f); [done|by rewrite thread_end_run].
Qed.
Lemma loop_head_value f : value (loop_head f) = Ret tt.
Proof. unfold loop_head. rewrite pbind_get. destruct (running f); [apply wait_value|by rewrite thread_end_run]. Qed.
Lemma wait_not_starting f : at_phase (post (wait f)) ≠ Starting.
Proof.
  unfold wait. rewrite pbind_get. destruct (_ || _); [|done]. destruct (running f); [done|by rewrite thread_end_run].
Qed.
Lemma loop_head_not_starting f : at_phase (post (loop_head f)) ≠ Starting.
Proof. unfold loop_head. rewrite pbind_get. destruct (running f); [apply wait_not_starting|by rewrite thread_end_run]. Qed.
Lemma step_value error pending f :
  startable error f →
  value (thread_step error pending f) = Ret tt ∧ at_phase (post (thread_step error pending f)) ≠ Starting.
Proof.
  intros Hreg. unfold thread_step. rewrite pbind_get. destruct (at_phase f) eqn:Hp; [..|by cbn; rewrite Hp].
  - by destruct (startup_run error f (Hreg Hp)) as [[_ ->]|(? & ? & ->)].
  - split; [apply loop_head_value|apply loop_head_not_starting].
  - split; [apply wait_value|apply wait_not_starting].
  - split; [apply wait_value|apply wait_not_starting].
  - by rewrite composite_all_run.
  - rewrite recount_run. split; [apply loop_head_value|apply loop_head_not_starting].
Qed.

(** How far a stopped thread is from its end. *)
Definition turns_left (f : CompositingFunctor) : nat :=
  match at_phase f with
  | Starting | Compositing => 2
  | Ready | Asleep | Notified | Composited => 1
  | Finished => 0
  end.
Lemma step_stopped error pending f :
  startable error f → running f = false →
  let f' := post (thread_step error pending f) in
  running f' = false ∧ startable error f' ∧ (turns_left f' ≤ pred (turns_left f))%nat.
Proof.
  intros Hreg Hr. cbn zeta. destruct (step_value error pending f Hreg) as [_ Hns].
  enough (running (post (thread_step error pending f)) = false ∧
    (turns_left (post (thread_step error pending f)) ≤ pred (turns_left f))%nat) as [? ?] by (by split_and!).
  unfold thread_step, turns_left. rewrite pbind_get. destruct (at_phase f) eqn:Hp.
  - destruct (startup_run error f (Hreg Hp)) as [[_ ->]|(? & ? & ->)]; cbn; split; [done|lia|done|lia].
  - by rewrite loop_head_stopped.
  - by rewrite wait_stopped.
  - by rewrite wait_stopped.
  - rewrite composite_all_run. cbn. split; [done|lia].
  - rewrite recount_run. cbn [post]. unfold raised. by destruct (_ <? _); rewrite loop_head_stopped.
  - cbn. by rewrite Hp.
Qed.
Lemma join_keeps error pending f : startable error f → keeps (join_thread error pending) f.
Proof.
  intros Hs. apply keeps_bind; [by apply thread_step_keeps|by apply step_value|].
  assert (startable error (post (thread_step error pending f))) as Hs2 by (intros ?; by destruct (step_value error pending f Hs)).
  apply keeps_bind; [by apply thread_step_keeps|by apply step_value|]. apply thread_step_keeps.
  intros ?. by destruct (step_value error pending _ Hs2).
Qed.
Lemma join_finishes error pending f :
  startable error f → running f = false → at_phase (post (join_thread error pending f)) = Finished.
Proof.
  intros Hreg Hr. unfold join_thread, pbind.
  destruct (step_stopped error pending f Hreg Hr) as (Hr1 & Hs1 & Ht1).
  destruct (step_value error pending f Hreg) as [-> _]. cbn [post].
  destruct (step_stopped error pending _ Hs1 Hr1) as (Hr2 & Hs2 & Ht2).
  destruct (step_value error pending _ Hs1) as [-> _]. cbn [post].
  destruct (step_stopped error pending _ Hs2 Hr2) as (_ & _ & Ht3).
  assert (turns_left f ≤ 2)%nat by (unfold turns_left; destruct (at_phase f); lia).
  assert (turns_left (post (thread_step error pending (post (thread_step error pending (post (thread_step error pending f)))))) = 0)%nat
    as H0 by lia.
  unfold turns_left in H0. by destruct (at_phase _).
Qed.

(** ** Invariants of the compositor *)
Definition fresh (t : Z) (h : list comp_obs) : Prop := ∀ o, o ∈ h → foreign t o.
Definition gone (t : Z) (h : list comp_obs) : Prop := ∀ b, ((t, b) ∉ shown h) ∧ ((t, b) ∉ registered h).

Record threads_ok (s : Compositor) (h : list comp_obs) : Prop := {
  th_nodup : NoDup (thread <$> functors s);
  th_ok : ∀ f, f ∈ functors s → thread_ok f h ∧ thread f < next_thread s;
  th_gone : ∀ t, t ∉ thread <$> functors s → gone t h;
  th_fresh : ∀ t, next_thread s ≤ t → fresh t h
}.

Lemma gone_foreign t h k : gone t h → (∀ o, o ∈ k → foreign t o) → gone t (h ++ k).
Proof. intros Hg Hk b. rewrite shown_foreign, registered_foreign by done. apply Hg. Qed.
Lemma fresh_app t h k : fresh t h → (∀ o, o ∈ k → foreign t o) → fresh t (h ++ k).
Proof. intros Hf Hk o [?|?]%elem_of_app; auto. Qed.

(** Observations of no thread. *)
Lemma threads_ok_foreign s h k :
  threads_ok s h → (∀ o, o ∈ k → obs_thread o = None) → threads_ok s (h ++ k).
Proof.
  intros [Hn Ho Hg Hf] Hk. assert (∀ t o, o ∈ k → foreign t o) by (intros t o Ho'%Hk; unfold foreign; by rewrite Ho').
  split; [done|..].
  - intros f Hin. destruct (Ho f Hin). split; [|done]. by apply thread_ok_foreign; auto.
  - intros t Ht. apply gone_foreign; auto.
  - intros t Ht. apply fresh_app; auto.
Qed.

(** One functor's program, in the midst of the others'. *)
Lemma threads_ok_one (m : F unit) s h fs1 f fs2 :
  functors s = fs1 ++ f :: fs2 → keeps m f → threads_ok s h →
  threads_ok (set_functors (fs1 ++ post (m f) :: fs2) s) (h ++ trace (m f)).
Proof.
  intros Hfs [(Ht & Hg & Ho) Hm] [Hn Hok Hgone Hfresh]. rewrite Hfs in *.
  assert (thread <$> (fs1 ++ post (m f) :: fs2) = thread <$> (fs1 ++ f :: fs2)) as Hsame.
  { by rewrite !fmap_app, !fmap_cons, Ht. }
  assert (∀ t, t ≠ thread f → ∀ o, o ∈ trace (m f) → foreign t o) as Hfor.
  { intros t Hne o Hin. unfold foreign. rewrite Ho by done. congruence. }
  assert (f ∈ fs1 ++ f :: fs2) as Hin by set_solver.
  split; cbn [functors set_functors next_thread].
  - by rewrite Hsame.
  - intros f' Hf'. rewrite elem_of_app, elem_of_cons in Hf'.
    assert (f' = post (m f) ∨ (f' ∈ fs1 ∨ f' ∈ fs2)) as [->|Hf''] by tauto.
    + rewrite Ht. split; [apply Hm|]; by apply Hok.
    + destruct (Hok f') as [Hf1 Hf2]; [rewrite elem_of_app, elem_of_cons; tauto|]. split; [|done].
      apply thread_ok_foreign; [done|]. apply Hfor. intros Heq.
      rewrite fmap_app, fmap_cons in Hn. apply NoDup_app in Hn as (_ & Hd & [Hnf _]%NoDup_cons).
      destruct Hf'' as [H1|H1]; [apply (Hd (thread f')); [by apply list_elem_of_fmap_2|rewrite Heq; left]|].
      apply Hnf. rewrite <- Heq. by apply list_elem_of_fmap_2.
  - intros t. rewrite Hsame. intros Hni. apply gone_foreign; [by apply Hgone|]. apply Hfor.
    intros ->. apply Hni. by apply list_elem_of_fmap_2.
  - intros t Hle. apply fresh_app; [by apply Hfresh|]. apply Hfor. destruct (Hok f Hin). lia.
Qed.
Lemma threads_ok_each_from (m : F unit) fs1 fs2 s h :
  functors s = fs1 ++ fs2 → (∀ f, f ∈ fs2 → keeps m f) → threads_ok s h →
  threads_ok (set_functors (fs1 ++ ((λ f, post (m f)) <$> fs2)) s) (h ++ concat ((λ f, trace (m f)) <$> fs2)).
Proof.
  revert fs1 s h. induction fs2 as [|f fs2 IH]; intros fs1 s h Hfs Hk Hs; cbn.
  - rewrite !app_nil_r in *. rewrite <- Hfs. by destruct s.
  - rewrite app_assoc. rewrite (cons_middle (post (m f))), app_assoc.
    change (set_functors _ s) with (set_functors ((fs1 ++ [post (m f)]) ++ ((λ f, post (m f)) <$> fs2))
      (set_functors (fs1 ++ post (m f) :: fs2) s)).
    apply IH; [cbn; by rewrite <- app_assoc|intros; apply Hk; by right|].
    apply threads_ok_one; [done|apply Hk; left|done].
Qed.
Lemma threads_ok_each (m : F unit) s h :
  (∀ f, f ∈ functors s → keeps m f) → threads_ok s h → threads_ok (post (each m s)) (h ++ trace (each m s)).
Proof. intros Hk Hs. by apply (threads_ok_each_from m []). Qed.
Lemma threads_ok_turn i (m : F unit) s h :
  (∀ f, f ∈ functors s → keeps m f) → threads_ok s h → threads_ok (post (turn i m s)) (h ++ trace (turn i m s)).
Proof.
  intros Hk Hs. unfold turn. destruct (functors s !! i) as [f|] eqn:Hi; cbn [post trace]; [|by rewrite app_nil_r].
  pose proof (take_drop_middle _ _ _ Hi) as Hfs. rewrite insert_take_drop by (by eapply lookup_lt_Some).
  apply threads_ok_one; [done|apply Hk; by eapply list_elem_of_lookup_2|done].
Qed.

Lemma observing_threads h k : (∀ o, o ∈ k → is_Some (obs_thread o)) → observing (h ++ k) = observing h.
Proof.
  unfold observing. rewrite foldl_app. generalize (foldl observing_step false h).
  induction k as [|o k IH]; intros b Hk; cbn; [done|]. rewrite IH by (intros ? ?; apply Hk; by right).
  destruct (Hk o ltac:(left)). by destruct o.
Qed.
Lemma each_trace (m : F unit) s : (∀ f, f ∈ functors s → keeps m f) → ∀ o, o ∈ trace (each m s) → is_Some (obs_thread o).
Proof.
  intros Hk o. cbn. rewrite list_elem_of_In, in_concat. intros (l & Hl%list_elem_of_In & Ho%list_elem_of_In).
  apply list_elem_of_fmap in Hl as (f & -> & Hf).
  destruct (Hk f Hf) as [(_ & _ & Hown) _]. rewrite Hown by done. done.
Qed.

Lemma functor_stop_startable error f : startable error f → startable error (post (functor_stop f)).
Proof.
  unfold startable, functor_stop. cbn [pmodify post]. autorewrite with notify. cbn.
  intros Hs Hp. apply Hs. unfold notify_one in Hp. cbn in Hp. by destruct (at_phase f).
Qed.

Lemma threads_ok_clear s h : threads_ok s h → (∀ f, f ∈ functors s → live f = false) → threads_ok (set_functors [] s) h.
Proof.
  intros [Hn Ho Hg Hf] Hl. split; cbn; [constructor|by intros f ?%elem_of_nil| |done].
  intros t _. destruct (decide (t ∈ thread <$> functors s)) as [Hin|Hni]; [|by apply Hg].
  apply list_elem_of_fmap in Hin as (f & -> & Hin). destruct (Ho f Hin) as [[_ [Hs Hr] _ _] _].
  intros b. rewrite Hs, Hr, (Hl f Hin). split; by intros [? _].
Qed.

Lemma destroy_ok error pending s h :
  threads_ok s h → (∀ f, f ∈ functors s → startable error f) →
  let r := destroy_compositing_threads error pending s in
  value r = Ret tt ∧ post r = set_functors [] s ∧ threads_ok (post r) (h ++ trace r) ∧
  ∀ o, o ∈ trace r → is_Some (obs_thread o).
Proof.
  intros Hs Hst. unfold destroy_compositing_threads, pbind. cbn [value post trace each].
  set (s1 := set_functors ((λ f, post (functor_stop f)) <$> functors s) s).
  assert (∀ f, f ∈ functors s1 → startable error f ∧ running f = false) as Hs1.
  { intros f Hf. apply list_elem_of_fmap in Hf as (g & -> & Hg). split; [by apply functor_stop_startable, Hst|].
    cbn. by autorewrite with notify. }
  assert (threads_ok s1 (h ++ trace (each functor_stop s))) as H1 by (apply threads_ok_each; [intros; apply functor_stop_keeps|done]).
  assert (∀ f, f ∈ functors s1 → keeps (join_thread error pending) f) as Hk by (intros f Hf; by apply join_keeps, Hs1).
  split_and!; [done..| |].
  - cbn [pmodify trace post]. rewrite app_nil_r, app_assoc.
    apply (threads_ok_clear (post (each (join_thread error pending) s1))); [by apply threads_ok_each|].
    intros f Hf. cbn [each post functors set_functors] in Hf. apply list_elem_of_fmap in Hf as (g & -> & Hg).
    destruct (Hs1 g Hg). unfold live. by rewrite join_finishes.
  - intros o. rewrite !elem_of_app. intros [Ho|[Ho|Ho%elem_of_nil]]; [| |done].
    + by apply (each_trace functor_stop s (λ f _, functor_stop_keeps f)).
    + by apply (each_trace _ s1 Hk).
Qed.

(** *** Starting *)
Lemma new_functor_ok t g h : fresh t h → gone t h → thread_ok (new_functor t g) h.
Proof.
  intros Hf Hg. assert (starts t h = 0) as H0 by (apply starts_neutral; intros o Ho; by apply foreign_neutral, Hf).
  split; [split|split| |]; cbn; try done.
  - intros h1 o h2 n -> Ha. rewrite asks_neutral in Ha; [done|]. apply foreign_neutral, Hf. set_solver.
  - by rewrite H0.
  - intros b. split; [|by intros [? _]]. intros Hb. by destruct (proj1 (Hg b)).
  - intros b. split; [|by intros [? _]]. intros Hb. by destruct (proj2 (Hg b)).
Qed.

Definition push (g : list DisplayBuffer) (s : Compositor) : Compositor :=
  mkCompositor (state s) (functors s ++ [new_functor (next_thread s) g]) (compose_on_start s) (next_thread s + 1).
Lemma threads_ok_push g s h : threads_ok s h → threads_ok (push g s) h.
Proof.
  intros [Hn Ho Hg Hf].
  assert (next_thread s ∉ thread <$> functors s) as Hni.
  { intros (f & Hnf & Hin)%list_elem_of_fmap. destruct (Ho f Hin). lia. }
  split; cbn [push functors next_thread]; rewrite ?fmap_app; cbn.
  - apply NoDup_app. split; [done|]. split; [|apply NoDup_singleton]. intros x Hx. set_solver.
  - intros f [Hin|Hin]%elem_of_app; [|apply list_elem_of_singleton in Hin as ->]; [destruct (Ho f Hin); split; [done|lia]|].
    split; [|cbn; lia]. apply new_functor_ok; [by apply Hf|by apply Hg].
  - intros t Ht. apply Hg. set_solver.
  - intros t Ht. apply Hf. lia.
Qed.
Lemma pushes_run groups s h :
  threads_ok s h →
  ∃ fs n, pfor groups (λ g, pmodify (push g)) s =
      Run (Ret tt) (mkCompositor (state s) (functors s ++ fs) (compose_on_start s) n) ([] : list comp_obs) ∧
    threads_ok (mkCompositor (state s) (functors s ++ fs) (compose_on_start s) n) h ∧
    group <$> fs = groups ∧ ∀ f, f ∈ fs → ∃ t g, f = new_functor t g ∧ g ∈ groups.
Proof.
  revert s. induction groups as [|g groups IH]; intros s Hs; cbn [pfor].
  - exists [], (next_thread s). rewrite app_nil_r. split; [by destruct s|]. split; [by destruct s|]. split; [done|].
    by intros f ?%elem_of_nil.
  - rewrite pbind_modify. destruct (IH (push g s) (threads_ok_push g s h Hs)) as (fs & n & Hrun & Hok & Hg & Hnew).
    cbn [push functors state compose_on_start] in Hrun, Hok. rewrite <- app_assoc in Hrun, Hok. cbn in Hrun, Hok.
    exists (new_functor (next_thread s) g :: fs), n. split; [done|]. split; [done|]. split; [cbn; by rewrite Hg|].
    intros f [->|Hf]%elem_of_cons; [by exists (next_thread s), g; split; [|left]|].
    destruct (Hnew f Hf) as (t & g' & -> & ?). exists t, g'. split; [done|by right].
Qed.

(** The start-ups of the threads that are not late. *)
Definition launch (error : call → option exn) (late : CompositingFunctor → bool) : F unit :=
  λ f, if late f then Run (Ret tt) f [] else thread_startup error f.
Lemma launch_ok error late f :
  registers_group error (group f) → at_phase f = Starting →
  keeps (launch error late) f ∧ running (post (launch error late f)) = running f ∧
  group (post (launch error late f)) = group f ∧ frames_scheduled (post (launch error late f)) = frames_scheduled f ∧
  startable error (post (launch error late f)) ∧
  (started (post (launch error late f)) = Some None → started f = None → live (post (launch error late f)) = true) ∧
  ((∀ c, error c = None) → late f = false → started (post (launch error late f)) = Some None).
Proof.
  intros Hreg Hp. split.
  - unfold launch, keeps, own. destruct (late f).
    + split; [split_and!; [done..|by intros o ?%elem_of_nil]|]. intros h. cbn. by rewrite app_nil_r.
    + by apply startup_keeps.
  - unfold launch. destruct (late f) eqn:Hlate.
    + cbn. split_and!; [done..| | |done].
      * by intros _.
      * congruence.
    + pose proof (attempts_ok (λ b, error (CCreate b)) (CreateCompositor (thread f)) (group f) f) as Hc.
      destruct (startup_run error f Hreg) as [[_ ->]|(e & pre & Hr)]; [cbn; by split_and!|].
      rewrite Hr. cbn. split_and!; [done..|by intros ?|by intros ?|].
      intros Hall _. exfalso. assert (post (thread_startup error f) = set_started None Ready f) as Hr'.
      { unfold thread_startup, pcatch, pbind, pget. cbn [value post trace].
        rewrite Hc by (intros; apply Hall). cbn [value post trace].
        rewrite (attempts_ok (λ b, error (CAddDisplay b))) by (intros; apply Hall). cbn [value post trace].
        rewrite (attempts_ok (λ b, error (CRegister b))) by (intros; apply Hall). done. }
      rewrite Hr in Hr'. done.
Qed.

Lemma waits_run (l : list CompositingFunctor) w (s : Compositor) :
  ∃ r, pfor l (λ f, plift (w f)) s = Run r s ([] : list comp_obs) ∧
    match r with Ret _ => ∀ f, f ∈ l → w f = Ret tt | Throw e => ∃ f, f ∈ l ∧ w f = Throw e end.
Proof.
  induction l as [|f l IH]; [exists (Ret tt); split; [done|by intros f ?%elem_of_nil]|]. cbn [pfor].
  rewrite pbind_plift. destruct (w f) as [[]|e] eqn:Hw.
  - destruct IH as (r & -> & Hr). exists r. split; [done|]. destruct r as [[]|e].
    + intros f' [->|?]%elem_of_cons; [done|by apply Hr].
    + destruct Hr as (f' & ? & ?). exists f'. split; [by right|done].
  - exists (Throw e). split; [done|]. exists f. split; [left|done].
Qed.

Lemma registers_groups error groups g : registers error groups = true → g ∈ groups → registers_group error g.
Proof.
  unfold registers. rewrite forallb_forall. intros H Hg%list_elem_of_In b Hb%list_elem_of_In.
  specialize (H g Hg). rewrite forallb_forall in H. specialize (H b Hb). by apply bool_decide_eq_true in H.
Qed.

(** Everything works, nobody is late. *)
Definition faultless (error : call → option exn) (late : CompositingFunctor → bool) : Prop :=
  (∀ c, error c = None) ∧ ∀ f, late f = false.

Lemma create_ok error late groups s h :
  threads_ok s h → functors s = [] → registers error groups = true →
  ∃ r fs n t, create_compositing_threads error late groups s = Run r (mkCompositor (state s) fs (compose_on_start s) n) t ∧
    threads_ok (mkCompositor (state s) fs (compose_on_start s) n) (h ++ t) ∧
    (∀ o, o ∈ t → is_Some (obs_thread o)) ∧ group <$> fs = groups ∧
    (∀ f, f ∈ fs → startable error f ∧ running f = true ∧ frames_scheduled f = 0) ∧
    (r = Ret tt → ∀ f, f ∈ fs → live f = true) ∧ (faultless error late → r = Ret tt).
Proof.
  intros Hs He Hreg. destruct (pushes_run groups s h Hs) as (fs & n & Hrun & Hok & Hg & Hnew).
  rewrite He in *. cbn [app] in *. set (s1 := mkCompositor (state s) fs (compose_on_start s) n) in *.
  assert (∀ f, f ∈ fs → registers_group error (group f) ∧ at_phase f = Starting ∧ running f = true ∧ started f = None ∧ frames_scheduled f = 0) as Hf.
  { intros f (t & g & -> & Hin)%Hnew. split; [|done]. by apply (registers_groups _ groups). }
  assert (∀ f, f ∈ fs → keeps (launch error late) f) as Hk by (intros f Hin; by apply launch_ok; apply Hf).
  unfold create_compositing_threads. fold push.
  destruct (waits_run ((λ f, post (launch error late f)) <$> fs) (λ f, wait_until_started (late f) f)
    (set_functors ((λ f, post (launch error late f)) <$> fs) s1)) as (r & Hw & Hr).
  assert (pfor groups (λ g, pmodify (push g)) s = Run (Ret tt) s1 []) as Hrun' by done.
  exists r, ((λ f, post (launch error late f)) <$> fs), n, (trace (each (launch error late) s1)).
  split; [|split; [|split; [|split; [|split; [|split]]]]].
  - etrans; [apply (pbind_silent _ _ _ _ _ Hrun')|].
    change (λ f, if late f then _ else _) with (launch error late). etrans.
    { eapply (pbind_run (each (launch error late))); [done|]. rewrite pbind_get. exact Hw. }
    cbn [value post trace]. by rewrite app_nil_r.
  - change (mkCompositor _ _ _ _) with (post (each (launch error late) s1)). by apply threads_ok_each.
  - by apply (each_trace _ s1 Hk).
  - rewrite <- list_fmap_compose, <- Hg. apply list_fmap_ext. intros i f Hi. cbn.
    apply list_elem_of_lookup_2 in Hi. destruct (Hf f Hi) as (? & ? & _). by apply launch_ok.
  - intros f' (f & -> & Hin)%list_elem_of_fmap. destruct (Hf f Hin) as (? & ? & ? & ? & ?).
    destruct (launch_ok error late f) as (_ & -> & _ & -> & ? & _); done.
  - intros -> f' (f & -> & Hin)%list_elem_of_fmap. destruct (Hf f Hin) as (Hrg & Hp & _ & Hst & _).
    destruct (launch_ok error late f Hrg Hp) as (_ & _ & _ & _ & _ & Hl & _).
    apply Hl; [|done]. specialize (Hr _ (list_elem_of_fmap_2 (λ f, post (launch error late f)) _ _ Hin)).
    unfold wait_until_started in Hr. cbn in Hr. destruct (late _); [done|]. by destruct (started _) as [[]|].
  - intros [Hall Hlate]. destruct r as [[]|e]; [done|]. destruct Hr as (f' & Hin' & Hw'). exfalso.
    apply list_elem_of_fmap in Hin' as (f & -> & Hin). destruct (Hf f Hin) as (Hrg & Hp & _ & Hst & _).
    destruct (launch_ok error late f Hrg Hp) as (_ & _ & _ & _ & _ & _ & Hl).
    unfold wait_until_started in Hw'. rewrite Hlate, (Hl Hall (Hlate f)) in Hw'. done.
Qed.

Definition idle (s : Compositor) (h : list comp_obs) : Prop :=
  state s = CSStopped ∧ functors s = [] ∧ observing h = false.
Definition active (s : Compositor) (h : list comp_obs) : Prop :=
  state s = CSStarted ∧ observing h = true ∧ ∀ f, f ∈ functors s → running f = true ∧ live f = true.
Definition compositor_ok (s : Compositor) (h : list comp_obs) : Prop := threads_ok s h ∧ (idle s h ∨ active s h).

Lemma observing_snoc h o : observing (h ++ [o]) = observing_step (observing h) o.
Proof. unfold observing. by rewrite foldl_app. Qed.
Lemma set_state_ok c s h : threads_ok s h → threads_ok (set_state c s) h.
Proof. by intros [? ? ? ?]. Qed.

Lemma schedule_threads_ok n s h :
  threads_ok s h → active s h →
  let r := schedule_threads n s in
  threads_ok (post r) (h ++ trace r) ∧ active (post r) (h ++ trace r) ∧ value r = Ret tt.
Proof.
  intros Hs (Hst & Ho & Hf). unfold schedule_threads. rewrite pbind_emit. cbn [value post trace].
  assert (threads_ok s (h ++ [ReportScheduled])) as Hs1.
  { apply threads_ok_foreign; [done|]. intros o Hin. by apply list_elem_of_singleton in Hin as ->. }
  rewrite cons_middle, app_assoc. split; [by apply threads_ok_each; [intros; apply schedule_keeps|]|].
  split; [|done]. split; [done|]. split.
  - rewrite observing_threads; [by rewrite observing_snoc|]. apply each_trace. intros; apply schedule_keeps.
  - intros f' (f & -> & Hin)%list_elem_of_fmap. rewrite schedule_run. destruct (Hf f Hin). unfold requested.
    destruct (_ && _); cbn [post]; by autorewrite with notify.
Qed.

Definition start_body error late groups : M unit :=
  do* create_compositing_threads error late groups in
  do* attempt (error CAddObserver) AddObserver in
  let* s := pget in
  do* pwhen (compose_on_start s) (schedule_threads 1) in
  pmodify (set_state CSStarted).

Lemma start_body_ok error late groups s h :
  threads_ok s h → functors s = [] → observing h = false → registers error groups = true →
  ∃ r s' t, start_body error late groups s = Run r s' t ∧ threads_ok s' (h ++ t) ∧
    match r with
    | Ret _ => active s' (h ++ t) ∧ group <$> functors s' = groups ∧
        (compose_on_start s = true → ∀ f, f ∈ functors s' → frames_scheduled f = 1)
    | Throw _ => state s' = state s ∧ observing (h ++ t) = false ∧ ∀ f, f ∈ functors s' → startable error f
    end ∧ (faultless error late → r = Ret tt).
Proof.
  intros Hs He Hobs Hreg.
  destruct (create_ok error late groups s h Hs He Hreg) as (r & fs & n & t & Hrun & Hok & Hown & Hg & Hf & Hlive & Hfl).
  set (s1 := mkCompositor (state s) fs (compose_on_start s) n) in *.
  assert (observing (h ++ t) = false) as Hobs1 by by rewrite observing_threads.
  unfold start_body. destruct r as [[]|e].
  2: { exists (Throw e), s1, t. split; [by apply pbind_throw|]. split; [done|]. split; [|by intros ?%Hfl].
    split; [done|]. split; [done|]. intros f Hin. by apply Hf. }
  destruct (error CAddObserver) as [e|] eqn:Ha.
  { exists (Throw e), s1, t. split; [|split; [done|split]].
    - unfold pbind at 1. rewrite Hrun. cbn. by rewrite app_nil_r.
    - split; [done|]. split; [done|]. intros f Hin. by apply Hf.
    - intros [Hall _]. by rewrite Hall in Ha. }
  assert (threads_ok s1 ((h ++ t) ++ [AddObserver])) as Hok1.
  { apply threads_ok_foreign; [done|]. intros o Ho. by apply list_elem_of_singleton in Ho as ->. }
  assert (observing ((h ++ t) ++ [AddObserver]) = true) as Hobs2 by by rewrite observing_snoc.
  destruct (compose_on_start s) eqn:Hc.
  - set (s2 := set_functors ((λ f, post (schedule_compositing 1 f)) <$> fs) s1).
    assert (active (set_state CSStarted s1) ((h ++ t) ++ [AddObserver])) as Hact.
    { split; [done|]. split; [done|]. intros f Hin. split; [by apply Hf|by apply Hlive]. }
    destruct (schedule_threads_ok 1 _ _ (set_state_ok CSStarted _ _ Hok1) Hact) as (Hok2 & Hact2 & _).
    exists (Ret tt), (set_state CSStarted s2), (t ++ [AddObserver] ++ trace (schedule_threads 1 s1)).
    rewrite !app_assoc. split; [|split; [exact Hok2|split; [|done]]].
    + etrans; [eapply pbind_run; [exact Hrun|]|].
      * unfold attempt. rewrite pbind_emit, pbind_get. unfold s1. cbn [compose_on_start pwhen]. fold s1.
        by unfold pbind at 1.
      * cbn [value post trace]. rewrite <- app_assoc. cbn. by rewrite app_nil_r.
    + split; [exact Hact2|]. split.
      * change (functors (set_state CSStarted s2)) with ((λ f, post (schedule_compositing 1 f)) <$> fs).
        rewrite <- list_fmap_compose, <- Hg. apply list_fmap_ext. intros i f Hi. unfold compose. rewrite schedule_run.
        unfold requested. destruct (_ && _); cbn [post]; by autorewrite with notify.
      * intros _ f' (f & -> & Hin)%list_elem_of_fmap. rewrite schedule_run. unfold requested.
        destruct (Hf f Hin) as (_ & _ & H0). cbn. rewrite H0. cbn. by autorewrite with notify.
  - exists (Ret tt), (set_state CSStarted s1), (t ++ [AddObserver]). rewrite app_assoc.
    split; [|split; [by apply set_state_ok|split; [|done]]].
    + etrans; [eapply pbind_run; [exact Hrun|]|]. 
      * unfold attempt. rewrite pbind_emit, pbind_get. unfold s1. cbn [compose_on_start pwhen]. by rewrite pbind_ret_l.
      * done.
    + split; [|split; [done|done]]. split; [done|]. split; [done|]. intros f Hin. split; [by apply Hf|by apply Hlive].
Qed.

(** The two guards. *)
Lemma on_unwind_run (u : bool) (action m : M unit) s r s' t :
  m s = Run r s' t →
  on_unwind u action m s =
    match r with
    | Ret _ => let r' := pwhen u action s' in Run (value r') (post r') (t ++ trace r')
    | Throw e => let r' := action s' in
        Run (Throw (match value r' with Ret _ => e | Throw _ => terminated end)) (post r') (t ++ trace r')
    end.
Proof. intros Hm. unfold on_unwind, try_but_revert_if_unwinding. rewrite pbind_ret_l, Hm. by destruct r. Qed.

Lemma start_ok error late pending uncaught groups s h :
  compositor_ok s h → idle s h → registers error groups = true →
  let r := start error late pending uncaught groups s in
  threads_ok (post r) (h ++ trace r) ∧
  match value r with
  | Ret _ => active (post r) (h ++ trace r) ∧ group <$> functors (post r) = groups ∧
      (compose_on_start s = true → ∀ f, f ∈ functors (post r) → frames_scheduled f = 1)
  | Throw _ => idle (post r) (h ++ trace r)
  end ∧ (faultless error late → value r = Ret tt).
Proof.
  intros [Hs _] (Hst & He & Hobs) Hreg. cbn zeta. unfold start. rewrite pbind_get, bool_decide_true, pbind_modify, pbind_emit by done.
  cbn [value post trace]. fold (start_body error late groups).
  assert (threads_ok (set_state CSStarting s) (h ++ [ReportStarted])) as Hs1.
  { apply set_state_ok, threads_ok_foreign; [done|]. intros o Ho. by apply list_elem_of_singleton in Ho as ->. }
  destruct (start_body_ok error late groups _ _ Hs1 He ltac:(by rewrite observing_snoc) Hreg)
    as (r & s' & t & Hrun & Hok & Hr & Hfl).
  rewrite (on_unwind_run _ _ _ _ _ _ _ Hrun).
  assert (∀ k, h ++ ReportStarted :: k = (h ++ [ReportStarted]) ++ k) as Hh by (intros; by rewrite <- app_assoc).
  destruct r as [[]|e].
  - destruct Hr as (Hact & Hg & Hfr).
    assert (pwhen uncaught (let* s := pget in
       if bool_decide (state s = CSStarted) then pret tt
       else do* destroy_compositing_threads error pending in pmodify (set_state CSStopped)) s' = Run (Ret tt) s' []) as ->.
    { destruct uncaught; [|done]. cbn [pwhen]. destruct Hact as [Hst' _]. by rewrite pbind_get, bool_decide_true. }
    cbn [value post trace]. rewrite app_nil_r, Hh. by split_and!.
  - destruct Hr as (Hst' & Hobs' & Hf). rewrite pbind_get, bool_decide_false by (by rewrite Hst').
    destruct (destroy_ok error pending s' _ Hok Hf) as (Hv & Hp & Hok' & Hown).
    unfold pbind. rewrite Hv. cbn [pmodify value post trace]. rewrite app_nil_r, Hh, app_assoc.
    split; [by apply set_state_ok|]. split; [|by intros ?%Hfl].
    rewrite Hp. split; [done|]. split; [done|]. by rewrite observing_threads.
Qed.

Lemma stop_ok error pending uncaught s h :
  compositor_ok s h → active s h →
  let r := stop error pending uncaught s in
  threads_ok (post r) (h ++ trace r) ∧
  match value r with
  | Ret _ => idle (post r) (h ++ trace r) ∧ compose_on_start (post r) = true
  | Throw e => active (post r) (h ++ trace r) ∧ functors (post r) = functors s ∧ error CRemoveObserver = Some e
  end.
Proof.
  intros [Hs _] (Hst & Hobs & Hf). cbn zeta. unfold stop. rewrite pbind_get, bool_decide_true, pbind_modify by done.
  set (body := do* attempt (error CRemoveObserver) RemoveObserver in _).
  set (s1 := set_state CSStopping s).
  destruct (error CRemoveObserver) as [e|] eqn:Hr.
  - assert (body s1 = Run (Throw e) s1 []) as Hb by done.
    rewrite (on_unwind_run _ _ _ _ _ _ _ Hb). rewrite pbind_get, bool_decide_false by done. cbn. rewrite app_nil_r. split; [exact (set_state_ok CSStarted s h Hs)|]. by split_and!.
  - assert (threads_ok s1 (h ++ [RemoveObserver])) as Hs1.
    { apply set_state_ok, threads_ok_foreign; [done|]. intros o Ho. by apply list_elem_of_singleton in Ho as ->. }
    assert (∀ f, f ∈ functors s1 → startable error f) as Hst1.
    { intros f Hin Hp. destruct (Hf f Hin) as [_ Hl]. unfold live in Hl. by rewrite Hp in Hl. }
    destruct (destroy_ok error pending s1 _ Hs1 Hst1) as (Hv & Hp & Hok' & Hown).
    set (t := trace (destroy_compositing_threads error pending s1)) in *.
    assert (body s1 = Run (Ret tt) (mkCompositor CSStopped [] true (next_thread s)) (RemoveObserver :: t ++ [ReportStopped])) as Hb.
    { unfold body, attempt. rewrite pbind_emit. unfold pbind. rewrite Hv. cbn [pmodify pemit value post trace]. by rewrite Hp. }
    rewrite (on_unwind_run _ _ _ _ _ _ _ Hb).
    assert (∀ a : M unit, pwhen uncaught (let* s := pget in if bool_decide (state s = CSStopped) then pret tt else a)
      (mkCompositor CSStopped [] true (next_thread s)) = Run (Ret tt) (mkCompositor CSStopped [] true (next_thread s)) []) as ->.
    { intros a. destruct uncaught; [|done]. cbn [pwhen]. by rewrite pbind_get, bool_decide_true. }
    cbn [value post trace]. rewrite app_nil_r.
    replace (h ++ RemoveObserver :: t ++ [ReportStopped]) with (((h ++ [RemoveObserver]) ++ t) ++ [ReportStopped])
      by by rewrite <- !app_assoc.
    split; [|split; [|done]].
    + apply threads_ok_foreign; [|intros o Ho; by apply list_elem_of_singleton in Ho as ->].
      rewrite Hp in Hok'. by destruct Hok' as [? ? ? ?].
    + split; [done|]. split; [done|]. rewrite observing_snoc, observing_threads by done. by rewrite observing_snoc.
Qed.

(** A thread that runs keeps running until it is stopped. *)
Lemma wait_running f : running f = true → live f = true → running (post (wait f)) = true ∧ live (post (wait f)) = true.
Proof. unfold wait. rewrite pbind_get. intros Hr _. rewrite Hr, orb_false_r. by destruct (_ <? _). Qed.
Lemma loop_head_running f : running f = true → live f = true → running (post (loop_head f)) = true ∧ live (post (loop_head f)) = true.
Proof. intros Hr Hl. unfold loop_head. rewrite pbind_get, Hr. by apply wait_running. Qed.
Lemma raised_running n f : running (raised n f) = running f ∧ live (raised n f) = live f ∧ frames_scheduled (raised n f) = Z.max (frames_scheduled f) n.
Proof. unfold raised. destruct (_ <? _) eqn:Hlt; split_and!; try done; cbn; lia. Qed.
Lemma step_running error pending f :
  running f = true → live f = true →
  running (post (thread_step error pending f)) = true ∧ live (post (thread_step error pending f)) = true.
Proof.
  intros Hr Hl. unfold thread_step. rewrite pbind_get. destruct (at_phase f) eqn:Hp; try (unfold live in Hl; by rewrite Hp in Hl).
  - by apply loop_head_running.
  - by apply wait_running.
  - by apply wait_running.
  - by rewrite composite_all_run.
  - rewrite recount_run. destruct (raised_running (max_pending pending (group f)) f) as (? & ? & _).
    apply loop_head_running; congruence.
Qed.
Lemma live_startable error f : live f = true → startable error f.
Proof. unfold live. intros Hl Hp. by rewrite Hp in Hl. Qed.

Lemma each_state (m : F unit) s h :
  idle s h ∨ active s h → (∀ f, keeps m f) →
  (∀ f, running f = true → live f = true → running (post (m f)) = true ∧ live (post (m f)) = true) →
  idle (post (each m s)) (h ++ trace (each m s)) ∨ active (post (each m s)) (h ++ trace (each m s)).
Proof.
  intros Hs Hk Hrun. unfold idle, active. rewrite observing_threads by (by apply each_trace).
  destruct Hs as [(Hst & He & Hobs)|(Hst & Hobs & Hf)].
  - left. cbn. by rewrite He.
  - right. split; [done|]. split; [done|]. intros f' (f & -> & Hin)%list_elem_of_fmap.
    destruct (Hf f Hin). by apply Hrun.
Qed.
Lemma requested_running took n f : running (requested took n f) = running f ∧ live (requested took n f) = live f.
Proof. unfold requested. destruct (_ && _); [|done]. by autorewrite with notify. Qed.

Lemma compositor_reachable s h : reachable comp_machine s h → compositor_ok s h.
Proof.
  revert s h. apply (reachable_invariant comp_machine compositor_ok).
  - intros s [c ->]. split; [|by left]. split; cbn; [constructor|by intros f ?%elem_of_nil|by split|].
    by intros t _ o ?%elem_of_nil.
  - intros s h op _ Hok Hall. cbn in Hall. pose proof Hok as [Hs Hst].
    assert (threads_ok s (h ++ [ReportScheduled])) as Hs1.
    { apply threads_ok_foreign; [done|]. intros o Ho. by apply list_elem_of_singleton in Ho as ->. }
    assert (idle s (h ++ [ReportScheduled]) ∨ active s (h ++ [ReportScheduled])) as Hst1
      by (unfold idle, active; by rewrite observing_snoc).
    destruct op as [groups error late pending u|error pending u|n|n damage|i pending]; cbn [comp_exec m_exec comp_machine].
    + destruct Hst as [Hidle|Hact].
      * destruct (start_ok error late pending u groups s h Hok Hidle Hall) as (Hok' & Hr & _).
        split; [done|]. destruct (value _); [right; tauto|by left].
      * unfold start. rewrite pbind_get, bool_decide_false by (destruct Hact as (-> & _); done). cbn.
        rewrite app_nil_r. split; [done|by right].
    + destruct Hst as [Hidle|Hact].
      * unfold stop. rewrite pbind_get, bool_decide_false by (destruct Hidle as (-> & _); done). cbn.
        rewrite app_nil_r. split; [done|by left].
      * destruct (stop_ok error pending u s h Hok Hact) as (Hok' & Hr).
        split; [done|]. destruct (value _); [left; tauto|right; tauto].
    + unfold schedule_threads. rewrite pbind_emit. cbn [post trace]. rewrite cons_middle, app_assoc. split.
      * by apply threads_ok_each; [intros; apply schedule_keeps|].
      * apply each_state; [done|apply schedule_keeps|]. intros f ? ?. rewrite schedule_run. cbn [post].
        by destruct (requested_running true n f) as [-> ->].
    + unfold schedule_threads_damage. rewrite pbind_emit. cbn [post trace]. rewrite cons_middle, app_assoc. split.
      * by apply threads_ok_each; [intros; apply schedule_damage_keeps|].
      * apply each_state; [done|apply schedule_damage_keeps|]. intros f ? ?. rewrite schedule_damage_run. cbn [post].
        by destruct (requested_running (took_damage damage f) n f) as [-> ->].
    + destruct Hst as [(Hst & He & Hobs)|(Hst & Hobs & Hf)].
      * unfold turn. rewrite He. cbn. rewrite app_nil_r. split; [done|by left].
      * assert (∀ f, f ∈ functors s → keeps (thread_step no_error pending) f) as Hk.
        { intros f Hin. apply thread_step_keeps, live_startable. by apply Hf. }
        split; [by apply threads_ok_turn|]. right. unfold turn.
        destruct (functors s !! i) as [f|] eqn:Hi; cbn [post trace]; [|by rewrite app_nil_r].
        assert (f ∈ functors s) as Hin by by eapply list_elem_of_lookup_2.
        split; [done|]. split.
        -- rewrite observing_threads; [done|]. intros o Ho. destruct (Hk f Hin) as [(_ & _ & Hown) _]. by rewrite Hown.
        -- cbn [functors set_functors]. intros g Hg. apply list_elem_of_lookup_1 in Hg as [j Hj].
           apply list_lookup_insert_Some in Hj as [(<- & <- & _)|(_ & Hj)]; [destruct (Hf f Hin); by apply step_running|].
           apply Hf. by eapply list_elem_of_lookup_2.
Qed.

(** ** Draining *)
Fixpoint turns (pending : DisplayBuffer → Z) (k : nat) : F unit :=
  match k with O => pret tt | S k' => do* thread_step no_error pending in turns pending k' end.

Definition rendering (o : comp_obs) : bool :=
  match o with FrameStart _ | Composite _ _ | Post _ => true | _ => false end.
Definition rendered (t : list comp_obs) : list comp_obs := filter (λ o, rendering o = true) t.

(** What the thread does for one frame, and the rest of it once it was taken. *)
Definition frame_rest (t : Z) (g : list DisplayBuffer) : list comp_obs := (Composite t <$> g) ++ [Post t].
Definition frame (t : Z) (g : list DisplayBuffer) : list comp_obs := FrameStart t :: frame_rest t g.
Definition frames (n : nat) (t : Z) (g : list DisplayBuffer) : list comp_obs := concat (replicate n (frame t g)).

Definition taken (f : CompositingFunctor) : CompositingFunctor :=
  mkFunctor (thread f) (group f) (running f) (frames_scheduled f - 1) false (started f) Compositing.

Lemma rendered_app h k : rendered (h ++ k) = rendered h ++ rendered k.
Proof. apply filter_app. Qed.
Lemma rendered_frame_rest t g : rendered (frame_rest t g) = frame_rest t g.
Proof. apply filter_all. unfold frame_rest. in_traces. Qed.

Lemma wait_run f : running f = true →
  wait f = if 0 <? frames_scheduled f then Run (Ret tt) (taken f) [FrameStart (thread f)] else Run (Ret tt) (set_phase Asleep f) [].
Proof. unfold wait. rewrite pbind_get. intros Hr. rewrite Hr, orb_false_r. by destruct (_ <? _). Qed.
Lemma loop_head_run f : running f = true → loop_head f = wait f.
Proof. unfold loop_head. rewrite pbind_get. by intros ->. Qed.
Lemma max_pending_none pending g : (∀ b, pending b ≤ 0) → max_pending pending g = 0.
Proof.
  intros Hp. unfold max_pending. induction g as [|b g IH]; cbn; [done|].
  assert ((0 <? pending b) = false) as -> by (apply Z.ltb_ge, Hp). done.
Qed.

Lemma ends_more {A} (r : run CompositingFunctor comp_obs A) Q Q' :
  ends r Q → (∀ s t, Q s t → Q' s t) → ends r Q'.
Proof. unfold ends. auto. Qed.

Section drain.
Context (pending : DisplayBuffer → Z) (idle_scene : ∀ b, pending b ≤ 0).

(** From a turn [m] at the head of the loop, with what it says besides. *)
Lemma drain_from n f m t0 :
  running f = true → frames_scheduled f = Z.of_nat n → rendered t0 = [] →
  thread_step no_error pending f =
    (if 0 <? frames_scheduled f then Run (Ret tt) (taken f) (t0 ++ [FrameStart (thread f)]) else Run (Ret tt) (set_phase Asleep f) t0) →
  (m = 2 * n)%nat →
  ends (turns pending (S m) f) (λ f' t, at_phase f' = Asleep ∧ frames_scheduled f' = 0 ∧ running f' = true ∧
    rendered t = frames n (thread f) (group f)).
Proof.
  revert f m t0. induction n as [|n IH]; intros f m t0 Hr Hn Ht0 Hstep ->; cbn [turns].
  - eapply ends_bind; [rewrite Hstep, Hn; done|]. unfold ends. cbn. by rewrite app_nil_r.
  - replace (2 * S n)%nat with (S (S (2 * n))) by lia. eapply ends_bind; [rewrite Hstep, Hn; done|].
    cbn [turns]. eapply ends_bind; [unfold thread_step; rewrite pbind_get; cbn [at_phase taken]; apply composite_all_run|].
    set (g := set_phase Composited (taken f)).
    assert (thread_step no_error pending g = (if 0 <? frames_scheduled g
      then Run (Ret tt) (taken g) ([Recounted (thread g) 0] ++ [FrameStart (thread g)])
      else Run (Ret tt) (set_phase Asleep g) [Recounted (thread g) 0])) as Hg.
    { unfold thread_step. rewrite pbind_get. cbn [at_phase g set_phase]. rewrite recount_run. cbn zeta. rewrite max_pending_none by done.
      assert (raised 0 g = g) as ->.
      { unfold raised. cbn. rewrite Hn. assert ((Z.of_nat (S n) - 1 <? 0) = false) as -> by (apply Z.ltb_ge; lia). done. }
      rewrite loop_head_run, wait_run by done. by destruct (0 <? frames_scheduled g). }
    eapply ends_more; [exact (IH g (2 * n)%nat [Recounted (thread g) 0] Hr ltac:(cbn; lia) eq_refl Hg eq_refl)|].
    intros f' t (Ha & Hf & Hrun & Hren). split; [exact Ha|]. split; [exact Hf|]. split; [exact Hrun|].
    change ((Composite (thread (taken f)) <$> group (taken f)) ++ [Post (thread (taken f))]) with (frame_rest (thread f) (group f)).
    rewrite rendered_app, (rendered_app t0), Ht0, (rendered_app (frame_rest _ _)), Hren, rendered_frame_rest. done.
Qed.

Lemma turns_app a b f : turns pending (a + b) f = (do* turns pending a in turns pending b) f.
Proof.
  revert f. induction a as [|a IH]; intros f; cbn [turns Nat.add]; [by rewrite pbind_ret_l|].
  rewrite pbind_assoc. unfold pbind at 1 2. destruct (thread_step _ _ f) as [[]]; cbn; [|done]. by rewrite IH.
Qed.
Lemma turns_asleep k f :
  at_phase f = Asleep → frames_scheduled f = 0 → running f = true → turns pending k f = Run (Ret tt) f [].
Proof.
  intros Ha Hf Hr. induction k as [|k IH]; [done|]. cbn [turns]. etrans; [apply (pbind_silent _ _ _ tt f)|exact IH].
  unfold thread_step. rewrite pbind_get, Ha, wait_run, Hf by done. cbn. f_equal. destruct f. cbn in *. by subst.
Qed.
(** The head of the loop, where nothing was taken yet. *)
Lemma drain_head n f m :
  running f = true → live f = true → at_phase f ≠ Compositing → frames_scheduled f = Z.of_nat n → (m = 2 * n)%nat →
  ends (turns pending (S m) f) (λ f' t, at_phase f' = Asleep ∧ frames_scheduled f' = 0 ∧ running f' = true ∧
    rendered t = frames n (thread f) (group f)).
Proof.
  intros Hr Hl Hp Hn Hm. destruct (decide (at_phase f = Composited)) as [Hc|Hc].
  - apply (drain_from n f m [Recounted (thread f) 0]); try done.
    unfold thread_step. rewrite pbind_get, Hc, recount_run. cbn zeta. rewrite max_pending_none by done.
    assert (raised 0 f = f) as -> by (unfold raised; rewrite Hn; by rewrite (proj2 (Z.ltb_ge _ _) (Nat2Z.is_nonneg n))).
    rewrite loop_head_run, wait_run by done. by destruct (_ <? _).
  - apply (drain_from n f m []); try done. rewrite <- wait_run by done.
    unfold thread_step. rewrite pbind_get. unfold live in Hl. destruct (at_phase f); try done. by apply loop_head_run.
Qed.
Lemma drain n f :
  running f = true → live f = true → frames_scheduled f = Z.of_nat n →
  ends (turns pending (2 * n + 2) f) (λ f' t, at_phase f' = Asleep ∧
    rendered t = (match at_phase f with Compositing => frame_rest (thread f) (group f) | _ => [] end) ++ frames n (thread f) (group f)).
Proof.
  intros Hr Hl Hn. destruct (decide (at_phase f = Compositing)) as [Hp|Hp].
  - rewrite Hp. replace (2 * n + 2)%nat with (S (S (2 * n))) by lia. cbn [turns].
    eapply ends_bind; [unfold thread_step; rewrite pbind_get, Hp; apply composite_all_run|].
    eapply ends_more; [apply (drain_head n _ (2 * n)); by try done|].
    intros f' t (? & _ & _ & Ht). split; [done|]. rewrite rendered_app, Ht. f_equal. apply rendered_frame_rest.
  - replace (2 * n + 2)%nat with (S (2 * n) + 1)%nat by lia. rewrite turns_app.
    destruct (drain_head n f (2 * n) Hr Hl Hp Hn eq_refl) as (Ha & Hf & Hr' & Ht).
    assert (value (turns pending (S (2 * n)) f) = Ret tt) as Hv.
    { clear -Hl. generalize (S (2 * n)). assert (startable no_error f) as Hs by by apply live_startable. clear Hl.
      revert Hs. intros Hs k. revert f Hs. induction k as [|k IH]; intros f Hs; [done|]. cbn [turns]. unfold pbind.
      destruct (step_value no_error pending f Hs) as [-> Hns]. cbn. apply IH. by intros ?. }
    unfold pbind. rewrite Hv. rewrite turns_asleep by done. cbn [value post trace]. rewrite app_nil_r.
    split; [done|]. cbn [trace]. rewrite Ht. by destruct (at_phase f).
Qed.
End drain.

(** A stopped thread takes no frame. *)
Lemma stopped_no_frame error pending f :
  startable error f → running f = false → ∀ t, starts t (trace (thread_step error pending f)) = 0.
Proof.
  intros Hs Hr t. apply starts_none. unfold thread_step. rewrite pbind_get. destruct (at_phase f) eqn:Hp.
  - destruct (startup_run error f (Hs Hp)) as [[_ ->]|(? & ? & ->)]; cbn [trace]; in_traces.
  - unfold loop_head. rewrite pbind_get, Hr, thread_end_run. cbn [trace]. in_traces.
  - unfold wait. rewrite pbind_get, Hr, orb_true_r, thread_end_run. cbn [trace]. in_traces.
  - unfold wait. rewrite pbind_get, Hr, orb_true_r, thread_end_run. cbn [trace]. in_traces.
  - rewrite composite_all_run. cbn [trace]. in_traces.
  - rewrite recount_run. cbn zeta. unfold loop_head. rewrite pbind_get.
    assert (running (raised (max_pending pending (group f)) f) = false) as -> by (unfold raised; by destruct (_ <? _)).
    rewrite thread_end_run. cbn [trace]. in_traces.
  - by intros o ?%elem_of_nil.
Qed.
Lemma join_no_frame error pending f t :
  startable error f → running f = false → starts t (trace (join_thread error pending f)) = 0.
Proof.
  intros Hs Hr. unfold join_thread, pbind.
  destruct (step_stopped error pending f Hs Hr) as (Hr1 & Hs1 & _).
  destruct (step_value error pending f Hs) as [-> _]. cbn [trace].
  destruct (step_stopped error pending _ Hs1 Hr1) as (Hr2 & Hs2 & _).
  destruct (step_value error pending _ Hs1) as [-> _]. cbn [trace].
  by rewrite !starts_app, !stopped_no_frame.
Qed.

(** ** Properties *)

(** C22. No frame that was asked for is lost, and none is composited that was
    not.  Whenever a thread was asked for [n] frames - by a request without
    damage, by one whose damage meets one of its displays or comes before its
    first frame, or by the scene's count of what is pending - the frames it has
    started since and those still scheduled are at least [n]; what is scheduled
    is what some such call asked for, less the frames started since.  A thread
    only sleeps when nothing is scheduled, so no wake-up is lost. *)
Theorem compositor_frames_owed s h f :
  reachable comp_machine s h → f ∈ functors s →
  (∀ h1 o h2 n, h = h1 ++ o :: h2 → asks f h1 o = Some n → n ≤ starts (thread f) h2 + frames_scheduled f) ∧
  (0 < frames_scheduled f →
     ∃ h1 o h2 n, h = h1 ++ o :: h2 ∧ asks f h1 o = Some n ∧ n = starts (thread f) h2 + frames_scheduled f) ∧
  0 ≤ frames_scheduled f ∧ (at_phase f = Asleep → frames_scheduled f = 0).
Proof.
  intros [[_ Hok _ _] _]%compositor_reachable Hin. destruct (Hok f Hin) as [[[Howed Hdue Hnn _] _ Has _] _].
  split_and!; [done..|]. intros Hp. by apply Has.
Qed.

(** Starting and stopping are all or nothing.  Between the calls the
    compositor is stopped, with no thread, no observer in the scene, and no
    display or compositor registered for any thread, or it is started, observes
    the scene, and exactly the displays of its threads are with the listener and
    their compositors with the scene.  A start that throws - a compositor that
    cannot be made, a thread that is late, a scene that refuses the observer -
    leaves it stopped, a successful one has a thread per group and, when
    [compose_on_start] is set, a frame scheduled for each; so it is after every
    stop.  A stop that throws leaves all threads in place. *)
Theorem compositor_lifecycle s h :
  reachable comp_machine s h →
  (idle s h ∧ shown h = ∅ ∧ registered h = ∅ ∨
   active s h ∧ ∀ t b, ((t, b) ∈ shown h ↔ ∃ f, f ∈ functors s ∧ thread f = t ∧ b ∈ group f) ∧
     ((t, b) ∈ registered h ↔ ∃ f, f ∈ functors s ∧ thread f = t ∧ b ∈ group f)) ∧
  (∀ groups error late pending u, state s = CSStopped → registers error groups = true →
     let r := start error late pending u groups s in
     match value r with
     | Ret _ => state (post r) = CSStarted ∧ group <$> functors (post r) = groups ∧
         (compose_on_start s = true → ∀ f, f ∈ functors (post r) → frames_scheduled f = 1)
     | Throw _ => state (post r) = CSStopped ∧ functors (post r) = []
     end ∧ (faultless error late → value r = Ret tt)) ∧
  (∀ error pending u, state s = CSStarted →
     let r := stop error pending u s in
     match value r with
     | Ret _ => state (post r) = CSStopped ∧ functors (post r) = [] ∧ compose_on_start (post r) = true
     | Throw e => state (post r) = CSStarted ∧ functors (post r) = functors s ∧ error CRemoveObserver = Some e
     end).
Proof.
  intros Hok%compositor_reachable. pose proof Hok as [[_ Ht Hg _] Hst]. split; [|split].
  - destruct Hst as [Hi|Ha].
    + left. split; [done|]. destruct Hi as (_ & He & _).
      split; apply set_eq; intros [t b]; (split; [|set_solver]); intros Hin; exfalso;
        (assert (t ∉ thread <$> functors s) as Hni by (rewrite He; cbn; by intros ?%elem_of_nil)); destruct (Hg t Hni b); contradiction.
    + right. split; [done|]. destruct Ha as (_ & _ & Hl). intros t b.
      destruct (decide (t ∈ thread <$> functors s)) as [(f & -> & Hin)%list_elem_of_fmap|Hni].
      * destruct (Ht f Hin) as [[_ [Hs Hr] _ _] _]. rewrite Hs, Hr. destruct (Hl f Hin) as [_ ->].
        enough (∀ g, g ∈ functors s → thread g = thread f → g = f) as Hinj by naive_solver.
        intros g Hin' Heq. eapply (NoDup_fmap_inj thread); try done. apply Hok.
      * destruct (Hg t Hni b). split; (split; [done|]); intros (f & Hin & <- & _); exfalso; by apply Hni, list_elem_of_fmap_2.
  - intros groups error late pending u Hs Hreg. cbn zeta.
    assert (idle s h) as Hi by (destruct Hst as [?|(Ha & _)]; [done|congruence]).
    destruct (start_ok error late pending u groups s h Hok Hi Hreg) as (_ & Hr & Hf). split; [|done].
    destruct (value _); unfold active, idle in Hr; tauto.
  - intros error pending u Hs. cbn zeta.
    assert (active s h) as Ha by (destruct Hst as [(Hi & _)|?]; [congruence|done]).
    destruct (stop_ok error pending u s h Hok Ha) as (_ & Hr). destruct (value _); unfold active, idle in Hr; tauto.
Qed.

(** The threads get their work done and can be stopped.  When nothing more
    is asked for and the scene has nothing pending, a thread with [n] frames
    scheduled is asleep after [2 n + 2] turns, having finished the frame it was
    at and done exactly [n] more: taken the frame, composited each of its
    displays once and posted them.  Once stopped, a thread ends after three turns
    and takes no further frame. *)
Theorem compositor_thread_progress s h f pending :
  reachable comp_machine s h → f ∈ functors s →
  ((∀ b, pending b ≤ 0) →
   let n := Z.to_nat (frames_scheduled f) in
   ends (turns pending (2 * n + 2) f) (λ f' t, at_phase f' = Asleep ∧
     rendered t = (match at_phase f with Compositing => frame_rest (thread f) (group f) | _ => [] end) ++
                  frames n (thread f) (group f))) ∧
  ends ((do* functor_stop in join_thread no_error pending) f) (λ f' t,
     at_phase f' = Finished ∧ starts (thread f) t = 0).
Proof.
  intros [[_ Hok _ _] Hst]%compositor_reachable Hin. destruct (Hok f Hin) as [Hf _].
  destruct Hst as [(_ & He & _)|(_ & _ & Hl)]; [rewrite He in Hin; by apply elem_of_nil in Hin|].
  destruct (Hl f Hin) as [Hr Hlive]. split.
  - intros Hp n. apply drain; [done..|]. pose proof (c_nonneg _ _ (t_counts _ _ Hf)). lia.
  - set (g := post (functor_stop f)). assert (running g = false) as Hrg by (cbn; by autorewrite with notify).
    assert (live g = true) as Hlg by (cbn; by autorewrite with notify).
    eapply ends_bind; [done|]. change (notify_one _) with g. split; [apply join_finishes; [by apply live_startable|done]|].
    apply join_no_frame; [by apply live_startable|done].
Qed.

(** Two groups of displays; the first start fails on the second display. *)
Definition left_display : DisplayBuffer := mkBuffer 1 (Rect (Pt 0 0) (Sz 100 100)).
Definition right_display : DisplayBuffer := mkBuffer 2 (Rect (Pt 100 0) (Sz 100 100)).
Definition far_display : DisplayBuffer := mkBuffer 3 (Rect (Pt 500 500) (Sz 100 100)).
Definition two_groups : list (list DisplayBuffer) := [[left_display; right_display]; [far_display]].
Definition no_right (c : call) : option exn :=
  match c with CCreate b => if bool_decide (buffer_id b = 2) then Some (runtime_error "no renderer") else None | _ => None end.
Definition one_pending (b : DisplayBuffer) : Z := if bool_decide (buffer_id b = 1) then 1 else 0.
Definition comp_example_ops : list comp_op :=
  [OpStart two_groups no_right (λ _, false) (λ _, 0) false; OpStart two_groups no_error (λ _, false) (λ _, 0) true;
   OpSchedule 1; OpThread 0 (λ _, 0); OpThread 1 (λ _, 0); OpThread 0 (λ _, 0); OpThread 1 (λ _, 0);
   OpThread 1 (λ _, 0); OpThread 0 one_pending; OpScheduleDamage 3 (Rect (Pt 90 90) (Sz 30 30)); OpThread 1 (λ _, 0)].
Definition comp_example_run : Compositor * list comp_obs :=
  default (mkCompositor CSStopped [] false 0, []) (run_ops comp_machine comp_example_ops (mkCompositor CSStopped [] false 0) []).
Lemma comp_example_reachable : reachable comp_machine comp_example_run.1 comp_example_run.2.
Proof.
  apply (run_ops_from_init comp_machine comp_example_ops (mkCompositor CSStopped [] false 0)); [by exists false|].
  vm_compute. reflexivity.
Qed.
Definition comp_example_thread (i : nat) : CompositingFunctor := default (new_functor 0 []) (functors comp_example_run.1 !! i).
Lemma comp_example_threads :
  at_phase (comp_example_thread 0) = Compositing ∧ frames_scheduled (comp_example_thread 0) = 3 ∧
  at_phase (comp_example_thread 1) = Asleep.
Proof. split_and!; vm_compute; reflexivity. Qed.

Lemma comp_example_thread_in : comp_example_thread 0 ∈ functors comp_example_run.1.
Proof. apply (list_elem_of_lookup_2 _ 0%nat). vm_compute. reflexivity. Qed.

Lemma compositor_frames_owed_witness :
  frames_scheduled (comp_example_thread 0) = 3 ∧
  ∃ h1 o h2 n, comp_example_run.2 = h1 ++ o :: h2 ∧ asks (comp_example_thread 0) h1 o = Some n ∧
    n = starts (thread (comp_example_thread 0)) h2 + frames_scheduled (comp_example_thread 0).
Proof.
  split; [vm_compute; reflexivity|].
  destruct (compositor_frames_owed _ _ (comp_example_thread 0) comp_example_reachable
    comp_example_thread_in) as (_ & Hdue & _).
  apply Hdue. vm_compute. reflexivity.
Defined.
Lemma compositor_lifecycle_witness :
  state comp_example_run.1 = CSStarted ∧
  (thread (comp_example_thread 0), left_display) ∈ shown comp_example_run.2.
Proof.
  assert (state comp_example_run.1 = CSStarted) as Hst by (vm_compute; reflexivity). split; [exact Hst|].
  destruct (compositor_lifecycle _ _ comp_example_reachable) as ([[[Hi _] _]|[_ Hsh]] & _); [congruence|].
  destruct (Hsh (thread (comp_example_thread 0)) left_display) as [[_ Hin] _]. apply Hin.
  exists (comp_example_thread 0). split; [exact comp_example_thread_in|]. split; [done|].
  apply (bool_decide_unpack (left_display ∈ group (comp_example_thread 0))). vm_compute. exact I.
Defined.
Lemma compositor_thread_progress_witness :
  (∀ b : DisplayBuffer, 0 ≤ 0) ∧
  ends (turns (λ _, 0) 8 (comp_example_thread 0)) (λ f' t, at_phase f' = Asleep ∧
    rendered t = frame_rest 2 [left_display; right_display] ++ frames 3 2 [left_display; right_display]).
Proof.
  split; [done|].
  destruct (compositor_thread_progress _ _ (comp_example_thread 0) (λ _, 0) comp_example_reachable
    comp_example_thread_in) as [Hd _].
  exact (Hd (λ _, Z.le_refl 0)).
Defined.

(** A display that refuses half-way: the ones added before it stay. *)
Definition refuses_right (c : call) : option exn :=
  match c with CAddDisplay b => if bool_decide (buffer_id b = 2) then Some (runtime_error "no region") else None | _ => None end.
Lemma add_display_leaks :
  let r := start refuses_right (λ _, false) (λ _, 0) false [[left_display; right_display]] (mkCompositor CSStopped [] false 0) in
  state (post r) = CSStopped ∧ functors (post r) = [] ∧ (0, left_display) ∈ shown (trace r).
Proof. split_and!; [vm_compute; reflexivity..|]. apply (bool_decide_unpack _). vm_compute. exact I. Qed.
