(* ===== verification/RenderingTracker.v ===== *)
(** Which compositors show a surface (src/server/scene/rendering_tracker.cpp):
    a tracker per surface, which tells the surface when nobody shows it. *)

From stdpp Require Import gmap.
From S2P Require Import Prelude.

Inductive MirWindowVisibility := visibility_occluded | visibility_exposed.
#[export] Instance MirWindowVisibility_eq_dec : EqDecision MirWindowVisibility.
Proof. solve_decision. Defined.

(** [weak_surface] is the surface's address; whether it can still be locked is
    an argument of the methods that need it. *)
Record RenderingTracker := mkTracker {
  weak_surface : Z;
  occlusions : gset Z;
  active_compositors_ : gset Z
}.

(** [Surface::configure(mir_window_attrib_visibility, v)] *)
Inductive surface_call := Configure (surface : Z) (v : MirWindowVisibility).
#[export] Instance surface_call_eq_dec : EqDecision surface_call.
Proof. solve_decision. Defined.

#[local] Abbreviation M := (prog RenderingTracker surface_call).

Definition set_occlusions (o : gset Z) (t : RenderingTracker) : RenderingTracker :=
  mkTracker (weak_surface t) o (active_compositors_ t).
Definition set_active (a : gset Z) (t : RenderingTracker) : RenderingTracker :=
  mkTracker (weak_surface t) (occlusions t) a.

Definition new_tracker (surface : Z) : RenderingTracker := mkTracker surface ∅ ∅.

Definition ensure_is_active_compositor (cid : Z) : M unit :=
  let* t := pget in
  if bool_decide (cid ∈ active_compositors_ t) then pret tt
  else pthrow (logic_error "No active compositor with supplied id").

Definition configure_visibility (alive : bool) (v : MirWindowVisibility) : M unit :=
  let* t := pget in pwhen alive (pemit (Configure (weak_surface t) v)).

Definition occluded_in_all_active_compositors (t : RenderingTracker) : bool :=
  bool_decide (occlusions t = active_compositors_ t).

Definition remove_occlusions_for_inactive_compositors : M unit :=
  pmodify (λ t, set_occlusions (active_compositors_ t ∩ occlusions t) t).

Definition rendered_in (alive : bool) (cid : Z) : M unit :=
  do* ensure_is_active_compositor cid in
  do* pmodify (λ t, set_occlusions (occlusions t ∖ {[cid]}) t) in
  configure_visibility alive visibility_exposed.

Definition configure_if_occluded (alive : bool) : M unit :=
  let* t := pget in
  pwhen (occluded_in_all_active_compositors t) (configure_visibility alive visibility_occluded).

Definition occluded_in (alive : bool) (cid : Z) : M unit :=
  do* ensure_is_active_compositor cid in
  do* pmodify (λ t, set_occlusions (occlusions t ∪ {[cid]}) t) in
  configure_if_occluded alive.

Definition active_compositors (alive : bool) (cids : gset Z) : M unit :=
  do* pmodify (set_active cids) in
  do* remove_occlusions_for_inactive_compositors in
  configure_if_occluded alive.

Definition is_exposed_in (cid : Z) : M bool :=
  do* ensure_is_active_compositor cid in
  let* t := pget in
  pret (bool_decide (base.size (occlusions t) = 0%nat) || bool_decide (cid ∉ occlusions t)).

(** ** Invariant: occlusions are reports of active compositors *)
Definition tracker_ok (t : RenderingTracker) : Prop := occlusions t ⊆ active_compositors_ t.

(** What the surface was last told, starting from [l]. *)
Definition heard (s : Z) (l : option MirWindowVisibility) (c : surface_call) : option MirWindowVisibility :=
  match c with Configure s' v => if bool_decide (s' = s) then Some v else l end.

(** A surface shown by no active compositor has been told that it is occluded. *)
Definition told (l : option MirWindowVisibility) (t : RenderingTracker) : Prop :=
  occlusions t = active_compositors_ t → l = Some visibility_occluded.

Lemma configure_if_occluded_run alive t :
  configure_if_occluded alive t =
    Run (Ret tt) t (if alive && occluded_in_all_active_compositors t
                    then [Configure (weak_surface t) visibility_occluded] else []).
Proof.
  unfold configure_if_occluded, configure_visibility. rewrite pbind_get.
  destruct (occluded_in_all_active_compositors t), alive; done.
Qed.

Lemma configured_told t l :
  told (foldl (heard (weak_surface t)) l
    (if true && occluded_in_all_active_compositors t then [Configure (weak_surface t) visibility_occluded] else [])) t.
Proof.
  unfold told, occluded_in_all_active_compositors. intros Heq. rewrite bool_decide_true by done.
  cbn. by rewrite bool_decide_true.
Qed.

(** Each method keeps the tracker well-formed and, while the surface lives, the
    surface informed; it calls no other surface. *)
Definition tracker_step (alive : bool) (l : option MirWindowVisibility) (t : RenderingTracker) {A}
    (r : run RenderingTracker surface_call A) : Prop :=
  tracker_ok (post r) ∧
  (alive = true → told (foldl (heard (weak_surface t)) l (trace r)) (post r)) ∧
  weak_surface (post r) = weak_surface t ∧
  Forall (λ c, match c with Configure s _ => s = weak_surface t end) (trace r).

Lemma rendered_in_step alive l t cid :
  tracker_ok t → (alive = true → told l t) →
  tracker_step alive l t (rendered_in alive cid t) ∧
  active_compositors_ (post (rendered_in alive cid t)) = active_compositors_ t ∧
  (cid ∈ active_compositors_ t → value (rendered_in alive cid t) = Ret tt).
Proof.
  intros Hok Htold. unfold rendered_in, ensure_is_active_compositor, configure_visibility. rewrite pbind_assoc, pbind_get.
  case_bool_decide as Hcid; cbn; [|by split_and!]. unfold tracker_step, tracker_ok, told in *.
  destruct alive; cbn; split_and!; try done; try set_solver; repeat constructor.
Qed.

Lemma occluded_in_step alive l t cid :
  tracker_ok t → (alive = true → told l t) →
  tracker_step alive l t (occluded_in alive cid t) ∧
  active_compositors_ (post (occluded_in alive cid t)) = active_compositors_ t ∧
  (cid ∈ active_compositors_ t → value (occluded_in alive cid t) = Ret tt).
Proof.
  intros Hok Htold. unfold occluded_in, ensure_is_active_compositor. rewrite pbind_assoc, pbind_get.
  case_bool_decide as Hcid; [|by split_and!]. rewrite pbind_ret_l, pbind_modify, configure_if_occluded_run.
  cbn [value post trace]. set (t' := set_occlusions _ t).
  split_and!; [split_and!|done|done].
  - unfold tracker_ok in *. cbn. set_solver.
  - intros ->. exact (configured_told t' l).
  - done.
  - by destruct alive, (occluded_in_all_active_compositors t'); repeat constructor.
Qed.

Lemma active_compositors_step alive l t cids :
  let r := active_compositors alive cids t in
  tracker_step alive l t r ∧ active_compositors_ (post r) = cids ∧ value r = Ret tt.
Proof.
  unfold active_compositors, remove_occlusions_for_inactive_compositors.
  rewrite !pbind_modify, configure_if_occluded_run. cbn [value post trace]. set (t' := set_occlusions _ _).
  split_and!; [split_and!|done|done].
  - unfold tracker_ok. cbn. set_solver.
  - intros ->. exact (configured_told t' l).
  - done.
  - by destruct alive, (occluded_in_all_active_compositors t'); repeat constructor.
Qed.

Lemma is_exposed_in_run cid t :
  is_exposed_in cid t =
    if bool_decide (cid ∈ active_compositors_ t) then Run (Ret (bool_decide (cid ∉ occlusions t))) t []
    else Run (Throw (logic_error "No active compositor with supplied id")) t [].
Proof.
  unfold is_exposed_in, ensure_is_active_compositor. rewrite pbind_assoc, pbind_get.
  case_bool_decide; [|done]. rewrite pbind_ret_l, pbind_get. unfold pret. do 2 f_equal.
  destruct (bool_decide (base.size _ = 0%nat)) eqn:He; [|done].
  apply bool_decide_eq_true, size_empty_iff in He. cbn. rewrite bool_decide_true; [done|]. set_solver.
Qed.
