(* ===== verification/SurfaceStack.v ===== *)
(** The stack of surfaces (src/server/scene/surface_stack.cpp): stacking
    order, the scene each compositor draws, and the tracker of every surface. *)

From S2P Require Import Prelude Geometry RenderingTracker.

(** What the stack asks a [scene::Surface] (known by its address).  The answers
    change over time, so they come with the operation that asks. *)
Record SurfaceQueries := mkQueries {
  visible : Z → bool;
  name : Z → string;
  generate_renderables : Z → Z → list Z;
  buffers_ready : Z → Z → Z;
  input_area_contains : Z → Point → bool;
  query_visibility : Z → MirWindowVisibility
}.

(** Trackers are shared objects: scene elements keep them alive, so they live in
    a heap of their own; [rendering_trackers] maps a surface to its tracker's
    handle, [None] being a null pointer.  [expired] are the destroyed surfaces. *)
Record Stack := mkStack {
  surfaces : list Z;
  rendering_trackers : gmap Z (option Z);
  heap : gmap Z RenderingTracker;
  next_handle : Z;
  registered_compositors : gset Z;
  overlays : list Z;
  scene_changed : bool;
  expired : gset Z
}.

Inductive stack_obs :=
  | ToSurface (c : surface_call)
  | SetReceptionMode (s mode : Z)
  | SurfaceAdded (s : Z)
  | SurfaceRemoved (s : Z)
  | SurfacesReordered
  | SceneChanged
  | SurfaceExists (o s : Z)
  | EndObservation (o : Z)
  | ObserverAdded (o : Z)
  | ObserverRemoved (o : Z)
  | Visited (s : Z).
#[export] Instance stack_obs_eq_dec : EqDecision stack_obs.
Proof. solve_decision. Defined.

#[local] Abbreviation M := (prog Stack stack_obs).

Definition set_surfaces x s := mkStack x (rendering_trackers s) (heap s) (next_handle s)
  (registered_compositors s) (overlays s) (scene_changed s) (expired s).
Definition set_trackers x s := mkStack (surfaces s) x (heap s) (next_handle s)
  (registered_compositors s) (overlays s) (scene_changed s) (expired s).
Definition set_heap x s := mkStack (surfaces s) (rendering_trackers s) x (next_handle s)
  (registered_compositors s) (overlays s) (scene_changed s) (expired s).
Definition set_next x s := mkStack (surfaces s) (rendering_trackers s) (heap s) x
  (registered_compositors s) (overlays s) (scene_changed s) (expired s).
Definition set_registered x s := mkStack (surfaces s) (rendering_trackers s) (heap s) (next_handle s)
  x (overlays s) (scene_changed s) (expired s).
Definition set_overlays x s := mkStack (surfaces s) (rendering_trackers s) (heap s) (next_handle s)
  (registered_compositors s) x (scene_changed s) (expired s).
Definition set_scene_changed x s := mkStack (surfaces s) (rendering_trackers s) (heap s) (next_handle s)
  (registered_compositors s) (overlays s) x (expired s).
Definition set_expired x s := mkStack (surfaces s) (rendering_trackers s) (heap s) (next_handle s)
  (registered_compositors s) (overlays s) (scene_changed s) x.

Definition new_stack : Stack := mkStack [] ∅ ∅ 0 ∅ [] false ∅.

(** Calls a method of the tracker behind a pointer; [alive] is whether its
    surface can still be locked. *)
Definition in_tracker {A} (handle : option Z) (m : bool → prog RenderingTracker surface_call A) : M A :=
  let* s := pget in
  match handle with
  | None => pthrow (undefined_behaviour "null tracker")
  | Some h =>
      match heap s !! h with
      | None => pthrow (undefined_behaviour "dangling tracker")
      | Some t =>
          pcomponent (λ _, t) (λ t' s, set_heap (<[h := t']> (heap s)) s) (λ c, pemit (ToSurface c))
            (m (bool_decide (weak_surface t ∉ expired s)))
      end
  end.

(** ** Scene elements *)
Inductive SceneElement :=
  | SurfaceSceneElement (surface_name : string) (renderable : Z) (tracker : option Z) (cid : Z)
  | OverlaySceneElement (renderable : Z).

Definition element_rendered (e : SceneElement) : M unit :=
  match e with
  | SurfaceSceneElement _ _ tracker cid => in_tracker tracker (λ alive, rendered_in alive cid)
  | OverlaySceneElement _ => pret tt
  end.
Definition element_occluded (e : SceneElement) : M unit :=
  match e with
  | SurfaceSceneElement _ _ tracker cid => in_tracker tracker (λ alive, occluded_in alive cid)
  | OverlaySceneElement _ => pret tt
  end.

(** [rendering_trackers\[surface.get()\]] inserts a null pointer when there is none. *)
Definition tracker_at (surface : Z) : M (option Z) :=
  let* s := pget in
  match rendering_trackers s !! surface with
  | Some t => pret t
  | None => do* pput (set_trackers (<[surface := None]> (rendering_trackers s)) s) in pret None
  end.

Section queries.
Context (q : SurfaceQueries).

Fixpoint elements_of (surface id : Z) (renderables : list Z) : M (list SceneElement) :=
  match renderables with
  | [] => pret []
  | renderable :: rest =>
      let* tracker := tracker_at surface in
      let* elements := elements_of surface id rest in
      pret (SurfaceSceneElement (name q surface) renderable tracker id :: elements)
  end.
Fixpoint collect_elements (id : Z) (l : list Z) : M (list SceneElement) :=
  match l with
  | [] => pret []
  | surface :: l' =>
      let* here := (if visible q surface
                    then elements_of surface id (generate_renderables q surface id) else pret []) in
      let* rest := collect_elements id l' in
      pret (here ++ rest)
  end.
Definition scene_elements_for (id : Z) : M (list SceneElement) :=
  do* pmodify (set_scene_changed false) in
  let* s := pget in
  let* elements := collect_elements id (surfaces s) in
  let* s := pget in
  pret (elements ++ (OverlaySceneElement <$> overlays s)).

Fixpoint pending_loop (id : Z) (l : list Z) (result : Z) : M Z :=
  match l with
  | [] => pret result
  | surface :: l' =>
      if visible q surface then
        let* s := pget in
        match rendering_trackers s !! surface with
        | None => pending_loop id l' result
        | Some tracker =>
            let* exposed := in_tracker tracker (λ _, is_exposed_in id) in
            if exposed : bool then
              let ready := buffers_ready q surface id in
              pending_loop id l' (if bool_decide (result < ready) then ready else result)
            else pending_loop id l' result
        end
      else pending_loop id l' result
  end.
Definition frames_pending (id : Z) : M Z :=
  let* s := pget in pending_loop id (surfaces s) (if scene_changed s then 1 else 0).

(** The topmost surface whose input area contains the point. *)
Definition surface_at (cursor : Point) (s : Stack) : option Z :=
  find_if (λ surface, input_area_contains q surface cursor) (rev (surfaces s)).

Definition for_each : M unit :=
  let* s := pget in
  pfor (surfaces s) (λ surface,
    pwhen (bool_decide (query_visibility q surface = visibility_exposed)) (pemit (Visited surface))).
End queries.

Definition update_rendering_tracker_compositors : M unit :=
  let* s := pget in
  pfor (entries (rendering_trackers s)) (λ pair,
    let* s := pget in
    in_tracker pair.2 (λ alive, active_compositors alive (registered_compositors s))).

Definition create_rendering_tracker_for (surface : Z) : M unit :=
  let* s := pget in
  let h := next_handle s in
  do* pput (set_next (h + 1) (set_heap (<[h := new_tracker surface]> (heap s)) s)) in
  do* in_tracker (Some h) (λ alive, active_compositors alive (registered_compositors s)) in
  pmodify (λ s, set_trackers (<[surface := Some h]> (rendering_trackers s)) s).

Definition register_compositor (cid : Z) : M unit :=
  do* pmodify (λ s, set_registered ({[cid]} ∪ registered_compositors s) s) in
  update_rendering_tracker_compositors.
Definition unregister_compositor (cid : Z) : M unit :=
  do* pmodify (λ s, set_registered (registered_compositors s ∖ {[cid]}) s) in
  update_rendering_tracker_compositors.

Definition emit_scene_changed : M unit :=
  do* pmodify (set_scene_changed true) in pemit SceneChanged.

Definition add_input_visualization (overlay : Z) : M unit :=
  do* pmodify (λ s, set_overlays (overlays s ++ [overlay]) s) in emit_scene_changed.
(** A weak pointer that cannot be locked is [None], as is a null element. *)
Definition remove_input_visualization (overlay : option Z) : M unit :=
  let* s := pget in
  match overlay with
  | Some overlay =>
      if bool_decide (overlay ∈ overlays s) then
        do* pput (set_overlays (erase_first overlay (overlays s)) s) in emit_scene_changed
      else pthrow (runtime_error "Attempt to remove an overlay which was never added or which has been previously removed")
  | None => pthrow (runtime_error "Attempt to remove an overlay which was never added or which has been previously removed")
  end.

Definition add_surface (surface input_mode : Z) : M unit :=
  do* pmodify (λ s, set_surfaces (surfaces s ++ [surface]) s) in
  do* create_rendering_tracker_for surface in
  do* pemit (SetReceptionMode surface input_mode) in
  pemit (SurfaceAdded surface).

Definition remove_surface (keep_alive : option Z) : M unit :=
  let* s := pget in
  match keep_alive with
  | Some surface =>
      pwhen (bool_decide (surface ∈ surfaces s))
        (do* pput (set_trackers (delete surface (rendering_trackers s))
                     (set_surfaces (erase_first surface (surfaces s)) s)) in
         pemit (SurfaceRemoved surface))
  | None => pret tt
  end.

Definition raise (surface : option Z) : M unit :=
  let* s := pget in
  match surface with
  | Some surface =>
      if bool_decide (surface ∈ surfaces s) then
        do* pput (set_surfaces (erase_first surface (surfaces s) ++ [surface]) s) in
        pemit SurfacesReordered
      else pthrow (runtime_error "Invalid surface")
  | None => pthrow (runtime_error "Invalid surface")
  end.

(** [std::stable_partition]: the elements that satisfy the predicate, then the
    others, each group in its order. *)
Definition stable_partition {A} (p : A → bool) (l : list A) : list A :=
  filter (λ x, p x = true) l ++ filter (λ x, p x = false) l.

Definition raise_set (ss : gset Z) : M unit :=
  let* s := pget in
  let old_surfaces := surfaces s in
  let new_surfaces := stable_partition (λ x, negb (bool_decide (x ∈ ss))) old_surfaces in
  do* pput (set_surfaces new_surfaces s) in
  pwhen (bool_decide (old_surfaces ≠ new_surfaces)) (pemit SurfacesReordered).

Definition add_observer (observer : Z) : M unit :=
  do* pemit (ObserverAdded observer) in
  let* s := pget in
  pfor (surfaces s) (λ surface, pemit (SurfaceExists observer surface)).
Definition remove_observer (observer : option Z) : M unit :=
  match observer with
  | None => pthrow (logic_error "Invalid observer (destroyed)")
  | Some o => do* pemit (EndObservation o) in pemit (ObserverRemoved o)
  end.

(** ** Invariant

    [L] is what each surface was last told about its visibility, [P] the
    surfaces whose trackers know the registered compositors (all of them,
    except inside [update_rendering_tracker_compositors]). *)
Record stack_inv (s : Stack) (L : Z → option MirWindowVisibility) (P : Z → Prop) : Prop := {
  st_nodup : NoDup (surfaces s);
  st_domain x : is_Some (rendering_trackers s !! x) ↔ x ∈ surfaces s;
  st_tracker x th : rendering_trackers s !! x = Some th →
    ∃ h t, th = Some h ∧ heap s !! h = Some t ∧ weak_surface t = x ∧ told (L x) t ∧
      (P x → active_compositors_ t = registered_compositors s);
  st_heap h t : heap s !! h = Some t → tracker_ok t ∧ h < next_handle s;
  st_unique h1 h2 t1 t2 : heap s !! h1 = Some t1 → heap s !! h2 = Some t2 →
    weak_surface t1 = weak_surface t2 → h1 = h2;
  st_alive x : x ∈ surfaces s → x ∉ expired s
}.

Definition hear (L : Z → option MirWindowVisibility) (tr : list surface_call) : Z → option MirWindowVisibility :=
  λ x, foldl (heard x) (L x) tr.

Lemma heard_other x y l tr :
  Forall (λ c, match c with Configure s _ => s = y end) tr → x ≠ y → foldl (heard x) l tr = l.
Proof.
  intros Hall Hne. revert l. induction Hall as [|[s v] tr -> Hall IH]; intros l; [done|].
  cbn. rewrite bool_decide_false by done. apply IH.
Qed.

Lemma in_tracker_run {A} (m : bool → prog RenderingTracker surface_call A) h t s :
  heap s !! h = Some t →
  let r := m (bool_decide (weak_surface t ∉ expired s)) t in
  in_tracker (Some h) m s = Run (value r) (set_heap (<[h := post r]> (heap s)) s) (ToSurface <$> trace r).
Proof.
  intros Hh r. unfold in_tracker. rewrite pbind_get, Hh. unfold pcomponent. fold r. unfold pbind.
  rewrite pfor_emit. cbn. by rewrite app_nil_r.
Qed.

(** A tracker's method called through a handle. *)
Lemma tracker_call {A} s L (P P' : Z → Prop) h t (r : run RenderingTracker surface_call A) :
  stack_inv s L P → heap s !! h = Some t →
  (∀ l, (bool_decide (weak_surface t ∉ expired s) = true → told l t) →
     tracker_step (bool_decide (weak_surface t ∉ expired s)) l t r) →
  (∀ x, P' x → if decide (x = weak_surface t) then active_compositors_ (post r) = registered_compositors s else P x) →
  stack_inv (set_heap (<[h := post r]> (heap s)) s) (hear L (trace r)) P'.
Proof.
  intros [Hnd Hdom Htr Hheap Huniq Halive] Hh Hstep HP.
  destruct (Hstep (Some visibility_occluded)) as (Hok & _ & Hweak & Hcalls); [done|].
  constructor; cbn; [done|done| | | |done].
  - intros x th Hx. destruct (Htr x th Hx) as (h' & t' & -> & Hh' & Hw & Htold & Hact).
    destruct (decide (x = weak_surface t)) as [->|Hne].
    + assert (h' = h) as -> by (eapply Huniq; [done|done|by rewrite Hw]). rewrite Hh in Hh'. simplify_eq.
      exists h, (post r). rewrite lookup_insert_eq. split_and!; [done|done|done| |].
      * assert (bool_decide (weak_surface t' ∉ expired s) = true) as Hal.
        { apply bool_decide_eq_true, Halive, Hdom. by eexists. }
        destruct (Hstep (L (weak_surface t'))) as (_ & Ht & _); [done|]. by apply Ht.
      * intros Hp. specialize (HP _ Hp). by rewrite decide_True in HP.
    + exists h', t'. rewrite lookup_insert_ne by congruence. split_and!; [done|done|done| |].
      * unfold hear. by rewrite (heard_other x (weak_surface t)).
      * intros Hp. specialize (HP _ Hp). rewrite decide_False in HP by done. auto.
  - intros h' t' [[<- <-]|[_ Hl]]%lookup_insert_Some; [|by apply Hheap].
    split; [done|]. by apply (Hheap h t).
  - intros h1 h2 t1 t2 [[<- <-]|[Hn1 H1]]%lookup_insert_Some [[<- <-]|[Hn2 H2]]%lookup_insert_Some Hw; [done|..].
    + rewrite Hweak in Hw. by eapply Huniq.
    + rewrite Hweak in Hw. by eapply Huniq.
    + by eapply Huniq.
Qed.

Lemma inv_weaken s L P P' :
  stack_inv s L P → (∀ x, x ∈ surfaces s → P' x → P x) → stack_inv s L P'.
Proof.
  intros [Hnd Hdom Htr Hheap Huniq Halive] HP. constructor; try done. intros x th Hx.
  destruct (Htr x th Hx) as (h & t & ? & ? & ? & ? & Ha). exists h, t. split_and!; try done.
  intros Hp. apply Ha, HP; [|done]. apply Hdom. by eexists.
Qed.

Lemma hear_app L t1 t2 x : hear (hear L t1) t2 x = hear L (t1 ++ t2) x.
Proof. unfold hear. by rewrite foldl_app. Qed.
Lemma inv_hear_ext s L L' P : (∀ x, L x = L' x) → stack_inv s L P → stack_inv s L' P.
Proof.
  intros HL [Hnd Hdom Htr Hheap Huniq Halive]. constructor; try done. intros x th Hx.
  rewrite <- HL. by apply Htr.
Qed.

(** The update loop brings one tracker after the other up to date. *)
Lemma update_loop_run l s L P :
  stack_inv s L P → (∀ x th, (x, th) ∈ l → rendering_trackers s !! x = Some th) →
  ∃ s' tr, pfor l (λ pair, let* s := pget in
      in_tracker pair.2 (λ alive, active_compositors alive (registered_compositors s))) s =
      Run (Ret tt) s' (ToSurface <$> tr) ∧
    stack_inv s' (hear L tr) (λ x, P x ∨ x ∈ l.*1) ∧ surfaces s' = surfaces s.
Proof.
  revert s L P. induction l as [|[x th] l IH]; intros s L P Hinv Hl; cbn [pfor].
  { exists s, []. split_and!; [done| |done]. eapply inv_weaken; [done|].
    intros x _ [?|Hx]; [done|by apply elem_of_nil in Hx]. }
  destruct (st_tracker _ _ _ Hinv x th) as (h & t & -> & Hh & Hw & _ & _); [apply Hl; left|].
  set (r := active_compositors (bool_decide (weak_surface t ∉ expired s)) (registered_compositors s) t).
  set (s1 := set_heap (<[h := post r]> (heap s)) s).
  assert (stack_inv s1 (hear L (trace r)) (λ y, P y ∨ y = x)) as Hinv1.
  { apply (tracker_call s L P _ h t r); [done|done| |].
    - intros l0 _. apply active_compositors_step.
    - intros y Hy. case_decide as Hyx; [apply (active_compositors_step _ None)|].
      destruct Hy as [?|?]; [done|congruence]. }
  destruct (IH s1 _ _ Hinv1) as (s' & tr & Hrun & Hinv' & Hsurf).
  { intros y th' Hy. apply Hl. by right. }
  exists s', (trace r ++ tr). split_and!.
  - unfold pbind at 1. rewrite pbind_get. cbn [snd]. rewrite (in_tracker_run _ h t s Hh). fold r.
    destruct (active_compositors_step (bool_decide (weak_surface t ∉ expired s)) None t (registered_compositors s))
      as (_ & _ & Hval). fold r in Hval. rewrite Hval. cbn [value post trace]. fold s1. rewrite Hrun. cbn.
    by rewrite fmap_app.
  - eapply inv_hear_ext; [|eapply inv_weaken; [exact Hinv'|]].
    + intros y. apply hear_app.
    + intros y _. cbn. rewrite elem_of_cons. tauto.
  - done.
Qed.

Lemma update_run s L P :
  stack_inv s L P →
  ∃ s' tr, update_rendering_tracker_compositors s = Run (Ret tt) s' (ToSurface <$> tr) ∧
    stack_inv s' (hear L tr) (λ _, True) ∧ surfaces s' = surfaces s.
Proof.
  intros Hinv. unfold update_rendering_tracker_compositors. rewrite pbind_get.
  destruct (update_loop_run (entries (rendering_trackers s)) s L P Hinv) as (s' & tr & Hrun & Hinv' & Hsurf).
  { intros x th. apply elem_of_entries. }
  exists s', tr. split_and!; [done| |done]. eapply inv_weaken; [done|]. intros x Hx _. right.
  rewrite Hsurf in Hx. apply (st_domain _ _ _ Hinv) in Hx as [th Hth]. apply elem_of_entries in Hth.
  by apply (list_elem_of_fmap_2 fst _ (x, th)).
Qed.

(** *** Reading the stack *)
Lemma tracker_at_run s L P x :
  stack_inv s L P → x ∈ surfaces s →
  ∃ h t, tracker_at x s = Run (Ret (Some h)) s [] ∧ rendering_trackers s !! x = Some (Some h) ∧
    heap s !! h = Some t ∧ weak_surface t = x.
Proof.
  intros Hinv Hx. apply (st_domain _ _ _ Hinv) in Hx as [th Hth].
  destruct (st_tracker _ _ _ Hinv x th Hth) as (h & t & -> & Hh & Hw & _). exists h, t.
  unfold tracker_at. rewrite pbind_get, Hth. done.
Qed.

Section queries_run.
Context (q : SurfaceQueries).

(** The scene as a list comprehension. *)
Definition surface_elements (s : Stack) (id x : Z) : list SceneElement :=
  if visible q x
  then (λ r, SurfaceSceneElement (name q x) r (default None (rendering_trackers s !! x)) id) <$>
    generate_renderables q x id
  else [].
Definition scene_of (s : Stack) (id : Z) : list SceneElement :=
  concat (surface_elements s id <$> surfaces s) ++ (OverlaySceneElement <$> overlays s).

Lemma elements_of_run s L P x id rs :
  stack_inv s L P → x ∈ surfaces s →
  elements_of q x id rs s =
    Run (Ret ((λ r, SurfaceSceneElement (name q x) r (default None (rendering_trackers s !! x)) id) <$> rs)) s [].
Proof.
  intros Hinv Hx. destruct (tracker_at_run s L P x Hinv Hx) as (h & t & Hrun & Hl & _).
  induction rs as [|r rs IH]; [done|]. cbn [elements_of].
  rewrite (pbind_silent _ _ _ _ _ Hrun), (pbind_silent _ _ _ _ _ IH). cbn. by rewrite Hl.
Qed.

Lemma collect_run s L P id l :
  stack_inv s L P → (∀ x, x ∈ l → x ∈ surfaces s) →
  collect_elements q id l s = Run (Ret (concat (surface_elements s id <$> l))) s [].
Proof.
  intros Hinv Hl. induction l as [|x l IH]; [done|]. cbn [collect_elements fmap list_fmap concat].
  rewrite (pbind_silent _ _ _ (surface_elements s id x) s).
  - rewrite (pbind_silent _ _ _ _ _ (IH ltac:(intros y Hy; apply Hl; by right))). done.
  - unfold surface_elements. destruct (visible q x); [|done]. eapply elements_of_run; [done|]. apply Hl. left.
Qed.

Lemma scene_elements_run s L P id :
  stack_inv s L P →
  scene_elements_for q id s = Run (Ret (scene_of s id)) (set_scene_changed false s) [].
Proof.
  intros Hinv. unfold scene_elements_for. rewrite pbind_modify, pbind_get.
  assert (stack_inv (set_scene_changed false s) L P) as Hinv' by by destruct Hinv.
  rewrite (pbind_silent _ _ _ _ _ (collect_run _ L P id (surfaces s) Hinv' (λ x Hx, Hx))). by rewrite pbind_get.
Qed.

Lemma in_scene_of s id e :
  e ∈ scene_of s id →
  (∃ r, e = OverlaySceneElement r) ∨
  (∃ x r, x ∈ surfaces s ∧ visible q x = true ∧
     e = SurfaceSceneElement (name q x) r (default None (rendering_trackers s !! x)) id).
Proof.
  unfold scene_of. intros [He|He]%elem_of_app.
  - right. apply list_elem_of_In, in_concat in He as (l & Hl%list_elem_of_In & He%list_elem_of_In).
    apply list_elem_of_fmap in Hl as (x & -> & Hx). unfold surface_elements in He.
    destruct (visible q x) eqn:Hv; [|by apply elem_of_nil in He].
    apply list_elem_of_fmap in He as (r & -> & _). by exists x, r.
  - left. apply list_elem_of_fmap in He as (r & -> & _). by exists r.
Qed.

(** The surfaces a compositor with this id would draw, and how many frames are
    waiting for it. *)
Definition exposed_in (s : Stack) (id x : Z) : bool :=
  match rendering_trackers s !! x with
  | Some (Some h) => match heap s !! h with Some t => bool_decide (id ∉ occlusions t) | None => false end
  | _ => false
  end.
Definition frames_ready (s : Stack) (id : Z) (l : list Z) (n : Z) : Z :=
  foldl (λ n x, if visible q x && exposed_in s id x then Z.max n (buffers_ready q x id) else n) n l.

Lemma pending_loop_run s L id l n :
  stack_inv s L (λ _, True) → id ∈ registered_compositors s → (∀ x, x ∈ l → x ∈ surfaces s) →
  pending_loop q id l n s = Run (Ret (frames_ready s id l n)) s [].
Proof.
  intros Hinv Hid Hl. revert n. induction l as [|x l IH]; intros n; [done|].
  assert (∀ n, pending_loop q id l n s = Run (Ret (frames_ready s id l n)) s []) as IH'.
  { apply IH. intros y Hy. apply Hl. by right. }
  clear IH. cbn [pending_loop frames_ready foldl]. destruct (visible q x); [|apply IH'].
  rewrite pbind_get. destruct (tracker_at_run s L _ x Hinv) as (h & t & _ & Htr & Hh & Hw); [apply Hl; left|].
  rewrite Htr. destruct (st_tracker _ _ _ Hinv x (Some h) Htr) as (h' & t' & [= <-] & Hh' & _ & _ & Hact).
  assert (t' = t) as -> by congruence. clear Hh'. cbn [andb].
  assert (exposed_in s id x = bool_decide (id ∉ occlusions t)) as Hex
    by (unfold exposed_in; by rewrite Htr, Hh).
  rewrite (pbind_silent _ _ _ (bool_decide (id ∉ occlusions t)) s).
  - rewrite Hex. destruct (bool_decide (id ∉ _)); [|apply IH'].
    assert ((if bool_decide (n < buffers_ready q x id) then buffers_ready q x id else n) =
      Z.max n (buffers_ready q x id)) as -> by (case_bool_decide; lia).
    apply IH'.
  - rewrite (in_tracker_run _ h t s Hh). rewrite is_exposed_in_run, Hact by done.
    rewrite bool_decide_true by done. cbn. rewrite insert_id by done. by destruct s.
Qed.

Lemma frames_ready_bounds s id l n k :
  k < frames_ready s id l n ↔
  k < n ∨ ∃ x, x ∈ l ∧ visible q x = true ∧ exposed_in s id x = true ∧ k < buffers_ready q x id.
Proof.
  revert n. induction l as [|x l IH]; intros n.
  { split; [by left|]. intros [?|(x & Hx & _)]; [done|by apply elem_of_nil in Hx]. }
  change (frames_ready s id (x :: l) n) with
    (frames_ready s id l (if visible q x && exposed_in s id x then Z.max n (buffers_ready q x id) else n)).
  rewrite IH. split.
  - intros [Hk|(y & Hy & ?)]; [|right; exists y; split; [by right|done]].
    destruct (visible q x) eqn:Hv, (exposed_in s id x) eqn:He; cbn in Hk; try (by left).
    destruct (decide (k < n)); [by left|right]. exists x. split_and!; [left|done|done|lia].
  - intros [Hk|(y & Hy & Hv & He & Hk)].
    + left. destruct (_ && _); lia.
    + apply elem_of_cons in Hy as [->|Hy]; [left; rewrite Hv, He; cbn; lia|right; by exists y].
Qed.
End queries_run.

(** ** The stack and its users as a state machine

    A surface is added once; it lives as long as it is in the stack.  The
    compositors report on the elements of the scenes they were given. *)
Section machine.

Inductive stack_op :=
  | OpAddSurface (x mode : Z)
  | OpRemoveSurface (x : option Z)
  | OpRaise (x : option Z)
  | OpRaiseSet (ss : gset Z)
  | OpRegister (cid : Z)
  | OpUnregister (cid : Z)
  | OpAddOverlay (r : Z)
  | OpRemoveOverlay (r : option Z)
  | OpEmitSceneChanged
  | OpAddObserver (o : Z)
  | OpRemoveObserver (o : option Z)
  | OpSceneElements (q : SurfaceQueries) (id : Z)
  | OpFramesPending (q : SurfaceQueries) (id : Z)
  | OpForEach (q : SurfaceQueries)
  | OpRendered (e : SceneElement)
  | OpOccluded (e : SceneElement)
  | OpExpire (x : Z).

Definition stack_exec (op : stack_op) : M unit :=
  match op with
  | OpAddSurface x mode => add_surface x mode
  | OpRemoveSurface x => remove_surface x
  | OpRaise x => raise x
  | OpRaiseSet ss => raise_set ss
  | OpRegister cid => register_compositor cid
  | OpUnregister cid => unregister_compositor cid
  | OpAddOverlay r => add_input_visualization r
  | OpRemoveOverlay r => remove_input_visualization r
  | OpEmitSceneChanged => emit_scene_changed
  | OpAddObserver o => add_observer o
  | OpRemoveObserver o => remove_observer o
  | OpSceneElements q id => do* scene_elements_for q id in pret tt
  | OpFramesPending q id => do* frames_pending q id in pret tt
  | OpForEach q => for_each q
  | OpRendered e => element_rendered e
  | OpOccluded e => element_occluded e
  | OpExpire x => pmodify (λ s, set_expired ({[x]} ∪ expired s) s)
  end.

Definition stack_allowed (s : Stack) (h : list stack_obs) (op : stack_op) : bool :=
  match op with
  | OpAddSurface x _ =>
      bool_decide ((x ∉ surfaces s) ∧ (x ∉ expired s)) &&
      bool_decide (map_Forall (λ _ t, weak_surface t ≠ x) (heap s))
  | OpFramesPending _ id => bool_decide (id ∈ registered_compositors s)
  | OpRendered e | OpOccluded e =>
      match e with
      | SurfaceSceneElement _ _ (Some h) _ => bool_decide (is_Some (heap s !! h))
      | SurfaceSceneElement _ _ None _ => false
      | OverlaySceneElement _ => true
      end
  | OpExpire x => bool_decide (x ∉ surfaces s)
  | _ => true
  end.

Definition stack_machine : machine := {|
  m_state := Stack;
  m_op := stack_op;
  m_obs := stack_obs;
  m_init s := s = new_stack;
  m_allowed := stack_allowed;
  m_exec := stack_exec
|}.

(** What a history told each surface. *)
Definition surface_calls (h : list stack_obs) : list surface_call :=
  omap (λ o, match o with ToSurface c => Some c | _ => None end) h.
Definition last_told (h : list stack_obs) : Z → option MirWindowVisibility := hear (λ _, None) (surface_calls h).

Lemma surface_calls_app h t : surface_calls (h ++ t) = surface_calls h ++ surface_calls t.
Proof. apply omap_app. Qed.
Lemma surface_calls_fmap tr : surface_calls (ToSurface <$> tr) = tr.
Proof. unfold surface_calls. induction tr; cbn; by f_equal. Qed.

Abbreviation all := (λ _ : Z, True).
Definition keeps_inv (s : Stack) (L : Z → option MirWindowVisibility) {A} (r : run Stack stack_obs A) : Prop :=
  stack_inv (post r) (hear L (surface_calls (trace r))) all.

Lemma add_surface_inv s L x mode :
  stack_inv s L all → x ∉ surfaces s → x ∉ expired s → (∀ h t, heap s !! h = Some t → weak_surface t ≠ x) →
  keeps_inv s L (add_surface x mode s).
Proof.
  intros [Hnd Hdom Htr Hheap Huniq Halive] Hx Hex Hnew. unfold add_surface. rewrite pbind_modify.
  unfold create_rendering_tracker_for. rewrite pbind_assoc, pbind_get. cbn zeta. rewrite pbind_assoc, pbind_put.
  cbn [next_handle set_surfaces heap]. set (h := next_handle s). set (s1 := set_next _ _).
  assert (heap s1 !! h = Some (new_tracker x)) as Hh by apply lookup_insert_eq.
  rewrite pbind_assoc.
  assert (bool_decide (weak_surface (new_tracker x) ∉ expired s1) = true) as Hal by by apply bool_decide_eq_true.
  pose proof (in_tracker_run (λ alive, active_compositors alive (registered_compositors s)) h _ s1 Hh) as Hrun.
  cbn zeta in Hrun. rewrite Hal in Hrun.
  set (r := active_compositors true (registered_compositors s) (new_tracker x)) in *.
  destruct (active_compositors_step true (L x) (new_tracker x) (registered_compositors s))
    as ((Hok & Htold & Hweak & Hcalls) & Hact & Hval). fold r in Hok, Htold, Hweak, Hcalls, Hact, Hval.
  change (registered_compositors (set_surfaces (surfaces s ++ [x]) s)) with (registered_compositors s).
  rewrite Hval in Hrun. clearbody r. unfold keeps_inv. rewrite (pbind_run _ _ _ _ _ _ _ Hrun eq_refl).
  cbn [post trace pbind pmodify pemit value app]. rewrite surface_calls_app, surface_calls_fmap. cbn. rewrite app_nil_r.
  assert (∀ h', is_Some (heap s !! h') → h' ≠ h) as Hne.
  { intros h' [t' Ht']. destruct (Hheap h' t' Ht'). unfold h. lia. }
  rewrite insert_insert_eq. constructor; cbn.
  - apply NoDup_app. split_and!; [done| |apply NoDup_singleton]. intros y Hy ->%list_elem_of_singleton. done.
  - intros y. rewrite elem_of_app, list_elem_of_singleton, <- Hdom. destruct (decide (y = x)) as [->|Hyx].
    + rewrite lookup_insert_eq. split; [by right|by eexists].
    + rewrite lookup_insert_ne by done. tauto.
  - intros y th [[<- <-]|[Hyx Hy]]%lookup_insert_Some.
    + exists h, (post r). rewrite lookup_insert_eq. split_and!; [done|done|done| |done]. by apply Htold.
    + destruct (Htr y th Hy) as (h' & t & -> & Hh' & Hw & Ht & Ha).
      exists h', t. rewrite lookup_insert_ne by (intros ->; by eapply (Hne h'); [eexists|]).
      split_and!; [done|done|done| |done]. unfold hear. by rewrite (heard_other y x).
  - intros h' t' [[<- <-]|[_ Hl]]%lookup_insert_Some; [split; [done|unfold h; lia]|].
    destruct (Hheap h' t' Hl). split; [done|]. lia.
  - intros h1 h2 t1 t2 [[<- <-]|[Hn1 H1]]%lookup_insert_Some [[<- <-]|[Hn2 H2]]%lookup_insert_Some Hw; [done|..].
    + rewrite Hweak in Hw. by destruct (Hnew h2 t2 H2).
    + rewrite Hweak in Hw. by destruct (Hnew h1 t1 H1).
    + by eapply Huniq.
  - intros y [Hy| ->%list_elem_of_singleton]%elem_of_app; [by apply Halive|done].
Qed.

(** The list of surfaces may be permuted, and a surface leaves with its tracker. *)
Lemma permuted_inv s L l :
  stack_inv s L all → l ≡ₚ surfaces s → stack_inv (set_surfaces l s) L all.
Proof.
  intros [Hnd Hdom Htr Hheap Huniq Halive] Hl. constructor; try done; cbn.
  - by rewrite Hl.
  - intros x. by rewrite Hl.
  - intros x. rewrite Hl. apply Halive.
Qed.

Lemma removed_inv s L x :
  stack_inv s L all → x ∈ surfaces s →
  stack_inv (set_trackers (delete x (rendering_trackers s)) (set_surfaces (erase_first x (surfaces s)) s)) L all.
Proof.
  intros [Hnd Hdom Htr Hheap Huniq Halive] Hx. pose proof (erase_first_perm x (surfaces s) Hx) as Hp.
  assert (NoDup (x :: erase_first x (surfaces s))) as Hnd' by by rewrite Hp.
  apply NoDup_cons in Hnd' as [Hnot Hnd'].
  assert (∀ y, y ∈ erase_first x (surfaces s) ↔ y ∈ surfaces s ∧ y ≠ x) as Hin.
  { intros y. assert (y ∈ surfaces s ↔ y ∈ x :: erase_first x (surfaces s)) as -> by (by rewrite Hp).
    rewrite elem_of_cons. split; [|tauto]. intros Hy. split; [by right|]. by intros ->. }
  constructor; try done; cbn.
  - intros y. rewrite Hin, <- Hdom. destruct (decide (y = x)) as [->|Hne].
    + rewrite lookup_delete_eq. split; [by intros [? ?]|tauto].
    + rewrite lookup_delete_ne by done. tauto.
  - intros y th [_ Hy]%lookup_delete_Some. by apply Htr.
  - intros y [Hy _]%Hin. by apply Halive.
Qed.

Lemma stable_partition_perm {A} (p : A → bool) l : stable_partition p l ≡ₚ l.
Proof.
  unfold stable_partition. induction l as [|x l IH]; [done|]. rewrite !filter_cons.
  destruct (p x) eqn:Hp.
  - rewrite decide_True, decide_False by congruence. cbn. by rewrite IH.
  - rewrite decide_False, decide_True by congruence. rewrite <- Permutation_middle. by rewrite IH.
Qed.

Lemma element_call_inv s L h t (m : bool → prog RenderingTracker surface_call unit) :
  stack_inv s L all → heap s !! h = Some t →
  (∀ alive l, (alive = true → told l t) → tracker_step alive l t (m alive t)) →
  (∀ alive, active_compositors_ (post (m alive t)) = active_compositors_ t) →
  keeps_inv s L (in_tracker (Some h) m s).
Proof.
  intros Hinv Hh Hstep Hact. rewrite (in_tracker_run m h t s Hh). unfold keeps_inv. cbn [post trace].
  rewrite surface_calls_fmap.
  destruct (decide (weak_surface t ∈ surfaces s)) as [Hin|Hout].
  - eapply tracker_call; [done|done|intros l; apply Hstep|]. intros x _. case_decide; [|done]. rewrite Hact.
    pose proof Hin as [th Hth]%(st_domain _ _ _ Hinv).
    destruct (st_tracker _ _ _ Hinv _ _ Hth) as (h' & t' & -> & Hh' & Hw & _ & Ha).
    rewrite (st_unique _ _ _ Hinv h' h t' t Hh' Hh Hw) in Hh'. assert (t' = t) as -> by congruence. by apply Ha.
  - eapply inv_weaken; [eapply (tracker_call s L all (λ x, x ≠ weak_surface t)); [done|done|intros l; apply Hstep|]|].
    + intros x Hx. by rewrite decide_False.
    + intros x Hx _ ->. by apply Hout.
Qed.

Lemma silent_inv {A} s L (r : run Stack stack_obs A) :
  stack_inv (post r) L all → surface_calls (trace r) = [] → keeps_inv s L r.
Proof. unfold keeps_inv. by intros ? ->. Qed.

Lemma surface_calls_none {A} (f : A → stack_obs) l :
  (∀ x c, f x ≠ ToSurface c) → surface_calls (f <$> l) = [].
Proof.
  intros Hf. unfold surface_calls. induction l as [|x l IH]; [done|]. cbn. rewrite IH.
  destruct (f x) eqn:Hx; try done. by destruct (Hf x c).
Qed.

Lemma registered_inv s L f :
  stack_inv s L all → keeps_inv s L ((do* pmodify (λ s, set_registered (f s) s) in
    update_rendering_tracker_compositors) s).
Proof.
  intros Hinv. rewrite pbind_modify.
  assert (stack_inv (set_registered (f s) s) L (λ _, False)) as Hinv1.
  { destruct Hinv as [Hnd Hdom Htr Hheap Huniq Halive]. constructor; try done. intros x th Hx.
    destruct (Htr x th Hx) as (h & t & ? & ? & ? & ? & _). by exists h, t. }
  destruct (update_run _ _ _ Hinv1) as (s' & tr & -> & Hinv' & _). unfold keeps_inv. cbn [post trace].
  by rewrite surface_calls_fmap.
Qed.

Lemma stack_exec_inv s h L op :
  stack_inv s L all → stack_allowed s h op = true → keeps_inv s L (stack_exec op s).
Proof.
  intros Hinv Hok. pose proof Hinv as [Hnd Hdom Htr Hheap Huniq Halive].
  assert (∀ s', surfaces s' = surfaces s → rendering_trackers s' = rendering_trackers s → heap s' = heap s →
    next_handle s' = next_handle s → registered_compositors s' = registered_compositors s →
    (∀ x, x ∈ surfaces s → x ∉ expired s') → stack_inv s' L all) as Hsame.
  { intros s' Hs Ht Hh Hn Hr Hx. constructor; rewrite ?Hs, ?Ht, ?Hh, ?Hn, ?Hr; done. }
  destruct op as [x mode|[x|]|[x|]|ss|cid|cid|r|[r|]| |o|[o|]|q id|q id|q|e|e|x];
    cbn [stack_exec stack_allowed] in *.
  - apply andb_prop in Hok as [[Hx Hex]%bool_decide_eq_true Hnew%bool_decide_eq_true]. by apply add_surface_inv.
  - unfold remove_surface. rewrite pbind_get. case_bool_decide; [|by apply silent_inv].
    cbn [pwhen]. rewrite pbind_put. apply silent_inv; [|done]. by apply removed_inv.
  - by apply silent_inv.
  - unfold raise. rewrite pbind_get. case_bool_decide; [|by apply silent_inv]. rewrite pbind_put.
    apply silent_inv; [|done]. apply permuted_inv; [done|].
    rewrite <- Permutation_cons_append. by apply erase_first_perm.
  - by apply silent_inv.
  - unfold raise_set. rewrite pbind_get. cbn zeta. rewrite pbind_put.
    apply silent_inv; [|by case_bool_decide]. case_bool_decide; (apply permuted_inv; [done|]); apply stable_partition_perm.
  - by apply registered_inv.
  - by apply registered_inv.
  - apply silent_inv; [|done]. by apply Hsame.
  - unfold remove_input_visualization. rewrite pbind_get. case_bool_decide; [|by apply silent_inv].
    rewrite pbind_put. apply silent_inv; [|done]. by apply Hsame.
  - by apply silent_inv.
  - apply silent_inv; [|done]. by apply Hsame.
  - unfold add_observer. rewrite pbind_emit, pbind_get, pfor_emit. apply silent_inv; [done|]. cbn [trace].
    by apply (surface_calls_none (SurfaceExists o)).
  - by apply silent_inv.
  - by apply silent_inv.
  - rewrite (pbind_silent _ _ _ _ _ (scene_elements_run q s L _ id Hinv)). apply silent_inv; [|done]. by apply Hsame.
  - apply bool_decide_eq_true in Hok. unfold frames_pending. rewrite pbind_assoc, pbind_get.
    rewrite (pbind_silent _ _ _ _ _ (pending_loop_run q s L id (surfaces s) _ Hinv Hok (λ x Hx, Hx))). by apply silent_inv.
  - unfold for_each. rewrite pbind_get.
    assert (∀ l, ∃ t, pfor l (λ surface, pwhen (bool_decide (query_visibility q surface = visibility_exposed))
      (pemit (Visited surface))) s = Run (Ret tt) s t ∧ surface_calls t = []) as Hl.
    { induction l as [|x l (t & IH & Ht)]; [by exists []|]. cbn [pfor]. unfold pbind. case_bool_decide; cbn; rewrite IH; cbn;
        [by exists (Visited x :: t)|by exists t]. }
    destruct (Hl (surfaces s)) as (t & -> & Ht). by apply silent_inv.
  - destruct e as [nm r [h'|] cid|r]; [|done|by apply silent_inv]. apply bool_decide_eq_true in Hok as [t Ht].
    eapply element_call_inv; [done|done| |].
    + intros alive l Htold. apply rendered_in_step; [|done]. by apply (Hheap h' t).
    + intros alive. apply (rendered_in_step alive (Some visibility_occluded)); [|done]. by apply (Hheap h' t).
  - destruct e as [nm r [h'|] cid|r]; [|done|by apply silent_inv]. apply bool_decide_eq_true in Hok as [t Ht].
    eapply element_call_inv; [done|done| |].
    + intros alive l Htold. apply occluded_in_step; [|done]. by apply (Hheap h' t).
    + intros alive. apply (occluded_in_step alive (Some visibility_occluded)); [|done]. by apply (Hheap h' t).
  - apply bool_decide_eq_true in Hok. apply silent_inv; [|done]. apply Hsame; try done. cbn.
    intros y Hy [->%elem_of_singleton|Hy']%elem_of_union; [done|]. by destruct (Halive y).
Qed.

Lemma stack_reachable s h : reachable stack_machine s h → stack_inv s (last_told h) all.
Proof.
  revert s h. apply (reachable_invariant stack_machine); cbn.
  - intros s ->. constructor; cbn; try done.
    + constructor.
    + intros x. rewrite lookup_empty. split; [by intros [? ?]|by intros ?%elem_of_nil].
  - intros s h op _ Hinv Hok. pose proof (stack_exec_inv s h _ op Hinv Hok) as Hk.
    eapply inv_hear_ext; [|exact Hk]. intros x. unfold last_told. by rewrite hear_app, surface_calls_app.
Qed.

(** ** Properties *)

(** C8. The scene a registered compositor gets lists, bottom to top, the
    renderables of the visible surfaces and then the overlays; every element
    can be reported rendered or occluded, as long as its surface stays and its
    compositor is registered. *)
Theorem scene_elements_sound q s h id :
  reachable stack_machine s h → id ∈ registered_compositors s →
  scene_elements_for q id s = Run (Ret (scene_of q s id)) (set_scene_changed false s) [] ∧
  ∀ e, e ∈ scene_of q s id → value (element_rendered e s) = Ret tt ∧ value (element_occluded e s) = Ret tt.
Proof.
  intros Hinv%stack_reachable Hid. split; [by eapply scene_elements_run|].
  intros e [(r & ->)|(x & r & Hx & _ & ->)]%in_scene_of; [done|].
  destruct (tracker_at_run s _ _ x Hinv Hx) as (hd & t & _ & Htr & Hh & Hw). rewrite Htr.
  change (default None (Some (Some hd))) with (Some hd). cbn [element_rendered element_occluded].
  destruct (st_tracker _ _ _ Hinv x _ Htr) as (hd' & t' & [= <-] & Hh' & _ & Htold & Hact).
  assert (t' = t) as -> by congruence. destruct (st_heap _ _ _ Hinv _ _ Hh) as [Hok _].
  rewrite !(in_tracker_run _ _ _ _ Hh). cbn [value].
  split; [eapply rendered_in_step|eapply occluded_in_step]; try done; by rewrite Hact.
Qed.

(** C7. A surface in the stack that no registered compositor shows has last been
    told that it is occluded, and once a registered compositor renders it, that
    it is exposed; every surface has a tracker that knows all registered
    compositors. *)
Theorem surface_visibility s h x :
  reachable stack_machine s h → x ∈ surfaces s →
  ∃ hd t, rendering_trackers s !! x = Some (Some hd) ∧ heap s !! hd = Some t ∧
    active_compositors_ t = registered_compositors s ∧ occlusions t ⊆ registered_compositors s ∧
    (occlusions t = registered_compositors s → last_told h x = Some visibility_occluded) ∧
    (∀ nm r cid, cid ∈ registered_compositors s →
       trace (element_rendered (SurfaceSceneElement nm r (Some hd) cid) s) = [ToSurface (Configure x visibility_exposed)]).
Proof.
  intros Hinv%stack_reachable Hx.
  destruct (tracker_at_run s _ _ x Hinv Hx) as (hd & t & _ & Htr & Hh & Hw).
  destruct (st_tracker _ _ _ Hinv x _ Htr) as (hd' & t' & [= <-] & Hh' & _ & Htold & Hact).
  assert (t' = t) as -> by congruence. specialize (Hact I).
  destruct (st_heap _ _ _ Hinv _ _ Hh) as [Hok _]. exists hd, t. split_and!; [done|done|done| | |].
  - by rewrite <- Hact.
  - rewrite <- Hact. exact Htold.
  - intros nm r cid Hcid. cbn [element_rendered]. rewrite (in_tracker_run _ _ _ _ Hh). cbn [trace].
    rewrite bool_decide_true by (rewrite Hw; by apply (st_alive _ _ _ Hinv)).
    unfold rendered_in, ensure_is_active_compositor. rewrite pbind_assoc, pbind_get, Hact.
    rewrite bool_decide_true by done. rewrite pbind_ret_l, pbind_modify. cbn. by rewrite Hw.
Qed.

(** [frames_pending] answers without error for a registered compositor, and
    more than [k ≥ 0] exactly when the scene changed (counting one frame) or a
    visible surface the compositor shows has more than [k] buffers ready. *)
Theorem frames_pending_spec q s h id :
  reachable stack_machine s h → id ∈ registered_compositors s →
  ∃ n, frames_pending q id s = Run (Ret n) s [] ∧
    ∀ k, 0 ≤ k → (k < n ↔
      (scene_changed s = true ∧ k = 0) ∨
      ∃ x, x ∈ surfaces s ∧ visible q x = true ∧ exposed_in s id x = true ∧ k < buffers_ready q x id).
Proof.
  intros Hinv%stack_reachable Hid. eexists. split.
  - unfold frames_pending. rewrite pbind_get.
    exact (pending_loop_run q s _ id (surfaces s) _ Hinv Hid (λ x Hx, Hx)).
  - intros k Hk. rewrite frames_ready_bounds. destruct (scene_changed s).
    + split; (intros [?|?]; [left|by right]); lia.
    + split; [intros [?|?]; [lia|by right]|intros [[? _]|?]; [done|by right]].
Qed.

(** The surfaces above [x], bottom to top. *)
Fixpoint above (x : Z) (l : list Z) : list Z :=
  match l with [] => [] | y :: l' => if bool_decide (y = x) then l' else above x l' end.

Lemma above_app x l1 l2 : x ∉ l1 → above x (l1 ++ x :: l2) = l2.
Proof.
  induction l1 as [|y l1 IH]; cbn; intros Hx; [by rewrite bool_decide_true|].
  rewrite bool_decide_false by set_solver. apply IH. set_solver.
Qed.

Lemma surface_at_iff q s p x :
  NoDup (surfaces s) → x ∈ surfaces s →
  surface_at q p s = Some x ↔
  input_area_contains q x p = true ∧ ∀ y, y ∈ above x (surfaces s) → input_area_contains q y p = false.
Proof.
  intros Hnd Hx. unfold surface_at. apply list_elem_of_split in Hx as (l1 & l2 & Hl). rewrite Hl in *.
  apply NoDup_app in Hnd as (_ & Hd & Hnd). apply NoDup_cons in Hnd as [Hx _].
  rewrite above_app; [|intros Hx1; apply (Hd x Hx1); left]. exact (find_last_spec (λ y, input_area_contains q y p) l1 x l2 Hx).
Qed.

(** C9. A click goes to the topmost surface whose input area contains it, and
    raising a surface puts it on top without reordering the others. *)
Theorem stacking_order q s h p x :
  reachable stack_machine s h → x ∈ surfaces s →
  (surface_at q p s = Some x ↔
   input_area_contains q x p = true ∧ ∀ y, y ∈ above x (surfaces s) → input_area_contains q y p = false) ∧
  let r := raise (Some x) s in
  value r = Ret tt ∧ trace r = [SurfacesReordered] ∧
  above x (surfaces (post r)) = [] ∧ erase_first x (surfaces (post r)) = erase_first x (surfaces s) ∧
  (input_area_contains q x p = true → surface_at q p (post r) = Some x).
Proof.
  intros Hinv%stack_reachable Hx. pose proof (st_nodup _ _ _ Hinv) as Hnd. split; [by apply surface_at_iff|].
  unfold raise. rewrite pbind_get, bool_decide_true, pbind_put by done. cbn zeta. cbn [value post trace pemit surfaces set_surfaces].
  pose proof (erase_first_perm x _ Hx) as Hp. assert (NoDup (x :: erase_first x (surfaces s))) as Hnd' by by rewrite Hp.
  apply NoDup_cons in Hnd' as [Hnot Hnd']. split_and!; [done|done|by apply above_app| |].
  - set (l := erase_first x (surfaces s)) in *. clearbody l. clear Hp Hnd'. induction l as [|y l IH]; cbn.
    + by rewrite decide_True.
    + apply not_elem_of_cons in Hnot as [? ?]. rewrite decide_False by done. f_equal. by apply IH.
  - intros Hc. unfold surface_at. cbn [surfaces set_surfaces]. apply (find_last_spec (λ y, input_area_contains q y p) _ x []); [apply not_elem_of_nil|].
    split; [done|]. by intros y ?%elem_of_nil.
Qed.

(** Raising a set of surfaces puts them on top of the others, keeps the
    order among the raised and among the others, and tells the observers only
    if the stack changed. *)
Theorem raise_set_order s ss :
  let r := raise_set ss s in
  let l := surfaces (post r) in
  l ≡ₚ surfaces s ∧
  filter (λ x, x ∈ ss) l = filter (λ x, x ∈ ss) (surfaces s) ∧
  filter (λ x, x ∉ ss) l = filter (λ x, x ∉ ss) (surfaces s) ∧
  (∀ x y, x ∈ ss → y ∈ above x l → y ∈ ss) ∧
  (trace r = [] ↔ l = surfaces s).
Proof.
  intros r l. unfold r, raise_set in *. clear r. subst l. rewrite pbind_get, pbind_put. cbn zeta.
  set (l := stable_partition _ (surfaces s)).
  assert (l = filter (λ x, x ∉ ss) (surfaces s) ++ filter (λ x, x ∈ ss) (surfaces s)) as Hl.
  { unfold l, stable_partition. f_equal; apply list_filter_iff; intros x; case_bool_decide; cbn; by split. }
  assert (∀ s', post (pwhen (bool_decide (surfaces s ≠ l)) (pemit SurfacesReordered) s') = s') as -> by
    (intros s'; by case_bool_decide). cbn [surfaces set_surfaces].
  split_and!.
  - apply stable_partition_perm.
  - rewrite Hl, filter_app, filter_idem, filter_disjoint; [done|]. intros x Hx Hn. exact (Hx Hn).
  - rewrite Hl, filter_app, filter_idem, filter_disjoint, app_nil_r; [done|]. intros x Hx Hn. exact (Hn Hx).
  - intros x y Hx Hy. rewrite Hl in Hy.
    assert (∀ k1 k2, (∀ z, z ∈ k1 → z ∉ ss) → y ∈ above x (k1 ++ k2) → y ∈ k2) as Hab.
    { clear -Hx. intros k1 k2. induction k1 as [|z k1 IH]; cbn; intros Hk.
      - revert y. induction k2 as [|z k2 IH]; cbn; [done|]. intros y. case_bool_decide; [by right|]. intros Hy. right. by apply IH.
      - rewrite bool_decide_false; [apply IH; intros w Hw; apply Hk; by right|]. intros ->. apply (Hk x); [left|done]. }
    apply Hab in Hy; [by apply list_elem_of_filter in Hy as [? _]|]. by intros z [? _]%list_elem_of_filter.
  - clearbody l. destruct (decide (surfaces s = l)) as [Heq|Hne].
    + rewrite bool_decide_false by (intros Hn; exact (Hn Heq)). done.
    + rewrite bool_decide_true by done. split; [done|]. intros Heq. by destruct Hne.
Qed.
End machine.

(** *** Witnesses *)
Definition example_queries : SurfaceQueries :=
  mkQueries (λ _, true) (λ _, "surface"%string) (λ x _, [x * 100]) (λ x _, x) (λ x p, bool_decide (px p < x * 10))
    (λ _, visibility_exposed).
Definition stack_example_ops : list stack_op :=
  [OpRegister 50; OpAddSurface 1 0; OpAddSurface 2 0; OpAddSurface 3 0; OpRaiseSet {[1]}; OpRegister 51;
   OpOccluded (SurfaceSceneElement "surface" 0 (Some 0) 50); OpOccluded (SurfaceSceneElement "surface" 0 (Some 0) 51)].
Definition stack_example_run : Stack * list stack_obs :=
  default (new_stack, []) (run_ops stack_machine stack_example_ops new_stack []).
Lemma stack_example_reachable : reachable stack_machine stack_example_run.1 stack_example_run.2.
Proof. apply (run_ops_from_init stack_machine stack_example_ops new_stack); [done|]. by vm_compute. Qed.

Lemma scene_elements_sound_witness :
  scene_elements_for example_queries 50 stack_example_run.1 =
    Run (Ret (scene_of example_queries stack_example_run.1 50)) (set_scene_changed false stack_example_run.1) [].
Proof.
  refine (proj1 (scene_elements_sound example_queries _ _ 50 stack_example_reachable _)).
  apply (bool_decide_unpack (50 ∈ registered_compositors stack_example_run.1)). vm_compute. exact I.
Defined.

Lemma surface_visibility_witness :
  ∃ hd t, rendering_trackers stack_example_run.1 !! 1 = Some (Some hd) ∧ heap stack_example_run.1 !! hd = Some t.
Proof.
  refine (let '(ex_intro _ hd (ex_intro _ t (conj H1 (conj H2 _)))) :=
    surface_visibility _ _ 1 stack_example_reachable _ in ex_intro _ hd (ex_intro _ t (conj H1 H2))).
  apply (bool_decide_unpack (1 ∈ surfaces stack_example_run.1)). vm_compute. exact I.
Defined.

Lemma frames_pending_spec_witness : ∃ n, frames_pending example_queries 50 stack_example_run.1 = Run (Ret n) stack_example_run.1 [].
Proof.
  refine (let '(ex_intro _ n (conj H1 _)) := frames_pending_spec example_queries _ _ 50 stack_example_reachable _ in
    ex_intro _ n H1).
  apply (bool_decide_unpack (50 ∈ registered_compositors stack_example_run.1)). vm_compute. exact I.
Defined.

Lemma stacking_order_witness :
  surface_at example_queries (Pt 5 5) (post (raise (Some 2) stack_example_run.1)) = Some 2.
Proof.
  refine (proj2 (proj2 (proj2 (proj2 (proj2 (stacking_order example_queries _ _ (Pt 5 5) 2 stack_example_reachable _))))) _);
    [|done]. apply (bool_decide_unpack (2 ∈ surfaces stack_example_run.1)). vm_compute. exact I.
Defined.
