(* ===== verification/PromptSessions.v ===== *)
(** Prompt sessions (src/server/scene/prompt_session_container.cpp,
    prompt_session_manager_impl.cpp and prompt_session_impl.cpp): which sessions
    take part in which prompt session, and the life of a prompt session. *)

From S2P Require Import Prelude.

(** ** Data: sessions and prompt sessions are known by their addresses *)
Inductive ParticipantType := helper | application | prompt_provider.
#[export] Instance ParticipantType_eq_dec : EqDecision ParticipantType.
Proof. solve_decision. Defined.

Record Participant := mkParticipant {
  prompt_session : Z;
  session : Z;
  participant_type : ParticipantType;
  insert_order : Z
}.
#[export] Instance Participant_eq_dec : EqDecision Participant.
Proof. solve_decision. Defined.

Inductive MirPromptSessionState := state_stopped | state_started | state_suspended.
#[export] Instance MirPromptSessionState_eq_dec : EqDecision MirPromptSessionState.
Proof. solve_decision. Defined.

(** The participants are kept in a boost multi-index container.  What the code
    relies on: its two range queries enumerate, in the order of the index, the
    elements with the given key. *)
Class ParticipantIndex := {
  equal_range_prompt_session : list Participant → Z → list Participant;
  equal_range_session : list Participant → Z → list Participant
}.
Class ParticipantIndexLaws `{ParticipantIndex} := {
  prompt_session_range l ps : equal_range_prompt_session l ps ≡ₚ filter (λ p, prompt_session p = ps) l;
  session_range l s : equal_range_session l s ≡ₚ filter (λ p, session p = s) l
}.

(** [states] are the states of the [PromptSessionImpl] objects, [expired] the
    sessions whose weak pointers can no longer be locked. *)
Record Prompt := mkPrompt {
  prompt_sessions : gset Z;
  participant_map : list Participant;
  insertion_order : Z;
  states : gmap Z MirPromptSessionState;
  expired : gset Z
}.

Inductive helper_call := HelperStart (s : Z) | HelperStop (s : Z) | HelperSuspend (s : Z) | HelperResume (s : Z).
Inductive prompt_obs :=
  | Helper (c : helper_call)
  | Starting (ps : Z)
  | Stopping (ps : Z)
  | Suspending (ps : Z)
  | Resuming (ps : Z)
  | ProviderAdded (ps s : Z)
  | ProviderRemoved (ps s : Z).
#[export] Instance helper_call_eq_dec : EqDecision helper_call.
Proof. solve_decision. Defined.
#[export] Instance prompt_obs_eq_dec : EqDecision prompt_obs.
Proof. solve_decision. Defined.

#[local] Abbreviation M := (prog Prompt prompt_obs).

Definition set_prompt_sessions x p := mkPrompt x (participant_map p) (insertion_order p) (states p) (expired p).
Definition set_participants x p := mkPrompt (prompt_sessions p) x (insertion_order p) (states p) (expired p).
Definition set_order x p := mkPrompt (prompt_sessions p) (participant_map p) x (states p) (expired p).
Definition set_states x p := mkPrompt (prompt_sessions p) (participant_map p) (insertion_order p) x (expired p).

(** [weak_ptr::lock] *)
Definition lock (s : Z) (p : Prompt) : option Z := if bool_decide (s ∈ expired p) then None else Some s.

(** ** PromptSessionContainer *)
Definition insert_prompt_session (ps : Z) : M unit :=
  pmodify (λ p, set_prompt_sessions ({[ps]} ∪ prompt_sessions p) p).

Definition remove_prompt_session (ps : Z) : M unit :=
  do* pmodify (λ p, set_participants (filter (λ x, prompt_session x ≠ ps) (participant_map p)) p) in
  pmodify (λ p, set_prompt_sessions (prompt_sessions p ∖ {[ps]}) p).

(** The second index is unique on session, type and prompt session. *)
Definition same_key (ps s : Z) (t : ParticipantType) (p : Participant) : bool :=
  bool_decide (prompt_session p = ps) && bool_decide (session p = s) && bool_decide (participant_type p = t).

Definition insert_participant (ps s : Z) (t : ParticipantType) : M bool :=
  let* p := pget in
  if bool_decide (ps ∈ prompt_sessions p) then
    match lock s p with
    | Some s =>
        let participant := mkParticipant ps s t (insertion_order p) in
        do* pput (set_order (uint32 (insertion_order p + 1)) p) in
        if existsb (same_key ps s t) (participant_map p) then pret false
        else do* pmodify (λ p, set_participants (participant_map p ++ [participant]) p) in pret true
    | None => pret false
    end
  else pthrow (runtime_error "Prompt Session does not exist").

Definition remove_participant (ps s : Z) (t : ParticipantType) : M bool :=
  let* p := pget in
  if existsb (same_key ps s t) (participant_map p) then
    do* pput (set_participants (filter (λ x, same_key ps s t x = false) (participant_map p)) p) in pret true
  else pret false.

(** ** PromptSessionImpl *)
Definition state_of (ps : Z) (p : Prompt) : MirPromptSessionState := default state_stopped (states p !! ps).
Definition set_state (ps : Z) (st : MirPromptSessionState) : M unit :=
  pmodify (λ p, set_states (<[ps := st]> (states p)) p).
Definition tell (helper_session : option Z) (c : Z → helper_call) : M unit :=
  match helper_session with Some s => pemit (Helper (c s)) | None => pret tt end.

Definition impl_start (ps : Z) (helper_session : option Z) : M unit :=
  let* p := pget in
  pwhen (bool_decide (state_of ps p = state_stopped))
    (do* set_state ps state_started in tell helper_session HelperStart).
Definition impl_stop (ps : Z) (helper_session : option Z) : M unit :=
  let* p := pget in
  pwhen (bool_decide (state_of ps p ≠ state_stopped))
    (do* set_state ps state_stopped in tell helper_session HelperStop).
Definition impl_suspend (ps : Z) (helper_session : option Z) : M unit :=
  let* p := pget in
  pwhen (bool_decide (state_of ps p = state_started))
    (do* set_state ps state_suspended in tell helper_session HelperSuspend).
Definition impl_resume (ps : Z) (helper_session : option Z) : M unit :=
  let* p := pget in
  pwhen (bool_decide (state_of ps p = state_suspended))
    (do* set_state ps state_started in tell helper_session HelperResume).

(** ** PromptSessionManagerImpl *)
Section manager.
Context `{ParticipantIndex}.

(** The last participant of the type that comes up, locked: null if there is
    none, or if the session is gone. *)
Definition participant_of_type (t : ParticipantType) (ps : Z) (p : Prompt) : option Z :=
  foldl (λ acc x, if bool_decide (participant_type x = t) then lock (session x) p else acc) None
    (equal_range_prompt_session (participant_map p) ps).
Definition application_for (ps : Z) (p : Prompt) : option Z := participant_of_type application ps p.
Definition helper_for (ps : Z) (p : Prompt) : option Z := participant_of_type helper ps p.

(** The providers of a prompt session that are still alive. *)
Definition providers_in (ps : Z) (p : Prompt) : list Z :=
  omap (λ x, if bool_decide (participant_type x = prompt_provider) then lock (session x) p else None)
    (equal_range_prompt_session (participant_map p) ps).

Definition stop_prompt_session_locked (ps : Z) : M unit :=
  let* p := pget in
  do* pfor (providers_in ps p) (λ participant,
    let* removed := remove_participant ps participant prompt_provider in
    pwhen removed (pemit (ProviderRemoved ps participant))) in
  let* p := pget in
  do* impl_stop ps (helper_for ps p) in
  do* remove_prompt_session ps in
  pemit (Stopping ps).

(** The prompt sessions a session takes part in, with its role. *)
Definition participations (s : Z) (p : Prompt) : list (Z * ParticipantType) :=
  (λ x, (prompt_session x, participant_type x)) <$>
    filter (λ x, prompt_session x ∈ prompt_sessions p) (equal_range_session (participant_map p) s).

Definition remove_session (s : Z) : M unit :=
  let* p := pget in
  pfor (participations s p) (λ pair,
    if bool_decide (pair.2 = helper) then stop_prompt_session_locked pair.1
    else
      let* removed := remove_participant pair.1 s pair.2 in
      pwhen (removed && bool_decide (pair.2 = prompt_provider)) (pemit (ProviderRemoved pair.1 s))).

Definition stop_prompt_session (ps : Z) : M unit := stop_prompt_session_locked ps.
Definition suspend_prompt_session (ps : Z) : M unit :=
  let* p := pget in
  do* impl_suspend ps (helper_for ps p) in
  pemit (Suspending ps).
Definition resume_prompt_session (ps : Z) : M unit :=
  let* p := pget in
  do* impl_resume ps (helper_for ps p) in
  pemit (Resuming ps).

(** [app_container] lists the sessions with their process ids; [ps] is the
    address of the new [PromptSessionImpl]. *)
Definition start_prompt_session_for (ps s : Z) (app_container : list (Z * Z)) (application_pid : Z) : M unit :=
  let application_session :=
    foldl (λ acc x, if bool_decide (x.2 = application_pid) then Some x.1 else acc) None app_container in
  match application_session with
  | None => pthrow (runtime_error "Could not identify application session")
  | Some application_session =>
      do* insert_prompt_session ps in
      let* inserted := insert_participant ps s helper in
      if negb inserted then pthrow (runtime_error "Could not set prompt session helper")
      else
        do* impl_start ps (Some s) in
        do* pemit (Starting ps) in
        do* insert_participant ps application_session application in
        pret tt
  end.

Definition add_prompt_provider (ps prompt_provider_session : Z) : M unit :=
  let* inserted := insert_participant ps prompt_provider_session prompt_provider in
  pwhen inserted (pemit (ProviderAdded ps prompt_provider_session)).
End manager.

(** ** Invariant *)

(** Which provider is in which prompt session, as the listener has been told. *)
Definition view_step (V : gset (Z * Z)) (o : prompt_obs) : gset (Z * Z) :=
  match o with
  | ProviderAdded ps s => {[(ps, s)]} ∪ V
  | ProviderRemoved ps s => V ∖ {[(ps, s)]}
  | _ => V
  end.
Definition listener_view (h : list prompt_obs) : gset (Z * Z) := foldl view_step ∅ h.

Definition takes_part (p : Prompt) (ps s : Z) (t : ParticipantType) : Prop :=
  ∃ x, x ∈ participant_map p ∧ prompt_session x = ps ∧ session x = s ∧ participant_type x = t.

Definition view_ok (p : Prompt) (V : gset (Z * Z)) : Prop :=
  ∀ ps s, s ∉ expired p → ((ps, s) ∈ V ↔ takes_part p ps s prompt_provider).

Record prompt_inv (p : Prompt) (V : gset (Z * Z)) : Prop := {
  pi_ref x : x ∈ participant_map p → prompt_session x ∈ prompt_sessions p;
  pi_key x y : x ∈ participant_map p → y ∈ participant_map p → prompt_session x = prompt_session y →
    session x = session y → participant_type x = participant_type y → x = y;
  pi_helper ps : ps ∈ prompt_sessions p → ∃ s, takes_part p ps s helper;
  pi_one_helper x y : x ∈ participant_map p → y ∈ participant_map p → prompt_session x = prompt_session y →
    participant_type x = helper → participant_type y = helper → x = y;
  pi_state ps : ps ∈ prompt_sessions p ↔ state_of ps p ≠ state_stopped;
  pi_view : view_ok p V
}.

Lemma same_key_true ps s t x :
  same_key ps s t x = true ↔ prompt_session x = ps ∧ session x = s ∧ participant_type x = t.
Proof. unfold same_key. rewrite !andb_true_iff, !bool_decide_eq_true. tauto. Qed.
Lemma existsb_takes_part p ps s t : existsb (same_key ps s t) (participant_map p) = true ↔ takes_part p ps s t.
Proof.
  rewrite existsb_exists. unfold takes_part. split; intros (x & Hx & Hk); exists x.
  - by rewrite <- same_key_true, list_elem_of_In.
  - by rewrite same_key_true, <- list_elem_of_In.
Qed.

Lemma remove_participant_run ps s t p :
  ∃ b, remove_participant ps s t p =
    Run (Ret b) (set_participants (filter (λ x, same_key ps s t x = false) (participant_map p)) p) [] ∧
    (b = true ↔ takes_part p ps s t).
Proof.
  unfold remove_participant. rewrite pbind_get.
  destruct (existsb _ _) eqn:He.
  - exists true. split; [done|]. by rewrite <- existsb_takes_part.
  - exists false. split; [|by rewrite <- existsb_takes_part, He].
    assert (filter (λ x, same_key ps s t x = false) (participant_map p) = participant_map p) as ->; [|by destruct p].
    apply filter_all. intros x Hx. destruct (same_key ps s t x) eqn:Hk; [|done].
    enough (existsb (same_key ps s t) (participant_map p) = true) by congruence.
    apply existsb_exists. exists x. by rewrite <- list_elem_of_In.
Qed.

(** A program that removes a provider and tells the listener. *)
Definition drop_provider (ps s : Z) : M unit :=
  let* removed := remove_participant ps s prompt_provider in
  pwhen removed (pemit (ProviderRemoved ps s)).

Lemma drop_provider_run ps s p V :
  view_ok p V → s ∉ expired p →
  ∃ t, drop_provider ps s p =
      Run (Ret tt) (set_participants (filter (λ x, same_key ps s prompt_provider x = false) (participant_map p)) p) t ∧
    view_ok (set_participants (filter (λ x, same_key ps s prompt_provider x = false) (participant_map p)) p)
      (foldl view_step V t).
Proof.
  intros HV Hs. destruct (remove_participant_run ps s prompt_provider p) as (b & Hrun & Hb).
  unfold drop_provider. rewrite (pbind_silent _ _ _ _ _ Hrun).
  exists (if b then [ProviderRemoved ps s] else []). split; [by destruct b|].
  intros ps' s' Hs'. cbn in Hs'.
  assert (takes_part (set_participants (filter (λ x, same_key ps s prompt_provider x = false) (participant_map p)) p)
    ps' s' prompt_provider ↔ takes_part p ps' s' prompt_provider ∧ (ps', s') ≠ (ps, s)) as ->.
  { unfold takes_part. cbn. split.
    - intros (x & [Hk Hx]%list_elem_of_filter & <- & <- & Ht). split; [by exists x|]. intros [= Hps Hss].
      rewrite (proj2 (same_key_true ps s prompt_provider x)) in Hk; done.
    - intros [(x & Hx & <- & <- & Ht) Hne]. exists x. split_and!; [|done..].
      apply list_elem_of_filter. split; [|done]. destruct (same_key _ _ _ _) eqn:Hk; [|done].
      apply same_key_true in Hk as (? & ? & _). congruence. }
  rewrite <- (HV ps' s' Hs'). destruct b; cbn.
  - rewrite elem_of_difference, elem_of_singleton. done.
  - split; [|by intros [? _]]. intros Hin. split; [done|]. intros [= -> ->].
    assert (false = true) by by apply Hb, HV. done.
Qed.

Lemma drop_providers_run ps l p V :
  view_ok p V → (∀ s, s ∈ l → s ∉ expired p) →
  ∃ q t, pfor l (drop_provider ps) p = Run (Ret tt) (set_participants q p) t ∧
    view_ok (set_participants q p) (foldl view_step V t) ∧
    (∀ x, x ∈ q ↔ x ∈ participant_map p ∧
      ¬ (prompt_session x = ps ∧ participant_type x = prompt_provider ∧ session x ∈ l)).
Proof.
  revert p V. induction l as [|s l IH]; intros p V HV Hl; cbn [pfor].
  { exists (participant_map p), []. split_and!; [by destruct p|by destruct p|].
    intros x. split; [|tauto]. intros Hx. split; [done|]. by intros (_ & _ & ?%elem_of_nil). }
  destruct (drop_provider_run ps s p V HV) as (t1 & Hr1 & HV1); [apply Hl; left|].
  set (p1 := set_participants _ p) in *.
  destruct (IH p1 _ HV1) as (q & t2 & Hr2 & HV2 & Hq); [intros s' Hs'; apply Hl; by right|].
  exists q, (t1 ++ t2). unfold pbind. rewrite Hr1. cbn [value post trace]. rewrite Hr2. cbn [value post trace].
  split_and!; [done|by rewrite foldl_app|]. intros x. rewrite Hq. cbn.
  rewrite list_elem_of_filter, elem_of_cons, <- not_true_iff_false, same_key_true. tauto.
Qed.

Section laws.
Context `{ParticipantIndexLaws}.

Lemma elem_of_range ps p x :
  x ∈ equal_range_prompt_session (participant_map p) ps ↔ x ∈ participant_map p ∧ prompt_session x = ps.
Proof. rewrite prompt_session_range, list_elem_of_filter. tauto. Qed.

Lemma elem_of_providers ps p s :
  s ∈ providers_in ps p ↔ takes_part p ps s prompt_provider ∧ s ∉ expired p.
Proof.
  unfold providers_in. rewrite list_elem_of_omap. unfold takes_part, lock. split.
  - intros (x & [Hx Hps]%elem_of_range & Ht). case_bool_decide; [|done]. case_bool_decide; simplify_eq.
    split; [|done]. by exists x.
  - intros [(x & Hx & Hps & <- & Ht) Hs]. exists x. rewrite elem_of_range. split; [done|].
    by rewrite bool_decide_true, bool_decide_false.
Qed.

Lemma impl_stop_run ps hs p :
  ∃ t, impl_stop ps hs p = Run (Ret tt) (if bool_decide (state_of ps p = state_stopped) then p
      else set_states (<[ps := state_stopped]> (states p)) p) t ∧ (∀ V, foldl view_step V t = V).
Proof.
  unfold impl_stop. rewrite pbind_get. destruct (decide (state_of ps p = state_stopped)) as [Hs|Hs].
  - rewrite (bool_decide_true (state_of ps p = _)) by done. rewrite bool_decide_false by auto. by exists [].
  - rewrite (bool_decide_false (state_of ps p = _)) by done. rewrite bool_decide_true by done. cbn [pwhen].
    unfold set_state. rewrite pbind_modify. destruct hs as [s|]; cbn; by eexists.
Qed.

Lemma stop_effect ps p V :
  prompt_inv p V →
  ∃ p' t, stop_prompt_session_locked ps p = Run (Ret tt) p' t ∧ prompt_inv p' (foldl view_step V t) ∧
    (∀ x, x ∈ participant_map p' ↔ x ∈ participant_map p ∧ prompt_session x ≠ ps) ∧
    prompt_sessions p' = prompt_sessions p ∖ {[ps]} ∧ expired p' = expired p.
Proof.
  intros [Href Hkey Hhelp Hone Hst HV]. unfold stop_prompt_session_locked. rewrite pbind_get.
  destruct (drop_providers_run ps (providers_in ps p) p V HV) as (q & t1 & Hr1 & HV1 & Hq).
  { intros s [_ Hs]%elem_of_providers. done. }
  change (pfor (providers_in ps p) _) with (pfor (providers_in ps p) (drop_provider ps)).
  set (p1 := set_participants q p) in *.
  destruct (impl_stop_run ps (helper_for ps p1) p1) as (t2 & Hr2 & Hv2).
  set (p2 := if bool_decide _ then p1 else _) in Hr2.
  assert (prompt_sessions p2 = prompt_sessions p ∧ participant_map p2 = q ∧ expired p2 = expired p ∧
    ∀ ps', state_of ps' p2 = if decide (ps' = ps) then state_stopped else state_of ps' p) as (E1 & E2 & E3 & E4).
  { unfold p2. case_bool_decide as Hs; split_and!; try done; intros ps'; case_decide as Hps; try done.
    - by subst ps'.
    - subst ps'. unfold state_of. cbn. by rewrite lookup_insert_eq.
    - unfold state_of. cbn. by rewrite lookup_insert_ne. }
  set (p3 := set_prompt_sessions (prompt_sessions p2 ∖ {[ps]})
    (set_participants (filter (λ x, prompt_session x ≠ ps) (participant_map p2)) p2)).
  exists p3, (t1 ++ t2 ++ [Stopping ps]).
  assert (∀ x, x ∈ participant_map p3 ↔ x ∈ participant_map p ∧ prompt_session x ≠ ps) as Hin.
  { intros x. unfold p3. cbn. rewrite E2, list_elem_of_filter, Hq. tauto. }
  split_and!.
  - rewrite (pbind_run _ _ _ _ _ _ _ Hr1 eq_refl), pbind_get, (pbind_run _ _ _ _ _ _ _ Hr2 eq_refl). done.
  - rewrite !foldl_app, Hv2. cbn [foldl view_step]. constructor.
    + intros x [Hx Hne]%Hin. unfold p3. cbn. rewrite E1. apply elem_of_difference.
      split; [by apply Href|]. by rewrite elem_of_singleton.
    + intros x y [Hx _]%Hin [Hy _]%Hin. by apply Hkey.
    + intros ps' Hps'. unfold p3 in Hps'. cbn in Hps'. rewrite E1, elem_of_difference, elem_of_singleton in Hps'.
      destruct Hps' as [Hps' Hne]. destruct (Hhelp ps' Hps') as (s & x & Hx & <- & ? & ?).
      exists s, x. rewrite Hin. done.
    + intros x y [Hx _]%Hin [Hy _]%Hin. by apply Hone.
    + intros ps'. change (state_of ps' p3) with (state_of ps' p2). rewrite E4. unfold p3. cbn.
      rewrite E1, elem_of_difference, elem_of_singleton, Hst. case_decide; tauto.
    + intros ps' s Hs. change (expired p3) with (expired p2) in Hs. rewrite E3 in Hs.
      rewrite (HV1 ps' s Hs). unfold takes_part. split; intros (x & Hx & Hps & Hss & Ht); exists x; split_and!; try done.
      * apply Hin. cbn in Hx. apply Hq in Hx as [Hx Hno]. split; [done|]. intros Heq. apply Hno.
        split_and!; [done|done|]. apply elem_of_providers. rewrite Hss. split; [|done]. exists x. by rewrite Heq.
      * apply Hin in Hx as [Hx Hne]. cbn. apply Hq. split; [done|]. by intros [? _].
  - done.
  - unfold p3. cbn. by rewrite E1.
  - unfold p3. cbn. by rewrite E3.
Qed.

(** Taking a participant other than a helper out. *)
Lemma unhelp_inv p V V' ps s t :
  prompt_inv p V → t ≠ helper →
  let p' := set_participants (filter (λ x, same_key ps s t x = false) (participant_map p)) p in
  view_ok p' V' → prompt_inv p' V'.
Proof.
  intros [Href Hkey Hhelp Hone Hst HV] Ht p' HV'.
  assert (∀ x, x ∈ participant_map p' → x ∈ participant_map p) as Hin by by intros x [_ ?]%list_elem_of_filter.
  constructor; [|intros x y ? ?; apply Hkey; auto| |intros x y ? ?; apply Hone; auto|exact Hst|exact HV'].
  - intros x Hx. apply Href. auto.
  - intros ps' Hps'. destruct (Hhelp ps' Hps') as (s' & x & Hx & <- & Hs' & Hh). exists s', x.
    split_and!; [|done..]. apply list_elem_of_filter. split; [|done].
    destruct (same_key ps s t x) eqn:Hk; [|done]. apply same_key_true in Hk as (_ & _ & Hk). congruence.
Qed.

(** One round of [remove_session]'s loop. *)
Definition remove_round (s : Z) (pair : Z * ParticipantType) : M unit :=
  if bool_decide (pair.2 = helper) then stop_prompt_session_locked pair.1
  else
    let* removed := remove_participant pair.1 s pair.2 in
    pwhen (removed && bool_decide (pair.2 = prompt_provider)) (pemit (ProviderRemoved pair.1 s)).

Lemma remove_round_effect s pair p V :
  prompt_inv p V → s ∉ expired p →
  ∃ p' t, remove_round s pair p = Run (Ret tt) p' t ∧ prompt_inv p' (foldl view_step V t) ∧
    (∀ x, x ∈ participant_map p' ↔ x ∈ participant_map p ∧
       (if decide (pair.2 = helper) then prompt_session x ≠ pair.1
        else same_key pair.1 s pair.2 x = false)) ∧
    prompt_sessions p' = (if decide (pair.2 = helper) then prompt_sessions p ∖ {[pair.1]} else prompt_sessions p) ∧
    expired p' = expired p.
Proof.
  intros Hinv Hs. destruct pair as [ps t]. unfold remove_round. cbn [fst snd].
  destruct (decide (t = helper)) as [->|Ht].
  - rewrite bool_decide_true by done.
    destruct (stop_effect ps p V Hinv) as (p' & tr & ? & ? & ? & ? & ?). by exists p', tr.
  - rewrite bool_decide_false by done. destruct (decide (t = prompt_provider)) as [->|Hp].
    + destruct (drop_provider_run ps s p V (pi_view _ _ Hinv) Hs) as (tr & Hrun & HV').
      eexists _, tr. split_and!.
      * rewrite <- Hrun. unfold drop_provider, pbind. destruct (remove_participant _ _ _ _) as [[b|e] p1 t1]; [|done].
        cbn. by rewrite andb_true_r.
      * by eapply unhelp_inv.
      * intros x. cbn. rewrite list_elem_of_filter. tauto.
      * done.
      * done.
    + destruct (remove_participant_run ps s t p) as (b & Hrun & _). rewrite (pbind_silent _ _ _ _ _ Hrun).
      rewrite (bool_decide_false (t = prompt_provider)), andb_false_r by done.
      eexists _, []. split_and!; [done| | |done|done].
      * eapply unhelp_inv; [done|done|]. intros ps' s' Hs'. rewrite (pi_view _ _ Hinv ps' s' Hs').
        unfold takes_part. cbn. split; intros (x & Hx & Hps & Hss & Htt); exists x; split_and!; try done.
        -- apply list_elem_of_filter. split; [|done]. destruct (same_key ps s t x) eqn:Hk; [|done].
           apply same_key_true in Hk as (_ & _ & ?). congruence.
        -- by apply list_elem_of_filter in Hx as [_ ?].
      * intros x. cbn. rewrite list_elem_of_filter. tauto.
Qed.

Lemma remove_rounds_effect s l p V :
  prompt_inv p V → s ∉ expired p →
  ∃ p' t, pfor l (remove_round s) p = Run (Ret tt) p' t ∧ prompt_inv p' (foldl view_step V t) ∧
    (∀ x, x ∈ participant_map p' ↔ x ∈ participant_map p ∧
       ∀ pair, pair ∈ l → if decide (pair.2 = helper) then prompt_session x ≠ pair.1
                          else same_key pair.1 s pair.2 x = false) ∧
    (∀ ps, ps ∈ prompt_sessions p' ↔ ps ∈ prompt_sessions p ∧ (ps, helper) ∉ l) ∧
    expired p' = expired p.
Proof.
  revert p V. induction l as [|pair l IH]; intros p V Hinv Hs; cbn [pfor].
  { exists p, []. split_and!; [done|done| | |done].
    - intros x. split; [|tauto]. intros Hx. split; [done|]. by intros pair ?%elem_of_nil.
    - intros ps. split; [|tauto]. intros Hps. split; [done|apply not_elem_of_nil]. }
  destruct (remove_round_effect s pair p V Hinv Hs) as (p1 & t1 & Hr1 & Hinv1 & Hp1 & Hs1 & He1).
  destruct (IH p1 _ Hinv1) as (p2 & t2 & Hr2 & Hinv2 & Hp2 & Hs2 & He2); [by rewrite He1|].
  exists p2, (t1 ++ t2). split_and!.
  - rewrite (pbind_run _ _ _ _ _ _ _ Hr1 eq_refl), Hr2. done.
  - by rewrite foldl_app.
  - intros x. rewrite Hp2, Hp1. split.
    + intros [[Hx Hpair] Hl]. split; [done|]. by intros q [->|Hq]%elem_of_cons; [|apply Hl].
    + intros [Hx Hl]. split_and!; [done|apply Hl; left|]. intros q Hq. apply Hl. by right.
  - intros ps. rewrite Hs2, Hs1, not_elem_of_cons. destruct pair as [ps' t]. cbn [fst snd].
    destruct (decide (t = helper)) as [->|Ht]; [rewrite elem_of_difference, elem_of_singleton|]; split.
    + intros [[? Hne] ?]. split_and!; [done|congruence|done].
    + intros (? & Hne & ?). split_and!; [done|congruence|done].
    + intros [? ?]. split_and!; [done|congruence|done].
    + tauto.
  - congruence.
Qed.

Lemma remove_session_effect s p V :
  prompt_inv p V → s ∉ expired p →
  ∃ p' t, remove_session s p = Run (Ret tt) p' t ∧ prompt_inv p' (foldl view_step V t) ∧
    (∀ x, x ∈ participant_map p' ↔ x ∈ participant_map p ∧ session x ≠ s ∧
       ¬ takes_part p (prompt_session x) s helper) ∧
    (∀ ps, ps ∈ prompt_sessions p' ↔ ps ∈ prompt_sessions p ∧ ¬ takes_part p ps s helper) ∧
    expired p' = expired p.
Proof.
  intros Hinv Hs. unfold remove_session. rewrite pbind_get.
  destruct (remove_rounds_effect s (participations s p) p V Hinv Hs) as (p' & t & Hr & Hinv' & Hp & Hps & He).
  assert (∀ ps t, (ps, t) ∈ participations s p ↔ takes_part p ps s t) as Hpart.
  { intros ps t'. unfold participations, takes_part. rewrite list_elem_of_fmap. split.
    - intros (x & [= -> ->] & [_ Hx]%list_elem_of_filter). rewrite session_range, list_elem_of_filter in Hx.
      destruct Hx as [Hsx Hx]. by exists x.
    - intros (x & Hx & <- & <- & <-). exists x. split; [done|]. apply list_elem_of_filter.
      split; [by apply (pi_ref _ _ Hinv)|]. rewrite session_range, list_elem_of_filter. done. }
  exists p', t. split_and!; [exact Hr|done| |intros ps; by rewrite Hps, Hpart|done].
  intros x. rewrite Hp. split.
  - intros [Hx Hall]. split_and!; [done| |].
    + intros Hsx. specialize (Hall (prompt_session x, participant_type x)). cbn in Hall.
      rewrite Hpart in Hall. specialize (Hall ltac:(by exists x)). case_decide; [done|].
      by rewrite (proj2 (same_key_true _ _ _ x)) in Hall.
    + intros Hh%Hpart. specialize (Hall _ Hh). cbn in Hall. done.
  - intros (Hx & Hsx & Hh). split; [done|]. intros [ps t'] Hin%Hpart. cbn. case_decide as Ht.
    + intros Heq. apply Hh. rewrite Heq. by subst t'.
    + destruct (same_key _ _ _ x) eqn:Hk; [|done]. by apply same_key_true in Hk as (_ & ? & _).
Qed.

(** A participant joins an existing prompt session. *)
Lemma join_inv p V V' ps s t o :
  prompt_inv p V → ps ∈ prompt_sessions p → (¬ takes_part p ps s t) → t ≠ helper →
  let p' := set_participants (participant_map p ++ [mkParticipant ps s t o]) p in
  view_ok p' V' → prompt_inv p' V'.
Proof.
  intros [Href Hkey Hhelp Hone Hst HV] Hps Hnew Ht p' HV'.
  assert (∀ x, x ∈ participant_map p' ↔ x ∈ participant_map p ∨ x = mkParticipant ps s t o) as Hin.
  { intros x. cbn. by rewrite elem_of_app, list_elem_of_singleton. }
  constructor; [| | | |exact Hst|exact HV'].
  - intros x [Hx| ->]%Hin; [by apply Href|done].
  - intros x y [Hx| ->]%Hin [Hy| ->]%Hin; cbn; [by apply Hkey| | |done].
    + intros E1 E2 E3. destruct Hnew. by exists x.
    + intros E1 E2 E3. destruct Hnew. by exists y.
  - intros ps' Hps'. destruct (Hhelp ps' Hps') as (s' & x & Hx & ?). exists s', x. by rewrite Hin; split; [left|].
  - intros x y [Hx| ->]%Hin [Hy| ->]%Hin; cbn; [by apply Hone|done..].
Qed.

Lemma insert_participant_run ps s t p :
  ps ∈ prompt_sessions p → s ∉ expired p →
  ∃ b, (b = true ↔ ¬ takes_part p ps s t) ∧
  let p1 := set_order (uint32 (insertion_order p + 1)) p in
  insert_participant ps s t p = Run (Ret b)
    (if b then set_participants (participant_map p1 ++ [mkParticipant ps s t (insertion_order p)]) p1 else p1) [].
Proof.
  intros Hps Hs. unfold insert_participant, lock. rewrite pbind_get, bool_decide_true, bool_decide_false by done.
  cbn zeta. rewrite pbind_put. destruct (existsb _ _) eqn:He.
  - exists false. split; [|done]. rewrite <- existsb_takes_part, He. split; [done|]. by intros Hn.
  - exists true. split; [|done]. rewrite <- existsb_takes_part, He. by split.
Qed.

Lemma order_inv p V o : prompt_inv p V → prompt_inv (set_order o p) V.
Proof. intros [? ? ? ? ? ?]. by constructor. Qed.

Lemma add_provider_effect ps s p V :
  prompt_inv p V → s ∉ expired p →
  ∃ r p' t, add_prompt_provider ps s p = Run r p' t ∧ prompt_inv p' (foldl view_step V t) ∧
    (ps ∈ prompt_sessions p → r = Ret tt ∧ takes_part p' ps s prompt_provider) ∧
    (ps ∉ prompt_sessions p → r = Throw (runtime_error "Prompt Session does not exist") ∧ p' = p ∧ t = []).
Proof.
  intros Hinv Hs. unfold add_prompt_provider. destruct (decide (ps ∈ prompt_sessions p)) as [Hps|Hps].
  - destruct (insert_participant_run ps s prompt_provider p Hps Hs) as (b & Hb & Hrun).
    cbn zeta in Hrun. set (p1 := set_order _ p) in Hrun. rewrite (pbind_silent _ _ _ _ _ Hrun).
    destruct b; cbn [pwhen].
    + eexists _, _, _. split_and!; [done| | |done].
      * eapply join_inv; [by apply order_inv|done|by apply Hb|done|]. intros ps' s' Hs'.
        cbn [foldl view_step]. rewrite elem_of_union, elem_of_singleton.
        rewrite (pi_view _ _ Hinv ps' s' Hs'). unfold takes_part. cbn. split.
        -- intros [[= -> ->]|(x & Hx & ?)]; [eexists; rewrite elem_of_app, list_elem_of_singleton; by split; [right|]|].
           exists x. by rewrite elem_of_app; split; [left|].
        -- intros (x & [Hx| ->%list_elem_of_singleton]%elem_of_app & Hx2 & Hx3 & Hx4); [right; by exists x|].
           cbn in *. left. congruence.
      * intros _. split; [done|]. eexists. cbn. rewrite elem_of_app, list_elem_of_singleton. by split; [right|].
    + eexists _, _, _. split_and!; [done|by apply order_inv| |done]. intros _. split; [done|].
      rewrite <- existsb_takes_part. change (participant_map p1) with (participant_map p).
      destruct (existsb _ _) eqn:He; [done|]. exfalso. enough (false = true) by done. apply Hb.
      by rewrite <- existsb_takes_part, He.
  - eexists _, p, []. split_and!; [|done|done|done].
    apply pbind_throw. unfold insert_participant. by rewrite pbind_get, bool_decide_false.
Qed.

Lemma set_state_inv p V ps st :
  prompt_inv p V → state_of ps p ≠ state_stopped → st ≠ state_stopped →
  prompt_inv (set_states (<[ps := st]> (states p)) p) V.
Proof.
  intros [Href Hkey Hhelp Hone Hst HV] Hps Hne. constructor; try done. intros ps'. rewrite Hst.
  unfold state_of in *. cbn. destruct (decide (ps' = ps)) as [->|Hd].
  - rewrite lookup_insert_eq. by split.
  - by rewrite lookup_insert_ne.
Qed.

Lemma suspend_effect ps p V :
  prompt_inv p V → prompt_inv (post (suspend_prompt_session ps p)) (foldl view_step V (trace (suspend_prompt_session ps p))).
Proof.
  intros Hinv. unfold suspend_prompt_session, impl_suspend, set_state, tell. rewrite pbind_get, pbind_assoc, pbind_get.
  case_bool_decide as Hs; cbn [pwhen]; [|by rewrite pbind_ret_l].
  rewrite !pbind_assoc, pbind_modify.
  destruct (helper_for ps p); cbn; apply set_state_inv; by rewrite ?Hs.
Qed.
Lemma resume_effect ps p V :
  prompt_inv p V → prompt_inv (post (resume_prompt_session ps p)) (foldl view_step V (trace (resume_prompt_session ps p))).
Proof.
  intros Hinv. unfold resume_prompt_session, impl_resume, set_state, tell. rewrite pbind_get, pbind_assoc, pbind_get.
  case_bool_decide as Hs; cbn [pwhen]; [|by rewrite pbind_ret_l].
  rewrite !pbind_assoc, pbind_modify.
  destruct (helper_for ps p); cbn; apply set_state_inv; by rewrite ?Hs.
Qed.

(** The last session of the application container with the given process. *)
Definition application_session (app_container : list (Z * Z)) (pid : Z) : option Z :=
  foldl (λ acc x, if bool_decide (x.2 = pid) then Some x.1 else acc) None app_container.

Lemma started_inv ps s p V :
  prompt_inv p V → states p !! ps = None →
  let p3 := mkPrompt ({[ps]} ∪ prompt_sessions p) (participant_map p ++ [mkParticipant ps s helper (insertion_order p)])
    (uint32 (insertion_order p + 1)) (<[ps := state_started]> (states p)) (expired p) in
  prompt_inv p3 V.
Proof.
  intros [Href Hkey Hhelp Hone Hst HV] Hnew p3.
  assert (ps ∉ prompt_sessions p) as Hps by (rewrite Hst; unfold state_of; rewrite Hnew; by intros ?).
  assert (∀ x, x ∈ participant_map p → prompt_session x ≠ ps) as Hfresh by (intros x Hx <-; by apply Hps, Href).
  assert (∀ x, x ∈ participant_map p3 ↔ x ∈ participant_map p ∨ x = mkParticipant ps s helper (insertion_order p)) as Hin.
  { intros x. cbn. by rewrite elem_of_app, list_elem_of_singleton. }
  constructor.
  - intros x [Hx| ->]%Hin; cbn; apply elem_of_union; [right; by apply Href|left; by apply elem_of_singleton].
  - intros x y [Hx| ->]%Hin [Hy| ->]%Hin; cbn; [by apply Hkey| | |done]; intros E; by destruct (Hfresh _ ltac:(eassumption)).
  - intros ps' Hps'. cbn in Hps'. apply elem_of_union in Hps' as [->%elem_of_singleton|Hps'].
    + exists s. eexists. rewrite Hin. by split; [right|].
    + destruct (Hhelp ps' Hps') as (s' & x & Hx & ?). exists s', x. by rewrite Hin; split; [left|].
  - intros x y [Hx| ->]%Hin [Hy| ->]%Hin; cbn; [by apply Hone| | |done]; intros E; by destruct (Hfresh _ ltac:(eassumption)).
  - intros ps'. unfold state_of. cbn. rewrite elem_of_union, elem_of_singleton.
    destruct (decide (ps' = ps)) as [->|Hne].
    + rewrite lookup_insert_eq. cbn. split; [done|by left].
    + rewrite lookup_insert_ne by done. rewrite Hst. split; [intros [?|?]; done|by right].
  - intros ps' s' Hs'. rewrite (HV ps' s' Hs'). unfold takes_part. split.
    + intros (x & Hx & ?). exists x. rewrite Hin. by split; [left|].
    + intros (x & [Hx| ->]%Hin & Hx2 & Hx3 & Hx4); [by exists x|done].
Qed.

Lemma start_effect ps s apps pid p V :
  prompt_inv p V → states p !! ps = None → s ∉ expired p → (∀ a, a ∈ apps.*1 → a ∉ expired p) →
  ∃ r p' t, start_prompt_session_for ps s apps pid p = Run r p' t ∧ prompt_inv p' (foldl view_step V t) ∧
    match application_session apps pid with
    | None => r = Throw (runtime_error "Could not identify application session") ∧ p' = p ∧ t = []
    | Some a => r = Ret tt ∧ t = [Helper (HelperStart s); Starting ps] ∧
        takes_part p' ps s helper ∧ takes_part p' ps a application ∧ state_of ps p' = state_started
    end.
Proof.
  intros Hinv Hnew Hs Happs. unfold start_prompt_session_for. cbn zeta. fold (application_session apps pid).
  destruct (application_session apps pid) as [a|] eqn:Ha; [|by eexists _, p, []].
  assert (a ∉ expired p) as Hae.
  { apply Happs. clear -Ha. unfold application_session in Ha.
    assert (∀ acc, foldl (λ acc x, if bool_decide (x.2 = pid) then Some x.1 else acc) acc apps = Some a →
      acc = Some a ∨ a ∈ apps.*1) as Hf; [|by destruct (Hf None Ha)].
    clear. induction apps as [|x l IH]; intros acc; cbn; [by left|]. intros [Hx|?]%IH; [|right; by right].
    case_bool_decide; [simplify_eq; right; left|by left]. }
  set (p0 := set_prompt_sessions ({[ps]} ∪ prompt_sessions p) p).
  assert (ps ∈ prompt_sessions p0) as Hps0 by (cbn; set_solver).
  destruct (insert_participant_run ps s helper p0 Hps0 Hs) as (b & Hb & Hrun0).
  assert (b = true) as ->.
  { apply Hb. intros (x & Hx & <- & _). apply (pi_ref _ _ Hinv) in Hx. rewrite (pi_state _ _ Hinv) in Hx.
    unfold state_of in Hx. by rewrite Hnew in Hx. }
  pose proof (started_inv ps s p V Hinv Hnew) as Hinv3. cbn zeta in Hinv3.
  set (p3 := mkPrompt _ _ _ _ _) in Hinv3.
  assert (ps ∈ prompt_sessions p3) as Hps3 by (cbn; set_solver).
  destruct (insert_participant_run ps a application p3 Hps3 Hae) as (b & Hb3 & Hrun3).
  unfold insert_prompt_session. rewrite pbind_modify. fold p0. cbn zeta in Hrun0.
  rewrite (pbind_silent _ _ _ _ _ Hrun0). cbn [negb].
  set (p2 := set_participants _ _).
  assert (impl_start ps (Some s) p2 = Run (Ret tt) p3 [Helper (HelperStart s)]) as Hstart.
  { unfold impl_start. rewrite pbind_get. rewrite bool_decide_true; [done|]. unfold state_of. cbn. by rewrite Hnew. }
  rewrite (pbind_run _ _ _ _ _ _ _ Hstart eq_refl), pbind_emit. cbn zeta in Hrun3. rewrite (pbind_silent _ _ _ _ _ Hrun3).
  cbn [value post trace pret app]. eexists _, _, _. split_and!; [done|..].
  all: cbn [foldl view_step].
  - destruct b; [|by apply order_inv]. eapply join_inv; [by apply order_inv|done|by apply Hb3|done|].
    intros ps' s' Hs'. rewrite (pi_view _ _ Hinv3 ps' s' Hs'). unfold takes_part. cbn [participant_map set_participants set_order].
    split; intros (x & Hx & Hx2 & Hx3 & Hx4); exists x.
    + by rewrite elem_of_app; split; [left|].
    + apply elem_of_app in Hx as [Hx| ->%list_elem_of_singleton]; [done|done].
  - done.
  - done.
  - assert (takes_part p3 ps s helper) as (x & Hx & ?).
    { eexists. cbn [participant_map p3]. rewrite elem_of_app, list_elem_of_singleton. by split; [right|]. }
    exists x. destruct b; [|done]. cbn [participant_map set_participants set_order] in *. rewrite elem_of_app. by split; [left|].
  - destruct b.
    + eexists. cbn [participant_map set_participants set_order]. rewrite elem_of_app, list_elem_of_singleton. by split; [right|].
    + apply (existsb_takes_part (set_order _ p3)). change (participant_map (set_order _ p3)) with (participant_map p3).
      destruct (existsb (same_key ps a application) (participant_map p3)) eqn:He; [done|].
      exfalso. enough (false = true) by done. apply Hb3. by rewrite <- existsb_takes_part, He.
  - destruct b; unfold state_of; cbn; by rewrite lookup_insert_eq.
Qed.

(** ** The manager and its callers as a state machine

    Sessions are passed as shared pointers, so they are alive when passed, and
    may be destroyed later; every prompt session is a new object. *)
Inductive prompt_op :=
  | OpStart (ps s : Z) (apps : list (Z * Z)) (pid : Z)
  | OpStop (ps : Z)
  | OpSuspend (ps : Z)
  | OpResume (ps : Z)
  | OpAddProvider (ps s : Z)
  | OpRemoveSession (s : Z)
  | OpExpire (s : Z).

Definition prompt_exec (op : prompt_op) : M unit :=
  match op with
  | OpStart ps s apps pid => start_prompt_session_for ps s apps pid
  | OpStop ps => stop_prompt_session ps
  | OpSuspend ps => suspend_prompt_session ps
  | OpResume ps => resume_prompt_session ps
  | OpAddProvider ps s => add_prompt_provider ps s
  | OpRemoveSession s => remove_session s
  | OpExpire s => pmodify (λ p,
      mkPrompt (prompt_sessions p) (participant_map p) (insertion_order p) (states p) ({[s]} ∪ expired p))
  end.

Definition prompt_allowed (p : Prompt) (h : list prompt_obs) (op : prompt_op) : bool :=
  match op with
  | OpStart ps s apps _ =>
      bool_decide (states p !! ps = None) && bool_decide (s ∉ expired p) &&
      bool_decide (Forall (λ a, a ∉ expired p) apps.*1)
  | OpAddProvider _ s | OpRemoveSession s => bool_decide (s ∉ expired p)
  | _ => true
  end.

Definition prompt_machine : machine := {|
  m_state := Prompt;
  m_op := prompt_op;
  m_obs := prompt_obs;
  m_init p := p = mkPrompt ∅ [] 0 ∅ ∅;
  m_allowed := prompt_allowed;
  m_exec := prompt_exec
|}.

Lemma prompt_exec_inv p h op V :
  prompt_inv p V → prompt_allowed p h op = true →
  prompt_inv (post (prompt_exec op p)) (foldl view_step V (trace (prompt_exec op p))).
Proof.
  intros Hinv Hok. destruct op as [ps s apps pid|ps|ps|ps|ps s|s|s]; cbn [prompt_exec prompt_allowed] in *.
  - apply andb_prop in Hok as [[Hnew%bool_decide_eq_true Hs%bool_decide_eq_true]%andb_prop Ha%bool_decide_eq_true].
    rewrite Forall_forall in Ha.
    by destruct (start_effect ps s apps pid p V Hinv Hnew Hs Ha) as (r & p' & t & -> & ? & _).
  - unfold stop_prompt_session. by destruct (stop_effect ps p V Hinv) as (p' & t & -> & ? & _).
  - by apply suspend_effect.
  - by apply resume_effect.
  - apply bool_decide_eq_true in Hok. by destruct (add_provider_effect ps s p V Hinv Hok) as (r & p' & t & -> & ? & _).
  - apply bool_decide_eq_true in Hok. by destruct (remove_session_effect s p V Hinv Hok) as (p' & t & -> & ? & _).
  - destruct Hinv as [? ? ? ? ? HV]. constructor; try done. intros ps' s' Hs'. cbn in Hs'.
    apply HV. intros Hs''. apply Hs'. apply elem_of_union. by right.
Qed.

Lemma prompt_reachable p h : reachable prompt_machine p h → prompt_inv p (listener_view h).
Proof.
  revert p h. apply (reachable_invariant prompt_machine); cbn.
  - intros p ->. constructor; cbn; try done; try (by intros ? ?%elem_of_nil).
    + by intros x y ?%elem_of_nil.
    + by intros x y ?%elem_of_nil.
    + intros ps s _. split; [by intros ?%elem_of_empty|]. by intros (x & ?%elem_of_nil & _).
  - intros p h op _ Hinv Hok. unfold listener_view. rewrite foldl_app. by eapply prompt_exec_inv.
Qed.

(** ** Properties *)

(** C10. Nobody takes part in a prompt session that does not exist; a prompt
    session exists exactly while it is started or suspended, and then has
    exactly one helper; and the listener knows precisely which live sessions
    provide for which prompt session. *)
Theorem prompt_sessions_consistent p h :
  reachable prompt_machine p h →
  (∀ ps s t, takes_part p ps s t → ps ∈ prompt_sessions p) ∧
  (∀ ps, ps ∈ prompt_sessions p ↔ state_of ps p ≠ state_stopped) ∧
  (∀ ps, ps ∈ prompt_sessions p → ∃ s, takes_part p ps s helper ∧ ∀ s', takes_part p ps s' helper → s' = s) ∧
  (∀ ps s, s ∉ expired p → ((ps, s) ∈ listener_view h ↔ takes_part p ps s prompt_provider)).
Proof.
  intros Hinv%prompt_reachable. split_and!.
  - intros ps s t (x & Hx & <- & _). by apply (pi_ref _ _ Hinv).
  - apply (pi_state _ _ Hinv).
  - intros ps Hps. destruct (pi_helper _ _ Hinv ps Hps) as (s & x & Hx & Hxp & <- & Hxt).
    exists (session x). split; [by exists x|]. intros s' (y & Hy & Hyp & <- & Hyt).
    f_equal. apply (pi_one_helper _ _ Hinv); congruence.
  - apply (pi_view _ _ Hinv).
Qed.

(** Removing a session always succeeds; it leaves no trace of the session,
    stops the prompt sessions it helped with everything in them, and touches no
    other participant and no other prompt session. *)
Theorem remove_session_clean p h s :
  reachable prompt_machine p h → s ∉ expired p →
  let r := remove_session s p in
  value r = Ret tt ∧
  (∀ ps t, ¬ takes_part (post r) ps s t) ∧
  (∀ ps, takes_part p ps s helper → state_of ps (post r) = state_stopped ∧ ∀ s' t, ¬ takes_part (post r) ps s' t) ∧
  (∀ ps s' t, s' ≠ s → ¬ takes_part p ps s helper → (takes_part (post r) ps s' t ↔ takes_part p ps s' t)) ∧
  (∀ ps, ¬ takes_part p ps s helper → (ps ∈ prompt_sessions (post r) ↔ ps ∈ prompt_sessions p)).
Proof.
  intros Hinv%prompt_reachable Hs r.
  destruct (remove_session_effect s p _ Hinv Hs) as (p' & t & Hrun & Hinv' & Hp & Hps & _).
  unfold r. rewrite Hrun. cbn [value post]. split_and!.
  - done.
  - intros ps t' (x & Hx & _ & Hsx & _). by apply Hp in Hx as (_ & ? & _).
  - intros ps Hh. split.
    + destruct (decide (state_of ps p' = state_stopped)) as [|Hst]; [done|exfalso].
      apply (pi_state _ _ Hinv'), Hps in Hst as [_ Hno]. done.
    + intros s' t' (x & Hx & <- & _). apply Hp in Hx as (_ & _ & Hno). done.
  - intros ps s' t' Hne Hno. unfold takes_part. split; intros (x & Hx & <- & <- & <-); exists x.
    + by apply Hp in Hx as [? _].
    + split_and!; [|done..]. by apply Hp.
  - intros ps Hno. rewrite Hps. tauto.
Qed.

(** Starting a prompt session finds the application by its process or fails
    without a trace; a started one has its helper and its application in it, and
    the helper and the listener were told, in this order. *)
Theorem start_prompt_session_spec p h ps s apps pid :
  reachable prompt_machine p h → states p !! ps = None → s ∉ expired p → (∀ a, a ∈ apps.*1 → a ∉ expired p) →
  let r := start_prompt_session_for ps s apps pid p in
  match application_session apps pid with
  | None => r = Run (Throw (runtime_error "Could not identify application session")) p []
  | Some a => value r = Ret tt ∧ trace r = [Helper (HelperStart s); Starting ps] ∧
      state_of ps (post r) = state_started ∧
      takes_part (post r) ps s helper ∧ takes_part (post r) ps a application
  end.
Proof.
  intros Hinv%prompt_reachable Hnew Hs Happs r.
  destruct (start_effect ps s apps pid p _ Hinv Hnew Hs Happs) as (v & p' & t & Hrun & _ & Hspec).
  unfold r. rewrite Hrun. destruct (application_session apps pid); [tauto|].
  by destruct Hspec as (-> & -> & ->).
Qed.
End laws.

(** *** Witnesses: an index that sorts as the container's comparators do *)
Definition insert_le (x y : Participant) : Prop := insert_order x ≤ insert_order y.
#[export] Instance insert_le_dec : RelDecision insert_le.
Proof. intros x y. unfold insert_le. apply _. Defined.
Definition type_rank (t : ParticipantType) : Z := match t with helper => 0 | application => 1 | prompt_provider => 2 end.
Definition session_le (x y : Participant) : Prop := type_rank (participant_type x) ≤ type_rank (participant_type y).
#[export] Instance session_le_dec : RelDecision session_le.
Proof. intros x y. unfold session_le. apply _. Defined.

Definition sorted_index : ParticipantIndex := {|
  equal_range_prompt_session l ps := merge_sort insert_le (filter (λ p, prompt_session p = ps) l);
  equal_range_session l s := merge_sort session_le (filter (λ p, session p = s) l)
|}.
Lemma sorted_index_laws : @ParticipantIndexLaws sorted_index.
Proof. constructor; intros; apply merge_sort_Permutation. Qed.

Definition prompt_example_ops : list prompt_op :=
  [OpStart 100 1 [(2, 20); (3, 30)] 30; OpAddProvider 100 4; OpAddProvider 100 5; OpSuspend 100;
   OpStart 101 2 [(2, 20); (3, 30)] 20; OpAddProvider 101 1; OpResume 100].
Definition prompt_init : Prompt := mkPrompt ∅ [] 0 ∅ ∅.
Definition prompt_example_run : Prompt * list prompt_obs :=
  default (prompt_init, []) (run_ops (@prompt_machine sorted_index) prompt_example_ops prompt_init []).
Lemma prompt_example_reachable :
  reachable (@prompt_machine sorted_index) prompt_example_run.1 prompt_example_run.2.
Proof. apply (run_ops_from_init (@prompt_machine sorted_index) prompt_example_ops prompt_init); [done|]. by vm_compute. Qed.

Lemma prompt_sessions_consistent_witness :
  100 ∈ prompt_sessions prompt_example_run.1 ↔ state_of 100 prompt_example_run.1 ≠ state_stopped.
Proof.
  exact (proj1 (proj2 (@prompt_sessions_consistent sorted_index sorted_index_laws _ _ prompt_example_reachable)) 100).
Defined.

Lemma remove_session_clean_witness :
  ¬ takes_part (post (@remove_session sorted_index 1 prompt_example_run.1)) 101 1 prompt_provider.
Proof.
  refine (proj1 (proj2 (@remove_session_clean sorted_index sorted_index_laws _ _ 1 prompt_example_reachable _)) 101 prompt_provider).
  apply (bool_decide_unpack (1 ∉ expired prompt_example_run.1)). vm_compute. exact I.
Defined.

Lemma start_prompt_session_spec_witness :
  value (start_prompt_session_for 102 3 [(2, 20)] 20 prompt_example_run.1) = Ret tt.
Proof.
  refine (proj1 (@start_prompt_session_spec sorted_index sorted_index_laws _ _ 102 3 [(2, 20)] 20
    prompt_example_reachable _ _ _)).
  - by vm_compute.
  - apply (bool_decide_unpack (3 ∉ expired prompt_example_run.1)). vm_compute. exact I.
  - intros a Ha%list_elem_of_singleton. subst a.
    apply (bool_decide_unpack (2 ∉ expired prompt_example_run.1)). vm_compute. exact I.
Defined.
