(* ===== verification/SeatTracker.v ===== *)
(** The seat's input devices (src/server/input/seat_input_device_tracker.cpp,
    display_input_region.cpp): cursor, buttons, pressed keys and touch spots of
    all the devices of a seat, and the events it lets through. *)

From S2P Require Import Prelude Geometry Float32.

(** ** Events: what the tracker reads of a [MirEvent], and the fields it writes *)
Inductive key_action := key_up | key_down | key_repeat.
#[export] Instance key_action_eq_dec : EqDecision key_action.
Proof. solve_decision. Defined.
Inductive touch_action := touch_up | touch_down | touch_change.
#[export] Instance touch_action_eq_dec : EqDecision touch_action.
Proof. solve_decision. Defined.

Record TouchPoint := mkTouch {
  touch_action_of : touch_action;
  touch_x : float32;
  touch_y : float32;
  touch_pressure : float32
}.
#[export] Instance TouchPoint_eq_dec : EqDecision TouchPoint.
Proof. solve_decision. Defined.

Inductive MirEvent :=
  | KeyEvent (device : Z) (action : key_action) (scan_code : Z)
  | TouchEvent (device : Z) (points : list TouchPoint)
  | PointerEvent (device buttons : Z) (rel_x rel_y x y : float32)
  (** any event that is not an input event *)
  | OtherEvent (kind : Z).
#[export] Instance MirEvent_eq_dec : EqDecision MirEvent.
Proof. solve_decision. Defined.

(** ** State *)
Record Spot := mkSpot { touch_location : Point; pressure : float32 }.
#[export] Instance Spot_eq_dec : EqDecision Spot.
Proof. solve_decision. Defined.

Record DeviceData := mkDevice { dev_buttons : Z; dev_spots : list Spot; scan_codes : list Z }.
#[export] Instance DeviceData_eq_dec : EqDecision DeviceData.
Proof. solve_decision. Defined.

(** [region] is the [DisplayInputRegion]'s list of outputs.  [device_data] is an
    unordered map: where the order of a walk shows, it is [map_to_list]'s. *)
Record Seat := mkSeat {
  cursor_x : float32;
  cursor_y : float32;
  buttons : Z;
  device_data : gmap Z DeviceData;
  spots : list Spot;
  confined_region : Rectangles;
  region : Rectangles
}.

Inductive seat_obs :=
  | SeatAddDevice (id : Z)
  | SeatRemoveDevice (id : Z)
  | ClearKeymap (id : Z)
  | MapEvent (e : MirEvent)
  | Dispatch (e : MirEvent)
  | VisualizeTouches (l : list Spot)
  | CursorMovedTo (x y : float32)
  | MapperSetKeyState (id : Z) (codes : list Z)
  | SeatSetKeyState (id : Z) (codes : list Z)
  | SeatSetPointerState (id : Z) (b : Z)
  | SeatSetCursorPosition (x y : float32)
  | SeatSetConfinement (r : Rectangles)
  | SeatResetConfinement.
#[export] Instance seat_obs_eq_dec : EqDecision seat_obs.
Proof. solve_decision. Defined.

#[local] Abbreviation M := (prog Seat seat_obs).

Definition set_cursor x y s := mkSeat x y (buttons s) (device_data s) (spots s) (confined_region s) (region s).
Definition set_buttons b s := mkSeat (cursor_x s) (cursor_y s) b (device_data s) (spots s) (confined_region s) (region s).
Definition set_devices d s := mkSeat (cursor_x s) (cursor_y s) (buttons s) d (spots s) (confined_region s) (region s).
Definition set_spots l s := mkSeat (cursor_x s) (cursor_y s) (buttons s) (device_data s) l (confined_region s) (region s).
Definition set_confined r s := mkSeat (cursor_x s) (cursor_y s) (buttons s) (device_data s) (spots s) r (region s).
Definition set_region r s := mkSeat (cursor_x s) (cursor_y s) (buttons s) (device_data s) (spots s) (confined_region s) r.

Definition new_device : DeviceData := mkDevice 0 [] [].
Definition new_seat : Seat := mkSeat f32_zero f32_zero 0 ∅ [] [] [].

(** ** DeviceData *)
Definition update_button_state (button_state : Z) (d : DeviceData) : option DeviceData :=
  if bool_decide (dev_buttons d = button_state) then None
  else Some (mkDevice button_state (dev_spots d) (scan_codes d)).

Definition spot_of (t : TouchPoint) : Spot :=
  mkSpot (Pt (f32_to_int (touch_x t)) (f32_to_int (touch_y t))) (touch_pressure t).
Definition spots_of (points : list TouchPoint) : list Spot :=
  spot_of <$> filter (λ t, touch_action_of t ≠ touch_up) points.
Definition update_device_spots (points : list TouchPoint) (d : DeviceData) : DeviceData :=
  mkDevice (dev_buttons d) (spots_of points) (scan_codes d).

Definition update_scan_codes (action : key_action) (scan_code : Z) (d : DeviceData) : DeviceData :=
  mkDevice (dev_buttons d) (dev_spots d)
    match action with
    | key_down => scan_codes d ++ [scan_code]
    | key_up => filter (λ c, c ≠ scan_code) (scan_codes d)
    | key_repeat => scan_codes d
    end.

Definition allowed_scan_code_action (action : key_action) (scan_code : Z) (d : DeviceData) : bool :=
  let found := bool_decide (scan_code ∈ scan_codes d) in
  (bool_decide (action = key_down) && negb found) || (negb (bool_decide (action = key_down)) && found).

(** ** SeatInputDeviceTracker *)
Definition update_states : M unit :=
  pmodify (λ s, set_buttons (foldl (λ acc item, Z.lor acc (dev_buttons item.2)) 0 (map_to_list (device_data s))) s).

Definition update_spots : M unit :=
  do* pmodify (λ s, set_spots (map_to_list (device_data s) ≫= λ dev, dev_spots dev.2) s) in
  let* s := pget in
  pemit (VisualizeTouches (spots s)).

Definition add_device (id : Z) : M unit :=
  do* pmodify (λ s,
    match device_data s !! id with
    | Some _ => s
    | None => set_devices (<[id := new_device]> (device_data s)) s
    end) in
  pemit (SeatAddDevice id).

Definition remove_device (id : Z) : M unit :=
  let* s := pget in
  match device_data s !! id with
  | None => pthrow (logic_error "Modifier for unknown device changed")
  | Some stored_data =>
      let state_update_needed := bool_decide (dev_buttons stored_data ≠ 0) in
      let spot_update_needed := bool_decide (dev_spots stored_data ≠ []) in
      do* pput (set_devices (delete id (device_data s)) s) in
      do* pemit (ClearKeymap id) in
      do* pwhen state_update_needed update_states in
      do* pwhen spot_update_needed update_spots in
      pemit (SeatRemoveDevice id)
  end.

Definition filter_input_event (e : MirEvent) (s : Seat) : bool :=
  match e with
  | KeyEvent device action scan_code =>
      match device_data s !! device with
      | None => true
      | Some d => negb (allowed_scan_code_action action scan_code d)
      end
  | _ => false
  end.

Definition confine_function (s : Seat) (p : Point) : Point := confine (confined_region s) (confine (region s) p).

Definition cursor_position (s : Seat) : Point := Pt (f32_to_int (cursor_x s)) (f32_to_int (cursor_y s)).

Definition confine_pointer : M unit :=
  pmodify (λ s,
    let old := cursor_position s in
    let confined := confine_function s old in
    set_cursor
      (if bool_decide (px confined ≠ px old) then f32_of_int (px confined) else cursor_x s)
      (if bool_decide (py confined ≠ py old) then f32_of_int (py confined) else cursor_y s) s).

Definition update_cursor (rel_x rel_y : float32) : M unit :=
  do* pmodify (λ s, set_cursor (f32_add (cursor_x s) rel_x) (f32_add (cursor_y s) rel_y) s) in
  do* confine_pointer in
  let* s := pget in
  pemit (CursorMovedTo (cursor_x s) (cursor_y s)).

Definition with_device (id : Z) (k : DeviceData → M unit) : M unit :=
  let* s := pget in
  match device_data s !! id with
  | None => pthrow (logic_error "Event of unknown device received")
  | Some d => k d
  end.
Definition store_device (id : Z) (d : DeviceData) : M unit :=
  pmodify (λ s, set_devices (<[id := d]> (device_data s)) s).

Definition update_seat_properties (e : MirEvent) : M unit :=
  match e with
  | KeyEvent id action scan_code => with_device id (λ d, store_device id (update_scan_codes action scan_code d))
  | TouchEvent id points =>
      with_device id (λ d, do* store_device id (update_device_spots points d) in update_spots)
  | PointerEvent id b rel_x rel_y _ _ =>
      with_device id (λ d,
        do* update_cursor rel_x rel_y in
        match update_button_state b d with
        | Some d' => do* store_device id d' in update_states
        | None => pret tt
        end)
  | OtherEvent _ => pret tt
  end.

Definition dispatch (event : MirEvent) : M unit :=
  let* s := pget in
  match event with
  | OtherEvent _ => pemit (Dispatch event)
  | _ =>
      if filter_input_event event s then pret tt
      else
        do* update_seat_properties event in
        do* pemit (MapEvent event) in
        let* s := pget in
        pemit (Dispatch
          match event with
          | PointerEvent id _ rel_x rel_y _ _ => PointerEvent id (buttons s) rel_x rel_y (cursor_x s) (cursor_y s)
          | _ => event
          end)
  end.

Definition set_confinement_regions (regions : Rectangles) : M unit :=
  do* pmodify (set_confined regions) in pemit (SeatSetConfinement regions).
Definition reset_confinement_regions : M unit :=
  do* pmodify (set_confined []) in pemit SeatResetConfinement.

Definition set_key_state (id : Z) (codes : list Z) : M unit :=
  do* pemit (MapperSetKeyState id codes) in
  do* pmodify (λ s,
    match device_data s !! id with
    | Some d => set_devices (<[id := mkDevice (dev_buttons d) (dev_spots d) codes]> (device_data s)) s
    | None => s
    end) in
  pemit (SeatSetKeyState id codes).

Definition set_pointer_state (id b : Z) : M unit :=
  do* pmodify (λ s,
    match device_data s !! id with
    | Some d =>
        match update_button_state b d with
        | Some d' => set_devices (<[id := d']> (device_data s)) s
        | None => s
        end
    | None => s
    end) in
  pemit (SeatSetPointerState id b).

Definition set_cursor_position (x y : float32) : M unit :=
  do* pmodify (set_cursor x y) in pemit (SeatSetCursorPosition x y).

(** What [create_device_state] reports, apart from the time and the modifiers. *)
Record DeviceStateEvent := mkDeviceState {
  ds_buttons : Z;
  ds_x : float32;
  ds_y : float32;
  ds_devices : list (Z * list Z * Z)
}.
Definition create_device_state (s : Seat) : DeviceStateEvent :=
  mkDeviceState (buttons s) (cursor_x s) (cursor_y s)
    ((λ item, (item.1, scan_codes item.2, dev_buttons item.2)) <$> map_to_list (device_data s)).

(** [DisplayInputRegion] *)
Definition set_input_rectangles (config : Rectangles) : M unit := pmodify (set_region config).
Definition region_bounding_rectangle (s : Seat) : Rectangle :=
  match region s with r :: _ => r | [] => rectangle0 end.

(** ** Aggregates over the devices *)
Definition all_buttons (m : gmap Z DeviceData) : Z :=
  foldl (λ acc item, Z.lor acc (dev_buttons item.2)) 0 (map_to_list m).
Definition all_spots (m : gmap Z DeviceData) : list Spot := map_to_list m ≫= λ dev, dev_spots dev.2.

Lemma foldl_lor_bit {A} (f : A → Z) l a n :
  0 ≤ n → Z.testbit (foldl (λ acc x, Z.lor acc (f x)) a l) n = true ↔
  Z.testbit a n = true ∨ ∃ x, x ∈ l ∧ Z.testbit (f x) n = true.
Proof.
  intros Hn. revert a. induction l as [|x l IH]; intros a; cbn.
  { split; [by left|]. intros [?|(x & Hx & _)]; [done|by apply elem_of_nil in Hx]. }
  rewrite IH, Z.lor_spec, orb_true_iff. split.
  - intros [[?|?]|(y & Hy & ?)]; [by left|right; exists x; by split; [left|]|right; exists y; by split; [right|]].
  - intros [?|(y & [->|Hy]%elem_of_cons & ?)]; [left; by left|left; by right|right; by exists y].
Qed.

(** A button is pressed when it is pressed on some device. *)
Lemma all_buttons_bit m n :
  0 ≤ n → Z.testbit (all_buttons m) n = true ↔ ∃ id d, m !! id = Some d ∧ Z.testbit (dev_buttons d) n = true.
Proof.
  intros Hn. unfold all_buttons. rewrite foldl_lor_bit by done. rewrite Z.bits_0. split.
  - intros [?|([id d] & Hx%elem_of_map_to_list & Ht)]; [done|]. by exists id, d.
  - intros (id & d & Hl & Ht). right. exists (id, d). by rewrite elem_of_map_to_list.
Qed.

Lemma all_buttons_ext m m' :
  (∀ id, dev_buttons <$> m !! id = dev_buttons <$> m' !! id) → all_buttons m = all_buttons m'.
Proof.
  intros Heq. apply Z.bits_inj'. intros n Hn. apply eq_true_iff_eq. rewrite !all_buttons_bit by done.
  split; intros (id & d & Hl & Ht).
  - specialize (Heq id). rewrite Hl in Heq. symmetry in Heq. apply fmap_Some in Heq as (d' & ? & ?).
    exists id, d'. by rewrite <- H0.
  - specialize (Heq id). rewrite Hl in Heq. apply fmap_Some in Heq as (d' & ? & ?). exists id, d'. by rewrite <- H0.
Qed.

Lemma all_buttons_extra m id d :
  m !! id = None → dev_buttons d = 0 → all_buttons (<[id := d]> m) = all_buttons m.
Proof.
  intros Hl Hd. apply Z.bits_inj'. intros n Hn. apply eq_true_iff_eq. rewrite !all_buttons_bit by done.
  split; intros (i & e & Hi & Ht).
  - apply lookup_insert_Some in Hi as [[<- <-]|[_ Hi]]; [by rewrite Hd, Z.bits_0 in Ht|by exists i, e].
  - exists i, e. split; [|done]. rewrite lookup_insert_ne; [done|]. intros ->. congruence.
Qed.
Lemma all_buttons_delete m id d :
  m !! id = Some d → dev_buttons d = 0 → all_buttons (delete id m) = all_buttons m.
Proof.
  intros Hl Hd. rewrite <- (insert_delete_id m id d Hl) at 2. symmetry. apply all_buttons_extra; [|done].
  apply lookup_delete_eq.
Qed.

Lemma all_spots_lookup m id d : m !! id = Some d → all_spots m ≡ₚ dev_spots d ++ all_spots (delete id m).
Proof. intros Hl. unfold all_spots. by rewrite <- (map_to_list_delete m id d Hl). Qed.
Lemma all_spots_fresh m id d : m !! id = None → all_spots (<[id := d]> m) ≡ₚ dev_spots d ++ all_spots m.
Proof. intros Hl. unfold all_spots. by rewrite (map_to_list_insert m id d Hl). Qed.
Lemma all_spots_same m id d d' :
  m !! id = Some d → dev_spots d' = dev_spots d → all_spots (<[id := d']> m) ≡ₚ all_spots m.
Proof.
  intros Hl Hd. rewrite (all_spots_lookup _ id d' (lookup_insert_eq _ _ _)), (all_spots_lookup m id d Hl), Hd.
  by rewrite delete_insert_eq.
Qed.

(** ** What a history of calls says

    The devices announced, the keys each one holds down (as the dispatched
    events and [set_key_state] have it), the touch spots last shown, and
    whether [set_pointer_state] was never used. *)
Record Hist := mkHist {
  h_known : gset Z;
  h_pressed : gset (Z * Z);
  h_shown : list Spot;
  h_clean : bool
}.
Definition hist0 : Hist := mkHist ∅ ∅ [] true.

Definition keys_of_others (id : Z) (P : gset (Z * Z)) : gset (Z * Z) := filter (λ k : Z * Z, k.1 ≠ id) P.

Definition hist_step (x : Hist) (o : seat_obs) : Hist :=
  match o with
  | SeatAddDevice id => mkHist ({[id]} ∪ h_known x) (h_pressed x) (h_shown x) (h_clean x)
  | SeatRemoveDevice id =>
      mkHist (h_known x ∖ {[id]}) (keys_of_others id (h_pressed x)) (h_shown x) (h_clean x)
  | SeatSetKeyState id codes =>
      if bool_decide (id ∈ h_known x)
      then mkHist (h_known x) (keys_of_others id (h_pressed x) ∪ list_to_set (pair id <$> codes)) (h_shown x) (h_clean x)
      else x
  | Dispatch (KeyEvent id key_down c) => mkHist (h_known x) ({[(id, c)]} ∪ h_pressed x) (h_shown x) (h_clean x)
  | Dispatch (KeyEvent id key_up c) => mkHist (h_known x) (h_pressed x ∖ {[(id, c)]}) (h_shown x) (h_clean x)
  | VisualizeTouches l => mkHist (h_known x) (h_pressed x) l (h_clean x)
  | SeatSetPointerState _ _ => mkHist (h_known x) (h_pressed x) (h_shown x) false
  | _ => x
  end.

(** Key events come from known devices; a key goes down only when it is up, and
    repeats or goes up only when it is down. *)
Fixpoint key_protocol (x : Hist) (h : list seat_obs) : Prop :=
  match h with
  | [] => True
  | o :: h' =>
      match o with
      | Dispatch (KeyEvent id key_down c) => id ∈ h_known x ∧ (id, c) ∉ h_pressed x
      | Dispatch (KeyEvent id _ c) => id ∈ h_known x ∧ (id, c) ∈ h_pressed x
      | _ => True
      end ∧ key_protocol (hist_step x o) h'
  end.

Lemma key_protocol_app x h t :
  key_protocol x (h ++ t) ↔ key_protocol x h ∧ key_protocol (foldl hist_step x h) t.
Proof. revert x. induction h as [|o h IH]; intros x; cbn; [tauto|]. rewrite IH. tauto. Qed.

Record seat_inv (s : Seat) (x : Hist) : Prop := {
  iv_known id : id ∈ h_known x ↔ is_Some (device_data s !! id);
  iv_pressed id c : (id, c) ∈ h_pressed x ↔ ∃ d, device_data s !! id = Some d ∧ c ∈ scan_codes d;
  iv_spots : spots s ≡ₚ all_spots (device_data s);
  iv_shown : h_shown x = spots s;
  iv_buttons : h_clean x = true → buttons s = all_buttons (device_data s)
}.

Definition seat_effect (s : Seat) (x : Hist) (s' : Seat) (t : list seat_obs) : Prop :=
  seat_inv s' (foldl hist_step x t) ∧ key_protocol x t.

Lemma pair_elem_codes (id : Z) (codes : list Z) (k : Z * Z) :
  k ∈ (list_to_set (pair id <$> codes) : gset (Z * Z)) ↔ k.1 = id ∧ k.2 ∈ codes.
Proof.
  rewrite elem_of_list_to_set, list_elem_of_fmap. destruct k as [i c]. cbn. split.
  - intros (c' & [= -> ->] & ?). done.
  - intros [-> ?]. by exists c.
Qed.
Lemma elem_of_others (id : Z) (P : gset (Z * Z)) (i c : Z) : (i, c) ∈ keys_of_others id P ↔ (i, c) ∈ P ∧ i ≠ id.
Proof. unfold keys_of_others. rewrite elem_of_filter. cbn. tauto. Qed.

(** A device's record is replaced by one with the same keys and spots, and the
    buttons are brought up to date if they changed. *)
Lemma add_device_effect s x id :
  seat_inv s x → ends (add_device id s) (seat_effect s x).
Proof.
  intros [Hk Hp Hs Hv Hb]. unfold add_device. rewrite pbind_modify. split; [|done]. cbn [trace pemit foldl hist_step post].
  destruct (device_data s !! id) as [d|] eqn:Hl.
  - constructor; cbn; [|done..]. intros i. rewrite elem_of_union, elem_of_singleton, Hk.
    split; [|by right]. intros [->|?]; [by rewrite Hl|done].
  - constructor; cbn; [| | |done|].
    + intros i. rewrite elem_of_union, elem_of_singleton, Hk. destruct (decide (i = id)) as [->|Hne].
      * rewrite lookup_insert_eq. split; [by eexists|by left].
      * rewrite lookup_insert_ne by done. split; [by intros [?|?]|by right].
    + intros i c. rewrite Hp. destruct (decide (i = id)) as [->|Hne].
      * rewrite lookup_insert_eq, Hl. split; [by intros (? & ? & _)|]. by intros (? & [= <-] & ?%elem_of_nil).
      * by rewrite lookup_insert_ne.
    + rewrite all_spots_fresh by done. by rewrite Hs.
    + intros Hc. rewrite all_buttons_extra by done. by apply Hb.
Qed.

Lemma remove_device_effect s x id :
  seat_inv s x → ends (remove_device id s) (seat_effect s x).
Proof.
  intros Hinv. pose proof Hinv as [Hk Hp Hs Hv Hb]. unfold remove_device. rewrite pbind_get.
  destruct (device_data s !! id) as [d|] eqn:Hl; [|by split]. cbn zeta. rewrite pbind_put.
  set (s1 := set_devices (delete id (device_data s)) s).
  set (s2 := if bool_decide (dev_buttons d ≠ 0) then set_buttons (all_buttons (device_data s1)) s1 else s1).
  set (spot_needed := bool_decide (dev_spots d ≠ [])).
  set (s3 := if spot_needed then set_spots (all_spots (device_data s1)) s2 else s2).
  assert (device_data s2 = delete id (device_data s) ∧ spots s2 = spots s ∧
    (h_clean x = true → buttons s2 = all_buttons (delete id (device_data s)))) as (E1 & E2 & E3).
  { unfold s2. case_bool_decide as Hd; [by split_and!|]. split; [done|]. split; [done|]. intros Hc.
    change (buttons s1) with (buttons s). rewrite Hb by done. symmetry.
    eapply all_buttons_delete; [done|]. done. }
  eapply (ends_bind _ _ _ tt s1 [ClearKeymap id]); [done|]. cbn [app].
  apply (ends_bind _ _ _ tt s2 []); [unfold s2; by case_bool_decide|].
  apply (ends_bind _ _ _ tt s3 (if spot_needed then [VisualizeTouches (spots s3)] else [])).
  { unfold s3. destruct spot_needed; [|done]. unfold update_spots. cbn [pwhen]. rewrite pbind_modify, pbind_get.
    change (map_to_list (device_data s2) ≫= _) with (all_spots (device_data s2)). by rewrite E1. }
  change (seat_effect s x s3
    (ClearKeymap id :: (if spot_needed then [VisualizeTouches (spots s3)] else []) ++ [SeatRemoveDevice id])).
  unfold seat_effect.
  assert (device_data s3 = delete id (device_data s) ∧ buttons s3 = buttons s2 ∧
    spots s3 ≡ₚ all_spots (delete id (device_data s)) ∧ (spot_needed = false → spots s3 = spots s)) as (F1 & F2 & F3 & F4).
  { unfold s3, spot_needed. case_bool_decide as Hd; [by split_and!|]. split; [done|]. split; [done|]. split; [|done].
    change (spots s2 ≡ₚ all_spots (delete id (device_data s))). rewrite E2, Hs, (all_spots_lookup _ _ _ Hl). by rewrite Hd. }
  clearbody s3 s2. clearbody spot_needed.
  split; [|by destruct spot_needed].
  assert (foldl hist_step x (ClearKeymap id :: (if spot_needed then [VisualizeTouches (spots s3)] else []) ++ [SeatRemoveDevice id])
    = mkHist (h_known x ∖ {[id]}) (keys_of_others id (h_pressed x)) (spots s3) (h_clean x)) as ->.
  { destruct spot_needed; cbn; [done|]. rewrite F4 by done. by rewrite Hv. }
  constructor; cbn; rewrite ?F1; [| |done|done|].
  - intros i. rewrite elem_of_difference, elem_of_singleton, Hk. destruct (decide (i = id)) as [->|Hne].
    + rewrite lookup_delete_eq. split; [by intros [_ ?]|by intros [? ?]].
    + rewrite lookup_delete_ne by done. tauto.
  - intros i c. rewrite elem_of_others, Hp. destruct (decide (i = id)) as [->|Hne].
    + rewrite lookup_delete_eq. split; [by intros [_ ?]|by intros (? & ? & _)].
    + rewrite lookup_delete_ne by done. tauto.
  - intros Hc. rewrite F2. by apply E3.
Qed.

(** *** Event dispatch, event by event *)
Definition moved (rel_x rel_y : float32) (s : Seat) : Seat := post (update_cursor rel_x rel_y s).

Lemma seat_key_run s id a c :
  dispatch (KeyEvent id a c) s =
    match device_data s !! id with
    | Some d =>
        if allowed_scan_code_action a c d
        then Run (Ret tt) (set_devices (<[id := update_scan_codes a c d]> (device_data s)) s)
               [MapEvent (KeyEvent id a c); Dispatch (KeyEvent id a c)]
        else Run (Ret tt) s []
    | None => Run (Ret tt) s []
    end.
Proof.
  unfold dispatch. rewrite pbind_get. unfold filter_input_event, update_seat_properties, with_device.
  destruct (device_data s !! id) as [d|] eqn:Hl; [|done]. destruct (allowed_scan_code_action a c d); [|done].
  cbn [negb]. erewrite pbind_run; [|rewrite pbind_get, Hl; reflexivity|reflexivity]. done.
Qed.

Lemma seat_touch_run s id points :
  dispatch (TouchEvent id points) s =
    match device_data s !! id with
    | Some d =>
        let m := <[id := update_device_spots points d]> (device_data s) in
        Run (Ret tt) (set_spots (all_spots m) (set_devices m s))
          [VisualizeTouches (all_spots m); MapEvent (TouchEvent id points); Dispatch (TouchEvent id points)]
    | None => Run (Throw (logic_error "Event of unknown device received")) s []
    end.
Proof.
  unfold dispatch. rewrite pbind_get. unfold filter_input_event, update_seat_properties, with_device.
  destruct (device_data s !! id) as [d|] eqn:Hl.
  - erewrite pbind_run; [|rewrite pbind_get, Hl; reflexivity|reflexivity]. done.
  - erewrite pbind_throw; [done|]. rewrite pbind_get, Hl. reflexivity.
Qed.

Definition button_change (id b : Z) (d : DeviceData) (s : Seat) : Seat :=
  match update_button_state b d with
  | Some d' =>
      let m := <[id := d']> (device_data s) in set_buttons (all_buttons m) (set_devices m s)
  | None => s
  end.

Lemma seat_pointer_run s id b rx ry x y :
  dispatch (PointerEvent id b rx ry x y) s =
    match device_data s !! id with
    | Some d =>
        let s' := button_change id b d (moved rx ry s) in
        Run (Ret tt) s'
          [CursorMovedTo (cursor_x s') (cursor_y s'); MapEvent (PointerEvent id b rx ry x y);
           Dispatch (PointerEvent id (buttons s') rx ry (cursor_x s') (cursor_y s'))]
    | None => Run (Throw (logic_error "Event of unknown device received")) s []
    end.
Proof.
  unfold dispatch. rewrite pbind_get. unfold filter_input_event, update_seat_properties, with_device.
  destruct (device_data s !! id) as [d|] eqn:Hl.
  - unfold button_change. destruct (update_button_state b d) as [d'|] eqn:Hd; cbn zeta.
    + erewrite pbind_run; [|rewrite pbind_get, Hl, Hd; reflexivity|reflexivity]. done.
    + erewrite pbind_run; [|rewrite pbind_get, Hl, Hd; reflexivity|reflexivity]. done.
  - erewrite pbind_throw; [done|]. rewrite pbind_get, Hl. reflexivity.
Qed.

Lemma moved_devices rx ry s :
  device_data (moved rx ry s) = device_data s ∧ spots (moved rx ry s) = spots s ∧ buttons (moved rx ry s) = buttons s.
Proof. done. Qed.

(** *** Replacing a device's record *)
Lemma known_insert (K : gset Z) (m : gmap Z DeviceData) id d d' :
  m !! id = Some d → (∀ i, i ∈ K ↔ is_Some (m !! i)) → ∀ i, i ∈ K ↔ is_Some (<[id := d']> m !! i).
Proof.
  intros Hl HK i. rewrite lookup_insert_is_Some', HK. split; [by right|]. intros [->|?]; [by rewrite Hl|done].
Qed.
Lemma pressed_insert (P : gset (Z * Z)) (m : gmap Z DeviceData) id d d' :
  m !! id = Some d → scan_codes d' = scan_codes d →
  (∀ i c, (i, c) ∈ P ↔ ∃ e, m !! i = Some e ∧ c ∈ scan_codes e) →
  ∀ i c, (i, c) ∈ P ↔ ∃ e, <[id := d']> m !! i = Some e ∧ c ∈ scan_codes e.
Proof.
  intros Hl Hd HP i c. rewrite HP. destruct (decide (i = id)) as [->|Hne]; [|by rewrite lookup_insert_ne].
  rewrite lookup_insert_eq, Hl. split; intros (? & [= <-] & ?); eexists; (split; [done|]); congruence.
Qed.
Lemma all_buttons_same (m : gmap Z DeviceData) id d d' :
  m !! id = Some d → dev_buttons d' = dev_buttons d → all_buttons (<[id := d']> m) = all_buttons m.
Proof.
  intros Hl Hd. apply all_buttons_ext. intros i. destruct (decide (i = id)) as [->|Hne].
  - rewrite lookup_insert_eq, Hl. cbn. by rewrite Hd.
  - by rewrite lookup_insert_ne.
Qed.

(** *** What each event does to the history *)
Lemma pressed_by_key a s x id d c :
  (∀ i e, (i, e) ∈ h_pressed x ↔ ∃ d, device_data s !! i = Some d ∧ e ∈ scan_codes d) →
  device_data s !! id = Some d →
  ∀ i e, (i, e) ∈ h_pressed (hist_step x (Dispatch (KeyEvent id a c))) ↔
    ∃ d', <[id := update_scan_codes a c d]> (device_data s) !! i = Some d' ∧ e ∈ scan_codes d'.
Proof.
  intros Hp Hl i e. destruct (decide (i = id)) as [->|Hne].
  - rewrite lookup_insert_eq. transitivity (e ∈ scan_codes (update_scan_codes a c d)).
    2: { split; [by eexists|by intros (? & [= <-] & ?)]. }
    assert ((id, e) ∈ h_pressed x ↔ e ∈ scan_codes d) as He.
    { rewrite Hp, Hl. split; [by intros (? & [= <-] & ?)|by exists d]. }
    destruct a; cbn [hist_step h_pressed scan_codes update_scan_codes].
    + rewrite elem_of_difference, elem_of_singleton, He, list_elem_of_filter.
      split; intros [H1 H2]; split; congruence.
    + rewrite elem_of_union, elem_of_singleton, He, elem_of_app, list_elem_of_singleton.
      split; (intros [H1|H1]; [right|left]; congruence).
    + done.
  - rewrite lookup_insert_ne by done. rewrite <- Hp. destruct a; cbn [hist_step h_pressed].
    + rewrite elem_of_difference, elem_of_singleton. split; [by intros [? _]|intros ?; split; congruence].
    + rewrite elem_of_union, elem_of_singleton. split; [intros [?|?]; [congruence|done]|by right].
    + done.
Qed.

Lemma seat_key_effect s x id a c :
  seat_inv s x → ends (dispatch (KeyEvent id a c) s) (seat_effect s x).
Proof.
  intros Hinv. pose proof Hinv as [Hk Hp Hs Hv Hb]. rewrite seat_key_run.
  destruct (device_data s !! id) as [d|] eqn:Hl; [|by split].
  destruct (allowed_scan_code_action a c d) eqn:Ha; [|by split].
  assert (id ∈ h_known x) as Hid by (rewrite Hk, Hl; by eexists).
  assert ((id, c) ∈ h_pressed x ↔ c ∈ scan_codes d) as Hc.
  { rewrite Hp, Hl. split; [by intros (? & [= <-] & ?)|by exists d]. }
  pose proof (pressed_by_key a s x id d c Hp Hl) as Hp'.
  assert (h_known (hist_step x (Dispatch (KeyEvent id a c))) = h_known x) as Hkn by by destruct a.
  split.
  - change (foldl hist_step x _) with (hist_step x (Dispatch (KeyEvent id a c))). constructor; [|exact Hp'|..].
    + rewrite Hkn. by eapply known_insert.
    + cbn [post spots device_data set_devices]. rewrite (all_spots_same _ _ d) by (done || by destruct a). done.
    + by destruct a.
    + intros Hc'. cbn [post buttons device_data set_devices].
      rewrite (all_buttons_same _ id d) by (done || by destruct a). apply Hb. by destruct a.
  - cbn [trace key_protocol hist_step]. unfold allowed_scan_code_action in Ha.
    destruct a; (split_and!; [exact I|exact Hid| |exact I]).
    + apply Hc. exact (bool_decide_eq_true_1 _ Ha).
    + rewrite Hc. cbn in Ha. rewrite orb_false_r in Ha. exact (bool_decide_eq_false_1 _ (proj1 (negb_true_iff _) Ha)).
    + apply Hc. exact (bool_decide_eq_true_1 _ Ha).
Qed.

Lemma seat_touch_effect s x id points :
  seat_inv s x → ends (dispatch (TouchEvent id points) s) (seat_effect s x).
Proof.
  intros Hinv. pose proof Hinv as [Hk Hp Hs Hv Hb]. rewrite seat_touch_run.
  destruct (device_data s !! id) as [d|] eqn:Hl; [|by split]. split; [|done].
  constructor; cbn [foldl hist_step h_known h_pressed h_shown h_clean post trace device_data spots set_spots set_devices buttons].
  - by eapply known_insert.
  - by eapply pressed_insert.
  - done.
  - done.
  - intros Hc. by rewrite Hb, (all_buttons_same _ id d).
Qed.

Lemma button_change_inv s x id b d :
  seat_inv s x → device_data s !! id = Some d → seat_inv (button_change id b d s) x.
Proof.
  intros Hinv Hl. unfold button_change, update_button_state. case_bool_decide; [done|]. cbn zeta.
  destruct Hinv as [Hk Hp Hs Hv Hb].
  constructor; cbn [device_data spots set_buttons set_devices buttons].
  - by eapply known_insert.
  - by eapply pressed_insert.
  - by rewrite (all_spots_same _ _ d).
  - done.
  - done.
Qed.

Lemma seat_pointer_effect s x id b rx ry px py :
  seat_inv s x → ends (dispatch (PointerEvent id b rx ry px py) s) (seat_effect s x).
Proof.
  intros Hinv. rewrite seat_pointer_run. destruct (device_data s !! id) as [d|] eqn:Hl; [|by split].
  split; [|done]. cbn [foldl hist_step post trace]. apply button_change_inv; [|done].
  destruct Hinv. by constructor.
Qed.

Lemma set_key_state_effect s x id codes :
  seat_inv s x → ends (set_key_state id codes s) (seat_effect s x).
Proof.
  intros Hinv. pose proof Hinv as [Hk Hp Hs Hv Hb]. split; [|done].
  unfold set_key_state, pbind, pemit, pmodify. cbn [trace value post app foldl hist_step].
  destruct (device_data s !! id) as [d|] eqn:Hl.
  - rewrite bool_decide_true by (rewrite Hk, Hl; by eexists).
    constructor; cbn [h_known h_pressed h_shown h_clean device_data spots set_devices buttons].
    + by eapply known_insert.
    + intros i c. rewrite elem_of_union, elem_of_others, pair_elem_codes, Hp. cbn [fst snd].
      destruct (decide (i = id)) as [->|Hne].
      * rewrite lookup_insert_eq. split; [intros [[_ ?]|[_ ?]]; [done|by eexists]|intros (? & [= <-] & ?); by right].
      * rewrite lookup_insert_ne by done. split; [intros [[? _]|[? _]]; done|by left].
    + by rewrite (all_spots_same _ _ d).
    + done.
    + intros Hc. by rewrite Hb, (all_buttons_same _ id d).
  - rewrite bool_decide_false; [done|]. rewrite Hk, Hl. by intros [??].
Qed.

Lemma set_pointer_state_effect s x id b :
  seat_inv s x → ends (set_pointer_state id b s) (seat_effect s x).
Proof.
  intros [Hk Hp Hs Hv Hb]. split; [|done].
  unfold set_pointer_state, pbind, pemit, pmodify. cbn [trace value post app foldl hist_step].
  destruct (device_data s !! id) as [d|] eqn:Hl; [|by constructor].
  unfold update_button_state. case_bool_decide; [by constructor|].
  constructor; cbn [h_known h_pressed h_shown h_clean device_data spots set_devices buttons]; [| | |done|done].
  - by eapply known_insert.
  - by eapply pressed_insert.
  - by rewrite (all_spots_same _ _ d).
Qed.

(** *** Where the cursor goes *)
Definition subpixel_exact (p : Point) : Prop := - 2 ^ 24 < px p < 2 ^ 24 ∧ - 2 ^ 24 < py p < 2 ^ 24.
#[export] Instance subpixel_exact_dec p : Decision (subpixel_exact p).
Proof. unfold subpixel_exact. apply _. Defined.

Definition raw_position (rel_x rel_y : float32) (s : Seat) : Point :=
  Pt (f32_to_int (f32_add (cursor_x s) rel_x)) (f32_to_int (f32_add (cursor_y s) rel_y)).

Lemma moved_eq rx ry s :
  moved rx ry s =
    let aim := raw_position rx ry s in
    let q := confine_function s aim in
    set_cursor
      (if bool_decide (px q ≠ px aim) then f32_of_int (px q) else f32_add (cursor_x s) rx)
      (if bool_decide (py q ≠ py aim) then f32_of_int (py q) else f32_add (cursor_y s) ry) s.
Proof. done. Qed.

Lemma moved_position rx ry s :
  subpixel_exact (confine_function s (raw_position rx ry s)) →
  cursor_position (moved rx ry s) = confine_function s (raw_position rx ry s).
Proof.
  intros [Hx Hy]. rewrite moved_eq. cbn zeta. set (q := confine_function s (raw_position rx ry s)) in *.
  assert (∀ (a b : Z) f, f32_to_int f = b → - 2 ^ 24 < a < 2 ^ 24 →
    f32_to_int (if bool_decide (a ≠ b) then f32_of_int a else f) = a) as Hcase.
  { intros a b f Hf Ha. case_bool_decide as Hd; [by apply f32_int_roundtrip|]. lia. }
  unfold cursor_position. cbn [cursor_x cursor_y set_cursor].
  destruct q as [qx qy]. cbn [px py] in *. f_equal; by apply Hcase.
Qed.

Lemma moved_inside rx ry s :
  confine_function s (raw_position rx ry s) = raw_position rx ry s →
  cursor_x (moved rx ry s) = f32_add (cursor_x s) rx ∧ cursor_y (moved rx ry s) = f32_add (cursor_y s) ry.
Proof.
  intros Hin. rewrite moved_eq. cbn zeta. rewrite Hin. by rewrite !bool_decide_false by (intros Hn; by apply Hn).
Qed.

(** ** The tracker as a machine *)
Inductive seat_op :=
  | OpAddDevice (id : Z)
  | OpRemoveDevice (id : Z)
  | OpDispatch (e : MirEvent)
  | OpSetConfinement (r : Rectangles)
  | OpResetConfinement
  | OpSetKeyState (id : Z) (codes : list Z)
  | OpSetPointerState (id b : Z)
  | OpSetCursorPosition (x y : float32)
  | OpSetInputRectangles (r : Rectangles).

Definition seat_exec (op : seat_op) : M unit :=
  match op with
  | OpAddDevice id => add_device id
  | OpRemoveDevice id => remove_device id
  | OpDispatch e => dispatch e
  | OpSetConfinement r => set_confinement_regions r
  | OpResetConfinement => reset_confinement_regions
  | OpSetKeyState id codes => set_key_state id codes
  | OpSetPointerState id b => set_pointer_state id b
  | OpSetCursorPosition x y => set_cursor_position x y
  | OpSetInputRectangles r => set_input_rectangles r
  end.

Definition seat_machine : machine := {|
  m_state := Seat;
  m_op := seat_op;
  m_obs := seat_obs;
  m_init s := s = new_seat;
  m_allowed _ _ _ := true;
  m_exec := seat_exec
|}.

Lemma seat_inv_reposition s x s' o :
  device_data s' = device_data s → spots s' = spots s → buttons s' = buttons s → hist_step x o = x →
  seat_inv s x → seat_inv s' (hist_step x o).
Proof. intros E1 E2 E3 -> []. constructor; by rewrite ?E1, ?E2, ?E3. Qed.

Lemma seat_op_effect op s x : seat_inv s x → ends (seat_exec op s) (seat_effect s x).
Proof.
  intros Hinv. destruct op as [id|id|e|r| |id codes|id b|px py|r]; cbn [seat_exec].
  - by apply add_device_effect.
  - by apply remove_device_effect.
  - destruct e.
    + by apply seat_key_effect.
    + by apply seat_touch_effect.
    + by apply seat_pointer_effect.
    + by split.
  - split; [|done]. by apply (seat_inv_reposition s).
  - split; [|done]. by apply (seat_inv_reposition s).
  - by apply set_key_state_effect.
  - by apply set_pointer_state_effect.
  - split; [|done]. by apply (seat_inv_reposition s).
  - split; [|done]. by apply (seat_inv_reposition s _ _ (ClearKeymap 0)).
Qed.

Lemma seat_reachable_inv s h :
  reachable seat_machine s h → seat_inv s (foldl hist_step hist0 h) ∧ key_protocol hist0 h.
Proof.
  revert s h. apply (reachable_invariant seat_machine).
  - intros s ->. split; [|done]. constructor; cbn; try done.
    + intros id. rewrite lookup_empty. split; [by intros ?%elem_of_empty|by intros [? ?]].
    + intros id c. split; [by intros ?%elem_of_empty|]. intros (d & Hd & _). by rewrite lookup_empty in Hd.
  - intros s h op _ [Hinv Hproto] _. destruct (seat_op_effect op s _ Hinv) as [H1 H2].
    cbn [m_exec seat_machine]. rewrite foldl_app. split; [done|]. by apply key_protocol_app.
Qed.

(** ** Properties *)

Definition seat_example_ops : list seat_op :=
  [OpSetInputRectangles [Rect (Pt 0 0) (Sz 1024 768)];
   OpAddDevice 1; OpAddDevice 2;
   OpDispatch (KeyEvent 1 key_down 30);
   OpDispatch (KeyEvent 1 key_down 30);
   OpDispatch (KeyEvent 3 key_down 31);
   OpDispatch (TouchEvent 2 [mkTouch touch_down (f32_of_int 5) (f32_of_int 6) f32_one]);
   OpDispatch (PointerEvent 1 1 (f32_of_int 10) (f32_of_int (-4)) f32_zero f32_zero);
   OpSetKeyState 1 [31; 32];
   OpDispatch (KeyEvent 1 key_up 31);
   OpAddDevice 3; OpDispatch (PointerEvent 3 4 f32_zero f32_zero f32_zero f32_zero);
   OpRemoveDevice 3].
Definition seat_example_run : Seat * list seat_obs :=
  default (new_seat, []) (run_ops seat_machine seat_example_ops new_seat []).
Lemma seat_example_reachable : reachable seat_machine seat_example_run.1 seat_example_run.2.
Proof. apply (run_ops_from_init seat_machine seat_example_ops new_seat); [done|]. by vm_compute. Qed.

(** C11. Whatever the callers do, the key events the seat lets through obey the
    key protocol: each comes from an announced device, a key goes down only
    when that device holds it up, repeats or goes up only when it is down, and
    a device that left or was resynchronised by [set_key_state] starts from
    the state that call says; the pressed keys the tracker stores for a device
    are exactly the ones its visible history leaves down. *)
Theorem seat_key_protocol s h :
  reachable seat_machine s h →
  key_protocol hist0 h ∧
  ∀ id c, (id, c) ∈ h_pressed (foldl hist_step hist0 h) ↔
    ∃ d, device_data s !! id = Some d ∧ c ∈ scan_codes d.
Proof. intros Hr. destruct (seat_reachable_inv s h Hr) as [[]]. done. Qed.

Lemma seat_key_protocol_witness :
  key_protocol hist0 seat_example_run.2 ∧ length seat_example_run.2 = 20%nat.
Proof. split; [exact (proj1 (seat_key_protocol _ _ seat_example_reachable))|by vm_compute]. Defined.

(** The seat's aggregates are those of its devices: the touch spots are all
    the devices' spots together, whatever left or joined, and are what the
    visualizer was last shown; and as long as [set_pointer_state] was not
    used, a button is reported pressed exactly when some device holds it, so
    the pointer events passed on carry that union. *)
Theorem seat_aggregates s h :
  reachable seat_machine s h →
  spots s ≡ₚ all_spots (device_data s) ∧
  h_shown (foldl hist_step hist0 h) = spots s ∧
  (h_clean (foldl hist_step hist0 h) = true →
    (∀ n, 0 ≤ n → Z.testbit (buttons s) n = true ↔
      ∃ id d, device_data s !! id = Some d ∧ Z.testbit (dev_buttons d) n = true) ∧
    ∀ id b rx ry x y, is_Some (device_data s !! id) →
      ∃ d cx cy, dev_buttons d = b ∧
        last (trace (dispatch (PointerEvent id b rx ry x y) s)) =
          Some (Dispatch (PointerEvent id (all_buttons (<[id := d]> (device_data s))) rx ry cx cy))).
Proof.
  intros Hr. destruct (seat_reachable_inv s h Hr) as [[_ _ Hs Hv Hb] _]. split; [done|]. split; [done|].
  intros Hc. specialize (Hb Hc). split; [intros n Hn; rewrite Hb; by apply all_buttons_bit|].
  intros id b rx ry x y [d Hl]. rewrite seat_pointer_run, Hl. cbn zeta.
  set (s' := button_change _ _ _ _). exists (mkDevice b (dev_spots d) (scan_codes d)), (cursor_x s'), (cursor_y s').
  split; [done|]. cbn [trace last]. do 3 f_equal. subst s'. unfold button_change, update_button_state.
  case_bool_decide as Hd; [|done]. change (buttons s = all_buttons (<[id := mkDevice b (dev_spots d) (scan_codes d)]> (device_data s))).
  rewrite Hb. symmetry. by eapply all_buttons_same.
Qed.

Lemma seat_aggregates_witness :
  spots seat_example_run.1 ≡ₚ all_spots (device_data seat_example_run.1) ∧
  h_clean (foldl hist_step hist0 seat_example_run.2) = true ∧ buttons seat_example_run.1 = 1.
Proof.
  split; [exact (proj1 (seat_aggregates _ _ seat_example_reachable))|]. by vm_compute.
Defined.

(** After a pointer event from a known device the cursor is at the nearest
    point of the outputs to where the motion aimed, and then at the nearest
    point of the confinement region to that; the listener and the dispatched
    event are told that position.  A motion that stays inside keeps its
    fraction of a pixel. *)
Theorem seat_cursor_confined s id d b rx ry x y :
  device_data s !! id = Some d →
  Forall rect_ok (region s) → Forall rect_ok (confined_region s) →
  let aim := raw_position rx ry s in
  point_ok aim → point_ok (confine (region s) aim) → subpixel_exact (confine_function s aim) →
  let r := dispatch (PointerEvent id b rx ry x y) s in
  ∃ mid,
    confines (region s) aim mid ∧ confines (confined_region s) mid (cursor_position (post r)) ∧
    (cursor_position (post r) = aim →
      cursor_x (post r) = f32_add (cursor_x s) rx ∧ cursor_y (post r) = f32_add (cursor_y s) ry) ∧
    head (trace r) = Some (CursorMovedTo (cursor_x (post r)) (cursor_y (post r))) ∧
    last (trace r) =
      Some (Dispatch (PointerEvent id (buttons (post r)) rx ry (cursor_x (post r)) (cursor_y (post r)))).
Proof.
  intros Hl Hr Hc aim Ha Hm He r. exists (confine (region s) aim).
  assert (cursor_x (post r) = cursor_x (moved rx ry s) ∧ cursor_y (post r) = cursor_y (moved rx ry s) ∧
    head (trace r) = Some (CursorMovedTo (cursor_x (post r)) (cursor_y (post r))) ∧
    last (trace r) =
      Some (Dispatch (PointerEvent id (buttons (post r)) rx ry (cursor_x (post r)) (cursor_y (post r)))))
    as (Ex & Ey & Eh & El).
  { subst r. rewrite seat_pointer_run, Hl. cbn zeta. cbn [post trace head last].
    unfold button_change. by destruct (update_button_state b d). }
  assert (cursor_position (post r) = confine_function s aim) as Ep.
  { etransitivity; [|exact (moved_position rx ry s He)]. unfold cursor_position. by rewrite Ex, Ey. }
  split; [by apply confine_spec|]. rewrite Ep. split; [by apply confine_spec|].
  split; [|done]. intros Hin. rewrite Ex, Ey. by apply moved_inside.
Qed.

Lemma seat_cursor_confined_witness :
  ∃ mid, confines [Rect (Pt 0 0) (Sz 1024 768)] (Pt 10 (-4)) mid ∧
    confines [] mid (cursor_position (post
      (dispatch (PointerEvent 1 0 (f32_of_int 0) (f32_of_int (-4)) f32_zero f32_zero) seat_example_run.1))).
Proof.
  destruct (seat_cursor_confined seat_example_run.1 1 (mkDevice 1 [] [32]) 0
    (f32_of_int 0) (f32_of_int (-4)) f32_zero f32_zero) as (mid & H1 & H2 & _).
  - by vm_compute.
  - apply (bool_decide_unpack (Forall rect_ok _)). vm_compute. exact I.
  - apply (bool_decide_unpack (Forall rect_ok _)). vm_compute. exact I.
  - apply (bool_decide_unpack (point_ok _)). vm_compute. exact I.
  - apply (bool_decide_unpack (point_ok _)). vm_compute. exact I.
  - apply (bool_decide_unpack (subpixel_exact _)). vm_compute. exact I.
  - exists mid. split; [exact H1|exact H2].
Defined.
