(* ===== verification/Validator.v ===== *)
(** The touch stream validator (src/server/input/validator.cpp): between the
    input devices and the dispatcher it adds the touch events a broken device
    left out. *)

From S2P Require Import Prelude Geometry Float32 Events.

(** ** Contacts *)
Definition with_action (a : touch_action) (c : ContactState) : ContactState :=
  mkContact (touch_id c) a (tooltype c) (x c) (y c) (pressure c) (touch_major c) (touch_minor c) (orientation c).

Definition get_contact (e : MirTouchEvent) (i : Z) : outcome ContactState :=
  let? id := mir_touch_event_id e i in
  let? a := mir_touch_event_action e i in
  let? tool := mir_touch_event_tooltype e i in
  let? vx := mir_touch_event_axis_value e i axis_x in
  let? vy := mir_touch_event_axis_value e i axis_y in
  let? p := mir_touch_event_axis_value e i axis_pressure in
  let? major := mir_touch_event_axis_value e i axis_touch_major in
  let? minor := mir_touch_event_axis_value e i axis_touch_minor in
  Ret (mkContact id a tool vx vy p major minor f32_zero).
Definition get_contact_state (e : MirTouchEvent) : outcome (list ContactState) :=
  omapM (get_contact e) (indices (count e)).

(** Changing or erasing what [find_if] found. *)
Fixpoint update_first (p : ContactState → bool) (f : ContactState → ContactState) (l : list ContactState) : list ContactState :=
  match l with
  | [] => []
  | c :: l' => if p c then f c :: l' else c :: update_first p f l'
  end.
Fixpoint erase_found (p : ContactState → bool) (l : list ContactState) : list ContactState :=
  match l with
  | [] => []
  | c :: l' => if p c then l' else c :: erase_found p l'
  end.

Definition has_id (touch_id_ : Z) (item : ContactState) : bool := bool_decide (touch_id item = touch_id_).
Definition touch_set (l : list ContactState) : gset Z := list_to_set (touch_id <$> l).

(** ** Validator *)

(** [last_event_by_device]; the calls are the events dispatched. *)
Definition Validator : Type := gmap Z (list ContactState).
#[local] Abbreviation M := (prog Validator MirEvent).
(** The part that works on one device's last state and hands out contacts. *)
#[local] Abbreviation L := (prog (list ContactState) (list ContactState)).

Definition no_contact : exn := undefined_behaviour "past-the-end iterator".

Definition release_missing (touch_id_ : Z) : L unit :=
  let* last_state := pget in
  match find_if (has_id touch_id_) last_state with
  | None => pthrow no_contact
  | Some _ =>
      do* pput (update_first (has_id touch_id_) (with_action touch_up) last_state) in
      let* last_state := pget in
      do* pemit last_state in
      pmodify (erase_found (has_id touch_id_))
  end.

Definition press_missing (new_event : list ContactState) (touch_id_ : Z) : L unit :=
  let* last_state := pget in
  match find_if (has_id touch_id_) new_event with
  | None => pthrow no_contact
  | Some pos =>
      do* pput (last_state ++ [with_action touch_down pos]) in
      do* pemit (last_state ++ [with_action touch_down pos]) in
      pput (last_state ++ [with_action touch_change pos])
  end.

Definition ensure_stream_validity_locked (new_event : list ContactState) : L unit :=
  let* last_state := pget in
  let expected := touch_set last_state in
  let in_next_event := touch_set new_event in
  let changed_in_next_event := touch_set (filter (λ c, action c ≠ touch_down) new_event) in
  let missing_up := ascending (expected ∖ in_next_event) in
  let missing_down := ascending (changed_in_next_event ∖ expected) in
  do* pfor missing_up release_missing in
  pfor missing_down (press_missing new_event).

(** What the next event is measured against: the contacts that stay, a press
    being over once it was dispatched. *)
Definition remaining (l : list ContactState) : list ContactState :=
  (λ item, if bool_decide (action item = touch_down) then with_action touch_change item else item) <$>
    filter (λ item, action item ≠ touch_up) l.

(** The injected events: the header is built the way the code builds it, with
    the modifiers where the time belongs. *)
Definition dispatch_contacts (e : MirTouchEvent) (contacts : list ContactState) : M unit :=
  let h := touch_header e in
  let* ev := plift (make_touch_event (mkHeader (device_id h) (modifiers h) (modifiers h) []) contacts) in
  pemit (Touch ev).

Definition handle_touch_event (e : MirTouchEvent) : M unit :=
  let id := device_id (touch_header e) in
  let* new_state := plift (get_contact_state e) in
  do* pcomponent (λ s, default [] (s !! id)) (λ l s, <[id := l]> s) (dispatch_contacts e)
    (ensure_stream_validity_locked new_state) in
  do* pemit (Touch e) in
  pmodify (λ s, <[id := remaining new_state]> s).

Definition validate_and_dispatch (event : MirEvent) : M unit :=
  match event with
  | Touch e => handle_touch_event e
  | _ => pemit event
  end.

(** ** Validity of a stream of touch events *)

(** The touches still down after an event. *)
Definition active (l : list ContactState) : gset Z := touch_set (filter (λ c, action c ≠ touch_up) l).

(** A touch does not vanish without a release and does not appear without a press. *)
Definition valid_next (last next : list ContactState) : Prop :=
  (∀ i, i ∈ active last → i ∈ touch_set next) ∧
  (∀ c, c ∈ next → touch_id c ∉ active last → action c = touch_down).
#[export] Instance valid_next_dec last next : Decision (valid_next last next).
Proof.
  unfold valid_next. apply and_dec.
  - destruct (decide (set_Forall (.∈ touch_set next) (active last))); [left|right]; done.
  - destruct (decide (Forall (λ c, touch_id c ∉ active last → action c = touch_down) next)) as [H|H]; [left|right].
    + by rewrite Forall_forall in H.
    + intros Hn. apply H. by rewrite Forall_forall.
Defined.

Definition last_contacts (m : gmap Z (list ContactState)) (id : Z) : list ContactState := default [] (m !! id).
Definition stream_step (m : gmap Z (list ContactState)) (ev : MirEvent) : gmap Z (list ContactState) :=
  match ev with
  | Touch e => <[device_id (touch_header e) := points e]> m
  | _ => m
  end.
Fixpoint stream_valid (m : gmap Z (list ContactState)) (h : list MirEvent) : Prop :=
  match h with
  | [] => True
  | ev :: h' =>
      match ev with
      | Touch e => valid_next (last_contacts m (device_id (touch_header e))) (points e)
      | _ => True
      end ∧ stream_valid (stream_step m ev) h'
  end.

Lemma stream_valid_app m h t : stream_valid m (h ++ t) ↔ stream_valid m h ∧ stream_valid (foldl stream_step m h) t.
Proof. revert m. induction h as [|ev h IH]; intros m; cbn [app stream_valid foldl]; [tauto|]. rewrite IH. tauto. Qed.

(** The same for one device's contacts. *)
Fixpoint contacts_valid (last : list ContactState) (t : list (list ContactState)) : Prop :=
  match t with
  | [] => True
  | n :: t' => valid_next last n ∧ contacts_valid n t'
  end.
Definition last_of (last : list ContactState) (t : list (list ContactState)) : list ContactState := foldl (λ _ n, n) last t.

Lemma contacts_valid_app last t u :
  contacts_valid last (t ++ u) ↔ contacts_valid last t ∧ contacts_valid (last_of last t) u.
Proof. revert last. induction t as [|n t IH]; intros last; cbn; [tauto|]. rewrite IH. unfold last_of. cbn. tauto. Qed.
Lemma last_of_app last t u : last_of last (t ++ u) = last_of (last_of last t) u.
Proof. unfold last_of. by rewrite foldl_app. Qed.

Lemma elem_of_touch_set l i : i ∈ touch_set l ↔ ∃ c, c ∈ l ∧ touch_id c = i.
Proof.
  unfold touch_set. rewrite elem_of_list_to_set, list_elem_of_fmap. split; intros (c & H1 & H2); by exists c.
Qed.
Lemma elem_of_active l i : i ∈ active l ↔ ∃ c, c ∈ l ∧ touch_id c = i ∧ action c ≠ touch_up.
Proof.
  unfold active. rewrite elem_of_touch_set. split.
  - intros (c & [Ha Hc]%list_elem_of_filter & Hi). by exists c.
  - intros (c & Hc & Hi & Ha). exists c. by rewrite list_elem_of_filter.
Qed.
Lemma active_all l : (∀ c, c ∈ l → action c ≠ touch_up) → active l = touch_set l.
Proof. intros Hl. unfold active. by rewrite filter_all. Qed.
Lemma touch_set_app l k : touch_set (l ++ k) = touch_set l ∪ touch_set k.
Proof. unfold touch_set. by rewrite fmap_app, list_to_set_app_L. Qed.
Lemma active_app l k : active (l ++ k) = active l ∪ active k.
Proof. unfold active. by rewrite filter_app, touch_set_app. Qed.

(** ** The contact at a touch id *)
Lemma split_at_id l u :
  NoDup (touch_id <$> l) → u ∈ touch_set l →
  ∃ l1 c l2, l = l1 ++ c :: l2 ∧ touch_id c = u ∧ (∀ d, d ∈ l1 → touch_id d ≠ u) ∧ (∀ d, d ∈ l2 → touch_id d ≠ u).
Proof.
  intros Hnd (c & Hc & Hu)%elem_of_touch_set. apply list_elem_of_split in Hc as (l1 & l2 & ->).
  exists l1, c, l2. split; [done|]. split; [done|].
  rewrite fmap_app, fmap_cons in Hnd. apply NoDup_app in Hnd as (_ & Hd & [Hn _]%NoDup_cons). split.
  - intros d Hin Heq. apply (Hd (touch_id d)); [by apply list_elem_of_fmap_2|]. rewrite Heq, Hu. left.
  - intros d Hin Heq. apply Hn. rewrite Hu, <- Heq. by apply list_elem_of_fmap_2.
Qed.

Section at_id.
Context (l1 : list ContactState) (c : ContactState) (l2 : list ContactState).
Context (Hl1 : ∀ d, d ∈ l1 → touch_id d ≠ touch_id c) (Hl2 : ∀ d, d ∈ l2 → touch_id d ≠ touch_id c).

Lemma find_at_id : find_if (has_id (touch_id c)) (l1 ++ c :: l2) = Some c.
Proof.
  rewrite find_if_app. assert (find_if (has_id (touch_id c)) l1 = None) as ->.
  { apply find_if_None. intros d Hd. apply bool_decide_eq_false. by apply Hl1. }
  rewrite find_if_cons. unfold has_id. by rewrite bool_decide_true.
Qed.
Lemma update_at_id f : update_first (has_id (touch_id c)) f (l1 ++ c :: l2) = l1 ++ f c :: l2.
Proof using Hl1.
  clear Hl2. induction l1 as [|d l IH]; cbn.
  - unfold has_id. by rewrite bool_decide_true.
  - unfold has_id at 1. rewrite bool_decide_false by (apply Hl1; left). f_equal. apply IH.
    intros e He. apply Hl1. by right.
Qed.
Lemma erase_at_id d : touch_id d = touch_id c → erase_found (has_id (touch_id c)) (l1 ++ d :: l2) = l1 ++ l2.
Proof using Hl1.
  clear Hl2. intros Hd. induction l1 as [|e l IH]; cbn.
  - unfold has_id. by rewrite bool_decide_true.
  - unfold has_id at 1. rewrite bool_decide_false by (apply Hl1; left). f_equal. apply IH.
    intros g Hg. apply Hl1. by right.
Qed.
End at_id.

(** *** Releasing the contacts that vanished *)
Lemma release_run l u prev :
  NoDup (touch_id <$> l) → u ∈ touch_set l → (∀ c, c ∈ l → action c ≠ touch_up) → active prev = touch_set l →
  ∃ l' n, release_missing u l = Run (Ret tt) l' [n] ∧ sublist l' l ∧ touch_set l' = touch_set l ∖ {[u]} ∧
    valid_next prev n ∧ active n = touch_set l' ∧ length n = length l.
Proof.
  intros Hnd Hu Hup Hprev. destruct (split_at_id l u Hnd Hu) as (l1 & c & l2 & -> & <- & Hl1 & Hl2).
  exists (l1 ++ l2), (l1 ++ with_action touch_up c :: l2).
  assert (active (l1 ++ with_action touch_up c :: l2) = touch_set (l1 ++ l2)) as Hact.
  { unfold active. rewrite filter_app, filter_cons, decide_False by (cbn; tauto).
    rewrite <- filter_app, filter_all; [done|]. intros d Hd. apply Hup.
    rewrite elem_of_app, elem_of_cons. apply elem_of_app in Hd as [Hd|Hd]; auto. }
  assert (touch_id c ∉ touch_set (l1 ++ l2)) as Hnc.
  { rewrite elem_of_touch_set. intros (d & [Hd|Hd]%elem_of_app & Heq); [by apply (Hl1 d)|by apply (Hl2 d)]. }
  assert (touch_set (l1 ++ c :: l2) = touch_set (l1 ++ l2) ∪ {[touch_id c]}) as Hset.
  { rewrite !touch_set_app. change (touch_set (c :: l2)) with ({[touch_id c]} ∪ touch_set l2). set_solver. }
  split.
  { unfold release_missing. rewrite pbind_get, find_at_id by done. rewrite pbind_put, pbind_get, update_at_id by done.
    rewrite pbind_emit. cbn. by rewrite erase_at_id. }
  split; [apply sublist_app; [done|by apply sublist_cons]|].
  split; [rewrite Hset; revert Hnc; clear; generalize (touch_set (l1 ++ l2)); set_solver|]. split; [|split; [done|]].
  - split.
    + intros i. rewrite Hprev, Hset, !touch_set_app.
      change (touch_set (with_action touch_up c :: l2)) with ({[touch_id c]} ∪ touch_set l2).
      rewrite !elem_of_union, elem_of_singleton. tauto.
    + intros d Hd Hn. destruct Hn. rewrite Hprev, elem_of_touch_set.
      apply elem_of_app in Hd as [Hd|[->|Hd]%elem_of_cons].
      * exists d. split; [|done]. apply elem_of_app. by left.
      * exists c. split; [|done]. apply elem_of_app. right. left.
      * exists d. split; [|done]. apply elem_of_app. right. by right.
  - by rewrite !length_app.
Qed.

Lemma release_loop ups : ∀ l prev,
  NoDup (touch_id <$> l) → NoDup ups → (∀ u, u ∈ ups → u ∈ touch_set l) →
  (∀ c, c ∈ l → action c ≠ touch_up) → active prev = touch_set l →
  ∃ l' t, pfor ups release_missing l = Run (Ret tt) l' t ∧ sublist l' l ∧
    touch_set l' = touch_set l ∖ list_to_set ups ∧ contacts_valid prev t ∧ active (last_of prev t) = touch_set l' ∧
    length t = length ups ∧ ∀ n, n ∈ t → (length n ≤ length l)%nat.
Proof.
  induction ups as [|u ups IH]; intros l prev Hnd Hnu Hin Hup Hprev.
  { exists l, []. cbn. split_and!; try done; [set_solver|]. intros n Hn. by apply elem_of_nil in Hn. }
  destruct (release_run l u prev) as (l1 & n & Hrun & Hsub & Hset & Hv & Hact & Hlen); try done.
  { apply Hin. left. }
  apply NoDup_cons in Hnu as [Hu Hnu].
  destruct (IH l1 n) as (l2 & t & Hrun2 & Hsub2 & Hset2 & Hv2 & Hact2 & Hlen2 & Hb2); [| |..|done|].
  - eapply sublist_NoDup; [exact Hnd|]. by apply fmap_sublist.
  - done.
  - intros w Hw. rewrite Hset. apply elem_of_difference. split; [apply Hin; by right|].
    rewrite elem_of_singleton. intros ->. done.
  - intros c Hc. apply Hup. eapply elem_of_submseteq; [exact Hc|]. by apply sublist_submseteq.
  - exists l2, (n :: t). cbn [pfor]. split; [exact (pbind_run _ (λ _, pfor ups release_missing) _ _ _ _ _ Hrun Hrun2)|].
    split; [by etrans|]. split; [rewrite Hset2, Hset; clear; generalize (touch_set l); set_solver|]. split; [done|]. split; [done|]. split; [cbn; lia|].
    apply sublist_length in Hsub. intros k [->|Hk]%elem_of_cons; [lia|]. specialize (Hb2 k Hk). lia.
Qed.

(** *** Pressing the contacts that appeared *)
Lemma press_run new l u prev :
  u ∈ touch_set new → u ∉ touch_set l → (∀ c, c ∈ l → action c ≠ touch_up) → active prev = touch_set l →
  ∃ p n, press_missing new u l = Run (Ret tt) (l ++ [p]) [n] ∧ touch_id p = u ∧ action p = touch_change ∧
    valid_next prev n ∧ active n = touch_set (l ++ [p]) ∧ length n = S (length l).
Proof.
  intros Hu Hnu Hup Hprev. unfold press_missing.
  destruct (find_if (has_id u) new) as [pos|] eqn:Hf.
  2: { apply elem_of_touch_set in Hu as (c & Hc & Heq). eapply find_if_None in Hf; [|exact Hc].
       unfold has_id in Hf. by rewrite bool_decide_true in Hf. }
  destruct (find_if_Some _ _ _ Hf) as [Hpos Hid]. apply bool_decide_eq_true in Hid.
  exists (with_action touch_change pos), (l ++ [with_action touch_down pos]).
  split; [reflexivity|].
  split; [done|]. split; [done|]. split; [|split].
  - split.
    + intros i. rewrite Hprev, touch_set_app, elem_of_union. by left.
    + intros c [Hc|Hc]%elem_of_app Hn.
      * destruct Hn. rewrite Hprev. apply elem_of_touch_set. by exists c.
      * apply list_elem_of_singleton in Hc as ->. done.
  - rewrite active_app, touch_set_app, active_all by done. done.
  - rewrite length_app. cbn. lia.
Qed.

Lemma press_loop new downs : ∀ l prev,
  NoDup (touch_id <$> l) → NoDup downs → (∀ u, u ∈ downs → u ∈ touch_set new ∧ u ∉ touch_set l) →
  (∀ c, c ∈ l → action c ≠ touch_up) → active prev = touch_set l →
  ∃ l' t, pfor downs (press_missing new) l = Run (Ret tt) l' t ∧ NoDup (touch_id <$> l') ∧
    touch_set l' = touch_set l ∪ list_to_set downs ∧ contacts_valid prev t ∧ active (last_of prev t) = touch_set l' ∧
    length t = length downs ∧ ∀ n, n ∈ t → (length n ≤ length l')%nat.
Proof.
  induction downs as [|u downs IH]; intros l prev Hnd Hnu Hin Hup Hprev.
  { exists l, []. cbn. split_and!; try done; [set_solver|]. intros n Hn. by apply elem_of_nil in Hn. }
  destruct (Hin u) as [Hun Hul]; [left|].
  destruct (press_run new l u prev) as (p & n & Hrun & Hid & Hact & Hv & Hactn & Hlen); try done.
  apply NoDup_cons in Hnu as [Hu Hnu].
  assert (touch_set (l ++ [p]) = touch_set l ∪ {[u]}) as Hset.
  { rewrite touch_set_app. unfold touch_set at 2. cbn. rewrite Hid. by rewrite union_empty_r_L. }
  destruct (IH (l ++ [p]) n) as (l2 & t & Hrun2 & Hnd2 & Hset2 & Hv2 & Hact2 & Hlen2 & Hb2); [|done|..|done|].
  - rewrite fmap_app. apply NoDup_app. split; [done|]. split; [|apply NoDup_singleton].
    intros i Hi. cbn. rewrite Hid, list_elem_of_singleton. intros ->. apply Hul. unfold touch_set. by apply elem_of_list_to_set.
  - intros w Hw. destruct (Hin w) as [Hwn Hwl]; [by right|]. split; [done|]. rewrite Hset, elem_of_union, elem_of_singleton.
    intros [?| ->]; done.
  - intros c [Hc|Hc]%elem_of_app; [by apply Hup|]. apply list_elem_of_singleton in Hc as ->. congruence.
  - exists l2, (n :: t). cbn [pfor]. split; [exact (pbind_run _ (λ _, pfor downs (press_missing new)) _ _ _ _ _ Hrun Hrun2)|].
    split; [done|]. split; [rewrite Hset2, Hset; cbn; by rewrite union_assoc_L|].
    split; [done|]. split; [done|]. split; [cbn; lia|].
    intros k [->|Hk]%elem_of_cons; [|by apply Hb2]. rewrite Hlen.
    assert (list_to_set (touch_id <$> l2) = (list_to_set (touch_id <$> l) : gset Z) ∪ list_to_set (u :: downs)) as Hs.
    { fold (touch_set l2) (touch_set l). rewrite Hset2, Hset. cbn. by rewrite union_assoc_L. }
    apply (f_equal base.size) in Hs. rewrite size_list_to_set, size_union, !size_list_to_set, !length_fmap in Hs; try done.
    + cbn in Hs. lia.
    + by apply NoDup_cons.
    + intros i Hi1 Hi2. apply elem_of_list_to_set in Hi2. destruct (Hin i Hi2) as [_ Hni]. by apply Hni.
Qed.

(** *** The whole repair *)
Lemma length_ascending s : length (ascending s) = base.size s.
Proof. unfold ascending. by rewrite merge_sort_Permutation. Qed.
Lemma ascending_set s : list_to_set (ascending s) = s.
Proof. apply set_eq. intros i. by rewrite elem_of_list_to_set, elem_of_ascending. Qed.
Lemma length_touch_set l : NoDup (touch_id <$> l) → length l = base.size (touch_set l).
Proof. intros Hnd. unfold touch_set. by rewrite size_list_to_set, length_fmap. Qed.

(** How many touches vanished or appeared unannounced. *)
Definition changed (new : list ContactState) : gset Z := touch_set (filter (λ c, action c ≠ touch_down) new).
Definition repairs (down : gset Z) (new : list ContactState) : nat :=
  base.size (down ∖ touch_set new) + base.size (changed new ∖ down).

Lemma changed_subset new : changed new ⊆ touch_set new.
Proof.
  intros i (c & [_ Hc]%list_elem_of_filter & Hi)%elem_of_touch_set. apply elem_of_touch_set. by exists c.
Qed.

Lemma ensure_run new l prev :
  NoDup (touch_id <$> l) → NoDup (touch_id <$> new) → (∀ c, c ∈ l → action c ≠ touch_up) → active prev = touch_set l →
  ∃ l' t, ensure_stream_validity_locked new l = Run (Ret tt) l' t ∧ contacts_valid prev t ∧
    valid_next (last_of prev t) new ∧ length t = repairs (touch_set l) new ∧
    ∀ n, n ∈ t → (length n ≤ length l `max` length new)%nat.
Proof.
  intros Hnd Hndn Hup Hprev. unfold ensure_stream_validity_locked. rewrite pbind_get. cbn zeta.
  fold (changed new). pose proof (changed_subset new) as Hsub.
  destruct (release_loop (ascending (touch_set l ∖ touch_set new)) l prev)
    as (l1 & t1 & Hrun1 & Hsub1 & Hset1 & Hv1 & Hact1 & Hlen1 & Hb1); try done.
  { apply ascending_NoDup. } { intros u. rewrite elem_of_ascending. set_solver. }
  assert (NoDup (touch_id <$> l1)) as Hnd1 by (eapply sublist_NoDup; [exact Hnd|by apply fmap_sublist]).
  rewrite ascending_set in Hset1. rewrite length_ascending in Hlen1.
  destruct (press_loop new (ascending (changed new ∖ touch_set l)) l1 (last_of prev t1))
    as (l2 & t2 & Hrun2 & Hnd2 & Hset2 & Hv2 & Hact2 & Hlen2 & Hb2); try done.
  { apply ascending_NoDup. }
  { intros u. rewrite elem_of_ascending. rewrite Hset1. revert Hsub. clear.
    generalize (changed new), (touch_set l), (touch_set new). set_solver. }
  { intros c Hc. apply Hup. by eapply elem_of_sublist. }
  rewrite ascending_set in Hset2. rewrite length_ascending in Hlen2.
  assert (touch_set l2 ⊆ touch_set new) as Hl2.
  { rewrite Hset2, Hset1. revert Hsub. clear. generalize (changed new), (touch_set l), (touch_set new). set_solver. }
  exists l2, (t1 ++ t2).
  split; [exact (pbind_run _ (λ _, pfor _ (press_missing new)) _ _ _ _ _ Hrun1 Hrun2)|].
  split; [by apply contacts_valid_app|]. rewrite last_of_app. split; [split|].
  - rewrite Hact2. done.
  - intros c Hc Hn. destruct (decide (action c = touch_down)) as [|Hd]; [done|]. destruct Hn.
    assert (touch_id c ∈ changed new) as Hch.
    { apply elem_of_touch_set. exists c. by rewrite list_elem_of_filter. }
    assert (touch_id c ∈ touch_set new) as Hcn by by apply Hsub.
    rewrite Hact2, Hset2, Hset1. revert Hch Hcn. clear.
    generalize (changed new), (touch_set l), (touch_set new), (touch_id c). intros A B C i H1 H2.
    destruct (decide (i ∈ B)); set_solver.
  - rewrite length_app, Hlen1, Hlen2. split; [done|].
    intros n [Hn|Hn]%elem_of_app; [specialize (Hb1 n Hn); lia|]. specialize (Hb2 n Hn).
    rewrite (length_touch_set l2), (length_touch_set new) in *; try done.
    pose proof (subseteq_size _ _ Hl2). lia.
Qed.

(** Without a fault nothing is repaired. *)
Lemma repairs_none prev new : valid_next prev new → repairs (active prev) new = 0%nat.
Proof.
  intros [H1 H2]. unfold repairs.
  assert (active prev ∖ touch_set new = ∅) as -> by (revert H1; generalize (active prev), (touch_set new); set_solver).
  assert (changed new ∖ active prev = ∅) as ->; [|by rewrite size_empty].
  apply set_eq. intros i. split; [|by intros ?%elem_of_empty].
  intros [(c & [Ha Hc]%list_elem_of_filter & <-)%elem_of_touch_set Hn]%elem_of_difference.
  destruct Ha. by apply H2.
Qed.

(** ** Reading and building touch events *)
Definition upright (c : ContactState) : ContactState :=
  mkContact (touch_id c) (action c) (tooltype c) (x c) (y c) (pressure c) (touch_major c) (touch_minor c) f32_zero.

Lemma get_contact_ok e i c :
  touch_wf e → 0 ≤ i → points e !! Z.to_nat i = Some c → get_contact e i = Ret (upright c).
Proof.
  intros Hwf Hi Hp. assert (i < count e) as Hlt.
  { unfold points in Hp. apply lookup_take_Some in Hp as [_ ?]. destruct Hwf. lia. }
  unfold get_contact, mir_touch_event_id, mir_touch_event_action, mir_touch_event_tooltype, mir_touch_event_axis_value,
    touch_event_id, touch_event_action, touch_event_tool_type, touch_event_x, touch_event_y, touch_event_pressure,
    touch_event_touch_major, touch_event_touch_minor.
  rewrite (contact_get_ok i c) by done.
  destruct (Z.leb_spec (count e) i); [lia|]. destruct (Z.ltb_spec (count e) i); [lia|]. done.
Qed.

Lemma get_contact_state_ok e : touch_wf e → get_contact_state e = Ret (upright <$> points e).
Proof.
  intros Hwf. unfold get_contact_state, indices.
  assert (length (points e) = Z.to_nat (count e)) as Hl.
  { unfold points. destruct Hwf. rewrite length_take. lia. }
  rewrite <- Hl. assert (∀ k l, points e = take k (points e) ++ l →
    omapM (get_contact e) (Z.of_nat <$> seq k (length l)) = Ret (upright <$> l)) as Hgen.
  2: { by apply (Hgen 0%nat). }
  intros k l. revert k. induction l as [|c l IH]; intros k Hk; [done|]. cbn [length seq fmap list_fmap omapM].
  assert (k < length (points e))%nat as Hlt.
  { apply (f_equal length) in Hk. rewrite length_app, length_take in Hk. cbn in Hk. lia. }
  assert (points e !! k = Some c) as Hc.
  { rewrite Hk. rewrite lookup_app_r; rewrite length_take; [|lia].
    replace (k - k `min` length (points e))%nat with 0%nat by lia. done. }
  rewrite (get_contact_ok e _ c) by (done || lia || by rewrite Nat2Z.id). cbn [obind].
  rewrite IH; [done|]. rewrite (take_S_r _ _ c) by done. by rewrite <- app_assoc.
Qed.

Lemma upright_ids (l : list ContactState) : touch_id <$> (upright <$> l) = touch_id <$> l.
Proof. by rewrite <- list_fmap_compose. Qed.
Lemma upright_filter (P : touch_action → Prop) `{∀ a, Decision (P a)} (l : list ContactState) :
  touch_id <$> filter (λ c, P (action c)) (upright <$> l) = touch_id <$> filter (λ c, P (action c)) l.
Proof.
  induction l as [|c l IH]; [done|]. cbn [fmap list_fmap]. rewrite !filter_cons. cbn [action upright].
  destruct (decide _); cbn; by rewrite IH.
Qed.
Lemma upright_valid prev l : valid_next prev (upright <$> l) → valid_next prev l.
Proof.
  unfold valid_next, touch_set. rewrite upright_ids. intros [H1 H2]. split; [done|].
  intros c Hc Hn. by apply (H2 (upright c)); [apply list_elem_of_fmap_2|].
Qed.
Lemma upright_repairs down l : repairs down (upright <$> l) = repairs down l.
Proof. unfold repairs, changed, touch_set. rewrite upright_ids. pose proof (upright_filter (λ a, a ≠ touch_down) l) as Hf. by rewrite Hf. Qed.

Lemma remaining_ids (l : list ContactState) : touch_id <$> remaining l = touch_id <$> filter (λ c, action c ≠ touch_up) l.
Proof.
  unfold remaining. rewrite <- list_fmap_compose. apply list_fmap_ext. intros i c _. cbn. by case_bool_decide.
Qed.

(** ** One event through the validator *)

(** [t] handed out as touch events of device [id]. *)
Definition carries (id : Z) (n : list ContactState) (ev : MirEvent) : Prop :=
  ∃ te, ev = Touch te ∧ touch_wf te ∧ device_id (touch_header te) = id ∧ points te = n.

Lemma dispatch_run e t s :
  (∀ n, n ∈ t → (length n ≤ max_count)%nat) →
  ∃ evs, pfor t (dispatch_contacts e) s = Run (Ret tt) s evs ∧ Forall2 (carries (device_id (touch_header e))) t evs.
Proof.
  induction t as [|n t IH]; intros Hb; [by exists []|].
  destruct IH as (evs & Hrun & Hall); [intros k Hk; apply Hb; by right|].
  destruct (make_touch_event_ok (mkHeader (device_id (touch_header e)) (modifiers (touch_header e))
    (modifiers (touch_header e)) []) n) as (te & Hte & Hwf & Hh & Hp); [apply Hb; left|].
  exists (Touch te :: evs). split.
  - cbn [pfor]. refine (pbind_run _ (λ _, pfor t (dispatch_contacts e)) _ _ _ [Touch te] _ _ Hrun).
    unfold dispatch_contacts. cbn zeta. rewrite Hte. reflexivity.
  - constructor; [|done]. exists te. by rewrite Hh.
Qed.

Lemma carried_valid id t evs m :
  Forall2 (carries id) t evs → contacts_valid (last_contacts m id) t →
  stream_valid m evs ∧ last_contacts (foldl stream_step m evs) id = last_of (last_contacts m id) t ∧
  ∀ i, i ≠ id → last_contacts (foldl stream_step m evs) i = last_contacts m i.
Proof.
  intros Hall. revert m. induction Hall as [|n ev t evs (te & -> & _ & <- & Hp) Hall IH]; intros m; [done|].
  cbn [contacts_valid stream_valid stream_step foldl]. rewrite Hp.
  assert (last_contacts (<[device_id (touch_header te) := n]> m) (device_id (touch_header te)) = n) as Hl.
  { unfold last_contacts. by rewrite lookup_insert_eq. }
  intros [Hv Ht]. rewrite <- Hl in Ht. destruct (IH _ Ht) as (H1 & H2 & H3). split; [done|]. split.
  - rewrite H2, Hl. done.
  - intros i Hi. rewrite H3 by done. unfold last_contacts. by rewrite lookup_insert_ne.
Qed.

(** The stored contacts of a device stand for the touches its last dispatched
    event left down. *)
Definition tracks (s : Validator) (m : gmap Z (list ContactState)) : Prop := ∀ id,
  let l := last_contacts s id in
  NoDup (touch_id <$> l) ∧ (∀ c, c ∈ l → action c ≠ touch_up) ∧ (length l ≤ max_count)%nat ∧
  active (last_contacts m id) = touch_set l.

Definition event_ok (ev : MirEvent) : Prop :=
  match ev with
  | Touch e => touch_wf e ∧ NoDup (touch_id <$> points e)
  | _ => True
  end.
#[export] Instance event_ok_dec ev : Decision (event_ok ev).
Proof. destruct ev; cbn; apply _. Defined.

Lemma handle_touch_run s m e :
  tracks s m → event_ok (Touch e) →
  let id := device_id (touch_header e) in
  ∃ t evs, handle_touch_event e s =
      Run (Ret tt) (<[id := remaining (upright <$> points e)]> (post (handle_touch_event e s))) (evs ++ [Touch e]) ∧
    (∀ i, i ≠ id → last_contacts (post (handle_touch_event e s)) i = last_contacts s i) ∧
    Forall2 (carries id) t evs ∧ contacts_valid (last_contacts m id) t ∧
    valid_next (last_of (last_contacts m id) t) (points e) ∧
    length t = repairs (active (last_contacts m id)) (points e).
Proof.
  intros Htr [Hwf Hnd] id. destruct (Htr id) as (Hndl & Hup & Hlen & Hact).
  destruct (ensure_run (upright <$> points e) (last_contacts s id) (last_contacts m id))
    as (l' & t & Hrun & Hv & Hnext & Hlt & Hb); [done|by rewrite upright_ids|done|done|].
  destruct (dispatch_run e t (<[id := l']> s)) as (evs & Hd & Hall).
  { intros n Hn. specialize (Hb n Hn). rewrite length_fmap in Hb.
    assert (length (points e) ≤ max_count)%nat by (unfold points; destruct Hwf; rewrite length_take; lia). lia. }
  exists t, evs.
  assert (handle_touch_event e s =
    Run (Ret tt) (<[id := remaining (upright <$> points e)]> (<[id := l']> s)) (evs ++ [Touch e])) as Heq.
  { unfold handle_touch_event. fold id. erewrite pbind_silent; [|by rewrite get_contact_state_ok].
    refine (pbind_run _ _ _ tt (<[id := l']> s) _ (Run (Ret tt) _ [Touch e]) _ _); [|reflexivity].
    unfold pcomponent. cbn beta zeta. change (default [] (s !! id)) with (last_contacts s id). rewrite Hrun. cbn [trace post value].
    refine (eq_trans (pbind_run _ _ _ _ _ _ (Run (Ret tt) _ []) Hd _) _); [reflexivity|]. cbn. by rewrite app_nil_r. }
  rewrite Heq. cbn [post]. unfold Validator in *. rewrite !insert_insert_eq. split; [done|]. split.
  { intros i Hi. unfold last_contacts. by rewrite lookup_insert_ne. }
  split; [done|]. split; [done|]. split; [by apply upright_valid|].
  by rewrite Hlt, upright_repairs, Hact.
Qed.

Lemma handle_touch_effect s m e :
  tracks s m → event_ok (Touch e) →
  ends (handle_touch_event e s) (λ s' t, tracks s' (foldl stream_step m t) ∧ stream_valid m t).
Proof.
  intros Htr Hok. destruct (handle_touch_run s m e Htr Hok) as (t & evs & Hrun & Hoth & Hall & Hv & Hnext & _).
  set (id := device_id (touch_header e)) in *. destruct (carried_valid _ _ _ _ Hall Hv) as (Hs & Hlast & Hother).
  set (s' := post (handle_touch_event e s)) in *. rewrite Hrun. unfold ends. cbn [post trace]. split.
  - intros i. cbn zeta. unfold Validator in *. rewrite foldl_app. cbn [foldl stream_step]. fold id. destruct (decide (i = id)) as [->|Hi].
    + unfold last_contacts. rewrite !lookup_insert_eq. cbn [from_option]. unfold Datatypes.id. destruct Hok as [Hwf Hnd].
      split; [|split; [|split]].
      * pose proof (upright_filter (λ a, a ≠ touch_up) (points e)) as Hf. rewrite remaining_ids, Hf. eapply sublist_NoDup; [exact Hnd|].
        apply fmap_sublist, sublist_filter.
      * intros c (d & -> & [Hd _]%list_elem_of_filter)%list_elem_of_fmap. by case_bool_decide.
      * unfold remaining. rewrite length_fmap. etrans; [apply length_filter|]. rewrite length_fmap.
        unfold points. rewrite length_take. destruct Hwf. lia.
      * pose proof (upright_filter (λ a, a ≠ touch_up) (points e)) as Hf.
        unfold active, touch_set. by rewrite remaining_ids, Hf.
    + assert (last_contacts (<[id:=remaining (upright <$> points e)]> s') i = last_contacts s i) as ->.
      { rewrite <- Hoth by done. unfold last_contacts. by rewrite lookup_insert_ne. }
      assert (last_contacts (<[id:=points e]> (foldl stream_step m evs)) i = last_contacts m i) as ->; [|apply Htr].
      rewrite <- Hother by done. unfold last_contacts. by rewrite lookup_insert_ne.
  - apply stream_valid_app. split; [done|]. cbn [stream_valid]. fold id. rewrite Hlast. done.
Qed.

(** ** The validator as a machine *)
Definition validator_machine : machine := {|
  m_state := Validator;
  m_op := MirEvent;
  m_obs := MirEvent;
  m_init s := s = ∅;
  m_allowed _ _ ev := bool_decide (event_ok ev);
  m_exec := validate_and_dispatch
|}.

Lemma validator_reachable s h :
  reachable validator_machine s h → tracks s (foldl stream_step ∅ h) ∧ stream_valid ∅ h.
Proof.
  revert s h. apply (reachable_invariant validator_machine).
  - intros s ->. split; [|done]. intros id. cbn. unfold last_contacts. rewrite !lookup_empty. cbn.
    split; [apply NoDup_nil_2|]. split; [by intros c ?%elem_of_nil|]. split; [apply Nat.le_0_l|done].
  - intros s h ev _ [Htr Hv] Hok%bool_decide_eq_true. cbn [m_exec validator_machine]. rewrite foldl_app, stream_valid_app.
    destruct ev as [e|e|e|k].
    + done.
    + destruct (handle_touch_effect s _ e Htr Hok). done.
    + done.
    + done.
Qed.

(** ** Properties *)
Definition validator_example_ops : list MirEvent :=
  let ev cs := Touch (mkTouch (mkHeader 7 100 3 []) (Z.of_nat (length cs)) (cs ++ replicate (16 - length cs) contact0)) in
  let c i a := mkContact i a 1 f32_zero f32_zero f32_one f32_zero f32_zero f32_zero in
  [ev [c 1 touch_down; c 2 touch_down];
   ev [c 1 touch_change; c 3 touch_change];
   NonInput 5;
   ev [c 1 touch_up; c 3 touch_change; c 4 touch_change]].
Definition validator_example_run : Validator * list MirEvent :=
  default (∅, []) (run_ops validator_machine validator_example_ops ∅ []).
Lemma validator_example_reachable : reachable validator_machine validator_example_run.1 validator_example_run.2.
Proof. apply (run_ops_from_init validator_machine validator_example_ops ∅); [done|]. by vm_compute. Qed.

(** C12. Whatever touch events the devices send, in any mixture of devices, the
    events the validator lets through form a valid touch stream: per device no
    touch that is down is missing from the next event, and no touch appears
    without a press; its record of every device is the set of touches the last
    dispatched event left down. *)
Theorem validator_stream_valid s h :
  reachable validator_machine s h →
  stream_valid ∅ h ∧
  ∀ id, active (last_contacts (foldl stream_step ∅ h) id) = touch_set (last_contacts s id).
Proof.
  intros Hr. destruct (validator_reachable s h Hr) as [Htr Hv]. split; [done|].
  intros id. by destruct (Htr id) as (_ & _ & _ & ?).
Qed.

Lemma validator_stream_valid_witness :
  stream_valid ∅ validator_example_run.2 ∧ length validator_example_run.2 = 7%nat.
Proof.
  split; [exact (proj1 (validator_stream_valid _ _ validator_example_reachable))|by vm_compute].
Defined.

(** The validator is transparent and repairs no more than it must: every
    event comes out last and unchanged; before a touch event comes exactly one
    extra event per touch of the device that vanished or appeared
    unannounced, so an event that continues the stream validly passes
    alone, and events of other kinds always do. *)
Theorem validator_transparent s h ev :
  reachable validator_machine s h → event_ok ev →
  ∃ injected,
    trace (validate_and_dispatch ev s) = injected ++ [ev] ∧ value (validate_and_dispatch ev s) = Ret tt ∧
    match ev with
    | Touch e =>
        let last := last_contacts (foldl stream_step ∅ h) (device_id (touch_header e)) in
        length injected = repairs (active last) (points e) ∧
        Forall (λ i, ∃ te, i = Touch te ∧ device_id (touch_header te) = device_id (touch_header e)) injected ∧
        (valid_next last (points e) → injected = [])
    | _ => injected = []
    end.
Proof.
  intros Hr Hok. destruct (validator_reachable s h Hr) as [Htr _].
  destruct ev as [e|e|e|k]; [by exists []| |by exists []|by exists []].
  destruct (handle_touch_run s _ e Htr Hok) as (t & evs & Hrun & _ & Hall & _ & _ & Hlen).
  exists evs. cbn [validate_and_dispatch]. rewrite Hrun. split; [done|]. split; [done|]. cbn zeta.
  pose proof (Forall2_length _ _ _ Hall) as Hl. split; [congruence|]. split.
  - eapply Forall2_Forall_r; [exact Hall|]. apply Forall_true. intros n ev (te & -> & _ & ? & _). by exists te.
  - intros Hv. apply repairs_none in Hv. apply nil_length_inv. congruence.
Qed.

Lemma validator_transparent_witness :
  ∃ injected, trace (validate_and_dispatch (NonInput 3) validator_example_run.1) = injected ++ [NonInput 3].
Proof.
  destruct (validator_transparent _ _ (NonInput 3) validator_example_reachable I) as (i & Hi & _).
  exists i. exact Hi.
Defined.
