(* ===== verification/SurfaceDispatcher.v ===== *)
(** Delivery of input events to surfaces
    (src/server/input/surface_input_dispatcher.cpp): pointer enter and leave,
    button and touch gestures, keyboard focus. *)

From S2P Require Import Prelude Geometry Float32 Events.

(** ** State *)
Record PointerInputState := mkPIS { current_target : option Z; gesture_owner : option Z }.
#[export] Instance PointerInputState_eq_dec : EqDecision PointerInputState.
Proof. solve_decision. Defined.

Record Dispatcher := mkDispatcher {
  pointer_state_by_id : gmap Z PointerInputState;
  touch_state_by_id : gmap Z (option Z);
  (** weak: [alive] of the scene says whether it still locks *)
  focus_surface : option Z;
  started : bool
}.

(** What the scene and its surfaces answer during one call. *)
Record SceneView := mkView {
  (** bottom to top *)
  scene_order : list Z;
  input_area_contains : Z → Point → bool;
  input_top_left : Z → Point;
  alive : Z → bool
}.

(** [Consume] is the call made of a surface; the others mark the calls the
    dispatcher received. *)
Inductive disp_obs :=
  | Consume (surface : Z) (ev : MirEvent)
  | SurfaceAdded (surface : Z)
  | SurfaceRemoved (surface : Z)
  | DeviceReset (id : Z)
  | FocusSet (target : option Z)
  | Started
  | Stopped.
#[export] Instance disp_obs_eq_dec : EqDecision disp_obs.
Proof. solve_decision. Defined.

#[local] Abbreviation M := (prog Dispatcher disp_obs).

Definition set_pointers p s := mkDispatcher p (touch_state_by_id s) (focus_surface s) (started s).
Definition set_touches t s := mkDispatcher (pointer_state_by_id s) t (focus_surface s) (started s).
Definition set_focus_surface f s := mkDispatcher (pointer_state_by_id s) (touch_state_by_id s) f (started s).
Definition set_started b s := mkDispatcher (pointer_state_by_id s) (touch_state_by_id s) (focus_surface s) b.

Definition new_dispatcher : Dispatcher := mkDispatcher ∅ ∅ None false.

(** ** Delivering one event *)
Definition to_displacement (p : Point) : Displacement := Dp (px p) (py p).

Definition deliver_without_relative_motion (v : SceneView) (surface : Z) (pev : MirPointerEvent) : M unit :=
  let h := pointer_header pev in
  let* has_cookie := plift (mir_input_event_has_cookie (Pointer pev)) in
  let cookie_data := if has_cookie then cookie h else [] in
  let to_deliver :=
    make_pointer_event (mkHeader (device_id h) (event_time h) (modifiers h) cookie_data) (pointer_action_of pev)
      (buttons pev) (pointer_x pev) (pointer_y pev) f32_zero f32_zero f32_zero f32_zero in
  let* ev := plift (transform_positions (to_displacement (input_top_left v surface)) (Pointer to_deliver)) in
  pemit (Consume surface ev).

Definition deliver (v : SceneView) (surface : Z) (ev : MirEvent) : M unit :=
  let* ev' := plift (transform_positions (to_displacement (input_top_left v surface)) ev) in
  pemit (Consume surface ev').

Definition send_enter_exit_event (v : SceneView) (surface : Z) (pev : MirPointerEvent) (action : pointer_action) : M unit :=
  let h := pointer_header pev in
  let d := input_top_left v surface in
  pemit (Consume surface (Pointer
    (make_pointer_event (mkHeader (device_id h) (event_time h) (modifiers h) []) action (buttons pev)
      (f32_sub (pointer_x pev) (f32_of_int (px d))) (f32_sub (pointer_y pev) (f32_of_int (py d)))
      (hscroll pev) (vscroll pev) (Events.dx pev) (Events.dy pev)))).

(** ** Looking at events *)
Definition mir_pointer_buttons : list Z := [1; 2; 4; 8; 16].
Definition is_gesture_terminator (pev : MirPointerEvent) : bool :=
  let any_pressed := existsb (mir_pointer_event_button_state pev) mir_pointer_buttons in
  negb any_pressed && bool_decide (pointer_action_of pev = button_up).

Fixpoint all_actions (a : touch_action) (tev : MirTouchEvent) (l : list Z) : outcome bool :=
  match l with
  | [] => Ret true
  | i :: l' =>
      let? b := mir_touch_event_action tev i in
      if bool_decide (b ≠ a) then Ret false else all_actions a tev l'
  end.
Definition is_gesture_start (tev : MirTouchEvent) : outcome bool := all_actions touch_down tev (indices (count tev)).
Definition is_gesture_end (tev : MirTouchEvent) : outcome bool := all_actions touch_up tev (indices (count tev)).

Definition find_target_surface (v : SceneView) (point : Point) : option Z :=
  foldl (λ top_target target, if input_area_contains v target point then Some target else top_target) None (scene_order v).

(** ** Events about surfaces and devices *)
Definition forget (surface : Z) (o : option Z) : option Z := if bool_decide (o = Some surface) then None else o.

Definition set_focus_locked (target : option Z) : M unit := pmodify (set_focus_surface target).

Definition surface_removed (v : SceneView) (surface : Z) : M unit :=
  let* s := pget in
  let strong_focus :=
    match focus_surface s with Some f => if alive v f then Some f else None | None => None end in
  do* pwhen (bool_decide (strong_focus = Some surface)) (set_focus_locked None) in
  pmodify (λ s,
    set_touches (forget surface <$> touch_state_by_id s)
      (set_pointers
        ((λ st, mkPIS (forget surface (current_target st)) (forget surface (gesture_owner st))) <$> pointer_state_by_id s) s)).

Definition device_reset (id : Z) : M unit :=
  let* s := pget in
  pwhen (started s)
    (pmodify (λ s, set_touches (delete id (touch_state_by_id s)) (set_pointers (delete id (pointer_state_by_id s)) s))).

Definition set_focus (target : option Z) : M unit := set_focus_locked target.
Definition clear_focus : M unit := set_focus_locked None.
Definition start : M unit := pmodify (set_started true).
Definition stop : M unit := pmodify (λ s, set_started false (set_touches ∅ (set_pointers ∅ s))).

(** ** Dispatching *)
Definition dispatch_key (v : SceneView) (kev : MirEvent) : M bool :=
  let* s := pget in
  if negb (started s) then pret false else
  match focus_surface s with
  | Some strong_focus =>
      if alive v strong_focus then do* pemit (Consume strong_focus kev) in pret true else pret false
  | None => pret false
  end.

Definition ensure_pointer_state (id : Z) (s : Dispatcher) : PointerInputState :=
  default (mkPIS None None) (pointer_state_by_id s !! id).
Definition store_pointer_state (id : Z) (st : PointerInputState) : M unit :=
  pmodify (λ s, set_pointers (<[id := st]> (pointer_state_by_id s)) s).

(** The two places that follow the pointer to another target. *)
Definition change_target (v : SceneView) (id : Z) (pev : MirPointerEvent) (st : PointerInputState) (target : option Z) : M unit :=
  do* match current_target st with
      | Some old => send_enter_exit_event v old pev pointer_leave
      | None => pret tt
      end in
  do* store_pointer_state id (mkPIS target (gesture_owner st)) in
  match target with
  | Some new => send_enter_exit_event v new pev pointer_enter
  | None => pret tt
  end.

Definition dispatch_pointer (v : SceneView) (id : Z) (pev : MirPointerEvent) : M bool :=
  let action := pointer_action_of pev in
  let* s := pget in
  let pointer_state := ensure_pointer_state id s in
  do* store_pointer_state id pointer_state in
  let event_x_y := Pt (f32_to_int (pointer_x pev)) (f32_to_int (pointer_y pev)) in
  match gesture_owner pointer_state with
  | Some owner =>
      do* deliver v owner (Pointer pev) in
      do* pwhen (is_gesture_terminator pev)
        (let pointer_state := mkPIS (current_target pointer_state) None in
         do* store_pointer_state id pointer_state in
         let target := find_target_surface v event_x_y in
         pwhen (bool_decide (current_target pointer_state ≠ target)) (change_target v id pev pointer_state target)) in
      pret true
  | None =>
      if bool_decide (action = button_up) then pret false else
      let target := find_target_surface v event_x_y in
      let sent_ev := bool_decide (current_target pointer_state ≠ target) in
      do* pwhen sent_ev (change_target v id pev pointer_state target) in
      match target with
      | None => pret sent_ev
      | Some t =>
          do* pwhen (bool_decide (action = button_down)) (store_pointer_state id (mkPIS target target)) in
          do* (if sent_ev
               then pwhen (bool_decide (action ≠ pointer_motion)) (deliver_without_relative_motion v t pev)
               else deliver v t (Pointer pev)) in
          pret true
      end
  end.

Definition store_touch_owner (id : Z) (owner : option Z) : M unit :=
  pmodify (λ s, set_touches (<[id := owner]> (touch_state_by_id s)) s).

Definition dispatch_touch (v : SceneView) (id : Z) (tev : MirTouchEvent) : M bool :=
  let* s := pget in
  let owner := default None (touch_state_by_id s !! id) in
  do* store_touch_owner id owner in
  let* gesture_start := plift (is_gesture_start tev) in
  let* owner :=
    (if gesture_start then
       let* vx := plift (mir_touch_event_axis_value tev 0 axis_x) in
       let* vy := plift (mir_touch_event_axis_value tev 0 axis_y) in
       let owner := find_target_surface v (Pt (f32_to_int vx) (f32_to_int vy)) in
       do* store_touch_owner id owner in pret owner
     else pret owner) in
  match owner with
  | Some g =>
      do* deliver v g (Touch tev) in
      let* gesture_end := plift (is_gesture_end tev) in
      do* pwhen gesture_end (store_touch_owner id None) in
      pret true
  | None => pret false
  end.

Definition dispatch (v : SceneView) (event : MirEvent) : M bool :=
  match event with
  | NonInput _ => pthrow (logic_error "InputDispatcher got an unexpected event type")
  | Key _ => dispatch_key v event
  | Touch e => dispatch_touch v (device_id (touch_header e)) e
  | Pointer e => dispatch_pointer v (device_id (pointer_header e)) e
  end.

(** ** What a history of calls says

    The surface the pointer of each device is in, as the enter and leave events
    have it; the surfaces of the scene; the keyboard focus. *)
Record Hist := mkHist { entered : gmap Z Z; in_scene : gset Z; h_focus : option Z; h_started : bool }.
Definition hist0 : Hist := mkHist ∅ ∅ None false.

Definition others (surface : Z) (m : gmap Z Z) : gmap Z Z := filter (λ kv, kv.2 ≠ surface) m.

Definition hist_step (h : Hist) (o : disp_obs) : Hist :=
  match o with
  | Consume surface (Pointer e) =>
      let d := device_id (pointer_header e) in
      match pointer_action_of e with
      | pointer_enter => mkHist (<[d := surface]> (entered h)) (in_scene h) (h_focus h) (h_started h)
      | pointer_leave => mkHist (delete d (entered h)) (in_scene h) (h_focus h) (h_started h)
      | _ => h
      end
  | Consume _ _ => h
  | SurfaceAdded surface => mkHist (entered h) ({[surface]} ∪ in_scene h) (h_focus h) (h_started h)
  | SurfaceRemoved surface =>
      mkHist (others surface (entered h)) (in_scene h ∖ {[surface]}) (forget surface (h_focus h)) (h_started h)
  | DeviceReset id => if h_started h then mkHist (delete id (entered h)) (in_scene h) (h_focus h) (h_started h) else h
  | FocusSet f => mkHist (entered h) (in_scene h) f (h_started h)
  | Started => mkHist (entered h) (in_scene h) (h_focus h) true
  | Stopped => mkHist ∅ (in_scene h) (h_focus h) false
  end.

(** A surface may be handed an event: keys go to the focus while started, touch
    and pointer events to surfaces of the scene, and pointer events of a device
    to the one surface it has entered and not left. *)
Definition may_consume (h : Hist) (o : disp_obs) : Prop :=
  match o with
  | Consume surface (Key _) => h_started h = true ∧ h_focus h = Some surface
  | Consume surface (Touch _) => surface ∈ in_scene h
  | Consume surface (Pointer e) =>
      surface ∈ in_scene h ∧
      entered h !! device_id (pointer_header e) =
        if bool_decide (pointer_action_of e = pointer_enter) then None else Some surface
  | Consume _ (NonInput _) => False
  | _ => True
  end.
Fixpoint delivery_protocol (h : Hist) (t : list disp_obs) : Prop :=
  match t with
  | [] => True
  | o :: t' => may_consume h o ∧ delivery_protocol (hist_step h o) t'
  end.

Lemma delivery_protocol_app h t u :
  delivery_protocol h (t ++ u) ↔ delivery_protocol h t ∧ delivery_protocol (foldl hist_step h t) u.
Proof. revert h. induction t as [|o t IH]; intros h; cbn; [tauto|]. rewrite IH. tauto. Qed.

Record disp_inv (s : Dispatcher) (h : Hist) : Prop := {
  iv_entered d : entered h !! d = current_target (ensure_pointer_state d s);
  iv_owner d g : gesture_owner (ensure_pointer_state d s) = Some g → current_target (ensure_pointer_state d s) = Some g;
  iv_scene d t : current_target (ensure_pointer_state d s) = Some t → t ∈ in_scene h;
  iv_touch d g : touch_state_by_id s !! d = Some (Some g) → g ∈ in_scene h;
  iv_focus : h_focus h = focus_surface s;
  iv_started : h_started h = started s
}.

(** A run that keeps the invariant and delivers by the protocol. *)
Definition good {A} (h : Hist) (r : run Dispatcher disp_obs A) : Prop :=
  disp_inv (post r) (foldl hist_step h (trace r)) ∧ delivery_protocol h (trace r).

Lemma good_bind {A B} h (m : M A) (k : A → M B) s a s' t :
  m s = Run (Ret a) s' t → delivery_protocol h t → good (foldl hist_step h t) (k a s') → good h (pbind m k s).
Proof.
  intros Hm Ht [Hi Hp]. unfold good, pbind. rewrite Hm. cbn [value post trace].
  rewrite foldl_app. split; [done|]. by apply delivery_protocol_app.
Qed.
Lemma good_silent {A B} h (m : M A) (k : A → M B) s a s' :
  m s = Run (Ret a) s' [] → good h (k a s') → good h (pbind m k s).
Proof. intros Hm Hk. by eapply good_bind. Qed.
Lemma good_ret {A} h (a : A) s : disp_inv s h → good h (pret a s).
Proof. by split. Qed.

(** *** Storing a device's state *)
Lemma ensure_store d i st s :
  ensure_pointer_state d (set_pointers (<[i := st]> (pointer_state_by_id s)) s) =
    if decide (d = i) then st else ensure_pointer_state d s.
Proof.
  unfold ensure_pointer_state. cbn [pointer_state_by_id set_pointers]. destruct (decide (d = i)) as [->|Hne].
  - by rewrite lookup_insert_eq.
  - by rewrite lookup_insert_ne.
Qed.

Lemma store_inv i st s h :
  disp_inv s h → current_target st = current_target (ensure_pointer_state i s) →
  (∀ g, gesture_owner st = Some g → current_target st = Some g) →
  disp_inv (set_pointers (<[i := st]> (pointer_state_by_id s)) s) h.
Proof.
  intros [He Ho Hs Ht Hf Hst] Hc Hg. constructor; [..|done|done|done].
  - intros d. rewrite ensure_store. destruct (decide (d = i)) as [->|]; [by rewrite Hc|done].
  - intros d. rewrite ensure_store. destruct (decide (d = i)); auto.
  - intros d t. rewrite ensure_store. destruct (decide (d = i)) as [->|]; [rewrite Hc|]; eauto.
Qed.

(** *** Delivery *)
Definition local_pointer (v : SceneView) (t : Z) (e : MirPointerEvent) : MirPointerEvent :=
  pointer_at (shift (pointer_x e) (px (input_top_left v t))) (shift (pointer_y e) (py (input_top_left v t))) e.

Lemma deliver_pointer_run v t e s :
  deliver v t (Pointer e) s = Run (Ret tt) s [Consume t (Pointer (local_pointer v t e))].
Proof. done. Qed.
Lemma deliver_still_run v t e s :
  ∃ e', deliver_without_relative_motion v t e s = Run (Ret tt) s [Consume t (Pointer e')] ∧
    device_id (pointer_header e') = device_id (pointer_header e) ∧ pointer_action_of e' = pointer_action_of e.
Proof. by eexists. Qed.

Definition crossing_event (v : SceneView) (a : pointer_action) (e : MirPointerEvent) (t : Z) : disp_obs :=
  let h := pointer_header e in
  Consume t (Pointer
    (make_pointer_event (mkHeader (device_id h) (event_time h) (modifiers h) []) a (buttons e)
      (shift (pointer_x e) (px (input_top_left v t))) (shift (pointer_y e) (py (input_top_left v t)))
      (hscroll e) (vscroll e) (Events.dx e) (Events.dy e))).

(** The leave and enter events of a change of target. *)
Definition crossings (v : SceneView) (e : MirPointerEvent) (old new : option Z) : list disp_obs :=
  (crossing_event v pointer_leave e <$> option_list old) ++ (crossing_event v pointer_enter e <$> option_list new).

Lemma change_target_run v i e st target s :
  change_target v i e st target s =
    Run (Ret tt) (set_pointers (<[i := mkPIS target (gesture_owner st)]> (pointer_state_by_id s)) s)
      (crossings v e (current_target st) target).
Proof. destruct st as [[o|] g], target as [n|]; done. Qed.

Lemma crossings_good v e st target s h :
  let i := device_id (pointer_header e) in
  disp_inv s h → ensure_pointer_state i s = st → gesture_owner st = None →
  (∀ t, target = Some t → t ∈ in_scene h) →
  let t := crossings v e (current_target st) target in
  disp_inv (set_pointers (<[i := mkPIS target None]> (pointer_state_by_id s)) s) (foldl hist_step h t) ∧
  delivery_protocol h t.
Proof.
  intros i [He Ho Hs Ht Hf Hst] <- Hg Htg t.
  assert (foldl hist_step h t = mkHist (match target with Some n => <[i := n]> (delete i (entered h)) | None => delete i (entered h) end)
    (in_scene h) (h_focus h) (h_started h)) as ->.
  { assert (current_target (ensure_pointer_state i s) = None → delete i (entered h) = entered h) as Hd.
    { intros Hn. apply delete_id. by rewrite He. }
    subst t. unfold crossings. destruct (current_target (ensure_pointer_state i s)) as [o|] eqn:Hc;
      destruct target as [n|]; cbn; fold i; rewrite ?Hd by done; by destruct h. }
  split.
  - constructor; [..|done|done|done].
    + intros d. rewrite ensure_store. cbn [entered]. destruct (decide (d = i)) as [->|Hne].
      * destruct target; [by rewrite lookup_insert_eq|by rewrite lookup_delete_eq].
      * destruct target; rewrite ?lookup_insert_ne, lookup_delete_ne; done.
    + intros d g. rewrite ensure_store. destruct (decide (d = i)); [done|auto].
    + intros d g. rewrite ensure_store. destruct (decide (d = i)); cbn [current_target in_scene]; [auto|].
      intros Hc. by eapply Hs.
  - subst t. unfold crossings. specialize (He i). specialize (Hs i).
    destruct (current_target (ensure_pointer_state i s)) as [o|] eqn:Hc; destruct target as [n|]; cbn; fold i;
      repeat split; auto; by rewrite lookup_delete_eq.
Qed.

Lemma find_target_scene v p t : find_target_surface v p = Some t → t ∈ scene_order v ∧ input_area_contains v t p = true.
Proof.
  unfold find_target_surface. assert (∀ l o, foldl (λ top_target target,
    if input_area_contains v target p then Some target else top_target) o l = Some t →
    o = Some t ∨ t ∈ l ∧ input_area_contains v t p = true) as Hgen.
  { induction l as [|y l IH]; intros o; cbn; [by left|]. intros [Hc|[H1 H2]]%IH.
    - destruct (input_area_contains v y p) eqn:Hy; [|by left]. simplify_eq. right. split; [left|done].
    - right. split; [by right|done]. }
  intros [?|?]%Hgen; done.
Qed.

(** *** Pointer events *)
Definition pointer_ok (e : MirPointerEvent) : Prop :=
  pointer_action_of e ≠ pointer_enter ∧ pointer_action_of e ≠ pointer_leave.
#[export] Instance pointer_ok_dec e : Decision (pointer_ok e).
Proof. unfold pointer_ok. apply _. Defined.

Lemma plain_step e t h :
  pointer_ok e → hist_step h (Consume t (Pointer e)) = h.
Proof. intros [H1 H2]. cbn. by destruct (pointer_action_of e). Qed.

Lemma plain_good e t s h :
  let i := device_id (pointer_header e) in
  pointer_ok e → disp_inv s h → current_target (ensure_pointer_state i s) = Some t →
  delivery_protocol h [Consume t (Pointer e)].
Proof.
  intros i Hok [He _ Hs _ _ _] Hc. split; [|done]. cbn. fold i. split; [by eapply Hs|].
  rewrite bool_decide_false by apply Hok. by rewrite He, Hc.
Qed.

(** Following the pointer once no gesture holds it. *)
Lemma retarget_good v e st target s h :
  let i := device_id (pointer_header e) in
  disp_inv s h → ensure_pointer_state i s = st → gesture_owner st = None →
  (∀ t, target = Some t → t ∈ in_scene h) →
  ∃ s' t, pwhen (bool_decide (current_target st ≠ target)) (change_target v i e st target) s = Run (Ret tt) s' t ∧
    disp_inv s' (foldl hist_step h t) ∧ delivery_protocol h t ∧
    ensure_pointer_state i s' = mkPIS target None ∧ in_scene (foldl hist_step h t) = in_scene h.
Proof.
  intros i Hinv Hst Hg Htg. destruct (bool_decide_reflect (current_target st ≠ target)) as [Hne|Heq]; cbn [pwhen].
  - exists (set_pointers (<[i := mkPIS target None]> (pointer_state_by_id s)) s), (crossings v e (current_target st) target).
    rewrite change_target_run, Hg. split; [done|].
    destruct (crossings_good v e st target s h) as [H1 H2]; [done..|]. split; [done|]. split; [done|]. split.
    + rewrite ensure_store. by rewrite decide_True.
    + unfold crossings. by destruct (current_target st), target.
  - apply dec_stable in Heq. exists s, []. split; [done|]. split; [done|]. split; [done|]. split; [|done].
    rewrite Hst. destruct st as [c o]. cbn in *. by subst.
Qed.

Lemma dispatch_pointer_good v e s h :
  pointer_ok e → (∀ t, t ∈ scene_order v → t ∈ in_scene h) → disp_inv s h →
  good h (dispatch_pointer v (device_id (pointer_header e)) e s).
Proof.
  intros Hok Hscene Hinv. set (i := device_id (pointer_header e)). unfold dispatch_pointer.
  rewrite pbind_get. set (st := ensure_pointer_state i s).
  apply good_silent with (a := tt) (s' := set_pointers (<[i := st]> (pointer_state_by_id s)) s); [done|].
  assert (disp_inv (set_pointers (<[i := st]> (pointer_state_by_id s)) s) h) as Hinv1.
  { apply store_inv; [done..|]. by apply Hinv. }
  assert (ensure_pointer_state i (set_pointers (<[i := st]> (pointer_state_by_id s)) s) = st) as Hst1.
  { rewrite ensure_store. by rewrite decide_True. }
  set (s1 := set_pointers _ s) in *. clearbody s1. clearbody st. clear Hinv s.
  set (target := find_target_surface v _).
  assert (∀ t, target = Some t → t ∈ in_scene h) as Htg by (intros t [Ht _]%find_target_scene; by apply Hscene).
  clearbody target. cbn zeta.
  destruct (gesture_owner st) as [owner|] eqn:Hg.
  - assert (current_target st = Some owner) as Hc by (rewrite <- Hst1; apply Hinv1; by rewrite Hst1).
    apply good_bind with (a := tt) (s' := s1) (t := [Consume owner (Pointer (local_pointer v owner e))]); [done| |].
    { eapply plain_good; [done|done|]. cbn. fold i. by rewrite Hst1. }
    cbn [foldl]. rewrite plain_step by done. destruct (is_gesture_terminator e); [|by apply good_ret].
    set (s2 := set_pointers (<[i := mkPIS (current_target st) None]> (pointer_state_by_id s1)) s1).
    assert (disp_inv s2 h) as Hinv2 by (apply store_inv; [done|by rewrite Hst1|done]).
    assert (ensure_pointer_state i s2 = mkPIS (current_target st) None) as Hst2.
    { unfold s2. rewrite ensure_store. by rewrite decide_True. }
    destruct (retarget_good v e _ target s2 h Hinv2 Hst2 eq_refl Htg) as (s3 & t & Hrun & Hinv3 & Hp & _).
    apply good_bind with (a := tt) (s' := s3) (t := t); [|done|by apply good_ret].
    cbn [pwhen]. refine (eq_trans (pbind_silent _ _ _ tt s2 eq_refl) _). exact Hrun.
  - case_bool_decide as Hup; [by apply good_ret|].
    destruct (retarget_good v e st target s1 h Hinv1 Hst1 Hg Htg) as (s2 & t & Hrun & Hinv2 & Hp & Hst2 & _).
    fold i in Hrun, Hst2. apply good_bind with (a := tt) (s' := s2) (t := t); [done|done|]. clear Hp Hrun.
    set (h2 := foldl hist_step h t) in *. clearbody h2.
    destruct target as [tg|]; [|by apply good_ret].
    set (s3 := if bool_decide (pointer_action_of e = button_down)
      then set_pointers (<[i := mkPIS (Some tg) (Some tg)]> (pointer_state_by_id s2)) s2 else s2).
    assert (disp_inv s3 h2 ∧ current_target (ensure_pointer_state i s3) = Some tg) as [Hinv3 Hc3].
    { unfold s3. case_bool_decide; [|by rewrite Hst2]. split.
      - apply store_inv; [done|by rewrite Hst2|done].
      - rewrite ensure_store. by rewrite decide_True. }
    apply good_silent with (a := tt) (s' := s3); [unfold s3; by case_bool_decide|]. clearbody s3.
    destruct (bool_decide (current_target st ≠ Some tg)).
    + case_bool_decide; [|by apply good_ret].
      destruct (deliver_still_run v tg e s3) as (e' & He & Hd & Ha).
      assert (pointer_ok e') as Hok' by (unfold pointer_ok; by rewrite Ha).
      eapply good_bind; [exact He| |cbn [foldl]; rewrite plain_step by done; by apply good_ret].
      eapply plain_good; [done|exact Hinv3|]. by rewrite Hd.
    + eapply good_bind; [apply deliver_pointer_run| |cbn [foldl]; rewrite plain_step by done; by apply good_ret].
      by eapply plain_good.
Qed.

(** *** Touch events *)
Lemma touch_action_at e i c :
  touch_wf e → 0 ≤ i → points e !! Z.to_nat i = Some c → mir_touch_event_action e i = Ret (action c).
Proof.
  intros Hwf Hi Hp. unfold mir_touch_event_action, touch_event_action. rewrite (contact_get_ok i c) by done.
  unfold points in Hp. apply lookup_take_Some in Hp as [_ Hlt]. destruct Hwf.
  destruct (Z.ltb_spec (count e) i); [lia|done].
Qed.

Lemma all_actions_spec a e :
  touch_wf e → all_actions a e (indices (count e)) = Ret (bool_decide (Forall (λ c, action c = a) (points e))).
Proof.
  intros Hwf. unfold indices.
  assert (length (points e) = Z.to_nat (count e)) as Hl.
  { unfold points. destruct Hwf. rewrite length_take. lia. }
  rewrite <- Hl. assert (∀ k l, points e = take k (points e) ++ l →
    all_actions a e (Z.of_nat <$> seq k (length l)) = Ret (bool_decide (Forall (λ c, action c = a) l))) as Hgen.
  2: { by apply (Hgen 0%nat). }
  intros k l. revert k. induction l as [|c l IH]; intros k Hk; [done|]. cbn [length seq fmap list_fmap all_actions].
  assert (k < length (points e))%nat as Hlt.
  { apply (f_equal length) in Hk. rewrite length_app, length_take in Hk. cbn in Hk. lia. }
  assert (points e !! k = Some c) as Hc.
  { rewrite Hk. rewrite lookup_app_r; rewrite length_take; [|lia].
    replace (k - k `min` length (points e))%nat with 0%nat by lia. done. }
  rewrite (touch_action_at e _ c) by (done || lia || by rewrite Nat2Z.id). cbn [obind].
  destruct (decide (action c = a)) as [Ha|Ha].
  - rewrite bool_decide_false by tauto. rewrite IH by (rewrite (take_S_r _ _ c) by done; by rewrite <- app_assoc).
    f_equal. apply bool_decide_ext. rewrite Forall_cons. tauto.
  - rewrite bool_decide_true by done. f_equal. symmetry. apply bool_decide_eq_false. rewrite Forall_cons. tauto.
Qed.

(** The contact slot whose position starts a gesture: the first in use, or
    whatever the slot holds when the event has no contacts. *)
Lemma touch_axis_at_start e : touch_wf e →
  ∃ c, contacts e !! 0%nat = Some c ∧
    mir_touch_event_axis_value e 0 axis_x = Ret (x c) ∧ mir_touch_event_axis_value e 0 axis_y = Ret (y c).
Proof.
  intros [Hl Hc]. destruct (lookup_lt_is_Some_2 (contacts e) 0) as [c Hlk]; [rewrite Hl; unfold max_count; lia|].
  exists c. split; [done|]. unfold mir_touch_event_axis_value, touch_event_x, touch_event_y, contact_get, throw_if_out_of_bounds.
  destruct (Z.ltb_spec (count e) 0); [lia|]. cbn [obind]. change (Z.to_nat 0) with 0%nat. by rewrite Hlk.
Qed.

Lemma deliver_touch_run v t e s :
  touch_wf e →
  ∃ e', deliver v t (Touch e) s = Run (Ret tt) s [Consume t (Touch e')] ∧
    transform_positions (to_displacement (input_top_left v t)) (Touch e) = Ret (Touch e').
Proof.
  intros Hwf. destruct (transform_touch_spec (to_displacement (input_top_left v t)) e Hwf) as (e' & He & _).
  exists e'. unfold deliver, transform_positions. rewrite He. done.
Qed.

(** The owner of the gesture an event belongs to. *)
Definition touch_owner (v : SceneView) (e : MirTouchEvent) (old : option Z) : option Z :=
  if bool_decide (Forall (λ c, action c = touch_down) (points e))
  then match contacts e with
       | c :: _ => find_target_surface v (Pt (f32_to_int (x c)) (f32_to_int (y c)))
       | [] => old
       end
  else old.

Lemma dispatch_touch_run v i e s :
  touch_wf e →
  let owner := touch_owner v e (default None (touch_state_by_id s !! i)) in
  ∃ t, dispatch_touch v i e s = Run (Ret (bool_decide (owner ≠ None)))
      (set_touches (<[i := if bool_decide (Forall (λ c, action c = touch_up) (points e)) then None else owner]>
        (touch_state_by_id s)) s) t ∧
    match owner with
    | Some g => ∃ e', t = [Consume g (Touch e')] ∧
        transform_positions (to_displacement (input_top_left v g)) (Touch e) = Ret (Touch e')
    | None => t = []
    end.
Proof.
  intros Hwf owner. unfold dispatch_touch. rewrite pbind_get. set (old := default None _) in *.
  unfold is_gesture_start, is_gesture_end. rewrite !all_actions_spec by done.
  destruct (touch_axis_at_start e Hwf) as (c & Hc & Hx & Hy).
  set (s1 := set_touches (<[i := old]> (touch_state_by_id s)) s).
  set (s2 := set_touches (<[i := owner]> (touch_state_by_id s)) s).
  erewrite pbind_silent; [|reflexivity]. fold s1. erewrite pbind_silent; [|reflexivity].
  erewrite (pbind_silent _ _ s1 owner s2).
  2: { subst s2 owner. unfold touch_owner. case_bool_decide; cbn iota; [|done]. rewrite Hx, Hy.
       erewrite pbind_silent; [|reflexivity]. erewrite pbind_silent; [|reflexivity]. cbn zeta.
       unfold store_touch_owner. rewrite pbind_modify. unfold pret. unfold s1, set_touches. cbn.
       rewrite insert_insert_eq. destruct (contacts e) as [|c' cs]; [done|]. by injection Hc as ->. }
  clearbody owner. destruct owner as [g|].
  - destruct (deliver_touch_run v g e s2 Hwf) as (e' & Hd & Ht). eexists. split; [|by eexists].
    erewrite pbind_run; [|exact Hd|].
    2: { erewrite pbind_silent; [|reflexivity].
         erewrite (pbind_silent _ _ s2 tt (set_touches (<[i := if bool_decide (Forall (λ c, action c = touch_up) (points e))
           then None else Some g]> (touch_state_by_id s)) s)); [reflexivity|].
         case_bool_decide; [|done]. unfold s2, store_touch_owner, pmodify, set_touches. cbn. by rewrite insert_insert_eq. }
    done.
  - exists []. split; [|done]. unfold pret, s2. by destruct (bool_decide (Forall _ _)).
Qed.

Lemma dispatch_touch_good v i e s h :
  touch_wf e → (∀ t, t ∈ scene_order v → t ∈ in_scene h) → disp_inv s h → good h (dispatch_touch v i e s).
Proof.
  intros Hwf Hscene Hinv. destruct (dispatch_touch_run v i e s Hwf) as (t & -> & Ht).
  set (owner := touch_owner _ _ _) in *.
  assert (∀ g, owner = Some g → g ∈ in_scene h) as Hg.
  { intros g. unfold owner, touch_owner. case_bool_decide.
    - destruct (contacts e) eqn:Hc; [destruct Hwf as [Hl _]; by rewrite Hc in Hl|].
      intros [? _]%find_target_scene. by apply Hscene.
    - destruct (touch_state_by_id s !! i) as [o|] eqn:Hl; [|done]. cbn. intros ->. by eapply (iv_touch _ _ Hinv). }
  clearbody owner. unfold good. cbn [post trace].
  assert (foldl hist_step h t = h ∧ delivery_protocol h t) as [-> Hp].
  { destruct owner as [g|]; [|by subst]. destruct Ht as (e' & -> & _). split; [done|]. cbn. by auto. }
  split; [|done]. destruct Hinv as [He Ho Hs Htc Hf Hst]. constructor; [done..| |done|done].
  intros d g. cbn [touch_state_by_id set_touches]. intros [[-> Hd]|[_ Hd]]%lookup_insert_Some; [|by eapply Htc].
  case_bool_decide; [done|]. by apply Hg.
Qed.

(** *** Surfaces that leave, and the rest *)
Lemma forget_some t o g : forget t o = Some g ↔ o = Some g ∧ g ≠ t.
Proof. unfold forget. case_bool_decide; split; naive_solver. Qed.

Lemma surface_removed_good v t s h :
  alive v t = true → disp_inv s h →
  ends (surface_removed v t s) (λ s' tr, tr = [] ∧ disp_inv s' (hist_step h (SurfaceRemoved t))).
Proof.
  intros Ha [He Ho Hs Htc Hf Hst]. unfold surface_removed. rewrite pbind_get.
  set (f := match focus_surface s with Some f => _ | None => None end).
  set (s1 := set_focus_surface (forget t (focus_surface s)) s).
  apply (ends_bind _ _ _ tt s1 []).
  { unfold s1, forget, f. destruct (focus_surface s) as [g|] eqn:Hg; [|by destruct s; cbn in *; subst].
    destruct (decide (g = t)) as [->|Hne].
    - rewrite Ha, !bool_decide_true by done. done.
    - rewrite (bool_decide_false (Some g = Some t)) by congruence.
      rewrite bool_decide_false by (destruct (alive v g); congruence). destruct s; cbn in *; by subst. }
  split; [done|]. cbn [post pmodify].
  assert (∀ d, ensure_pointer_state d (set_touches (forget t <$> touch_state_by_id s1)
      (set_pointers ((λ st, mkPIS (forget t (current_target st)) (forget t (gesture_owner st))) <$> pointer_state_by_id s1) s1))
    = mkPIS (forget t (current_target (ensure_pointer_state d s))) (forget t (gesture_owner (ensure_pointer_state d s)))) as Hen.
  { intros d. unfold ensure_pointer_state. cbn [pointer_state_by_id set_touches set_pointers]. change (pointer_state_by_id s1) with (pointer_state_by_id s). rewrite lookup_fmap.
    by destruct (pointer_state_by_id s !! d). }
  constructor; cbn [hist_step entered in_scene h_focus h_started].
  - intros d. rewrite Hen. cbn [current_target]. rewrite <- He. unfold others. apply option_eq. intros g.
    rewrite map_lookup_filter_Some, forget_some. done.
  - intros d g. rewrite Hen. cbn [gesture_owner current_target]. rewrite !forget_some. intros [? ?]. split; [by apply Ho|done].
  - intros d g. rewrite Hen. cbn [current_target]. rewrite forget_some, elem_of_difference, elem_of_singleton.
    intros [? ?]. split; [by eapply Hs|done].
  - intros d g. cbn [touch_state_by_id set_touches]. rewrite lookup_fmap, fmap_Some.
    intros (o & Hl & [-> Hne]%eq_sym%forget_some). rewrite elem_of_difference, elem_of_singleton. split; [by eapply Htc|done].
  - by rewrite Hf.
  - done.
Qed.

(** ** The dispatcher as a machine *)
Inductive disp_op :=
  | OpDispatch (v : SceneView) (ev : MirEvent)
  | OpSurfaceAdded (surface : Z)
  | OpSurfaceRemoved (v : SceneView) (surface : Z)
  | OpDeviceReset (id : Z)
  | OpSetFocus (target : option Z)
  | OpClearFocus
  | OpStart
  | OpStop.

Definition ignore {A} (m : M A) : M unit := do* m in pret tt.

(** Each call is marked in the history. *)
Definition disp_exec (op : disp_op) : M unit :=
  match op with
  | OpDispatch v ev => ignore (dispatch v ev)
  | OpSurfaceAdded t => pemit (SurfaceAdded t)
  | OpSurfaceRemoved v t => do* surface_removed v t in pemit (SurfaceRemoved t)
  | OpDeviceReset id => do* device_reset id in pemit (DeviceReset id)
  | OpSetFocus t => do* set_focus t in pemit (FocusSet t)
  | OpClearFocus => do* clear_focus in pemit (FocusSet None)
  | OpStart => do* start in pemit Started
  | OpStop => do* stop in pemit Stopped
  end.

Definition disp_event_ok (ev : MirEvent) : Prop :=
  match ev with Pointer e => pointer_ok e | Touch e => touch_wf e | _ => True end.
#[export] Instance disp_event_ok_dec ev : Decision (disp_event_ok ev).
Proof. destruct ev; cbn; apply _. Defined.

(** Obligations: the scene lists surfaces that were added and not removed; a
    surface exists while its removal is reported; devices send no enter or
    leave of their own, and touch events come from the event constructors. *)
Definition disp_allowed (h : list disp_obs) (op : disp_op) : bool :=
  match op with
  | OpDispatch v ev =>
      bool_decide (Forall (.∈ in_scene (foldl hist_step hist0 h)) (scene_order v)) && bool_decide (disp_event_ok ev)
  | OpSurfaceRemoved v t => alive v t
  | _ => true
  end.

Definition disp_machine : machine := {|
  m_state := Dispatcher;
  m_op := disp_op;
  m_obs := disp_obs;
  m_init s := s = new_dispatcher;
  m_allowed _ h op := disp_allowed h op;
  m_exec := disp_exec
|}.

Lemma good_ignore {A} h (m : M A) s : good h (m s) → good h (ignore m s).
Proof.
  unfold good, ignore, pbind. destruct (m s) as [[a|e] s' t]; cbn; [|done]. by rewrite app_nil_r.
Qed.
Lemma good_mark {A} h (m : M A) o s :
  trace (m s) = [] → (∀ e, value (m s) ≠ Throw e) →
  disp_inv (post (m s)) (hist_step h o) → may_consume h o → good h ((do* m in pemit o) s).
Proof.
  intros Ht Hv Hi Hc. unfold good, pbind. destruct (m s) as [[a|e] s' t]; cbn in *; [|by destruct (Hv e)].
  subst t. cbn. auto.
Qed.

Lemma disp_op_good op s h :
  disp_inv s (foldl hist_step hist0 h) → disp_allowed h op = true → good (foldl hist_step hist0 h) (disp_exec op s).
Proof.
  set (x := foldl hist_step hist0 h). intros Hinv Hok. destruct op as [v ev|t|v t|id|t| | |]; cbn [disp_exec].
  - apply good_ignore. cbn in Hok. apply andb_true_iff in Hok as [Hs%bool_decide_eq_true He%bool_decide_eq_true].
    rewrite Forall_forall in Hs. destruct ev as [e|e|e|k]; cbn [dispatch].
    + unfold dispatch_key. rewrite pbind_get. destruct (started s) eqn:Hst; cbn [negb]; [|by apply good_ret].
      destruct (focus_surface s) as [f|] eqn:Hf; [|by apply good_ret].
      destruct (alive v f); [|by apply good_ret].
      eapply good_bind; [reflexivity| |by apply good_ret]. split; [|done]. destruct Hinv. cbn. split; congruence.
    + by apply dispatch_touch_good.
    + by apply dispatch_pointer_good.
    + by split.
  - split; [|done]. destruct Hinv as [He Ho Hs Ht Hf Hst]. constructor; cbn; try done.
    + intros d g Hg. apply elem_of_union. right. by eapply Hs.
    + intros d g Hg. apply elem_of_union. right. by eapply Ht.
  - destruct (surface_removed_good v t s x Hok Hinv) as [Ht Hi].
    apply good_mark; [done| |done|done]. intros e. unfold surface_removed. rewrite pbind_get. by destruct (bool_decide _).
  - apply good_mark; [| | |done]; unfold device_reset; rewrite pbind_get; destruct (started s) eqn:Hst; try done.
    + destruct Hinv as [He Ho Hs Ht Hf Hst']. cbn [hist_step]. rewrite Hst', Hst.
      cbn [pwhen pmodify post].
      assert (∀ d, ensure_pointer_state d (set_touches (delete id (touch_state_by_id s))
        (set_pointers (delete id (pointer_state_by_id s)) s)) =
        if decide (d = id) then mkPIS None None else ensure_pointer_state d s) as Hen.
      { intros d. unfold ensure_pointer_state. cbn [pointer_state_by_id set_pointers set_touches].
        destruct (decide (d = id)) as [->|]; [by rewrite lookup_delete_eq|by rewrite lookup_delete_ne]. }
      constructor; cbn [entered in_scene h_focus h_started]; [..|done|cbn; congruence].
      * intros d. rewrite Hen. destruct (decide (d = id)) as [->|]; [by rewrite lookup_delete_eq|by rewrite lookup_delete_ne].
      * intros d g. rewrite Hen. destruct (decide (d = id)); [done|auto].
      * intros d g. rewrite Hen. destruct (decide (d = id)); [done|eauto].
      * intros d g. cbn [touch_state_by_id set_touches]. intros [_ Hl]%lookup_delete_Some. eauto.
    + cbn [hist_step]. rewrite (iv_started _ _ Hinv), Hst. done.
  - apply good_mark; [done|done| |done]. by destruct Hinv.
  - apply good_mark; [done|done| |done]. by destruct Hinv.
  - apply good_mark; [done|done| |done]. by destruct Hinv.
  - apply good_mark; [done|done| |done]. destruct Hinv as [He Ho Hs Ht Hf Hst].
    constructor; cbn [hist_step entered in_scene h_focus h_started]; [..|done|done];
      intros d; cbn; unfold ensure_pointer_state; cbn; rewrite ?lookup_empty; done.
Qed.

Lemma disp_reachable s h :
  reachable disp_machine s h → disp_inv s (foldl hist_step hist0 h) ∧ delivery_protocol hist0 h.
Proof.
  revert s h. apply (reachable_invariant disp_machine).
  - intros s ->. split; [|done]. constructor; cbn; [..|done|done];
      intros d; cbn; unfold ensure_pointer_state; cbn; rewrite ?lookup_empty; done.
  - intros s h op _ [Hi Hp] Hok. destruct (disp_op_good op s h Hi Hok). cbn [m_exec disp_machine].
    rewrite foldl_app, delivery_protocol_app. auto.
Qed.

(** *** A pointer event during a gesture *)
Lemma dispatch_gesture_run v e s g :
  let i := device_id (pointer_header e) in
  let st := ensure_pointer_state i s in
  gesture_owner st = Some g →
  ∃ s' t, dispatch_pointer v i e s = Run (Ret true) s' (Consume g (Pointer (local_pointer v g e)) :: t) ∧
    ensure_pointer_state i s' =
      (if is_gesture_terminator e
       then mkPIS (find_target_surface v (Pt (f32_to_int (pointer_x e)) (f32_to_int (pointer_y e)))) None else st) ∧
    (is_gesture_terminator e = false → t = []).
Proof.
  intros i st Hg. unfold dispatch_pointer. rewrite pbind_get. fold st. erewrite pbind_silent; [|reflexivity].
  rewrite Hg. set (s1 := set_pointers (<[i := st]> (pointer_state_by_id s)) s).
  erewrite pbind_run; [|apply deliver_pointer_run|reflexivity]. cbn [app].
  destruct (is_gesture_terminator e) eqn:Ht; cbn [pwhen].
  - cbn zeta. set (target := find_target_surface v _). set (s2 := set_pointers (<[i := mkPIS (current_target st) None]> (pointer_state_by_id s1)) s1).
    cbn [current_target].
    destruct (bool_decide_reflect (current_target st ≠ target)) as [Hne|Heq].
    + erewrite (pbind_run _ _ s1 tt _ (crossings v e (current_target st) target)); [| |reflexivity].
      2: { erewrite (pbind_silent _ _ s1 tt s2); [|reflexivity]. cbn [pwhen]. apply (change_target_run v i e (mkPIS (current_target st) None) target s2). }
      do 2 eexists. split; [reflexivity|]. split; [|done]. cbn [post pret gesture_owner]. rewrite ensure_store. by rewrite decide_True.
    + apply dec_stable in Heq. erewrite (pbind_run _ _ s1 tt s2 []); [|reflexivity|reflexivity].
      do 2 eexists. split; [reflexivity|]. split; [|done]. cbn [post pret]. unfold s2. rewrite ensure_store, decide_True by done.
      by rewrite Heq.
  - do 2 eexists. split; [reflexivity|]. split; [|done]. cbn. unfold s1. rewrite ensure_store. by rewrite decide_True.
Qed.

(** ** Properties *)
Definition disp_example_view : SceneView :=
  mkView [1; 2] (λ t p, if bool_decide (t = 1) then true else bool_decide (100 ≤ px p)) (λ t, Pt (t * 10) 0) (λ _, true).
Definition disp_example_pointer (a : pointer_action) (b at_x : Z) : MirEvent :=
  Pointer (mkPointer (mkHeader 4 0 0 []) a b (f32_of_int at_x) f32_zero f32_zero f32_zero f32_zero f32_zero).
Definition disp_example_ops : list disp_op :=
  [OpSurfaceAdded 1; OpSurfaceAdded 2; OpStart; OpSetFocus (Some 1);
   OpDispatch disp_example_view (Key (mkKey (mkHeader 3 0 0 []) key_down 65 30));
   OpDispatch disp_example_view (disp_example_pointer pointer_motion 0 5);
   OpDispatch disp_example_view (disp_example_pointer button_down 1 6);
   OpDispatch disp_example_view (disp_example_pointer pointer_motion 1 150);
   OpDispatch disp_example_view (disp_example_pointer button_up 0 150);
   OpDispatch disp_example_view (disp_example_pointer pointer_motion 0 160);
   OpSurfaceRemoved disp_example_view 1].
Definition disp_example_run : Dispatcher * list disp_obs :=
  default (new_dispatcher, []) (run_ops disp_machine disp_example_ops new_dispatcher []).
Lemma disp_example_reachable : reachable disp_machine disp_example_run.1 disp_example_run.2.
Proof. apply (run_ops_from_init disp_machine disp_example_ops new_dispatcher); [done|]. by vm_compute. Qed.

(** C13. Delivery keeps the crossing protocol in every history: the pointer of a
    device enters a surface only when it is in none, leaves only the surface it
    entered, and every other pointer event goes to the surface it is in; touch
    and pointer events only ever reach surfaces that are in the scene, and keys
    only the focused surface of a started dispatcher.  A surface that is
    removed is forgotten by every pointer, gesture and the focus at once. *)
Theorem input_delivery_protocol s h :
  reachable disp_machine s h →
  delivery_protocol hist0 h ∧
  ∀ d, entered (foldl hist_step hist0 h) !! d = current_target (ensure_pointer_state d s).
Proof. intros Hr. destruct (disp_reachable s h Hr) as [[He _ _ _ _ _] Hp]. done. Qed.

Lemma input_delivery_protocol_witness :
  delivery_protocol hist0 disp_example_run.2 ∧ length disp_example_run.2 = 13%nat.
Proof.
  split; [exact (proj1 (input_delivery_protocol _ _ disp_example_reachable))|by vm_compute].
Defined.

(** A pressed button or a touch gesture holds its surface: while a gesture
    has an owner every pointer event of the device is delivered to the owner
    first, in the owner's coordinates, whatever lies under the pointer, and
    nothing else happens until all buttons are up; then the owner is released
    and the pointer belongs to the topmost surface under it.  A touch event
    that does not start a gesture goes to the surface where the gesture
    started, or to nobody. *)
Theorem gesture_holds_surface v s i :
  (∀ e g, device_id (pointer_header e) = i → gesture_owner (ensure_pointer_state i s) = Some g →
    let r := dispatch v (Pointer e) s in
    value r = Ret true ∧
    head (trace r) = Some (Consume g (Pointer (local_pointer v g e))) ∧
    ensure_pointer_state i (post r) =
      (if is_gesture_terminator e
       then mkPIS (find_target_surface v (Pt (f32_to_int (pointer_x e)) (f32_to_int (pointer_y e)))) None
       else ensure_pointer_state i s) ∧
    (is_gesture_terminator e = false → length (trace r) = 1%nat)) ∧
  (∀ e, device_id (touch_header e) = i → touch_wf e → Exists (λ c, action c ≠ touch_down) (points e) →
    let owner := default None (touch_state_by_id s !! i) in
    let r := dispatch v (Touch e) s in
    value r = Ret (bool_decide (owner ≠ None)) ∧
    Forall2 (λ g o, ∃ e', o = Consume g (Touch e') ∧ points e' = shifted (to_displacement (input_top_left v g)) <$> points e)
      (option_list owner) (trace r) ∧
    touch_state_by_id (post r) !! i =
      Some (if bool_decide (Forall (λ c, action c = touch_up) (points e)) then None else owner)).
Proof.
  split.
  - intros e g <- Hg. cbn zeta. cbn [dispatch].
    destruct (dispatch_gesture_run v e s g Hg) as (s' & t & -> & Hs & Ht). split; [done|]. split; [done|].
    split; [done|]. intros Hf. by rewrite Ht.
  - intros e <- Hwf Hex owner. cbn zeta. cbn [dispatch].
    destruct (dispatch_touch_run v (device_id (touch_header e)) e s Hwf) as (t & -> & Ht).
    assert (touch_owner v e owner = owner) as Ho.
    { unfold touch_owner. rewrite bool_decide_false; [done|]. intros Hall.
      apply Exists_exists in Hex as (c & Hc & Hn). rewrite Forall_forall in Hall. auto. }
    fold owner in Ht |- *. rewrite Ho in *. clearbody owner. split; [done|]. split.
    + cbn [trace]. destruct owner as [g|]; [|by subst]. destruct Ht as (e' & -> & He).
      constructor; [|done]. exists e'. split; [done|].
      destruct (transform_touch_spec (to_displacement (input_top_left v g)) e Hwf) as (e2 & He2 & _ & _ & _ & Hp & _).
      unfold transform_positions in He. rewrite He2 in He. cbn in He. by simplify_eq.
    + cbn [post touch_state_by_id set_touches]. by rewrite lookup_insert_eq.
Qed.

Lemma gesture_holds_surface_witness :
  value (dispatch disp_example_view (Pointer (mkPointer (mkHeader 4 0 0 []) pointer_motion 1 (f32_of_int 150) f32_zero
    f32_zero f32_zero f32_zero f32_zero)) (set_pointers {[4 := mkPIS (Some 1) (Some 1)]} new_dispatcher)) = Ret true.
Proof.
  refine (proj1 (proj1 (gesture_holds_surface disp_example_view
    (set_pointers {[4 := mkPIS (Some 1) (Some 1)]} new_dispatcher) 4) _ 1 _ _)).
  - reflexivity.
  - by vm_compute.
Defined.
