(* ===== verification/KeyRepeat.v ===== *)
(** Key repeat (src/server/input/key_repeat_dispatcher.cpp): the dispatcher
    that arms an alarm for each key held down and injects repeat events. *)

From S2P Require Import Prelude Geometry Float32 Events.

(** ** State *)

(** What the alarm of a key captured when it was created. *)
Record RepeatAlarm := mkAlarm { alarm_key_code : Z; alarm_modifiers : Z }.
#[export] Instance RepeatAlarm_eq_dec : EqDecision RepeatAlarm.
Proof. solve_decision. Defined.

(** [repeat_alarms_by_scancode] *)
#[local] Abbreviation KeyboardState := (gmap Z RepeatAlarm).

Record KeyRepeat := mkKeyRepeat {
  repeat_enabled : bool;
  repeat_timeout : Z;
  repeat_delay : Z;
  disable_repeat_on_touchscreen : bool;
  touch_button_device : option Z;
  repeat_state_by_device : gmap Z KeyboardState
}.

(** [Next] is the next dispatcher's [dispatch]; the last three mark calls. *)
Inductive repeat_obs :=
  | Next (ev : MirEvent)
  | NextStart
  | NextStop
  | CreateAlarm (device scan_code : Z)
  | RescheduleIn (device scan_code delay : Z)
  | TouchButtonDevice (device : Z)
  | DeviceRemoved (device : Z)
  | StopCalled.
#[export] Instance repeat_obs_eq_dec : EqDecision repeat_obs.
Proof. solve_decision. Defined.

#[local] Abbreviation M := (prog KeyRepeat repeat_obs).

Definition set_touch_button d s :=
  mkKeyRepeat (repeat_enabled s) (repeat_timeout s) (repeat_delay s) (disable_repeat_on_touchscreen s) d (repeat_state_by_device s).
Definition set_repeat_state m s :=
  mkKeyRepeat (repeat_enabled s) (repeat_timeout s) (repeat_delay s) (disable_repeat_on_touchscreen s) (touch_button_device s) m.

Definition new_key_repeat (enabled : bool) (timeout delay : Z) (disable_touch : bool) : KeyRepeat :=
  mkKeyRepeat enabled timeout delay disable_touch None ∅.

(** The alarms of a device, and whether a key has one. *)
Definition alarms_of (d : Z) (s : KeyRepeat) : KeyboardState := default ∅ (repeat_state_by_device s !! d).
Definition armed (s : KeyRepeat) (d c : Z) : Prop := is_Some (alarms_of d s !! c).

Section dispatcher.
(** What the next dispatcher answers, and the cookie the authority makes. *)
Context (next_dispatcher : MirEvent → bool) (make_cookie : Z → list Z).

Definition set_touch_button_device (id : Z) : M unit := pmodify (set_touch_button (Some id)).

Definition remove_device (id : Z) : M unit :=
  do* pmodify (λ s, set_repeat_state (delete id (repeat_state_by_device s)) s) in
  pmodify (λ s, if bool_decide (touch_button_device s = Some id) then set_touch_button None s else s).

(** [DeviceRemovalFilter] *)
Definition device_added (name : string) (id : Z) : M unit := pwhen (bool_decide (name = "mtk-tpd"%string)) (set_touch_button_device id).
Definition device_removed (id : Z) : M unit := remove_device id.

Definition store_alarms (id : Z) (k : KeyboardState) : M unit :=
  pmodify (λ s, set_repeat_state (<[id := k]> (repeat_state_by_device s)) s).

Definition clone_event (id scan_code_ key_code_ modifiers_ now : Z) : M unit :=
  pemit (Next (Key (mkKey (mkHeader id now modifiers_ (make_cookie now)) key_repeat key_code_ scan_code_))).

(** True when the original event is not to be passed on. *)
Definition handle_key_input (id : Z) (now : Z) (kev : MirKeyboardEvent) : M bool :=
  let* s := pget in
  let device_state := alarms_of id s in
  do* store_alarms id device_state in
  let c := scan_code kev in
  match key_action_of kev with
  | key_up =>
      match device_state !! c with
      | None => pret false
      | Some _ => do* store_alarms id (delete c device_state) in pret false
      end
  | key_down =>
      match device_state !! c with
      | Some _ => do* clone_event id c (key_code kev) (modifiers (key_header kev)) now in pret true
      | None =>
          do* pemit (CreateAlarm id c) in
          do* pemit (RescheduleIn id c (repeat_timeout s)) in
          do* store_alarms id (<[c := mkAlarm (key_code kev) (modifiers (key_header kev))]> device_state) in
          pret false
      end
  | key_repeat => pret false
  end.

Definition pass_on (event : MirEvent) : M bool := do* pemit (Next event) in pret (next_dispatcher event).

Definition dispatch (now : Z) (event : MirEvent) : M bool :=
  let* s := pget in
  if negb (repeat_enabled s) then pass_on event else
  match event with
  | Key kev =>
      let id := device_id (key_header kev) in
      if disable_repeat_on_touchscreen s && bool_decide (touch_button_device s = Some id) then pass_on event else
      let* handled := handle_key_input id now kev in
      if handled then pret true else pass_on event
  | _ => pass_on event
  end.

(** The alarm's callback. *)
Definition alarm_fires (id c now : Z) : M unit :=
  let* s := pget in
  match alarms_of id s !! c with
  | None => pret tt
  | Some a =>
      do* clone_event id c (alarm_key_code a) (alarm_modifiers a) now in
      pemit (RescheduleIn id c (repeat_delay s))
  end.

Definition start : M unit := pemit NextStart.
Definition stop : M unit := do* pmodify (set_repeat_state ∅) in pemit NextStop.

(** ** What a history of calls says: the keys held down, as passed on *)
Record Hist := mkHist { held : gset (Z * Z); h_touch : option Z }.
Definition hist0 : Hist := mkHist ∅ None.

Definition keys_of_others (d : Z) (H : gset (Z * Z)) : gset (Z * Z) := filter (λ k : Z * Z, k.1 ≠ d) H.

(** Repeats of the device marked as touch button device are left alone. *)
Definition hist_step (disable_touch : bool) (h : Hist) (o : repeat_obs) : Hist :=
  match o with
  | Next (Key e) =>
      let d := device_id (key_header e) in
      if disable_touch && bool_decide (h_touch h = Some d) then h else
      match key_action_of e with
      | key_down => mkHist ({[(d, scan_code e)]} ∪ held h) (h_touch h)
      | key_up => mkHist (held h ∖ {[(d, scan_code e)]}) (h_touch h)
      | key_repeat => h
      end
  | TouchButtonDevice d => mkHist (held h) (Some d)
  | DeviceRemoved d => mkHist (keys_of_others d (held h)) (if bool_decide (h_touch h = Some d) then None else h_touch h)
  | StopCalled => mkHist ∅ (h_touch h)
  | _ => h
  end.

(** ** The dispatcher as a machine *)
Inductive repeat_op :=
  | OpDispatch (now : Z) (ev : MirEvent)
  | OpAlarm (device scan_code now : Z)
  | OpTouchButton (device : Z)
  | OpRemoveDevice (device : Z)
  | OpStart
  | OpStop.

Definition ignore {A} (m : M A) : M unit := do* m in pret tt.

Definition repeat_exec (op : repeat_op) : M unit :=
  match op with
  | OpDispatch now ev => ignore (dispatch now ev)
  | OpAlarm d c now => alarm_fires d c now
  | OpTouchButton d => do* set_touch_button_device d in pemit (TouchButtonDevice d)
  | OpRemoveDevice d => do* remove_device d in pemit (DeviceRemoved d)
  | OpStart => start
  | OpStop => do* stop in pemit StopCalled
  end.

(** The alarm factory promises that a destroyed alarm does not fire. *)
Definition repeat_machine (timeout delay : Z) (disable_touch : bool) : machine := {|
  m_state := KeyRepeat;
  m_op := repeat_op;
  m_obs := repeat_obs;
  m_init s := s = new_key_repeat true timeout delay disable_touch;
  m_allowed s _ op := match op with OpAlarm d c _ => bool_decide (armed s d c) | _ => true end;
  m_exec := repeat_exec
|}.

Record repeat_inv (timeout delay : Z) (disable_touch : bool) (s : KeyRepeat) (h : Hist) : Prop := {
  iv_enabled : repeat_enabled s = true;
  iv_timeout : repeat_timeout s = timeout;
  iv_delay : repeat_delay s = delay;
  iv_disable : disable_repeat_on_touchscreen s = disable_touch;
  iv_touch : touch_button_device s = h_touch h;
  iv_held d c : armed s d c ↔ (d, c) ∈ held h
}.

Lemma alarms_store d i k s :
  alarms_of d (set_repeat_state (<[i := k]> (repeat_state_by_device s)) s) = if decide (d = i) then k else alarms_of d s.
Proof.
  unfold alarms_of. cbn. destruct (decide (d = i)) as [->|Hne]; [by rewrite lookup_insert_eq|by rewrite lookup_insert_ne].
Qed.

Lemma store_held timeout delay dt s h i k H :
  repeat_inv timeout delay dt s h →
  (∀ c, is_Some (k !! c) ↔ (i, c) ∈ H) → (∀ d c, d ≠ i → (d, c) ∈ H ↔ (d, c) ∈ held h) →
  repeat_inv timeout delay dt (set_repeat_state (<[i := k]> (repeat_state_by_device s)) s) (mkHist H (h_touch h)).
Proof.
  intros [He Ht Hd Hdt Hto Hh] Hk Ho. constructor; try done. intros d c. unfold armed. rewrite alarms_store.
  destruct (decide (d = i)) as [->|Hne]; [apply Hk|]. cbn [held]. rewrite Ho by done. apply Hh.
Qed.

(** One event: an up disarms its key, a first down arms it for [repeat_timeout],
    a second down of an armed key becomes a repeat. *)
Lemma dispatch_key_run timeout delay dt s h now e :
  repeat_inv timeout delay dt s h →
  let d := device_id (key_header e) in
  let c := scan_code e in
  let bypassed := dt && bool_decide (h_touch h = Some d) in
  ∃ s' t, ignore (dispatch now (Key e)) s = Run (Ret tt) s' t ∧
    repeat_inv timeout delay dt s' (foldl (hist_step dt) h t) ∧
    t = (if bypassed then [Next (Key e)] else
         match key_action_of e with
         | key_down =>
             if bool_decide ((d, c) ∈ held h)
             then [Next (Key (mkKey (mkHeader d now (modifiers (key_header e)) (make_cookie now)) key_repeat (key_code e) c))]
             else [CreateAlarm d c; RescheduleIn d c timeout; Next (Key e)]
         | _ => [Next (Key e)]
         end).
Proof.
  intros Hinv d c bypassed. pose proof Hinv as [He Ht Hd Hdt Hto Hh].
  unfold ignore, dispatch. rewrite pbind_assoc, pbind_get, He. cbn [negb]. fold d.
  rewrite Hdt, Hto. fold bypassed. destruct bypassed eqn:Hby.
  { do 2 eexists. split; [reflexivity|]. split; [|done]. cbn. fold d. fold bypassed. by rewrite Hby. }
  assert (is_Some (alarms_of d s !! c) ↔ (d, c) ∈ held h) as Hdc by apply Hh.
  assert (∀ b, is_Some (alarms_of d s !! b) ↔ (d, b) ∈ held h) as Hdb by (intros b; apply Hh).
  assert (repeat_inv timeout delay dt (set_repeat_state (<[d := alarms_of d s]> (repeat_state_by_device s)) s) h) as Hens.
  { destruct h as [H to]. apply (store_held _ _ _ _ (mkHist H to)); [done|apply Hdb|done]. }
  unfold handle_key_input. fold c. unfold bypassed in Hby.
  destruct (key_action_of e) eqn:Ha; unfold ignore, pass_on, clone_event, store_alarms; run_prog; fold d c.
  - destruct (alarms_of d s !! c) as [a|] eqn:Hl; cbn; do 2 eexists; (split; [reflexivity|]); (split; [|done]);
      cbn; fold d c; rewrite Hby, Ha.
    + assert (set_repeat_state (<[d:=delete c (alarms_of d s)]> (<[d:=alarms_of d s]> (repeat_state_by_device s)))
        (set_repeat_state (<[d:=alarms_of d s]> (repeat_state_by_device s)) s) =
        set_repeat_state (<[d:=delete c (alarms_of d s)]> (repeat_state_by_device s)) s) as ->.
      { unfold set_repeat_state. cbn. by rewrite insert_insert_eq. }
      apply store_held; [done| |].
      * intros b. rewrite lookup_delete_is_Some, elem_of_difference, elem_of_singleton, Hdb. naive_solver.
      * intros i b Hi. rewrite elem_of_difference, elem_of_singleton. naive_solver.
    + assert (held h ∖ {[(d, c)]} = held h) as ->; [|by destruct h].
      apply set_eq. intros k. rewrite elem_of_difference, elem_of_singleton. split; [tauto|]. intros Hk. split; [done|].
      intros ->. apply Hdc in Hk as [? ?]. congruence.
  - destruct (alarms_of d s !! c) as [a|] eqn:Hl; cbn.
    + rewrite bool_decide_true by (apply Hdc; by eexists). do 2 eexists. split; [reflexivity|]. split; [|done].
      cbn. fold d. by rewrite Hby.
    + rewrite bool_decide_false by (intros [? ?]%Hdc; congruence). do 2 eexists. split; [reflexivity|].
      split; [|by rewrite Ht]. cbn. fold d c. rewrite Hby, Ha.
      assert (∀ k, set_repeat_state (<[d:=k]> (<[d:=alarms_of d s]> (repeat_state_by_device s)))
        (set_repeat_state (<[d:=alarms_of d s]> (repeat_state_by_device s)) s) =
        set_repeat_state (<[d:=k]> (repeat_state_by_device s)) s) as ->.
      { intros k. unfold set_repeat_state. cbn. by rewrite insert_insert_eq. }
      apply store_held; [done| |].
      * intros b. rewrite lookup_insert_is_Some, elem_of_union, elem_of_singleton, Hdb. naive_solver.
      * intros i b Hi. rewrite elem_of_union, elem_of_singleton. naive_solver.
  - do 2 eexists. split; [reflexivity|]. split; [|done]. cbn. fold d. by rewrite Hby, Ha.
Qed.

Definition good timeout delay dt h (r : run KeyRepeat repeat_obs unit) : Prop :=
  repeat_inv timeout delay dt (post r) (foldl (hist_step dt) h (trace r)).

Lemma remove_device_good timeout delay dt s h d :
  repeat_inv timeout delay dt s h → good timeout delay dt h (repeat_exec (OpRemoveDevice d) s).
Proof.
  intros [He Ht Hd Hdt Hto Hh].
  assert (∀ f, repeat_inv timeout delay dt (set_touch_button f (set_repeat_state (delete d (repeat_state_by_device s)) s))
    (mkHist (keys_of_others d (held h)) f)) as Hinv.
  { intros f. constructor; try done. intros i c. unfold armed, alarms_of. cbn. unfold keys_of_others. rewrite elem_of_filter.
    cbn. rewrite <- Hh. unfold armed, alarms_of. destruct (decide (i = d)) as [->|Hne].
    - rewrite lookup_delete_eq. cbn. rewrite lookup_empty. split; [by intros [? ?]|tauto].
    - rewrite lookup_delete_ne by done. tauto. }
  unfold good. cbn [repeat_exec]. unfold remove_device. run_prog. rewrite Hto. case_bool_decide as Hf.
  - apply (Hinv None).
  - specialize (Hinv (h_touch h)). unfold set_touch_button in Hinv. cbn in Hinv. rewrite <- Hto in Hinv at 1. exact Hinv.
Qed.

Lemma repeat_op_good timeout delay dt op s h :
  repeat_inv timeout delay dt s h → m_allowed (repeat_machine timeout delay dt) s [] op = true →
  good timeout delay dt h (repeat_exec op s).
Proof.
  intros Hinv Hok. pose proof Hinv as [He Ht Hd Hdt Hto Hh].
  destruct op as [now ev|d c now|d|d| |]; cbn [repeat_exec].
  - destruct ev as [e|e|e|k].
    + destruct (dispatch_key_run _ _ _ _ _ now e Hinv) as (s' & t & Hrun & Hi & _). unfold good. by rewrite Hrun.
    + unfold good, ignore, dispatch. rewrite pbind_assoc, pbind_get, He. done.
    + unfold good, ignore, dispatch. rewrite pbind_assoc, pbind_get, He. done.
    + unfold good, ignore, dispatch. rewrite pbind_assoc, pbind_get, He. done.
  - unfold good, alarm_fires. rewrite pbind_get. destruct (alarms_of d s !! c); [|done]. cbn. by destruct (_ && _).
  - unfold good. by constructor.
  - by apply remove_device_good.
  - done.
  - unfold good. constructor; try done. intros i c. cbn. unfold armed, alarms_of. cbn. rewrite lookup_empty. cbn.
    rewrite lookup_empty. split; [by intros [? ?]|by intros ?%elem_of_empty].
Qed.

Lemma repeat_reachable timeout delay dt s h :
  reachable (repeat_machine timeout delay dt) s h → repeat_inv timeout delay dt s (foldl (hist_step dt) hist0 h).
Proof.
  revert s h. apply (reachable_invariant (repeat_machine timeout delay dt)).
  - intros s ->. constructor; try done. intros d c. unfold armed, alarms_of. cbn. rewrite lookup_empty. cbn.
    rewrite lookup_empty. split; [by intros [? ?]|by intros ?%elem_of_empty].
  - intros s h op _ Hi Hok. cbn [m_exec repeat_machine]. rewrite foldl_app. by apply repeat_op_good.
Qed.
End dispatcher.

(** ** Properties *)
Definition repeat_example_key (a : key_action) (c : Z) : MirEvent := Key (mkKey (mkHeader 7 0 0 []) a 97 c).
Definition repeat_example_ops : list repeat_op :=
  [OpStart; OpDispatch 0 (repeat_example_key key_down 30); OpDispatch 5 (repeat_example_key key_down 31); OpAlarm 7 30 500;
   OpDispatch 6 (repeat_example_key key_down 30); OpDispatch 600 (repeat_example_key key_up 30); OpTouchButton 9].
Definition repeat_example_machine : machine := repeat_machine (λ _, true) (λ _, []) 500 50 true.
Definition repeat_example_run : KeyRepeat * list repeat_obs :=
  default (new_key_repeat true 500 50 true, []) (run_ops repeat_example_machine repeat_example_ops (new_key_repeat true 500 50 true) []).
Lemma repeat_example_reachable : reachable repeat_example_machine repeat_example_run.1 repeat_example_run.2.
Proof.
  apply (run_ops_from_init repeat_example_machine repeat_example_ops (new_key_repeat true 500 50 true)); [done|]. by vm_compute.
Qed.

(** Exactly the keys held down repeat.  In every history an alarm is armed
    for a key if and only if the events passed on leave it down: a release,
    the removal of the device and [stop] disarm it, and keys of the touch
    button device are left alone.  A press arms the key for the first timeout
    and is passed on; a second press of an armed key goes on as a repeat
    instead; an alarm that fires sends one repeat of its key, with the key code
    and the modifiers of the press, and is armed again for the repeat delay;
    every other event is passed on unchanged. *)
Theorem key_repeat_alarms next cookies timeout delay dt s h :
  reachable (repeat_machine next cookies timeout delay dt) s h →
  let x := foldl (hist_step dt) hist0 h in
  (∀ d c, armed s d c ↔ (d, c) ∈ held x) ∧
  (∀ now e, trace (dispatch next cookies now (Key e) s) =
    let d := device_id (key_header e) in
    let c := scan_code e in
    if (dt && bool_decide (h_touch x = Some d)) || bool_decide (key_action_of e ≠ key_down) then [Next (Key e)]
    else if bool_decide ((d, c) ∈ held x)
    then [Next (Key (mkKey (mkHeader d now (modifiers (key_header e)) (cookies now)) key_repeat (key_code e) c))]
    else [CreateAlarm d c; RescheduleIn d c timeout; Next (Key e)]) ∧
  (∀ d c a now, alarms_of d s !! c = Some a →
    alarm_fires cookies d c now s = Run (Ret tt) s
      [Next (Key (mkKey (mkHeader d now (alarm_modifiers a) (cookies now)) key_repeat (alarm_key_code a) c));
       RescheduleIn d c delay]).
Proof.
  intros Hr x. pose proof (repeat_reachable _ _ _ _ _ _ _ Hr) as Hinv. fold x in Hinv.
  split; [apply Hinv|]. split.
  - intros now e. destruct (dispatch_key_run next cookies _ _ _ _ _ now e Hinv) as (s' & t & Hrun & _ & Ht).
    assert (trace (ignore (dispatch next cookies now (Key e)) s) = trace (dispatch next cookies now (Key e) s)) as Htr.
    { unfold ignore, pbind, pret. destruct (dispatch next cookies now (Key e) s) as [[]]; cbn; by rewrite ?app_nil_r. }
    rewrite <- Htr, Hrun. cbn [trace]. rewrite Ht. cbn zeta. destruct (dt && _); [done|]. cbn [orb].
    by destruct (key_action_of e).
  - intros d c a now Ha. unfold alarm_fires. rewrite pbind_get, Ha. cbn. by rewrite (iv_delay _ _ _ _ _ Hinv).
Qed.

Lemma key_repeat_alarms_witness :
  (∀ d c, armed repeat_example_run.1 d c ↔ (d, c) ∈ held (foldl (hist_step true) hist0 repeat_example_run.2)) ∧
  length repeat_example_run.2 = 12%nat.
Proof.
  split; [exact (proj1 (key_repeat_alarms _ _ _ _ _ _ _ repeat_example_reachable))|by vm_compute].
Defined.
