(* ===== verification/AnrDetector.v ===== *)
(** The application-not-responding detector
    (src/server/scene/timeout_application_not_responding_detector.cpp): a
    watchdog that pings every session once per period.  Its methods hold
    [session_mutex] only while they look at the sessions; they tell the
    observers and set the alarm behind that.  A call is therefore a sequence of
    steps, and the steps of several threads interleave. *)

From S2P Require Import Prelude.

(** ** State *)

(** [pinger] is the session's own: calling it is the observation [Ping]. *)
Record ANRContext := mkContext { replied_since_last_ping : bool; flagged_as_unresponsive : bool }.
#[export] Instance ANRContext_eq_dec : EqDecision ANRContext.
Proof. solve_decision. Defined.

(** Where a call is that released the mutex, or does not have it yet. *)
Inductive frame :=
  (** [handle_ping_cycle]: before the lock; between two rounds of the loop over
      [unresponsive_sessions_temporary], with what is left of it and
      [needs_rearm]; and in the [for_each] of a round, at a slot of the list *)
  | CycleEntered
  | Announcing (todo : list Z) (needs_rearm : bool)
  | Unresponsive (slot : nat) (session : Z) (todo : list Z) (needs_rearm : bool)
  (** [pong_received], in the [for_each] *)
  | NowResponsive (slot : nat) (session : Z) (alarm_needs_rescheduling : bool)
  (** before [alarm->reschedule_in] *)
  | Rearm
  (** [register_observer]: behind [observers.add]; in the last loop *)
  | Registering (observer : Z)
  | Telling (observer : Z) (todo : list Z).

(** [observers]: the slots of the list (thread_safe_list.h, [ObserverList]).
    [alarm_pending]: the alarm's state is [pending]. *)
Record Detector := mkDetector {
  sessions : gmap Z ANRContext;
  unresponsive_sessions_temporary : list Z;
  observers : list (option Z);
  alarm_pending : bool;
  period : Z;
  calls : list (Z * frame)
}.

(** Calls made, and marks of what happens: the sections under the mutex, and in
    [Announced] that everyone was told about a session. *)
Inductive anr_obs :=
  | Ping (session : Z)
  | SessionUnresponsive (observer session : Z)
  | SessionNowResponsive (observer session : Z)
  | RescheduleIn (delay : Z)
  | Flagged (session : Z)
  | Unflagged (session : Z)
  | Unregistered (session : Z)
  | PongReceived (session : Z)
  | Asked (observer : Z) (unresponsive_sessions : list Z)
  | Announced (session : Z)
  | ObserverRemoved (observer : Z).
#[export] Instance anr_obs_eq_dec : EqDecision anr_obs.
Proof. solve_decision. Defined.

#[local] Abbreviation M := (prog Detector anr_obs).

Definition set_sessions m s :=
  mkDetector m (unresponsive_sessions_temporary s) (observers s) (alarm_pending s) (period s) (calls s).
Definition set_temporary l s := mkDetector (sessions s) l (observers s) (alarm_pending s) (period s) (calls s).
Definition set_observers l s :=
  mkDetector (sessions s) (unresponsive_sessions_temporary s) l (alarm_pending s) (period s) (calls s).
Definition set_alarm b s :=
  mkDetector (sessions s) (unresponsive_sessions_temporary s) (observers s) b (period s) (calls s).
Definition set_calls l s :=
  mkDetector (sessions s) (unresponsive_sessions_temporary s) (observers s) (alarm_pending s) (period s) l.

Definition new_detector (p : Z) : Detector := mkDetector ∅ [] [None] false p [].
Definition new_context : ANRContext := mkContext true false.

(** ** Operations *)

(** Thread [t] leaves the section under the mutex with more to do. *)
Definition enter (t : Z) (f : frame) : M unit := pmodify (λ s, set_calls ((t, f) :: calls s) s).

Definition reschedule_in : M unit :=
  let* s := pget in do* pemit (RescheduleIn (period s)) in pmodify (set_alarm true).

Definition register_session (t session : Z) : M unit :=
  do* pmodify (λ s, set_sessions (<[session := new_context]> (sessions s)) s) in
  let* s := pget in
  let alarm_needs_schedule := negb (alarm_pending s) in
  pwhen alarm_needs_schedule (enter t Rearm).

Definition unregister_session (session : Z) : M unit :=
  do* pmodify (λ s, set_sessions (delete session (sessions s)) s) in
  pemit (Unregistered session).

Definition pong_received (t received_for : Z) : M unit :=
  let* s := pget in
  match sessions s !! received_for with
  | None => pthrow (out_of_range "unordered_map::at")
  | Some session_ctx =>
      let needs_now_responsive_notification := flagged_as_unresponsive session_ctx in
      let alarm_needs_rescheduling := negb (alarm_pending s) in
      do* pput (set_sessions (<[received_for := mkContext true false]> (sessions s)) s) in
      do* pemit (PongReceived received_for) in
      if needs_now_responsive_notification
      then do* pemit (Unflagged received_for) in enter t (NowResponsive 0 received_for alarm_needs_rescheduling)
      else pwhen alarm_needs_rescheduling (enter t Rearm)
  end.

(** [ThreadSafeList::add] links a new slot or takes one that was left empty;
    [remove] empties the first slot with the element. *)
Definition occupy (slot : nat) (observer : Z) (l : list (option Z)) : list (option Z) :=
  if bool_decide (slot < length l)%nat then <[slot := Some observer]> l else l ++ [Some observer].
Fixpoint vacate (observer : Z) (l : list (option Z)) : list (option Z) :=
  match l with
  | [] => []
  | o :: l' => if bool_decide (o = Some observer) then None :: l' else o :: vacate observer l'
  end.

Definition register_observer (t observer : Z) (slot : nat) : M unit :=
  do* pmodify (λ s, set_observers (occupy slot observer (observers s)) s) in
  enter t (Registering observer).
Definition unregister_observer (observer : Z) : M unit :=
  do* pmodify (λ s, set_observers (vacate observer (observers s)) s) in
  pemit (ObserverRemoved observer).

Definition unresponsive_sessions (s : Detector) : list Z :=
  (filter (λ p, flagged_as_unresponsive p.2 = true) (map_to_list (sessions s))).*1.

Definition newly_unresponsive (c : ANRContext) : bool := negb (replied_since_last_ping c) && negb (flagged_as_unresponsive c).
Definition needs_ping (c : ANRContext) : bool := replied_since_last_ping c.

(** One session in the loop over the sessions, in the map's order. *)
Definition check_session (session_pair : Z * ANRContext) : M unit :=
  let '(session, c) := session_pair in
  let store c' := pmodify (λ s, set_sessions (<[session := c']> (sessions s)) s) in
  if newly_unresponsive c then
    do* store (mkContext (replied_since_last_ping c) true) in
    do* pmodify (λ s, set_temporary (unresponsive_sessions_temporary s ++ [session]) s) in
    pemit (Flagged session)
  else if needs_ping c then do* pemit (Ping session) in store (mkContext false (flagged_as_unresponsive c))
  else pret tt.

(** The part of [handle_ping_cycle] under the mutex. *)
Definition ping_sessions (t : Z) (a b : list (Z * frame)) : M unit :=
  let* s := pget in
  let session_pairs := map_to_list (sessions s) in
  let needs_rearm := existsb (λ p, negb (newly_unresponsive p.2) && needs_ping p.2) session_pairs in
  do* pfor session_pairs check_session in
  pmodify (λ s, set_calls (a ++ (t, Announcing (unresponsive_sessions_temporary s) needs_rearm) :: b) s).

(** The [for_each] of an announcement, at a slot: on to the next one, having
    called the observer in it. *)
Definition visit_slot (slot : nat) (call : Z → anr_obs) (goto : frame → M unit) (next : frame) (out : M unit) : M unit :=
  let* s := pget in
  match observers s !! slot with
  | None => out
  | Some None => goto next
  | Some (Some observer) => do* pemit (call observer) in goto next
  end.

(** A thread's call goes on. *)
Definition anr_turn (t : Z) : M unit :=
  let* s := pget in
  match split_at t (calls s) with
  | None => pret tt
  | Some (a, f, b) =>
      let goto f := pmodify (set_calls (a ++ (t, f) :: b)) in
      let finish := pmodify (set_calls (a ++ b)) in
      match f with
      | CycleEntered => ping_sessions t a b
      | Announcing (session :: todo) needs_rearm => goto (Unresponsive 0 session todo needs_rearm)
      | Announcing [] needs_rearm =>
          do* pmodify (set_temporary []) in
          if needs_rearm : bool then goto Rearm else finish
      | Unresponsive slot session todo needs_rearm =>
          visit_slot slot (λ o, SessionUnresponsive o session) goto (Unresponsive (S slot) session todo needs_rearm)
            (do* pemit (Announced session) in goto (Announcing todo needs_rearm))
      | NowResponsive slot session alarm_needs_rescheduling =>
          visit_slot slot (λ o, SessionNowResponsive o session) goto (NowResponsive (S slot) session alarm_needs_rescheduling)
            (do* pemit (Announced session) in if alarm_needs_rescheduling : bool then goto Rearm else finish)
      | Rearm => do* reschedule_in in finish
      | Registering observer =>
          do* pemit (Asked observer (unresponsive_sessions s)) in goto (Telling observer (unresponsive_sessions s))
      | Telling observer (session :: todo) =>
          do* pemit (SessionUnresponsive observer session) in
          do* pemit (Announced session) in goto (Telling observer todo)
      | Telling observer [] => finish
      end
  end.

(** ** The detector as a machine

    [OpStep t]: thread [t] goes on with its call.  [OpAlarm]: the main loop
    finds the alarm due, which is then not pending any more, and calls
    [handle_ping_cycle]. *)
Inductive anr_op :=
  | OpRegister (t session : Z)
  | OpUnregister (session : Z)
  | OpPong (t session : Z)
  | OpAddObserver (t observer : Z) (slot : nat)
  | OpRemoveObserver (observer : Z)
  | OpAlarm (t : Z)
  | OpStep (t : Z).

Definition anr_exec (op : anr_op) : M unit :=
  match op with
  | OpRegister t i => register_session t i
  | OpUnregister i => unregister_session i
  | OpPong t i => pong_received t i
  | OpAddObserver t b n => register_observer t b n
  | OpRemoveObserver b => unregister_observer b
  | OpAlarm t => do* pmodify (set_alarm false) in enter t CycleEntered
  | OpStep t => anr_turn t
  end.

Definition in_cycle (f : frame) : bool :=
  match f with CycleEntered | Announcing _ _ | Unresponsive _ _ _ _ => true | _ => false end.
Definition registers (observer : Z) (f : frame) : bool :=
  match f with Registering b | Telling b _ => bool_decide (b = observer) | _ => false end.

(** A thread that is not in a call may make one.  A session that is registered
    is not registered again, nor an observer, and no observer is removed while
    it is being registered.  [add] finds an empty slot or the end.  The main
    loop's thread runs one cycle at a time. *)
Definition free (s : Detector) (t : Z) : bool := bool_decide (t ∉ (calls s).*1).
Definition anr_allowed (s : Detector) (op : anr_op) : bool :=
  match op with
  | OpRegister t i => free s t && bool_decide (sessions s !! i = None)
  | OpPong t i => free s t
  | OpAddObserver t b n =>
      free s t && bool_decide (Some b ∉ observers s) &&
      (bool_decide (n = length (observers s)) || bool_decide (observers s !! n = Some None))
  | OpRemoveObserver b => forallb (λ c, negb (registers b c.2)) (calls s)
  | OpAlarm t => free s t && alarm_pending s && forallb (λ c, negb (in_cycle c.2)) (calls s)
  | OpUnregister _ | OpStep _ => true
  end.

Definition anr_machine (p : Z) : machine := {|
  m_state := Detector;
  m_op := anr_op;
  m_obs := anr_obs;
  m_init s := s = new_detector p;
  m_allowed s _ op := anr_allowed s op;
  m_exec := anr_exec
|}.

(** ** What a history of steps says

    The pings not answered; what each observer was last told; whom an
    announcement about goes on, once for each; and the sessions whose last change
    (flagged, not flagged any more, unregistered) came while one about them
    still went on: that announcement is late. *)
Record Hist := mkHist {
  outstanding : gset Z;
  told_unresponsive : gset (Z * Z);
  going_on : list Z;
  overtaken : gset Z
}.
Definition hist0 : Hist := mkHist ∅ ∅ [] ∅.

Definition about_others (session : Z) (K : gset (Z * Z)) : gset (Z * Z) := filter (λ k : Z * Z, k.2 ≠ session) K.
Definition told_others (observer : Z) (K : gset (Z * Z)) : gset (Z * Z) := filter (λ k : Z * Z, k.1 ≠ observer) K.
Definition changes (i : Z) (h : Hist) : gset Z :=
  if bool_decide (i ∈ going_on h) then {[i]} ∪ overtaken h else overtaken h ∖ {[i]}.

Definition hist_step (h : Hist) (o : anr_obs) : Hist :=
  match o with
  | Ping i => mkHist ({[i]} ∪ outstanding h) (told_unresponsive h) (going_on h) (overtaken h)
  | PongReceived i => mkHist (outstanding h ∖ {[i]}) (told_unresponsive h) (going_on h) (overtaken h)
  | Flagged i | Unflagged i => mkHist (outstanding h) (told_unresponsive h) (i :: going_on h) (changes i h)
  | Unregistered i => mkHist (outstanding h ∖ {[i]}) (about_others i (told_unresponsive h)) (going_on h) (changes i h)
  | SessionUnresponsive b i => mkHist (outstanding h) ({[(b, i)]} ∪ told_unresponsive h) (going_on h) (overtaken h)
  | SessionNowResponsive b i => mkHist (outstanding h) (told_unresponsive h ∖ {[(b, i)]}) (going_on h) (overtaken h)
  | Asked b l => mkHist (outstanding h) (told_unresponsive h) (l ++ going_on h) (overtaken h)
  | Announced i => mkHist (outstanding h) (told_unresponsive h) (erase_first i (going_on h)) (overtaken h)
  | ObserverRemoved b => mkHist (outstanding h) (told_others b (told_unresponsive h)) (going_on h) (overtaken h)
  | RescheduleIn _ => h
  end.

Definition flagged (m : gmap Z ANRContext) (i : Z) : Prop := ∃ c, m !! i = Some c ∧ flagged_as_unresponsive c = true.
Definition observes (L : list (option Z)) (b : Z) : Prop := Some b ∈ L.

(** The call will have set the alarm, or run a cycle, before it is over. *)
Definition will_rearm (f : frame) : bool :=
  match f with
  | CycleEntered | Rearm => true
  | Announcing _ r | Unresponsive _ _ _ r | NowResponsive _ _ r => r
  | _ => false
  end.

(** ** Invariants

    The frames of the calls under way, in any order. *)

(** Whom a call has yet to make an announcement about. *)
Definition announces (f : frame) : list Z :=
  match f with
  | Announcing todo _ | Telling _ todo => todo
  | Unresponsive _ i todo _ => i :: todo
  | NowResponsive _ i _ => [i]
  | _ => []
  end.
Definition takes_back (f : frame) (n : nat) (i : Z) : Prop :=
  match f with NowResponsive k j _ => j = i ∧ (k ≤ n)%nat | _ => False end.
(** The call has yet to tell observer [b], who is in slot [n]. *)
Definition will_tell (f : frame) (n : nat) (b i : Z) : Prop :=
  match f with
  | Announcing todo _ => i ∈ todo
  | Unresponsive k j todo _ => i ∈ todo ∨ j = i ∧ (k ≤ n)%nat
  | Registering d => d = b
  | Telling d todo => d = b ∧ i ∈ todo
  | _ => False
  end.
(** What the call says about a session is so. *)
Definition says (m : gmap Z ANRContext) (f : frame) (i : Z) : Prop :=
  match f with NowResponsive _ _ _ => ¬ flagged m i | _ => flagged m i end.

Record watch_inv (m : gmap Z ANRContext) (al : bool) (fs : list frame) (x : Hist) : Prop := {
  wi_outstanding i : i ∈ outstanding x ↔ ∃ c, m !! i = Some c ∧ replied_since_last_ping c = false;
  wi_flagged i c : m !! i = Some c → flagged_as_unresponsive c = true → replied_since_last_ping c = false;
  wi_alarm i c : m !! i = Some c → flagged_as_unresponsive c = false → al = true ∨ ∃ f, f ∈ fs ∧ will_rearm f = true
}.

Record notice_inv (m : gmap Z ANRContext) (L : list (option Z)) (fs : list frame) (x : Hist) : Prop := {
  ni_unique n n' b : L !! n = Some (Some b) → L !! n' = Some (Some b) → n = n';
  ni_going : going_on x ≡ₚ fs ≫= announces;
  ni_told b i : (b, i) ∈ told_unresponsive x → observes L b;
  ni_registers f b : f ∈ fs → registers b f = true → observes L b;
  ni_says f i : i ∉ overtaken x → f ∈ fs → i ∈ announces f → says m f i;
  ni_stale b i : i ∉ overtaken x → (b, i) ∈ told_unresponsive x →
    flagged m i ∨ ∃ n, L !! n = Some (Some b) ∧ ∃ f, f ∈ fs ∧ takes_back f n i;
  ni_missed b n i : i ∉ overtaken x → L !! n = Some (Some b) → flagged m i →
    (b, i) ∈ told_unresponsive x ∨ ∃ f, f ∈ fs ∧ will_tell f n b i
}.

Definition loops (f : frame) : bool :=
  match f with Announcing _ _ | Unresponsive _ _ _ _ => true | _ => false end.
Definition cycle_inv (tmp : list Z) (fs : list frame) : Prop :=
  (length (filter (λ f, in_cycle f = true) fs) ≤ 1)%nat ∧ (tmp = [] ∨ ∃ f, f ∈ fs ∧ loops f = true).

Record anr_inv (s : Detector) (x : Hist) : Prop := {
  ai_threads : NoDup (calls s).*1;
  ai_cycle : cycle_inv (unresponsive_sessions_temporary s) (calls s).*2;
  ai_watch : watch_inv (sessions s) (alarm_pending s) (calls s).*2 x;
  ai_notice : notice_inv (sessions s) (observers s) (calls s).*2 x
}.

Section frames.
Context (m : gmap Z ANRContext) (L : list (option Z)).
Implicit Types fs r o : list frame.

#[export] Instance watch_inv_perm al : Proper ((≡ₚ) ==> (=) ==> iff) (watch_inv m al).
Proof.
  assert (∀ fs fs' x, fs ≡ₚ fs' → watch_inv m al fs x → watch_inv m al fs' x) as H.
  { intros fs fs' x Hp [H1 H2 H3]. constructor; [done..|]. by setoid_rewrite <- Hp. }
  intros fs fs' Hp x ? <-. split; by apply H.
Qed.
#[export] Instance notice_inv_perm : Proper ((≡ₚ) ==> (=) ==> iff) (notice_inv m L).
Proof.
  assert (∀ fs fs' x, fs ≡ₚ fs' → notice_inv m L fs x → notice_inv m L fs' x) as H.
  { intros fs fs' x Hp [H1 H2 H3 H4 H5 H6 H7]. constructor; [done| |done|..].
    - by rewrite <- Hp.
    - intros f b. rewrite <- Hp. apply H4.
    - intros f i Hi. rewrite <- Hp. by apply H5.
    - by setoid_rewrite <- Hp.
    - by setoid_rewrite <- Hp. }
  intros fs fs' Hp x ? <-. split; by apply H.
Qed.
#[export] Instance cycle_inv_perm tmp : Proper ((≡ₚ) ==> iff) (cycle_inv tmp).
Proof.
  assert (∀ fs fs', fs ≡ₚ fs' → cycle_inv tmp fs → cycle_inv tmp fs') as H.
  { intros fs fs' Hp [H1 H2]. split; [by rewrite <- Hp|]. by setoid_rewrite <- Hp. }
  intros fs fs' Hp. split; by apply H.
Qed.

(** *** One call goes on, the sessions and the observers staying as they are *)
Lemma notice_move f o r x x' :
  notice_inv m L (f :: r) x →
  told_unresponsive x' = told_unresponsive x → overtaken x' = overtaken x →
  going_on x' ≡ₚ (o ++ r) ≫= announces →
  (∀ g b, g ∈ o → registers b g = true → registers b f = true) →
  (∀ g i, g ∈ o → i ∈ announces g → i ∉ overtaken x → says m g i) →
  (∀ n b i, i ∉ overtaken x → L !! n = Some (Some b) → (b, i) ∈ told_unresponsive x → takes_back f n i → ∃ g, g ∈ o ∧ takes_back g n i) →
  (∀ n b i, i ∉ overtaken x → L !! n = Some (Some b) → flagged m i → will_tell f n b i →
     (b, i) ∈ told_unresponsive x ∨ ∃ g, g ∈ o ∧ will_tell g n b i) →
  notice_inv m L (o ++ r) x'.
Proof.
  intros [H1 H2 H3 H4 H5 H6 H7] Ht Hv Hg Hr Hs Hb Hw.
  constructor; rewrite ?Ht, ?Hv; [done..| | | |].
  - intros g b [Hin|Hin]%elem_of_app Hreg; [apply (H4 f b); [left|eauto]|apply (H4 g b); [by right|done]].
  - intros g i Hi [Hin|Hin]%elem_of_app Ha; [by eapply Hs|apply H5; [done|by right|done]].
  - intros b i Hi Hti. destruct (H6 b i Hi Hti) as [?|(n & Hn & g & Hin & Htb)]; [by left|]. right. exists n. split; [done|].
    apply elem_of_cons in Hin as [->|Hin]; [|exists g; rewrite elem_of_app; by split; [right|]].
    destruct (Hb n b i Hi Hn Hti Htb) as (g & Hin & ?). exists g. rewrite elem_of_app. by split; [left|].
  - intros b n i Hi Hn Hfl. destruct (H7 b n i Hi Hn Hfl) as [?|(g & Hin & Hwt)]; [by left|].
    apply elem_of_cons in Hin as [->|Hin]; [|right; exists g; rewrite elem_of_app; by split; [right|]].
    destruct (Hw n b i Hi Hn Hfl Hwt) as [?|(g & Hin & ?)]; [by left|right]. exists g. rewrite elem_of_app. by split; [left|].
Qed.

(** A call that only begins, and announces nothing. *)
Lemma notice_enter g r x :
  notice_inv m L r x → announces g = [] → (∀ b, registers b g = true → observes L b) → notice_inv m L (g :: r) x.
Proof.
  intros [H1 H2 H3 H4 H5 H6 H7] Ha Hr. constructor; [done| |done|..].
  - cbn. by rewrite Ha.
  - intros f b [->|Hin]%elem_of_cons; [apply Hr|by apply H4].
  - intros f i Hi [->|Hin]%elem_of_cons; [rewrite Ha; by intros ?%elem_of_nil|by apply H5].
  - intros b i Hi Ht. destruct (H6 b i Hi Ht) as [?|(n & Hn & f & ? & ?)]; [by left|right]. exists n. split; [done|].
    exists f. by split; [right|].
  - intros b n i Hi Hn Hf. destruct (H7 b n i Hi Hn Hf) as [?|(f & ? & ?)]; [by left|right]. exists f. by split; [right|].
Qed.

(** *** An observer is called *)
Definition told_too (b i : Z) (x : Hist) : Hist := hist_step x (SessionUnresponsive b i).
Definition told_no_more (b i : Z) (x : Hist) : Hist := hist_step x (SessionNowResponsive b i).

Lemma notice_told b i fs x :
  notice_inv m L fs x → observes L b → (i ∉ overtaken x → flagged m i) → notice_inv m L fs (told_too b i x).
Proof.
  intros [H1 H2 H3 H4 H5 H6 H7] Hb Hf. constructor; cbn; [done..| |done|done| |].
  - intros d j [[= -> ->]%elem_of_singleton|?]%elem_of_union; [done|by eapply H3].
  - intros d j Hj [[= -> ->]%elem_of_singleton|?]%elem_of_union; [left; auto|by apply H6].
  - intros d n j Hj Hn Hfl. destruct (H7 d n j Hj Hn Hfl) as [?|?]; [left; set_solver|by right].
Qed.
Lemma notice_told_back b i fs x :
  notice_inv m L fs x → (i ∉ overtaken x → ¬ flagged m i) → notice_inv m L fs (told_no_more b i x).
Proof.
  intros [H1 H2 H3 H4 H5 H6 H7] Hf. constructor; cbn; [done..| |done|done| |].
  - intros d j [? _]%elem_of_difference. by eapply H3.
  - intros d j Hj [? _]%elem_of_difference. by apply H6.
  - intros d n j Hj Hn Hfl. destruct (H7 d n j Hj Hn Hfl) as [?|?]; [left|by right].
    apply elem_of_difference. split; [done|]. intros [= -> ->]%elem_of_singleton. by apply Hf.
Qed.
End frames.

(** *** The sessions change *)
Lemma notice_same m m' L fs x : (∀ i, flagged m' i ↔ flagged m i) → notice_inv m L fs x → notice_inv m' L fs x.
Proof.
  intros Hm [H1 H2 H3 H4 H5 H6 H7]. constructor; [done..| | |].
  - intros f i Hi Hin Ha. specialize (H5 f i Hi Hin Ha). unfold says in *. destruct f; by rewrite Hm.
  - intros b i. rewrite Hm. apply H6.
  - intros b n i. rewrite Hm. apply H7.
Qed.

(** [l]: the sessions that become flagged, announced by [f]. *)
Lemma notice_flag m m' L (f : frame) r l x x' :
  notice_inv m L r x → NoDup l → (∀ i, flagged m' i ↔ flagged m i ∨ i ∈ l) → (∀ i, i ∈ l → ¬ flagged m i) →
  announces f = l → (∀ i, says m' f i ↔ flagged m' i) → (∀ n b i, i ∈ l → will_tell f n b i) → (∀ b, registers b f = false) →
  told_unresponsive x' = told_unresponsive x → going_on x' ≡ₚ l ++ going_on x →
  (∀ i, i ∈ overtaken x' ↔ if bool_decide (i ∈ l) then i ∈ going_on x else i ∈ overtaken x) →
  notice_inv m' L (f :: r) x'.
Proof.
  intros [H1 H2 H3 H4 H5 H6 H7] Hnd Hm Hno Ha Hsy Hwt Hreg Ht Hg Hv. constructor; rewrite ?Ht; [done| |done|..].
  - cbn. by rewrite Ha, Hg, H2.
  - intros g b [->|Hin]%elem_of_cons; [by rewrite Hreg|by apply H4].
  - intros g i. rewrite Hv. case_bool_decide as Hl; intros Hi [->|Hin]%elem_of_cons Han.
    + apply Hsy, Hm. by right.
    + destruct Hi. rewrite H2. apply list_elem_of_bind. by exists g.
    + by rewrite Ha in Han.
    + specialize (H5 g i Hi Hin Han). unfold says in *. destruct g; rewrite Hm; tauto.
  - intros b i. rewrite Hv. case_bool_decide as Hl; intros Hi Hti; [left; apply Hm; by right|].
    destruct (H6 b i Hi Hti) as [Hf|(n & Hn & g & Hin & Htb)]; [left; apply Hm; by left|]. right. exists n. split; [done|].
    exists g. by split; [right|].
  - intros b n i. rewrite Hv. case_bool_decide as Hl; intros Hi Hn Hf; [right; exists f; split; [left|auto]|].
    apply Hm in Hf as [Hf|]; [|done].
    destruct (H7 b n i Hi Hn Hf) as [?|(g & ? & ?)]; [by left|right]. exists g. by split; [right|].
Qed.

(** A session that is flagged no more, or gone.  [o]: what announces it. *)
Lemma notice_unflag m m' L (o : list frame) r i x x' :
  notice_inv m L r x → ¬ flagged m' i → (∀ j, j ≠ i → flagged m' j ↔ flagged m j) →
  (∀ g, g ∈ o → announces g = [i] ∧ (∀ m, says m g i ↔ ¬ flagged m i) ∧ ∀ b, registers b g = false) →
  going_on x' ≡ₚ (o ++ r) ≫= announces →
  (∀ j, j ∈ overtaken x' ↔ if bool_decide (j = i) then j ∈ going_on x else j ∈ overtaken x) →
  (∀ b j, (b, j) ∈ told_unresponsive x' → (b, j) ∈ told_unresponsive x) →
  (∀ b j, j ≠ i → (b, j) ∈ told_unresponsive x → (b, j) ∈ told_unresponsive x') →
  (∀ b n, (b, i) ∈ told_unresponsive x' → ∃ g, g ∈ o ∧ takes_back g n i) →
  notice_inv m' L (o ++ r) x'.
Proof.
  intros [H1 H2 H3 H4 H5 H6 H7] Hmi Hm Ho Hg Hv Ht1 Ht2 Ht3. constructor; [done..| | | | |].
  - intros b j Hb. by eapply H3, Ht1.
  - intros g b [Hin|Hin]%elem_of_app; [|by apply H4]. destruct (Ho g Hin) as (_ & _ & ->). done.
  - intros g j. rewrite Hv. case_bool_decide as Hj; intros Hi [Hin|Hin]%elem_of_app Han; subst.
    + destruct (Ho g Hin) as (_ & Hsy & _). by apply Hsy.
    + destruct Hi. rewrite H2. apply list_elem_of_bind. by exists g.
    + destruct (Ho g Hin) as (Ha & _). rewrite Ha in Han. by apply list_elem_of_singleton in Han.
    + specialize (H5 g j Hi Hin Han). unfold says in *. destruct g; by rewrite Hm.
  - intros b j. rewrite Hv. case_bool_decide as Hj; intros Hi Hb; subst.
    + right. assert (observes L b) as [n Hn]%list_elem_of_lookup by (eapply H3; eauto). exists n. split; [done|].
      destruct (Ht3 b n Hb) as (g & Hin & ?). exists g. rewrite elem_of_app. by split; [left|].
    + destruct (H6 b j Hi) as [Hf|(n & Hn & g & Hin & Htb)]; [auto|left; by apply Hm|]. right. exists n. split; [done|].
      exists g. rewrite elem_of_app. by split; [right|].
  - intros b n j. rewrite Hv. case_bool_decide as Hj; intros Hi Hn Hf; subst; [done|]. rewrite Hm in Hf by done.
    destruct (H7 b n j Hi Hn Hf) as [?|(g & Hin & ?)]; [left; auto|right]. exists g. rewrite elem_of_app. by split; [right|].
Qed.

(** ** The section of a cycle under the mutex *)

(** A cycle turns a session that answered into one with a ping outstanding, and
    one with a ping outstanding into an unresponsive one. *)
Definition after_cycle (c : ANRContext) : ANRContext :=
  if newly_unresponsive c then mkContext (replied_since_last_ping c) true
  else if needs_ping c then mkContext false (flagged_as_unresponsive c) else c.
Definition cycle_event (p : Z * ANRContext) : list anr_obs :=
  if newly_unresponsive p.2 then [Flagged p.1] else if needs_ping p.2 then [Ping p.1] else [].
Definition fresh_in (l : list (Z * ANRContext)) : list Z := (filter (λ p, newly_unresponsive p.2 = true) l).*1.
Definition pinged_in (l : list (Z * ANRContext)) : list Z :=
  (filter (λ p, newly_unresponsive p.2 = false ∧ needs_ping p.2 = true) l).*1.

Lemma check_sessions l s :
  NoDup l.*1 → (∀ i c, (i, c) ∈ l → sessions s !! i = Some c) →
  pfor l check_session s =
    Run (Ret tt) (set_temporary (unresponsive_sessions_temporary s ++ fresh_in l)
      (set_sessions (list_to_map (prod_map id after_cycle <$> l) ∪ sessions s) s)) (l ≫= cycle_event).
Proof.
  revert s. induction l as [|[i c] l IH]; intros s Hnd Hl.
  { cbn. rewrite map_empty_union, app_nil_r. by destruct s. }
  apply NoDup_cons in Hnd as [Hi Hnd]. cbn [fmap list_fmap fst] in Hi.
  set (s1 := set_temporary (unresponsive_sessions_temporary s ++ (if newly_unresponsive c then [i] else []))
    (set_sessions (<[i := after_cycle c]> (sessions s)) s)).
  assert (sessions s !! i = Some c) as Hic by (apply Hl; left).
  assert (check_session (i, c) s = Run (Ret tt) s1 (cycle_event (i, c))) as Hc.
  { unfold check_session, s1, after_cycle, cycle_event. cbn [fst snd].
    destruct (newly_unresponsive c), (needs_ping c); try done; unfold pret; f_equal; destruct s; unfold set_temporary; cbn;
      by rewrite ?app_nil_r, ?insert_id by done. }
  assert (∀ j d, (j, d) ∈ l → sessions s1 !! j = Some d) as Hl1.
  { intros j d Hj. cbn. rewrite lookup_insert_ne; [apply Hl; by right|]. intros ->. apply Hi. by apply list_elem_of_fmap_2' with (j, d). }
  cbn [pfor]. rewrite (pbind_run _ _ _ _ _ _ _ Hc (IH s1 Hnd Hl1)). cbn [value post trace]. f_equal.
  unfold set_sessions, set_temporary, fresh_in. cbn [sessions set_sessions set_temporary s1 observers alarm_pending period unresponsive_sessions_temporary calls].
  rewrite filter_cons. cbn [snd].
  f_equal.
  - change (prod_map id after_cycle <$> (i, c) :: l) with ((i, after_cycle c) :: (prod_map id after_cycle <$> l)).
    rewrite list_to_map_cons. rewrite <- insert_union_l. rewrite <- insert_union_r; [done|].
    apply not_elem_of_list_to_map_1. rewrite <- list_fmap_compose. exact Hi.
  - destruct (newly_unresponsive c); [rewrite decide_True by done|rewrite decide_False by done]; cbn [fmap list_fmap fst];
      by rewrite <- app_assoc.
Qed.

Definition rearms (l : list (Z * ANRContext)) : bool := existsb (λ p, negb (newly_unresponsive p.2) && needs_ping p.2) l.

Lemma ping_sessions_run t a b s :
  let l := map_to_list (sessions s) in
  let tmp := unresponsive_sessions_temporary s ++ fresh_in l in
  ping_sessions t a b s =
    Run (Ret tt) (mkDetector (after_cycle <$> sessions s) tmp (observers s) (alarm_pending s) (period s)
      (a ++ (t, Announcing tmp (rearms l)) :: b)) (l ≫= cycle_event).
Proof.
  intros l tmp. unfold ping_sessions. rewrite pbind_get. cbn zeta. fold l.
  assert (pfor l check_session s =
    Run (Ret tt) (set_temporary tmp (set_sessions (after_cycle <$> sessions s) s)) (l ≫= cycle_event)) as Hrun.
  { rewrite check_sessions; [|apply NoDup_fst_map_to_list|intros i c Hic; by apply elem_of_map_to_list].
    f_equal. f_equal. f_equal. unfold l. rewrite list_to_map_fmap, list_to_map_to_list. apply map_eq. intros i.
    rewrite lookup_union, lookup_fmap. destruct (sessions s !! i); done. }
  rewrite (pbind_run _ _ _ _ _ _ _ Hrun eq_refl). cbn. by rewrite app_nil_r.
Qed.

Lemma elem_of_pinged m i : i ∈ pinged_in (map_to_list m) ↔ ∃ c, m !! i = Some c ∧ replied_since_last_ping c = true.
Proof.
  unfold pinged_in. rewrite list_elem_of_fmap. split.
  - intros ([j c] & -> & [[_ Hn] Hm%elem_of_map_to_list]%list_elem_of_filter). by exists c.
  - intros (c & Hm & Hr). exists (i, c). split; [done|]. rewrite list_elem_of_filter, elem_of_map_to_list.
    unfold newly_unresponsive, needs_ping. cbn. by rewrite Hr.
Qed.
Lemma elem_of_fresh m i :
  i ∈ fresh_in (map_to_list m) ↔ ∃ c, m !! i = Some c ∧ replied_since_last_ping c = false ∧ flagged_as_unresponsive c = false.
Proof.
  unfold fresh_in. rewrite list_elem_of_fmap. split.
  - intros ([j c] & -> & [Hn Hm%elem_of_map_to_list]%list_elem_of_filter). exists c.
    unfold newly_unresponsive in Hn. cbn in Hn. apply andb_true_iff in Hn as [?%negb_true_iff ?%negb_true_iff]. done.
  - intros (c & Hm & Hr & Hf). exists (i, c). split; [done|]. rewrite list_elem_of_filter, elem_of_map_to_list.
    unfold newly_unresponsive. cbn. by rewrite Hr, Hf.
Qed.
Lemma fresh_NoDup m : NoDup (fresh_in (map_to_list m)).
Proof.
  unfold fresh_in. eapply sublist_NoDup; [apply (NoDup_fst_map_to_list m)|]. apply (fmap_sublist fst), sublist_filter.
Qed.

Lemma after_cycle_cases c :
  (flagged_as_unresponsive c = true → replied_since_last_ping c = false) →
  replied_since_last_ping (after_cycle c) = false ∧
  flagged_as_unresponsive (after_cycle c) = negb (replied_since_last_ping c).
Proof. unfold after_cycle, newly_unresponsive, needs_ping. destruct c as [[] []]; cbn; intuition. Qed.

(** The marks of a cycle. *)
Lemma fold_cycle l x : NoDup l.*1 →
  let y := foldl hist_step x (l ≫= cycle_event) in
  outstanding y = list_to_set (pinged_in l) ∪ outstanding x ∧ told_unresponsive y = told_unresponsive x ∧
  going_on y ≡ₚ fresh_in l ++ going_on x ∧
  (∀ i, i ∈ overtaken y ↔ if bool_decide (i ∈ fresh_in l) then i ∈ going_on x else i ∈ overtaken x).
Proof.
  revert x. induction l as [|[i c] l IH]; intros x Hnd; cbn zeta.
  { cbn. rewrite union_empty_l_L. split_and!; [done..|]. intros i. by rewrite bool_decide_false by apply not_elem_of_nil. }
  apply NoDup_cons in Hnd as [Hi Hnd]. cbn [fmap list_fmap fst] in Hi.
  change (((i, c) :: l) ≫= cycle_event) with (cycle_event (i, c) ++ (l ≫= cycle_event)). rewrite foldl_app.
  destruct (IH (foldl hist_step x (cycle_event (i, c))) Hnd) as (H1 & H2 & H3 & H4). rewrite H1, H2, H3. setoid_rewrite H4.
  assert (i ∉ fresh_in l) as Hf.
  { unfold fresh_in. intros (p & -> & [_ Hp]%list_elem_of_filter)%list_elem_of_fmap. apply Hi. apply list_elem_of_fmap. by exists p. }
  unfold cycle_event, pinged_in, fresh_in in *. cbn [fst snd]. rewrite !filter_cons. cbn [snd].
  destruct (newly_unresponsive c); [|destruct (needs_ping c)]; cbn [foldl hist_step outstanding told_unresponsive going_on overtaken];
    rewrite ?(decide_True (P := true = true)), ?(decide_False (P := false = true)) by done;
    rewrite ?(decide_False (P := true = false ∧ _)), ?(decide_False (P := false = false ∧ false = true)),
      ?(decide_True (P := false = false ∧ true = true)) by (try done; by intros [??]); cbn [fmap list_fmap fst].
  - split_and!; [done..| |].
    + cbn. by rewrite <- Permutation_middle.
    + intros j. clear -Hf. unfold changes. destruct (decide (j = i)) as [->|Hne].
      * rewrite (bool_decide_false _ Hf), (bool_decide_true (i ∈ i :: _)) by left. case_bool_decide; set_solver.
      * rewrite (bool_decide_ext (j ∈ i :: _) (j ∈ (filter (λ p, newly_unresponsive p.2 = true) l).*1)) by (rewrite elem_of_cons; tauto).
        destruct (bool_decide (j ∈ _)); [rewrite elem_of_cons; tauto|]. case_bool_decide; set_solver.
  - clear. split_and!; [rewrite list_to_set_cons; set_solver|done..].
  - done.
Qed.

Lemma cycle_flagged m i :
  (∀ i c, m !! i = Some c → flagged_as_unresponsive c = true → replied_since_last_ping c = false) →
  flagged (after_cycle <$> m) i ↔ flagged m i ∨ i ∈ fresh_in (map_to_list m).
Proof.
  intros Hm. rewrite elem_of_fresh. unfold flagged. rewrite lookup_fmap. destruct (m !! i) as [c|] eqn:Hc; cbn.
  - destruct (after_cycle_cases c (Hm i c Hc)) as [_ Hf]. specialize (Hm i c Hc). split.
    + intros (d & [= <-] & Hd). rewrite Hf in Hd. apply negb_true_iff in Hd.
      destruct (flagged_as_unresponsive c) eqn:?; [left|right]; by exists c.
    + intros [(d & [= <-] & Hd)|(d & [= <-] & Hr & _)]; exists (after_cycle c); (split; [done|]); rewrite Hf; [by rewrite Hm|by rewrite Hr].
  - split; [by intros (? & ? & _)|]. intros [(? & ? & _)|(? & ? & _)]; done.
Qed.


(** ** Every step keeps the invariants *)

Lemma cycle_move tmp tmp' f o r :
  cycle_inv tmp (f :: r) → (length (filter (λ f, in_cycle f = true) o) ≤ length (filter (λ f, in_cycle f = true) [f]))%nat →
  (tmp' = [] ∨ tmp' = tmp ∧ (loops f = true → ∃ g, g ∈ o ∧ loops g = true)) → cycle_inv tmp' (o ++ r).
Proof.
  intros [H1 H2] Hl Ht. change (f :: r) with ([f] ++ r) in *. rewrite filter_app, length_app in H1. split.
  { rewrite filter_app, length_app. lia. }
  destruct Ht as [|[-> Ht]]; [by left|]. destruct H2 as [|(g & Hg & Hlg)]; [by left|right].
  apply elem_of_app in Hg as [->%list_elem_of_singleton|Hg].
  - destruct (Ht Hlg) as (g & Hg & ?). exists g. rewrite elem_of_app. by split; [left|].
  - exists g. rewrite elem_of_app. by split; [right|].
Qed.
Lemma cycle_enter tmp g r : cycle_inv tmp r → in_cycle g = false → cycle_inv tmp (g :: r).
Proof.
  intros [H1 H2] Hg. split; [by rewrite filter_cons, decide_False by (by rewrite Hg)|].
  destruct H2 as [|(f & ? & ?)]; [by left|right]. exists f. by split; [right|].
Qed.

Lemma watch_move m al al' f o r x x' :
  watch_inv m al (f :: r) x → outstanding x' = outstanding x →
  (will_rearm f = true → al' = true ∨ ∃ g, g ∈ o ∧ will_rearm g = true) → (al = true → al' = true) →
  watch_inv m al' (o ++ r) x'.
Proof.
  intros [H1 H2 H3] Ho Hf Hal. constructor; rewrite ?Ho; [done..|]. intros i c Hi Hc.
  destruct (H3 i c Hi Hc) as [?|(g & Hg & Hw)]; [left; auto|]. apply elem_of_cons in Hg as [->|Hg].
  - destruct (Hf Hw) as [?|(g & Hg & ?)]; [by left|right]. exists g. rewrite elem_of_app. by split; [left|].
  - right. exists g. rewrite elem_of_app. by split; [right|].
Qed.
(** A session is registered, or answers. *)
Lemma watch_insert m al i r x o :
  watch_inv m al r x → (al = true ∨ ∃ g, g ∈ o ∧ will_rearm g = true) →
  ∀ x', outstanding x' = outstanding x ∖ {[i]} → watch_inv (<[i := new_context]> m) al (o ++ r) x'.
Proof.
  intros [H1 H2 H3] Hr x' Ho. constructor; rewrite ?Ho.
  - intros j. rewrite elem_of_difference, elem_of_singleton, H1. destruct (decide (j = i)) as [->|Hne].
    + rewrite lookup_insert_eq. split; [tauto|]. by intros (d & [= <-] & ?).
    + rewrite lookup_insert_ne by done. tauto.
  - intros j d. destruct (decide (j = i)) as [->|Hne]; [rewrite lookup_insert_eq; by intros [= <-]|].
    rewrite lookup_insert_ne by done. apply H2.
  - intros _ _ _ _. destruct Hr as [|(g & Hg & ?)]; [by left|right]. exists g. rewrite elem_of_app. by split; [left|].
Qed.

Section turn.
Context (t : Z) (a b : list (Z * frame)) (f : frame) (s : Detector) (x : Hist).
Context (Hcalls : calls s = a ++ (t, f) :: b) (Hinv : anr_inv s x).
Let r := (a ++ b).*2.

Lemma frames_before : (calls s).*2 ≡ₚ f :: r.
Proof. rewrite Hcalls. unfold r. rewrite !fmap_app. cbn. by rewrite Permutation_middle. Qed.
Lemma turn_cycle : cycle_inv (unresponsive_sessions_temporary s) (f :: r).
Proof. rewrite <- frames_before. apply Hinv. Qed.
Lemma turn_watch : watch_inv (sessions s) (alarm_pending s) (f :: r) x.
Proof. rewrite <- frames_before. apply Hinv. Qed.
Lemma turn_notice : notice_inv (sessions s) (observers s) (f :: r) x.
Proof. rewrite <- frames_before. apply Hinv. Qed.

Lemma goto_good g s' x' : calls s' = a ++ (t, g) :: b →
  cycle_inv (unresponsive_sessions_temporary s') ([g] ++ r) → watch_inv (sessions s') (alarm_pending s') ([g] ++ r) x' →
  notice_inv (sessions s') (observers s') ([g] ++ r) x' → anr_inv s' x'.
Proof.
  intros Hc H1 H2 H3. assert ((calls s').*2 ≡ₚ [g] ++ r) as Hp.
  { rewrite Hc. unfold r. rewrite !fmap_app. cbn. by rewrite Permutation_middle. }
  constructor; [|by rewrite Hp..]. rewrite Hc, (fst_middle a b t f g), <- Hcalls. apply Hinv.
Qed.
Lemma finish_good s' x' : calls s' = a ++ b →
  cycle_inv (unresponsive_sessions_temporary s') ([] ++ r) → watch_inv (sessions s') (alarm_pending s') ([] ++ r) x' →
  notice_inv (sessions s') (observers s') ([] ++ r) x' → anr_inv s' x'.
Proof.
  intros Hc H1 H2 H3. constructor; [|by rewrite Hc..]. rewrite Hc.
  pose proof (ai_threads _ _ Hinv) as Hnd. rewrite Hcalls, fmap_app in Hnd. cbn in Hnd. rewrite <- Permutation_middle in Hnd.
  apply NoDup_cons in Hnd as [_ Hnd]. by rewrite fmap_app.
Qed.
End turn.

(** *** The rounds of the loops *)
Ltac no_such := first [by intros ? ?%elem_of_nil|by intros ? ? ?%elem_of_nil|by intros ? ? ? ?%elem_of_nil].

Section steps.
Context (t : Z) (a b : list (Z * frame)) (s : Detector) (x : Hist).
Implicit Types i : Z.
#[local] Abbreviation after r := (anr_inv (post (r : run Detector anr_obs unit)) (foldl hist_step x (trace (r : run Detector anr_obs unit)))).
#[local] Abbreviation goto f := (pmodify (set_calls (a ++ (t, f) :: b))).
#[local] Abbreviation finish := (pmodify (set_calls (a ++ b))).

(** Where a call goes when everyone was told: with [alarm_needs_rescheduling],
    to set the alarm. *)
Lemma then_rearm f (rearm : bool) al x' :
  watch_inv (sessions s) al (f :: (a ++ b).*2) x → outstanding x' = outstanding x → (will_rearm f = true → rearm = true) →
  watch_inv (sessions s) al ((if rearm then [Rearm] else []) ++ (a ++ b).*2) x'.
Proof.
  intros Hw Ho Hr. eapply watch_move; [exact Hw|done| |done]. intros ->%Hr. right. exists Rearm. by split; [left|].
Qed.

Lemma cycle_fresh tmp r : cycle_inv tmp (CycleEntered :: r) → tmp = [] ∧ filter (λ f, in_cycle f = true) r = [].
Proof.
  intros [Hl Ht]. rewrite filter_cons, decide_True in Hl by done.
  destruct (filter (λ f, in_cycle f = true) r) as [|g k] eqn:Hf; [|cbn in Hl; lia]. split; [|done].
  destruct Ht as [|(g & [->|Hg]%elem_of_cons & Hg')]; [done..|].
  assert (g ∈ filter (λ f, in_cycle f = true) r) as Hin by (apply list_elem_of_filter; split; [by destruct g|done]).
  rewrite Hf in Hin. by apply elem_of_nil in Hin.
Qed.

Lemma cycle_entered_good : calls s = a ++ (t, CycleEntered) :: b → anr_inv s x → after (ping_sessions t a b s).
Proof.
  intros Hc Hinv. rewrite ping_sessions_run. cbn [post trace]. set (l := map_to_list (sessions s)).
  pose proof (turn_cycle _ _ _ _ _ _ Hc Hinv) as [-> Hcy]%cycle_fresh. pose proof (turn_watch _ _ _ _ _ _ Hc Hinv) as [H1 H2 H3].
  pose proof (turn_notice _ _ _ _ _ _ Hc Hinv) as Hn.
  destruct (fold_cycle l x (NoDup_fst_map_to_list _)) as (Ho & Ht & Hg & Hv). cbn [app].
  assert (notice_inv (sessions s) (observers s) ([] ++ (a ++ b).*2) x) as Hn'.
  { apply (notice_move _ _ CycleEntered [] _ x x); [done..|by rewrite (ni_going _ _ _ _ Hn)|no_such|no_such|done|done]. }
  eapply (goto_good t a b _ s x Hc Hinv); [done|..]; cbn [sessions observers alarm_pending unresponsive_sessions_temporary].
  - split; [by rewrite filter_app, Hcy|]. right. eexists. split; [left|done].
  - constructor.
    + intros i. unfold l in *. rewrite Ho, elem_of_union, elem_of_list_to_set, elem_of_pinged, H1, lookup_fmap.
      destruct (sessions s !! i) as [c|] eqn:Hi; cbn; [|naive_solver].
      destruct (after_cycle_cases c (H2 i c Hi)) as [Hr _]. split; [intros _; by exists (after_cycle c)|].
      intros _. destruct (replied_since_last_ping c) eqn:?; [left|right]; by exists c.
    + intros i d. rewrite lookup_fmap. destruct (sessions s !! i) as [c|] eqn:Hi; cbn; [|done]. intros [= <-] _.
      by destruct (after_cycle_cases c (H2 i c Hi)).
    + intros i d. rewrite lookup_fmap. destruct (sessions s !! i) as [c|] eqn:Hi; cbn; [|done]. intros [= <-] Hf.
      right. eexists. split; [left|]. cbn. destruct (after_cycle_cases c (H2 i c Hi)) as [_ Hfl]. rewrite Hfl in Hf.
      apply negb_false_iff in Hf. unfold rearms. apply existsb_exists. exists (i, c).
      split; [apply list_elem_of_In; by apply elem_of_map_to_list|]. cbn. unfold newly_unresponsive, needs_ping. by rewrite Hf.
  - eapply (notice_flag _ _ _ _ _ (fresh_in l)); [exact Hn'|apply fresh_NoDup|intros i; by apply cycle_flagged| |done|done|done|done|done|done|done].
    intros i (c & Hi & _ & Hf)%elem_of_fresh (d & Hd & Hfd). congruence.
Qed.

Lemma next_round_good i todo rearm :
  calls s = a ++ (t, Announcing (i :: todo) rearm) :: b → anr_inv s x → after (goto (Unresponsive 0 i todo rearm) s).
Proof.
  intros Hc Hinv. cbn [pmodify post trace foldl].
  eapply (goto_good t a b _ s x Hc Hinv); [done|..]; cbn [sessions observers alarm_pending unresponsive_sessions_temporary set_calls].
  - eapply cycle_move; [by eapply turn_cycle|done|]. right. split; [done|]. intros _. eexists. by split; [left|].
  - eapply watch_move; [by eapply turn_watch|done| |done]. intros Hr. right. eexists. by split; [left|].
  - pose proof (turn_notice _ _ _ _ _ _ Hc Hinv) as Hn.
    eapply notice_move; [exact Hn|done|done|apply Hn| | |done|].
    + by intros g d ->%list_elem_of_singleton.
    + intros g j ->%list_elem_of_singleton Hj Hv. eapply (ni_says _ _ _ _ Hn (Announcing (i :: todo) rearm)); [done|left|done].
    + intros n d j Hv Hd Hf [->|Hj]%elem_of_cons; right; eexists; (split; [left|]); cbn; [right; split; [done|lia]|by left].
Qed.

Lemma round_over_good rearm :
  calls s = a ++ (t, Announcing [] rearm) :: b → anr_inv s x →
  after ((do* pmodify (set_temporary []) in if rearm then goto Rearm else finish) s).
Proof.
  intros Hc Hinv. rewrite pbind_modify. pose proof (turn_notice _ _ _ _ _ _ Hc Hinv) as Hn.
  pose proof (turn_cycle _ _ _ _ _ _ Hc Hinv) as Hcy. pose proof (turn_watch _ _ _ _ _ _ Hc Hinv) as Hw.
  assert (∀ o, (∀ g, g ∈ o → g = Rearm) → (length o ≤ 1)%nat →
    notice_inv (sessions s) (observers s) (o ++ (a ++ b).*2) x) as Hno.
  { intros o Ho Hl. eapply notice_move; [exact Hn|done|done| | | |done|].
    - rewrite (ni_going _ _ _ _ Hn). destruct o as [|g []]; cbn in Hl |- *; [done|by rewrite (Ho g) by left|lia].
    - by intros g d ->%Ho. - intros g i ->%Ho ?%elem_of_nil. done. - intros n d i _ _ _ ?%elem_of_nil. done. }
  destruct rearm; cbn [pmodify post trace foldl].
  - eapply (goto_good t a b _ s x Hc Hinv); [done|..]; cbn [sessions observers alarm_pending unresponsive_sessions_temporary set_calls set_temporary].
    + eapply cycle_move; [exact Hcy|apply Nat.le_0_l|by left].
    + by eapply (then_rearm _ true).
    + apply Hno; [by intros g ->%list_elem_of_singleton|cbn; lia].
  - eapply (finish_good t a b _ s x Hc Hinv); [done|..]; cbn [sessions observers alarm_pending unresponsive_sessions_temporary set_calls set_temporary].
    + eapply cycle_move; [exact Hcy|apply Nat.le_0_l|by left].
    + by eapply (then_rearm _ false).
    + apply Hno; [no_such|cbn; lia].
Qed.

Lemma rearm_good : calls s = a ++ (t, Rearm) :: b → anr_inv s x → after ((do* reschedule_in in finish) s).
Proof.
  intros Hc Hinv. unfold reschedule_in. rewrite pbind_assoc, pbind_get.
  eapply (finish_good t a b _ s x Hc Hinv); [done|..]; cbn.
  - eapply (cycle_move _ _ _ []); [by eapply turn_cycle|apply Nat.le_0_l|by right].
  - eapply (watch_move _ _ _ _ []); [by eapply turn_watch|done|by left|done].
  - pose proof (turn_notice _ _ _ _ _ _ Hc Hinv) as Hn.
    eapply (notice_move _ _ _ []); [exact Hn|done|done|apply Hn|no_such|no_such|done|done].
Qed.

(** The announcement that was made is off the list. *)
Lemma announced_going i l (k : list Z) : l ≡ₚ i :: k → erase_first i l ≡ₚ k.
Proof.
  intros Hl. apply (Permutation_cons_inv (a := i)). rewrite erase_first_perm; [done|]. rewrite Hl. left.
Qed.

Lemma asked_good d :
  calls s = a ++ (t, Registering d) :: b → anr_inv s x →
  after ((do* pemit (Asked d (unresponsive_sessions s)) in goto (Telling d (unresponsive_sessions s))) s).
Proof.
  intros Hc Hinv. rewrite pbind_emit. cbn [pmodify post trace foldl]. set (l := unresponsive_sessions s).
  assert (∀ i, i ∈ l ↔ flagged (sessions s) i) as Hl.
  { intros i. unfold l, unresponsive_sessions, flagged. rewrite list_elem_of_fmap. split.
    - intros ([j c] & -> & [Hfl Hm%elem_of_map_to_list]%list_elem_of_filter). by exists c.
    - intros (c & Hm & Hfl). exists (i, c). by rewrite list_elem_of_filter, elem_of_map_to_list. }
  eapply (goto_good t a b _ s x Hc Hinv); [done|..]; cbn [sessions observers alarm_pending unresponsive_sessions_temporary set_calls].
  - eapply cycle_move; [by eapply turn_cycle|done|by right].
  - eapply watch_move; [by eapply turn_watch|done|done|done].
  - pose proof (turn_notice _ _ _ _ _ _ Hc Hinv) as Hn.
    eapply notice_move; [exact Hn|done|done| | | |done|].
    + cbn [hist_step going_on]. rewrite (ni_going _ _ _ _ Hn). done.
    + by intros g e ->%list_elem_of_singleton.
    + intros g i ->%list_elem_of_singleton Hi _. by apply Hl.
    + intros n e i _ _ Hf Hwt. right. eexists. split; [left|]. split; [done|by apply Hl].
Qed.

Lemma tell_good d i todo :
  calls s = a ++ (t, Telling d (i :: todo)) :: b → anr_inv s x →
  after ((do* pemit (SessionUnresponsive d i) in do* pemit (Announced i) in goto (Telling d todo)) s).
Proof.
  intros Hc Hinv. rewrite !pbind_emit. cbn [pmodify post trace foldl].
  eapply (goto_good t a b _ s x Hc Hinv); [done|..]; cbn [sessions observers alarm_pending unresponsive_sessions_temporary set_calls].
  - eapply cycle_move; [by eapply turn_cycle|done|by right].
  - eapply watch_move; [by eapply turn_watch|done|done|done].
  - pose proof (turn_notice _ _ _ _ _ _ Hc Hinv) as Hn.
    assert (notice_inv (sessions s) (observers s) (Telling d (i :: todo) :: (a ++ b).*2) (told_too d i x)) as Hn'.
    { apply notice_told; [done|eapply (ni_registers _ _ _ _ Hn (Telling d (i :: todo))); [left|by apply bool_decide_true]|].
      intros Hv. eapply (ni_says _ _ _ _ Hn (Telling d (i :: todo))); [done|left|left]. }
    eapply notice_move; [exact Hn'|done|done| | | |done|].
    + apply announced_going, Hn'.
    + by intros g e ->%list_elem_of_singleton.
    + intros g j ->%list_elem_of_singleton Hj Hv. eapply (ni_says _ _ _ _ Hn (Telling d (i :: todo))); [done|left|by right].
    + intros n e j Hv _ Hf [-> [->|Hj]%elem_of_cons]; [left; cbn; set_solver|right; eexists; by split; [left|]].
Qed.
Lemma told_all_good d : calls s = a ++ (t, Telling d []) :: b → anr_inv s x → after (finish s).
Proof.
  intros Hc Hinv. cbn [pmodify post trace foldl].
  eapply (finish_good t a b _ s x Hc Hinv); [done|..]; cbn [sessions observers alarm_pending unresponsive_sessions_temporary set_calls].
  - eapply (cycle_move _ _ _ []); [by eapply turn_cycle|done|by right].
  - eapply (watch_move _ _ _ _ []); [by eapply turn_watch|done|done|done].
  - pose proof (turn_notice _ _ _ _ _ _ Hc Hinv) as Hn.
    eapply (notice_move _ _ _ []); [exact Hn|done|done|apply Hn|no_such|no_such|done|].
    intros n e j _ _ _ [_ ?%elem_of_nil]. done.
Qed.

Lemma unresponsive_good n i todo rearm :
  calls s = a ++ (t, Unresponsive n i todo rearm) :: b → anr_inv s x →
  after (visit_slot n (λ o, SessionUnresponsive o i) (λ f, goto f) (Unresponsive (S n) i todo rearm)
    (do* pemit (Announced i) in goto (Announcing todo rearm)) s).
Proof.
  intros Hc Hinv. pose proof (turn_notice _ _ _ _ _ _ Hc Hinv) as Hn.
  assert (∀ g s' y, (g = Announcing todo rearm ∨ g = Unresponsive (S n) i todo rearm) → s' = set_calls (a ++ (t, g) :: b) s →
    outstanding y = outstanding x → notice_inv (sessions s) (observers s) ([g] ++ (a ++ b).*2) y → anr_inv s' y) as Hgo.
  { intros g s' y Hg -> Hy Hno. eapply (goto_good t a b _ s x Hc Hinv); [done|..|done]; cbn.
    - eapply (cycle_move _ _ _ [g]); [by eapply turn_cycle|by destruct Hg as [->| ->]|].
      right. split; [done|]. intros _. exists g. split; [left|by destruct Hg as [->| ->]].
    - eapply (watch_move _ _ _ _ [g]); [by eapply turn_watch|done| |done]. intros Hr. right. exists g. split; [left|].
      by destruct Hg as [->| ->]. }
  assert (∀ j, j ∉ overtaken x → j ∈ i :: todo → flagged (sessions s) j) as Hsays.
  { intros j Hv Hj. eapply (ni_says _ _ _ _ Hn (Unresponsive n i todo rearm)); [done|left|done]. }
  unfold visit_slot. rewrite pbind_get. destruct (observers s !! n) as [[d|]|] eqn:Hd.
  - rewrite pbind_emit. cbn [pmodify post trace foldl]. eapply Hgo; [by right|done|done|].
    eapply notice_move; [apply (notice_told _ _ d i); [exact Hn|by apply list_elem_of_lookup; exists n|]|done|done|apply Hn| | |done|].
    + intros Hv. apply Hsays; [done|left].
    + by intros g e ->%list_elem_of_singleton.
    + intros g j ->%list_elem_of_singleton Hj Hv. by apply Hsays.
    + intros m e j Hv He Hf [Hj|[-> Hle]]; [right; eexists; split; [left|by left]|].
      destruct (decide (m = n)) as [->|Hne]; [left; cbn; set_solver|]. right. eexists. split; [left|]. right. split; [done|lia].
  - cbn [pmodify post trace foldl]. eapply Hgo; [by right|done|done|].
    eapply notice_move; [exact Hn|done|done|apply Hn| | |done|].
    + by intros g e ->%list_elem_of_singleton.
    + intros g j ->%list_elem_of_singleton Hj Hv. by apply Hsays.
    + intros m e j Hv He Hf [Hj|[-> Hle]]; right; (eexists; split; [left|]); [by left|]. right. split; [done|].
      assert (m ≠ n) by congruence. lia.
  - rewrite pbind_emit. cbn [pmodify post trace foldl]. eapply Hgo; [by left|done|done|].
    eapply notice_move; [exact Hn|done|done|apply announced_going, Hn| | |done|].
    + by intros g e ->%list_elem_of_singleton.
    + intros g j ->%list_elem_of_singleton Hj Hv. apply Hsays; [done|by right].
    + intros m e j Hv He Hf [Hj|[-> Hle]]; right; (eexists; split; [left|done]) || exfalso.
      apply lookup_lt_Some in He. apply lookup_ge_None in Hd. lia.
Qed.

Lemma now_responsive_good n i (rearm : bool) :
  calls s = a ++ (t, NowResponsive n i rearm) :: b → anr_inv s x →
  after (visit_slot n (λ o, SessionNowResponsive o i) (λ f, goto f) (NowResponsive (S n) i rearm)
    (do* pemit (Announced i) in if rearm then goto Rearm else finish) s).
Proof.
  intros Hc Hinv. pose proof (turn_notice _ _ _ _ _ _ Hc Hinv) as Hn.
  pose proof (turn_cycle _ _ _ _ _ _ Hc Hinv) as Hcy. pose proof (turn_watch _ _ _ _ _ _ Hc Hinv) as Hw.
  assert (∀ s' y, s' = set_calls (a ++ (t, NowResponsive (S n) i rearm) :: b) s → outstanding y = outstanding x →
    notice_inv (sessions s) (observers s) ([NowResponsive (S n) i rearm] ++ (a ++ b).*2) y → anr_inv s' y) as Hgo.
  { intros s' y -> Hy Hno. eapply (goto_good t a b _ s x Hc Hinv); [done|..|done]; cbn.
    - eapply (cycle_move _ _ _ [_]); [exact Hcy|done|by right].
    - eapply (watch_move _ _ _ _ [_]); [exact Hw|done| |done]. intros Hr. right. eexists. by split; [left|]. }
  assert (∀ j, j ∉ overtaken x → j = i → ¬ flagged (sessions s) j) as Hsays.
  { intros j Hv ->. eapply (ni_says _ _ _ _ Hn (NowResponsive n i rearm)); [done|left|left]. }
  unfold visit_slot. rewrite pbind_get. destruct (observers s !! n) as [[d|]|] eqn:Hd.
  - rewrite pbind_emit. cbn [pmodify post trace foldl]. eapply Hgo; [done|done|].
    eapply notice_move; [apply (notice_told_back _ _ d i); [exact Hn|auto]|done|done|apply Hn| | | |done].
    + by intros g e ->%list_elem_of_singleton.
    + intros g j ->%list_elem_of_singleton ->%list_elem_of_singleton Hv. by apply Hsays.
    + intros m e j Hv He Ht [-> Hle]. eexists. split; [left|]. split; [done|]. assert (m ≠ n); [|lia]. intros ->.
      rewrite Hd in He. injection He as <-. cbn in Ht. set_solver.
  - cbn [pmodify post trace foldl]. eapply Hgo; [done|done|].
    eapply notice_move; [exact Hn|done|done|apply Hn| | | |done].
    + by intros g e ->%list_elem_of_singleton.
    + intros g j ->%list_elem_of_singleton ->%list_elem_of_singleton Hv. by apply Hsays.
    + intros m e j Hv He Ht [-> Hle]. eexists. split; [left|]. split; [done|]. assert (m ≠ n) by congruence. lia.
  - rewrite pbind_emit.
    assert (∀ o, (∀ g, g ∈ o → g = Rearm) → (length o ≤ 1)%nat →
      notice_inv (sessions s) (observers s) (o ++ (a ++ b).*2) (hist_step x (Announced i))) as Hno.
    { intros o Ho Hl. eapply notice_move; [exact Hn|done|done| | | | |done].
      - destruct o as [|g []]; cbn in Hl; [|rewrite (Ho g) by left|lia]; apply announced_going, Hn.
      - by intros g e ->%Ho.
      - intros g j ->%Ho ?%elem_of_nil. done.
      - intros m e j Hv He Ht [-> Hle]. exfalso. apply lookup_lt_Some in He. apply lookup_ge_None in Hd. lia. }
    destruct rearm; cbn [pmodify post trace foldl].
    + eapply (goto_good t a b _ s x Hc Hinv); [done|..]; cbn [sessions observers alarm_pending unresponsive_sessions_temporary set_calls].
      * eapply cycle_move; [exact Hcy|apply Nat.le_0_l|by right].
      * by eapply (then_rearm _ true).
      * apply Hno; [by intros g ->%list_elem_of_singleton|cbn; lia].
    + eapply (finish_good t a b _ s x Hc Hinv); [done|..]; cbn [sessions observers alarm_pending unresponsive_sessions_temporary set_calls].
      * eapply (cycle_move _ _ _ []); [exact Hcy|apply Nat.le_0_l|by right].
      * by eapply (then_rearm _ false).
      * apply (Hno []); [no_such|cbn; lia].
Qed.
End steps.

Lemma turn_good t s x : anr_inv s x → anr_inv (post (anr_turn t s)) (foldl hist_step x (trace (anr_turn t s))).
Proof.
  intros Hinv. unfold anr_turn. rewrite pbind_get. destruct (split_at t (calls s)) as [[[a f] b]|] eqn:Hsp; [|done].
  apply split_at_spec in Hsp. cbn zeta.
  destruct f as [|[|i todo] rearm|n i todo rearm|n i rearm| |d|d [|i todo]];
    eauto using cycle_entered_good, next_round_good, round_over_good, rearm_good, asked_good, tell_good, told_all_good,
      unresponsive_good, now_responsive_good.
Qed.

(** *** Calls that begin *)
Lemma enter_good t f s s' x x' :
  anr_inv s x → t ∉ (calls s).*1 → calls s' = (t, f) :: calls s →
  cycle_inv (unresponsive_sessions_temporary s') (f :: (calls s).*2) →
  watch_inv (sessions s') (alarm_pending s') (f :: (calls s).*2) x' →
  notice_inv (sessions s') (observers s') (f :: (calls s).*2) x' → anr_inv s' x'.
Proof.
  intros Hinv Ht Hc H1 H2 H3. constructor; rewrite Hc; [|done..]. apply NoDup_cons. split; [done|apply Hinv].
Qed.
Lemma stay_good s s' x x' :
  anr_inv s x → calls s' = calls s → unresponsive_sessions_temporary s' = unresponsive_sessions_temporary s →
  watch_inv (sessions s') (alarm_pending s') (calls s).*2 x' →
  notice_inv (sessions s') (observers s') (calls s).*2 x' → anr_inv s' x'.
Proof.
  intros Hinv Hc Ht H2 H3. constructor; rewrite ?Hc, ?Ht; [apply Hinv|apply Hinv|done..].
Qed.

(** A session that is new, or answered, is not flagged. *)
Lemma flagged_insert m i j : flagged (<[i := new_context]> m) j ↔ j ≠ i ∧ flagged m j.
Proof.
  unfold flagged. destruct (decide (j = i)) as [->|Hne].
  - rewrite lookup_insert_eq. split; [by intros (c & [= <-] & ?)|tauto].
  - rewrite lookup_insert_ne by done. tauto.
Qed.
Lemma flagged_delete m i j : flagged (delete i m) j ↔ j ≠ i ∧ flagged m j.
Proof.
  unfold flagged. destruct (decide (j = i)) as [->|Hne].
  - rewrite lookup_delete_eq. split; [by intros (c & ? & _)|tauto].
  - rewrite lookup_delete_ne by done. tauto.
Qed.

#[local] Abbreviation after op s x := (anr_inv (post (anr_exec op s)) (foldl hist_step x (trace (anr_exec op s)))).

(** Everything but the alarm stays: a thread may have to set it. *)
Lemma maybe_rearm t s x s' x' m :
  anr_inv s x → t ∉ (calls s).*1 → s' = set_sessions m s →
  (∀ o, (alarm_pending s = true ∨ o = [Rearm]) → watch_inv m (alarm_pending s) (o ++ (calls s).*2) x') →
  notice_inv m (observers s) (calls s).*2 x' →
  anr_inv (post (pwhen (negb (alarm_pending s)) (enter t Rearm) s')) x'.
Proof.
  intros Hinv Ht -> Hw Hn. destruct (alarm_pending s) eqn:Hal; cbn.
  - eapply stay_good; [done..| |done]. cbn. rewrite Hal. by apply (Hw []); left.
  - eapply enter_good; [done..| | |]; cbn.
    + apply cycle_enter; [apply Hinv|done].
    + rewrite Hal. by apply (Hw [Rearm]); right.
    + by apply notice_enter.
Qed.

Lemma register_good t i s x :
  anr_inv s x → t ∉ (calls s).*1 → sessions s !! i = None → after (OpRegister t i) s x.
Proof.
  intros Hinv Ht Hno. cbn [anr_exec]. unfold register_session. rewrite pbind_modify, pbind_get. cbn zeta.
  assert (foldl hist_step x (trace (pwhen (negb (alarm_pending s)) (enter t Rearm)
    (set_sessions (<[i := new_context]> (sessions s)) s))) = x) as Hx by by destruct (alarm_pending s).
  cbn [alarm_pending set_sessions]. rewrite Hx. eapply maybe_rearm; [done..| |].
  - intros o Ho. eapply watch_insert; [apply Hinv| |].
    + destruct Ho as [?| ->]; [by left|right]. exists Rearm. by split; [left|].
    + apply set_eq. intros j. rewrite elem_of_difference, elem_of_singleton. split; [|tauto]. intros Hj. split; [done|].
      intros ->. apply (wi_outstanding _ _ _ _ (ai_watch _ _ Hinv)) in Hj as (c & Hc & _). congruence.
  - eapply notice_same; [|apply Hinv]. intros j. rewrite flagged_insert. split; [tauto|]. intros Hf. split; [|done].
    intros ->. destruct Hf as (c & Hc & _). congruence.
Qed.

Lemma pong_good t i s x : anr_inv s x → t ∉ (calls s).*1 → after (OpPong t i) s x.
Proof.
  intros Hinv Ht. cbn [anr_exec]. unfold pong_received. rewrite pbind_get. destruct (sessions s !! i) as [c|] eqn:Hi; [|done].
  cbn zeta. rewrite pbind_put, pbind_emit. set (m := <[i := _]> (sessions s)). set (s' := set_sessions m s).
  assert (∀ o y, (alarm_pending s = true ∨ ∃ g, g ∈ o ∧ will_rearm g = true) → outstanding y = outstanding x ∖ {[i]} →
    watch_inv m (alarm_pending s) (o ++ (calls s).*2) y) as Hw.
  { intros o y Ho Hy. eapply watch_insert; [apply Hinv|done|done]. }
  destruct (flagged_as_unresponsive c) eqn:Hf.
  - rewrite pbind_emit. cbn [enter pmodify post trace foldl]. eapply enter_good; [done..| | |]; cbn.
    + apply cycle_enter; [apply Hinv|done].
    + apply (Hw [_]); [|done]. destruct (alarm_pending s); [by left|right]. eexists. by split; [left|].
    + eapply (notice_unflag (sessions s) m _ [_]); [apply Hinv|..].
      * intros [? _]%flagged_insert. done.
      * intros j Hj. unfold m. rewrite flagged_insert. tauto.
      * intros g ->%list_elem_of_singleton. split; [done|]. by split.
      * cbn. by rewrite (ni_going _ _ _ _ (ai_notice _ _ Hinv)).
      * intros j. cbn. unfold changes. cbn. repeat case_bool_decide; set_solver.
      * done. * done.
      * intros d n _. eexists. split; [left|]. cbn. split; [done|lia].
  - assert (trace (pwhen (negb (alarm_pending s)) (enter t Rearm) s') = []) as -> by by destruct (alarm_pending s).
    cbn [post trace foldl]. eapply maybe_rearm; [done..| |].
    + intros o Ho. apply Hw; [|done]. destruct Ho as [?| ->]; [by left|right]. exists Rearm. by split; [left|].
    + eapply notice_same; [|by destruct (ai_notice _ _ Hinv); constructor].
      intros j. unfold m. rewrite flagged_insert. split; [tauto|]. intros Hfl. split; [|done].
      intros ->. destruct Hfl as (d & Hd & ?). congruence.
Qed.

Lemma unregister_good i s x : anr_inv s x → after (OpUnregister i) s x.
Proof.
  intros Hinv. cbn [anr_exec]. unfold unregister_session. rewrite pbind_modify. cbn [pemit post trace foldl].
  eapply stay_good; [done..| |]; cbn [sessions observers alarm_pending set_sessions].
  - destruct (ai_watch _ _ Hinv) as [H1 H2 H3]. constructor; cbn [hist_step outstanding].
    + intros j. rewrite elem_of_difference, elem_of_singleton, H1. rewrite lookup_delete. destruct (decide (i = j)); naive_solver.
    + intros j d. rewrite lookup_delete. destruct (decide (i = j)); [done|]. apply H2.
    + intros j d. rewrite lookup_delete. destruct (decide (i = j)); [done|]. apply H3.
  - eapply (notice_unflag (sessions s) _ _ []); [apply Hinv|..].
    + intros [? _]%flagged_delete. done.
    + intros j Hj. rewrite flagged_delete. tauto.
    + no_such.
    + apply Hinv.
    + intros j. cbn. unfold changes. cbn. repeat case_bool_decide; set_solver.
    + intros d j [_ ?]%elem_of_filter. done.
    + intros d j Hj Hd. by apply elem_of_filter.
    + intros d n [? _]%elem_of_filter. done.
Qed.

Lemma alarm_good t s x :
  anr_inv s x → t ∉ (calls s).*1 → (∀ f, f ∈ (calls s).*2 → in_cycle f = false) → after (OpAlarm t) s x.
Proof.
  intros Hinv Ht Hno. cbn [anr_exec]. rewrite pbind_modify. cbn [enter pmodify post trace foldl].
  eapply enter_good; [done..| | |]; cbn.
  - destruct (ai_cycle _ _ Hinv) as [_ Htmp]. split.
    + rewrite filter_cons, decide_True by done. rewrite filter_none; [done|]. intros f Hf. by rewrite Hno.
    + destruct Htmp as [|(f & Hf & Hl)]; [by left|]. apply Hno in Hf. by destruct f.
  - destruct (ai_watch _ _ Hinv) as [H1 H2 H3]. constructor; [done..|]. intros i c _ _. right. eexists. by split; [left|].
  - apply notice_enter; [apply Hinv|done|done].
Qed.

(** *** Observers come and go *)
Lemma lookup_occupy n b L m d :
  n = length L ∨ L !! n = Some None →
  occupy n b L !! m = Some (Some d) ↔ (m = n ∧ d = b) ∨ L !! m = Some (Some d).
Proof.
  intros Hn. unfold occupy. case_bool_decide as Hl.
  - destruct Hn as [->|Hn]; [lia|]. destruct (decide (m = n)) as [->|Hne].
    + rewrite list_lookup_insert_eq by done. rewrite Hn. naive_solver.
    + rewrite list_lookup_insert_ne by done. naive_solver.
  - destruct Hn as [->|Hn%lookup_lt_Some]; [|lia]. destruct (decide (m < length L)%nat).
    + rewrite lookup_app_l by done. split; [by right|]. intros [[-> _]|?]; [lia|done].
    + rewrite lookup_app_r by lia. rewrite (lookup_ge_None_2 L) by lia. split; [|intros [[-> ->]|?]; [|done]].
      * intros Hs. left. pose proof (lookup_lt_Some _ _ _ Hs) as Hlt. cbn in Hlt. replace (m - length L)%nat with 0%nat in Hs by lia.
        split; [lia|]. by injection Hs as <-.
      * by rewrite Nat.sub_diag.
Qed.
Lemma lookup_vacate b L m d :
  (∀ n n', L !! n = Some (Some b) → L !! n' = Some (Some b) → n = n') →
  vacate b L !! m = Some (Some d) ↔ d ≠ b ∧ L !! m = Some (Some d).
Proof.
  revert m. induction L as [|o L IH]; intros m Hu; cbn [vacate]; [by rewrite lookup_nil; split; [|intros [_ ?]]|].
  case_bool_decide as Ho.
  - subst o. assert (∀ n, L !! n ≠ Some (Some b)) as Hno.
    { intros n Hn. specialize (Hu 0%nat (S n) eq_refl Hn). lia. }
    destruct m as [|m]; cbn; [naive_solver|]. split; [|by intros [_ ?]]. intros Hm. split; [|done]. intros ->. by eapply Hno.
  - destruct m as [|m]; cbn; [naive_solver|]. apply IH. intros n n' Hn Hn'. specialize (Hu (S n) (S n') Hn Hn'). lia.
Qed.

Lemma notice_add m L n b fs x :
  notice_inv m L fs x → Some b ∉ L → n = length L ∨ L !! n = Some None →
  notice_inv m (occupy n b L) (Registering b :: fs) x.
Proof.
  intros [H1 H2 H3 H4 H5 H6 H7] Hb Hn.
  assert (∀ d, observes L d → observes (occupy n b L) d) as Hobs.
  { intros d [k Hk]%list_elem_of_lookup. apply list_elem_of_lookup. exists k. apply lookup_occupy; [done|by right]. }
  assert (∀ k, L !! k ≠ Some (Some b)) as Hno by (intros k Hk; apply Hb; apply list_elem_of_lookup; by exists k).
  constructor.
  - intros k k' d. rewrite !lookup_occupy by done.
    intros [[-> ->]|Hk] [[-> Hd]|Hk']; [done|by destruct (Hno k')|subst; by destruct (Hno k)|by eapply H1].
  - done.
  - intros d i Hd. by eapply Hobs, H3.
  - intros f d [->|Hf]%elem_of_cons Hr; [|by eapply Hobs, H4]. cbn in Hr. apply bool_decide_eq_true in Hr as <-.
    apply list_elem_of_lookup. exists n. apply lookup_occupy; [done|by left].
  - intros f i Hi [->|Hf]%elem_of_cons; [by intros ?%elem_of_nil|by apply H5].
  - intros d i Hi Ht. destruct (H6 d i Hi Ht) as [?|(k & Hk & f & ? & ?)]; [by left|right]. exists k.
    rewrite lookup_occupy by done. split; [by right|]. exists f. by split; [right|].
  - intros d k i Hi. rewrite lookup_occupy by done. intros [[-> ->]|Hk] Hfl.
    + right. exists (Registering b). by split; [left|].
    + destruct (H7 d k i Hi Hk Hfl) as [?|(f & ? & ?)]; [by left|right]. exists f. by split; [right|].
Qed.
Lemma notice_remove m L b fs x :
  notice_inv m L fs x → (∀ f, f ∈ fs → registers b f = false) →
  notice_inv m (vacate b L) fs (hist_step x (ObserverRemoved b)).
Proof.
  intros [H1 H2 H3 H4 H5 H6 H7] Hno.
  assert (∀ k d, vacate b L !! k = Some (Some d) ↔ d ≠ b ∧ L !! k = Some (Some d)) as Hl.
  { intros k d. apply lookup_vacate. intros k' k''. apply H1. }
  assert (∀ d, d ≠ b → observes L d → observes (vacate b L) d) as Hobs.
  { intros d Hd [k Hk]%list_elem_of_lookup. apply list_elem_of_lookup. exists k. by apply Hl. }
  constructor; cbn [hist_step going_on told_unresponsive overtaken].
  - intros k k' d [_ Hk]%Hl [_ Hk']%Hl. by eapply H1.
  - done.
  - intros d i [Hd Ht]%elem_of_filter. by eapply Hobs, H3.
  - intros f d Hf Hr. apply Hobs; [|by eapply H4]. intros ->. by rewrite Hno in Hr.
  - done.
  - intros d i Hi [Hd Ht]%elem_of_filter. destruct (H6 d i Hi Ht) as [?|(k & Hk & f & ? & ?)]; [by left|right]. exists k.
    rewrite Hl. split; [done|]. by exists f.
  - intros d k i Hi [Hd Hk]%Hl Hfl. destruct (H7 d k i Hi Hk Hfl) as [?|?]; [left; by apply elem_of_filter|by right].
Qed.

Lemma add_observer_good t b n s x :
  anr_inv s x → t ∉ (calls s).*1 → Some b ∉ observers s → n = length (observers s) ∨ observers s !! n = Some None →
  after (OpAddObserver t b n) s x.
Proof.
  intros Hinv Ht Hb Hn. cbn [anr_exec]. unfold register_observer. rewrite pbind_modify. cbn [enter pmodify post trace foldl].
  eapply enter_good; [done..| | |]; cbn.
  - apply cycle_enter; [apply Hinv|done].
  - destruct (ai_watch _ _ Hinv) as [H1 H2 H3]. constructor; [done..|]. intros i c Hi Hc.
    destruct (H3 i c Hi Hc) as [?|(f & ? & ?)]; [by left|right]. exists f. by split; [right|].
  - apply notice_add; [apply Hinv|done|done].
Qed.
Lemma remove_observer_good b s x :
  anr_inv s x → (∀ f, f ∈ (calls s).*2 → registers b f = false) → after (OpRemoveObserver b) s x.
Proof.
  intros Hinv Hno. cbn [anr_exec]. unfold unregister_observer. rewrite pbind_modify. cbn [pemit post trace foldl].
  eapply stay_good; [done..| |]; cbn [sessions observers alarm_pending set_observers].
  - destruct (ai_watch _ _ Hinv) as [H1 H2 H3]. by constructor.
  - apply notice_remove; [apply Hinv|done].
Qed.

Lemma forallb_frames (p : frame → bool) (l : list (Z * frame)) :
  forallb (λ c, negb (p c.2)) l = true → ∀ f, f ∈ l.*2 → p f = false.
Proof.
  intros Hl f ([t g] & -> & Hin)%list_elem_of_fmap. rewrite forallb_forall in Hl.
  apply negb_true_iff. apply (Hl (t, g)). by apply list_elem_of_In.
Qed.

Lemma anr_op_good op s x : anr_inv s x → anr_allowed s op = true → after op s x.
Proof.
  intros Hinv Hok. destruct op as [t i|i|t i|t b n|b|t|t]; cbn [anr_allowed] in Hok; unfold free in Hok;
    rewrite ?andb_true_iff, ?orb_true_iff, ?bool_decide_eq_true in Hok.
  - destruct Hok. by apply register_good.
  - by apply unregister_good.
  - by apply pong_good.
  - destruct Hok as [[? ?] ?]. by apply add_observer_good.
  - apply remove_observer_good; [done|]. by apply forallb_frames.
  - destruct Hok as [[? _] Hc]. apply alarm_good; [done..|]. by apply forallb_frames.
  - by apply turn_good.
Qed.

Lemma anr_reachable p s h : reachable (anr_machine p) s h → anr_inv s (foldl hist_step hist0 h).
Proof.
  revert s h. apply (reachable_invariant (anr_machine p)).
  - intros s ->. constructor; cbn; [apply NoDup_nil_2|split; [cbn; lia|by left]|constructor|constructor]; cbn.
    + intros i. rewrite lookup_empty. split; [by intros ?%elem_of_empty|by intros (? & ? & _)].
    + intros i c. by rewrite lookup_empty. + intros i c. by rewrite lookup_empty.
    + intros [|n] n' b; [done|by destruct n].
    + done. + intros b i ?%elem_of_empty. done. + intros f b ?%elem_of_nil. done. + intros f i _ ?%elem_of_nil. done.
    + intros b i _ ?%elem_of_empty. done.
    + intros b [|n] i _; [done|by destruct n].
  - intros s h op _ Hi Hok. cbn [m_exec anr_machine]. rewrite foldl_app. by apply anr_op_good.
Qed.

(** ** Properties *)
Definition anr_example_ops : list anr_op :=
  [OpAddObserver 7 9 0; OpStep 7; OpStep 7; OpRegister 5 1; OpStep 5; OpRegister 5 2; OpAlarm 0; OpStep 0; OpStep 0; OpStep 0;
   OpPong 5 1; OpAlarm 0; OpStep 0; OpStep 0; OpStep 0; OpStep 0; OpStep 0; OpStep 0;
   OpAddObserver 7 8 1; OpStep 7; OpStep 7; OpStep 7; OpAlarm 0].
Definition anr_example_run : Detector * list anr_obs :=
  default (new_detector 1000, []) (run_ops (anr_machine 1000) anr_example_ops (new_detector 1000) []).
Lemma anr_example_reachable : reachable (anr_machine 1000) anr_example_run.1 anr_example_run.2.
Proof. apply (run_ops_from_init (anr_machine 1000) anr_example_ops (new_detector 1000)); [done|]. by vm_compute. Qed.

Lemma elem_of_frames (l : list (Z * frame)) f : f ∈ l.*2 ↔ ∃ t, (t, f) ∈ l.
Proof.
  rewrite list_elem_of_fmap. split; [intros ([t g] & -> & Hin); by exists t|intros [t Hin]; by exists (t, f)].
Qed.

(** What was told, when nothing about [i] is under way. *)
Lemma told_settled m L fs x b i :
  notice_inv m L fs x → i ∉ overtaken x → i ∉ going_on x → Registering b ∉ fs →
  (b, i) ∈ told_unresponsive x ↔ observes L b ∧ flagged m i.
Proof.
  intros Hn Hv Hg Hr.
  assert (∀ f, f ∈ fs → i ∉ announces f) as Hno.
  { intros f Hf Hi. apply Hg. rewrite (ni_going _ _ _ _ Hn). apply list_elem_of_bind. by exists f. }
  split.
  - intros Ht. split; [by eapply ni_told|]. destruct (ni_stale _ _ _ _ Hn b i Hv Ht) as [?|(n & _ & f & Hf & Htb)]; [done|].
    destruct (Hno f Hf). destruct f; try done. destruct Htb as [<- _]. left.
  - intros [[n Hb]%list_elem_of_lookup Hf]. destruct (ni_missed _ _ _ _ Hn b n i Hv Hb Hf) as [?|(f & Hin & Hw)]; [done|].
    exfalso. destruct f as [|todo ?|k j todo ?| | |d|d todo]; try done.
    + by apply (Hno _ Hin).
    + apply (Hno _ Hin). destruct Hw as [?|[<- _]]; [by right|left].
    + cbn in Hw. by subst d.
    + apply (Hno _ Hin). apply Hw.
Qed.

(** What the section of a cycle under the mutex does to a session. *)
Lemma cycle_session s x t i c :
  anr_inv s x → (t, CycleEntered) ∈ calls s → sessions s !! i = Some c →
  sessions (post (anr_exec (OpStep t) s)) !! i = Some (mkContext false (negb (replied_since_last_ping c))).
Proof.
  intros Hinv Ht Hi. cbn [anr_exec]. unfold anr_turn. rewrite pbind_get.
  destruct (split_at t (calls s)) as [[[a f] b]|] eqn:Hsp.
  2: { apply split_at_None in Hsp. destruct Hsp. apply list_elem_of_fmap. by exists (t, CycleEntered). }
  apply split_at_spec in Hsp.
  assert (f = CycleEntered) as ->.
  { eapply (unique_pc (calls s) t); [apply Hinv| |done]. rewrite Hsp. apply elem_of_app. right. left. }
  cbn zeta. rewrite ping_sessions_run. cbn [post sessions]. rewrite lookup_fmap, Hi. cbn. f_equal.
  destruct (after_cycle_cases c (wi_flagged _ _ _ _ (ai_watch _ _ Hinv) i c Hi)) as [H1 H2].
  destruct (after_cycle c). cbn in H1, H2. by subst.
Qed.

(** C14. Whatever the threads do between the sections under the mutex: a session
    is flagged only while a ping it got is unanswered, and it has a ping
    unanswered exactly when it has not replied since the last one; a cycle flags
    exactly the sessions that have not answered, and pings the others; as long as
    some session is not flagged, the alarm is pending or some call under way has
    yet to set it or to run the cycle, so no session goes unwatched.  Once
    nothing about a session is being announced, and if its last change did not
    come while something about it still was, the observers that are registered,
    however late they came, know it as unresponsive exactly when it is flagged. *)
Theorem anr_watchdog p s h :
  reachable (anr_machine p) s h →
  let x := foldl hist_step hist0 h in
  (∀ i, flagged (sessions s) i → i ∈ outstanding x) ∧
  (∀ i c, sessions s !! i = Some c → (i ∈ outstanding x ↔ replied_since_last_ping c = false)) ∧
  (∀ t i c, (t, CycleEntered) ∈ calls s → sessions s !! i = Some c →
     sessions (post (anr_exec (OpStep t) s)) !! i = Some (mkContext false (negb (replied_since_last_ping c)))) ∧
  (∀ i c, sessions s !! i = Some c → flagged_as_unresponsive c = false →
     alarm_pending s = true ∨ ∃ t f, (t, f) ∈ calls s ∧ will_rearm f = true) ∧
  going_on x ≡ₚ (calls s).*2 ≫= announces ∧
  (∀ b i, i ∉ overtaken x → i ∉ going_on x → (∀ t, (t, Registering b) ∉ calls s) →
     ((b, i) ∈ told_unresponsive x ↔ observes (observers s) b ∧ flagged (sessions s) i)).
Proof.
  intros Hr x. pose proof (anr_reachable p s h Hr) as Hinv. fold x in Hinv.
  destruct (ai_watch _ _ Hinv) as [Ho Hf Ha]. split_and!.
  - intros i (c & Hc & Hfl). apply Ho. exists c. split; [done|]. by eapply Hf.
  - intros i c Hc. rewrite Ho. split; [intros (d & Hd & Hr')|intros Hr'; by exists c]. congruence.
  - intros t i c. by apply cycle_session with x.
  - intros i c Hc Hfl. destruct (Ha i c Hc Hfl) as [?|(f & [t Hin]%elem_of_frames & ?)]; [by left|right]. by exists t, f.
  - apply (ai_notice _ _ Hinv).
  - intros b i Hv Hg Hreg. eapply told_settled; [apply Hinv|done|done|].
    intros [t Hin]%elem_of_frames. by eapply Hreg.
Qed.

Lemma anr_watchdog_witness :
  (9, 2) ∈ told_unresponsive (foldl hist_step hist0 anr_example_run.2) ∧
  sessions (post (anr_exec (OpStep 0) anr_example_run.1)) !! 1 = Some (mkContext false true).
Proof.
  destruct (anr_watchdog 1000 _ _ anr_example_reachable) as (_ & _ & Hcy & _ & _ & Ht).
  assert (calls anr_example_run.1 = [(0, CycleEntered)]) as Hc by by vm_compute. rewrite Hc in *. split.
  - apply Ht; [apply (bool_decide_unpack (2 ∉ overtaken (foldl hist_step hist0 anr_example_run.2))); vm_compute; exact I| | |].
    + apply (bool_decide_unpack (2 ∉ going_on (foldl hist_step hist0 anr_example_run.2))). vm_compute. exact I.
    + intros t Ht'. apply list_elem_of_singleton in Ht'. discriminate Ht'.
    + split; [apply (bool_decide_unpack (Some 9 ∈ observers anr_example_run.1)); vm_compute; exact I|].
      exists (mkContext false true). vm_compute. split; reflexivity.
  - apply (Hcy 0 1 (mkContext false false)); [left|vm_compute; reflexivity].
Defined.

(** A session answers between being flagged and the announcement of that:
    the observers hear that it is responsive first, and unresponsive last.
    Nothing is under way any more, and they are left with it. *)
Definition late_announcement_ops : list anr_op :=
  [OpAddObserver 7 9 0; OpStep 7; OpStep 7; OpRegister 5 1; OpStep 5; OpAlarm 0; OpStep 0; OpStep 0; OpStep 0;
   OpAlarm 0; OpStep 0; OpPong 5 1; OpStep 5; OpStep 5; OpStep 5; OpStep 0; OpStep 0; OpStep 0; OpStep 0].
Lemma late_announcement :
  ∃ s h, reachable (anr_machine 1000) s h ∧ calls s = [] ∧
    sessions s !! 1 = Some (mkContext true false) ∧ observes (observers s) 9 ∧
    (9, 1) ∈ told_unresponsive (foldl hist_step hist0 h).
Proof.
  set (r := default (new_detector 1000, []) (run_ops (anr_machine 1000) late_announcement_ops (new_detector 1000) [])).
  exists r.1, r.2. split; [|split; [by vm_compute|split; [by vm_compute|split]]].
  2: { apply (bool_decide_unpack (Some 9 ∈ observers r.1)). vm_compute. exact I. }
  2: { apply (bool_decide_unpack ((9, 1) ∈ told_unresponsive (foldl hist_step hist0 r.2))). vm_compute. exact I. }
  apply (run_ops_from_init (anr_machine 1000) late_announcement_ops (new_detector 1000)); [done|]. by vm_compute.
Qed.
