(* ===== verification/FrameClock.v ===== *)
(** Timestamps and the client's frame clock
    (src/include/common/mir/time/posix_timestamp.h, src/client/frame_clock.cpp):
    when the next frame is due. *)

From S2P Require Import Prelude.

(** ** Timestamps of a POSIX clock, in nanoseconds *)
Record PosixTimestamp := mkTime { clock_id : Z; nanoseconds : Z }.
#[export] Instance PosixTimestamp_eq_dec : EqDecision PosixTimestamp.
Proof. solve_decision. Defined.

Definition CLOCK_MONOTONIC : Z := 1.

Definition time_domain_error : exn := logic_error "Can't compare different time domains".
Definition assert_same_clock (a b : PosixTimestamp) : outcome unit :=
  if bool_decide (clock_id a = clock_id b) then Ret tt else Throw time_domain_error.

Definition time_minus_ns (a : PosixTimestamp) (b : Z) : PosixTimestamp := mkTime (clock_id a) (int64 (nanoseconds a - b)).
Definition time_plus_ns (a : PosixTimestamp) (b : Z) : PosixTimestamp := mkTime (clock_id a) (int64 (nanoseconds a + b)).
Definition time_mod_ns (a : PosixTimestamp) (b : Z) : Z := Z.rem (nanoseconds a) b.
Definition time_minus (a b : PosixTimestamp) : outcome Z :=
  let? _ := assert_same_clock a b in Ret (int64 (nanoseconds a - nanoseconds b)).
Definition time_gt (a b : PosixTimestamp) : outcome bool :=
  let? _ := assert_same_clock a b in Ret (nanoseconds b <? nanoseconds a).

(** ** The clock

    The callback that asks for the latest vsync is the built-in one or the one
    set last; [resync n] is what the [n]-th callback set answers. *)
Inductive ResyncCallback := Fallback | Callback (n : Z).
#[export] Instance ResyncCallback_eq_dec : EqDecision ResyncCallback.
Proof. solve_decision. Defined.

Record FrameClock := mkClock { config_changed : bool; period : Z; resync_callback : ResyncCallback }.
#[export] Instance FrameClock_eq_dec : EqDecision FrameClock.
Proof. solve_decision. Defined.

Definition new_frame_clock : FrameClock := mkClock false 0 Fallback.

Definition set_period (ns : Z) (s : FrameClock) : FrameClock := mkClock true ns (resync_callback s).
Definition set_resync_callback (cb : ResyncCallback) (s : FrameClock) : FrameClock := mkClock true (period s) cb.
Definition clear_changed (s : FrameClock) : FrameClock := mkClock false (period s) (resync_callback s).

Inductive setting := SetPeriod (ns : Z) | SetResyncCallback (cb : ResyncCallback).
Definition apply_setting (s : FrameClock) (x : setting) : FrameClock :=
  match x with SetPeriod ns => set_period ns s | SetResyncCallback cb => set_resync_callback cb s end.

Section frame_clock.
(** The readings of the clocks when a call starts, for the fallback, and after
    the callback returned; and what the callbacks answer. *)
Context (get_current_time get_time_fallback get_time_after : Z → PosixTimestamp).
Context (resync : Z → outcome PosixTimestamp).

Definition fallback_resync_callback (s : FrameClock) : PosixTimestamp :=
  let now := get_time_fallback CLOCK_MONOTONIC in
  if period s =? 0 then now else time_minus_ns now (time_mod_ns now (period s)).

Definition call_resync (s : FrameClock) : outcome PosixTimestamp :=
  match resync_callback s with Fallback => Ret (fallback_resync_callback s) | Callback n => resync n end.

#[local] Abbreviation M := (prog FrameClock unit).

(** Getting in phase with the display.  [during] are the settings other threads
    make while the mutex is released around the callback. *)
Definition resync_target (during : list setting) : M PosixTimestamp :=
  let* s := pget in
  let* server_frame := plift (call_resync s) in
  do* pmodify (λ s, foldl apply_setting s during) in
  let* s := pget in
  let now := get_time_after (clock_id server_frame) in
  let* ahead := plift (time_gt server_frame now) in
  let* target :=
    (if ahead : bool then pret server_frame
     else
       let* age_ns := plift (time_minus now server_frame) in
       if period s =? 0 then pthrow (undefined_behaviour "division by zero")
       else
         let age_frames := Z.quot age_ns (period s) in
         pret (time_plus_ns server_frame (int64 ((age_frames + 1) * period s)))) in
  do* pmodify clear_changed in
  pret target.

Definition next_frame_after (during : list setting) (prev : PosixTimestamp) : M PosixTimestamp :=
  let* s := pget in
  if period s =? 0 then pret prev
  else
    let target := time_plus_ns prev (period s) in
    let now := get_current_time (clock_id target) in
    let* late := plift (time_gt now target) in
    let* missed_frames :=
      (if late : bool then let* d := plift (time_minus now target) in pret (Z.quot d (period s)) else pret 0) in
    if (1 <? missed_frames) || config_changed s then resync_target during
    else if 0 <? missed_frames then pret (time_plus_ns target (int64 (missed_frames * period s)))
    else pret target.
End frame_clock.

(** ** Targets *)

(** A time far enough from the limits of the clock's integers (73 years). *)
Definition sane (ns : Z) : Prop := 0 ≤ ns < 2 ^ 61.
#[export] Instance sane_dec ns : Decision (sane ns).
Proof. unfold sane. apply _. Defined.

Lemma int64_small z : - 2 ^ 63 ≤ z < 2 ^ 63 → int64 z = z.
Proof. apply int64_id. Qed.

Lemma quot_spec a p : 0 ≤ a → 0 < p → Z.quot a p * p ≤ a < (Z.quot a p + 1) * p ∧ 0 ≤ Z.quot a p.
Proof.
  intros Ha Hp. rewrite Z.quot_div_nonneg by lia.
  pose proof (Z.div_mod a p). pose proof (Z.mod_pos_bound a p). pose proof (Z.div_pos a p). nia.
Qed.

Section targets.
Context (get_current_time get_time_fallback get_time_after : Z → PosixTimestamp).
Context (resync : Z → outcome PosixTimestamp).
Context (clock_reading : ∀ c, clock_id (get_current_time c) = c ∧ sane (nanoseconds (get_current_time c))).
Context (fallback_reading : ∀ c, clock_id (get_time_fallback c) = c ∧ sane (nanoseconds (get_time_fallback c))).
Context (after_reading : ∀ c, clock_id (get_time_after c) = c ∧ sane (nanoseconds (get_time_after c))).

#[local] Abbreviation next := (next_frame_after get_current_time get_time_fallback get_time_after resync).

Lemma same_clock_gt a b : clock_id a = clock_id b → time_gt a b = Ret (nanoseconds b <? nanoseconds a).
Proof. intros Hc. unfold time_gt, assert_same_clock. by rewrite bool_decide_true. Qed.
Lemma same_clock_minus a b : clock_id a = clock_id b → time_minus a b = Ret (int64 (nanoseconds a - nanoseconds b)).
Proof. intros Hc. unfold time_minus, assert_same_clock. by rewrite bool_decide_true. Qed.

Lemma pbind_lift {A B} (m : outcome A) a (k : A → prog FrameClock unit B) s :
  m = Ret a → pbind (plift m) k s = k a s.
Proof. intros ->. apply pbind_plift. Qed.

(** How many frames the call is late: more than a period behind the first target. *)
Definition missed (prev : PosixTimestamp) (s : FrameClock) : Z :=
  let first := nanoseconds prev + period s in
  let now := nanoseconds (get_current_time (clock_id prev)) in
  if first <? now then Z.quot (now - first) (period s) else 0.

Lemma missed_spec prev s :
  0 < period s →
  let first := nanoseconds prev + period s in
  let now := nanoseconds (get_current_time (clock_id prev)) in
  0 ≤ missed prev s ∧ (now ≤ first → missed prev s = 0) ∧
  (missed prev s = 0 ∨ missed prev s * period s ≤ now - first) ∧ now - first < (missed prev s + 1) * period s.
Proof.
  intros Hp first now. unfold missed. fold first now. destruct (Z.ltb_spec first now) as [Hl|Hl]; [|lia].
  destruct (quot_spec (now - first) (period s)) as [[H1 H2] H3]; lia.
Qed.

(** A call that does not resync, and one that does. *)
Lemma next_run during prev s :
  sane (period s) → period s ≠ 0 → sane (nanoseconds prev) →
  next during prev s =
    if (1 <? missed prev s) || config_changed s
    then resync_target get_time_fallback get_time_after resync during s
    else Run (Ret (mkTime (clock_id prev) (nanoseconds prev + (1 + missed prev s) * period s))) s [].
Proof.
  unfold sane. intros Hp Hp0 Hprev. unfold next_frame_after. rewrite pbind_get.
  rewrite (proj2 (Z.eqb_neq _ _)) by done. cbn zeta. change (time_plus_ns prev (period s)) with (mkTime (clock_id prev) (int64 (nanoseconds prev + period s))). cbn [clock_id].
  destruct (clock_reading (clock_id prev)) as [Hc Hnow]. unfold sane in Hnow.
  rewrite int64_id by lia.
  erewrite pbind_lift by (apply same_clock_gt; by rewrite Hc). cbn [nanoseconds].
  pose proof (missed_spec prev s ltac:(lia)) as Hm. cbn zeta in Hm. unfold missed in *.
  set (now := nanoseconds (get_current_time (clock_id prev))) in *.
  set (k := λ m : Z, if (1 <? m) || config_changed s then resync_target get_time_fallback get_time_after resync during
    else if 0 <? m then pret (time_plus_ns (mkTime (clock_id prev) (nanoseconds prev + period s)) (int64 (m * period s)))
    else pret (mkTime (clock_id prev) (nanoseconds prev + period s))).
  assert (∀ m, 0 ≤ m → m = 0 ∨ m * period s ≤ now - (nanoseconds prev + period s) →
    k m s = if (1 <? m) || config_changed s
      then resync_target get_time_fallback get_time_after resync during s
      else Run (Ret (mkTime (clock_id prev) (nanoseconds prev + (1 + m) * period s))) s []) as Hk.
  { intros m Hm0 Hm1. unfold k. destruct (_ || _); [done|]. destruct (Z.ltb_spec 0 m); cbn.
    - unfold pret, time_plus_ns. cbn. rewrite (int64_id (m * period s)), int64_id by lia. do 3 f_equal. lia.
    - assert (m = 0) as -> by lia. unfold pret. do 3 f_equal. lia. }
  destruct (Z.ltb_spec (nanoseconds prev + period s) now) as [Hl|Hl].
  - rewrite (pbind_silent _ _ s (Z.quot (now - (nanoseconds prev + period s)) (period s)) s).
    + apply (Hk (Z.quot _ _)); tauto.
    + erewrite pbind_lift by (apply same_clock_minus; by rewrite Hc). cbn [nanoseconds]. fold now. by rewrite int64_id by lia.
  - rewrite pbind_ret_l. apply (Hk 0); lia.
Qed.

Lemma resync_run during s f :
  call_resync get_time_fallback resync s = Ret f → sane (nanoseconds f) →
  let s' := foldl apply_setting s during in
  let now := nanoseconds (get_time_after (clock_id f)) in
  sane (period s') → period s' ≠ 0 →
  resync_target get_time_fallback get_time_after resync during s =
    Run (Ret (mkTime (clock_id f)
      (if now <? nanoseconds f then nanoseconds f
       else nanoseconds f + (Z.quot (now - nanoseconds f) (period s') + 1) * period s'))) (clear_changed s') [].
Proof.
  intros Hf Hsf s' now Hp Hp0. unfold resync_target. rewrite pbind_get.
  rewrite (pbind_lift _ _ _ _ Hf), pbind_modify, pbind_get. fold s'.
  destruct (after_reading (clock_id f)) as [Hc Hnow]. unfold sane in *. fold now in Hnow.
  erewrite pbind_lift by (apply same_clock_gt; by rewrite Hc). fold now.
  destruct (Z.ltb_spec now (nanoseconds f)) as [Hl|Hl].
  - rewrite pbind_ret_l. by destruct f.
  - destruct (quot_spec (now - nanoseconds f) (period s')) as [[H1 H2] H3]; [lia..|].
    set (q := Z.quot (now - nanoseconds f) (period s')) in *.
    rewrite (pbind_silent _ _ s' (mkTime (clock_id f) (nanoseconds f + (q + 1) * period s')) s'); [done|].
    erewrite pbind_lift by (apply same_clock_minus; by rewrite Hc).
    rewrite (proj2 (Z.eqb_neq _ _)) by done. fold now. rewrite (int64_id (now - nanoseconds f)) by lia. fold q.
    unfold pret, time_plus_ns. rewrite (int64_id ((q + 1) * period s')), int64_id by nia. done.
Qed.

Lemma fallback_aligned s f :
  resync_callback s = Fallback → 0 < period s → sane (period s) →
  call_resync get_time_fallback resync s = Ret f → sane (nanoseconds f) ∧ clock_id f = CLOCK_MONOTONIC ∧
    (period s | nanoseconds f).
Proof.
  unfold sane, call_resync, fallback_resync_callback. intros -> Hp Hs [= <-].
  destruct (fallback_reading CLOCK_MONOTONIC) as [Hc Hn]. unfold sane in Hn.
  rewrite (proj2 (Z.eqb_neq _ _)) by lia. set (now := get_time_fallback CLOCK_MONOTONIC) in *.
  unfold time_minus_ns, time_mod_ns. cbn [nanoseconds clock_id].
  rewrite Z.rem_mod_nonneg by lia. pose proof (Z.mod_pos_bound (nanoseconds now) (period s)).
  pose proof (Z.mod_le (nanoseconds now) (period s)). rewrite int64_id by lia. split; [lia|]. split; [done|].
  exists (nanoseconds now / period s). pose proof (Z.div_mod (nanoseconds now) (period s)). lia.
Qed.

(** C19. The frame clock keeps an even pace: as long as nothing changed and the
    call comes less than two periods late, the target lies on the grid of
    periods after the previous frame, at least one period after it, never a full
    period in the past, and not later than needed.  Otherwise the clock asks the
    callback and targets the first point of the grid through its answer that
    lies in the future, whatever settings arrive meanwhile short of a zero
    period; with the built-in callback that grid is the same for every client.
    Without a period there is no throttling. *)
Theorem frame_clock_targets during prev s :
  sane (period s) → sane (nanoseconds prev) →
  let now := nanoseconds (get_current_time (clock_id prev)) in
  let r := next during prev s in
  (period s = 0 → r = Run (Ret prev) s []) ∧
  (period s ≠ 0 → config_changed s = false → now < nanoseconds prev + 3 * period s →
    ∃ k, r = Run (Ret (mkTime (clock_id prev) (nanoseconds prev + k * period s))) s [] ∧
      1 ≤ k ∧ now < nanoseconds prev + (k + 1) * period s ∧
      (k = 1 ∨ nanoseconds prev + k * period s ≤ now)) ∧
  (∀ f, period s ≠ 0 → config_changed s = true ∨ nanoseconds prev + 3 * period s ≤ now →
    call_resync get_time_fallback resync s = Ret f → sane (nanoseconds f) →
    let s' := foldl apply_setting s during in
    let later := nanoseconds (get_time_after (clock_id f)) in
    sane (period s') → period s' ≠ 0 →
    ∃ j, r = Run (Ret (mkTime (clock_id f) (nanoseconds f + j * period s'))) (clear_changed s') [] ∧
      0 ≤ j ∧ later < nanoseconds f + j * period s' ∧
      (j = 0 ∨ nanoseconds f + (j - 1) * period s' ≤ later) ∧
      (resync_callback s = Fallback → period s' = period s → (period s | nanoseconds f + j * period s'))).
Proof.
  intros Hp Hprev now r. split; [|split].
  - intros H0. unfold r, next_frame_after. rewrite pbind_get. by rewrite H0.
  - intros H0 Hch Hlate. pose proof (missed_spec prev s ltac:(unfold sane in Hp; lia)) as (Hm0 & _ & Hm1 & Hm2).
    fold now in Hm1, Hm2. exists (1 + missed prev s). unfold r. rewrite next_run, Hch by done.
    unfold sane in *. destruct (Z.ltb_spec 1 (missed prev s)); cbn [orb]; [nia|]. split; [done|]. nia.
  - intros f H0 Hwhy Hf Hsf s' later Hp' H0'.
    pose proof (missed_spec prev s ltac:(unfold sane in Hp; lia)) as (Hm0 & _ & Hm1 & Hm2). fold now in Hm1, Hm2.
    assert ((1 <? missed prev s) || config_changed s = true) as Hdec.
    { apply orb_true_iff. destruct Hwhy as [->|Hw]; [by right|]. left. apply Z.ltb_lt. unfold sane in *. nia. }
    unfold r. rewrite next_run, Hdec, (resync_run during s f) by done. fold s' later. unfold sane in *.
    destruct (Z.ltb_spec later (nanoseconds f)) as [Hl|Hl].
    + exists 0. rewrite Z.mul_0_l, Z.add_0_r. split; [done|]. split; [done|]. split; [done|]. split; [by left|].
      intros Hcb _. apply (fallback_aligned s f Hcb); [lia|done|done].
    + destruct (quot_spec (later - nanoseconds f) (period s')) as [[H1 H2] H3]; [lia..|].
      eexists. split; [reflexivity|]. split; [lia|]. split; [lia|]. split; [right; lia|].
      intros Hcb Heq. destruct (fallback_aligned s f Hcb) as (_ & _ & Hd); [lia|done|done|].
      rewrite Heq. apply Z.divide_add_r; [done|]. apply Z.divide_factor_r.
Qed.
End targets.

(** A call two and a half frames late, and one that resyncs. *)
Definition example_clock (now c : Z) : PosixTimestamp := mkTime c now.

Lemma frame_clock_targets_witness :
  next_frame_after (example_clock 1035) (example_clock 1035) (example_clock 1037) (λ _, Ret (mkTime 1 0)) [] (mkTime 1 1000)
    (mkClock true 16 Fallback) = Run (Ret (mkTime 1 1040)) (mkClock false 16 Fallback) [] ∧
  ∃ k, next_frame_after (example_clock 1035) (example_clock 1035) (example_clock 1037) (λ _, Ret (mkTime 1 0)) [] (mkTime 1 1000)
    (mkClock false 16 Fallback) = Run (Ret (mkTime 1 (1000 + k * 16))) (mkClock false 16 Fallback) [] ∧ k = 2.
Proof.
  split; [by vm_compute|].
  assert (∀ n, 0 ≤ n < 2 ^ 61 → ∀ c, clock_id (example_clock n c) = c ∧ sane (nanoseconds (example_clock n c))) as Hc
    by (intros n Hn c; split; [reflexivity|exact Hn]).
  destruct (frame_clock_targets (example_clock 1035) (example_clock 1035) (example_clock 1037) (λ _, Ret (mkTime 1 0))
    (Hc 1035 ltac:(lia)) (Hc 1035 ltac:(lia)) (Hc 1037 ltac:(lia)) [] (mkTime 1 1000) (mkClock false 16 Fallback)
    ltac:(unfold sane; cbn; lia) ltac:(unfold sane; cbn; lia)) as (_ & Hk & _).
  destruct (Hk ltac:(discriminate) eq_refl ltac:(cbn; lia)) as (k & Hr & Hk1 & Hk2 & Hk3).
  cbn in Hk2, Hk3. exists k. split; [exact Hr|]. lia.
Defined.
