(* ===== verification/Cookie.v ===== *)
(** Event cookies (src/cookie): the authority that makes them, their
    serialized form, and the check of a cookie a client sends back. *)

From stdpp Require Import pretty.
From S2P Require Import Prelude.

(** ** Bytes *)
Definition byte (b : Z) : Prop := 0 ≤ b < 256.
#[export] Instance byte_dec b : Decision (byte b).
Proof. unfold byte. apply _. Defined.

(** The [n] bytes [memcpy] takes from an unsigned integer, least significant first. *)
Fixpoint to_bytes (n : nat) (z : Z) : list Z :=
  match n with
  | O => []
  | S n' => z mod 256 :: to_bytes n' (z / 256)
  end.
Fixpoint of_bytes (l : list Z) : Z :=
  match l with
  | [] => 0
  | b :: l' => b + 256 * of_bytes l'
  end.

(** ** The cookie *)
Inductive Format := hmac_sha_1_8.
Definition format_byte (f : Format) : Z := match f with hmac_sha_1_8 => 0 end.

Definition mac_byte_size : nat := 20.
Definition default_blob_size : nat := 29.
Definition minimum_secret_size : nat := 8.

Record HMACCookie := mkCookie { timestamp : Z; mac : list Z; format : Format }.
#[export] Instance Format_eq_dec : EqDecision Format.
Proof. solve_decision. Defined.
#[export] Instance HMACCookie_eq_dec : EqDecision HMACCookie.
Proof. solve_decision. Defined.

Definition serialize (c : HMACCookie) : list Z :=
  format_byte (format c) :: to_bytes 8 (timestamp c) ++ mac c.

Definition cookie_size_from_format (f : Format) : nat := match f with hmac_sha_1_8 => default_blob_size end.

(** [const_memcmp] on the first [len] bytes: the accumulated differences [d] are
    an [unsigned char], the result is computed as an [int]. *)
Fixpoint memcmp_loop (d : Z) (b1 b2 : list Z) (len : nat) : Z :=
  match len, b1, b2 with
  | S len', x :: b1', y :: b2' => memcmp_loop (Z.land (Z.lor d (Z.lxor x y)) 255) b1' b2' len'
  | _, _, _ => d
  end.
Definition const_memcmp (b1 b2 : list Z) (len : nat) : Z :=
  Z.land 1 (Z.shiftr (memcmp_loop 0 b1 b2 len - 1) 8) - 1.

Definition security_check_error : exn := runtime_error "Invalid Cookie".

(** ** The authority

    [hmac_sha1 key message] is Nettle's HMAC-SHA1; computing a digest resets the
    context, so an authority is its key. *)
Section authority.
Context (hmac_sha1 : list Z → list Z → list Z).

Record Authority := mkAuthority { secret : list Z }.

Definition create_from (key : list Z) : outcome Authority :=
  if bool_decide (length key < minimum_secret_size)%nat
  then Throw (logic_error ("Secret size " +:+ pretty (length key) +:+ " is to small, require 8 or greater."))
  else Ret (mkAuthority key).

Definition calculate_cookie (a : Authority) (ts : Z) : list Z := hmac_sha1 (secret a) (to_bytes 8 ts).
Definition make_cookie (a : Authority) (ts : Z) : HMACCookie := mkCookie ts (calculate_cookie a ts) hmac_sha_1_8.

Definition verify_cookie (a : Authority) (ts : Z) (c : HMACCookie) : bool :=
  let this_stream := serialize c in
  let other_stream := serialize (make_cookie a ts) in
  bool_decide (length this_stream = length other_stream) &&
  (const_memcmp this_stream other_stream (length this_stream) =? 0).

Definition make_cookie_from (a : Authority) (raw_cookie : list Z) : outcome HMACCookie :=
  if bool_decide (length raw_cookie ≠ cookie_size_from_format hmac_sha_1_8) then Throw security_check_error
  else if bool_decide (head raw_cookie ≠ Some (format_byte hmac_sha_1_8)) then Throw security_check_error
  else
    let ts := of_bytes (take 8 (drop 1 raw_cookie)) in
    let cookie := mkCookie ts (take mac_byte_size (drop 9 raw_cookie)) hmac_sha_1_8 in
    if verify_cookie a ts cookie then Ret cookie else Throw security_check_error.
End authority.

(** ** Encoding *)
Lemma length_to_bytes n z : length (to_bytes n z) = n.
Proof. revert z. induction n as [|n IH]; intros z; cbn; [done|by rewrite IH]. Qed.
Lemma to_bytes_byte n z : Forall byte (to_bytes n z).
Proof.
  revert z. induction n as [|n IH]; intros z; cbn; constructor; [|apply IH].
  unfold byte. pose proof (Z.mod_pos_bound z 256). lia.
Qed.
Lemma of_to_bytes n z : 0 ≤ z < 256 ^ Z.of_nat n → of_bytes (to_bytes n z) = z.
Proof.
  revert z. induction n as [|n IH]; intros z Hz; cbn [to_bytes of_bytes]; [cbn in Hz; lia|].
  rewrite Nat2Z.inj_succ, Z.pow_succ_r in Hz by lia.
  rewrite IH; [pose proof (Z.div_mod z 256); lia|].
  split; [apply Z.div_pos; lia|apply Z.div_lt_upper_bound; lia].
Qed.
Lemma of_bytes_bound l : Forall byte l → 0 ≤ of_bytes l < 256 ^ Z.of_nat (length l).
Proof.
  unfold byte. induction 1 as [|b l Hb Hl IH]; cbn [of_bytes length]; [cbn; lia|].
  rewrite Nat2Z.inj_succ, Z.pow_succ_r by lia. lia.
Qed.
Lemma to_of_bytes l : Forall byte l → to_bytes (length l) (of_bytes l) = l.
Proof.
  unfold byte. induction 1 as [|b l Hb Hl IH]; cbn [of_bytes length to_bytes]; [done|].
  rewrite (Z.mul_comm 256), Z.mod_add, Z.div_add, Z.mod_small, Z.div_small, Z.add_0_l by lia. by rewrite IH.
Qed.

(** ** The comparison *)
Lemma byte_log2 z : byte z ↔ 0 ≤ z ∧ Z.log2 z < 8.
Proof.
  unfold byte. split; intros [H0 Hz]; (split; [done|]); destruct (decide (z = 0)) as [->|]; try done.
  - apply Z.log2_lt_pow2; lia.
  - change 256 with (2 ^ 8). apply Z.log2_lt_pow2; lia.
Qed.
Lemma lxor_byte x y : byte x → byte y → byte (Z.lxor x y).
Proof.
  rewrite !byte_log2. intros [Hx Hlx] [Hy Hly]. split; [apply Z.lxor_nonneg; lia|].
  eapply Z.le_lt_trans; [apply Z.log2_lxor; lia|]. by apply Z.max_lub_lt.
Qed.
Lemma lor_byte x y : byte x → byte y → byte (Z.lor x y).
Proof.
  rewrite !byte_log2. intros [Hx Hlx] [Hy Hly]. split; [apply Z.lor_nonneg; lia|].
  rewrite Z.log2_lor by lia. by apply Z.max_lub_lt.
Qed.
Lemma land_byte x : byte x → Z.land x 255 = x.
Proof. intros Hx. change 255 with (Z.ones 8). rewrite Z.land_ones by lia. by apply Z.mod_small. Qed.

Lemma memcmp_loop_spec d b1 b2 :
  byte d → Forall byte b1 → Forall byte b2 → length b1 = length b2 →
  byte (memcmp_loop d b1 b2 (length b1)) ∧
  (memcmp_loop d b1 b2 (length b1) = 0 ↔ d = 0 ∧ b1 = b2).
Proof.
  intros Hd Hb1. revert d b2 Hd. induction Hb1 as [|x b1 Hx Hb1 IH]; intros d [|y b2] Hd Hb2 Hlen; try done; [cbn; tauto|].
  apply Forall_cons in Hb2 as [Hy Hb2]. cbn [length memcmp_loop].
  rewrite land_byte by auto using lor_byte, lxor_byte.
  destruct (IH (Z.lor d (Z.lxor x y)) b2) as [Hr Hz]; [auto using lor_byte, lxor_byte|done|cbn in Hlen; lia|].
  split; [done|]. rewrite Hz, Z.lor_eq_0_iff, Z.lxor_eq_0_iff.
  split; [intros ((? & ?) & ?); by subst|]. intros (-> & [= -> ->]). auto.
Qed.

Lemma const_memcmp_spec b1 b2 :
  Forall byte b1 → Forall byte b2 → length b1 = length b2 →
  const_memcmp b1 b2 (length b1) = 0 ↔ b1 = b2.
Proof.
  intros H1 H2 Hlen. unfold const_memcmp.
  destruct (memcmp_loop_spec 0 b1 b2) as [Hr Hz]; [by unfold byte|done..|].
  rewrite Z.shiftr_div_pow2, (Z.land_comm 1) by lia. change 1 with (Z.ones 1) at 2. rewrite Z.land_ones by lia.
  unfold byte in Hr. destruct (decide (memcmp_loop 0 b1 b2 (length b1) = 0)) as [Heq|Hne].
  - rewrite Heq in *. cbn. tauto.
  - rewrite Z.div_small by lia. cbn. split; [done|]. intros ->. destruct Hne. by apply Hz.
Qed.

(** ** Cookies are accepted exactly when the authority could have made them *)
Section authority_proofs.
Context (hmac_sha1 : list Z → list Z → list Z).
Context (hmac_digest : ∀ key m, length (hmac_sha1 key m) = mac_byte_size ∧ Forall byte (hmac_sha1 key m)).

Lemma serialize_bytes c : Forall byte (mac c) → Forall byte (serialize c).
Proof.
  intros Hm. unfold serialize. constructor; [by destruct (format c)|]. apply Forall_app. split; [apply to_bytes_byte|done].
Qed.
Lemma length_serialize c : length (serialize c) = (9 + length (mac c))%nat.
Proof. unfold serialize. cbn [length]. by rewrite length_app, length_to_bytes. Qed.

Lemma serialize_fields c :
  length (mac c) = mac_byte_size →
  take 8 (drop 1 (serialize c)) = to_bytes 8 (timestamp c) ∧ take mac_byte_size (drop 9 (serialize c)) = mac c.
Proof.
  intros Hlen. unfold serialize. change (drop 1 (?b :: ?l)) with l. change (drop 9 (?b :: ?l)) with (drop 8 l).
  pose proof (length_to_bytes 8 (timestamp c)) as H8.
  rewrite take_app_length', drop_app_length', take_ge by lia. done.
Qed.

Lemma serialize_split raw :
  Forall byte raw → length raw = default_blob_size → head raw = Some (format_byte hmac_sha_1_8) →
  serialize (mkCookie (of_bytes (take 8 (drop 1 raw))) (take mac_byte_size (drop 9 raw)) hmac_sha_1_8) = raw.
Proof.
  unfold default_blob_size, mac_byte_size. intros Hb Hlen Hh. destruct raw as [|b raw]; [done|]. cbn in Hlen, Hh.
  assert (b = 0) as -> by congruence. apply Forall_cons in Hb as [_ Hb].
  unfold serialize. cbn [format timestamp mac drop]. unfold format_byte. f_equal.
  replace 8%nat with (length (take 8 raw)) at 1 by (rewrite length_take; lia).
  rewrite to_of_bytes by (by apply Forall_take).
  rewrite (take_ge (drop 8 raw)) by (rewrite length_drop; lia). apply take_drop.
Qed.

Lemma verify_spec a ts c :
  Forall byte (mac c) → verify_cookie hmac_sha1 a ts c = true ↔ serialize c = serialize (make_cookie hmac_sha1 a ts).
Proof.
  intros Hm. unfold verify_cookie. rewrite andb_true_iff, bool_decide_eq_true, Z.eqb_eq.
  split.
  - intros [Hlen Hc]. apply const_memcmp_spec in Hc; [done| | |done]; apply serialize_bytes; [done|].
    apply (proj2 (hmac_digest _ _)).
  - intros Heq. split; [by rewrite Heq|]. apply const_memcmp_spec; [by apply serialize_bytes| |by rewrite Heq|done].
    apply serialize_bytes. apply (proj2 (hmac_digest _ _)).
Qed.

(** C18. An authority accepts the serialized form of every cookie it made and
    gives back that cookie, and accepts nothing else: whatever bytes a client
    sends, they are either the serialized form of the authority's own cookie for
    the timestamp they carry or refused with a security error. *)
Theorem cookie_roundtrip a raw :
  Forall byte raw →
  (∀ ts, 0 ≤ ts < 2 ^ 64 →
    make_cookie_from hmac_sha1 a (serialize (make_cookie hmac_sha1 a ts)) = Ret (make_cookie hmac_sha1 a ts)) ∧
  match make_cookie_from hmac_sha1 a raw with
  | Ret c => 0 ≤ timestamp c < 2 ^ 64 ∧ c = make_cookie hmac_sha1 a (timestamp c) ∧ raw = serialize c
  | Throw e => e = security_check_error
  end.
Proof.
  intros Hraw. unfold make_cookie_from, cookie_size_from_format. split.
  - intros ts Hts. destruct (hmac_digest (secret a) (to_bytes 8 ts)) as [Hlen Hb].
    rewrite bool_decide_false by (rewrite length_serialize; cbn; unfold calculate_cookie; by rewrite Hlen; intros []).
    destruct (serialize_fields (make_cookie hmac_sha1 a ts) Hlen) as [-> ->].
    rewrite bool_decide_false by (intros []; done). cbn [timestamp make_cookie mac].
    rewrite of_to_bytes by done.
    change (mkCookie ts (calculate_cookie hmac_sha1 a ts) hmac_sha_1_8) with (make_cookie hmac_sha1 a ts).
    by rewrite (proj2 (verify_spec a ts (make_cookie hmac_sha1 a ts) Hb)).
  - case_bool_decide as Hlen; [done|]. case_bool_decide as Hh; [done|].
    set (ts := of_bytes _). set (c := mkCookie _ _ _).
    assert (Forall byte (mac c)) as Hm by (apply Forall_take, Forall_drop; done).
    destruct (verify_cookie hmac_sha1 a ts c) eqn:Hv; [|done].
    apply verify_spec in Hv; [|done].
    assert (serialize c = raw) as Hs by (by apply serialize_split).
    assert (0 ≤ ts < 2 ^ 64) as Hts.
    { unfold ts. pose proof (of_bytes_bound (take 8 (drop 1 raw))) as Hb.
      rewrite length_take, length_drop, Hlen in Hb. apply Hb. by apply Forall_take, Forall_drop. }
    split; [done|]. split; [|done]. unfold serialize in Hv. injection Hv as Hv.
    cbn [timestamp]. unfold c, make_cookie. by f_equal.
Qed.
End authority_proofs.

(** A toy digest of the right shape. *)
Definition example_hmac (key message : list Z) : list Z :=
  (λ i, (foldl Z.add i key + foldl (λ h b, (31 * h + b) mod 65536) i message) mod 256) <$> (Z.of_nat <$> seq 0 mac_byte_size).
Definition example_authority : Authority := mkAuthority [1; 2; 3; 4; 5; 6; 7; 8].
Definition example_raw : list Z := serialize (make_cookie example_hmac example_authority 1234567890123).

Lemma cookie_roundtrip_witness :
  make_cookie_from example_hmac example_authority (<[28%nat := 0]> example_raw) = Throw security_check_error ∧
  make_cookie_from example_hmac example_authority example_raw = Ret (make_cookie example_hmac example_authority 1234567890123).
Proof.
  split; [by vm_compute|].
  refine (proj1 (cookie_roundtrip example_hmac _ example_authority example_raw _) 1234567890123 _); [|apply (bool_decide_unpack (Forall byte example_raw)); vm_compute; exact I|lia].
  intros key m. unfold example_hmac. split; [by rewrite !length_fmap|].
  apply Forall_fmap, Forall_true. intros i. cbn. unfold byte. pose proof (Z.mod_pos_bound (foldl Z.add i key + foldl (λ h b, (31 * h + b) mod 65536) i m) 256). lia.
Defined.
