(* ===== verification/ReadWriteMutex.v ===== *)
(** The recursive read-write mutex
    (src/common/thread/recursive_read_write_mutex.cpp), and that it refines a
    lock that only counts what each thread holds. *)

From S2P Require Import Prelude.

(** ** The specification

    [reads] and [writes] say how often each thread holds the lock. *)
Record holding := mkHolding { reads : Z → Z; writes : Z → Z }.

Inductive lock_op :=
  | ReadLock (t : Z)
  | ReadUnlock (t : Z)
  | WriteLock (t : Z)
  | WriteUnlock (t : Z).
#[export] Instance lock_op_eq_dec : EqDecision lock_op.
Proof. solve_decision. Defined.

Definition bumped (f g : Z → Z) (t d : Z) : Prop := ∀ u, g u = if bool_decide (u = t) then f u + d else f u.

(** Readers exclude the writers of other threads, a writer excludes all other
    threads; what a thread holds itself never excludes it. *)
Inductive lock_step : holding → lock_op → holding → Prop :=
  | step_read_lock a a' t :
      (∀ u, u ≠ t → writes a u = 0) → bumped (reads a) (reads a') t 1 → (∀ u, writes a' u = writes a u) →
      lock_step a (ReadLock t) a'
  | step_read_unlock a a' t :
      0 < reads a t → bumped (reads a) (reads a') t (-1) → (∀ u, writes a' u = writes a u) →
      lock_step a (ReadUnlock t) a'
  | step_write_lock a a' t :
      (∀ u, u ≠ t → writes a u = 0 ∧ reads a u = 0) → bumped (writes a) (writes a') t 1 → (∀ u, reads a' u = reads a u) →
      lock_step a (WriteLock t) a'
  | step_write_unlock a a' t :
      0 < writes a t → bumped (writes a) (writes a') t (-1) → (∀ u, reads a' u = reads a u) →
      lock_step a (WriteUnlock t) a'.

(** ** The mutex *)
Record ThreadLockCount := mkCount { thread_id : Z; count : Z }.
#[export] Instance ThreadLockCount_eq_dec : EqDecision ThreadLockCount.
Proof. solve_decision. Defined.

(** The id of no thread. *)
Definition no_thread : Z := -1.

Record RecursiveReadWriteMutex := mkMutex {
  read_locking_threads : list ThreadLockCount;
  write_locking_thread : ThreadLockCount
}.
#[export] Instance Mutex_eq_dec : EqDecision RecursiveReadWriteMutex.
Proof. solve_decision. Defined.

Definition new_mutex : RecursiveReadWriteMutex := mkMutex [] (mkCount no_thread 0).

Inductive mutex_obs := NotifyAll.
#[export] Instance mutex_obs_eq_dec : EqDecision mutex_obs.
Proof. solve_decision. Defined.

#[local] Abbreviation M := (prog RecursiveReadWriteMutex mutex_obs).

Definition is_mine (my_id : Z) (candidate : ThreadLockCount) : bool := bool_decide (my_id = thread_id candidate).

(** Changes the count of the first entry of the thread. *)
Fixpoint change_count (f : Z → Z) (my_id : Z) (l : list ThreadLockCount) : list ThreadLockCount :=
  match l with
  | [] => []
  | c :: l' => if is_mine my_id c then mkCount (thread_id c) (f (count c)) :: l' else c :: change_count f my_id l'
  end.

(** What [read_lock] and [write_lock] wait for. *)
Definition may_read (my_id : Z) (s : RecursiveReadWriteMutex) : bool :=
  (count (write_locking_thread s) =? 0) || bool_decide (thread_id (write_locking_thread s) = my_id).
Definition may_write (my_id : Z) (s : RecursiveReadWriteMutex) : bool :=
  if negb (count (write_locking_thread s) =? 0) && bool_decide (thread_id (write_locking_thread s) ≠ my_id) then false
  else forallb (λ c, bool_decide (thread_id c = my_id) || (count c =? 0)) (read_locking_threads s).

(** The calls, from the moment the wait is over. *)
Definition read_lock (my_id : Z) : M unit :=
  pmodify (λ s,
    match find_if (is_mine my_id) (read_locking_threads s) with
    | None => mkMutex (read_locking_threads s ++ [mkCount my_id 1]) (write_locking_thread s)
    | Some _ => mkMutex (change_count (λ n, uint32 (n + 1)) my_id (read_locking_threads s)) (write_locking_thread s)
    end).

Definition read_unlock (my_id : Z) : M unit :=
  let* s := pget in
  match find_if (is_mine my_id) (read_locking_threads s) with
  | None => pthrow (undefined_behaviour "read_unlock without an entry")
  | Some _ =>
      do* pput (mkMutex (change_count (λ n, uint32 (n - 1)) my_id (read_locking_threads s)) (write_locking_thread s)) in
      pemit NotifyAll
  end.

Definition write_lock (my_id : Z) : M unit :=
  pmodify (λ s, mkMutex (read_locking_threads s) (mkCount my_id (uint32 (count (write_locking_thread s) + 1)))).

Definition write_unlock (my_id : Z) : M unit :=
  do* pmodify (λ s, mkMutex (read_locking_threads s)
        (mkCount (thread_id (write_locking_thread s)) (uint32 (count (write_locking_thread s) - 1)))) in
  pemit NotifyAll.

Definition exec_lock_op (op : lock_op) : M unit :=
  match op with
  | ReadLock t => read_lock t
  | ReadUnlock t => read_unlock t
  | WriteLock t => write_lock t
  | WriteUnlock t => write_unlock t
  end.

(** Whether the call gets past its wait; the unlocks do not wait. *)
Definition may_enter (op : lock_op) (s : RecursiveReadWriteMutex) : bool :=
  match op with
  | ReadLock t => may_read t s
  | WriteLock t => may_write t s
  | ReadUnlock _ | WriteUnlock _ => true
  end.

(** What a thread holds of the mutex. *)
Definition read_count (s : RecursiveReadWriteMutex) (t : Z) : Z :=
  match find_if (is_mine t) (read_locking_threads s) with Some c => count c | None => 0 end.
Definition write_count (s : RecursiveReadWriteMutex) (t : Z) : Z :=
  if bool_decide (thread_id (write_locking_thread s) = t) then count (write_locking_thread s) else 0.
Definition abstraction (s : RecursiveReadWriteMutex) : holding := mkHolding (read_count s) (write_count s).

(** A thread unlocks only what it holds, and locks less than 2^32 times over. *)
Definition used_well (op : lock_op) (s : RecursiveReadWriteMutex) : bool :=
  match op with
  | ReadLock t => read_count s t <? 2 ^ 32 - 1
  | WriteLock t => write_count s t <? 2 ^ 32 - 1
  | ReadUnlock t => 0 <? read_count s t
  | WriteUnlock t => 0 <? write_count s t
  end.

(** One critical section at a time: the inner mutex. *)
Definition mutex_machine : machine := Machine RecursiveReadWriteMutex lock_op mutex_obs
  (λ s, s = new_mutex) (λ s _ op, used_well op s && may_enter op s) exec_lock_op.

(** ** Counting *)
Lemma is_mine_eq t c : is_mine t c = true ↔ thread_id c = t.
Proof. unfold is_mine. rewrite bool_decide_eq_true. naive_solver. Qed.

Definition count_in (l : list ThreadLockCount) (t : Z) : Z :=
  match find_if (is_mine t) l with Some c => count c | None => 0 end.

Lemma count_in_cons c l t : count_in (c :: l) t = if is_mine t c then count c else count_in l t.
Proof. unfold count_in. rewrite find_if_cons. by destruct (is_mine t c). Qed.

Lemma count_in_change f t l u :
  count_in (change_count f t l) u =
    if bool_decide (u = t) then match find_if (is_mine t) l with Some c => f (count c) | None => 0 end else count_in l u.
Proof.
  induction l as [|c l IH]; [by case_bool_decide|]. cbn [change_count]. rewrite find_if_cons.
  unfold is_mine at 1 3. destruct (bool_decide_reflect (t = thread_id c)) as [->|Hne].
  - rewrite !count_in_cons. unfold is_mine. cbn [thread_id count]. repeat case_bool_decide; congruence.
  - rewrite !count_in_cons, IH. unfold is_mine. repeat case_bool_decide; congruence.
Qed.
Lemma count_in_snoc l c t : count_in (l ++ [c]) t = match find_if (is_mine t) l with Some d => count d | None => count_in [c] t end.
Proof. unfold count_in. rewrite find_if_app. by destruct (find_if (is_mine t) l). Qed.

Lemma change_count_ids f t l : thread_id <$> change_count f t l = thread_id <$> l.
Proof. induction l as [|c l IH]; cbn; [done|]. destruct (is_mine t c); cbn; by rewrite ?IH. Qed.

(** The entry of a thread is the one [find_if] finds. *)
Lemma count_in_elem l c : NoDup (thread_id <$> l) → c ∈ l → count_in l (thread_id c) = count c.
Proof.
  intros Hnd Hc. unfold count_in. destruct (find_if (is_mine (thread_id c)) l) as [d|] eqn:Hf.
  - apply find_if_Some in Hf as [Hd Hm]. apply is_mine_eq in Hm. f_equal.
    by apply (NoDup_fmap_inj thread_id l).
  - pose proof (proj1 (find_if_None _ _) Hf c Hc) as Hm. by rewrite (proj2 (is_mine_eq _ _)) in Hm.
Qed.

(** ** The invariant *)
Record mutex_inv (s : RecursiveReadWriteMutex) : Prop := {
  mi_ids : NoDup (thread_id <$> read_locking_threads s);
  mi_counts : ∀ t, 0 ≤ read_count s t < 2 ^ 32;
  mi_writes : 0 ≤ count (write_locking_thread s) < 2 ^ 32;
  mi_exclusion : ∀ t u, t ≠ u → 0 < write_count s t → read_count s u = 0
}.

Lemma write_count_other s t u : t ≠ u → write_count s t ≠ 0 → write_count s u = 0.
Proof. unfold write_count. repeat case_bool_decide; congruence. Qed.

Lemma may_read_spec t s : may_read t s = true ↔ ∀ u, u ≠ t → write_count s u = 0.
Proof.
  unfold may_read. rewrite orb_true_iff, Z.eqb_eq, bool_decide_eq_true. split.
  - intros [Hc|Hi] u Hu; unfold write_count; case_bool_decide; congruence.
  - intros Hw. destruct (decide (thread_id (write_locking_thread s) = t)) as [|Hne]; [by right|]. left.
    specialize (Hw _ Hne). unfold write_count in Hw. by rewrite bool_decide_true in Hw.
Qed.

Lemma may_write_spec t s :
  mutex_inv s → may_write t s = true ↔ ∀ u, u ≠ t → write_count s u = 0 ∧ read_count s u = 0.
Proof.
  intros Hinv. assert (may_write t s = may_read t s && forallb (λ c, bool_decide (thread_id c = t) || (count c =? 0)) (read_locking_threads s)) as ->.
  { unfold may_write, may_read. destruct (count _ =? 0); cbn; [done|]. case_bool_decide as H1; case_bool_decide as H2; naive_solver. }
  rewrite andb_true_iff, may_read_spec, forallb_forall. split.
  - intros [Hw Hr] u Hu. split; [auto|]. unfold read_count.
    destruct (find_if (is_mine u) (read_locking_threads s)) as [c|] eqn:Hf; [|done].
    apply find_if_Some in Hf as [Hc Hm]. apply is_mine_eq in Hm.
    specialize (Hr c (proj1 (list_elem_of_In _ _) Hc)). rewrite bool_decide_false in Hr by congruence. by apply Z.eqb_eq.
  - intros Hw. split; [intros u Hu; by apply Hw|]. intros c Hc. apply list_elem_of_In in Hc.
    destruct (decide (thread_id c = t)) as [|Hne]; [by rewrite bool_decide_true|].
    apply orb_true_iff. right. apply Z.eqb_eq. rewrite <- (count_in_elem _ _ (mi_ids _ Hinv) Hc).
    by apply Hw.
Qed.

(** What each call does to the counts. *)
Lemma read_count_changed f t s u :
  is_Some (find_if (is_mine t) (read_locking_threads s)) →
  read_count (mkMutex (change_count f t (read_locking_threads s)) (write_locking_thread s)) u =
    if bool_decide (u = t) then f (read_count s t) else read_count s u.
Proof.
  intros [c Hc]. change (read_count ?s u) with (count_in (read_locking_threads s) u) at 1. cbn [read_locking_threads].
  rewrite count_in_change. unfold read_count. by rewrite Hc.
Qed.

Lemma read_lock_effect t s :
  mutex_inv s → read_count s t < 2 ^ 32 - 1 →
  value (read_lock t s) = Ret tt ∧ NoDup (thread_id <$> read_locking_threads (post (read_lock t s))) ∧
  write_locking_thread (post (read_lock t s)) = write_locking_thread s ∧
  bumped (read_count s) (read_count (post (read_lock t s))) t 1.
Proof.
  intros Hinv Hlt. split; [done|]. unfold read_lock. cbn [post pmodify].
  destruct (find_if (is_mine t) (read_locking_threads s)) as [c|] eqn:Hf; cbn [read_locking_threads write_locking_thread].
  - rewrite change_count_ids. split; [apply Hinv|]. split; [done|]. intros u. rewrite read_count_changed by eauto.
    case_bool_decide as Hu; [|done]. subst u. pose proof (mi_counts _ Hinv t). rewrite uint32_id; lia.
  - split.
    + rewrite fmap_app. apply NoDup_app. split; [apply Hinv|]. split; [|apply NoDup_singleton].
      intros i Hi Hin. apply list_elem_of_singleton in Hin. cbn in Hin. subst i.
      apply list_elem_of_fmap in Hi as (c & Ht & Hc).
      pose proof (proj1 (find_if_None _ _) Hf c Hc) as Hm. by rewrite (proj2 (is_mine_eq t c)) in Hm.
    + split; [done|]. intros u. unfold read_count at 1. cbn [read_locking_threads]. rewrite find_if_app.
      unfold read_count. case_bool_decide as Hu; [subst u; rewrite Hf|].
      * rewrite find_if_cons. unfold is_mine. by rewrite bool_decide_true.
      * destruct (find_if (is_mine u) _); [done|]. rewrite find_if_cons.
        destruct (is_mine u _) eqn:Hm; [|done]. apply is_mine_eq in Hm. cbn in Hm. congruence.
Qed.

Lemma read_unlock_effect t s :
  mutex_inv s → 0 < read_count s t →
  value (read_unlock t s) = Ret tt ∧ trace (read_unlock t s) = [NotifyAll] ∧
  NoDup (thread_id <$> read_locking_threads (post (read_unlock t s))) ∧
  write_locking_thread (post (read_unlock t s)) = write_locking_thread s ∧
  bumped (read_count s) (read_count (post (read_unlock t s))) t (-1).
Proof.
  intros Hinv Hpos. unfold read_unlock. rewrite pbind_get.
  destruct (find_if (is_mine t) (read_locking_threads s)) as [c|] eqn:Hf.
  2: { unfold read_count in Hpos. rewrite Hf in Hpos. lia. }
  rewrite pbind_put. split; [done|]. split; [done|]. cbn [post pemit read_locking_threads write_locking_thread].
  rewrite change_count_ids. split; [apply Hinv|]. split; [done|]. intros u. rewrite read_count_changed by eauto.
  case_bool_decide as Hu; [|done]. subst u. pose proof (mi_counts _ Hinv t). rewrite uint32_id; lia.
Qed.

Lemma only_writer t s :
  (∀ u, u ≠ t → write_count s u = 0) → write_count s t = count (write_locking_thread s).
Proof.
  intros Hw. unfold write_count. case_bool_decide as Ht; [done|].
  specialize (Hw (thread_id (write_locking_thread s))). unfold write_count in Hw. rewrite bool_decide_true in Hw by done.
  symmetry. by apply Hw.
Qed.
Lemma write_count_set t n l u : write_count (mkMutex l (mkCount t n)) u = if bool_decide (u = t) then n else 0.
Proof. unfold write_count. cbn. repeat case_bool_decide; congruence. Qed.

Lemma write_lock_effect t s :
  mutex_inv s → (∀ u, u ≠ t → write_count s u = 0) → write_count s t < 2 ^ 32 - 1 →
  bumped (write_count s) (write_count (post (write_lock t s))) t 1.
Proof.
  intros Hinv Hw Hlt u. unfold write_lock. cbn [post pmodify]. rewrite write_count_set.
  pose proof (mi_writes _ Hinv). rewrite <- (only_writer t s Hw) in *.
  case_bool_decide as Hu; [subst u; apply uint32_id; lia|]. symmetry. by apply Hw.
Qed.

Lemma write_unlock_effect t s :
  mutex_inv s → 0 < write_count s t →
  bumped (write_count s) (write_count (post (write_unlock t s))) t (-1).
Proof.
  intros Hinv Hpos u. unfold write_unlock. cbn [post pmodify pbind pemit value]. rewrite write_count_set.
  pose proof (mi_writes _ Hinv). unfold write_count in *. repeat case_bool_decide; subst; try done; try lia.
  rewrite uint32_id; lia.
Qed.

(** The invariant follows from the counts. *)
Lemma mutex_inv_intro s :
  NoDup (thread_id <$> read_locking_threads s) → (∀ t, 0 ≤ read_count s t < 2 ^ 32) →
  (∀ t, 0 ≤ write_count s t < 2 ^ 32) → (∀ t u, t ≠ u → 0 < write_count s t → read_count s u = 0) → mutex_inv s.
Proof.
  intros H1 H2 H3 H4. split; [done..| |done].
  specialize (H3 (thread_id (write_locking_thread s))). unfold write_count in H3. by rewrite bool_decide_true in H3.
Qed.
Lemma write_count_range s t : mutex_inv s → 0 ≤ write_count s t < 2 ^ 32.
Proof. intros [_ _ Hw _]. unfold write_count. case_bool_decide; [done|lia]. Qed.

Lemma write_count_ext s s' u : write_locking_thread s' = write_locking_thread s → write_count s' u = write_count s u.
Proof. unfold write_count. by intros ->. Qed.
Lemma read_count_ext s s' u : read_locking_threads s' = read_locking_threads s → read_count s' u = read_count s u.
Proof. unfold read_count. by intros ->. Qed.

(** ** Each call is a step of the specification *)
Lemma mutex_step s op :
  mutex_inv s → used_well op s = true → may_enter op s = true →
  value (exec_lock_op op s) = Ret tt ∧ mutex_inv (post (exec_lock_op op s)) ∧
  lock_step (abstraction s) op (abstraction (post (exec_lock_op op s))).
Proof.
  intros Hinv Hu He. pose proof (λ t, write_count_range s t Hinv) as Hwr.
  destruct op as [t|t|t|t]; cbn [used_well may_enter exec_lock_op] in *; apply Z.ltb_lt in Hu.
  - rewrite may_read_spec in He. destruct (read_lock_effect t s Hinv Hu) as (Hv & Hnd & Hw & Hb).
    split; [done|]. set (s' := post (read_lock t s)) in *. split; [|constructor; [done..|]; intros u; by apply write_count_ext].
    apply mutex_inv_intro; [done| | |].
    + intros u. rewrite (Hb u). pose proof (mi_counts _ Hinv u). case_bool_decide; subst; lia.
    + intros u. by rewrite (write_count_ext s).
    + intros u v Huv. rewrite (write_count_ext s), (Hb v) by done. intros Hpos.
      case_bool_decide as Hv'; [|by apply (mi_exclusion _ Hinv u)]. subst v. rewrite He in Hpos by done. lia.
  - destruct (read_unlock_effect t s Hinv Hu) as (Hv & _ & Hnd & Hw & Hb).
    split; [done|]. set (s' := post (read_unlock t s)) in *. split; [|constructor; [done..|]; intros u; by apply write_count_ext].
    apply mutex_inv_intro; [done| | |].
    + intros u. rewrite (Hb u). pose proof (mi_counts _ Hinv u). case_bool_decide; subst; lia.
    + intros u. by rewrite (write_count_ext s).
    + intros u v Huv. rewrite (write_count_ext s), (Hb v) by done. intros Hpos.
      pose proof (mi_exclusion _ Hinv u v Huv Hpos). case_bool_decide; subst; lia.
  - rewrite may_write_spec in He by done. pose proof (write_lock_effect t s Hinv (λ u Hu, proj1 (He u Hu)) Hu) as Hb.
    split; [done|]. set (s' := post (write_lock t s)) in *.
    assert (∀ u, read_count s' u = read_count s u) as Hr by (intros u; by apply read_count_ext).
    split; [|by constructor]. apply mutex_inv_intro; [apply Hinv| | |].
    + intros u. rewrite Hr. apply Hinv.
    + intros u. rewrite (Hb u). specialize (Hwr u). case_bool_decide; subst; lia.
    + intros u v Huv. rewrite Hr, (Hb u). case_bool_decide as Hut; [|by apply (mi_exclusion _ Hinv)].
      intros _. apply He. congruence.
  - pose proof (write_unlock_effect t s Hinv Hu) as Hb.
    split; [done|]. set (s' := post (write_unlock t s)) in *.
    assert (∀ u, read_count s' u = read_count s u) as Hr by (intros u; by apply read_count_ext).
    split; [|by constructor]. apply mutex_inv_intro; [apply Hinv| | |].
    + intros u. rewrite Hr. apply Hinv.
    + intros u. rewrite (Hb u). specialize (Hwr u). case_bool_decide; subst; lia.
    + intros u v Huv. rewrite Hr, (Hb u). intros Hpos. apply (mi_exclusion _ Hinv u v Huv). case_bool_decide; subst; lia.
Qed.

Lemma mutex_reachable s h : reachable mutex_machine s h → mutex_inv s.
Proof.
  revert s h. apply (reachable_invariant mutex_machine (λ s _, mutex_inv s)).
  - intros s ->. split; [constructor|cbn; lia|cbn; lia|]. intros t u _. unfold write_count. cbn. case_bool_decide; lia.
  - intros s h op _ Hinv Hok. apply andb_true_iff in Hok as [Hu He]. by apply (mutex_step s op).
Qed.

(** The specification lets a call in exactly when the mutex does. *)
Lemma may_enter_spec s op :
  mutex_inv s → used_well op s = true → may_enter op s = true ↔ ∃ a, lock_step (abstraction s) op a.
Proof.
  intros Hinv Hu. split; [intros He; eexists; by apply mutex_step|].
  intros [a Ha]. destruct op as [t|t|t|t]; inversion Ha as [? ? ? Hg|? ? ? Hg|? ? ? Hg|? ? ? Hg]; subst; cbn [may_enter].
  - by apply may_read_spec.
  - done.
  - by apply may_write_spec.
  - done.
Qed.

(** Holding more never lets more calls in. *)
Lemma may_enter_antitone op s s' :
  mutex_inv s → mutex_inv s' →
  (∀ t, read_count s t ≤ read_count s' t ∧ write_count s t ≤ write_count s' t) →
  may_enter op s' = true → may_enter op s = true.
Proof.
  intros Hinv Hinv' Hle. destruct op as [t|t|t|t]; cbn [may_enter]; [|done| |done].
  - rewrite !may_read_spec. intros Hw u Hu. specialize (Hw u Hu). specialize (Hle u).
    pose proof (write_count_range s u Hinv). lia.
  - rewrite !may_write_spec by done. intros Hw u Hu. specialize (Hw u Hu). specialize (Hle u).
    pose proof (write_count_range s u Hinv). pose proof (mi_counts _ Hinv u). lia.
Qed.
Lemma bumped_le f g t d u : 0 ≤ d → bumped f g t d → f u ≤ g u.
Proof. intros Hd Hb. rewrite (Hb u). case_bool_decide; lia. Qed.

(** C20. The mutex refines the specification: a call gets in exactly when the
    specification has a step for it, and then does that step, as long as
    threads unlock what they hold and no count overflows; so a thread that
    writes excludes all others.  A waiting call becomes free to go only by an
    unlock, which wakes all waiters. *)
Theorem rw_mutex_refines s h op :
  reachable mutex_machine s h → used_well op s = true →
  (may_enter op s = true ↔ ∃ a, lock_step (abstraction s) op a) ∧
  (may_enter op s = true →
    value (exec_lock_op op s) = Ret tt ∧ lock_step (abstraction s) op (abstraction (post (exec_lock_op op s)))) ∧
  (∀ t u, t ≠ u → 0 < write_count s t → read_count s u = 0 ∧ write_count s u = 0) ∧
  (∀ waiting, may_enter op s = true → may_enter waiting s = false →
    may_enter waiting (post (exec_lock_op op s)) = true → NotifyAll ∈ trace (exec_lock_op op s)).
Proof.
  intros Hinv%mutex_reachable Hu. split; [by apply may_enter_spec|]. split; [|split].
  - intros He. destruct (mutex_step s op Hinv Hu He) as (? & _ & ?). done.
  - intros t u Htu Hw. split; [by apply (mi_exclusion _ Hinv t)|]. eapply write_count_other; [exact Htu|lia].
  - intros waiting He Hw Hw'. destruct (mutex_step s op Hinv Hu He) as (_ & Hinv' & Hstep).
    assert ((∀ t, read_count s t ≤ read_count (post (exec_lock_op op s)) t ∧
      write_count s t ≤ write_count (post (exec_lock_op op s)) t) → False) as Hless.
    { intros Hle. rewrite (may_enter_antitone waiting s _ Hinv Hinv' Hle Hw') in Hw. done. }
    destruct op as [t|t|t|t]; cbn [exec_lock_op abstraction] in *.
    + destruct Hless. inversion Hstep as [? ? ? _ Hb Hq| | |]; subst. intros u.
      unfold abstraction in Hb, Hq; cbn [reads writes] in Hb, Hq. rewrite Hq. pose proof (bumped_le _ _ _ 1 u ltac:(lia) Hb). lia.
    + cbn [used_well] in Hu. apply Z.ltb_lt in Hu. destruct (read_unlock_effect t s Hinv Hu) as (_ & -> & _). left.
    + destruct Hless. inversion Hstep as [| |? ? ? _ Hb Hq|]; subst. intros u.
      unfold abstraction in Hb, Hq; cbn [reads writes] in Hb, Hq. rewrite Hq. pose proof (bumped_le _ _ _ 1 u ltac:(lia) Hb). lia.
    + left.
Qed.

Definition mutex_example_ops : list lock_op :=
  [ReadLock 1; ReadLock 2; ReadUnlock 2; WriteLock 1; WriteLock 1; ReadLock 1; WriteUnlock 1].
Definition mutex_example_run : RecursiveReadWriteMutex * list mutex_obs :=
  default (new_mutex, []) (run_ops mutex_machine mutex_example_ops new_mutex []).
Lemma mutex_example_reachable : reachable mutex_machine mutex_example_run.1 mutex_example_run.2.
Proof. by apply (run_ops_from_init mutex_machine mutex_example_ops new_mutex); vm_compute. Qed.

Lemma rw_mutex_refines_witness :
  used_well (ReadLock 2) mutex_example_run.1 = true ∧ may_enter (ReadLock 2) mutex_example_run.1 = false ∧
  ¬ ∃ a, lock_step (abstraction mutex_example_run.1) (ReadLock 2) a.
Proof.
  assert (used_well (ReadLock 2) mutex_example_run.1 = true) as Hu by (vm_compute; reflexivity).
  split; [exact Hu|]. split; [vm_compute; reflexivity|]. intros Ha.
  apply (proj1 (rw_mutex_refines _ _ _ mutex_example_reachable Hu)) in Ha. vm_compute in Ha. discriminate.
Defined.
