(* ===== verification/ShellFocus.v ===== *)
(** Sessions and the focus (src/server/scene/default_session_container.cpp,
    session_manager.cpp, src/server/shell/abstract_shell.cpp): which sessions
    exist, which of them and which surface has the focus, and who is told. *)

From S2P Require Import Prelude.

(** ** State

    Sessions and surfaces are ids that are never used twice.  [apps] is the
    session container; [live_sessions] and [live_surfaces] are the objects some
    [shared_ptr] still holds, which is what locking a [weak_ptr] tests. *)
Record Shell := mkShell {
  apps : list Z;
  focus_session : option Z;
  focus_surface : option Z;
  live_sessions : gset Z;
  live_surfaces : gset Z
}.

Definition new_shell : Shell := mkShell [] None None ∅ ∅.

(** The calls on the seat, the input targeter, the surfaces, the session event
    sink and listener, the ANR detector, the prompt sessions and the window
    manager. *)
Inductive shell_obs :=
  | ResetConfinementRegions
  | SetConfinementRegions (surface : Z)
  | ConfigureFocus (surface : Z) (focused : bool)
  | AddObserver (surface : Z)
  | RemoveObserver (surface : Z)
  | TargetSetFocus (surface : Z)
  | TargetClearFocus
  | ConsumeDeviceState (surface : Z)
  | HandleFocusChange (session : Z)
  | HandleNoFocus
  | HandleSessionStopping (session : Z)
  | ListenerFocused (session : Z)
  | ListenerUnfocused
  | ListenerStarting (session : Z)
  | ListenerStopping (session : Z)
  | AnrRegister (session : Z)
  | AnrUnregister (session : Z)
  | DropOutstandingRequests (session : Z)
  | PromptRemoveSession (session : Z)
  | WmAddSession (session : Z)
  | WmRemoveSurface (session surface : Z)
  | WmRemoveSession (session : Z).
#[export] Instance shell_obs_eq_dec : EqDecision shell_obs.
Proof. solve_decision. Defined.

#[local] Abbreviation M := (prog Shell shell_obs).

Definition set_apps l s := mkShell l (focus_session s) (focus_surface s) (live_sessions s) (live_surfaces s).
Definition set_focus_session f s := mkShell (apps s) f (focus_surface s) (live_sessions s) (live_surfaces s).
Definition set_focus_surface f s := mkShell (apps s) (focus_session s) f (live_sessions s) (live_surfaces s).
Definition set_live_sessions l s := mkShell (apps s) (focus_session s) (focus_surface s) l (live_surfaces s).
Definition set_live_surfaces l s := mkShell (apps s) (focus_session s) (focus_surface s) (live_sessions s) l.

(** [std::weak_ptr::lock] *)
Definition lock_weak (live : gset Z) (weak : option Z) : option Z :=
  match weak with Some x => if bool_decide (x ∈ live) then Some x else None | None => None end.
Definition locked_session (s : Shell) : option Z := lock_weak (live_sessions s) (focus_session s).
Definition locked_surface (s : Shell) : option Z := lock_weak (live_surfaces s) (focus_surface s).

(** ** The session container *)
Definition insert_session (session : Z) : M unit := pmodify (λ s, set_apps (apps s ++ [session]) s).

Definition container_remove_session (session : Z) : M unit :=
  let* s := pget in
  if bool_decide (session ∈ apps s) then pput (set_apps (erase_first session (apps s)) s)
  else pthrow (logic_error "Invalid Session").

(** The element after the first one equal to [session]; [first] follows the last. *)
Fixpoint successor_in (first : option Z) (session : Z) (l : list Z) : outcome (option Z) :=
  match l with
  | [] => Throw (logic_error "Invalid session")
  | x :: l' =>
      if bool_decide (x = session) then Ret (match l' with [] => first | y :: _ => Some y end)
      else successor_in first session l'
  end.
Definition successor_of (session : option Z) (s : Shell) : outcome (option Z) :=
  match session with
  | None => Ret (last (apps s))
  | Some session => successor_in (head (apps s)) session (apps s)
  end.

(** ** The session manager *)
Definition manager_open_session (session : Z) : M unit :=
  do* insert_session session in
  do* pemit (ListenerStarting session) in
  pemit (AnrRegister session).

Definition manager_set_focus_to (session : Z) : M unit :=
  do* pemit (HandleFocusChange session) in pemit (ListenerFocused session).
Definition manager_unset_focus : M unit :=
  do* pemit HandleNoFocus in pemit ListenerUnfocused.

Definition manager_close_session (session : Z) : M unit :=
  do* pemit (DropOutstandingRequests session) in
  do* pemit (AnrUnregister session) in
  do* pemit (HandleSessionStopping session) in
  do* pemit (ListenerStopping session) in
  container_remove_session session.

Definition manager_close_all : M unit :=
  let* s := pget in pfor (apps s) manager_close_session.

(** ** The shell

    [confined] says of a surface whether its pointer confinement is to its window,
    [default_surface] is a session's first surface. *)
Section shell.
Context (confined : Z → bool) (default_surface : Z → option Z).

(** It takes no lock: that it is one step of [shell_machine] below leaves out a
    change of focus between its look at the focus and its call on the seat
    ([late_confinement] shows what becomes of that). *)
Definition confine_to (current_focus : Z) : M unit :=
  pwhen (confined current_focus) (pemit (SetConfinementRegions current_focus)).
Definition update_focused_surface_confined_region : M unit :=
  let* s := pget in
  match locked_surface s with
  | Some current_focus => confine_to current_focus
  | None => pret tt
  end.

(** The last part of [modify_surface], when the modification sets [confine_pointer]. *)
Definition confine_pointer_modified (surface : Z) : M unit :=
  let* s := pget in
  pwhen (bool_decide (locked_surface s = Some surface))
    (if confined surface then pemit (SetConfinementRegions surface) else pemit ResetConfinementRegions).

Definition change_focus_surface (surface : option Z) : M unit :=
  let* s := pget in
  let current_focus := locked_surface s in
  pwhen (negb (bool_decide (surface = current_focus)))
    (do* pput (set_focus_surface surface s) in
     do* pemit ResetConfinementRegions in
     do* match current_focus with
         | Some c => do* pemit (ConfigureFocus c false) in pemit (RemoveObserver c)
         | None => pret tt
         end in
     match surface with
     | Some surface =>
         do* pwhen (confined surface) (pemit (SetConfinementRegions surface)) in
         do* pemit (TargetSetFocus surface) in
         do* pemit (ConsumeDeviceState surface) in
         do* pemit (ConfigureFocus surface true) in
         pemit (AddObserver surface)
     | None => pemit TargetClearFocus
     end).

Definition change_focus_session (session : option Z) : M unit :=
  let* s := pget in
  pwhen (negb (bool_decide (session = locked_session s)))
    (do* pput (set_focus_session session s) in
     match session with Some x => manager_set_focus_to x | None => manager_unset_focus end).

Definition set_focus_to_locked (session surface : option Z) : M unit :=
  do* change_focus_surface surface in change_focus_session session.

Definition set_focus_to (session surface : option Z) : M unit := set_focus_to_locked session surface.

(** The search for a session with a surface; it goes round once at most. *)
Fixpoint next_session_loop (fuel : nat) (s : Shell) (sentinel successor : option Z) : outcome (option Z) :=
  match successor with
  | None => Ret None
  | Some x =>
      match default_surface x with
      | Some _ => Ret (Some x)
      | None =>
          match fuel with
          | O => Throw (undefined_behaviour "out of fuel")
          | S fuel' =>
              let? next := successor_of (Some x) s in
              if bool_decide (next = sentinel) then Ret next else next_session_loop fuel' s sentinel next
          end
      end
  end.

Definition focus_next_session : M unit :=
  let* s := pget in
  let* successor := plift (successor_of (locked_session s) s) in
  let sentinel := successor in
  let* successor := plift (next_session_loop (length (apps s)) s sentinel successor) in
  let surface := match successor with Some x => default_surface x | None => None end in
  let successor := match surface with Some _ => successor | None => None end in
  set_focus_to_locked successor surface.

Definition open_session (session : Z) : M unit :=
  do* pmodify (λ s, set_live_sessions ({[session]} ∪ live_sessions s) s) in
  do* manager_open_session session in
  pemit (WmAddSession session).

(** [surfaces] are the session's surfaces, in the order of their addresses. *)
Definition close_session (session : Z) (surfaces : list Z) : M unit :=
  do* pemit (PromptRemoveSession session) in
  do* pfor surfaces (λ surface, pemit (WmRemoveSurface session surface)) in
  do* manager_close_session session in
  pemit (WmRemoveSession session).
End shell.

(** ** The shell as a machine *)
Inductive shell_op :=
  | OpenSession (session : Z)
  | CloseSession (session : Z) (surfaces : list Z)
  | CloseAllSessions
  | SetFocusTo (confined : Z → bool) (session surface : option Z)
  | FocusNextSession (confined : Z → bool) (default_surface : Z → option Z)
  | FocusedSurfaceChanged (confined : Z → bool)
  | ConfinePointerModified (confined : Z → bool) (surface : Z)
  (** a surface is created; the last [shared_ptr] to a surface or session goes *)
  | SurfaceCreated (surface : Z)
  | SurfaceDestroyed (surface : Z)
  | SessionDestroyed (session : Z).

Definition shell_exec (op : shell_op) : M unit :=
  match op with
  | OpenSession session => open_session session
  | CloseSession session surfaces => close_session session surfaces
  | CloseAllSessions => manager_close_all
  | SetFocusTo confined session surface => set_focus_to confined session surface
  | FocusNextSession confined default_surface => focus_next_session confined default_surface
  | FocusedSurfaceChanged confined => update_focused_surface_confined_region confined
  | ConfinePointerModified confined surface => confine_pointer_modified confined surface
  | SurfaceCreated surface => pmodify (λ s, set_live_surfaces ({[surface]} ∪ live_surfaces s) s)
  | SurfaceDestroyed surface => pmodify (λ s, set_live_surfaces (live_surfaces s ∖ {[surface]}) s)
  | SessionDestroyed session => pmodify (λ s, set_live_sessions (live_sessions s ∖ {[session]}) s)
  end.

(** *** What everyone was told last *)
Record told := mkTold {
  focused_surfaces : gset Z;
  observed_surfaces : gset Z;
  target : option Z;
  confinement : option Z;
  session_focus : option Z;
  watched_sessions : gset Z
}.
Definition told0 : told := mkTold ∅ ∅ None None None ∅.

Definition tell (t : told) (o : shell_obs) : told :=
  let '(mkTold f b g c n w) := t in
  match o with
  | ConfigureFocus x true => mkTold ({[x]} ∪ f) b g c n w
  | ConfigureFocus x false => mkTold (f ∖ {[x]}) b g c n w
  | AddObserver x => mkTold f ({[x]} ∪ b) g c n w
  | RemoveObserver x => mkTold f (b ∖ {[x]}) g c n w
  | TargetSetFocus x => mkTold f b (Some x) c n w
  | TargetClearFocus => mkTold f b None c n w
  | SetConfinementRegions x => mkTold f b g (Some x) n w
  | ResetConfinementRegions => mkTold f b g None n w
  | HandleFocusChange x => mkTold f b g c (Some x) w
  | HandleNoFocus => mkTold f b g c None w
  | AnrRegister x => mkTold f b g c n ({[x]} ∪ w)
  | AnrUnregister x => mkTold f b g c n (w ∖ {[x]})
  | _ => t
  end.
Definition told_by (h : list shell_obs) : told := foldl tell told0 h.
Lemma told_by_app h t : told_by (h ++ t) = foldl tell (told_by h) t.
Proof. apply foldl_app. Qed.

(** Arguments are held by their caller; ids are not used again while something
    refers to them; the container keeps its sessions. *)
Definition shell_allowed (s : Shell) (h : list shell_obs) (op : shell_op) : bool :=
  match op with
  | OpenSession x => bool_decide ((x ∉ live_sessions s) ∧ focus_session s ≠ Some x)
  | SetFocusTo _ session surface =>
      bool_decide (lock_weak (live_sessions s) session = session ∧ lock_weak (live_surfaces s) surface = surface)
  | SurfaceCreated x =>
      bool_decide ((x ∉ live_surfaces s) ∧ focus_surface s ≠ Some x ∧
        (x ∉ focused_surfaces (told_by h)) ∧ (x ∉ observed_surfaces (told_by h)))
  | SessionDestroyed x => bool_decide (x ∉ apps s)
  | _ => true
  end.

Definition shell_machine : machine := Machine Shell shell_op shell_obs (λ s, s = new_shell) shell_allowed shell_exec.

Record shell_inv (s : Shell) (t : told) : Prop := {
  si_focused : ∀ x, x ∈ live_surfaces s → x ∈ focused_surfaces t ↔ focus_surface s = Some x;
  si_observed : ∀ x, x ∈ live_surfaces s → x ∈ observed_surfaces t ↔ focus_surface s = Some x;
  si_target : target t = focus_surface s;
  si_confinement : ∀ x, confinement t = Some x → focus_surface s = Some x;
  si_session : session_focus t = focus_session s;
  si_nodup : NoDup (apps s);
  si_apps : ∀ x, x ∈ apps s → x ∈ live_sessions s;
  si_watched : ∀ x, x ∈ watched_sessions t ↔ x ∈ apps s
}.

Lemma lock_weak_Some live w x : lock_weak live w = Some x ↔ w = Some x ∧ x ∈ live.
Proof. destruct w; cbn; [case_bool_decide|]; naive_solver. Qed.
Lemma lock_weak_None live w x : lock_weak live w = None → w = Some x → x ∉ live.
Proof. intros Hn ->. cbn in Hn. by case_bool_decide. Qed.

(** *** The focus changes *)
Lemma change_focus_surface_run confined surface s :
  change_focus_surface confined surface s =
    if bool_decide (surface = locked_surface s) then Run (Ret tt) s []
    else Run (Ret tt) (set_focus_surface surface s)
      (ResetConfinementRegions ::
       match locked_surface s with Some c => [ConfigureFocus c false; RemoveObserver c] | None => [] end ++
       match surface with
       | Some x => (if confined x then [SetConfinementRegions x] else []) ++
           [TargetSetFocus x; ConsumeDeviceState x; ConfigureFocus x true; AddObserver x]
       | None => [TargetClearFocus]
       end).
Proof.
  unfold change_focus_surface. rewrite pbind_get. case_bool_decide; [done|]. cbn [negb pwhen].
  rewrite pbind_put, pbind_emit.
  destruct (locked_surface s), surface as [x|]; try destruct (confined x) eqn:Hx; unfold pbind, pwhen; cbn; by rewrite ?Hx.
Qed.

Lemma change_focus_session_run session s :
  change_focus_session session s =
    if bool_decide (session = locked_session s) then Run (Ret tt) s []
    else Run (Ret tt) (set_focus_session session s)
      match session with Some x => [HandleFocusChange x; ListenerFocused x] | None => [HandleNoFocus; ListenerUnfocused] end.
Proof.
  unfold change_focus_session. rewrite pbind_get. case_bool_decide; [done|]. cbn [negb pwhen].
  rewrite pbind_put. by destruct session.
Qed.

Lemma change_focus_surface_inv confined surface s h :
  shell_inv s (told_by h) →
  shell_inv (post (change_focus_surface confined surface s)) (told_by (h ++ trace (change_focus_surface confined surface s))).
Proof.
  intros Hinv. rewrite change_focus_surface_run. case_bool_decide as Hs; cbn [post trace]; [by rewrite app_nil_r|].
  rewrite told_by_app. destruct (told_by h) as [f b g c n w]. destruct Hinv as [H1 H2 H3 H4 H5 H6 H7 H8]. cbn in *.
  assert (∀ x l, x ∈ live_surfaces s → (x ∈ l ↔ focus_surface s = Some x) →
    x ∈ (match surface with Some y => {[y]} ∪ match locked_surface s with Some c => l ∖ {[c]} | None => l end
         | None => match locked_surface s with Some c => l ∖ {[c]} | None => l end end : gset Z) ↔ surface = Some x) as Hset.
  { intros x l Hx Hl. unfold locked_surface in *. destruct (lock_weak (live_surfaces s) (focus_surface s)) as [d|] eqn:Hd.
    - apply lock_weak_Some in Hd as [Hd Hlive]. rewrite Hd in Hl. destruct surface as [z|]; set_solver.
    - assert (x ∉ l) as Hxl by (intros Hin; apply Hl in Hin; by apply (lock_weak_None _ _ _ Hd) in Hin).
      destruct surface as [z|]; set_solver. }
  split; cbn; try done; destruct (locked_surface s) as [d|], surface as [z|]; cbn;
    try destruct (confined z); cbn; try done; try (intros ? [= <-]; done);
    intros x Hx; first [exact (Hset x f Hx (H1 x Hx)) | exact (Hset x b Hx (H2 x Hx))].
Qed.

Lemma change_focus_session_inv session s h :
  shell_inv s (told_by h) →
  shell_inv (post (change_focus_session session s)) (told_by (h ++ trace (change_focus_session session s))).
Proof.
  intros Hinv. rewrite change_focus_session_run. case_bool_decide as Hs; cbn [post trace]; [by rewrite app_nil_r|].
  rewrite told_by_app. destruct (told_by h) as [f b g c n w]. destruct Hinv. by destruct session.
Qed.

Definition inv_by (s : Shell) (h : list shell_obs) : Prop := shell_inv s (told_by h).

Lemma set_focus_preserves confined session surface : preserves inv_by (set_focus_to_locked confined session surface).
Proof.
  apply preserves_bind; [intros s h; apply change_focus_surface_inv|]. intros _ s h. apply change_focus_session_inv.
Qed.

(** Calls that tell nobody about the focus. *)
Lemma inv_by_emit o s h : (∀ t, tell t o = t) → inv_by s h → inv_by s (h ++ [o]).
Proof. unfold inv_by. intros Ho. by rewrite told_by_app, <- (Ho (told_by h)) at 1. Qed.
Lemma preserves_unheard o : (∀ t, tell t o = t) → preserves inv_by (pemit o).
Proof. intros Ho. apply preserves_emit. intros s h. by apply inv_by_emit. Qed.
#[local] Hint Extern 1 (preserves inv_by (pemit _)) =>
  (apply preserves_unheard; let t := fresh in intros t; by destruct t) : preserve.

Lemma confine_inv x s h : focus_surface s = Some x → inv_by s h → inv_by s (h ++ [SetConfinementRegions x]).
Proof.
  unfold inv_by. rewrite told_by_app. destruct (told_by h). intros Hx []. split; try done. cbn. by intros ? [= <-].
Qed.
Lemma unconfine_inv s h : inv_by s h → inv_by s (h ++ [ResetConfinementRegions]).
Proof. unfold inv_by. rewrite told_by_app. destruct (told_by h). intros []. by split. Qed.

Lemma manager_close_run x s :
  manager_close_session x s =
    Run (if bool_decide (x ∈ apps s) then Ret tt else Throw (logic_error "Invalid Session"))
      (if bool_decide (x ∈ apps s) then set_apps (erase_first x (apps s)) s else s)
      [DropOutstandingRequests x; AnrUnregister x; HandleSessionStopping x; ListenerStopping x].
Proof.
  unfold manager_close_session, container_remove_session. rewrite !pbind_emit, pbind_get. by case_bool_decide.
Qed.

Lemma manager_close_preserves x : preserves inv_by (manager_close_session x).
Proof.
  intros s h Hinv. rewrite manager_close_run. cbn [post trace]. unfold inv_by in *. rewrite told_by_app.
  destruct (told_by h) as [f b g c n w]. destruct Hinv as [? ? ? ? ? Hnd Hap Hw]. cbn in *.
  case_bool_decide as Hx; split; try done; cbn.
  - eapply sublist_NoDup; [exact Hnd|apply erase_first_sublist].
  - intros z Hz. apply Hap. by apply (elem_of_erase_first x z _ Hnd) in Hz as [Hz _].
  - intros z. rewrite elem_of_erase_first by done. rewrite <- Hw. set_solver.
  - intros z. rewrite <- Hw. assert (x ∉ w) by (by rewrite Hw). set_solver.
Qed.
#[local] Hint Resolve manager_close_preserves : preserve.

Definition found_surface (ds : Z → option Z) (session : option Z) : option Z :=
  match session with Some x => ds x | None => None end.

Lemma focus_next_run confined ds s :
  focus_next_session confined ds s =
    match successor_of (locked_session s) s with
    | Ret succ =>
        match next_session_loop ds (length (apps s)) s succ succ with
        | Ret y => set_focus_to_locked confined (match found_surface ds y with Some _ => y | None => None end) (found_surface ds y) s
        | Throw e => Run (Throw e) s []
        end
    | Throw e => Run (Throw e) s []
    end.
Proof.
  unfold focus_next_session. rewrite pbind_get, pbind_plift. destruct (successor_of _ s) as [succ|e]; [|done].
  by rewrite pbind_plift.
Qed.

Lemma shell_exec_inv s h op :
  inv_by s h → shell_allowed s h op = true → inv_by (post (shell_exec op s)) (h ++ trace (shell_exec op s)).
Proof.
  intros Hinv Hok. destruct op as [x|x xs| |confined x y|confined ds|confined|confined x|x|x|x]; cbn [shell_exec shell_allowed] in *.
  - apply bool_decide_eq_true in Hok as [Hx Hf]. cbn. unfold inv_by. rewrite told_by_app.
    unfold inv_by in Hinv. destruct (told_by h). destruct Hinv as [? ? ? ? ? Hnd Hap Hw]. split; try done; cbn in *.
    + apply NoDup_app. split; [done|]. split; [|apply NoDup_singleton]. intros z Hz ->%list_elem_of_singleton. by apply Hx, Hap.
    + intros z Hz. apply elem_of_app in Hz as [Hz| ->%list_elem_of_singleton]; set_solver.
    + intros z. rewrite elem_of_app, list_elem_of_singleton, <- Hw. set_solver.
  - assert (preserves inv_by (close_session x xs)) as Hp by (unfold close_session; eauto 20 with preserve). by apply Hp.
  - assert (preserves inv_by manager_close_all) as Hp by (unfold manager_close_all; eauto 20 with preserve). by apply Hp.
  - by apply set_focus_preserves.
  - rewrite focus_next_run. destruct (successor_of _ s) as [succ|e]; [|cbn; by rewrite app_nil_r].
    destruct (next_session_loop _ _ _ _ _) as [y|e]; [by apply set_focus_preserves|cbn; by rewrite app_nil_r].
  - unfold update_focused_surface_confined_region, confine_to. rewrite pbind_get. destruct (locked_surface s) as [c|] eqn:Hc.
    + apply lock_weak_Some in Hc as [Hc _]. destruct (confined c); cbn; [by apply confine_inv|by rewrite app_nil_r].
    + cbn. by rewrite app_nil_r.
  - unfold confine_pointer_modified. rewrite pbind_get. case_bool_decide as Hc; cbn [pwhen]; [|cbn; by rewrite app_nil_r].
    apply lock_weak_Some in Hc as [Hc _]. destruct (confined x); cbn; [by apply confine_inv|by apply unconfine_inv].
  - apply bool_decide_eq_true in Hok as (Hx & Hf & Hf1 & Hf2). cbn. rewrite app_nil_r. destruct Hinv as [H1 H2 ? ? ? ? ? ?].
    split; try done; cbn; intros y Hy; apply elem_of_union in Hy as [->%elem_of_singleton|Hy]; auto; tauto.
  - cbn. rewrite app_nil_r. destruct Hinv as [H1 H2 ? ? ? ? ? ?]. split; try done; cbn; intros y Hy;
      apply elem_of_difference in Hy as [Hy _]; auto.
  - apply bool_decide_eq_true in Hok. cbn. rewrite app_nil_r. destruct Hinv as [? ? ? ? ? ? Hap ?]. split; try done; cbn.
    intros y Hy. apply elem_of_difference. split; [by apply Hap|]. intros ->%elem_of_singleton. done.
Qed.

Lemma shell_reachable s h : reachable shell_machine s h → inv_by s h.
Proof.
  revert s h. apply (reachable_invariant shell_machine inv_by).
  - intros s ->. split; cbn; try done; try set_solver. constructor.
  - intros s h op _ Hinv Hok. by apply shell_exec_inv.
Qed.

(** ** The focus goes round *)
Lemma successor_in_spec first u x v :
  x ∉ u → successor_in first x (u ++ x :: v) = Ret (match v with [] => first | y :: _ => Some y end).
Proof.
  induction u as [|z u IH]; cbn; intros Hx; [by rewrite bool_decide_true|].
  rewrite bool_decide_false by set_solver. apply IH. set_solver.
Qed.
Lemma successor_in_none first x l : x ∉ l → successor_in first x l = Throw (logic_error "Invalid session").
Proof. induction l as [|z l IH]; cbn; intros Hx; [done|]. rewrite bool_decide_false by set_solver. apply IH. set_solver. Qed.

(** In any rotation [b ++ a] of the container the successors are the neighbours. *)
Lemma successor_rotated s a b p x q :
  apps s = a ++ b → NoDup (apps s) → b ++ a = p ++ x :: q →
  successor_of (Some x) s = Ret (match q with y :: _ => Some y | [] => head (b ++ a) end).
Proof.
  intros Ha Hnd Ho. cbn. assert (∀ u v, apps s = u ++ x :: v → x ∉ u) as Hx.
  { intros u v Hu Hin. rewrite Hu in Hnd. apply NoDup_app in Hnd as (_ & Hd & _). apply (Hd x Hin). left. }
  assert (∀ u v, apps s = u ++ x :: v →
    successor_in (head (apps s)) x (apps s) = Ret (match v with [] => head (apps s) | y :: _ => Some y end)) as Hs.
  { intros u v Hu. rewrite Hu at 2. rewrite successor_in_spec by (by apply (Hx u v)). done. }
  destruct (app_eq_app _ _ _ _ Ho) as (l & [[-> Hq]|[-> ->]]).
  - destruct l as [|y l]; cbn in Hq; [|injection Hq as -> ->].
    + rewrite app_nil_r in *. rewrite (Hs [] (q ++ p)) by (rewrite Ha, <- Hq; done). rewrite Ha, <- Hq.
      by destruct q, p.
    + rewrite (Hs (a ++ p) l) by (rewrite Ha; by rewrite app_assoc). rewrite Ha.
      destruct l as [|z l], a as [|w a]; cbn; try done. by destruct p.
  - rewrite (Hs l (q ++ b)) by (rewrite Ha; by rewrite <- app_assoc). rewrite Ha.
    destruct q, b, l; done.
Qed.

Section round.
Context (ds : Z → option Z) (s : Shell) (a b : list Z).
Hypothesis (rotated : apps s = a ++ b) (distinct : NoDup (apps s)).

Definition has_surface (x : Z) : bool := bool_decide (is_Some (ds x)).

Lemma next_loop_spec fuel p x q :
  b ++ a = p ++ x :: q → (length (x :: q) ≤ fuel)%nat →
  next_session_loop ds fuel s (head (b ++ a)) (Some x) =
    Ret (match find_if has_surface (x :: q) with Some y => Some y | None => head (b ++ a) end).
Proof.
  revert fuel p x. induction q as [|y q IH]; intros fuel p x Ho Hf; (destruct fuel as [|fuel]; [cbn in Hf; lia|]);
    cbn [next_session_loop]; rewrite find_if_cons; unfold has_surface at 1;
    (destruct (ds x) as [z|]; [by rewrite bool_decide_true by done|]);
    rewrite bool_decide_false by (by intros []); rewrite (successor_rotated s a b p x _ rotated distinct Ho); cbn [obind].
  - by rewrite bool_decide_true.
  - rewrite bool_decide_false.
    + apply (IH fuel (p ++ [x])); [by rewrite <- app_assoc|cbn in *; lia].
    + intros Hy. assert (NoDup (b ++ a)) as Hnd by (rewrite Permutation_app_comm, <- rotated; done).
      rewrite Ho in Hnd, Hy. destruct p as [|w p]; cbn in Hnd, Hy; injection Hy as Hy; subst;
        apply NoDup_cons in Hnd as [Hn _]; apply Hn; set_solver.
Qed.

Lemma next_session_spec :
  apps s ≠ [] →
  next_session_loop ds (length (apps s)) s (head (b ++ a)) (head (b ++ a)) =
    Ret (match find_if has_surface (b ++ a) with Some y => Some y | None => head (b ++ a) end).
Proof.
  intros Hne. destruct (b ++ a) as [|x q] eqn:Ho.
  - apply app_eq_nil in Ho as [-> ->]. by rewrite rotated in Hne.
  - assert (length (x :: q) ≤ length (apps s))%nat as Hlen by (rewrite <- Ho, rotated, !length_app; lia).
    pose proof (next_loop_spec (length (apps s)) [] x q Ho Hlen) as Hl. by rewrite Ho in Hl.
Qed.
End round.

(** Giving the focus to something alive. *)
Lemma set_focus_locks confined session surface s :
  lock_weak (live_sessions s) session = session → lock_weak (live_surfaces s) surface = surface →
  let r := set_focus_to_locked confined session surface s in
  value r = Ret tt ∧ locked_session (post r) = session ∧ locked_surface (post r) = surface.
Proof.
  intros Hl1 Hl2. cbn zeta. unfold set_focus_to_locked, pbind. rewrite change_focus_surface_run.
  case_bool_decide as H1; cbn [value post]; rewrite change_focus_session_run;
    case_bool_decide as H2; cbn [value post]; (split; [done|]); unfold locked_session, locked_surface in *; cbn in *; auto.
Qed.

Definition focus_goes_to (ds : Z → option Z) (visited : list Z) (r : run Shell shell_obs unit) : Prop :=
  let found := find_if (has_surface ds) visited in
  value r = Ret tt ∧ locked_session (post r) = found ∧ locked_surface (post r) = found_surface ds found.

Lemma focus_next_round confined ds s a b :
  apps s = a ++ b → NoDup (apps s) → (∀ x, x ∈ apps s → x ∈ live_sessions s) →
  (∀ x y, x ∈ apps s → ds x = Some y → y ∈ live_surfaces s) →
  apps s ≠ [] → successor_of (locked_session s) s = Ret (head (b ++ a)) →
  focus_goes_to ds (b ++ a) (focus_next_session confined ds s).
Proof.
  intros Ha Hnd Hlive Hds Hne Hs. rewrite focus_next_run, Hs, (next_session_spec ds s a b Ha Hnd Hne).
  unfold focus_goes_to. destruct (find_if (has_surface ds) (b ++ a)) as [x|] eqn:Hf; cbn zeta.
  - apply find_if_Some in Hf as [Hx [y Hy]%bool_decide_eq_true].
    assert (x ∈ apps s) as Hx' by (rewrite Ha, elem_of_app; apply elem_of_app in Hx; tauto).
    cbn [found_surface]. rewrite Hy. apply set_focus_locks; cbn; rewrite bool_decide_true; eauto.
  - assert (found_surface ds (head (b ++ a)) = None) as ->; [|by apply set_focus_locks].
    destruct (b ++ a) as [|x q]; [done|]. cbn. pose proof (proj1 (find_if_None _ _) Hf x ltac:(left)) as Hx.
    unfold has_surface in Hx. apply bool_decide_eq_false in Hx. by apply eq_None_not_Some.
Qed.


(** [focus_next_session] always returns.  It gives the focus to the first
    session with a surface after the focused one, in the container's order and
    round to the focused one again, and to that session's first surface; when no
    session has a surface nothing keeps the focus.  Without a focused session
    the round starts with the newest session.  A focused session that was closed
    but still exists makes it throw and changes nothing. *)
Theorem focus_next_session_cycles confined ds s h :
  reachable shell_machine s h →
  (∀ x y, x ∈ apps s → ds x = Some y → y ∈ live_surfaces s) →
  let r := focus_next_session confined ds s in
  match locked_session s with
  | Some f =>
      (∀ l1 l2, apps s = l1 ++ f :: l2 → focus_goes_to ds (l2 ++ l1 ++ [f]) r) ∧
      (f ∉ apps s → r = Run (Throw (logic_error "Invalid session")) s [])
  | None =>
      (∀ l1 b, apps s = l1 ++ [b] → focus_goes_to ds (b :: l1) r) ∧ (apps s = [] → focus_goes_to ds [] r)
  end.
Proof.
  intros [_ _ _ _ _ Hnd Hlive _]%shell_reachable Hds. cbn zeta. destruct (locked_session s) as [f|] eqn:Hf; split.
  - intros l1 l2 Hl. assert (apps s = (l1 ++ [f]) ++ l2) as Hl' by (by rewrite Hl, <- app_assoc).
    apply focus_next_round; try done; [by rewrite Hl; destruct l1|].
    rewrite Hf. rewrite (successor_rotated s (l1 ++ [f]) l2 (l2 ++ l1) f []); [done..|by rewrite app_assoc].
  - intros Hn. rewrite focus_next_run, Hf. cbn [successor_of]. by rewrite successor_in_none.
  - intros l1 b Hl. apply (focus_next_round confined ds s l1 [b]); try done; [by rewrite Hl; destruct l1|].
    rewrite Hf. cbn. by rewrite Hl, last_snoc.
  - intros Hl. rewrite focus_next_run, Hf. cbn [successor_of]. rewrite Hl. cbn. by apply set_focus_locks.
Qed.

(** *** An example: three sessions, the middle one without a surface *)
Definition example_surfaces (session : Z) : option Z := if session =? 2 then None else Some (10 * session).
Definition shell_example_ops : list shell_op :=
  [OpenSession 1; OpenSession 2; OpenSession 3; SurfaceCreated 10; SurfaceCreated 30;
   SetFocusTo (λ x, x =? 10) (Some 1) (Some 10); FocusedSurfaceChanged (λ x, x =? 10)].
Definition shell_example_run : Shell * list shell_obs :=
  default (new_shell, []) (run_ops shell_machine shell_example_ops new_shell []).
Lemma shell_example_reachable : reachable shell_machine shell_example_run.1 shell_example_run.2.
Proof. by apply (run_ops_from_init shell_machine shell_example_ops new_shell); vm_compute. Qed.


(** A confinement update that looked at the focus before it changed confines the
    pointer to the surface that lost it. *)
Lemma late_confinement :
  let confined := (λ x, bool_decide (x = 10)) in
  let moved := set_focus_to confined (Some 3) (Some 30) shell_example_run.1 in
  let late := confine_to confined 10 (post moved) in
  locked_surface shell_example_run.1 = Some 10 ∧ focus_surface (post late) = Some 30 ∧
  confinement (told_by (shell_example_run.2 ++ trace moved ++ trace late)) = Some 10.
Proof. split_and!; vm_compute; reflexivity. Qed.

Lemma focus_next_session_cycles_witness :
  focus_goes_to example_surfaces [2; 3; 1] (focus_next_session (λ _, false) example_surfaces shell_example_run.1) ∧
  find_if (has_surface example_surfaces) [2; 3; 1] = Some 3.
Proof.
  split; [|vm_compute; reflexivity].
  assert (∀ x y, x ∈ apps shell_example_run.1 → example_surfaces x = Some y → y ∈ live_surfaces shell_example_run.1) as Hds.
  { intros x y Hx. replace (apps shell_example_run.1) with [1; 2; 3] in Hx by (vm_compute; reflexivity).
    unfold example_surfaces. apply elem_of_cons in Hx as [->|Hx]; [intros [= <-]; apply (bool_decide_unpack _); vm_compute; exact I|].
    apply elem_of_cons in Hx as [->|Hx]; [discriminate|].
    apply list_elem_of_singleton in Hx as ->. intros [= <-]. apply (bool_decide_unpack _). vm_compute. exact I. }
  pose proof (focus_next_session_cycles (λ _, false) example_surfaces _ _ shell_example_reachable Hds) as Hr.
  replace (locked_session shell_example_run.1) with (Some 1) in Hr by (vm_compute; reflexivity).
  refine (proj1 Hr [] [2; 3] _). vm_compute. reflexivity.
Defined.
