(* ===== verification/ServerLifecycle.v ===== *)
(** The display server's life (src/server/display_server.cpp, with the scope
    guards of src/include/common/mir/unwind_helpers.h): running, and pausing and
    resuming all its parts or none. *)

From S2P Require Import Prelude.

(** ** State *)
Inductive part :=
  | Connector | PromptConnector | InputDispatcher | InputManager
  | DisplayConfigProcessing | Compositor | Display.
#[export] Instance part_eq_dec : EqDecision part.
Proof. solve_decision. Defined.

#[export] Instance part_countable : Countable part := inj_countable'
  (λ p, match p with Connector => 0 | PromptConnector => 1 | InputDispatcher => 2 | InputManager => 3
    | DisplayConfigProcessing => 4 | Compositor => 5 | Display => 6 end%nat)
  (λ n, match n with 0 => Connector | 1 => PromptConnector | 2 => InputDispatcher | 3 => InputManager
    | 4 => DisplayConfigProcessing | 5 => Compositor | _ => Display end%nat)
  ltac:(by intros []).

(** The parts that run; [really_unwinding] is the local variable of [pause] and
    [resume]. *)
Record Server := mkServer { active : gset part; really_unwinding : bool }.

Inductive server_obs :=
  | Switch (p : part) (on : bool)
  | ListenerStarted
  | ListenerPaused
  | ListenerResumed
  | MainLoopRun
  | StopCallback
  | MainLoopStop
  | ConfigureForHardwareChange.
#[export] Instance server_obs_eq_dec : EqDecision server_obs.
Proof. solve_decision. Defined.

#[local] Abbreviation M := (prog Server server_obs).

Definition set_active (p : part) (on : bool) (s : Server) : Server :=
  mkServer (if on then {[p]} ∪ active s else active s ∖ {[p]}) (really_unwinding s).
Definition set_unwinding (b : bool) (s : Server) : Server := mkServer (active s) b.

Definition is_runtime (e : exn) : bool := match e with runtime_error _ => true | _ => false end.

Section server.
(** What a part throws when it is switched on or off in this call; a part that
    throws stays as it is. *)
Context (error : part → bool → option exn) (uncaught : bool).

Definition switch (p : part) (on : bool) : M unit :=
  do* pemit (Switch p on) in
  match error p on with
  | None => pmodify (set_active p on)
  | Some e => pthrow e
  end.

(** [[&, this] { if (really_unwinding) ...; }] *)
Definition revert (p : part) (on : bool) : M unit :=
  let* s := pget in pwhen (really_unwinding s) (switch p on).

Definition guarded (p : part) (on : bool) (rest : M unit) : M unit :=
  try_but_revert_if_unwinding uncaught (switch p on) (revert p (negb on)) rest.

Definition pause_body : M unit :=
  do* pmodify (set_unwinding true) in
  guarded Connector false
  (guarded PromptConnector false
  (guarded InputDispatcher false
  (guarded InputManager false
  (guarded DisplayConfigProcessing false
  (guarded Compositor false
  (do* switch Display false in
   pmodify (set_unwinding false))))))).

Definition resume_body : M unit :=
  do* pmodify (set_unwinding true) in
  guarded Display true
  (guarded Compositor true
  (guarded DisplayConfigProcessing true
  (guarded InputManager true
  (guarded InputDispatcher true
  (guarded PromptConnector true
  (do* switch Connector true in
   pmodify (set_unwinding false))))))).

(** [try { body } catch (std::runtime_error const&) { return false; } ...] *)
Definition report_to (body : M unit) (o : server_obs) : M bool := λ s,
  match value (body s) with
  | Ret _ => Run (Ret true) (post (body s)) (trace (body s) ++ [o])
  | Throw e => Run (if is_runtime e then Ret false else Throw e) (post (body s)) (trace (body s))
  end.

Definition pause : M bool := report_to pause_body ListenerPaused.
Definition resume : M bool := report_to resume_body ListenerResumed.

Definition configure_display : M unit := pemit ConfigureForHardwareChange.

(** [main_loop->run()] returns when [stop] was called. *)
Definition run_start : M unit :=
  do* switch Compositor true in
  do* switch InputManager true in
  do* switch InputDispatcher true in
  do* switch PromptConnector true in
  do* switch Connector true in
  do* pemit ListenerStarted in
  pemit MainLoopRun.
Definition run_stop : M unit :=
  do* switch Connector false in
  do* switch PromptConnector false in
  do* switch InputDispatcher false in
  do* switch InputManager false in
  switch Compositor false.
Definition stop : M unit := do* pemit StopCallback in pemit MainLoopStop.

(** ** All or nothing *)

(** What a sequence of switches is to do: every part, or, when one throws, back
    in reverse order. *)
Fixpoint first_failure (on : bool) (parts : list part) : option (list part * part * exn) :=
  match parts with
  | [] => None
  | p :: parts' =>
      match error p on with
      | Some e => Some ([], p, e)
      | None => (λ '(before, q, e), (p :: before, q, e)) <$> first_failure on parts'
      end
  end.

Definition switches (on : bool) (parts : list part) : list server_obs := (λ p, Switch p on) <$> parts.
Definition all_switched (on : bool) (parts : list part) (s : Server) : Server :=
  foldl (λ s p, set_active p on s) s parts.
End server.

(** The chain of guards over a list of parts, the last one without a guard. *)
Definition guard_chain error uncaught (on : bool) (parts : list part) (final : part) : M unit :=
  foldr (λ p, guarded error uncaught p on) (do* switch error final on in pmodify (set_unwinding false)) parts.

Lemma set_active_back p on s :
  (p ∈ active s ↔ on = false) → set_active p (negb on) (set_active p on s) = s.
Proof.
  intros Hp. destruct s as [a b]. unfold set_active. cbn in *. f_equal.
  apply set_eq. intros q. destruct (decide (q = p)) as [->|Hq]; destruct on; cbn; set_solver.
Qed.

Section chain.
Context (error : part → bool → option exn) (uncaught on : bool).
#[local] Abbreviation chain := (guard_chain error uncaught on).

Lemma switch_run p d s :
  switch error p d s = match error p d with
    | None => Run (Ret tt) (set_active p d s) [Switch p d] | Some e => Run (Throw e) s [Switch p d] end.
Proof. unfold switch. rewrite pbind_emit. by destruct (error p d). Qed.

Lemma chain_run parts final s :
  really_unwinding s = true → NoDup parts →
  (∀ p, p ∈ parts → error p (negb on) = None ∧ (p ∈ active s ↔ on = false)) →
  chain parts final s =
    match first_failure error on (parts ++ [final]) with
    | None => Run (Ret tt) (set_unwinding false (all_switched on (parts ++ [final]) s)) (switches on (parts ++ [final]))
    | Some (before, p, e) => Run (Throw e) s (switches on (before ++ [p]) ++ switches (negb on) (rev before))
    end.
Proof.
  revert s. induction parts as [|p parts IH]; intros s Hu Hnd Hall.
  - cbn [guard_chain foldr app first_failure]. unfold pbind. rewrite switch_run. by destruct (error final on).
  - apply NoDup_cons in Hnd as [Hp Hnd]. cbn [guard_chain foldr app first_failure].
    unfold guarded at 1, try_but_revert_if_unwinding, pbind at 1. rewrite switch_run.
    destruct (error p on) as [e|] eqn:He; [done|]. cbn [value post trace].
    change (foldr _ _ parts) with (chain parts final).
    destruct (Hall p ltac:(left)) as [Hback Hact].
    rewrite (IH (set_active p on s)); [|done|done|].
    2: { intros q Hq. destruct (Hall q ltac:(by right)) as [H1 H2]. split; [done|]. rewrite <- H2.
      destruct on; cbn; set_solver. }
    destruct (first_failure error on (parts ++ [final])) as [[[before q] e]|] eqn:Hf; cbn [value post trace fmap option_fmap option_map].
    + unfold revert. rewrite pbind_get. cbn [really_unwinding set_active]. rewrite Hu. cbn [pwhen].
      rewrite switch_run, Hback. cbn [value post trace]. rewrite set_active_back by done.
      unfold switches. cbn. by rewrite !fmap_app, <- !app_assoc.
    + destruct uncaught; [|cbn; by rewrite app_nil_r]. cbn [pwhen]. unfold revert. rewrite pbind_get. cbn.
      by rewrite app_nil_r.
Qed.
End chain.

(** ** The server as a machine *)
Definition pause_order : list part :=
  [Connector; PromptConnector; InputDispatcher; InputManager; DisplayConfigProcessing; Compositor; Display].
Definition resume_order : list part := rev pause_order.

(** The parts [pause] and [resume] are about, and what [run] does not switch. *)
Definition all_parts : gset part := list_to_set pause_order.

Lemma pause_chain error uncaught s :
  pause_body error uncaught s = guard_chain error uncaught false (removelast pause_order) Display (set_unwinding true s).
Proof. apply pbind_modify. Qed.
Lemma resume_chain error uncaught s :
  resume_body error uncaught s = guard_chain error uncaught true (removelast resume_order) Connector (set_unwinding true s).
Proof. apply pbind_modify. Qed.

Inductive server_op :=
  | OpPause (error : part → bool → option exn) (uncaught : bool)
  | OpResume (error : part → bool → option exn) (uncaught : bool)
  | OpConfigureDisplay
  | OpStop.

Definition server_exec (op : server_op) : M unit :=
  match op with
  | OpPause error uncaught => do* pause error uncaught in pret tt
  | OpResume error uncaught => do* resume error uncaught in pret tt
  | OpConfigureDisplay => configure_display
  | OpStop => stop
  end.

(** Whether the listener was last told that the server is paused. *)
Definition paused_step (b : bool) (o : server_obs) : bool :=
  match o with ListenerPaused => true | ListenerResumed => false | _ => b end.
Definition paused (h : list server_obs) : bool := foldl paused_step false h.

(** The console switcher pauses a server that runs and resumes one that is
    paused; switching a part back does not fail. *)
Definition reverts (error : part → bool → option exn) (on : bool) : bool :=
  forallb (λ p, bool_decide (error p on = None)) pause_order.
Definition server_machine : machine := Machine Server server_op server_obs
  (λ s, s = mkServer all_parts false)
  (λ _ h op, match op with
    | OpPause error _ => negb (paused h) && reverts error true
    | OpResume error _ => paused h && reverts error false
    | _ => true
    end)
  server_exec.

Lemma reverts_spec error on p : reverts error on = true → error p on = None.
Proof.
  unfold reverts. rewrite forallb_forall. intros H. specialize (H p). apply bool_decide_eq_true in H; [done|]. destruct p; cbn; tauto.
Qed.

(** A body that switches all parts [on], run from the opposite state. *)
Lemma body_run error uncaught (on : bool) parts final b :
  NoDup parts → (∀ p, error p (negb on) = None) →
  guard_chain error uncaught on parts final (mkServer (if on then ∅ else all_parts) true) =
    match first_failure error on (parts ++ [final]) with
    | None => Run (Ret tt) (set_unwinding false (all_switched on (parts ++ [final]) (mkServer (if on then ∅ else all_parts) b)))
        (switches on (parts ++ [final]))
    | Some (before, p, e) => Run (Throw e) (mkServer (if on then ∅ else all_parts) true)
        (switches on (before ++ [p]) ++ switches (negb on) (rev before))
    end.
Proof.
  intros Hnd Hback. rewrite chain_run; [|done|done|].
  - destruct (first_failure _ _ _) as [[[]]|]; [done|]. f_equal. unfold set_unwinding. f_equal.
    generalize (parts ++ [final]) (if on then ∅ else all_parts). intros l. generalize true at 1.
    induction l as [|p l IH]; intros u a; cbn; [done|]. apply IH.
  - intros p _. split; [done|]. destruct on; cbn; [set_solver|]. split; [done|]. intros _. by destruct p.
Qed.

Definition switched (on : bool) (o : server_obs) (order : list part) (failure : option (list part * part * exn))
    : run Server server_obs bool :=
  match failure with
  | None => Run (Ret true) (mkServer (if on then all_parts else ∅) false) (switches on order ++ [o])
  | Some (before, p, e) =>
      Run (if is_runtime e then Ret false else Throw e) (mkServer (if on then ∅ else all_parts) true)
        (switches on (before ++ [p]) ++ switches (negb on) (rev before))
  end.

Lemma pause_run error uncaught b :
  (∀ p, error p true = None) →
  pause error uncaught (mkServer all_parts b) =
    switched false ListenerPaused pause_order (first_failure error false pause_order).
Proof.
  intros Hback. unfold pause, report_to. rewrite pause_chain.
  change (set_unwinding true (mkServer all_parts b)) with (mkServer all_parts true).
  rewrite (body_run error uncaught false (removelast pause_order) Display b); [|by repeat constructor; set_solver|done].
  change (removelast pause_order ++ [Display]) with pause_order.
  destruct (first_failure error false pause_order) as [[[before p] e]|]; [done|]. cbn [value post trace switched].
  by replace (set_unwinding false (all_switched false pause_order (mkServer all_parts b))) with (mkServer ∅ false) by (destruct b; by vm_compute).
Qed.

Lemma resume_run error uncaught b :
  (∀ p, error p false = None) →
  resume error uncaught (mkServer ∅ b) =
    switched true ListenerResumed resume_order (first_failure error true resume_order).
Proof.
  intros Hback. unfold resume, report_to. rewrite resume_chain.
  change (set_unwinding true (mkServer ∅ b)) with (mkServer ∅ true).
  rewrite (body_run error uncaught true (removelast resume_order) Connector b); [|by repeat constructor; set_solver|done].
  change (removelast resume_order ++ [Connector]) with resume_order.
  destruct (first_failure error true resume_order) as [[[before p] e]|]; [done|]. cbn [value post trace switched].
  by replace (set_unwinding false (all_switched true resume_order (mkServer ∅ b))) with (mkServer all_parts false) by (destruct b; by vm_compute).
Qed.

Lemma paused_app h t : paused (h ++ t) = foldl paused_step (paused h) t.
Proof. apply foldl_app. Qed.
Lemma paused_switches b on parts : foldl paused_step b (switches on parts) = b.
Proof. induction parts; [done|]. cbn. done. Qed.

Lemma server_reachable s h : reachable server_machine s h → active s = if paused h then ∅ else all_parts.
Proof.
  revert s h. apply (reachable_invariant server_machine (λ s h, active s = if paused h then ∅ else all_parts)).
  - by intros s ->.
  - intros s h op _ Hs Hok. destruct s as [a b]. cbn [active] in Hs. subst a.
    destruct op as [error uncaught|error uncaught| |]; cbn [m_exec m_allowed server_machine server_exec] in *.
    + apply andb_true_iff in Hok as [Hp Hr]. apply negb_true_iff in Hp. rewrite paused_app, Hp. unfold pbind.
      rewrite pause_run by (intros p; by apply reverts_spec). unfold switched.
      destruct (first_failure _ _ _) as [[[before p] e]|]; [destruct (is_runtime e)|]; cbn [value post trace pret];
        rewrite ?app_nil_r, foldl_app, !paused_switches; done.
    + apply andb_true_iff in Hok as [Hp Hr]. rewrite paused_app, Hp. unfold pbind.
      rewrite resume_run by (intros p; by apply reverts_spec). unfold switched.
      destruct (first_failure _ _ _) as [[[before p] e]|]; [destruct (is_runtime e)|]; cbn [value post trace pret];
        rewrite ?app_nil_r, foldl_app, !paused_switches; done.
    + cbn. rewrite paused_app. done.
    + cbn. rewrite paused_app. done.
Qed.

(** Pausing and resuming are all or nothing.  A server that was last
    reported paused has no part active, otherwise all are.  [pause] switches
    the parts off from the connectors to the display and reports it; when a part
    refuses, exactly the parts before it are switched on again, in reverse
    order, nothing is reported, and [pause] returns false for a
    [std::runtime_error] and lets any other exception out; [resume] likewise
    the other way round. *)
Theorem pause_resume_atomic s h error uncaught :
  reachable server_machine s h →
  active s = (if paused h then ∅ else all_parts) ∧
  (paused h = false → (∀ p, error p true = None) →
    match first_failure error false pause_order with
    | None => value (pause error uncaught s) = Ret true ∧ active (post (pause error uncaught s)) = ∅ ∧
        trace (pause error uncaught s) = switches false pause_order ++ [ListenerPaused]
    | Some (before, p, e) =>
        value (pause error uncaught s) = (if is_runtime e then Ret false else Throw e) ∧
        active (post (pause error uncaught s)) = active s ∧
        trace (pause error uncaught s) = switches false (before ++ [p]) ++ switches true (rev before)
    end) ∧
  (paused h = true → (∀ p, error p false = None) →
    match first_failure error true resume_order with
    | None => value (resume error uncaught s) = Ret true ∧ active (post (resume error uncaught s)) = all_parts ∧
        trace (resume error uncaught s) = switches true resume_order ++ [ListenerResumed]
    | Some (before, p, e) =>
        value (resume error uncaught s) = (if is_runtime e then Ret false else Throw e) ∧
        active (post (resume error uncaught s)) = active s ∧
        trace (resume error uncaught s) = switches true (before ++ [p]) ++ switches false (rev before)
    end).
Proof.
  intros Hs%server_reachable. split; [done|]. destruct s as [a b]. cbn [active] in *. subst a. split.
  - intros -> Hback. rewrite pause_run by done. by destruct (first_failure _ _ _) as [[[before p] e]|].
  - intros -> Hback. rewrite resume_run by done. by destruct (first_failure _ _ _) as [[[before p] e]|].
Qed.

(** An input manager that cannot be stopped the first time. *)
Definition stubborn_input (p : part) (on : bool) : option exn :=
  match p, on with InputManager, false => Some (runtime_error "device busy") | _, _ => None end.
Definition server_example_ops : list server_op :=
  [OpPause stubborn_input false; OpPause (λ _ _, None) true; OpResume (λ _ _, None) true; OpConfigureDisplay].
Definition server_example_run : Server * list server_obs :=
  default (mkServer all_parts false, []) (run_ops server_machine server_example_ops (mkServer all_parts false) []).
Lemma server_example_reachable : reachable server_machine server_example_run.1 server_example_run.2.
Proof. by apply (run_ops_from_init server_machine server_example_ops (mkServer all_parts false)); vm_compute. Qed.

Lemma pause_resume_atomic_witness :
  value (pause stubborn_input true server_example_run.1) = Ret false ∧
  active (post (pause stubborn_input true server_example_run.1)) = active server_example_run.1.
Proof.
  destruct (pause_resume_atomic _ _ stubborn_input true server_example_reachable) as (_ & Hp & _).
  destruct (Hp ltac:(vm_compute; reflexivity) ltac:(intros []; reflexivity)) as (Hv & Ha & _).
  split; [exact Hv|exact Ha].
Defined.
