(* ===== verification/WindowInfo.v ===== *)
(** What the window manager keeps of a window (SurfaceInfo of
    src/server/shell/window_management_info.cpp): which types take input focus
    or parents, and the constraints a resize obeys. *)

From S2P Require Import Prelude Geometry.

(** ** Types and states (include/core/mir_toolkit/common.h) *)
Inductive MirWindowType :=
  | type_normal | type_utility | type_dialog | type_gloss | type_freestyle | type_menu
  | type_inputmethod | type_satellite | type_tip | window_types.
#[export] Instance MirWindowType_eq_dec : EqDecision MirWindowType.
Proof. solve_decision. Defined.
Inductive MirWindowState :=
  | state_unknown | state_restored | state_minimized | state_maximized | state_vertmaximized
  | state_fullscreen | state_horizmaximized | state_hidden | window_states.
#[export] Instance MirWindowState_eq_dec : EqDecision MirWindowState.
Proof. solve_decision. Defined.

Record AspectRatio := mkAspect { aspect_width : Z; aspect_height : Z }.

Record SurfaceInfo := mkInfo {
  info_type : MirWindowType;
  info_state : MirWindowState;
  restore_rect : Rectangle;
  info_session : Z;
  info_parent : option Z;
  children : list Z;
  min_width : Z;
  min_height : Z;
  max_width : Z;
  max_height : Z;
  width_inc : option Z;
  height_inc : option Z;
  min_aspect : option AspectRatio;
  max_aspect : option AspectRatio;
  info_output_id : option Z;
  confine_pointer : option bool
}.

Definition can_be_active (t : MirWindowType) : bool :=
  match t with
  | type_normal | type_utility | type_dialog | type_satellite | type_freestyle | type_menu | type_inputmethod => true
  | type_gloss | type_tip | window_types => false
  end.
Definition must_have_parent (t : MirWindowType) : bool :=
  match t with type_gloss | type_inputmethod | type_satellite | type_tip => true | _ => false end.
Definition must_not_have_parent (t : MirWindowType) : bool :=
  match t with type_normal | type_utility => true | _ => false end.
Definition can_morph_to (type new_type : MirWindowType) : bool :=
  match new_type with
  | type_normal | type_utility | type_satellite =>
      match type with type_normal | type_utility | type_dialog | type_satellite => true | _ => false end
  | type_dialog =>
      match type with type_normal | type_utility | type_dialog | type_menu | type_satellite => true | _ => false end
  | _ => false
  end.
Definition is_visible (st : MirWindowState) : bool :=
  match st with state_hidden | state_minimized => false | _ => true end.
Definition needs_titlebar (t : MirWindowType) : bool :=
  match t with type_freestyle | type_menu | type_inputmethod | type_gloss | type_tip => false | _ => true end.

(** ** Constraining a resize *)

(** [height*long(ar.width) - width*long(ar.height)] and its corrections; the
    aspects are [unsigned int], the quotients are of [long]. *)
Definition min_aspect_error (ar : AspectRatio) (s : Size) : Z :=
  int64 (int64 (height s * aspect_width ar) - int64 (width s * aspect_height ar)).
Definition max_aspect_error (ar : AspectRatio) (s : Size) : Z :=
  int64 (int64 (width s * aspect_height ar) - int64 (height s * aspect_width ar)).
Definition correction (error d : Z) : Z := Z.quot (int64 (error + uint32 (d - 1))) d.

Definition constrain_min_aspect (ar : option AspectRatio) (s : Size) : Size :=
  match ar with
  | None => s
  | Some ar =>
      let error := min_aspect_error ar s in
      if 0 <? error then
        let width_correction := correction error (aspect_height ar) in
        let height_correction := correction error (aspect_width ar) in
        if width_correction <? height_correction then Sz (int_add (width s) (int32 width_correction)) (height s)
        else Sz (width s) (int_sub (height s) (int32 height_correction))
      else s
  end.
Definition constrain_max_aspect (ar : option AspectRatio) (s : Size) : Size :=
  match ar with
  | None => s
  | Some ar =>
      let error := max_aspect_error ar s in
      if 0 <? error then
        let height_correction := correction error (aspect_width ar) in
        let width_correction := correction error (aspect_height ar) in
        if width_correction <? height_correction then Sz (int_sub (width s) (int32 width_correction)) (height s)
        else Sz (width s) (int_add (height s) (int32 height_correction))
      else s
  end.

(** One dimension against its limits, then snapped to its increment. *)
Definition constrain_limits (lo hi v : Z) : Z :=
  let v := if v <? lo then lo else v in
  if hi <? v then hi else v.
Definition constrain_increment (inc : option Z) (lo v : Z) : Z :=
  match inc with
  | None => v
  | Some inc =>
      let d := int32 (v - lo) in
      if Z.rem d inc =? 0 then v
      else int_add lo (int32 (int64 (inc * Z.quot (Z.quot (int64 (int64 (2 * d) + inc)) 2) inc)))
  end.

Definition constrain_size (info : SurfaceInfo) (requested : Size) : Size :=
  let s := constrain_max_aspect (max_aspect info) (constrain_min_aspect (min_aspect info) requested) in
  Sz (constrain_increment (width_inc info) (min_width info) (constrain_limits (min_width info) (max_width info) (width s)))
     (constrain_increment (height_inc info) (min_height info) (constrain_limits (min_height info) (max_height info) (height s))).

(** [constrain_resize]: the position and size for a window that is at [current]. *)
Definition constrain_resize (info : SurfaceInfo) (current : Rectangle) (requested_pos : Point) (requested_size : Size)
    (left_resize top_resize : bool) : Point * Size :=
  let new_size := constrain_size info requested_size in
  let new_pos := Pt
    (if left_resize then int_add (px requested_pos) (int_sub (width new_size) (width requested_size)) else px requested_pos)
    (if top_resize then int_add (py requested_pos) (int_sub (height new_size) (height requested_size)) else py requested_pos) in
  match info_state info with
  | state_restored => (new_pos, new_size)
  | state_vertmaximized =>
      (Pt (px new_pos) (py (top_left current)), Sz (width new_size) (height (size current)))
  | state_horizmaximized =>
      (Pt (px (top_left current)) (py new_pos), Sz (width (size current)) (height new_size))
  | _ => (top_left current, size current)
  end.

(** ** What the constraints achieve

    Within sizes a screen can have, nothing overflows. *)
Definition dim_max : Z := 2 ^ 28.
Definition aspect_ok (ar : AspectRatio) : Prop := 0 < aspect_width ar < 2 ^ 32 ∧ 0 < aspect_height ar < 2 ^ 32.
Definition inc_ok (inc : option Z) : Prop := ∀ i, inc = Some i → 0 < i ≤ dim_max.
Record info_ok (info : SurfaceInfo) : Prop := {
  ok_width : 0 ≤ min_width info ≤ max_width info ∧ min_width info ≤ dim_max ∧ max_width info ≤ int_max;
  ok_height : 0 ≤ min_height info ≤ max_height info ∧ min_height info ≤ dim_max ∧ max_height info ≤ int_max;
  ok_width_inc : inc_ok (width_inc info);
  ok_height_inc : inc_ok (height_inc info);
  ok_min_aspect : ∀ ar, min_aspect info = Some ar → aspect_ok ar;
  ok_max_aspect : ∀ ar, max_aspect info = Some ar → aspect_ok ar
}.

Lemma correction_spec error d n :
  0 < d < 2 ^ 32 → 0 < error ≤ n * d → error < 2 ^ 62 →
  error ≤ correction error d * d ∧ 0 < correction error d ≤ n.
Proof.
  intros Hd He Hlt. unfold correction. rewrite uint32_id, int64_id by lia.
  rewrite Z.quot_div_nonneg by lia.
  pose proof (Z.div_mod (error + (d - 1)) d ltac:(lia)). pose proof (Z.mod_pos_bound (error + (d - 1)) d ltac:(lia)).
  split; [nia|]. split; [apply Z.div_str_pos; nia|]. apply Z.lt_succ_r, Z.div_lt_upper_bound; nia.
Qed.

Lemma min_aspect_spec ar s :
  aspect_ok ar → 0 ≤ width s ≤ dim_max → 0 ≤ height s ≤ dim_max →
  let s' := constrain_min_aspect (Some ar) s in
  height s' * aspect_width ar ≤ width s' * aspect_height ar ∧
  width s ≤ width s' ≤ width s + height s ∧ 0 ≤ height s' ≤ height s.
Proof.
  unfold dim_max, constrain_min_aspect, min_aspect_error. intros [Hw Hh] Hsw Hsh.
  rewrite (int64_id (height s * _)), (int64_id (width s * _)), int64_id by nia.
  set (error := height s * aspect_width ar - width s * aspect_height ar).
  destruct (Z.ltb_spec 0 error) as [He|He]; cbn zeta; [|subst error; cbn; lia].
  assert (error ≤ height s * aspect_width ar) as Hle by (subst error; nia).
  destruct (correction_spec error (aspect_width ar) (height s) Hw ltac:(lia) ltac:(nia)) as [Hc1 Hc2].
  destruct (correction_spec error (aspect_height ar) error Hh ltac:(nia) ltac:(nia)) as [Hd1 Hd2].
  destruct (Z.ltb_spec (correction error (aspect_height ar)) (correction error (aspect_width ar))); cbn [width height].
  - rewrite int32_id by (unfold int_min, int_max; lia). unfold int_add. rewrite int32_id by (unfold int_min, int_max; lia).
    split; [|lia]. rewrite Z.mul_add_distr_r. subst error. lia.
  - rewrite int32_id by (unfold int_min, int_max; lia). unfold int_sub. rewrite int32_id by (unfold int_min, int_max; lia).
    split; [|lia]. rewrite Z.mul_sub_distr_r. subst error. lia.
Qed.
Lemma max_aspect_spec ar s :
  aspect_ok ar → 0 ≤ width s ≤ 2 * dim_max → 0 ≤ height s ≤ dim_max →
  let s' := constrain_max_aspect (Some ar) s in
  width s' * aspect_height ar ≤ height s' * aspect_width ar ∧
  0 ≤ width s' ≤ width s ∧ height s ≤ height s' ≤ height s + width s.
Proof.
  unfold dim_max, constrain_max_aspect, max_aspect_error. intros [Hw Hh] Hsw Hsh.
  rewrite (int64_id (width s * _)), (int64_id (height s * _)), int64_id by nia.
  set (error := width s * aspect_height ar - height s * aspect_width ar).
  destruct (Z.ltb_spec 0 error) as [He|He]; cbn zeta; [|subst error; cbn; lia].
  assert (error ≤ width s * aspect_height ar) as Hle by (subst error; nia).
  destruct (correction_spec error (aspect_height ar) (width s) Hh ltac:(lia) ltac:(nia)) as [Hc1 Hc2].
  destruct (correction_spec error (aspect_width ar) error Hw ltac:(nia) ltac:(nia)) as [Hd1 Hd2].
  destruct (Z.ltb_spec (correction error (aspect_height ar)) (correction error (aspect_width ar))); cbn [width height].
  - rewrite int32_id by (unfold int_min, int_max; lia). unfold int_sub. rewrite int32_id by (unfold int_min, int_max; lia).
    split; [|lia]. rewrite Z.mul_sub_distr_r. subst error. lia.
  - rewrite int32_id by (unfold int_min, int_max; lia). unfold int_add. rewrite int32_id by (unfold int_min, int_max; lia).
    split; [|lia]. rewrite Z.mul_add_distr_r. subst error. lia.
Qed.

Lemma limits_spec lo hi v : lo ≤ hi → lo ≤ constrain_limits lo hi v ≤ hi.
Proof. unfold constrain_limits. cbn zeta. intros. repeat case_match; lia. Qed.
Lemma limits_inside lo hi v : lo ≤ v ≤ hi → constrain_limits lo hi v = v.
Proof. unfold constrain_limits. cbn zeta. intros. repeat case_match; lia. Qed.

Lemma increment_spec i lo v :
  0 < i ≤ dim_max → 0 ≤ lo ≤ v → v ≤ 4 * dim_max →
  let v' := constrain_increment (Some i) lo v in
  lo ≤ v' ∧ (v' - lo) mod i = 0 ∧ 2 * Z.abs (v' - v) ≤ i.
Proof.
  unfold dim_max. intros Hi Hlo Hv. cbn. rewrite (int32_id (v - lo)) by (unfold int_min, int_max; lia).
  destruct (Z.eqb_spec (Z.rem (v - lo) i) 0) as [Hr|Hr]; cbn zeta.
  - rewrite Z.rem_mod_nonneg in Hr by lia. split; [lia|]. split; [done|]. rewrite Z.sub_diag. cbn. lia.
  - rewrite (int64_id (2 * (v - lo))), (int64_id (2 * (v - lo) + i)) by lia.
    rewrite (Z.quot_div_nonneg _ 2) by lia. set (q := (2 * (v - lo) + i) / 2).
    assert (2 * q ≤ 2 * (v - lo) + i < 2 * q + 2) as Hq.
    { subst q. pose proof (Z.div_mod (2 * (v - lo) + i) 2 ltac:(lia)). pose proof (Z.mod_pos_bound (2 * (v - lo) + i) 2 ltac:(lia)). lia. }
    rewrite Z.quot_div_nonneg by lia. set (k := q / i).
    assert (i * k ≤ q < i * k + i ∧ 0 ≤ k) as [Hk Hk0].
    { subst k. pose proof (Z.div_mod q i ltac:(lia)). pose proof (Z.mod_pos_bound q i ltac:(lia)). split; [lia|]. apply Z.div_pos; lia. }
    rewrite int64_id by nia. rewrite int32_id by (unfold int_min, int_max; nia).
    unfold int_add. rewrite int32_id by (unfold int_min, int_max; nia).
    split; [nia|]. split; [|lia]. replace (lo + i * k - lo) with (k * i) by lia. apply Z.mod_mul. lia.
Qed.

(** The size between the aspects and the limits. *)
Definition aspect_size (info : SurfaceInfo) (requested : Size) : Size :=
  constrain_max_aspect (max_aspect info) (constrain_min_aspect (min_aspect info) requested).
Lemma aspect_size_range info s :
  info_ok info → 0 ≤ width s ≤ dim_max → 0 ≤ height s ≤ dim_max →
  0 ≤ width (aspect_size info s) ≤ 3 * dim_max ∧ 0 ≤ height (aspect_size info s) ≤ 3 * dim_max.
Proof.
  intros Hi Hw Hh. unfold aspect_size.
  assert (width s ≤ width (constrain_min_aspect (min_aspect info) s) ≤ width s + height s ∧
    0 ≤ height (constrain_min_aspect (min_aspect info) s) ≤ height s) as [Hw1 Hh1].
  { destruct (min_aspect info) as [ar|] eqn:Har; [apply (min_aspect_spec ar s); [by eapply ok_min_aspect|lia|lia]|cbn; lia]. }
  set (s1 := constrain_min_aspect _ s) in *.
  destruct (max_aspect info) as [ar|] eqn:Har; [|cbn; lia].
  destruct (max_aspect_spec ar s1) as (_ & ? & ?); [by eapply ok_max_aspect|lia|lia|lia].
Qed.

Lemma dimension_spec inc lo hi v :
  0 ≤ lo ≤ hi → lo ≤ dim_max → hi ≤ int_max → inc_ok inc → 0 ≤ v ≤ 3 * dim_max →
  let v' := constrain_increment inc lo (constrain_limits lo hi v) in
  lo ≤ v' ≤ 4 * dim_max ∧
  match inc with
  | None => v' ≤ hi ∧ (lo ≤ v ≤ hi → v' = v)
  | Some i => (v' - lo) mod i = 0 ∧ 2 * Z.abs (v' - constrain_limits lo hi v) ≤ i
  end.
Proof.
  intros Hlo Hd Hhi Hinc Hv. pose proof (limits_spec lo hi v ltac:(lia)) as Hl.
  assert (constrain_limits lo hi v ≤ 3 * dim_max) as Hl3.
  { unfold constrain_limits, dim_max in *. cbn zeta. repeat case_match; lia. }
  destruct inc as [i|]; cbn zeta.
  - specialize (Hinc i eq_refl). destruct (increment_spec i lo (constrain_limits lo hi v)) as (H1 & H2 & H3); [lia|lia|unfold dim_max in *; lia|].
    split; [|done]. split; [done|]. lia.
  - cbn. split; [unfold dim_max in *; lia|]. split; [lia|]. intros. by rewrite limits_inside.
Qed.

(** What one dimension promises. *)
Definition dimension_kept (inc : option Z) (lo hi v v' : Z) : Prop :=
  lo ≤ v' ∧
  match inc with
  | None => v' ≤ hi ∧ (lo ≤ v ≤ hi → v' = v)
  | Some i => (v' - lo) mod i = 0 ∧ ∃ w, lo ≤ w ≤ hi ∧ 2 * Z.abs (v' - w) ≤ i
  end.
Lemma dimension_kept_spec inc lo hi v :
  0 ≤ lo ≤ hi → lo ≤ dim_max → hi ≤ int_max → inc_ok inc → 0 ≤ v ≤ 3 * dim_max →
  dimension_kept inc lo hi v (constrain_increment inc lo (constrain_limits lo hi v)) ∧
  constrain_increment inc lo (constrain_limits lo hi v) ≤ 4 * dim_max.
Proof.
  intros Hlo Hd Hhi Hinc Hv. destruct (dimension_spec inc lo hi v Hlo Hd Hhi Hinc Hv) as [Hr Hm].
  split; [|lia]. split; [lia|]. destruct inc as [i|]; [|done]. destruct Hm as [Hm1 Hm2]. split; [done|].
  exists (constrain_limits lo hi v). split; [apply limits_spec; lia|done].
Qed.

(** C25. A resize obeys the window's constraints.  Without an increment each
    dimension is between its minimum and maximum, and what the aspect ratios ask
    for is kept when it is; with one it is the minimum plus a multiple of the
    increment and at most half an increment away from a size within the limits.
    The aspect step leaves a size that satisfies the maximum aspect, and the
    minimum aspect when there is no maximum one.  Resizing a restored window to
    the left (the top) moves the requested position by what the constraints
    changed, so the edge away from the pointer stays exactly when they changed
    nothing.  A maximized dimension, and everything of a window that is neither
    restored nor maximized in one direction only, stays as it is. *)
Theorem constrain_resize_spec info current pos sz left top :
  info_ok info → 0 ≤ width sz ≤ dim_max → 0 ≤ height sz ≤ dim_max →
  - 2 ^ 29 ≤ px pos ≤ 2 ^ 29 → - 2 ^ 29 ≤ py pos ≤ 2 ^ 29 →
  let s := constrain_size info sz in
  let a := aspect_size info sz in
  let r := constrain_resize info current pos sz left top in
  dimension_kept (width_inc info) (min_width info) (max_width info) (width a) (width s) ∧
  dimension_kept (height_inc info) (min_height info) (max_height info) (height a) (height s) ∧
  (∀ ar, max_aspect info = Some ar → width a * aspect_height ar ≤ height a * aspect_width ar) ∧
  (∀ ar, min_aspect info = Some ar → max_aspect info = None → height a * aspect_width ar ≤ width a * aspect_height ar) ∧
  match info_state info with
  | state_restored => r.2 = s ∧
      px r.1 = px pos + (if left then width s - width sz else 0) ∧
      py r.1 = py pos + (if top then height s - height sz else 0)
  | state_vertmaximized => width r.2 = width s ∧ py r.1 = py (top_left current) ∧ height r.2 = height (size current)
  | state_horizmaximized => height r.2 = height s ∧ px r.1 = px (top_left current) ∧ width r.2 = width (size current)
  | _ => r = (top_left current, size current)
  end.
Proof.
  intros Hi Hw Hh Hx Hy. cbn zeta. destruct (aspect_size_range info sz Hi Hw Hh) as [Haw Hah].
  pose proof Hi as [(Hw1 & Hw2 & Hw3) (Hh1 & Hh2 & Hh3) Hwi Hhi Hmin Hmax].
  destruct (dimension_kept_spec _ _ _ _ Hw1 Hw2 Hw3 Hwi Haw) as [Hkw Hkw'].
  destruct (dimension_kept_spec _ _ _ _ Hh1 Hh2 Hh3 Hhi Hah) as [Hkh Hkh'].
  split; [exact Hkw|]. split; [exact Hkh|]. split; [|split].
  - intros ar Har. unfold aspect_size. rewrite Har. apply max_aspect_spec; [by apply Hmax|..];
      (destruct (min_aspect info) as [ar'|] eqn:Hma; [|cbn; unfold dim_max in *; lia]);
      destruct (min_aspect_spec ar' sz (Hmin _ eq_refl) Hw Hh) as (_ & ? & ?); lia.
  - intros ar Har Hno. unfold aspect_size. rewrite Har, Hno. by apply min_aspect_spec; [apply Hmin|..].
  - unfold constrain_resize. destruct Hkw as [Hkw _], Hkh as [Hkh _].
    change (constrain_increment _ _ (constrain_limits (min_width info) _ _)) with (width (constrain_size info sz)) in *.
    change (constrain_increment _ _ (constrain_limits (min_height info) _ _)) with (height (constrain_size info sz)) in *.
    unfold dim_max in *. destruct (info_state info); try done. split; [done|]. cbn [fst px py].
    unfold int_add, int_sub. split; [destruct left|destruct top]; try lia;
      rewrite (int32_id (_ - _)) by (unfold int_min, int_max; lia); rewrite int32_id by (unfold int_min, int_max; lia); lia.
Qed.

(** A window at least 40 wide whose width grows by 20 up to 95. *)
Definition example_info : SurfaceInfo :=
  mkInfo type_normal state_restored rectangle0 0 None [] 40 10 95 1000 (Some 20) None None (Some (mkAspect 4 1)) None None.
Lemma example_info_ok : info_ok example_info.
Proof. split; cbn; unfold inc_ok, aspect_ok, dim_max, int_max; cbn; try lia; intros ? [= <-]; cbn; lia. Qed.

Lemma constrain_resize_spec_witness :
  constrain_resize example_info rectangle0 (Pt 100 100) (Sz 88 30) false false = (Pt 100 100, Sz 80 30) ∧
  dimension_kept (Some 20) 40 95 (width (aspect_size example_info (Sz 88 30))) (width (constrain_size example_info (Sz 88 30))).
Proof.
  split; [vm_compute; reflexivity|].
  destruct (constrain_resize_spec example_info rectangle0 (Pt 100 100) (Sz 88 30) false false example_info_ok) as (H & _);
    [cbn; unfold dim_max; lia..|]. exact H.
Defined.

(** Snapping may pass the maximum, and resizing past the minimum at the left
    edge moves the right edge: from 150 to 190 here. *)
Lemma increment_exceeds_maximum :
  max_width example_info < width (constrain_size example_info (Sz 95 50)).
Proof. vm_compute. reflexivity. Qed.
Lemma left_resize_moves_right_edge :
  let r := constrain_resize example_info (Rect (Pt 100 100) (Sz 50 50)) (Pt 130 100) (Sz 20 50) true false in
  r = (Pt 150 100, Sz 40 50) ∧ px r.1 + width r.2 = 190.
Proof. split; vm_compute; reflexivity. Qed.
