(* ===== verification/WindowManager.v ===== *)
(** Window management: the bookkeeping of
    src/server/shell/basic_window_manager.cpp and the policy of
    src/server/shell/canonical_window_manager.cpp, over the scene's surfaces and
    the shell's focus.

    Sessions and surfaces are numbers; a surface exists while it is in
    [surfaces], which is what locking a weak pointer asks.  Every call is made
    under the manager's mutex. *)

From S2P Require Import Prelude Geometry WindowInfo.

(** ** State *)
Record SceneSurface := mkSurface { owner : Z; rect : Rectangle; shown : bool; attr_state : MirWindowState; attr_type : MirWindowType }.

Record WM := mkWM {
  (** the scene and the shell's focus *)
  surfaces : gmap Z SceneSurface;
  focus : option Z * option Z;
  next_surface : Z;
  (** BasicWindowManager *)
  surface_info : gmap Z SurfaceInfo;
  session_info : gmap Z (list Z);
  displays : Rectangles;
  cursor : Point;
  last_input_event_timestamp : Z;
  (** CanonicalWindowManagerPolicy *)
  active_surface_ : option Z;
  fullscreen_surfaces : gset Z;
  display_area : Rectangle;
  old_cursor : Point;
  resizing : bool;
  left_resize : bool;
  top_resize : bool
}.

Inductive wm_obs :=
  | SetFocusTo (session surface : option Z)
  | FocusNextSession
  | RaiseSurfaces (set : gset Z)
  | Build (surface : Z)
  | DestroySurface (surface : Z)
  | KillSession (session : Z)
  | RequestClose (surface : Z)
  | Rename (surface : Z)
  | ConfigureStreams (surface : Z)
  | SetInputRegion (surface : Z) (rects : list Rectangle)
  | SetConfinePointer (surface : Z) (confined : bool)
  (** marks: a window got another parent, a surface went with its session *)
  | Reparented (surface : Z)
  | SurfaceGone (surface : Z).

#[local] Abbreviation M := (prog WM wm_obs).

Definition set_surfaces (m : gmap Z SceneSurface) (s : WM) : WM :=
  mkWM m (focus s) (next_surface s) (surface_info s) (session_info s) (displays s) (cursor s) (last_input_event_timestamp s)
    (active_surface_ s) (fullscreen_surfaces s) (display_area s) (old_cursor s) (resizing s) (left_resize s) (top_resize s).
Definition set_focus (f : option Z * option Z) (s : WM) : WM :=
  mkWM (surfaces s) f (next_surface s) (surface_info s) (session_info s) (displays s) (cursor s) (last_input_event_timestamp s)
    (active_surface_ s) (fullscreen_surfaces s) (display_area s) (old_cursor s) (resizing s) (left_resize s) (top_resize s).
Definition set_next (n : Z) (s : WM) : WM :=
  mkWM (surfaces s) (focus s) n (surface_info s) (session_info s) (displays s) (cursor s) (last_input_event_timestamp s)
    (active_surface_ s) (fullscreen_surfaces s) (display_area s) (old_cursor s) (resizing s) (left_resize s) (top_resize s).
Definition set_infos (m : gmap Z SurfaceInfo) (s : WM) : WM :=
  mkWM (surfaces s) (focus s) (next_surface s) m (session_info s) (displays s) (cursor s) (last_input_event_timestamp s)
    (active_surface_ s) (fullscreen_surfaces s) (display_area s) (old_cursor s) (resizing s) (left_resize s) (top_resize s).
Definition set_sessions (m : gmap Z (list Z)) (s : WM) : WM :=
  mkWM (surfaces s) (focus s) (next_surface s) (surface_info s) m (displays s) (cursor s) (last_input_event_timestamp s)
    (active_surface_ s) (fullscreen_surfaces s) (display_area s) (old_cursor s) (resizing s) (left_resize s) (top_resize s).
Definition set_displays (d : Rectangles) (s : WM) : WM :=
  mkWM (surfaces s) (focus s) (next_surface s) (surface_info s) (session_info s) d (cursor s) (last_input_event_timestamp s)
    (active_surface_ s) (fullscreen_surfaces s) (display_area s) (old_cursor s) (resizing s) (left_resize s) (top_resize s).
Definition set_cursor (c : Point) (s : WM) : WM :=
  mkWM (surfaces s) (focus s) (next_surface s) (surface_info s) (session_info s) (displays s) c (last_input_event_timestamp s)
    (active_surface_ s) (fullscreen_surfaces s) (display_area s) (old_cursor s) (resizing s) (left_resize s) (top_resize s).
Definition set_timestamp (t : Z) (s : WM) : WM :=
  mkWM (surfaces s) (focus s) (next_surface s) (surface_info s) (session_info s) (displays s) (cursor s) t
    (active_surface_ s) (fullscreen_surfaces s) (display_area s) (old_cursor s) (resizing s) (left_resize s) (top_resize s).
Definition set_active (a : option Z) (s : WM) : WM :=
  mkWM (surfaces s) (focus s) (next_surface s) (surface_info s) (session_info s) (displays s) (cursor s) (last_input_event_timestamp s)
    a (fullscreen_surfaces s) (display_area s) (old_cursor s) (resizing s) (left_resize s) (top_resize s).
Definition set_fullscreen (f : gset Z) (s : WM) : WM :=
  mkWM (surfaces s) (focus s) (next_surface s) (surface_info s) (session_info s) (displays s) (cursor s) (last_input_event_timestamp s)
    (active_surface_ s) f (display_area s) (old_cursor s) (resizing s) (left_resize s) (top_resize s).
Definition set_display_area (r : Rectangle) (s : WM) : WM :=
  mkWM (surfaces s) (focus s) (next_surface s) (surface_info s) (session_info s) (displays s) (cursor s) (last_input_event_timestamp s)
    (active_surface_ s) (fullscreen_surfaces s) r (old_cursor s) (resizing s) (left_resize s) (top_resize s).
Definition set_gesture (c : Point) (r l t : bool) (s : WM) : WM :=
  mkWM (surfaces s) (focus s) (next_surface s) (surface_info s) (session_info s) (displays s) (cursor s) (last_input_event_timestamp s)
    (active_surface_ s) (fullscreen_surfaces s) (display_area s) c r l t.
Definition set_old_cursor (c : Point) (s : WM) : WM := set_gesture c (resizing s) (left_resize s) (top_resize s) s.

(** Fields of an info. *)
Definition with_state (st : MirWindowState) (i : SurfaceInfo) : SurfaceInfo :=
  mkInfo (info_type i) st (restore_rect i) (info_session i) (info_parent i) (children i) (min_width i) (min_height i)
    (max_width i) (max_height i) (width_inc i) (height_inc i) (min_aspect i) (max_aspect i) (info_output_id i) (confine_pointer i).
Definition with_restore (r : Rectangle) (i : SurfaceInfo) : SurfaceInfo :=
  mkInfo (info_type i) (info_state i) r (info_session i) (info_parent i) (children i) (min_width i) (min_height i)
    (max_width i) (max_height i) (width_inc i) (height_inc i) (min_aspect i) (max_aspect i) (info_output_id i) (confine_pointer i).
Definition with_children (c : list Z) (i : SurfaceInfo) : SurfaceInfo :=
  mkInfo (info_type i) (info_state i) (restore_rect i) (info_session i) (info_parent i) c (min_width i) (min_height i)
    (max_width i) (max_height i) (width_inc i) (height_inc i) (min_aspect i) (max_aspect i) (info_output_id i) (confine_pointer i).
Definition with_output (o : option Z) (i : SurfaceInfo) : SurfaceInfo :=
  mkInfo (info_type i) (info_state i) (restore_rect i) (info_session i) (info_parent i) (children i) (min_width i) (min_height i)
    (max_width i) (max_height i) (width_inc i) (height_inc i) (min_aspect i) (max_aspect i) o (confine_pointer i).
Definition with_parent (t : MirWindowType) (p : option Z) (i : SurfaceInfo) : SurfaceInfo :=
  mkInfo t (info_state i) (restore_rect i) (info_session i) p (children i) (min_width i) (min_height i)
    (max_width i) (max_height i) (width_inc i) (height_inc i) (min_aspect i) (max_aspect i) (info_output_id i) (confine_pointer i).

(** ** The scene *)
Definition alive (s : WM) (w : Z) : bool := bool_decide (is_Some (surfaces s !! w)).
(** [weak.lock()] *)
Definition lock (s : WM) (w : option Z) : option Z :=
  match w with Some w => if alive s w then Some w else None | None => None end.

(** A method of a surface; on a null pointer the program crashes. *)
Definition surface_do (w : Z) (f : SceneSurface → SceneSurface) : M unit :=
  let* s := pget in
  match surfaces s !! w with
  | Some x => pput (set_surfaces (<[w := f x]> (surfaces s)) s)
  | None => pthrow (undefined_behaviour "null surface")
  end.
Definition surface_get (w : Z) : M SceneSurface :=
  let* s := pget in
  match surfaces s !! w with Some x => pret x | None => pthrow (undefined_behaviour "null surface") end.

Definition move_to (w : Z) (p : Point) : M unit :=
  surface_do w (λ x, mkSurface (owner x) (Rect p (size (rect x))) (shown x) (attr_state x) (attr_type x)).
Definition surface_resize (w : Z) (sz : Size) : M unit :=
  surface_do w (λ x, mkSurface (owner x)
    (Rect (top_left (rect x)) (Sz (if width sz <=? 0 then 1 else width sz) (if height sz <=? 0 then 1 else height sz)))
    (shown x) (attr_state x) (attr_type x)).
Definition set_shown (w : Z) (b : bool) : M unit :=
  surface_do w (λ x, mkSurface (owner x) (rect x) b (attr_state x) (attr_type x)).
Definition configure_state (w : Z) (st : MirWindowState) : M unit :=
  surface_do w (λ x, mkSurface (owner x) (rect x) (shown x) st (attr_type x)).
Definition configure_type (w : Z) (t : MirWindowType) : M unit :=
  surface_do w (λ x, mkSurface (owner x) (rect x) (shown x) (attr_state x) t).

(** A session's surfaces in the order of their ids. *)
Definition session_surfaces (s : WM) (session : Z) : list Z :=
  (filter (λ e, owner e.2 = session) (entries (surfaces s))).*1.
Definition default_surface (s : WM) (session : Z) : option Z := head (session_surfaces s session).

(** [ApplicationSession::surface_after]: the next surface that can take the
    focus, starting over at the front; when there is none [std::find_if] returns
    its end, the surface behind [before] if there is one. *)
Definition can_take_focus (s : WM) (w : Z) : bool :=
  match surfaces s !! w with Some x => can_be_active (attr_type x) | None => false end.
Definition surface_after (s : WM) (session before : Z) : outcome (option Z) :=
  let l := session_surfaces s session in
  if bool_decide (before ∈ l) then
    let front := filter (λ w, w ≤ before) l in
    let back := filter (λ w, before < w) l in
    Ret (match find_if (can_take_focus s) back with
         | Some w => Some w
         | None => match find_if (can_take_focus s) front with Some w => Some w | None => head back end
         end)
  else Throw (runtime_error "surface_after: surface is not a member of this session").

(** ** BasicWindowManager: what the policy uses *)
Definition info_for (w : Z) : M SurfaceInfo :=
  let* s := pget in
  match surface_info s !! w with Some i => pret i | None => pthrow (out_of_range "map::at") end.
Definition session_info_for (session : Z) : M (list Z) :=
  let* s := pget in
  match session_info s !! session with Some l => pret l | None => pthrow (out_of_range "map::at") end.
(** Writes through the reference [info_for] returned. *)
Definition update_info (w : Z) (f : SurfaceInfo → SurfaceInfo) : M unit :=
  pmodify (λ s, set_infos (alter f w (surface_info s)) s).

Definition focused_session (s : WM) : option Z :=
  match (focus s).1 with Some x => if bool_decide (is_Some (session_info s !! x)) then Some x else None | None => None end.
Definition focused_surface (s : WM) : option Z := lock s (focus s).2.
Definition set_focus_to (session surface : option Z) : M unit :=
  do* pemit (SetFocusTo session surface) in pmodify (set_focus (session, surface)).

Definition active_display (s : WM) : Rectangle :=
  match focused_surface s with
  | Some w =>
      let surface_rect := match surfaces s !! w with Some x => rect x | None => rectangle0 end in
      (foldl (λ '(best, area) d,
         let i := size (intersection_with surface_rect d) in
         let a := int32 (width i * height i) in
         if area <? a then (d, a) else (best, area)) (rectangle0, -1) (displays s)).1
  | None =>
      match find_if (λ d, contains_point d (cursor s)) (displays s) with
      | Some d => d
      | None => match displays s with d :: _ => d | [] => rectangle0 end
      end
  end.

(** [add_children] recurses along the children; the depth is bounded by the
    number of infos. *)
Fixpoint subtree (n : nat) (infos : gmap Z SurfaceInfo) (w : Z) : outcome (list Z) :=
  match n with
  | O => Throw (undefined_behaviour "stack overflow")
  | S n' =>
      match infos !! w with
      | None => Throw (out_of_range "map::at")
      | Some info => let? below := omapM (subtree n' infos) (children info) in Ret (w :: concat below)
      end
  end.
Definition depth (s : WM) : nat := S (base.size (surface_info s)).
Definition raise_tree (root : Z) : M unit :=
  let* s := pget in
  let* set := plift (subtree (depth s) (surface_info s) root) in
  pemit (RaiseSurfaces (list_to_set set)).

(** ** CanonicalWindowManagerPolicy *)

(** What the shell and the display layout answer during a call; a surface the
    shell returns is one that exists. *)
Record Answers := mkAnswers {
  surface_at : Point → option Z;
  input_area_contains : Z → Point → bool;
  after_focus_next : option Z * option Z;
  place_in_output : Z → Rectangle → Rectangle;
  size_to_output : Rectangle → Rectangle
}.

Definition translate (d : Displacement) (p : Point) : Point := point_add p d.

(** [move_tree]; its recursion is as deep as the tree of children. *)
Fixpoint move_tree (n : nat) (root : option Z) (movement : Displacement) : M unit :=
  match n with
  | O => pthrow (undefined_behaviour "stack overflow")
  | S n' =>
      match root with
      | None => pthrow (undefined_behaviour "null surface")
      | Some root =>
          let* x := surface_get root in
          do* move_to root (translate movement (top_left (rect x))) in
          let* info := info_for root in
          pfor (children info) (λ c, let* s := pget in move_tree n' (lock s (Some c)) movement)
      end
  end.
Definition move_tree_of (root : Z) (movement : Displacement) : M unit :=
  let* s := pget in move_tree (depth s) (Some root) movement.

Fixpoint select_active_surface (n : nat) (surface : option Z) : M unit :=
  match n with
  | O => pthrow (undefined_behaviour "stack overflow")
  | S n' =>
      match surface with
      | None =>
          let* s := pget in
          do* pwhen (bool_decide (is_Some (lock s (active_surface_ s)))) (set_focus_to None None) in
          pmodify (set_active None)
      | Some w =>
          let* info := info_for w in
          if can_be_active (info_type info) then
            let* s := pget in
            let session := if bool_decide (is_Some (session_info s !! info_session info)) then Some (info_session info) else None in
            do* set_focus_to session (Some w) in
            do* raise_tree w in
            pmodify (set_active (Some w))
          else
            let* s := pget in
            match lock s (info_parent info) with
            | Some p => select_active_surface n' (Some p)
            | None => pret tt
            end
      end
  end.
Definition select_active (surface : option Z) : M unit :=
  let* s := pget in select_active_surface (depth s) surface.

Definition active_surface (s : WM) : option Z :=
  match lock s (active_surface_ s) with
  | Some w => Some w
  | None => match focused_session s with Some session => default_surface s session | None => None end
  end.

Definition apply_resize (w : Z) (new_pos : Point) (new_size : Size) : M unit :=
  do* surface_resize w new_size in
  let* x := surface_get w in
  move_tree_of w (point_sub new_pos (top_left (rect x))).

(** [drag(surface, to, from, bounds)]: how far the window moves. *)
Definition drag_movement (st : MirWindowState) (movement : Displacement) : option Displacement :=
  match st with
  | state_restored => Some movement
  | state_vertmaximized => Some (Dp (dx movement) 0)
  | state_horizmaximized => Some (Dp 0 (dy movement))
  | _ => None
  end.

(** The corner farthest from the pointer: starting from the bottom right. *)
Definition resize_anchor (old_pos : Rectangle) (old_cursor : Point) : Point :=
  foldl (λ anchor corner,
    if bool_decide (length_squared (point_sub old_cursor anchor) < length_squared (point_sub old_cursor corner))
    then corner else anchor)
  (bottom_right old_pos) [top_right old_pos; bottom_left old_pos; top_left old_pos].

(** The position and size a resize asks for, before the constraints. *)
Definition resize_request (old_pos : Rectangle) (delta : Displacement) (left top : bool) (min_w min_h : Z) : Point * Size :=
  let new_width := int_add (width (size old_pos)) (if left then int32 (- dx delta) else dx delta) in
  let new_height := int_add (height (size old_pos)) (if top then int32 (- dy delta) else dy delta) in
  let min_width := Z.max min_w 5 in
  let min_height := Z.max min_h 5 in
  let '(new_width, ddx) := if new_width <? min_width then (min_width, if 0 <? dx delta then 0 else dx delta) else (new_width, dx delta) in
  let '(new_height, ddy) := if new_height <? min_height then (min_height, if 0 <? dy delta then 0 else dy delta) else (new_height, dy delta) in
  (Pt (int_add (px (top_left old_pos)) (if left then ddx else 0)) (int_add (py (top_left old_pos)) (if top then ddy else 0)),
   Sz new_width new_height).

Section policy.
Context (sh : Answers).

Definition click (c : Point) : M unit :=
  let* s := pget in
  do* match lock s (surface_at sh c) with Some w => select_active (Some w) | None => pret tt end in
  pmodify (set_old_cursor c).

Definition drag_surface (surface : option Z) (to from : Point) : M unit :=
  match surface with
  | None => pret tt
  | Some w =>
      if input_area_contains sh w from then
        let* info := info_for w in
        match drag_movement (info_state info) (point_sub to from) with
        | Some movement => move_tree_of w movement
        | None => pret tt
        end
      else pret tt
  end.
Definition drag (c : Point) : M unit :=
  let* s := pget in
  do* select_active (lock s (surface_at sh (old_cursor s))) in
  let* s := pget in
  do* drag_surface (active_surface s) c (old_cursor s) in
  pmodify (set_old_cursor c).

Definition resize_surface (surface : option Z) (c old : Point) : M unit :=
  match surface with
  | None => pret tt
  | Some w =>
      let* info := info_for w in
      let* x := surface_get w in
      let* s := pget in
      let anchor := resize_anchor (rect x) old in
      let left := if resizing s then left_resize s else negb (bool_decide (px anchor = px (top_left (rect x)))) in
      let top := if resizing s then top_resize s else negb (bool_decide (py anchor = py (top_left (rect x)))) in
      do* pmodify (λ s, set_gesture (old_cursor s) (resizing s) left top s) in
      let '(new_pos, new_size) := resize_request (rect x) (point_sub c old) left top (min_width info) (min_height info) in
      let '(new_pos, new_size) := constrain_resize info (rect x) new_pos new_size left top in
      apply_resize w new_pos new_size
  end.
Definition resize (c : Point) : M unit :=
  let* s := pget in
  do* pwhen (negb (resizing s)) (select_active (lock s (surface_at sh (old_cursor s)))) in
  let* s := pget in
  do* resize_surface (active_surface s) c (old_cursor s) in
  pmodify (set_old_cursor c).

Definition handle_displays_updated : M unit :=
  do* pmodify (λ s, set_display_area (bounding_rectangle (displays s)) s) in
  let* s := pget in
  pfor (ascending (fullscreen_surfaces s)) (λ w,
    let* s := pget in
    if alive s w then
      let* info := info_for w in
      let* x := surface_get w in
      match info_output_id info with
      | None => pthrow (undefined_behaviour "Accessing value of unset optional")
      | Some output =>
          let r := place_in_output sh output (rect x) in
          do* move_to w (top_left r) in surface_resize w (size r)
      end
    else pret tt).

(** [handle_set_state]: how the window moves and its new size, for the states
    that have one. *)
Definition state_target (s : WM) (info : SurfaceInfo) (r : Rectangle) (value : MirWindowState) : Rectangle :=
  let area := display_area s in
  let restore := restore_rect info in
  match value with
  | state_restored => restore
  | state_maximized => area
  | state_horizmaximized =>
      Rect (Pt (px (top_left area)) (py (top_left restore))) (Sz (width (size area)) (height (size restore)))
  | state_vertmaximized =>
      Rect (Pt (px (top_left restore)) (py (top_left area))) (Sz (width (size restore)) (height (size area)))
  | state_fullscreen =>
      match info_output_id info with Some output => place_in_output sh output r | None => size_to_output sh r end
  | _ => r
  end.
Definition handled_state (value : MirWindowState) : bool :=
  match value with state_unknown | window_states => false | _ => true end.

Definition handle_set_state (w : Z) (value : MirWindowState) : M MirWindowState :=
  let* info := info_for w in
  if handled_state value then
    let* x := surface_get w in
    do* pwhen (bool_decide (info_state info = state_restored)) (update_info w (with_restore (rect x))) in
    do* (if bool_decide (info_state info ≠ state_fullscreen) then
           do* update_info w (with_output None) in
           pmodify (λ s, set_fullscreen (fullscreen_surfaces s ∖ {[w]}) s)
         else pmodify (λ s, set_fullscreen (fullscreen_surfaces s ∪ {[w]}) s)) in
    let* info := info_for w in
    if bool_decide (info_state info = value) then pret value
    else if is_visible value then
      let* s := pget in
      let target := state_target s info (rect x) value in
      do* surface_resize w (size target) in
      do* move_tree_of w (point_sub (top_left target) (top_left (rect x))) in
      do* update_info w (with_state value) in
      do* set_shown w true in
      pret value
    else
      do* set_shown w false in
      do* update_info w (with_state value) in
      pret value
  else pret (info_state info).

Definition toggle (state : MirWindowState) : M unit :=
  let* s := pget in
  match active_surface s with
  | None => pret tt
  | Some w =>
      let* info := info_for w in
      let* value := handle_set_state w (if bool_decide (info_state info = state) then state_restored else state) in
      configure_state w value
  end.
End policy.

(** ** New surfaces *)
Record CreationParameters := mkParams {
  p_type : option MirWindowType;
  p_state : option MirWindowState;
  p_top_left : Point;
  p_size : Size;
  p_parent : option Z;
  p_output : Z;
  p_aux_rect : option Rectangle;
  p_edge_attachment : option Z;
  p_limits : Z * Z * Z * Z;
  p_increments : option Z * option Z;
  p_aspects : option AspectRatio * option AspectRatio
}.
Definition with_place (st : MirWindowState) (r : Rectangle) (p : CreationParameters) : CreationParameters :=
  mkParams (p_type p) (Some st) (top_left r) (size r) (p_parent p) (p_output p) (p_aux_rect p) (p_edge_attachment p)
    (p_limits p) (p_increments p) (p_aspects p).

Definition title_bar_height : Z := 10.
(** The policy's own functions of the same names. *)
Definition placing_must_not_have_parent (t : MirWindowType) : bool :=
  match t with type_normal | type_utility => true | _ => false end.
Definition placing_must_have_parent (t : MirWindowType) : bool :=
  match t with type_gloss | type_satellite | type_tip => true | _ => false end.

(** [origin + 0.5*(outer - inner) - DeltaY{(outer.height - inner.height)/6}] *)
Definition optically_centred (origin : Point) (outer inner : Size) : Point :=
  Pt (int_add (px origin) (Z.quot (int_sub (width outer) (width inner)) 2))
     (int_sub (int_add (py origin) (Z.quot (int_sub (height outer) (height inner)) 2))
        (Z.quot (int_sub (height outer) (height inner)) 6)).

(** Next to the parent: the last of the two edges that fits decides. *)
Definition attach_vertical (active : Rectangle) (tl tr : Point) (sz : Size) : option Point :=
  if contains_point active (translate (Dp (width sz) (height sz)) tr) then Some tr
  else if contains_point active (translate (Dp (int32 (- width sz)) (height sz)) tl) then Some (translate (Dp (int32 (- width sz)) 0) tl)
  else None.
Definition attach_horizontal (active : Rectangle) (tl bl : Point) (sz : Size) : option Point :=
  if contains_point active (translate (Dp (width sz) (height sz)) bl) then Some bl
  else if contains_point active (translate (Dp (width sz) (int32 (- height sz))) tl) then Some (translate (Dp 0 (int32 (- height sz))) tl)
  else None.
Definition attach (active aux : Rectangle) (edges : Z) (parent_top_left : Point) (sz : Size) : option Point :=
  let offset := Dp (px parent_top_left) (py parent_top_left) in
  let tl := translate offset (top_left aux) in
  let tr := translate offset (top_right aux) in
  let bl := translate offset (bottom_left aux) in
  let v := if Z.testbit edges 0 then attach_vertical active tl tr sz else None in
  let h := if Z.testbit edges 1 then attach_horizontal active tl bl sz else None in
  match h with Some p => Some p | None => v end.

(** Nothing else placed it: centred on the active display, or filling it. *)
Definition place_on_display (active : Rectangle) (area : Rectangle) (st : MirWindowState) (sz : Size) : Rectangle :=
  let centred := optically_centred (top_left active) (size active) sz in
  let r := match st with
    | state_fullscreen | state_maximized => active
    | state_vertmaximized => Rect (Pt (px centred) (py (top_left active))) (Sz (width sz) (height (size active)))
    | state_horizmaximized => Rect (Pt (px (top_left active)) (py centred)) (Sz (width (size active)) (height sz))
    | _ => Rect centred sz
    end in
  if py (top_left r) <? py (top_left area) then Rect (Pt (px (top_left r)) (py (top_left area))) (size r) else r.

Definition place_new_surface (sh : Answers) (s : WM) (session : Z) (p : CreationParameters) : outcome CreationParameters :=
  match p_type p with
  | None => Throw (runtime_error "Surface type must be provided")
  | Some t =>
      let st := default state_restored (p_state p) in
      let active := active_display s in
      let parent := lock s (p_parent p) in
      let parent_rect := match parent with Some w => rect <$> surfaces s !! w | None => None end in
      if placing_must_not_have_parent t && bool_decide (is_Some parent) then Throw (runtime_error "Surface type cannot have parent")
      else if placing_must_have_parent t && bool_decide (parent = None) then Throw (runtime_error "Surface type must have parent")
      else
        let r := Rect (p_top_left p) (p_size p) in
        (** the output, else the application's default surface *)
        let '(st, r, positioned) :=
          if bool_decide (p_output p ≠ 0) then (state_fullscreen, place_in_output sh (p_output p) r, true)
          else match parent, default_surface s session with
            | None, Some d =>
                match surfaces s !! d with
                | Some x =>
                    let tl := translate (Dp title_bar_height title_bar_height) (top_left (rect x)) in
                    (st, Rect tl (size r), overlaps (size_to_output sh (rect x)) (Rect tl (size r)))
                | None => (st, r, false)
                end
            | _, _ => (st, r, false)
            end in
        (** the parent *)
        let '(r, positioned) :=
          match parent_rect, p_aux_rect p, p_edge_attachment p with
          | Some pr, Some aux, Some edges =>
              match attach active aux edges (top_left pr) (p_size p) with
              | Some tl => (Rect tl (size r), true)
              | None => (r, positioned)
              end
          | Some pr, _, _ =>
              (** the size may be the output's by now, the saved height is the requested one *)
              (Rect (Pt (int_add (px (top_left pr)) (Z.quot (int_sub (width (size pr)) (width (size r))) 2))
                        (int_sub (int_add (py (top_left pr)) (Z.quot (int_sub (height (size pr)) (height (size r))) 2))
                           (Z.quot (int_sub (height (size pr)) (height (p_size p))) 6))) (size r), true)
          | None, _, _ => (r, positioned)
          end in
        Ret (with_place st (if positioned : bool then r else place_on_display active (display_area s) st (size r)) p)
  end.
Definition handle_place_new_surface (sh : Answers) (session : Z) (p : CreationParameters) : M CreationParameters :=
  let* s := pget in plift (place_new_surface sh s session p).

(** [SurfaceInfo{session, surface, params}]; the scene's surface is made with
    the placed parameters. *)
Definition new_info (session : Z) (x : SceneSurface) (p : CreationParameters) : SurfaceInfo :=
  let '(min_w, min_h, max_w, max_h) := p_limits p in
  mkInfo (attr_type x) (attr_state x) (rect x) session (p_parent p) [] min_w min_h max_w max_h
    (p_increments p).1 (p_increments p).2 (p_aspects p).1 (p_aspects p).2
    (if bool_decide (p_output p = 0) then None else Some (p_output p)) None.

(** A frame of a surface that can be active makes it active, once
    ([SurfaceReadyObserver]). *)
Definition handle_new_surface (session w : Z) : M unit :=
  let* info := info_for w in
  let* s := pget in
  do* match lock s (info_parent info) with
    | Some p => do* info_for p in update_info p (λ i, with_children (children i ++ [w]) i)
    | None => pret tt
    end in
  do* session_info_for session in
  do* pmodify (λ s, set_sessions (alter (λ l, l ++ [w]) session (session_info s)) s) in
  pwhen (bool_decide (info_state info = state_fullscreen)) (pmodify (λ s, set_fullscreen (fullscreen_surfaces s ∪ {[w]}) s)).

(** [build]: the session creates the surface. *)
Definition build (session : Z) (p : CreationParameters) : M Z :=
  let* s := pget in
  let w := next_surface s in
  let x := mkSurface session (Rect (p_top_left p) (p_size p)) true (default state_restored (p_state p)) (default type_normal (p_type p)) in
  do* pemit (Build w) in
  do* pput (set_next (w + 1) (set_surfaces (<[w := x]> (surfaces s)) s)) in
  pret w.

Definition add_surface (sh : Answers) (session : Z) (p : CreationParameters) : M Z :=
  let* placed := handle_place_new_surface sh session p in
  let* w := build session placed in
  let* x := surface_get w in
  do* pmodify (λ s, set_infos (<[w := new_info session x placed]> (surface_info s)) s) in
  do* handle_new_surface session w in
  pret w.

(** ** Changing and removing surfaces *)
Record Modifications := mkMods {
  m_parent : option (option Z);
  m_type : option MirWindowType;
  m_limits : option Z * option Z * option Z * option Z;
  m_increments : option Z * option Z;
  m_aspects : option AspectRatio * option AspectRatio;
  m_output : option Z;
  m_confine : option bool;
  m_name : bool;
  m_streams : bool;
  m_width : option Z;
  m_height : option Z;
  m_input_shape : option (list Rectangle);
  m_state : option MirWindowState
}.
Definition or_else {A} (o : option A) (d : option A) : option A := match o with Some _ => o | None => d end.
(** [COPY_IF_SET] *)
Definition copy_if_set (m : Modifications) (i : SurfaceInfo) : SurfaceInfo :=
  let '(min_w, min_h, max_w, max_h) := m_limits m in
  mkInfo (info_type i) (info_state i) (restore_rect i) (info_session i) (info_parent i) (children i)
    (default (min_width i) min_w) (default (min_height i) min_h) (default (max_width i) max_w) (default (max_height i) max_h)
    (or_else (m_increments m).1 (width_inc i)) (or_else (m_increments m).2 (height_inc i))
    (or_else (m_aspects m).1 (min_aspect i)) (or_else (m_aspects m).2 (max_aspect i))
    (or_else (m_output m) (info_output_id i)) (or_else (m_confine m) (confine_pointer i)).

Definition morph (w : Z) (m : Modifications) (i : SurfaceInfo) : M SurfaceInfo :=
  let parent := default (info_parent i) (m_parent m) in
  match m_type m with
  | Some t =>
      if bool_decide (t = info_type i) then pret (with_parent t parent i)
      else if negb (can_morph_to (info_type i) t) then pthrow (runtime_error "Unsupported surface type change")
      else if must_not_have_parent t then
        if bool_decide (is_Some (m_parent m)) then pthrow (runtime_error "Target surface type does not support parent")
        else do* configure_type w t in pret (with_parent t None i)
      else
        let* s := pget in
        if must_have_parent t && bool_decide (lock s parent = None) then pthrow (runtime_error "Target surface type requires parent")
        else do* configure_type w t in pret (with_parent t parent i)
  | None => pret (with_parent (info_type i) parent i)
  end.

Definition clip_input_shape (x : SceneSurface) (rects : list Rectangle) : list Rectangle :=
  let d := Dp (px (top_left (rect x))) (py (top_left (rect x))) in
  (λ r, let r := intersection_with (Rect (translate d (top_left r)) (size r)) (rect x) in
        Rect (point_move_back (top_left r) d) (size r)) <$> rects.

(** After [std::swap] the local [surface_info] holds the old values: those
    constrain the resize. *)
Definition handle_modify_surface (sh : Answers) (w : Z) (m : Modifications) : M unit :=
  let* old := info_for w in
  let* morphed := morph w m old in
  do* update_info w (λ _, copy_if_set m morphed) in
  do* pwhen (bool_decide (info_parent morphed ≠ info_parent old)) (pemit (Reparented w)) in
  do* pwhen (m_name m) (pemit (Rename w)) in
  do* pwhen (m_streams m) (pemit (ConfigureStreams w)) in
  do* pwhen (bool_decide (is_Some (m_width m) ∨ is_Some (m_height m)))
    (let* x := surface_get w in
     let new_size := Sz (default (width (size (rect x))) (m_width m)) (default (height (size (rect x))) (m_height m)) in
     let '(new_pos, new_size) := constrain_resize old (rect x) (top_left (rect x)) new_size false false in
     apply_resize w new_pos new_size) in
  do* match m_input_shape m with
    | Some rects => let* x := surface_get w in pemit (SetInputRegion w (clip_input_shape x rects))
    | None => pret tt
    end in
  do* match m_state m with
    | Some st => let* v := handle_set_state sh w st in configure_state w v
    | None => pret tt
    end in
  match m_confine m with Some c => pemit (SetConfinePointer w c) | None => pret tt end.

(** The first surface of the list that locks to the same as [w]. *)
Fixpoint erase_locked (s : WM) (w : Z) (l : list Z) : list Z :=
  match l with
  | [] => []
  | x :: l' => if bool_decide (lock s (Some w) = lock s (Some x)) then l' else x :: erase_locked s w l'
  end.

Definition destroy_surface (w : Z) : M unit :=
  do* pemit (DestroySurface w) in pmodify (λ s, set_surfaces (delete w (surfaces s)) s).

Definition focus_next_session (sh : Answers) : M unit :=
  do* pemit FocusNextSession in pmodify (set_focus (after_focus_next sh)).

Definition handle_delete_surface (sh : Answers) (session w : Z) : M unit :=
  do* pmodify (λ s, set_fullscreen (fullscreen_surfaces s ∖ {[w]}) s) in
  let* s := pget in
  let is_active := bool_decide (lock s (Some w) = active_surface s) in
  let* info := info_for w in
  do* match lock s (info_parent info) with
    | Some p =>
        do* info_for p in
        let* s := pget in update_info p (λ i, with_children (erase_locked s w (children i)) i)
    | None => pret tt
    end in
  do* destroy_surface w in
  do* session_info_for session in
  (** the caller still holds the surface *)
  do* pmodify (λ s', set_sessions (alter (erase_locked s w) session (session_info s')) s') in
  if is_active then
    do* pmodify (set_active None) in
    let* l := session_info_for session in
    match l with
    | [] => do* focus_next_session sh in let* s := pget in select_active (focused_surface s)
    | x :: _ => let* s := pget in select_active (lock s (Some x))
    end
  else pret tt.

Definition remove_surface (sh : Answers) (session w : Z) : M unit :=
  do* handle_delete_surface sh session w in
  pmodify (λ s, set_infos (delete w (surface_info s)) s).

(** ** Input *)
Definition KEY_TAB : Z := 15.
Definition KEY_GRAVE : Z := 41.
Definition KEY_F4 : Z := 62.
Definition KEY_F11 : Z := 87.
Definition modifier_alt : Z := Z.shiftl 1 1.
Definition modifier_shift : Z := Z.shiftl 1 4.
Definition modifier_sym : Z := Z.shiftl 1 7.
Definition modifier_ctrl : Z := Z.shiftl 1 9.
Definition modifier_meta : Z := Z.shiftl 1 12.
Definition modifier_mask : Z :=
  Z.lor modifier_alt (Z.lor modifier_shift (Z.lor modifier_sym (Z.lor modifier_ctrl modifier_meta))).

Definition policy_keyboard_event (sh : Answers) (down : bool) (scan_code modifiers : Z) : M bool :=
  let modifiers := Z.land modifiers modifier_mask in
  let* s := pget in
  if down && (scan_code =? KEY_F11) then
    if modifiers =? modifier_alt then do* toggle sh state_maximized in pret true
    else if modifiers =? modifier_shift then do* toggle sh state_vertmaximized in pret true
    else if modifiers =? modifier_ctrl then do* toggle sh state_horizmaximized in pret true
    else pret false
  else if down && (scan_code =? KEY_F4) then
    match focused_session s with
    | Some session =>
        if modifiers =? modifier_alt then do* pemit (KillSession session) in pret true
        else if modifiers =? modifier_ctrl then
          match default_surface s session with
          | Some w => do* pemit (RequestClose w) in pret true
          | None => pret false
          end
        else pret false
    | None => pret false
    end
  else if down && (modifiers =? modifier_alt) && (scan_code =? KEY_TAB) then
    do* focus_next_session sh in
    let* s := pget in
    do* match focused_surface s with Some w => select_active (Some w) | None => pret tt end in
    pret true
  else if down && (modifiers =? modifier_alt) && (scan_code =? KEY_GRAVE) then
    do* match focused_surface s, focused_session s with
      | Some prev, Some app => let* next := plift (surface_after s app prev) in select_active next
      | _, _ => pret tt
      end in
    pret true
  else pret false.

Inductive touch_action := touch_up | touch_down | touch_change.
#[export] Instance touch_action_eq_dec : EqDecision touch_action.
Proof. solve_decision. Defined.
(** [c] is the middle of the contacts. *)
Definition policy_touch_event (sh : Answers) (actions : list touch_action) (c : Point) : M bool :=
  if bool_decide (touch_up ∈ actions) then pret false
  else
    let* consumes :=
      if bool_decide (touch_down ∈ actions) then pret false
      else match length actions with
        | 4%nat => do* resize sh c in pret true
        | 3%nat => do* drag sh c in pret true
        | _ => pret false
        end in
    do* pmodify (set_old_cursor c) in
    pret consumes.

Inductive pointer_action := pointer_button_up | pointer_button_down | pointer_motion | pointer_other.
#[export] Instance pointer_action_eq_dec : EqDecision pointer_action.
Proof. solve_decision. Defined.
Definition policy_pointer_event (sh : Answers) (action : pointer_action) (modifiers : Z) (primary tertiary : bool) (c : Point) : M bool :=
  let modifiers := Z.land modifiers modifier_mask in
  let moving := bool_decide (action = pointer_motion) && (modifiers =? modifier_alt) in
  do* pwhen (bool_decide (action = pointer_button_down)) (click sh c) in
  do* pwhen (moving && primary) (drag sh c) in
  do* pwhen (moving && tertiary) (resize sh c) in
  let* s := pget in
  let resize_event := moving && tertiary && bool_decide (is_Some (lock s (active_surface_ s))) in
  do* pmodify (λ s, set_gesture c resize_event (left_resize s) (top_resize s) s) in
  pret (moving && (primary || tertiary)).

(** ** BasicWindowManager: the shell's calls *)
Definition add_session (session : Z) : M unit := pmodify (λ s, set_sessions (<[session := []]> (session_info s)) s).
Definition remove_session (session : Z) : M unit := pmodify (λ s, set_sessions (delete session (session_info s)) s).

(** [AbstractShell::close_session]: the surfaces it finds by going from one to
    the next, until it finds one again, are removed in the order of the set they
    are put into, that of their addresses; then the session. *)
Fixpoint surfaces_found (n : nat) (s : WM) (session : Z) (surface : option Z) (found : list Z) : outcome (list Z) :=
  match n, surface with
  | O, _ => Throw (undefined_behaviour "endless loop")
  | _, None => Ret found
  | S n', Some w =>
      if bool_decide (w ∈ found) then Ret found
      else let? next := surface_after s session w in surfaces_found n' s session next (found ++ [w])
  end.
Definition surfaces_to_close (s : WM) (session : Z) : outcome (list Z) :=
  surfaces_found (S (S (base.size (surfaces s)))) s session (default_surface s session) [].
Definition address_le (address : Z → Z) (a b : Z) : Prop := address a ≤ address b.
#[local] Instance address_le_dec address : RelDecision (address_le address).
Proof. intros a b. unfold address_le. apply _. Defined.
Definition by_address (address : Z → Z) (l : list Z) : list Z := merge_sort (address_le address) l.
Definition close_session (sh : Answers) (session : Z) (address : Z → Z) : M unit :=
  let* s := pget in
  let* surfaces := plift (surfaces_to_close s session) in
  do* pfor (by_address address surfaces) (λ w, remove_surface sh session w) in
  remove_session session.
(** [~ApplicationSession]: what surfaces are left go with the session, behind
    the manager's back. *)
Definition session_gone (session : Z) : M unit :=
  let* s := pget in
  pfor (session_surfaces s session) (λ w, do* pemit (SurfaceGone w) in pmodify (λ s, set_surfaces (delete w (surfaces s)) s)).

Definition add_display (sh : Answers) (area : Rectangle) : M unit :=
  do* pmodify (λ s, set_displays (rectangles_add (displays s) area) s) in handle_displays_updated sh.
Definition remove_display (sh : Answers) (area : Rectangle) : M unit :=
  do* pmodify (λ s, set_displays (rectangles_remove (displays s) area) s) in handle_displays_updated sh.

Definition handle_keyboard_event (sh : Answers) (time : Z) (down : bool) (scan_code modifiers : Z) : M bool :=
  do* pmodify (set_timestamp time) in policy_keyboard_event sh down scan_code modifiers.
Definition handle_touch_event (sh : Answers) (time : Z) (actions : list touch_action) (c : Point) : M bool :=
  do* pwhen (existsb (λ a, bool_decide (a ≠ touch_change)) actions) (pmodify (set_timestamp time)) in
  policy_touch_event sh actions c.
Definition handle_pointer_event (sh : Answers) (time : Z) (action : pointer_action) (modifiers : Z) (primary tertiary : bool) (c : Point)
    : M bool :=
  do* pwhen (bool_decide (action = pointer_button_up ∨ action = pointer_button_down)) (pmodify (set_timestamp time)) in
  do* pmodify (set_cursor c) in
  policy_pointer_event sh action modifiers primary tertiary c.

Definition handle_raise_surface (w : Z) (timestamp : Z) : M unit :=
  let* s := pget in pwhen (last_input_event_timestamp s <=? timestamp) (select_active (Some w)).

Definition set_window_state (sh : Answers) (w : Z) (value : MirWindowState) : M unit :=
  let* v := handle_set_state sh w value in configure_state w v.

(** ** The manager as a machine *)
Inductive wm_op :=
  | OpAddSession (session : Z)
  | OpCloseSession (sh : Answers) (session : Z) (address : Z → Z)
  | OpSessionGone (session : Z)
  | OpAddSurface (sh : Answers) (session : Z) (p : CreationParameters)
  | OpModify (sh : Answers) (w : Z) (m : Modifications)
  | OpRemoveSurface (sh : Answers) (session w : Z)
  | OpAddDisplay (sh : Answers) (area : Rectangle)
  | OpRemoveDisplay (sh : Answers) (area : Rectangle)
  | OpKeyboard (sh : Answers) (time : Z) (down : bool) (scan_code modifiers : Z)
  | OpTouch (sh : Answers) (time : Z) (actions : list touch_action) (c : Point)
  | OpPointer (sh : Answers) (time : Z) (action : pointer_action) (modifiers : Z) (primary tertiary : bool) (c : Point)
  | OpRaise (w timestamp : Z)
  | OpSetState (sh : Answers) (w : Z) (value : MirWindowState)
  | OpFirstFrame (w : Z)
  | OpShellFocus (session surface : option Z).

Definition wm_exec (op : wm_op) : M unit :=
  match op with
  | OpAddSession session => add_session session
  | OpCloseSession sh session address => close_session sh session address
  | OpSessionGone session => session_gone session
  | OpAddSurface sh session p => do* add_surface sh session p in pret tt
  | OpModify sh w m => handle_modify_surface sh w m
  | OpRemoveSurface sh session w => remove_surface sh session w
  | OpAddDisplay sh area => add_display sh area
  | OpRemoveDisplay sh area => remove_display sh area
  | OpKeyboard sh time down code modifiers => do* handle_keyboard_event sh time down code modifiers in pret tt
  | OpTouch sh time actions c => do* handle_touch_event sh time actions c in pret tt
  | OpPointer sh time action modifiers primary tertiary c =>
      do* handle_pointer_event sh time action modifiers primary tertiary c in pret tt
  | OpRaise w timestamp => handle_raise_surface w timestamp
  | OpSetState sh w value => set_window_state sh w value
  | OpFirstFrame w => select_active (Some w)
  | OpShellFocus session surface => pmodify (set_focus (session, surface))
  end.

(** The shell names surfaces and parents that exist or existed, and a surface's
    own session. *)
Definition wm_allowed (s : WM) (_ : list wm_obs) (op : wm_op) : bool :=
  match op with
  | OpAddSurface _ _ p => match p_parent p with Some q => q <? next_surface s | None => true end
  | OpRemoveSurface _ session w => match surfaces s !! w with Some x => bool_decide (owner x = session) | None => false end
  | OpModify _ w _ | OpRaise w _ | OpSetState _ w _ | OpFirstFrame w => alive s w
  | _ => true
  end.
Definition empty_wm : WM :=
  mkWM ∅ (None, None) 1 ∅ ∅ [] point0 0 None ∅ rectangle0 point0 false false false.
Definition wm_machine : machine := Machine WM wm_op wm_obs (λ s, s = empty_wm) wm_allowed wm_exec.

(** ** The window tree *)
Definition child_of (infos : gmap Z SurfaceInfo) (p c : Z) : Prop := ∃ i, infos !! p = Some i ∧ c ∈ children i.

(** The windows given another parent or destroyed with their session: the lists
    of children know nothing of it. *)
Definition disturbed (h : list wm_obs) : gset Z :=
  list_to_set (omap (λ o, match o with Reparented w | SurfaceGone w => Some w | _ => None end) h).

Record tree_ok (infos : gmap Z SurfaceInfo) : Prop := {
  t_older : ∀ p c, child_of infos p c → p < c;
  t_nodup : ∀ p i, infos !! p = Some i → NoDup (children i);
  t_one : ∀ p q c, child_of infos p c → child_of infos q c → p = q
}.
(** [D]: the windows disturbed so far. *)
Record wm_ok (s : WM) (D : gset Z) : Prop := {
  w_tree : tree_ok (surface_info s);
  w_dom : dom (surfaces s) ⊆ dom (surface_info s);
  w_next : ∀ w, w ∈ dom (surface_info s) → w < next_surface s;
  w_children : ∀ p c, child_of (surface_info s) p c → c < next_surface s;
  w_listed : ∀ p c, c ∉ D → p ∈ dom (surfaces s) → child_of (surface_info s) p c →
    c ∈ dom (surfaces s) ∧ ∃ j, surface_info s !! c = Some j ∧ info_parent j = Some p;
  w_parent : ∀ c j p, c ∉ D → c ∈ dom (surfaces s) → surface_info s !! c = Some j → info_parent j = Some p →
    p < c ∧ (p ∈ dom (surfaces s) → child_of (surface_info s) p c)
}.
Lemma wm_ok_mono s D D' : D ⊆ D' → wm_ok s D → wm_ok s D'.
Proof. intros HD [H1 H2 H3 H4 H5 H6]. split; [done..| |]; intros; [apply H5|eapply H6]; eauto; set_solver. Qed.
Lemma disturbed_app h tr : disturbed (h ++ tr) = disturbed h ∪ disturbed tr.
Proof. unfold disturbed. by rewrite omap_app, list_to_set_app_L. Qed.

(** Everything the invariant reads. *)
Definition skeleton (s : WM) : gset Z * Z * gmap Z (option Z * list Z) :=
  (dom (surfaces s), next_surface s, (λ i, (info_parent i, children i)) <$> surface_info s).
Definition keeps_skeleton (k : gset Z * Z * gmap Z (option Z * list Z)) (s : WM) (h : list wm_obs) : Prop := skeleton s = k.

(** *** Programs that leave the skeleton alone *)
Section skeleton.
Context (k : gset Z * Z * gmap Z (option Z * list Z)).
#[local] Abbreviation keeps m := (preserves (keeps_skeleton k) m).

Lemma keeps_emit o : keeps (pemit o).
Proof. by apply preserves_emit. Qed.
Lemma keeps_modify f : (∀ s, skeleton (f s) = skeleton s) → keeps (pmodify f).
Proof. intros Hf. apply preserves_modify. intros s h <-. apply Hf. Qed.
Lemma keeps_get_bind {A} (f : WM → M A) : (∀ s, keeps (f s)) → keeps (pbind pget f).
Proof. intros Hf. apply preserves_bind; [apply preserves_get|done]. Qed.
Lemma keeps_lift {A} (o : outcome A) : keeps (plift o).
Proof. intros s h Hs. unfold plift. cbn. by rewrite app_nil_r. Qed.

Lemma keeps_surface_do w f : keeps (surface_do w f).
Proof.
  intros s h Hs. unfold surface_do. rewrite pbind_get. destruct (surfaces s !! w) as [x|] eqn:Hx; cbn; rewrite app_nil_r; [|done].
  rewrite <- Hs. unfold keeps_skeleton, skeleton. cbn. f_equal. f_equal. apply dom_insert_lookup_L. by eexists.
Qed.
Lemma keeps_surface_get w : keeps (surface_get w).
Proof. intros s h Hs. unfold surface_get. rewrite pbind_get. destruct (surfaces s !! w); cbn; by rewrite app_nil_r. Qed.
Lemma keeps_info_for w : keeps (info_for w).
Proof. intros s h Hs. unfold info_for. rewrite pbind_get. destruct (surface_info s !! w); cbn; by rewrite app_nil_r. Qed.
Lemma keeps_session_info_for w : keeps (session_info_for w).
Proof. intros s h Hs. unfold session_info_for. rewrite pbind_get. destruct (session_info s !! w); cbn; by rewrite app_nil_r. Qed.
Lemma keeps_update_info w f :
  (∀ i, info_parent (f i) = info_parent i ∧ children (f i) = children i) → keeps (update_info w f).
Proof.
  intros Hf. apply keeps_modify. intros s. unfold skeleton. cbn. f_equal. apply map_eq. intros j.
  rewrite !lookup_fmap. destruct (decide (j = w)) as [->|Hj].
  - rewrite lookup_alter_eq. destruct (surface_info s !! w) as [i|]; cbn; [|done]. by destruct (Hf i) as [-> ->].
  - by rewrite lookup_alter_ne.
Qed.
End skeleton.

(** Solves a program by its branches; the lemmas on the programs it calls are
    in the context. *)
Ltac keep_skeleton :=
  repeat match goal with
    | |- preserves _ (pret _) => apply preserves_ret
    | |- preserves _ (pthrow _) => apply preserves_throw
    | |- preserves _ (pwhen _ _) => apply preserves_when
    | |- preserves _ (pemit _) => apply keeps_emit
    | |- preserves _ (plift _) => apply keeps_lift
    | |- preserves _ (pmodify _) => apply keeps_modify; intros ?; reflexivity
    | |- preserves _ (update_info _ _) => apply keeps_update_info; intros ?; split; reflexivity
    | |- preserves _ (surface_do _ _) => apply keeps_surface_do
    | |- preserves _ (surface_get _) => apply keeps_surface_get
    | |- preserves _ (info_for _) => apply keeps_info_for
    | |- preserves _ (session_info_for _) => apply keeps_session_info_for
    | |- preserves _ (pbind pget _) => apply keeps_get_bind; intros ?
    | |- preserves _ (pbind _ _) => apply preserves_bind; [|intros ?]
    | |- preserves _ (pfor _ _) => apply preserves_for; intros ? ?
    | |- preserves _ (let '(_, _) := ?x in _) => destruct x
    | |- preserves _ (match ?x with _ => _ end) => destruct x
    | H : ∀ _, _ |- _ => solve [apply H]
    end.

Section keeps.
Context (k : gset Z * Z * gmap Z (option Z * list Z)).
#[local] Abbreviation keeps m := (preserves (keeps_skeleton k) m).

Lemma keeps_move_tree n root d : keeps (move_tree n root d).
Proof. revert root. induction n as [|n IH]; intros root; cbn [move_tree]; unfold move_to; keep_skeleton. Qed.
Lemma keeps_move_tree_of root d : keeps (move_tree_of root d).
Proof. unfold move_tree_of. pose proof keeps_move_tree. keep_skeleton. Qed.
Lemma keeps_select_active w : keeps (select_active w).
Proof.
  unfold select_active. apply keeps_get_bind. intros s. generalize (depth s) as n. intros n. revert w.
  induction n as [|n IH]; intros w; cbn [select_active_surface]; unfold set_focus_to, raise_tree; keep_skeleton.
Qed.
Lemma keeps_set_state sh w v : keeps (handle_set_state sh w v).
Proof.
  unfold handle_set_state, surface_resize, set_shown. pose proof keeps_move_tree_of. keep_skeleton.
Qed.
Lemma keeps_apply_resize w p sz : keeps (apply_resize w p sz).
Proof. unfold apply_resize, surface_resize. pose proof keeps_move_tree_of. keep_skeleton. Qed.
Lemma keeps_click sh c : keeps (click sh c).
Proof. unfold click. pose proof keeps_select_active. keep_skeleton. Qed.
Lemma keeps_drag sh c : keeps (drag sh c).
Proof. unfold drag, drag_surface. pose proof keeps_select_active. pose proof keeps_move_tree_of. keep_skeleton. Qed.
Lemma keeps_resize sh c : keeps (resize sh c).
Proof. unfold resize, resize_surface. pose proof keeps_select_active. pose proof keeps_apply_resize. keep_skeleton. Qed.
Lemma keeps_displays_updated sh : keeps (handle_displays_updated sh).
Proof. unfold handle_displays_updated, move_to, surface_resize. keep_skeleton. Qed.
Lemma keeps_toggle sh st : keeps (toggle sh st).
Proof. unfold toggle, configure_state. pose proof keeps_set_state. keep_skeleton. Qed.
Lemma keeps_keyboard sh down code modifiers : keeps (policy_keyboard_event sh down code modifiers).
Proof.
  unfold policy_keyboard_event, focus_next_session. pose proof keeps_toggle. pose proof keeps_select_active. keep_skeleton.
Qed.
Lemma keeps_touch sh actions c : keeps (policy_touch_event sh actions c).
Proof. unfold policy_touch_event. pose proof keeps_drag. pose proof keeps_resize. keep_skeleton. Qed.
Lemma keeps_pointer sh action modifiers primary tertiary c : keeps (policy_pointer_event sh action modifiers primary tertiary c).
Proof.
  unfold policy_pointer_event. pose proof keeps_click. pose proof keeps_drag. pose proof keeps_resize. keep_skeleton.
Qed.
End keeps.

(** ** The invariant *)
Lemma skeleton_lookup s s' w :
  skeleton s' = skeleton s →
  ∀ i', surface_info s' !! w = Some i' →
  ∃ i, surface_info s !! w = Some i ∧ info_parent i = info_parent i' ∧ children i = children i'.
Proof.
  intros Hk i' Hi'. unfold skeleton in Hk.
  assert ((λ i, (info_parent i, children i)) <$> (surface_info s' !! w) =
    (λ i, (info_parent i, children i)) <$> (surface_info s !! w)) as Hw by (rewrite <- !lookup_fmap; congruence).
  rewrite Hi' in Hw. destruct (surface_info s !! w) as [i|]; [|done]. cbn in Hw. injection Hw as -> ->. by exists i.
Qed.
Lemma wm_ok_skeleton s s' D : skeleton s' = skeleton s → wm_ok s D → wm_ok s' D.
Proof.
  intros Hk [[Ho Hn Hone] Hd Hx Hc Hl Hp]. pose proof (λ w, skeleton_lookup s s' w Hk) as Hto.
  pose proof (λ w, skeleton_lookup s' s w (eq_sym Hk)) as Hfrom.
  assert (dom (surfaces s') = dom (surfaces s) ∧ next_surface s' = next_surface s) as [Hds Hns] by (unfold skeleton in Hk; by simplify_eq).
  assert (dom (surface_info s') = dom (surface_info s)) as Hdi.
  { apply set_eq. intros w. rewrite !elem_of_dom. split; intros [i Hi]; [destruct (Hto w i Hi) as (j & -> & _)|destruct (Hfrom w i Hi) as (j & -> & _)]; done. }
  assert (∀ p c, child_of (surface_info s') p c ↔ child_of (surface_info s) p c) as Hch.
  { intros p c. split; intros (i & Hi & Hin); [destruct (Hto p i Hi) as (j & Hj & _ & He)|destruct (Hfrom p i Hi) as (j & Hj & _ & He)];
      exists j; (split; [done|]); congruence. }
  split; [split| | | | |]; rewrite ?Hds, ?Hns, ?Hdi; try done.
  - intros p c. rewrite Hch. apply Ho.
  - intros p i Hi. destruct (Hto p i Hi) as (j & Hj & _ & <-). by eapply Hn.
  - intros p q c. rewrite !Hch. apply Hone.
  - intros p c. rewrite Hch. apply Hc.
  - intros p c HD Hpd Hpc%Hch. destruct (Hl p c HD Hpd Hpc) as (? & j & Hj & Hjp). split; [done|].
    destruct (Hfrom c j Hj) as (j' & ? & ? & _). exists j'. split; [done|congruence].
  - intros c j p HD Hcd Hj Hpj. destruct (Hto c j Hj) as (i & Hi & He & _). rewrite Hch. apply (Hp c i p); [done..|congruence].
Qed.
Lemma wm_ok_keeps {A} (m : M A) s D : (∀ k, preserves (keeps_skeleton k) m) → wm_ok s D → wm_ok (post (m s)) D.
Proof. intros Hm Hs. apply (wm_ok_skeleton s); [|done]. by apply (Hm (skeleton s) s []). Qed.

(** *** The tree below a window *)
Section tree.
Context (infos : gmap Z SurfaceInfo) (Htree : tree_ok infos).
#[local] Abbreviation below := (rtc (child_of infos)).

Lemma below_older p x : below p x → p ≤ x.
Proof. induction 1 as [|p c x Hlt%(t_older _ Htree) _ IH]; lia. Qed.
Lemma below_parent p c x : child_of infos p c → below x c → x = c ∨ below x p.
Proof.
  intros Hpc Hx. apply rtc_inv_r in Hx as [->|(q & Hx & Hqc)]; [by left|]. right. by rewrite (t_one _ Htree p q c Hpc Hqc).
Qed.
(** Two windows above a third are above one another. *)
Lemma below_comparable p q x : below p x → below q x → below p q ∨ below q p.
Proof.
  intros Hp Hq. revert Hq. induction Hp as [x|p c x Hpc Hcx IH]; intros Hq; [by right|].
  destruct (IH Hq) as [Hcq|Hqc]; [left; by eapply rtc_l|].
  destruct (below_parent p c q Hpc Hqc) as [->|?]; [left; by apply rtc_once|by right].
Qed.
Lemma siblings_disjoint p c1 c2 x :
  child_of infos p c1 → child_of infos p c2 → below c1 x → below c2 x → c1 = c2.
Proof.
  assert (∀ a b, child_of infos p a → child_of infos p b → below a b → a = b) as Hab.
  { intros a b Ha Hb Hbelow. destruct (below_parent p b a Hb Hbelow) as [?|Hap]; [done|].
    apply below_older in Hap. apply (t_older _ Htree) in Ha. lia. }
  intros H1 H2 Hx1 Hx2. destruct (below_comparable c1 c2 x Hx1 Hx2); [by apply Hab|]. symmetry. by apply Hab.
Qed.

(** The windows made later than [w] bound the depth below it. *)
Definition later (w : Z) : gset Z := filter (λ x, w < x) (dom infos).
Lemma later_child p c : child_of infos p c → is_Some (infos !! c) → (base.size (later c) < base.size (later p))%nat.
Proof.
  intros Hpc Hc. apply (t_older _ Htree) in Hpc as Hlt.
  apply subset_size. unfold later. split.
  - intros x. rewrite !elem_of_filter. intros [? ?]. split; [lia|done].
  - intros Hsub. specialize (Hsub c). rewrite !elem_of_filter in Hsub. apply elem_of_dom in Hc. specialize (Hsub (conj Hlt Hc)). lia.
Qed.

Lemma omapM_ret_in {A B} (f : A → outcome B) (P : A → B → Prop) l :
  (∀ x, x ∈ l → ∃ y, f x = Ret y ∧ P x y) → ∃ ys, omapM f l = Ret ys ∧ Forall2 P l ys.
Proof.
  induction l as [|x l IH]; intros Hl; cbn; [by exists []; split; [|constructor]|].
  destruct (Hl x ltac:(left)) as (y & -> & Hy). destruct IH as (ys & -> & Hys); [intros; apply Hl; by right|].
  exists (y :: ys). by split; [|constructor].
Qed.

Lemma subtree_ok n w :
  (∀ x, below w x → is_Some (infos !! x)) → (base.size (later w) < n)%nat →
  ∃ l, subtree n infos w = Ret l ∧ NoDup l ∧ ∀ x, x ∈ l ↔ below w x.
Proof.
  revert w. induction n as [|n IH]; intros w Hall Hn; [lia|]. cbn [subtree]. destruct (Hall w) as [i Hi]; [done|]. rewrite Hi.
  assert (∀ c, c ∈ children i → child_of infos w c) as Hch by (intros c Hc; by exists i).
  destruct (omapM_ret_in (subtree n infos) (λ c l, NoDup l ∧ ∀ x, x ∈ l ↔ below c x) (children i)) as (ls & -> & Hls).
  { intros c Hc%Hch. apply IH; [intros x Hx; apply Hall; by eapply rtc_l|].
    pose proof (later_child w c Hc (Hall c (rtc_once _ _ Hc))). lia. }
  cbn. exists (w :: concat ls). split; [done|].
  assert (∀ cs ls, Forall2 (λ c l, NoDup l ∧ ∀ x, x ∈ l ↔ below c x) cs ls → ∀ x, x ∈ concat ls ↔ ∃ c, c ∈ cs ∧ below c x) as Hconcat.
  { clear. induction 1 as [|c l cs ls [_ Hl] _ IH]; intros x; cbn.
    - split; [by intros ?%elem_of_nil|by intros (? & ?%elem_of_nil & _)].
    - rewrite elem_of_app, Hl, IH. setoid_rewrite elem_of_cons. naive_solver. }
  split.
  - apply NoDup_cons. split.
    + rewrite (Hconcat _ _ Hls). intros (c & Hc%Hch & Hb%below_older). apply (t_older _ Htree) in Hc. lia.
    + pose proof (t_nodup _ Htree w i Hi) as Hnd. revert Hnd Hch. clear -Hls Hconcat Htree.
      induction Hls as [|c l cs ls [Hl Hin] Hls IH]; cbn; [constructor|]. intros [Hc Hnd]%NoDup_cons Hch.
      apply NoDup_app. split; [done|]. split; [|apply IH; [done|]; intros; apply Hch; by right].
      intros x Hx%Hin. rewrite (Hconcat _ _ Hls). intros (c' & Hc' & Hx').
      assert (c = c') as ->; [|done].
      eapply (siblings_disjoint w); [apply Hch; left|apply Hch; by right|done|done].
  - intros x. rewrite elem_of_cons, (Hconcat _ _ Hls). split.
    + intros [->|(c & Hc & Hb)]; [done|]. eapply rtc_l; [by apply Hch|done].
    + intros Hb. apply rtc_inv in Hb as [->|(c & (i' & Hi' & Hc) & Hb)]; [by left|]. right. exists c. split; [congruence|done].
Qed.
End tree.

(** *** Moving a tree *)
Definition shifted (d : Displacement) (x : SceneSurface) : SceneSurface :=
  mkSurface (owner x) (Rect (translate d (top_left (rect x))) (size (rect x))) (shown x) (attr_state x) (attr_type x).
Definition shift_all (d : Displacement) (l : list Z) (m : gmap Z SceneSurface) : gmap Z SceneSurface :=
  foldl (λ m w, alter (shifted d) w m) m l.
Definition moved (d : Displacement) (l : list Z) (s : WM) : WM := set_surfaces (shift_all d l (surfaces s)) s.

Lemma moved_app d l1 l2 s : moved d (l1 ++ l2) s = moved d l2 (moved d l1 s).
Proof. unfold moved, shift_all. by rewrite foldl_app. Qed.
Lemma dom_shift_all d l m : dom (shift_all d l m) = dom m.
Proof. revert m. induction l as [|w l IH]; intros m; cbn; [done|]. unfold shift_all in IH. by rewrite IH, dom_alter_L. Qed.
Lemma shift_all_lookup d l m w :
  NoDup l → shift_all d l m !! w = if bool_decide (w ∈ l) then shifted d <$> m !! w else m !! w.
Proof.
  revert m. induction l as [|v l IH]; intros m; cbn; [by rewrite bool_decide_false by by intros ?%elem_of_nil|].
  intros [Hv Hnd]%NoDup_cons. unfold shift_all in IH. rewrite IH by done.
  destruct (decide (w = v)) as [->|Hne].
  - rewrite bool_decide_false, bool_decide_true by (done || left). by rewrite lookup_alter_eq.
  - rewrite lookup_alter_ne by done. assert (w ∈ l ↔ w ∈ v :: l) as Hiff by (rewrite elem_of_cons; naive_solver).
    destruct (bool_decide_reflect (w ∈ l)); [by rewrite bool_decide_true by tauto|by rewrite bool_decide_false by tauto].
Qed.

Lemma lock_alive s w : w ∈ dom (surfaces s) → lock s (Some w) = Some w.
Proof. rewrite elem_of_dom. unfold lock, alive. intros Hw. by rewrite bool_decide_true. Qed.

Section moving.
Context (infos : gmap Z SurfaceInfo) (d : Displacement).

Lemma move_tree_run n w s l :
  subtree n infos w = Ret l → surface_info s = infos → (∀ x, x ∈ l → x ∈ dom (surfaces s)) →
  move_tree n (Some w) d s = Run (Ret tt) (moved d l s) [].
Proof.
  revert w s l. induction n as [|n IH]; intros w s l Hl Hs Hd; [done|]. cbn [subtree] in Hl.
  destruct (infos !! w) as [i|] eqn:Hi; [|done].
  destruct (omapM (subtree n infos) (children i)) as [ls|] eqn:Hls; cbn in Hl; [|done]. injection Hl as <-.
  assert (is_Some (surfaces s !! w)) as [x Hx] by (apply elem_of_dom, Hd; left).
  cbn [move_tree].
  assert (surface_get w s = Run (Ret x) s []) as Hget by (unfold surface_get; by rewrite pbind_get, Hx).
  rewrite (pbind_silent _ _ _ _ _ Hget).
  assert (move_to w (translate d (top_left (rect x))) s = Run (Ret tt) (moved d [w] s) []) as Hmove.
  { unfold move_to, surface_do, moved, shift_all. rewrite pbind_get, Hx. cbn [foldl].
    unfold pput. f_equal. f_equal. apply map_eq. intros v.
    destruct (decide (v = w)) as [->|]; [by rewrite lookup_insert_eq, lookup_alter_eq, Hx|].
    by rewrite lookup_insert_ne, lookup_alter_ne. }
  rewrite (pbind_silent _ _ _ _ _ Hmove).
  assert (info_for w (moved d [w] s) = Run (Ret i) (moved d [w] s) []) as Hinfo by (unfold info_for; rewrite pbind_get; cbn; by rewrite Hs, Hi).
  rewrite (pbind_silent _ _ _ _ _ Hinfo). change (w :: concat ls) with ([w] ++ concat ls).
  rewrite moved_app. assert (surface_info (moved d [w] s) = infos) as Hs' by done.
  assert (∀ x, x ∈ concat ls → x ∈ dom (surfaces (moved d [w] s))) as Hd' by (intros y Hy; cbn; rewrite dom_alter_L; apply Hd; by right).
  clear Hget Hmove Hinfo Hx. generalize dependent (moved d [w] s). clear Hi Hs Hd.
  revert ls Hls. induction (children i) as [|c cs IHc]; intros ls Hls s' Hs' Hd'; cbn in Hls; cbn [pfor].
  { injection Hls as <-. cbn. unfold moved. cbn. by destruct s'. }
  destruct (subtree n infos c) as [l1|] eqn:Hl1; cbn in Hls; [|done].
  destruct (omapM (subtree n infos) cs) as [ls'|] eqn:Hls'; cbn in Hls; [|done]. injection Hls as <-. cbn [concat].
  cbn [concat] in Hd'.
  rewrite moved_app. assert (c ∈ dom (surfaces s')) as Hc.
  { apply Hd', elem_of_app. left. destruct n; [done|]. cbn in Hl1. destruct (infos !! c); [|done].
    match type of Hl1 with context [omapM ?f ?k] => destruct (omapM f k) as [l0|] end; cbn in Hl1; [|done]. injection Hl1 as <-. left. }
  rewrite pbind_assoc, pbind_get, lock_alive by done.
  rewrite (pbind_silent _ _ _ _ _ (IH c s' l1 Hl1 Hs' ltac:(intros y Hy; apply Hd', elem_of_app; by left))).
  apply (IHc ls' eq_refl); [done|]. intros y Hy. cbn. rewrite dom_shift_all. apply Hd', elem_of_app. by right.
Qed.
End moving.

Lemma tree_list s w :
  tree_ok (surface_info s) → (∀ x, rtc (child_of (surface_info s)) w x → is_Some (surface_info s !! x)) →
  ∃ l, subtree (depth s) (surface_info s) w = Ret l ∧ NoDup l ∧ ∀ x, x ∈ l ↔ rtc (child_of (surface_info s)) w x.
Proof.
  intros Ht Hw. apply subtree_ok; [done|done|]. unfold depth, later. apply Nat.lt_succ_r.
  rewrite <- size_dom. apply subseteq_size. set_solver.
Qed.
(** Nothing happened to the windows of a tree: all of them are there. *)
Definition untouched (D : gset Z) (s : WM) (w : Z) : Prop := ∀ x, rtc (child_of (surface_info s)) w x → x ∉ D.
Lemma untouched_alive D s w :
  wm_ok s D → w ∈ dom (surfaces s) → untouched D s w → ∀ x, rtc (child_of (surface_info s)) w x → x ∈ dom (surfaces s).
Proof.
  intros Hs Hw Hu x Hx. revert Hw Hu. induction Hx as [|p c x Hpc Hcx IH]; intros Hw Hu; [done|]. apply IH.
  - apply (w_listed _ _ Hs p c); [|done|done]. apply Hu. by apply rtc_once.
  - intros y Hy. apply Hu. by eapply rtc_l.
Qed.
Lemma untouched_tree D s w :
  wm_ok s D → w ∈ dom (surfaces s) → untouched D s w →
  ∃ l, subtree (depth s) (surface_info s) w = Ret l ∧ NoDup l ∧ (∀ x, x ∈ l ↔ rtc (child_of (surface_info s)) w x) ∧
    ∀ x, x ∈ l → x ∈ dom (surfaces s).
Proof.
  intros Hs Hw Hu. pose proof (untouched_alive D s w Hs Hw Hu) as Hal. destruct (tree_list s w (w_tree _ _ Hs)) as (l & Hl & Hnd & Hin).
  - intros x Hx%Hal%(w_dom _ _ Hs). by apply elem_of_dom.
  - exists l. split_and!; [done..|]. intros x Hx%Hin. by apply Hal.
Qed.
Lemma raise_tree_run s w l :
  subtree (depth s) (surface_info s) w = Ret l → raise_tree w s = Run (Ret tt) s [RaiseSurfaces (list_to_set l)].
Proof. intros Hl. unfold raise_tree. by rewrite pbind_get, pbind_plift, Hl. Qed.
Lemma move_tree_of_run s w l d :
  subtree (depth s) (surface_info s) w = Ret l → (∀ x, x ∈ l → x ∈ dom (surfaces s)) →
  move_tree_of w d s = Run (Ret tt) (moved d l s) [].
Proof.
  intros Hl Hd. unfold move_tree_of. rewrite pbind_get. by apply (move_tree_run (surface_info s) d).
Qed.

(** *** Choosing the window to focus *)
Definition parent_of (s : WM) (c p : Z) : Prop :=
  ∃ i, surface_info s !! c = Some i ∧ info_parent i = Some p ∧ p ∈ dom (surfaces s).
Definition may_be_active (s : WM) (w : Z) : Prop :=
  ∃ i, surface_info s !! w = Some i ∧ can_be_active (info_type i) = true.
(** The first of the window and its ancestors that can have the focus. *)
Definition nearest_active (s : WM) (w a : Z) : Prop :=
  rtc (parent_of s) w a ∧ may_be_active s a ∧ ∀ x, rtc (parent_of s) w x → rtc (parent_of s) x a → x ≠ a → ¬ may_be_active s x.

Definition live_session (s : WM) (session : Z) : option Z :=
  if bool_decide (is_Some (session_info s !! session)) then Some session else None.

Lemma select_active_run n w s :
  (∀ x p, rtc (parent_of s) w x → parent_of s x p → p < x) →
  (∀ x, rtc (parent_of s) w x → ∃ l, subtree (depth s) (surface_info s) x = Ret l) →
  dom (surfaces s) ⊆ dom (surface_info s) → w ∈ dom (surface_info s) →
  (base.size (filter (λ x : Z, (x < w)%Z) (dom (surface_info s))) < n)%nat →
  (∃ a l i, nearest_active s w a ∧ surface_info s !! a = Some i ∧ subtree (depth s) (surface_info s) a = Ret l ∧
     select_active_surface n (Some w) s =
       Run (Ret tt) (set_active (Some a) (set_focus (live_session s (info_session i), Some a) s))
         [SetFocusTo (live_session s (info_session i)) (Some a); RaiseSurfaces (list_to_set l)]) ∨
  ((∀ x, rtc (parent_of s) w x → ¬ may_be_active s x) ∧ select_active_surface n (Some w) s = Run (Ret tt) s []).
Proof.
  intros Hup Hdown Hsub. revert w Hup Hdown. induction n as [|n IH]; intros w Hup Hdown [i Hi]%elem_of_dom Hn; [lia|]. cbn [select_active_surface].
  assert (∀ a, rtc (parent_of s) w a → a ≤ w) as Holder.
  { clear -Hup. intros a Ha. induction Ha as [|c p a Hcp Hpa IH]; [done|].
    assert (p < c) by (by apply Hup). assert (a ≤ p); [|lia]. apply IH. intros x q Hx Hq. apply Hup; [by eapply rtc_l|done]. }
  assert (info_for w s = Run (Ret i) s []) as Hinfo by (unfold info_for; by rewrite pbind_get, Hi).
  rewrite (pbind_silent _ _ _ _ _ Hinfo). destruct (can_be_active (info_type i)) eqn:Hc.
  - left. destruct (Hdown w) as (l & Hl); [done|]. exists w, l, i.
    split; [|split; [done|split; [done|]]].
    + split; [done|]. split; [by exists i|]. intros x Hwx Hxw Hne. exfalso.
      pose proof (Holder x Hwx). assert (w ≤ x); [|lia]. clear -Hup Hwx Hxw.
      revert Hwx. induction Hxw as [|c p a Hcp _ IH]; intros Hwx; [done|].
      assert (p < c) by (by apply Hup). assert (a ≤ p); [|lia]. apply IH; [done|]. by eapply rtc_r.
    + rewrite pbind_get. unfold set_focus_to. rewrite pbind_assoc, pbind_emit, pbind_modify. cbn [value post trace].
      fold (live_session s (info_session i)). set (s' := set_focus _ s).
      assert (raise_tree w s' = Run (Ret tt) s' [RaiseSurfaces (list_to_set l)]) as Hr by (by apply raise_tree_run).
      by rewrite (pbind_run _ (λ _, pmodify (set_active (Some w))) _ _ _ _ _ Hr eq_refl).
  - rewrite pbind_get. destruct (lock s (info_parent i)) as [p|] eqn:Hlock.
    + assert (parent_of s w p) as Hp.
      { unfold lock, alive in Hlock. destruct (info_parent i) as [q|] eqn:Hq; [|done]. case_bool_decide; [|done].
        injection Hlock as ->. exists i. split; [done|]. split; [done|]. by apply elem_of_dom. }
      assert (p < w) as Hlt by by apply Hup.
      assert (p ∈ dom (surface_info s)) as Hpin by (apply Hsub; by destruct Hp as (? & _ & _ & ?)).
      assert (∀ x, rtc (parent_of s) w x → x = w ∨ rtc (parent_of s) p x) as Hvia.
      { intros x Hx. apply rtc_inv in Hx as [->|(q & (j & Hj & Hq & Hqd) & Hx)]; [by left|]. right.
        destruct Hp as (j' & Hj' & Hp' & _). congruence. }
      assert (¬ may_be_active s w) as Hnw by (intros (j & Hj & Hcj); congruence).
      destruct (IH p) as [(a & l & j & (Hpa & Ha & Hno) & Hrest)|[Hno Hrun]].
      { intros x q Hx. apply Hup. by eapply rtc_l. }
      { intros x Hx. apply Hdown. by eapply rtc_l. }
      { done. }
      { assert (filter (λ x : Z, (x < p)%Z) (dom (surface_info s)) ⊂ filter (λ x : Z, (x < w)%Z) (dom (surface_info s))) as Hss.
        { split; [intros x; rewrite !elem_of_filter; intros [? ?]; split; [lia|done]|].
          intros Hs. specialize (Hs p). rewrite !elem_of_filter in Hs. specialize (Hs (conj Hlt Hpin)). lia. }
        apply subset_size in Hss. lia. }
      * left. exists a, l, j. split; [|exact Hrest]. split; [by eapply rtc_l|]. split; [done|].
        intros x [->|Hx]%Hvia Hxa Hne; [done|]. by apply Hno.
      * right. split; [|done]. intros x [->|Hx]%Hvia; [done|by apply Hno].
    + right. split; [|done]. intros x Hx (j & Hj & Hcj). apply rtc_inv in Hx as [->|(q & (j' & Hj' & Hq & Hqd) & _)]; [congruence|].
      assert (j' = i) as -> by congruence. rewrite Hq, (lock_alive s q Hqd) in Hlock. done.
Qed.

(** *** Adding a window *)
Lemma place_parent sh s session p p' : place_new_surface sh s session p = Ret p' → p_parent p' = p_parent p.
Proof. unfold place_new_surface. intros Hp. repeat case_match; simplify_eq/=; done. Qed.

Definition adopt (s : WM) (w : Z) (i : SurfaceInfo) : gmap Z SurfaceInfo :=
  match lock s (info_parent i) with
  | Some p => alter (λ j, with_children (children j ++ [w]) j) p (<[w := i]> (surface_info s))
  | None => <[w := i]> (surface_info s)
  end.

Section adopting.
Context (s : WM) (i : SurfaceInfo) (x : SceneSurface).
Context (D : gset Z) (Hs : wm_ok s D) (Hi : children i = []) (Hpar : ∀ q, info_parent i = Some q → q < next_surface s).
#[local] Abbreviation w := (next_surface s).

Lemma next_unused : surface_info s !! w = None ∧ surfaces s !! w = None.
Proof.
  assert (w ∉ dom (surface_info s)) as Hd by (intros ?%(w_next _ _ Hs); lia).
  split; apply not_elem_of_dom; [done|]. intros ?%(w_dom _ _ Hs). done.
Qed.
Lemma lock_spec o q : lock s o = Some q ↔ o = Some q ∧ q ∈ dom (surfaces s).
Proof.
  unfold lock, alive. destruct o as [v|]; [|naive_solver]. case_bool_decide as Hv; rewrite <- elem_of_dom in Hv; naive_solver.
Qed.
Lemma adopt_parent q : lock s (info_parent i) = Some q → info_parent i = Some q ∧ q < w ∧ q ∈ dom (surface_info s).
Proof. intros [Hq Hd]%lock_spec. split; [done|]. split; [by apply Hpar|]. by apply (w_dom _ _ Hs). Qed.

Lemma adopt_lookup c j :
  adopt s w i !! c = Some j →
  (c = w ∧ j = i) ∨
  (c ≠ w ∧ ∃ j0, surface_info s !! c = Some j0 ∧ info_parent j = info_parent j0 ∧
     (j = j0 ∨ (lock s (info_parent i) = Some c ∧ children j = children j0 ++ [w]))).
Proof.
  unfold adopt. destruct (lock s (info_parent i)) as [q|] eqn:Hq.
  - apply adopt_parent in Hq as (_ & Hlt & Hin). destruct (decide (c = q)) as [->|Hc].
    + rewrite lookup_alter_eq, lookup_insert_ne by lia. intros Hj. right. split; [lia|].
      destruct (surface_info s !! q) as [j0|]; [|done]. injection Hj as <-. exists j0. split; [done|]. split; [done|]. by right.
    + rewrite lookup_alter_ne by done. destruct (decide (c = w)) as [->|Hcw].
      * rewrite lookup_insert_eq. intros [= <-]. by left.
      * rewrite lookup_insert_ne by done. intros Hj. right. split; [done|]. exists j. split; [done|]. split; [done|]. by left.
  - destruct (decide (c = w)) as [->|Hcw].
    + rewrite lookup_insert_eq. intros [= <-]. by left.
    + rewrite lookup_insert_ne by done. intros Hj. right. split; [done|]. exists j. split; [done|]. split; [done|]. by left.
Qed.
Lemma adopt_old c j0 : surface_info s !! c = Some j0 →
  ∃ j, adopt s w i !! c = Some j ∧ info_parent j = info_parent j0 ∧ ∀ v, v ∈ children j0 → v ∈ children j.
Proof.
  intros Hj. destruct next_unused as [Hw _]. assert (c ≠ w) as Hcw by congruence. unfold adopt.
  destruct (lock s (info_parent i)) as [q|].
  - destruct (decide (c = q)) as [->|].
    + rewrite lookup_alter_eq, lookup_insert_ne, Hj by done. eexists. split; [done|]. split; [done|]. cbn. set_solver.
    + rewrite lookup_alter_ne, lookup_insert_ne by done. eauto.
  - rewrite lookup_insert_ne by done. eauto.
Qed.
Lemma adopt_new : adopt s w i !! w = Some i.
Proof.
  unfold adopt. destruct (lock s (info_parent i)) as [q|] eqn:Hq; [|by rewrite lookup_insert_eq].
  apply adopt_parent in Hq as (_ & Hlt & _). rewrite lookup_alter_ne by lia. by rewrite lookup_insert_eq.
Qed.
Lemma adopt_dom : dom (adopt s w i) = {[w]} ∪ dom (surface_info s).
Proof. unfold adopt. destruct (lock _ _); [rewrite dom_alter_L|]; by rewrite dom_insert_L. Qed.
Lemma adopt_child p c : child_of (adopt s w i) p c ↔ child_of (surface_info s) p c ∨ (lock s (info_parent i) = Some p ∧ c = w).
Proof.
  split.
  - intros (j & [[-> ->]|(_ & j0 & Hj0 & _ & [->|[Hl He]])]%adopt_lookup & Hc).
    + rewrite Hi in Hc. by apply elem_of_nil in Hc.
    + left. by exists j0.
    + rewrite He, elem_of_app, list_elem_of_singleton in Hc. destruct Hc as [Hc| ->]; [left; by exists j0|by right].
  - intros [(j0 & Hj0 & Hc)|[Hl ->]].
    + destruct (adopt_old p j0 Hj0) as (j & Hj & _ & Hin). exists j. split; [done|auto].
    + pose proof (adopt_parent p Hl) as (_ & Hlt & [j0 Hj0]%elem_of_dom). unfold child_of, adopt. rewrite Hl, lookup_alter_eq, lookup_insert_ne, Hj0 by lia.
      eexists. split; [done|]. cbn. set_solver.
Qed.

Lemma adopt_ok s' :
  dom (surfaces s') = {[w]} ∪ dom (surfaces s) → next_surface s' = w + 1 → surface_info s' = adopt s w i → wm_ok s' D.
Proof.
  intros Hd Hnx Hinf. pose proof Hs as [[Ho Hn Hone] Hdom Hlt Hc Hl Hp]. destruct next_unused as [Hw Hws].
  assert (∀ p, ¬ child_of (surface_info s) p w) as Hnew by (intros p Hpw%Hc; lia).
  split; [split| | | | |]; rewrite ?Hinf, ?Hnx.
  - intros p c [Hpc|[Hlk ->]]%adopt_child; [by apply Ho|]. by apply adopt_parent in Hlk as (_ & ? & _).
  - intros p j [[-> ->]|(_ & j0 & Hj0 & _ & [->|[Hlk He]])]%adopt_lookup; [rewrite Hi; constructor|by eapply Hn|].
    rewrite He. apply NoDup_app. split; [by eapply Hn|]. split; [|apply NoDup_singleton].
    intros v Hv ->%list_elem_of_singleton. apply (Hnew p). by exists j0.
  - intros p q c [Hpc|[Hlk ->]]%adopt_child [Hqc|[Hlk' Heq]]%adopt_child; subst; [by eapply Hone|by destruct (Hnew p)|by destruct (Hnew q)|congruence].
  - rewrite Hd, adopt_dom. set_solver.
  - intros v. rewrite adopt_dom, elem_of_union, elem_of_singleton. intros [->|Hv%Hlt]; lia.
  - intros p c [Hpc%Hc|[_ ->]]%adopt_child; lia.
  - intros p c HD. rewrite Hd, !elem_of_union, !elem_of_singleton. intros Hpd [Hpc|[Hlk ->]]%adopt_child.
    + destruct Hpd as [->|Hpd].
      { destruct Hpc as (j & Hj & _). congruence. }
      destruct (Hl p c HD Hpd Hpc) as (? & j & Hj & Hjp). split; [by right|]. destruct (adopt_old c j Hj) as (j' & Hj' & He & _).
      exists j'. split; [done|congruence].
    + apply adopt_parent in Hlk as (? & ? & _). split; [by left|]. exists i. split; [apply adopt_new|done].
  - intros c j p HD. rewrite Hd, !elem_of_union, !elem_of_singleton.
    intros Hcd [[-> ->]|(Hcw & j0 & Hj0 & He & _)]%adopt_lookup Hjp.
    + pose proof (Hpar p Hjp). split; [lia|]. intros [->|Hpd]; [lia|].
      apply adopt_child. right. split; [|done]. by apply lock_spec.
    + destruct Hcd as [?|Hcd]; [done|]. destruct (Hp c j0 p HD Hcd Hj0 ltac:(congruence)) as [Hpl Hch]. split; [done|].
      intros [->|Hpd]; [apply elem_of_dom_2 in Hj0; apply Hlt in Hj0; lia|]. apply adopt_child. left. by apply Hch.
Qed.
End adopting.

Lemma new_info_fields session x p : info_parent (new_info session x p) = p_parent p ∧ children (new_info session x p) = [].
Proof. unfold new_info. destruct (p_limits p) as [[[? ?] ?] ?]. done. Qed.

Lemma add_surface_ok sh session p s D :
  wm_ok s D → (∀ q, p_parent p = Some q → q < next_surface s) → wm_ok (post (add_surface sh session p s)) D.
Proof.
  intros Hs Hp. unfold add_surface, handle_place_new_surface. rewrite pbind_assoc, pbind_get, pbind_plift.
  destruct (place_new_surface sh s session p) as [p'|e] eqn:Hplace; [|done]. apply place_parent in Hplace.
  unfold build. rewrite pbind_assoc, pbind_get, pbind_assoc, pbind_emit. cbn [post]. rewrite pbind_assoc, pbind_put, pbind_ret_l.
  set (w := next_surface s). set (x := mkSurface _ _ _ _ _). set (s1 := set_next (w + 1) _).
  assert (surface_get w s1 = Run (Ret x) s1 []) as Hget by (unfold surface_get; rewrite pbind_get; cbn; by rewrite lookup_insert_eq).
  rewrite (pbind_silent _ _ _ _ _ Hget), pbind_modify.
  destruct (new_info_fields session x p') as [Hip Hic]. set (i := new_info session x p') in *.
  set (s2 := set_infos _ s1).
  assert (∀ q, info_parent i = Some q → q < next_surface s) as Hpar by (intros q; rewrite Hip, Hplace; apply Hp).
  assert (lock s2 (info_parent i) = lock s (info_parent i)) as Hlock.
  { destruct (info_parent i) as [q|] eqn:Hq; [|done]. specialize (Hpar q eq_refl). unfold lock, alive. cbn [s2 s1 surfaces set_infos set_next set_surfaces].
    by rewrite lookup_insert_ne by (unfold w; lia). }
  unfold handle_new_surface. rewrite pbind_assoc.
  assert (info_for w s2 = Run (Ret i) s2 []) as Hinfo by (unfold info_for; rewrite pbind_get; cbn; by rewrite lookup_insert_eq).
  rewrite (pbind_silent _ _ _ _ _ Hinfo), pbind_assoc, pbind_get, pbind_assoc, Hlock.
  set (s3 := set_infos (adopt s w i) s1).
  assert ((match lock s (info_parent i) with
    | Some q => do* info_for q in update_info q (λ i, with_children (children i ++ [w]) i)
    | None => pret tt end) s2 = Run (Ret tt) s3 []) as Hadopt.
  { unfold s3, adopt. destruct (lock s (info_parent i)) as [q|] eqn:Hq; [|done].
    apply (adopt_parent s i D Hs Hpar) in Hq as (_ & Hlt & [j Hj]%elem_of_dom).
    assert (info_for q s2 = Run (Ret j) s2 []) as Hq' by (unfold info_for; rewrite pbind_get; cbn; rewrite lookup_insert_ne by (unfold w; lia); by rewrite Hj).
    by rewrite (pbind_silent _ _ _ _ _ Hq'). }
  rewrite (pbind_silent _ _ _ _ _ Hadopt).
  assert (wm_ok s3 D) as H3 by (apply (adopt_ok s i D Hs Hic Hpar); [cbn; by rewrite dom_insert_L|done|done]).
  apply wm_ok_keeps; [|done]. intros k. keep_skeleton.
Qed.

(** *** Changing a window *)
Lemma copy_if_set_fields m i : info_parent (copy_if_set m i) = info_parent i ∧ children (copy_if_set m i) = children i.
Proof. unfold copy_if_set. destruct (m_limits m) as [[[? ?] ?] ?]. done. Qed.

Lemma morph_keeps w m i : (∀ k, preserves (keeps_skeleton k) (morph w m i)).
Proof. intros k. unfold morph, configure_type. keep_skeleton. Qed.
Lemma morph_children w m i s i' : value (morph w m i s) = Ret i' → children i' = children i.
Proof.
  unfold morph. destruct (m_type m) as [t|]; [|by intros [= <-]]. destruct (bool_decide _); [by intros [= <-]|].
  destruct (can_morph_to (info_type i) t); cbn [negb]; [|done]. destruct (must_not_have_parent t).
  - destruct (bool_decide _); [done|]. unfold pbind. destruct (value (configure_type w t s)); [|done]. by intros [= <-].
  - rewrite pbind_get. destruct (_ && _); [done|]. unfold pbind. destruct (value (configure_type w t s)); [|done]. by intros [= <-].
Qed.

Lemma skeleton_info s s' w i : skeleton s' = skeleton s → surface_info s !! w = Some i →
  ∃ i', surface_info s' !! w = Some i' ∧ info_parent i' = info_parent i ∧ children i' = children i.
Proof. intros Hk Hi. destruct (skeleton_lookup s' s w (eq_sym Hk) i Hi) as (j & ? & ? & ?). by exists j. Qed.

(** A window with another parent: the children stay as they were. *)
Lemma reparent_ok s s' w i i' D :
  wm_ok s D → surface_info s !! w = Some i → children i' = children i → surface_info s' = <[w := i']> (surface_info s) →
  dom (surfaces s') = dom (surfaces s) → next_surface s' = next_surface s → wm_ok s' ({[w]} ∪ D).
Proof.
  intros [[Ho Hn Hone] Hd Hx Hc Hl Hp] Hi Hch Hinf Hds Hns.
  assert (∀ p c, child_of (surface_info s') p c ↔ child_of (surface_info s) p c) as Hiff.
  { intros p c. unfold child_of. rewrite Hinf. destruct (decide (p = w)) as [->|Hne]; [|by rewrite lookup_insert_ne].
    rewrite lookup_insert_eq, Hi. split; intros (j & [= <-] & ?); eexists; (split; [done|]); congruence. }
  assert (dom (surface_info s') = dom (surface_info s)) as Hdi by (rewrite Hinf; apply dom_insert_lookup_L; by eexists).
  split; [split| | | | |]; rewrite ?Hds, ?Hns, ?Hdi; try done.
  - intros p c. rewrite Hiff. apply Ho.
  - intros p j. rewrite Hinf. destruct (decide (p = w)) as [->|Hne].
    + rewrite lookup_insert_eq. intros [= <-]. rewrite Hch. by eapply Hn.
    + rewrite lookup_insert_ne by done. apply Hn.
  - intros p q c. rewrite !Hiff. apply Hone.
  - intros p c. rewrite Hiff. apply Hc.
  - intros p c HD Hpd Hpc%Hiff. destruct (Hl p c) as (? & j & Hj & ?); [set_solver|done|done|]. split; [done|].
    exists j. rewrite Hinf, lookup_insert_ne by set_solver. done.
  - intros c j p HD Hcd. rewrite Hinf, lookup_insert_ne, <- Hinf, Hiff by set_solver. apply Hp; [set_solver|done].
Qed.

Lemma modify_ok sh w m s D :
  wm_ok s D → w ∈ dom (surfaces s) →
  let r := handle_modify_surface sh w m s in wm_ok (post r) (D ∪ disturbed (trace r)).
Proof.
  intros Hs Hw. apply (w_dom _ _ Hs), elem_of_dom in Hw as [i Hi]. cbn zeta. unfold handle_modify_surface.
  assert (info_for w s = Run (Ret i) s []) as Hinfo by (unfold info_for; by rewrite pbind_get, Hi).
  rewrite (pbind_silent _ _ _ _ _ Hinfo).
  pose proof (morph_keeps w m i (skeleton s) s [] eq_refl) as Hsk. pose proof (morph_children w m i s) as Hc.
  destruct (morph w m i s) as [[i'|e] s1 tr] eqn:Hm; unfold keeps_skeleton in Hsk; cbn [post value] in Hsk, Hc.
  2: { rewrite (pbind_throw _ _ _ _ _ _ Hm). apply (wm_ok_mono _ D); [set_solver|]. by apply (wm_ok_skeleton s). }
  specialize (Hc i' eq_refl). rewrite (pbind_run _ _ _ _ _ _ _ Hm eq_refl). cbn [post trace].
  assert (wm_ok s1 D) as H1 by by apply (wm_ok_skeleton s).
  destruct (skeleton_info s s1 w i Hsk Hi) as (j & Hj & Hjp & Hjc).
  unfold update_info. rewrite pbind_modify. set (s2 := set_infos _ s1).
  assert (surface_info s2 = <[w := copy_if_set m i']> (surface_info s1)) as Hinf.
  { cbn. rewrite <- (insert_id _ _ _ Hj) at 1. by rewrite alter_insert_eq. }
  destruct (copy_if_set_fields m i') as [Hcp Hcc].
  match goal with |- wm_ok (post (pbind _ ?rest s2)) _ => assert (∀ k, preserves (keeps_skeleton k) (rest tt)) as Hrest end.
  { intros k. unfold apply_resize, surface_resize, configure_state. pose proof keeps_set_state. pose proof keeps_move_tree_of.
    keep_skeleton. }
  destruct (bool_decide (info_parent i' ≠ info_parent i)) eqn:Hpar;
    [apply bool_decide_eq_true in Hpar|apply bool_decide_eq_false, dec_stable in Hpar]; cbn [pwhen].
  - rewrite pbind_emit. cbn [post trace]. apply (wm_ok_mono _ ({[w]} ∪ D)).
    { rewrite disturbed_app. change (?o :: ?l) with ([o] ++ l). rewrite disturbed_app.
      change (disturbed [Reparented w]) with ({[w]} ∪ ∅ : gset Z). set_solver. }
    apply wm_ok_keeps; [exact Hrest|]. eapply (reparent_ok s1); [done|done| |done|done|done]. congruence.
  - rewrite pbind_ret_l. apply (wm_ok_mono _ D); [set_solver|].
    apply wm_ok_keeps; [exact Hrest|]. apply (wm_ok_skeleton s1); [|done]. unfold skeleton. rewrite Hinf. cbn [surfaces s2 set_infos next_surface].
    f_equal. rewrite fmap_insert. rewrite insert_id; [done|]. rewrite lookup_fmap, Hj. cbn. congruence.
Qed.

(** *** Removing a window *)
Lemma erase_locked_sublist s w l : sublist (erase_locked s w l) l.
Proof. induction l as [|x l IH]; cbn; [done|]. case_bool_decide; by constructor. Qed.
Lemma erase_locked_notin s w l : w ∈ dom (surfaces s) → NoDup l → w ∉ erase_locked s w l.
Proof.
  intros Hw. induction l as [|x l IH]; cbn [erase_locked]; [by intros _ ?%elem_of_nil|]. intros [Hx Hnd]%NoDup_cons.
  rewrite (lock_alive s w Hw). case_bool_decide as Heq.
  - symmetry in Heq. apply lock_spec in Heq as [[= ->] _]. done.
  - rewrite elem_of_cons. intros [->|?]; [by rewrite (lock_alive s x Hw) in Heq|by apply IH].
Qed.
Lemma erase_locked_in s w l x : w ∈ dom (surfaces s) → x ≠ w → x ∈ l → x ∈ erase_locked s w l.
Proof.
  intros Hw Hne. induction l as [|y l IH]; cbn [erase_locked]; [done|]. rewrite (lock_alive s w Hw).
  case_bool_decide as Heq; rewrite !elem_of_cons.
  - symmetry in Heq. apply lock_spec in Heq as [[= ->] _]. by intros [?|?].
  - intros [->|?]; [by left|right; auto].
Qed.

Section removing.
Context (s : WM) (w : Z) (i : SurfaceInfo) (D : gset Z).
Context (Hs : wm_ok s D) (Hw : w ∈ dom (surfaces s)) (Hi : surface_info s !! w = Some i).

Definition orphaned : gmap Z SurfaceInfo :=
  match lock s (info_parent i) with
  | Some p => alter (λ j, with_children (erase_locked s w (children j)) j) p (surface_info s)
  | None => surface_info s
  end.
Lemma orphaned_lookup c j : orphaned !! c = Some j →
  ∃ j0, surface_info s !! c = Some j0 ∧ info_parent j = info_parent j0 ∧ sublist (children j) (children j0) ∧
    (lock s (info_parent i) = Some c → w ∉ children j) ∧ ∀ v, v ≠ w → v ∈ children j0 → v ∈ children j.
Proof.
  intros Hj. unfold orphaned in Hj. destruct (lock s (info_parent i)) as [q|] eqn:Hq.
  - destruct (decide (c = q)) as [->|Hc].
    + rewrite lookup_alter_eq in Hj. destruct (surface_info s !! q) as [j0|] eqn:Hj0; [|done]. injection Hj as <-.
      exists j0. split_and!; [done|done|apply erase_locked_sublist| |].
      * intros _. apply erase_locked_notin; [done|]. by eapply t_nodup; [apply Hs|].
      * intros v Hne. by apply erase_locked_in.
    + rewrite lookup_alter_ne in Hj by done. exists j. split_and!; [done|done|done|congruence|done].
  - exists j. by split_and!.
Qed.
Lemma orphaned_old c j0 : surface_info s !! c = Some j0 → ∃ j, orphaned !! c = Some j ∧ info_parent j = info_parent j0.
Proof.
  intros Hj. unfold orphaned. destruct (lock s (info_parent i)) as [q|]; [|by exists j0].
  destruct (decide (c = q)) as [->|]; [rewrite lookup_alter_eq, Hj; by eexists|rewrite lookup_alter_ne by done; by exists j0].
Qed.
Lemma orphaned_dom : dom orphaned = dom (surface_info s).
Proof. unfold orphaned. destruct (lock _ _); [by rewrite dom_alter_L|done]. Qed.

(** The info goes too, unless something is thrown before that. *)
Lemma removed_ok s' :
  dom (surfaces s') = dom (surfaces s) ∖ {[w]} → next_surface s' = next_surface s →
  (∀ c, c ≠ w → surface_info s' !! c = orphaned !! c) → (∀ j, surface_info s' !! w = Some j → orphaned !! w = Some j) → wm_ok s' D.
Proof.
  intros Hd Hnx Hne Hself. pose proof Hs as [[Ho Hn Hone] Hdom Hlt Hc Hl Hp].
  assert (∀ c j, surface_info s' !! c = Some j → orphaned !! c = Some j) as Hin.
  { intros c j. destruct (decide (c = w)) as [->|Hcw]; [apply Hself|by rewrite Hne]. }
  assert (∀ p c, child_of (surface_info s') p c → child_of (surface_info s) p c) as Hsub.
  { intros p c (j & (j0 & Hj0 & _ & Hsl & _)%Hin%orphaned_lookup & Hcj). exists j0. split; [done|by eapply elem_of_sublist]. }
  split; [split| | | | |]; rewrite ?Hnx.
  - intros p c Hpc%Hsub. by apply Ho.
  - intros p j (j0 & Hj0 & _ & Hsl & _)%Hin%orphaned_lookup. eapply sublist_NoDup; [by eapply Hn|done].
  - intros p q c Hpc%Hsub Hqc%Hsub. by eapply Hone.
  - rewrite Hd. intros c [Hcd%Hdom Hcw]%elem_of_difference. rewrite elem_of_singleton in Hcw. apply elem_of_dom. rewrite Hne by done.
    apply elem_of_dom. by rewrite orphaned_dom.
  - intros c [j Hj%Hin]%elem_of_dom. apply Hlt. rewrite <- orphaned_dom. apply elem_of_dom. by eexists.
  - intros p c Hpc%Hsub. by eapply Hc.
  - intros p c HD. rewrite Hd. intros [Hpd Hpw]%elem_of_difference Hpc. rewrite elem_of_singleton in Hpw.
    destruct (Hl p c HD Hpd (Hsub p c Hpc)) as (Hcd & j & Hj & Hjp).
    assert (c ≠ w) as Hcw.
    { intros ->. rewrite Hi in Hj. injection Hj as <-. destruct Hpc as (jp & (jp0 & _ & _ & _ & Hnot & _)%Hin%orphaned_lookup & Hwj).
      apply Hnot; [by apply lock_spec|done]. }
    split; [set_solver|]. rewrite Hne by done. destruct (orphaned_old c j Hj) as (j' & Hj' & He). exists j'. split; [done|congruence].
  - intros c j p HD. rewrite Hd. intros [Hcd Hcw]%elem_of_difference. rewrite elem_of_singleton in Hcw.
    intros (j0 & Hj0 & He & _)%Hin%orphaned_lookup Hjp.
    destruct (Hp c j0 p HD Hcd Hj0 ltac:(congruence)) as [Hpl Hch]. split; [done|]. intros [Hpd Hpw]%elem_of_difference.
    rewrite elem_of_singleton in Hpw. destruct (Hch Hpd) as (ip & Hip & Hcin). destruct (orphaned_old p ip Hip) as (ip' & Hip' & _).
    destruct (orphaned_lookup p ip' Hip') as (ip0 & Hip0 & _ & _ & _ & Hkeep). exists ip'. rewrite Hne by done. split; [done|].
    apply Hkeep; [done|]. congruence.
Qed.
End removing.

Lemma keeps_refocus k sh session (b : bool) : preserves (keeps_skeleton k) (if b then
    do* pmodify (set_active None) in
    let* l := session_info_for session in
    match l with
    | [] => do* focus_next_session sh in let* s := pget in select_active (focused_surface s)
    | x :: _ => let* s := pget in select_active (lock s (Some x))
    end
    else pret tt).
Proof. unfold focus_next_session. pose proof keeps_select_active. keep_skeleton. Qed.

Lemma remove_ok sh session w s0 D :
  wm_ok s0 D → w ∈ dom (surfaces s0) →
  let s := post (remove_surface sh session w s0) in wm_ok s D ∧ dom (surfaces s) = dom (surfaces s0) ∖ {[w]}.
Proof.
  intros Hs0 Hw0. pose proof (w_dom _ _ Hs0 w Hw0) as [i Hi0]%elem_of_dom. cbn zeta.
  unfold remove_surface, handle_delete_surface. rewrite pbind_assoc, pbind_modify.
  set (s := set_fullscreen _ _). assert (wm_ok s D) as Hs by (by apply (wm_ok_skeleton s0)).
  rewrite pbind_assoc, pbind_get, pbind_assoc.
  assert (surface_info s !! w = Some i) as Hi by done. assert (w ∈ dom (surfaces s)) as Hw by done.
  assert (info_for w s = Run (Ret i) s []) as Hinfo by (unfold info_for; by rewrite pbind_get, Hi).
  rewrite (pbind_silent _ _ _ _ _ Hinfo), pbind_assoc.
  set (s2 := set_infos (orphaned s w i) s).
  assert ((match lock s (info_parent i) with
    | Some p => do* info_for p in let* s := pget in update_info p (λ i, with_children (erase_locked s w (children i)) i)
    | None => pret tt end) s = Run (Ret tt) s2 []) as Horph.
  { unfold s2, orphaned. destruct (lock s (info_parent i)) as [p|] eqn:Hp; [|done].
    apply lock_spec in Hp as [_ Hp]. apply (w_dom _ _ Hs) in Hp. apply elem_of_dom in Hp as [j Hj].
    assert (info_for p s = Run (Ret j) s []) as Hq by (unfold info_for; by rewrite pbind_get, Hj).
    rewrite (pbind_silent _ _ _ _ _ Hq), pbind_get. done. }
  rewrite (pbind_silent _ _ _ _ _ Horph). unfold destroy_surface. rewrite !pbind_assoc, pbind_emit, pbind_modify. cbn [post].
  set (s3 := set_surfaces _ s2). rewrite pbind_assoc.
  assert (dom (surfaces s3) = dom (surfaces s) ∖ {[w]}) as Hd3 by (cbn; by rewrite dom_delete_L).
  assert (wm_ok s3 D) as H3 by by apply (removed_ok s w i D Hs Hw Hi).
  destruct (session_info s0 !! session) as [l|] eqn:Hl.
  2: { assert (session_info_for session s3 = Run (Throw (out_of_range "map::at")) s3 []) as Hsess
         by (unfold session_info_for; rewrite pbind_get; cbn; by rewrite Hl).
       rewrite (pbind_throw _ _ _ _ _ _ Hsess). done. }
  assert (session_info_for session s3 = Run (Ret l) s3 []) as Hsess by (unfold session_info_for; rewrite pbind_get; cbn; by rewrite Hl).
  rewrite (pbind_silent _ _ _ _ _ Hsess), pbind_assoc, pbind_modify. set (s4 := set_sessions _ s3).
  pose proof (keeps_refocus (skeleton s4) sh session (bool_decide (lock s (Some w) = active_surface s)) s4 [] eq_refl) as Hk.
  unfold keeps_skeleton in Hk. match type of Hk with context [post (?m s4)] => destruct (m s4) as [v s5 tr] eqn:Hrun end. cbn [post] in Hk.
  assert (dom (surfaces s5) = dom (surfaces s) ∖ {[w]}) as Hd5.
  { unfold skeleton in Hk. injection Hk as Hk _ _. rewrite Hk. exact Hd3. }
  destruct v as [[]|e]; [rewrite (pbind_run _ _ _ _ _ _ _ Hrun eq_refl)|rewrite (pbind_throw _ _ _ _ _ _ Hrun)]; cbn [post pmodify].
  - split; [|exact Hd5]. apply (wm_ok_skeleton (set_infos (delete w (surface_info s4)) s4)).
    + unfold skeleton in *. cbn [surfaces next_surface surface_info set_infos]. rewrite !fmap_delete.
      injection Hk as Hk1 Hk2 Hk3. by rewrite Hk1, Hk2, Hk3.
    + apply (removed_ok s w i D Hs Hw Hi); [exact Hd3|done| |].
      * intros c Hc. cbn. by rewrite lookup_delete_ne.
      * intros j. cbn. by rewrite lookup_delete_eq.
  - split; [|exact Hd5]. apply (wm_ok_skeleton s4); [exact Hk|]. by apply (wm_ok_skeleton s3).
Qed.

(** *** Closing a session *)
Lemma elem_of_session_surfaces s session w : w ∈ session_surfaces s session → w ∈ dom (surfaces s).
Proof.
  unfold session_surfaces. intros ([v x] & -> & [_ Hin]%list_elem_of_filter)%list_elem_of_fmap. apply elem_of_entries in Hin.
  apply elem_of_dom. by eexists.
Qed.
Lemma surface_after_in s session w v : surface_after s session w = Ret (Some v) → v ∈ session_surfaces s session.
Proof.
  unfold surface_after. destruct (bool_decide _); [|done]. intros [= Hv].
  destruct (find_if _ (filter (λ x, w < x) _)) as [u|] eqn:H1.
  - injection Hv as <-. apply find_if_Some in H1 as [[_ ?]%list_elem_of_filter _]. done.
  - destruct (find_if _ (filter (λ x, x ≤ w) _)) as [u|] eqn:H2.
    + injection Hv as <-. apply find_if_Some in H2 as [[_ ?]%list_elem_of_filter _]. done.
    + assert (v ∈ filter (λ x, w < x) (session_surfaces s session)) as [_ ?]%list_elem_of_filter; [|done].
      destruct (filter _ _); [done|]. injection Hv as ->. left.
Qed.
Lemma surfaces_found_ok n s session o found l :
  surfaces_found n s session o found = Ret l → NoDup found →
  (∀ w, w ∈ found ∨ o = Some w → w ∈ dom (surfaces s)) → NoDup l ∧ ∀ w, w ∈ l → w ∈ dom (surfaces s).
Proof.
  revert o found. induction n as [|n IH]; intros o found Hl Hnd Hin; [done|]. cbn [surfaces_found] in Hl.
  destruct o as [w|]; [|injection Hl as <-; auto]. case_bool_decide as Hw; [injection Hl as <-; auto|].
  destruct (surface_after s session w) as [next|] eqn:Hnext; [|done]. cbn in Hl. apply (IH next (found ++ [w])); [done| |].
  - apply NoDup_app. split; [done|]. split; [|apply NoDup_singleton]. by intros x Hx ->%list_elem_of_singleton.
  - intros x [[?| ->%list_elem_of_singleton]%elem_of_app| ->]; [auto|auto|].
    by eapply elem_of_session_surfaces, surface_after_in.
Qed.

Lemma surfaces_found_ends n s session o found :
  NoDup found → (∀ w, w ∈ found ∨ o = Some w → w ∈ session_surfaces s session) →
  (length (session_surfaces s session) < n + length found)%nat →
  ∃ l, surfaces_found n s session o found = Ret l.
Proof.
  revert o found. induction n as [|n IH]; intros o found Hnd Hin Hn.
  - assert (found ⊆+ session_surfaces s session) as Hsub by (apply NoDup_submseteq; [done|]; intros w Hw; apply Hin; by left).
    apply submseteq_length in Hsub. lia.
  - cbn [surfaces_found]. destruct o as [w|]; [|by eexists]. case_bool_decide as Hw; [by eexists|].
    assert (w ∈ session_surfaces s session) as Hws by (apply Hin; by right).
    destruct (surface_after s session w) as [next|e] eqn:Hnext.
    2: { unfold surface_after in Hnext. by rewrite bool_decide_true in Hnext. }
    cbn. apply IH.
    + apply NoDup_app. split; [done|]. split; [|apply NoDup_singleton]. by intros x Hx ->%list_elem_of_singleton.
    + intros x [[?| ->%list_elem_of_singleton]%elem_of_app| ->]; [apply Hin; by left|done|]. by eapply surface_after_in.
    + rewrite length_app. cbn. lia.
Qed.
(** The walk from surface to surface ends. *)
Lemma surfaces_to_close_ends s session : ∃ l, surfaces_to_close s session = Ret l.
Proof.
  apply surfaces_found_ends; [constructor| |].
  - intros w [?%elem_of_nil|Hw]; [done|]. unfold default_surface in Hw. destruct (session_surfaces s session); [done|].
    injection Hw as ->. left.
  - cbn. rewrite Nat.add_0_r. unfold session_surfaces. rewrite length_fmap.
    pose proof (submseteq_length _ _ (sublist_submseteq _ _ (sublist_filter (λ e : Z * SceneSurface, owner e.2 = session) (entries (surfaces s))))) as H.
    rewrite length_entries in H. lia.
Qed.

Lemma remove_all_ok sh session l s D :
  wm_ok s D → NoDup l → (∀ w, w ∈ l → w ∈ dom (surfaces s)) → wm_ok (post (pfor l (λ w, remove_surface sh session w) s)) D.
Proof.
  revert s. induction l as [|w l IH]; intros s Hs Hnd Hin; [done|]. apply NoDup_cons in Hnd as [Hw Hnd]. cbn [pfor].
  destruct (remove_ok sh session w s D Hs (Hin w ltac:(left))) as [H1 Hd]. unfold pbind.
  destruct (remove_surface sh session w s) as [[[]|e] s1 tr]; cbn [value post] in *; [|done]. apply IH; [done..|].
  intros x Hx. rewrite Hd. apply elem_of_difference. split; [apply Hin; by right|]. by intros ->%elem_of_singleton.
Qed.
Lemma close_ok sh session address s D : wm_ok s D → wm_ok (post (close_session sh session address s)) D.
Proof.
  intros Hs. unfold close_session. rewrite pbind_get, pbind_plift. destruct (surfaces_to_close s session) as [l|] eqn:Hl; [|done].
  apply surfaces_found_ok in Hl as [Hnd Hin]; [|constructor|].
  2: { intros w [?%elem_of_nil|Hw]; [done|]. apply (elem_of_session_surfaces s session). unfold default_surface in Hw.
       destruct (session_surfaces s session); [done|]. injection Hw as ->. left. }
  assert (wm_ok (post (pfor (by_address address l) (λ w, remove_surface sh session w) s)) D) as H1.
  { apply remove_all_ok; [done| |]; unfold by_address; [by rewrite merge_sort_Permutation|].
    intros w. rewrite merge_sort_Permutation. apply Hin. }
  unfold pbind. destruct (pfor _ _ s) as [[[]|e] s1 tr]; cbn [value post] in *; [|done].
  by apply (wm_ok_skeleton s1).
Qed.

Lemma gone_ok s w D : wm_ok s D → wm_ok (set_surfaces (delete w (surfaces s)) s) ({[w]} ∪ D).
Proof.
  intros [Ht Hd Hx Hc Hl Hp]. split; cbn [surfaces surface_info next_surface set_surfaces]; rewrite ?dom_delete_L; [done|set_solver|done|done| |].
  - intros p c HD [Hpd _]%elem_of_difference Hpc. destruct (Hl p c ltac:(set_solver) Hpd Hpc) as [? ?]. split; [set_solver|done].
  - intros c j p HD [Hcd _]%elem_of_difference Hj Hjp. destruct (Hp c j p ltac:(set_solver) Hcd Hj Hjp) as [? Hch]. split; [done|].
    intros [? _]%elem_of_difference. by apply Hch.
Qed.
Lemma session_gone_ok session s D :
  wm_ok s D → let r := session_gone session s in wm_ok (post r) (D ∪ disturbed (trace r)).
Proof.
  intros Hs. unfold session_gone. rewrite pbind_get. cbn zeta. generalize (session_surfaces s session) as l. intros l.
  revert s D Hs. induction l as [|w l IH]; intros s D Hs; cbn [pfor]; [by apply (wm_ok_mono _ D); [set_solver|]|].
  rewrite pbind_assoc, pbind_emit, pbind_modify. cbn [post trace]. eapply wm_ok_mono; [|apply IH, gone_ok, Hs].
  change (?o :: ?l) with ([o] ++ l). rewrite disturbed_app. change (disturbed [SurfaceGone w]) with ({[w]} ∪ ∅ : gset Z). set_solver.
Qed.

Lemma wm_reachable s h : reachable wm_machine s h → wm_ok s (disturbed h).
Proof.
  revert s h. apply (reachable_invariant wm_machine (λ s h, wm_ok s (disturbed h))).
  - intros s ->. split; [split| | | | |]; cbn; try (intros *; rewrite lookup_empty; done); try done.
    + by intros p c (i & Hi & _). + by intros p q c (i & Hi & _). + by intros p c (i & Hi & _).
  - intros s h op _ Hs Hok. cbn in Hok. rewrite disturbed_app. set (D := disturbed h) in *.
    assert (∀ s', wm_ok s' D → wm_ok s' (D ∪ disturbed (trace (m_exec wm_machine op s)))) as Hmono
      by (intros s'; apply wm_ok_mono; set_solver).
    destruct op; cbn [m_exec wm_machine wm_exec] in *; cbn [wm_allowed] in Hok;
      match goal with |- context [session_gone] => idtac | |- context [handle_modify_surface] => idtac | _ => apply Hmono end.
    + apply wm_ok_keeps; [|done]. intros k. unfold add_session. keep_skeleton.
    + by apply close_ok.
    + by apply session_gone_ok.
    + apply (wm_ok_skeleton (post (add_surface sh session p s))).
      { unfold pbind. by destruct (value _). }
      apply add_surface_ok; [done|]. intros q Hq. rewrite Hq in Hok. by apply Z.ltb_lt in Hok.
    + apply modify_ok; [done|]. unfold alive in Hok. apply bool_decide_eq_true in Hok. by apply elem_of_dom.
    + destruct (surfaces s !! w) as [x|] eqn:Hx; [|done]. apply remove_ok; [done|]. apply elem_of_dom. by eexists.
    + apply wm_ok_keeps; [|done]. intros k. unfold add_display. pose proof keeps_displays_updated. keep_skeleton.
    + apply wm_ok_keeps; [|done]. intros k. unfold remove_display. pose proof keeps_displays_updated. keep_skeleton.
    + apply wm_ok_keeps; [|done]. intros k. unfold handle_keyboard_event. pose proof keeps_keyboard. keep_skeleton.
    + apply wm_ok_keeps; [|done]. intros k. unfold handle_touch_event. pose proof keeps_touch. keep_skeleton.
    + apply wm_ok_keeps; [|done]. intros k. unfold handle_pointer_event. pose proof keeps_pointer. keep_skeleton.
    + apply wm_ok_keeps; [|done]. intros k. unfold handle_raise_surface. pose proof keeps_select_active. keep_skeleton.
    + apply wm_ok_keeps; [|done]. intros k. unfold set_window_state, configure_state. pose proof keeps_set_state. keep_skeleton.
    + apply wm_ok_keeps; [|done]. intros k. apply keeps_select_active.
    + apply wm_ok_keeps; [|done]. intros k. keep_skeleton.
Qed.

(** *** Changing a window's state *)
Lemma info_for_run w i s : surface_info s !! w = Some i → info_for w s = Run (Ret i) s [].
Proof. intros Hi. unfold info_for. by rewrite pbind_get, Hi. Qed.
Lemma surface_get_run w x s : surfaces s !! w = Some x → surface_get w s = Run (Ret x) s [].
Proof. intros Hx. unfold surface_get. by rewrite pbind_get, Hx. Qed.
Lemma surface_do_run w x f s : surfaces s !! w = Some x →
  surface_do w f s = Run (Ret tt) (set_surfaces (alter f w (surfaces s)) s) [].
Proof.
  intros Hx. unfold surface_do. rewrite pbind_get, Hx. unfold pput. f_equal. f_equal. apply map_eq. intros y.
  destruct (decide (y = w)) as [->|]; [by rewrite lookup_insert_eq, lookup_alter_eq, Hx|by rewrite lookup_insert_ne, lookup_alter_ne].
Qed.
Lemma pwhen_run {A} (b : bool) (f : WM → WM) (k : unit → M A) s :
  pbind (pwhen b (pmodify f)) k s = k tt (if b then f s else s).
Proof. destruct b; cbn [pwhen]; [by rewrite pbind_modify|by rewrite pbind_ret_l]. Qed.

Lemma subtree_children n infos infos' w :
  (∀ y, children <$> infos' !! y = children <$> infos !! y) → subtree n infos' w = subtree n infos w.
Proof.
  intros Hc. revert w. induction n as [|n IH]; intros w; [done|]. cbn [subtree]. specialize (Hc w).
  destruct (infos' !! w) as [i'|], (infos !! w) as [i|]; cbn in Hc; try done. injection Hc as ->.
  f_equal. induction (children i) as [|c cs IHc]; cbn; [done|]. by rewrite IH, IHc.
Qed.
Lemma subtree_skeleton s s' w :
  skeleton s' = skeleton s → subtree (depth s') (surface_info s') w = subtree (depth s) (surface_info s) w.
Proof.
  intros Hk. assert (depth s' = depth s) as ->.
  { unfold depth. f_equal. unfold skeleton in Hk. injection Hk as _ _ Hm.
    by rewrite <- (map_size_fmap (λ i, (info_parent i, children i))), Hm, map_size_fmap. }
  apply subtree_children. intros y. destruct (surface_info s' !! y) as [i'|] eqn:Hi'.
  - destruct (skeleton_lookup s s' y Hk i' Hi') as (i & -> & _ & He). cbn. by rewrite He.
  - destruct (surface_info s !! y) as [i|] eqn:Hi; [|done].
    destruct (skeleton_lookup s' s y (eq_sym Hk) i Hi) as (i' & He & _). congruence.
Qed.

Definition set_show (b : bool) (x : SceneSurface) : SceneSurface := mkSurface (owner x) (rect x) b (attr_state x) (attr_type x).
Definition set_size (sz : Size) (x : SceneSurface) : SceneSurface :=
  mkSurface (owner x) (Rect (top_left (rect x)) (Sz (if width sz <=? 0 then 1 else width sz) (if height sz <=? 0 then 1 else height sz)))
    (shown x) (attr_state x) (attr_type x).
(** The window takes the target's size and its tree the movement. *)
Definition relocate (l : list Z) (w : Z) (old : Point) (target : Rectangle) (m : gmap Z SceneSurface) : gmap Z SceneSurface :=
  alter (set_show true) w (shift_all (point_sub (top_left target) old) l (alter (set_size (size target)) w m)).

(** The surfaces after [handle_set_state]. *)
Inductive state_moves (l : list Z) (w : Z) (i : SurfaceInfo) (x : SceneSurface) (v : MirWindowState) (m : gmap Z SceneSurface)
    : gmap Z SceneSurface → Prop :=
  | moves_same : v = info_state i → state_moves l w i x v m m
  | moves_hidden : v ≠ info_state i → is_visible v = false → state_moves l w i x v m (alter (set_show false) w m)
  | moves_to target : v ≠ info_state i → is_visible v = true → (v = state_restored → target = restore_rect i) →
      state_moves l w i x v m (relocate l w (top_left (rect x)) target m).

Section changing.
Context (sh : Answers) (w : Z) (v : MirWindowState) (s : WM) (i : SurfaceInfo) (x : SceneSurface) (l : list Z).
Context (Hal : ∀ y, y ∈ l → y ∈ dom (surfaces s)) (Hi : surface_info s !! w = Some i) (Hx : surfaces s !! w = Some x).
Context (Hl : subtree (depth s) (surface_info s) w = Ret l) (Hv : handled_state v = true).

(** The info once the place to restore is saved and the output forgotten. *)
Definition saved_info : SurfaceInfo :=
  let i := if bool_decide (info_state i = state_restored) then with_restore (rect x) i else i in
  if bool_decide (info_state i ≠ state_fullscreen) then with_output None i else i.

Lemma saved_info_fields :
  info_state saved_info = info_state i ∧ info_parent saved_info = info_parent i ∧ children saved_info = children i ∧
  restore_rect saved_info = if bool_decide (info_state i = state_restored) then rect x else restore_rect i.
Proof. unfold saved_info. repeat case_bool_decide; done. Qed.

Lemma set_state_saves :
  ∃ s1, handle_set_state sh w v s =
    (if bool_decide (info_state i = v) then pret v
     else if is_visible v then
       let target := state_target sh s1 saved_info (rect x) v in
       do* surface_resize w (size target) in
       do* move_tree_of w (point_sub (top_left target) (top_left (rect x))) in
       do* update_info w (with_state v) in do* set_shown w true in pret v
     else do* set_shown w false in do* update_info w (with_state v) in pret v) s1 ∧
    surfaces s1 = surfaces s ∧ surface_info s1 = <[w := saved_info]> (surface_info s) ∧ skeleton s1 = skeleton s.
Proof.
  unfold handle_set_state. rewrite (pbind_silent _ _ _ _ _ (info_for_run w i s Hi)), Hv.
  rewrite (pbind_silent _ _ _ _ _ (surface_get_run w x s Hx)).
  unfold update_info at 1. rewrite pwhen_run. set (s1 := if bool_decide (info_state i = state_restored) then _ else s).
  set (i1 := if bool_decide (info_state i = state_restored) then with_restore (rect x) i else i).
  assert (surfaces s1 = surfaces s ∧ surface_info s1 = <[w := i1]> (surface_info s)) as [Hs1 Hi1].
  { unfold s1, i1. case_bool_decide; (split; [done|]); cbn.
    - rewrite <- (insert_id _ _ _ Hi) at 1. by rewrite alter_insert_eq.
    - by rewrite insert_id. }
  assert (∃ s2, ((if bool_decide (info_state i ≠ state_fullscreen) then
           do* update_info w (with_output None) in
           pmodify (λ s, set_fullscreen (fullscreen_surfaces s ∖ {[w]}) s)
         else pmodify (λ s, set_fullscreen (fullscreen_surfaces s ∪ {[w]}) s)) : M unit) s1 = Run (Ret tt) s2 [] ∧
    surfaces s2 = surfaces s ∧ surface_info s2 = <[w := saved_info]> (surface_info s)) as (s2 & Hrun & Hs2 & Hi2).
  { unfold saved_info. fold i1. assert (info_state i1 = info_state i) as -> by (unfold i1; by case_bool_decide).
    case_bool_decide; (eexists; split; [done|]); cbn; (split; [done|]); rewrite Hi1; [by rewrite alter_insert_eq|done]. }
  rewrite (pbind_silent _ _ _ _ _ Hrun).
  rewrite (pbind_silent _ _ _ _ _ (info_for_run w saved_info s2 ltac:(by rewrite Hi2, lookup_insert_eq))).
  destruct saved_info_fields as (-> & Hp & Hc & _). exists s2. split; [|split; [done|split; [done|]]].
  - destruct (bool_decide (info_state i = v)); [done|]. destruct (is_visible v); [|done]. by rewrite pbind_get.
  - unfold skeleton. rewrite Hs2, Hi2.
    assert (next_surface s2 = next_surface s) as ->.
    { transitivity (next_surface s1); [|unfold s1; by destruct (bool_decide _)].
      revert Hrun. destruct (bool_decide (info_state i ≠ state_fullscreen)); intros Hrun; injection Hrun as <-; done. }
    f_equal. apply map_eq. intros y. rewrite !lookup_fmap.
    destruct (decide (y = w)) as [->|]; [rewrite lookup_insert_eq, Hi; cbn; congruence|by rewrite lookup_insert_ne].
Qed.

Lemma handle_set_state_run :
  ∃ s', handle_set_state sh w v s = Run (Ret v) s' [] ∧ skeleton s' = skeleton s ∧
    (∃ i', surface_info s' !! w = Some i' ∧ info_state i' = v ∧ restore_rect i' = restore_rect saved_info) ∧
    state_moves l w saved_info x v (surfaces s) (surfaces s').
Proof.
  destruct set_state_saves as (s1 & Hrun & Hs1 & Hi1 & Hk).
  assert (keeps_skeleton (skeleton s) (post (handle_set_state sh w v s)) ([] ++ trace (handle_set_state sh w v s))) as Hkeep
    by (by apply (keeps_set_state (skeleton s) sh w v s [])).
  unfold keeps_skeleton in Hkeep. revert Hkeep. rewrite Hrun. clear Hrun.
  destruct saved_info_fields as (Hst & _ & _ & Hre). rewrite <- Hst.
  assert (surface_info s1 !! w = Some saved_info) as Hw by by rewrite Hi1, lookup_insert_eq.
  assert (surfaces s1 !! w = Some x) as Hx1 by by rewrite Hs1.
  destruct (decide (info_state saved_info = v)) as [Heq|Hne].
  { rewrite bool_decide_true by done. intros Hkeep. exists s1. split_and!; [done|done|by exists saved_info|]. rewrite Hs1. by constructor. }
  rewrite bool_decide_false by done. destruct (is_visible v) eqn:Hvis.
  - cbv zeta. set (target := state_target sh s1 saved_info (rect x) v). unfold surface_resize.
    rewrite (pbind_silent _ _ _ _ _ (surface_do_run w x _ s1 Hx1)). set (s2 := set_surfaces _ s1).
    assert (skeleton s2 = skeleton s) as Hk2.
    { rewrite <- Hk. unfold skeleton, s2. cbn. f_equal. f_equal. apply dom_alter_L. }
    assert (∀ y, y ∈ l → y ∈ dom (surfaces s2)) as H2 by (intros y Hy; cbn; rewrite dom_alter_L, Hs1; by apply Hal).
    assert (subtree (depth s2) (surface_info s2) w = Ret l) as Hl2 by (rewrite <- Hl; by apply subtree_skeleton).
    rewrite (pbind_silent _ _ _ _ _ (move_tree_of_run s2 w l _ Hl2 H2)). set (s3 := moved _ l s2).
    unfold update_info. rewrite pbind_modify. set (s4 := set_infos _ s3).
    assert (w ∈ dom (surfaces s4)) as [x4 Hx4]%elem_of_dom by (cbn; rewrite dom_shift_all, dom_alter_L; apply elem_of_dom; by eexists).
    unfold set_shown. rewrite (pbind_silent _ _ _ _ _ (surface_do_run w x4 _ s4 Hx4)). cbn [post pret]. intros Hkeep.
    eexists. split; [done|]. split; [exact Hkeep|]. split.
    + exists (with_state v saved_info). split_and!; [|done|done]. cbn. by rewrite lookup_alter_eq, Hw.
    + cbn [surfaces set_surfaces]. unfold s4, s3, s2, moved. cbn [surfaces set_surfaces set_infos]. rewrite Hs1.
      apply (moves_to l w saved_info x v (surfaces s) target); [congruence|done|]. intros Hr. unfold target. by rewrite Hr.
  - unfold set_shown. rewrite (pbind_silent _ _ _ _ _ (surface_do_run w x _ s1 Hx1)). unfold update_info. rewrite pbind_modify. cbn [post pret].
    intros Hkeep. eexists. split; [done|]. split; [exact Hkeep|]. split.
    + exists (with_state v saved_info). split_and!; [|done|done]. cbn. by rewrite lookup_alter_eq, Hw.
    + cbn [surfaces set_surfaces set_infos]. rewrite Hs1. by apply moves_hidden.
Qed.
End changing.

(** *** A window back in its place *)
Lemma int32_multiple z : ∃ k, int32 z = z + k * 2 ^ 32.
Proof. exists (- ((z + 2 ^ 31) / 2 ^ 32)). unfold int32. rewrite Z.mod_eq by lia. lia. Qed.
Lemma int32_periodic z k : int32 (z + k * 2 ^ 32) = int32 z.
Proof. unfold int32. replace (z + k * 2 ^ 32 + 2 ^ 31) with (z + 2 ^ 31 + k * 2 ^ 32) by lia. by rewrite Z_mod_plus_full. Qed.
Lemma int32_add_l x y : int32 (int32 x + y) = int32 (x + y).
Proof. destruct (int32_multiple x) as [k ->]. rewrite <- (int32_periodic (x + y) k). f_equal. lia. Qed.
Lemma int32_add_r x y : int32 (x + int32 y) = int32 (x + y).
Proof. by rewrite Z.add_comm, int32_add_l, Z.add_comm. Qed.
(** A shift that leaves one coordinate where it was leaves them all. *)
Lemma int32_no_shift p q a : int_min ≤ p ≤ int_max → int_min ≤ q ≤ int_max → int32 (p + a) = p → int32 (q + a) = q.
Proof.
  intros Hp Hq Heq. destruct (int32_multiple (p + a)) as [k Hk]. replace a with ((- k) * 2 ^ 32) by lia.
  rewrite int32_periodic. by apply int32_id.
Qed.

Definition coordinates_fit (s : WM) : Prop :=
  ∀ y x, surfaces s !! y = Some x →
    int_min ≤ px (top_left (rect x)) ≤ int_max ∧ int_min ≤ py (top_left (rect x)) ≤ int_max.
Definition offset (a b : Z) (p : Point) : Point := Pt (int32 (px p + a)) (int32 (py p + b)).
Lemma translate_offset a b d p : translate d (offset a b p) = offset (a + dx d) (b + dy d) p.
Proof. unfold translate, point_add, offset, int_add. cbn. by rewrite !int32_add_l, !Z.add_assoc. Qed.
Lemma translate_to p q : int_min ≤ px q ≤ int_max → int_min ≤ py q ≤ int_max → translate (point_sub q p) p = q.
Proof.
  intros Hx Hy. unfold translate, point_add, point_sub, int_add, int_sub. cbn. rewrite !int32_add_r.
  destruct q as [a b]. cbn in *. f_equal; (etransitivity; [|by apply int32_id]); f_equal; lia.
Qed.

Lemma relocate_lookup l w old target m y : NoDup l → w ∈ l →
  relocate l w old target m !! y =
    (λ x, if bool_decide (y = w) then set_show true (shifted (point_sub (top_left target) old) (set_size (size target) x))
          else if bool_decide (y ∈ l) then shifted (point_sub (top_left target) old) x else x) <$> m !! y.
Proof.
  intros Hnd Hw. unfold relocate. destruct (decide (y = w)) as [->|Hne].
  - rewrite lookup_alter_eq, shift_all_lookup, bool_decide_true, lookup_alter_eq by done. destruct (m !! w); cbn; [|done].
    by rewrite bool_decide_true.
  - rewrite lookup_alter_ne, shift_all_lookup, lookup_alter_ne by done. destruct (m !! y) as [x|]; cbn; [|by destruct (bool_decide _)].
    rewrite (bool_decide_false (y = w)) by done. by destruct (bool_decide (y ∈ l)).
Qed.

(** Between two restored states: the window's tree is [(a, b)] away from where
    it was and the place to restore is remembered. *)
Record displaced (w : Z) (l : list Z) (x0 : SceneSurface) (s0 s : WM) : Prop := {
  dp_skeleton : skeleton s = skeleton s0;
  dp_place : ∃ i x, surface_info s !! w = Some i ∧ surfaces s !! w = Some x ∧
    (if bool_decide (info_state i = state_restored) then rect x else restore_rect i) = rect x0 ∧
    (is_visible (info_state i) = true → shown x0 = true → shown x = true);
  dp_shift : ∃ a b, ∀ y x1, surfaces s0 !! y = Some x1 → ∃ x, surfaces s !! y = Some x ∧
    top_left (rect x) = (if bool_decide (y ∈ l) then offset a b (top_left (rect x1)) else top_left (rect x1)) ∧
    (y ≠ w → size (rect x) = size (rect x1))
}.

Definition fits (r : Rectangle) : Prop :=
  int_min ≤ px (top_left r) ≤ int_max ∧ int_min ≤ py (top_left r) ≤ int_max ∧ 1 ≤ width (size r) ∧ 1 ≤ height (size r).

Section roundtrip.
Context (w : Z) (l : list Z) (x0 : SceneSurface) (s0 : WM).
Context (Hal : ∀ y, y ∈ l → y ∈ dom (surfaces s0)) (Hl : subtree (depth s0) (surface_info s0) w = Ret l) (Hnd : NoDup l) (Hw : w ∈ l) (Hfit : fits (rect x0)).

(** How a change of state moves the other windows. *)
Lemma state_moves_shift i x v s s' :
  state_moves l w i x v (surfaces s) (surfaces s') →
  (∃ a b, ∀ y x1, surfaces s0 !! y = Some x1 → ∃ x, surfaces s !! y = Some x ∧
    top_left (rect x) = (if bool_decide (y ∈ l) then offset a b (top_left (rect x1)) else top_left (rect x1)) ∧
    (y ≠ w → size (rect x) = size (rect x1))) →
  ∃ a b, ∀ y x1, surfaces s0 !! y = Some x1 → ∃ x, surfaces s' !! y = Some x ∧
    top_left (rect x) = (if bool_decide (y ∈ l) then offset a b (top_left (rect x1)) else top_left (rect x1)) ∧
    (y ≠ w → size (rect x) = size (rect x1)).
Proof.
  intros Hm (a & b & Hshift). destruct Hm as [_|_ _|target _ _ _]; [by exists a, b|exists a, b|].
  - intros y x1 (z & Hz & Ht & Hsz)%Hshift. destruct (decide (y = w)) as [->|].
    + rewrite lookup_alter_eq, Hz. by eexists.
    + rewrite lookup_alter_ne by done. by exists z.
  - set (d := point_sub (top_left target) (top_left (rect x))). exists (a + dx d), (b + dy d).
    intros y x1 (z & Hz & Ht & Hsz)%Hshift. rewrite relocate_lookup, Hz by done. fold d. clearbody d. cbn. eexists. split; [done|].
    rewrite <- translate_offset. destruct (decide (y = w)) as [->|Hne].
    + rewrite bool_decide_true in Ht by done. rewrite !bool_decide_true by done. split; [cbn; by rewrite Ht|done].
    + rewrite (bool_decide_false (y = w)) by done. case_bool_decide; cbn; (split; [by rewrite Ht|done]).
Qed.
(** How it leaves the window itself. *)
Lemma state_moves_self i x v m m' :
  state_moves l w i x v m m' → m !! w = Some x →
  (if bool_decide (info_state i = state_restored) then rect x else restore_rect i) = rect x0 →
  restore_rect i = rect x0 →
  (is_visible (info_state i) = true → shown x0 = true → shown x = true) →
  ∃ x', m' !! w = Some x' ∧ (if bool_decide (v = state_restored) then rect x' else restore_rect i) = rect x0 ∧
    (is_visible v = true → shown x0 = true → shown x' = true).
Proof.
  intros Hm Hx Hplace Hre Hshown. destruct Hm as [->|Hne Hv|target Hne Hv Htarget].
  - by exists x.
  - rewrite lookup_alter_eq, Hx. eexists. split; [done|]. split; [|congruence].
    rewrite bool_decide_false; [done|]. by intros ->.
  - rewrite relocate_lookup, Hx by done. cbn. rewrite !bool_decide_true by done. eexists. split; [done|]. split; [|done].
    destruct (decide (v = state_restored)) as [Hr|Hr]; [rewrite bool_decide_true by done|by rewrite bool_decide_false by done].
    rewrite (Htarget Hr), Hre. destruct Hfit as (? & ? & ? & ?). cbn.
    rewrite translate_to by done. destruct (rect x0) as [tl [sw ss]]. cbn in *. f_equal. f_equal; match goal with |- (if ?c then _ else _) = _ => destruct c eqn:? end; lia.
Qed.

Lemma set_window_state_step sh v s :
  displaced w l x0 s0 s → handled_state v = true →
  ∃ s', set_window_state sh w v s = Run (Ret tt) s' [] ∧ displaced w l x0 s0 s' ∧ info_state <$> surface_info s' !! w = Some v.
Proof.
  intros [Hk (i & x & Hi & Hx & Hplace & Hshown) Hshift] Hv.
  assert (∀ y, y ∈ l → y ∈ dom (surfaces s)) as Hok by (intros y Hy; unfold skeleton in Hk; injection Hk as -> _ _; by apply Hal).
  assert (subtree (depth s) (surface_info s) w = Ret l) as Hl' by (rewrite <- Hl; by apply subtree_skeleton).
  destruct (handle_set_state_run sh w v s i x l Hok Hi Hx Hl' Hv) as (s1 & Hrun & Hk1 & (i1 & Hi1 & Hst1 & Hre1) & Hmoves).
  destruct (saved_info_fields i x) as (Hsst & _ & _ & Hsre). rewrite Hplace in Hsre. rewrite Hsre in Hre1.
  pose proof (state_moves_shift _ _ _ s s1 Hmoves Hshift) as Hshift1.
  destruct (state_moves_self _ _ _ _ _ Hmoves Hx ltac:(rewrite Hsst; by case_bool_decide) Hsre ltac:(by rewrite Hsst))
    as (x1 & Hx1 & Hplace1 & Hshown1).
  unfold set_window_state. rewrite (pbind_silent _ _ _ _ _ Hrun). unfold configure_state.
  rewrite (surface_do_run w x1 _ s1 Hx1). eexists. split; [done|]. cbn [surface_info set_surfaces].
  split; [|by rewrite Hi1; cbn; rewrite Hst1]. split.
  - rewrite <- Hk, <- Hk1. unfold skeleton. cbn. by rewrite dom_alter_L.
  - eexists i1, _. cbn [surface_info surfaces set_surfaces]. rewrite lookup_alter_eq, Hx1. cbn. split_and!; [done|done| |].
    + rewrite Hst1, Hre1. rewrite Hsre in Hplace1. exact Hplace1.
    + by rewrite Hst1.
  - destruct Hshift1 as (a & b & Hsh). exists a, b. intros y z (z' & Hz' & ? & ?)%Hsh. cbn [surfaces set_surfaces].
    destruct (decide (y = w)) as [->|]; [rewrite lookup_alter_eq, Hz'; by eexists|rewrite lookup_alter_ne by done; by exists z'].
Qed.

Lemma set_window_states_run vs s :
  displaced w l x0 s0 s → Forall (λ e, handled_state e.2 = true) vs →
  ∃ s', pfor vs (λ e, set_window_state e.1 w e.2) s = Run (Ret tt) s' [] ∧ displaced w l x0 s0 s'.
Proof.
  intros Hd Hvs. revert s Hd. induction Hvs as [|[sh v] vs Hv _ IH]; intros s Hd; cbn [pfor]; [by exists s|].
  destruct (set_window_state_step sh v s Hd Hv) as (s1 & Hrun & Hd1 & _).
  rewrite (pbind_silent _ _ _ _ _ Hrun). by apply IH.
Qed.

(** Restored, everything is where it was. *)
Lemma displaced_restored s :
  displaced w l x0 s0 s → info_state <$> surface_info s !! w = Some state_restored → coordinates_fit s0 →
  surfaces s0 !! w = Some x0 →
  (∀ y, rect <$> surfaces s !! y = rect <$> surfaces s0 !! y) ∧ (shown x0 = true → shown <$> surfaces s !! w = Some true).
Proof.
  intros [Hk (i & x & Hi & Hx & Hplace & Hshown) (a & b & Hshift)] Hst Hc Hx0.
  rewrite Hi in Hst. injection Hst as Hst. rewrite Hst in Hplace, Hshown. rewrite bool_decide_true in Hplace by done.
  assert (∀ p, int_min ≤ px p ≤ int_max ∧ int_min ≤ py p ≤ int_max → offset a b p = p) as Hoff.
  { destruct (Hshift w x0 Hx0) as (x' & Hx' & Ht & _). rewrite bool_decide_true in Ht by done. assert (x' = x) as -> by congruence.
    rewrite Hplace in Ht. destruct Hfit as (Hfx & Hfy & _). unfold offset in Ht. clear Hplace.
    destruct (top_left (rect x0)) as [u v]. cbn in *. injection Ht as Hu Hv.
    intros [p q] [Hp Hq]. unfold offset. cbn in *. f_equal; [by apply (int32_no_shift u)|by apply (int32_no_shift v)]. }
  split; [|intros Hsh; rewrite Hx; cbn; f_equal; by apply Hshown].
  intros y. destruct (surfaces s0 !! y) as [x1|] eqn:Hx1.
  - destruct (Hshift y x1 Hx1) as (x' & Hx' & Ht & Hsz). rewrite Hx'. cbn. f_equal.
    destruct (decide (y = w)) as [->|Hne]; [congruence|]. specialize (Hsz Hne).
    assert (top_left (rect x') = top_left (rect x1)) by (rewrite Ht; case_bool_decide; [apply Hoff; by apply (Hc y)|done]).
    destruct (rect x'), (rect x1); cbn in *; congruence.
  - assert (y ∉ dom (surfaces s)) as Hn; [|apply not_elem_of_dom in Hn; by rewrite Hn].
    unfold skeleton in Hk. injection Hk as -> _ _. by apply not_elem_of_dom.
Qed.
End roundtrip.

(** *** Placing a window *)
Definition overlap_area (r d : Rectangle) : Z :=
  let i := size (intersection_with r d) in width i * height i.
Definition overlaps_fit (s : WM) : Prop :=
  ∀ w x d, focused_surface s = Some w → surfaces s !! w = Some x → d ∈ displays s → 0 ≤ overlap_area (rect x) d ≤ int_max.

Lemma best_overlap r ds best area :
  (∀ d, d ∈ ds → 0 ≤ overlap_area r d ≤ int_max) →
  let '(b, a) := foldl (λ '(best, area) d,
    let i := size (intersection_with r d) in
    let a := int32 (width i * height i) in if area <? a then (d, a) else (best, area)) (best, area) ds in
  area ≤ a ∧ (∀ d, d ∈ ds → overlap_area r d ≤ a) ∧ ((b = best ∧ a = area) ∨ (b ∈ ds ∧ a = overlap_area r b)).
Proof.
  revert best area. induction ds as [|d ds IH]; intros best area Hd; cbn [foldl].
  { split; [lia|]. split; [by intros d ?%elem_of_nil|by left]. }
  rewrite int32_id by (specialize (Hd d ltac:(left)); unfold overlap_area, int_min, int_max in *; lia).
  change (width (size (intersection_with r d)) * height (size (intersection_with r d))) with (overlap_area r d).
  assert (∀ d', d' ∈ ds → 0 ≤ overlap_area r d' ≤ int_max) as Hds by (intros; apply Hd; by right).
  destruct (Z.ltb_spec area (overlap_area r d)) as [Hlt|Hge].
  - specialize (IH d (overlap_area r d) Hds). destruct (foldl _ _ ds) as [b a]. destruct IH as (H1 & H2 & H3).
    split; [lia|]. split; [by intros d' [->|?]%elem_of_cons; auto|]. right. destruct H3 as [[-> ->]|[? ?]]; (split; [|done]); [left|by right].
  - specialize (IH best area Hds). destruct (foldl _ _ ds) as [b a]. destruct IH as (H1 & H2 & H3).
    split; [done|]. split; [intros d' [->|?]%elem_of_cons; [lia|auto]|]. destruct H3 as [?|[? ?]]; [by left|right; split; [by right|done]].
Qed.

Lemma active_display_best s :
  displays s ≠ [] → overlaps_fit s →
  active_display s ∈ displays s ∧
  match focused_surface s with
  | Some w => ∀ x d, surfaces s !! w = Some x → d ∈ displays s → overlap_area (rect x) d ≤ overlap_area (rect x) (active_display s)
  | None => contains_point (active_display s) (cursor s) = true ∨
      (∀ d, d ∈ displays s → contains_point d (cursor s) = false) ∧ head (displays s) = Some (active_display s)
  end.
Proof.
  intros Hne Hfit. unfold active_display. unfold overlaps_fit in Hfit. destruct (focused_surface s) as [w|] eqn:Hf.
  - assert (∃ x, surfaces s !! w = Some x) as [x Hx].
    { unfold focused_surface in Hf. apply lock_spec in Hf as [_ Hw]. by apply elem_of_dom in Hw. }
    rewrite Hx. assert (∀ d, d ∈ displays s → 0 ≤ overlap_area (rect x) d ≤ int_max) as Hx' by (intros d; by apply (Hfit w)).
    pose proof (best_overlap (rect x) (displays s) rectangle0 (-1) Hx') as Hb.
    destruct (foldl _ _ _) as [b a]. cbn. destruct Hb as (H1 & H2 & H3). destruct (displays s) as [|d0 ds]; [done|].
    pose proof (H2 d0 ltac:(left)). pose proof (Hx' d0 ltac:(left)).
    destruct H3 as [[_ ->]|[Hin ->]]; [lia|]. split; [done|]. intros x' d [= <-]. apply H2.
  - destruct (find_if _ _) as [d|] eqn:Hd.
    + apply find_if_Some in Hd as [Hin Hc]. split; [done|]. by left.
    + destruct (displays s) as [|d0 ds]; [done|]. split; [left|]. right. split; [|done]. by apply find_if_None.
Qed.

Definition inside (r area : Rectangle) : Prop :=
  px (top_left area) ≤ px (top_left r) ∧ px (top_left r) + width (size r) ≤ px (top_left area) + width (size area) ∧
  py (top_left area) ≤ py (top_left r) ∧ py (top_left r) + height (size r) ≤ py (top_left area) + height (size area).
(** A display's corners are coordinates. *)
Definition display_fits (d : Rectangle) : Prop :=
  int_min ≤ px (top_left d) ∧ int_min ≤ py (top_left d) ∧ 0 ≤ width (size d) ∧ 0 ≤ height (size d) ∧
  width (size d) ≤ int_max ∧ height (size d) ≤ int_max ∧
  px (top_left d) + width (size d) ≤ int_max ∧ py (top_left d) + height (size d) ≤ int_max.

Lemma centred_inside d sz :
  display_fits d → 0 ≤ width sz ≤ width (size d) → 0 ≤ height sz ≤ height (size d) →
  inside (Rect (optically_centred (top_left d) (size d) sz) sz) d.
Proof.
  unfold display_fits, inside, optically_centred, int_add, int_sub, int_max, int_min. cbn. intros Hd Hw Hh.
  assert (∀ z, int_min ≤ z ≤ int_max → int32 z = z) as Hid by apply int32_id. unfold int_min, int_max in Hid.
  set (a := width (size d) - width sz). set (b := height (size d) - height sz).
  assert (0 ≤ a ∧ 0 ≤ b) as [Ha0 Hb0] by (subst a b; lia). rewrite (Hid a), (Hid b) by (subst a b; lia).
  assert (0 ≤ Z.quot a 2 ≤ a) as Ha by (Z.to_euclidean_division_equations; lia).
  assert (0 ≤ Z.quot b 6 ≤ Z.quot b 2 ∧ Z.quot b 2 ≤ b) as Hb by (Z.to_euclidean_division_equations; lia).
  generalize dependent (Z.quot a 2). generalize dependent (Z.quot b 2). generalize dependent (Z.quot b 6). subst a b.
  intros. rewrite (Hid (px _ + _)), (Hid (py _ + _)), Hid by lia. lia.
Qed.

Lemma place_on_display_inside d area st sz :
  display_fits d → py (top_left area) ≤ py (top_left d) → 0 ≤ width sz ≤ width (size d) → 0 ≤ height sz ≤ height (size d) →
  inside (place_on_display d area st sz) d ∧
  (st = state_restored → size (place_on_display d area st sz) = sz) ∧
  (st = state_maximized ∨ st = state_fullscreen → place_on_display d area st sz = d).
Proof.
  intros Hd Harea Hw Hh. destruct (centred_inside d sz Hd Hw Hh) as (H1 & H2 & H3 & H4). unfold place_on_display. cbn in *.
  set (r := match st with state_maximized | state_fullscreen => d | _ => _ end).
  assert (inside r d) as Hr by (unfold inside, display_fits in *; unfold r; destruct st; cbn; lia).
  assert (py (top_left area) ≤ py (top_left r)) by (destruct Hr as (_ & _ & ? & _); lia).
  destruct (Z.ltb_spec (py (top_left r)) (py (top_left area))); [lia|]. split; [done|].
  split; [by intros ->|]. by intros [->| ->].
Qed.

(** The request is refused on its type and parent only. *)
Lemma place_refused sh s session p :
  match p_type p with
  | None => ∃ e, place_new_surface sh s session p = Throw e
  | Some t =>
      let refused := (placing_must_not_have_parent t && bool_decide (is_Some (lock s (p_parent p)))) ||
                     (placing_must_have_parent t && bool_decide (lock s (p_parent p) = None)) in
      if refused then ∃ e, place_new_surface sh s session p = Throw e
      else ∃ st r, place_new_surface sh s session p = Ret (with_place st r p)
  end.
Proof.
  unfold place_new_surface. destruct (p_type p) as [t|]; [|by eexists]. cbv zeta.
  destruct (placing_must_not_have_parent t && _); [by eexists|]. destruct (placing_must_have_parent t && _); [by eexists|]. cbn [orb].
  match goal with |- ∃ st r, (let '(_, _) := ?e in _) = _ => destruct e as [[st r] b] end.
  match goal with |- ∃ st r, (let '(_, _) := ?e in _) = _ => destruct e as [r' b'] end. by do 2 eexists.
Qed.
(** An application's first window: nothing else places it. *)
Lemma place_first sh s session p p' :
  place_new_surface sh s session p = Ret p' → lock s (p_parent p) = None → p_output p = 0 → default_surface s session = None →
  let st := default state_restored (p_state p) in
  p' = with_place st (place_on_display (active_display s) (display_area s) st (p_size p)) p.
Proof.
  unfold place_new_surface. intros Hp Hpar Hout Hdef. destruct (p_type p) as [t|]; [|done]. cbv zeta in Hp.
  rewrite Hpar, Hout, Hdef in Hp. rewrite bool_decide_false in Hp by by intros []. rewrite andb_false_r in Hp.
  destruct (placing_must_have_parent t && _); [done|]. cbn in Hp. by injection Hp as <-.
Qed.

(** ** Properties *)

(** C23. Windows form trees that the manager walks without failing. Whatever
    sessions, windows, displays, input and states come and go: every surface
    there is has an info; a child is younger than the window it is listed under,
    is listed once there and under no other window, so the recursion along the
    children ends. A window that was not given another parent nor destroyed with
    its session is listed under a window that exists exactly when it exists and
    that is its parent, which is older. For a window whose tree holds no
    window such a thing happened to, all of the tree exists: raising it raises
    the tree, in one call, and moving it moves each window of the tree once, by
    the same amount, and nothing else. *)
Theorem window_tree (s : WM) (h : list wm_obs) :
  reachable wm_machine s h →
  dom (surfaces s) ⊆ dom (surface_info s) ∧
  (∀ p i, surface_info s !! p = Some i → NoDup (children i)) ∧
  (∀ p q c, child_of (surface_info s) p c → p < c ∧ (child_of (surface_info s) q c → p = q)) ∧
  (∀ p c, p ∈ dom (surfaces s) → c ∉ disturbed h →
     child_of (surface_info s) p c ↔ c ∈ dom (surfaces s) ∧ ∃ j, surface_info s !! c = Some j ∧ info_parent j = Some p) ∧
  (∀ w, w ∈ dom (surfaces s) → untouched (disturbed h) s w →
     ∃ l, NoDup l ∧ (∀ x, x ∈ l ↔ rtc (child_of (surface_info s)) w x) ∧ (∀ x, x ∈ l → x ∈ dom (surfaces s)) ∧
       raise_tree w s = Run (Ret tt) s [RaiseSurfaces (list_to_set l)] ∧
       ∀ d, ∃ m, move_tree_of w d s = Run (Ret tt) (set_surfaces m s) [] ∧
         ∀ y, m !! y = if bool_decide (y ∈ l) then shifted d <$> surfaces s !! y else surfaces s !! y).
Proof.
  intros Hs%wm_reachable. split_and!.
  - apply Hs.
  - intros p i. apply Hs.
  - intros p q c Hpc. split; [by apply Hs|]. intros Hqc. by eapply t_one; [apply Hs|..].
  - intros p c Hp HD. split; [by apply Hs|]. intros (Hc & j & Hj & Hjp).
    by apply (w_parent _ _ Hs c j p HD Hc Hj Hjp).
  - intros w Hw Hu. destruct (untouched_tree _ s w Hs Hw Hu) as (l & Hl & Hnd & Hin & Hal).
    exists l. split_and!; [done..|by apply raise_tree_run|]. intros d. exists (shift_all d l (surfaces s)).
    split; [by apply move_tree_of_run|]. intros y. by apply shift_all_lookup.
Qed.

(** C24. Restoring a window undoes every change of state. Take a window that is
    restored, no window of whose tree was given another parent or destroyed with
    its session, and send it through any sequence of maximized, vertically and
    horizontally maximized, fullscreen, minimized and hidden states, whatever
    the display layout answers; no call fails, and once it is restored again the
    window and every other window, those of its tree that moved along included,
    have the position and size they had, and a window that was shown is shown. *)
Theorem set_state_roundtrip (s : WM) (h : list wm_obs) (w : Z) (i : SurfaceInfo) (x : SceneSurface)
    (sh : Answers) (vs : list (Answers * MirWindowState)) :
  reachable wm_machine s h → untouched (disturbed h) s w → surface_info s !! w = Some i → surfaces s !! w = Some x →
  info_state i = state_restored → coordinates_fit s → 1 ≤ width (size (rect x)) → 1 ≤ height (size (rect x)) →
  Forall (λ e, handled_state e.2 = true) vs →
  ∃ s1 s2, pfor vs (λ e, set_window_state e.1 w e.2) s = Run (Ret tt) s1 [] ∧
    set_window_state sh w state_restored s1 = Run (Ret tt) s2 [] ∧
    info_state <$> surface_info s2 !! w = Some state_restored ∧
    (∀ y, rect <$> surfaces s2 !! y = rect <$> surfaces s !! y) ∧
    (shown x = true → shown <$> surfaces s2 !! w = Some true).
Proof.
  intros Hs%wm_reachable Hu Hi Hx Hst Hc Hwd Hht Hvs.
  destruct (untouched_tree _ s w Hs ltac:(apply elem_of_dom; by eexists) Hu) as (l & Hl & Hnd & Hin & Hal).
  assert (w ∈ l) as Hw by by apply Hin.
  assert (fits (rect x)) as Hfit by (pose proof (Hc w x Hx); unfold fits; tauto).
  assert (displaced w l x s s) as Hd.
  { split; [done| |].
    - exists i, x. rewrite Hst. by split_and!.
    - exists 0, 0. intros y x1 Hx1. exists x1. split; [done|]. split; [|done]. case_bool_decide; [|done].
      destruct (Hc y x1 Hx1). unfold offset. rewrite !Z.add_0_r, !int32_id by done. by destruct (top_left (rect x1)). }
  destruct (set_window_states_run w l x s Hal Hl Hnd Hw Hfit vs s Hd Hvs) as (s1 & Hrun1 & Hd1).
  destruct (set_window_state_step w l x s Hal Hl Hnd Hw Hfit sh state_restored s1 Hd1 eq_refl) as (s2 & Hrun2 & Hd2 & Hst2).
  destruct (displaced_restored w l x s Hw Hfit s2 Hd2 Hst2 Hc Hx) as [Hrect Hshown]. exists s1, s2. by split_and!.
Qed.

(** The focus goes to the nearest window that can have it. Selecting a
    window none of whose ancestors, nor their trees, was given another parent or
    destroyed with its session makes active the first of the window and its
    ancestors that can be active, gives it the shell's focus together with its
    session, and raises it with exactly the windows of its tree; when there is
    none, nothing changes. Selecting no window takes the focus away. *)
Theorem focus_selection (s : WM) (h : list wm_obs) (w : Z) :
  reachable wm_machine s h → w ∈ dom (surfaces s) → (∀ x, rtc (parent_of s) w x → x ∉ disturbed h ∧ untouched (disturbed h) s x) →
  ((∃ a i l, nearest_active s w a ∧ surface_info s !! a = Some i ∧ (∀ x, x ∈ l ↔ rtc (child_of (surface_info s)) a x) ∧
      select_active (Some w) s =
        Run (Ret tt) (set_active (Some a) (set_focus (live_session s (info_session i), Some a) s))
          [SetFocusTo (live_session s (info_session i)) (Some a); RaiseSurfaces (list_to_set l)]) ∨
   ((∀ x, rtc (parent_of s) w x → ¬ may_be_active s x) ∧ select_active (Some w) s = Run (Ret tt) s [])) ∧
  ∃ s', select_active None s = Run (Ret tt) s' (if bool_decide (is_Some (lock s (active_surface_ s))) then [SetFocusTo None None] else []) ∧ active_surface_ s' = None.
Proof.
  intros Hs%wm_reachable Hw Hu. split.
  - assert (∀ x, rtc (parent_of s) w x → x ∈ dom (surfaces s)) as Hal.
    { intros x Hx. apply rtc_inv_r in Hx as [->|(c & _ & i & _ & _ & Hd)]; [done|exact Hd]. }
    destruct (select_active_run (depth s) w s) as [(a & l & i & Hn & Hi & Hl & Hrun)|Hno].
    + intros x p Hx (i & Hi & Hp & _). apply (w_parent _ _ Hs x i p); [by apply Hu|by apply Hal|done|done].
    + intros x Hx. destruct (untouched_tree _ s x Hs (Hal x Hx) (proj2 (Hu x Hx))) as (l & Hl & _). by exists l.
    + apply Hs.
    + by apply (w_dom _ _ Hs).
    + unfold depth. apply Nat.lt_succ_r. rewrite <- size_dom. apply subseteq_size. set_solver.
    + left. assert (rtc (parent_of s) w a) as Ha by apply Hn.
      destruct (untouched_tree _ s a Hs (Hal a Ha) (proj2 (Hu a Ha))) as (l' & Hl' & _ & Hin & _).
      assert (l' = l) as -> by congruence. exists a, i, l. split_and!; [done|done|done|].
      unfold select_active. by rewrite pbind_get.
    + right. unfold select_active. by rewrite pbind_get.
  - unfold select_active. rewrite pbind_get. unfold depth. cbn [select_active_surface]. rewrite pbind_get.
    destruct (lock s (active_surface_ s)) as [a|].
    + rewrite !bool_decide_true by by eexists. eexists. done.
    + rewrite !bool_decide_false by by intros [? ?]. eexists. done.
Qed.

(** Where a new window goes. A request is refused exactly when it has no
    type, when a normal or utility window names a live parent, or when a gloss,
    satellite or tip does not. An application's first window, without a parent
    or an output of its own and no larger than the active display, is put inside
    that display - one of the displays, the one the focused window overlaps most,
    else one under the pointer, else the first - keeping its size when it
    is restored and filling the display when maximized or fullscreen. *)
Theorem placement_spec (sh : Answers) (s : WM) (session : Z) (p : CreationParameters) :
  ((∃ e, place_new_surface sh s session p = Throw e) ↔
    match p_type p with
    | None => True
    | Some t => (placing_must_not_have_parent t = true ∧ is_Some (lock s (p_parent p))) ∨
                (placing_must_have_parent t = true ∧ lock s (p_parent p) = None)
    end) ∧
  (∀ p', place_new_surface sh s session p = Ret p' → lock s (p_parent p) = None → p_output p = 0 → default_surface s session = None →
    displays s ≠ [] → overlaps_fit s → display_fits (active_display s) →
    py (top_left (display_area s)) ≤ py (top_left (active_display s)) →
    0 ≤ width (p_size p) ≤ width (size (active_display s)) → 0 ≤ height (p_size p) ≤ height (size (active_display s)) →
    let r := Rect (p_top_left p') (p_size p') in
    let st := default state_restored (p_state p) in
    p_state p' = Some st ∧ active_display s ∈ displays s ∧ inside r (active_display s) ∧
    (st = state_restored → p_size p' = p_size p) ∧
    (st = state_maximized ∨ st = state_fullscreen → r = active_display s) ∧
    match focused_surface s with
    | Some w => ∀ x d, surfaces s !! w = Some x → d ∈ displays s → overlap_area (rect x) d ≤ overlap_area (rect x) (active_display s)
    | None => contains_point (active_display s) (cursor s) = true ∨
        (∀ d, d ∈ displays s → contains_point d (cursor s) = false) ∧ head (displays s) = Some (active_display s)
    end).
Proof.
  split.
  - pose proof (place_refused sh s session p) as Hr. destruct (p_type p) as [t|]; [|by split].
    cbv zeta in Hr. destruct (_ || _) eqn:Hb.
    + split; [|done]. intros _. apply orb_true_iff in Hb as [[? Hb]%andb_true_iff|[? Hb]%andb_true_iff];
        apply bool_decide_eq_true in Hb; [by left|by right].
    + destruct Hr as (st & r & ->). apply orb_false_iff in Hb as [H1 H2].
      split; [by intros []|]. intros [[Ht Hl]|[Ht Hl]]; rewrite Ht in *; cbn [andb] in *.
      * by apply bool_decide_eq_false in H1.
      * by apply bool_decide_eq_false in H2.
  - intros p' Hp' Hpar Hout Hdef Hne Hov Hd Harea Hw Hh. cbv zeta.
    rewrite (place_first sh s session p p' Hp' Hpar Hout Hdef). cbn [p_state p_size p_top_left with_place].
    destruct (place_on_display_inside _ _ (default state_restored (p_state p)) _ Hd Harea Hw Hh) as (Hin & Hsz & Hfull).
    destruct (active_display_best s Hne Hov) as [Hact Hbest]. destruct (place_on_display _ _ _ _) as [tl sz]. by split_and!.
Qed.

(** ** Examples *)

(** One display; a window with a menu, and a tip on the menu. *)
Definition wm_example_answers : Answers :=
  mkAnswers (λ _, None) (λ _ _, true) (None, None) (λ _ r, r) (λ _, Rect (Pt 0 0) (Sz 640 480)).
Definition wm_example_params (t : MirWindowType) (st : MirWindowState) (parent : option Z) : CreationParameters :=
  mkParams (Some t) (Some st) point0 (Sz 100 60) parent 0 None None (0, 0, 1000, 1000) (None, None) (None, None).
Definition wm_example_ops : list wm_op :=
  [OpAddSession 1; OpAddDisplay wm_example_answers (Rect (Pt 0 0) (Sz 640 480));
   OpAddSurface wm_example_answers 1 (wm_example_params type_normal state_restored None);
   OpAddSurface wm_example_answers 1 (wm_example_params type_menu state_restored (Some 1));
   OpAddSurface wm_example_answers 1 (wm_example_params type_tip state_restored (Some 2))].
Definition wm_example_run : WM * list wm_obs :=
  match run_ops wm_machine wm_example_ops empty_wm [] with Some r => r | None => (empty_wm, []) end.
Lemma wm_example_reachable : reachable wm_machine wm_example_run.1 wm_example_run.2.
Proof. apply (run_ops_from_init wm_machine wm_example_ops empty_wm); [done|]. vm_compute. reflexivity. Qed.

Lemma wm_example_untouched w : untouched (disturbed wm_example_run.2) wm_example_run.1 w.
Proof.
  intros x _. assert (disturbed wm_example_run.2 = ∅) as -> by (vm_compute; reflexivity). apply not_elem_of_empty.
Qed.
Lemma window_tree_witness :
  reachable wm_machine wm_example_run.1 wm_example_run.2 ∧ 1 ∈ dom (surfaces wm_example_run.1) ∧
  ∃ l, NoDup l ∧ (∀ x, x ∈ l ↔ rtc (child_of (surface_info wm_example_run.1)) 1 x) ∧
    raise_tree 1 wm_example_run.1 = Run (Ret tt) wm_example_run.1 [RaiseSurfaces (list_to_set l)].
Proof.
  assert (1 ∈ dom (surfaces wm_example_run.1)) as Hin by (apply (bool_decide_unpack (1 ∈ dom (surfaces wm_example_run.1))); vm_compute; exact I).
  split; [exact wm_example_reachable|]. split; [exact Hin|].
  destruct (window_tree _ _ wm_example_reachable) as (_ & _ & _ & _ & Ht).
  destruct (Ht 1 Hin (wm_example_untouched 1)) as (l & Hl & Hx & _ & Hr & _). exists l. auto.
Defined.

Definition wm_example_fits (e : Z * SceneSurface) : Prop :=
  (int_min ≤ px (top_left (rect e.2)) ≤ int_max) ∧ (int_min ≤ py (top_left (rect e.2)) ≤ int_max).
#[local] Instance wm_example_fits_dec e : Decision (wm_example_fits e).
Proof. unfold wm_example_fits. apply _. Defined.
Lemma set_state_roundtrip_witness :
  ∃ s1 s2, pfor [(wm_example_answers, state_maximized); (wm_example_answers, state_hidden); (wm_example_answers, state_fullscreen)]
      (λ e, set_window_state e.1 1 e.2) wm_example_run.1 = Run (Ret tt) s1 [] ∧
    set_window_state wm_example_answers 1 state_restored s1 = Run (Ret tt) s2 [] ∧
    ∀ y, rect <$> surfaces s2 !! y = rect <$> surfaces wm_example_run.1 !! y.
Proof.
  destruct (surface_info wm_example_run.1 !! 1) as [i|] eqn:Hi; [|vm_compute in Hi; discriminate Hi].
  destruct (surfaces wm_example_run.1 !! 1) as [x|] eqn:Hx; [|vm_compute in Hx; discriminate Hx].
  assert (info_state i = state_restored ∧ rect x = Rect (Pt 270 140) (Sz 100 60)) as [Hst Hr].
  { vm_compute in Hi, Hx. injection Hi as <-. injection Hx as <-. split; reflexivity. }
  destruct (set_state_roundtrip wm_example_run.1 wm_example_run.2 1 i x wm_example_answers
    [(wm_example_answers, state_maximized); (wm_example_answers, state_hidden); (wm_example_answers, state_fullscreen)])
    as (s1 & s2 & H1 & H2 & _ & H4 & _).
  - exact wm_example_reachable.
  - apply wm_example_untouched.
  - exact Hi.
  - exact Hx.
  - exact Hst.
  - intros y z Hz. apply elem_of_map_to_list in Hz. revert Hz.
    assert (Forall wm_example_fits (map_to_list (surfaces wm_example_run.1))) as Hall.
    { apply (bool_decide_unpack (Forall wm_example_fits (map_to_list (surfaces wm_example_run.1)))). vm_compute. exact I. }
    intros Hz. by apply (proj1 (Forall_forall _ _) Hall (y, z)).
  - rewrite Hr. cbn. lia.
  - rewrite Hr. cbn. lia.
  - repeat constructor.
  - exists s1, s2. auto.
Defined.

Lemma focus_selection_witness :
  3 ∈ dom (surfaces wm_example_run.1) ∧
  ((∃ a i l, nearest_active wm_example_run.1 3 a ∧ surface_info wm_example_run.1 !! a = Some i ∧ 
     value (select_active (Some 3) wm_example_run.1) = Ret tt ∧ active_surface_ (post (select_active (Some 3) wm_example_run.1)) = Some a ∧ a ∈ (l : list Z)) ∨
   ∀ x, rtc (parent_of wm_example_run.1) 3 x → ¬ may_be_active wm_example_run.1 x).
Proof.
  assert (3 ∈ dom (surfaces wm_example_run.1)) as Hin by (apply (bool_decide_unpack (3 ∈ dom (surfaces wm_example_run.1))); vm_compute; exact I).
  split; [exact Hin|].
  assert (∀ x, rtc (parent_of wm_example_run.1) 3 x → x ∉ disturbed wm_example_run.2 ∧ untouched (disturbed wm_example_run.2) wm_example_run.1 x) as Hu.
  { intros x _. split; [|apply wm_example_untouched]. by apply (wm_example_untouched x x). }
  destruct (focus_selection _ _ 3 wm_example_reachable Hin Hu) as [[(a & i & l & Hn & Hi & Hl & Hrun)|[Hno _]] _]; [left|right; exact Hno].
  exists a, i, l. rewrite Hrun. split_and!; [done|done|done|done|]. apply Hl. constructor.
Defined.

Definition wm_example_display : WM := post (add_display wm_example_answers (Rect (Pt 0 0) (Sz 640 480)) empty_wm).
Lemma placement_spec_witness :
  ∃ p', place_new_surface wm_example_answers wm_example_display 1 (wm_example_params type_normal state_restored None) = Ret p' ∧
    inside (Rect (p_top_left p') (p_size p')) (Rect (Pt 0 0) (Sz 640 480)) ∧ p_size p' = Sz 100 60.
Proof.
  destruct (placement_spec wm_example_answers wm_example_display 1 (wm_example_params type_normal state_restored None)) as [_ H].
  assert (active_display wm_example_display = Rect (Pt 0 0) (Sz 640 480) ∧ display_area wm_example_display = Rect (Pt 0 0) (Sz 640 480))
    as [Hact Harea] by (split; vm_compute; reflexivity).
  rewrite Hact, Harea in H. eexists. split; [vm_compute; reflexivity|].
  destruct (H _ ltac:(vm_compute; reflexivity) eq_refl eq_refl eq_refl) as (_ & _ & Hin & Hsz & _).
  - discriminate.
  - intros w x d Hw. discriminate Hw.
  - unfold display_fits, int_min, int_max. cbn. lia.
  - cbn. lia.
  - cbn. lia.
  - cbn. lia.
  - split; [exact Hin|by apply Hsz].
Defined.

(** A window made fullscreen without an output ends the server at the next
    change of the displays: nothing gave it one. *)
Lemma fullscreen_without_output :
  let s := post (add_surface wm_example_answers 1 (wm_example_params type_normal state_fullscreen None) (post (add_session 1 wm_example_display))) in
  value (add_display wm_example_answers (Rect (Pt 640 0) (Sz 640 480)) s) =
    Throw (undefined_behaviour "Accessing value of unset optional").
Proof. vm_compute. reflexivity. Qed.

(** A menu that is given another parent stays among the children of the first;
    once it is gone, moving the first window goes through a null pointer. *)
Definition wm_example_reparent (parent : Z) : Modifications :=
  mkMods (Some (Some parent)) None (None, None, None, None) (None, None) (None, None) None None false false None None None None.
Lemma reparented_child_remains :
  let s := post (handle_modify_surface wm_example_answers 2 (wm_example_reparent 3) wm_example_run.1) in
  let s := post (remove_surface wm_example_answers 1 2 s) in
  value (move_tree_of 1 (Dp 1 0) s) = Throw (undefined_behaviour "null surface").
Proof. vm_compute. reflexivity. Qed.

(** A request that sets both a minimum width and a smaller width is not held to
    the minimum: the old constraints are applied. *)
Definition wm_example_shrink : Modifications :=
  mkMods None None (Some 50, None, None, None) (None, None) (None, None) None None false false (Some 20) None None None.
Lemma modify_uses_old_constraints :
  let s := post (handle_modify_surface wm_example_answers 1 wm_example_shrink wm_example_run.1) in
  (min_width <$> surface_info s !! 1) = Some 50 ∧ (width ∘ size ∘ rect <$> surfaces s !! 1) = Some 20.
Proof. split; vm_compute; reflexivity. Qed.

(** Closing a session goes from one surface to the next that can take the focus:
    a tip whose parent is another session's window is left out, goes with the
    session, and stays listed; moving that window goes through a null pointer. *)
Definition wm_example_tip : list wm_op :=
  [OpAddSession 1; OpAddDisplay wm_example_answers (Rect (Pt 0 0) (Sz 640 480)); OpAddSession 2;
   OpAddSurface wm_example_answers 1 (wm_example_params type_normal state_restored None);
   OpAddSurface wm_example_answers 2 (wm_example_params type_normal state_restored None);
   OpAddSurface wm_example_answers 2 (wm_example_params type_tip state_restored (Some 1));
   OpCloseSession wm_example_answers 2 id; OpSessionGone 2].
Lemma tip_goes_with_its_session :
  match run_ops wm_machine wm_example_tip empty_wm [] with
  | Some (s, h) => dom (surfaces s) = {[1]} ∧ child_of (surface_info s) 1 3 ∧ disturbed h = {[3]} ∧
      value (move_tree_of 1 (Dp 1 0) s) = Throw (undefined_behaviour "null surface")
  | None => False
  end.
Proof.
  vm_compute. split; [reflexivity|split; [|split; reflexivity]]. eexists. split; [reflexivity|]. left.
Qed.

(** A tip may name itself as its parent; a click on it then never ends. *)
Lemma own_parent_is_endless :
  let s := post (handle_modify_surface wm_example_answers 3 (wm_example_reparent 3) wm_example_run.1) in
  value (select_active (Some 3) s) = Throw (undefined_behaviour "stack overflow").
Proof. vm_compute. reflexivity. Qed.
