(* ===== verification/ObserverList.v ===== *)
(** The list of observers that threads share without a common lock
    (include/common/mir/thread_safe_list.h, the base of every observer list).

    A chain of items that only grows: an item's slot is emptied by [remove] and
    taken again by [add].  Each item has a recursive read-write mutex
    ([ReadWriteMutex]): a read or write section is one step here, except the
    section in which [for_each] calls its function, which holds the read lock
    of its item while other threads - and the function itself, which may call
    the list again - go on.  Calls are numbered; the observations say when one
    begins and ends, which slot it writes and what it calls. *)

From S2P Require Import Prelude.

Section list.
Context {E : Type} `{EqDecision E}.

(** ** Calls and where they are *)
Inductive list_call :=
  | CallAdd (e : E)
  | CallRemove (e : E)
  | CallRemoveAll (e : E)
  | CallClear
  | CallForEach.

(** The item a call is at ([current_item]) and what it does there next. *)
Inductive list_pc :=
  (** [add] *)
  | AddRead (i : nat) (e : E)
  | AddWrite (i : nat) (e : E)
  | AddNext (i : nat) (e : E)
  | AddLink (i : nat) (e : E)
  (** [remove] ([all = false]) and [remove_all] *)
  | RemoveRead (i : nat) (e : E) (all : bool) (removed : Z)
  | RemoveWrite (i : nat) (e : E) (all : bool) (removed : Z)
  | RemoveNext (i : nat) (e : E) (all : bool) (removed : Z)
  (** [clear] *)
  | ClearWrite (i : nat)
  (** [for_each] *)
  | Visit (i : nat)
  | InCall (i : nat) (e : E).

Record SharedList := mkList {
  (** the items' elements, head first; [None] is an invalid element *)
  items : list (option E);
  (** per thread its calls, innermost first *)
  stacks : gmap Z (list (Z * list_pc));
  next_call : Z
}.

Inductive list_obs :=
  | Begin (k : Z) (c : list_call)
  | Wrote (k : Z) (i : nat) (o : option E)
  | Called (k : Z) (i : nat) (e : E)
  | End (k : Z) (removed : Z).

#[local] Abbreviation M := (prog SharedList list_obs).

Definition set_items (l : list (option E)) (s : SharedList) : SharedList := mkList l (stacks s) (next_call s).
Definition set_stack (t : Z) (st : list (Z * list_pc)) (s : SharedList) : SharedList :=
  mkList (items s) (<[t := st]> (stacks s)) (next_call s).
Definition stack (s : SharedList) (t : Z) : list (Z * list_pc) := default [] (stacks s !! t).

(** ** One step of a call *)
Definition start_pc (c : list_call) : list_pc :=
  match c with
  | CallAdd e => AddRead 0 e
  | CallRemove e => RemoveRead 0 e false 0
  | CallRemoveAll e => RemoveRead 0 e true 0
  | CallClear => ClearWrite 0
  | CallForEach => Visit 0
  end.

Inductive list_step :=
  | Goto (pc : list_pc)
  | Store (i : nat) (o : option E) (pc : option list_pc) (removed : Z)
  | Finish (removed : Z).

Definition item (l : list (option E)) (i : nat) : option E := default None (l !! i).

Definition next_visit (l : list (option E)) (i : nat) : list_step :=
  if bool_decide (S i < length l)%nat then Goto (Visit (S i)) else Finish 0.

Definition step_of (l : list (option E)) (pc : list_pc) : list_step :=
  match pc with
  | AddRead i e => if item l i is Some _ then Goto (AddNext i e) else Goto (AddWrite i e)
  | AddWrite i e => if item l i is Some _ then Goto (AddNext i e) else Store i (Some e) None 0
  | AddNext i e => if bool_decide (S i < length l)%nat then Goto (AddRead (S i) e) else Goto (AddLink i e)
  (** [compare_exchange_weak]: a new item, unless the chain has grown *)
  | AddLink i e => if bool_decide (S i < length l)%nat then Goto (AddLink (S i) e) else Store (S i) (Some e) None 0
  | RemoveRead i e all n => if bool_decide (item l i = Some e) then Goto (RemoveWrite i e all n) else Goto (RemoveNext i e all n)
  | RemoveWrite i e all n =>
      if bool_decide (item l i = Some e) then
        if all : bool then Store i None (Some (RemoveNext i e all (n + 1))) 0 else Store i None None 1
      else Goto (RemoveNext i e all n)
  | RemoveNext i e all n => if bool_decide (S i < length l)%nat then Goto (RemoveRead (S i) e all n) else Finish n
  | ClearWrite i => Store i None (if bool_decide (S i < length l)%nat then Some (ClearWrite (S i)) else None) 0
  | Visit i => match item l i with Some e => Goto (InCall i e) | None => next_visit l i end
  | InCall i e => next_visit l i
  end.

(** The item whose mutex the step locks for writing. *)
Definition writes_at (pc : list_pc) : option nat :=
  match pc with
  | AddWrite i _ | RemoveWrite i _ _ _ | ClearWrite i => Some i
  | _ => None
  end.
Definition reads_in (pc : list_pc) (i : nat) : bool :=
  match pc with InCall j _ => bool_decide (j = i) | _ => false end.
(** [RecursiveReadWriteMutex]: a writer waits for the other threads' readers;
    its own do not keep it out. *)
Definition may_lock (s : SharedList) (t : Z) (i : nat) : bool :=
  bool_decide (map_Forall (λ t' st, t' = t ∨ Forall (λ f : Z * list_pc, reads_in f.2 i = false) st) (stacks s)).

Definition calls_of (k : Z) (pc : list_pc) : list list_obs :=
  match pc with InCall i e => [Called k i e] | _ => [] end.

(** A new slot is linked behind the others. *)
Definition store (i : nat) (o : option E) (l : list (option E)) : list (option E) :=
  if bool_decide (i < length l)%nat then <[i := o]> l else l ++ [o].

Definition apply_step (t k : Z) (rest : list (Z * list_pc)) (r : list_step) : M unit :=
  match r with
  | Goto pc => do* pfor (calls_of k pc) pemit in pmodify (set_stack t ((k, pc) :: rest))
  | Store i o pc n =>
      do* pemit (Wrote k i o) in
      do* pmodify (λ s, set_items (store i o (items s)) s) in
      match pc with
      | Some pc => pmodify (set_stack t ((k, pc) :: rest))
      | None => do* pemit (End k n) in pmodify (set_stack t rest)
      end
  | Finish n => do* pemit (End k n) in pmodify (set_stack t rest)
  end.

Definition list_turn (t : Z) : M unit :=
  let* s := pget in
  match stack s t with
  | (k, pc) :: rest => apply_step t k rest (step_of (items s) pc)
  | [] => pret tt
  end.
Definition begin_call (t : Z) (c : list_call) : M unit :=
  let* s := pget in
  let k := next_call s in
  do* pemit (Begin k c) in
  pput (mkList (items s) (<[t := (k, start_pc c) :: stack s t]> (stacks s)) (k + 1)).

(** ** The list as a machine

    A thread calls the list when it is not in it, or from the function
    [for_each] calls; it goes on when the lock it needs is free, and out of the
    function whenever the function returns. *)
Inductive list_op :=
  | OpCall (t : Z) (c : list_call)
  | OpStep (t : Z).
Definition calls_out (st : list (Z * list_pc)) : bool :=
  match st with [] => true | (_, InCall _ _) :: _ => true | _ => false end.
Definition list_allowed (s : SharedList) (_ : list list_obs) (op : list_op) : bool :=
  match op with
  | OpCall t _ => calls_out (stack s t)
  | OpStep t =>
      match stack s t with
      | [] => false
      | (_, pc) :: _ => match writes_at pc with Some i => may_lock s t i | None => true end
      end
  end.
Definition list_exec (op : list_op) : M unit :=
  match op with OpCall t c => begin_call t c | OpStep t => list_turn t end.
Definition empty_list : SharedList := mkList [None] ∅ 0.
Definition list_machine : machine := Machine SharedList list_op list_obs (λ s, s = empty_list) list_allowed list_exec.

(** ** What a history may be

    The specification: writing a slot and calling the function are atomic, and
    every observation fits what came before. *)
Definition slot_step (i : nat) (o : option E) (ob : list_obs) : option E :=
  match ob with Wrote _ j o' => if bool_decide (j = i) then o' else o | _ => o end.
(** The element of an item after a history. *)
Definition slot_after (h : list list_obs) (i : nat) : option E := foldl (slot_step i) None h.
Definition writes_of (k : Z) (h : list list_obs) : list (nat * option E) :=
  omap (λ ob, match ob with Wrote k' i o => if bool_decide (k' = k) then Some (i, o) else None | _ => None end) h.
Definition under_way (k : Z) (h : list list_obs) : Prop := ∀ n, End k n ∉ h.

(** The function was called on everything that was in one of the first [n]
    items when the call of [for_each] began and was left there. *)
Definition visited (k : Z) (n : nat) (h : list list_obs) : Prop :=
  ∀ h1 h2, h = h1 ++ Begin k CallForEach :: h2 →
  ∀ i e, (i < n)%nat → slot_after h1 i = Some e → (∀ k' o, Wrote k' i o ∉ h2) → Called k i e ∈ h2.
Definition visited_all (k : Z) (h : list list_obs) : Prop := ∀ n, visited k n h.

Definition obs_ok (h : list list_obs) (ob : list_obs) : Prop :=
  match ob with
  | Begin k c => ∀ c', Begin k c' ∉ h
  | Wrote k i (Some e) => under_way k h ∧ Begin k (CallAdd e) ∈ h ∧ writes_of k h = [] ∧ slot_after h i = None
  | Wrote k i None => under_way k h ∧
      (Begin k CallClear ∈ h ∨
       ∃ e, slot_after h i = Some e ∧ (Begin k (CallRemoveAll e) ∈ h ∨ (Begin k (CallRemove e) ∈ h ∧ writes_of k h = [])))
  | Called k i e => under_way k h ∧ Begin k CallForEach ∈ h ∧ slot_after h i = Some e ∧ ∀ e', Called k i e' ∉ h
  | End k n => under_way k h ∧ ∃ c, Begin k c ∈ h ∧
      match c with
      | CallAdd e => ∃ i, writes_of k h = [(i, Some e)]
      | CallRemove e | CallRemoveAll e => Z.of_nat (length (writes_of k h)) = n
      | CallClear => True
      | CallForEach => visited_all k h
      end
  end.
Inductive good_history : list list_obs → Prop :=
  | good_nil : good_history []
  | good_snoc h ob : good_history h → obs_ok h ob → good_history (h ++ [ob]).

Lemma slot_after_snoc h ob i : slot_after (h ++ [ob]) i = slot_step i (slot_after h i) ob.
Proof. unfold slot_after. by rewrite foldl_app. Qed.
Lemma writes_of_snoc k h ob : writes_of k (h ++ [ob]) = writes_of k h ++ writes_of k [ob].
Proof. apply omap_app. Qed.
(** An item nobody wrote to keeps its element. *)
Lemma slot_after_kept h1 h2 i : (∀ k o, Wrote k i o ∉ h2) → slot_after (h1 ++ h2) i = slot_after h1 i.
Proof.
  induction h2 as [|ob h2 IH] using rev_ind; intros Hno; [by rewrite app_nil_r|].
  rewrite app_assoc, slot_after_snoc, IH by (intros k o Hin; apply (Hno k o); set_solver).
  destruct ob as [|k j o| |]; cbn; try done. case_bool_decide as Hj; [|done]. subst j. exfalso. apply (Hno k o). set_solver.
Qed.
Lemma good_history_at h1 ob h2 : good_history (h1 ++ ob :: h2) → obs_ok h1 ob.
Proof.
  intros Hg. remember (h1 ++ ob :: h2) as h eqn:Hh. revert h2 Hh. induction Hg as [|h o Hg IH Ho]; intros h2 Hh; [by destruct h1|].
  destruct h2 as [|o' h2 _] using rev_ind.
  - apply app_inj_tail in Hh as [-> ->]. done.
  - rewrite app_comm_cons, app_assoc in Hh. apply app_inj_tail in Hh as [-> ->]. by apply (IH h2).
Qed.
Lemma begins_once h k c c' : good_history h → Begin k c ∈ h → Begin k c' ∈ h → c = c'.
Proof.
  induction 1 as [|h ob Hg IH Ho]; [by intros ?%elem_of_nil|]. rewrite !elem_of_app, !list_elem_of_singleton.
  intros [Hc|Hc] [Hc'|Hc']; [by apply IH| | |by rewrite <- Hc in Hc'; injection Hc'].
  - subst ob. by destruct (Ho c).
  - subst ob. by destruct (Ho c').
Qed.

(** ** The invariant *)

(** Where a call is, against what it did. *)
Definition frame_ok (k : Z) (pc : list_pc) (h : list list_obs) : Prop :=
  under_way k h ∧
  match pc with
  | AddRead _ e | AddWrite _ e | AddNext _ e | AddLink _ e => Begin k (CallAdd e) ∈ h ∧ writes_of k h = []
  | RemoveRead _ e all n | RemoveWrite _ e all n | RemoveNext _ e all n =>
      Begin k (if all then CallRemoveAll e else CallRemove e) ∈ h ∧ Z.of_nat (length (writes_of k h)) = n ∧ (all = false → n = 0)
  | ClearWrite _ => Begin k CallClear ∈ h
  | Visit i => Begin k CallForEach ∈ h ∧ visited k i h ∧ ∀ j e, Called k j e ∈ h → (j < i)%nat
  | InCall i _ => Begin k CallForEach ∈ h ∧ visited k (S i) h ∧ ∀ j e, Called k j e ∈ h → (j < S i)%nat
  end.

(** What another call does. *)
Definition about (k : Z) (ob : list_obs) : Prop :=
  match ob with Begin k' _ | Wrote k' _ _ | Called k' _ _ | End k' _ => k' = k end.

Lemma writes_of_other k ob : ¬ about k ob → writes_of k [ob] = [].
Proof. intros Hk. destruct ob; cbn in *; try done. by rewrite bool_decide_false. Qed.
Lemma elem_of_snoc_other k h ob x : ¬ about k ob → about k x → x ∈ h ++ [ob] ↔ x ∈ h.
Proof. intros Hk Hx. rewrite elem_of_app, list_elem_of_singleton. split; [|by left]. intros [?| ->]; done. Qed.
Lemma visited_snoc k n h ob : ¬ about k ob ∨ (∀ i e, ob = Called k i e → (i < n)%nat) ∧ (∀ c, ob ≠ Begin k c) →
  visited k n h → visited k n (h ++ [ob]).
Proof.
  intros Hob Hv h1 h2 Hh i e Hi Hs Hno. destruct h2 as [|o' h2 _] using rev_ind.
  { apply app_inj_tail in Hh as [_ ->]. destruct Hob as [[]|[_ Hob]]; [done|]. by destruct (Hob CallForEach). }
  rewrite app_comm_cons, app_assoc in Hh. apply app_inj_tail in Hh as [-> <-].
  rewrite elem_of_app. left. eapply (Hv h1 h2 eq_refl i e Hi Hs). intros k' o Hin. apply (Hno k' o). rewrite elem_of_app. by left.
Qed.
Lemma under_way_snoc k h ob : (∀ n, ob ≠ End k n) → under_way k h → under_way k (h ++ [ob]).
Proof. intros Hob Hu n. rewrite elem_of_app, list_elem_of_singleton. intros [Hin|Heq]; [by apply (Hu n)|by apply (Hob n)]. Qed.

Lemma frame_ok_other k pc h ob : ¬ about k ob → frame_ok k pc h → frame_ok k pc (h ++ [ob]).
Proof.
  intros Hk [Hu Hpc]. split.
  { apply under_way_snoc; [|done]. intros n ->. by apply Hk. }
  assert (∀ x, about k x → x ∈ h ++ [ob] ↔ x ∈ h) as Hin by (intros; by apply (elem_of_snoc_other k)).
  destruct pc as [| | | | | | | |n|n e]; rewrite ?Hin, ?writes_of_snoc, ?(writes_of_other k ob Hk), ?app_nil_r by done; try done.
  - destruct Hpc as (Hb & Hv & Hc). split; [done|]. split; [apply visited_snoc; [by left|done]|].
    intros j e. rewrite Hin by done. apply Hc.
  - destruct Hpc as (Hb & Hv & Hc). split; [done|]. split; [apply visited_snoc; [by left|done]|].
    intros j e'. rewrite Hin by done. apply Hc.
Qed.

Definition pc_index (pc : list_pc) : nat :=
  match pc with
  | AddRead i _ | AddWrite i _ | AddNext i _ | AddLink i _ | RemoveRead i _ _ _ | RemoveWrite i _ _ _ | RemoveNext i _ _ _
  | ClearWrite i | Visit i | InCall i _ => i
  end.

Record list_inv (s : SharedList) (h : list list_obs) : Prop := {
  l_good : good_history h;
  l_items : ∀ i, item (items s) i = slot_after h i;
  l_head : items s ≠ [];
  l_fresh : ∀ k c, Begin k c ∈ h → k < next_call s;
  l_frames : ∀ t k pc, (k, pc) ∈ stack s t → frame_ok k pc h ∧ k < next_call s ∧ (pc_index pc < length (items s))%nat;
  l_unique : ∀ t, NoDup (stack s t).*1;
  l_apart : ∀ t t' k pc pc', (k, pc) ∈ stack s t → (k, pc') ∈ stack s t' → t = t'
}.

Lemma stack_set s t st t' : stack (set_stack t st s) t' = if bool_decide (t' = t) then st else stack s t'.
Proof.
  unfold stack. cbn. case_bool_decide as Ht; [subst; by rewrite lookup_insert_eq|by rewrite lookup_insert_ne].
Qed.

(** A step of call [k] that leaves at most its own frame changed. *)
Lemma list_inv_step s h s' tr t k pc rest top :
  list_inv s h → stack s t = (k, pc) :: rest →
  next_call s' = next_call s →
  (∀ t', stack s' t' = if bool_decide (t' = t) then top ++ rest else stack s t') →
  (∀ ob, ob ∈ tr → about k ob) → (∀ c, Begin k c ∉ tr) →
  (∀ f, f ∈ top → f.1 = k ∧ frame_ok k f.2 (h ++ tr) ∧ (pc_index f.2 < length (items s'))%nat) → NoDup (top.*1) →
  (length (items s) ≤ length (items s'))%nat →
  good_history (h ++ tr) → (∀ i, item (items s') i = slot_after (h ++ tr) i) → items s' ≠ [] →
  list_inv s' (h ++ tr).
Proof.
  intros [_ _ _ Hf Hfr Hu Ha] Hst Hnext Hstack Htr Hno Htop Hnd Hlen Hg Hit Hne.
  assert (∀ k' pc' t', (k', pc') ∈ (if bool_decide (t' = t) then rest else stack s t') → (k', pc') ∈ stack s t' ∧ k' ≠ k) as Hrest.
  { intros k' pc' t' Hin. case_bool_decide as Ht.
    - subst t'. rewrite Hst. split; [by right|]. intros ->. specialize (Hu t). rewrite Hst in Hu. cbn in Hu.
      apply NoDup_cons in Hu as [Hk _]. apply Hk. apply list_elem_of_fmap. by exists (k, pc').
    - split; [done|]. intros ->. apply Ht. apply (Ha t' t k pc' pc Hin). rewrite Hst. left. }
  assert (∀ k' pc', k' ≠ k → frame_ok k' pc' h → frame_ok k' pc' (h ++ tr)) as Hkeep.
  { intros k' pc' Hk. clear -Htr Hk. induction tr as [|ob tr IH] using rev_ind; intros Hok; [by rewrite app_nil_r|].
    rewrite app_assoc. apply frame_ok_other; [|apply IH; [|done]; intros; apply Htr; set_solver].
    pose proof (Htr ob ltac:(set_solver)) as Hab. destruct ob; cbn in *; congruence. }
  assert (∀ t' k' pc', (k', pc') ∈ stack s' t' →
    (t' = t ∧ (k', pc') ∈ top) ∨ ((k', pc') ∈ stack s t' ∧ k' ≠ k)) as Hcases.
  { intros t' k' pc'. rewrite Hstack. case_bool_decide as Ht.
    - subst t'. rewrite elem_of_app. intros [?|Hin]; [by left|right]. apply Hrest. by rewrite bool_decide_true.
    - intros Hin. right. apply Hrest. by rewrite bool_decide_false. }
  split; [done|done|done| | | |]; rewrite ?Hnext.
  - intros k' c. rewrite elem_of_app. intros [Hin|Hin]; [by eapply Hf|]. pose proof (Htr _ Hin) as Hab. cbn in Hab. subst k'. by apply Hno in Hin.
  - intros t' k' pc' [[-> Hin]|[Hin Hne']]%Hcases.
    + destruct (Htop _ Hin) as (Hk & Hok & Hix). cbn in *. subst k'. split; [done|]. split; [|done]. apply (Hfr t k pc). rewrite Hst. left.
    + destruct (Hfr t' k' pc' Hin) as (Hok & Hlt & Hix). split; [by apply Hkeep|]. split; [done|lia].
  - intros t'. rewrite Hstack. case_bool_decide as Ht; [|apply Hu]. rewrite fmap_app. apply NoDup_app. split; [done|]. split.
    + intros x ([x' pc'] & -> & Hin)%list_elem_of_fmap ([k' pc''] & Hx & Hin')%list_elem_of_fmap. cbn in Hx. subst k'.
      destruct (Htop _ Hin) as [Hk _]. cbn in Hk. destruct (Hrest x' pc'' t) as [_ ?]; [by rewrite bool_decide_true|done].
    + specialize (Hu t). rewrite Hst in Hu. cbn in Hu. by apply NoDup_cons in Hu as [_ ?].
  - intros t1 t2 k' pc1 pc2 [[-> H1]|[H1 Hn1]]%Hcases [[-> H2]|[H2 Hn2]]%Hcases; [done| | |by eapply Ha].
    + destruct (Htop _ H1) as [? _]. done.
    + destruct (Htop _ H2) as [? _]. done.
Qed.

Lemma store_item l i o j : (i ≤ length l)%nat → item (store i o l) j = if bool_decide (i = j) then o else item l j.
Proof.
  intros Hi. unfold item, store. case_bool_decide as Hlt.
  - case_bool_decide as Hj; [subst j; by rewrite list_lookup_insert_eq|by rewrite list_lookup_insert_ne].
  - assert (i = length l) as -> by lia. case_bool_decide as Hj; [subst j; rewrite lookup_app_r by lia; by rewrite Nat.sub_diag|].
    destruct (decide (j < length l)%nat) as [?|Hge]; [by rewrite lookup_app_l|].
    rewrite !lookup_ge_None_2; [done|lia|rewrite length_app; cbn; lia].
Qed.
Lemma store_ne l i o : l ≠ [] → store i o l ≠ [].
Proof. intros Hl. unfold store. case_bool_decide; [|by destruct l]. intros He. apply (f_equal length) in He. rewrite length_insert in He. by destruct l. Qed.
Lemma item_lt l i e : item l i = Some e → (i < length l)%nat.
Proof. unfold item. intros Hi. destruct (l !! i) as [o|] eqn:Ho; [|done]. by eapply lookup_lt_Some. Qed.

Section step.
Context (s : SharedList) (h : list list_obs) (Hinv : list_inv s h).

Lemma begun_kept k h1 h2 i e : h = h1 ++ Begin k CallForEach :: h2 → slot_after h1 i = Some e →
  (∀ k' o, Wrote k' i o ∉ h2) → item (items s) i = Some e.
Proof.
  intros Hh He Hno. rewrite (l_items _ _ Hinv), Hh, slot_after_kept; [done|].
  intros k' o. rewrite elem_of_cons. intros [?|?]; [done|by apply (Hno k' o)].
Qed.
Lemma visited_next k i : item (items s) i = None → visited k i h → visited k (S i) h.
Proof.
  intros Hi Hv h1 h2 Hh j e Hj He Hno. pose proof (begun_kept k h1 h2 j e Hh He Hno) as Hit.
  assert (j ≠ i) by (intros ->; congruence). apply (Hv h1 h2 Hh); [lia|done|done].
Qed.
Lemma visited_end k i : (length (items s) ≤ i)%nat → visited k i h → visited_all k h.
Proof.
  intros Hi Hv n h1 h2 Hh j e _ He Hno. pose proof (begun_kept k h1 h2 j e Hh He Hno) as Hit. apply item_lt in Hit.
  apply (Hv h1 h2 Hh); [lia|done|done].
Qed.
Lemma visited_called k i e : item (items s) i = Some e → visited k i h → visited k (S i) (h ++ [Called k i e]).
Proof.
  intros Hi Hv h1 h2 Hh j e' Hj He Hno. destruct h2 as [|o' h2 _] using rev_ind; [by apply app_inj_tail in Hh as [_ ?]|].
  rewrite app_comm_cons, app_assoc in Hh. apply app_inj_tail in Hh as [Hh <-].
  assert (∀ k' o, Wrote k' j o ∉ h2) as Hno' by (intros k' o Hin; apply (Hno k' o); set_solver).
  pose proof (begun_kept k h1 h2 j e' Hh He Hno') as Hit. rewrite elem_of_app, list_elem_of_singleton.
  destruct (decide (j = i)) as [->|]; [right; congruence|left]. apply (Hv h1 h2 Hh); [lia|done|done].
Qed.

(** Going on without a call of the function. *)
Lemma goto_ok k pc pc' : frame_ok k pc h → step_of (items s) pc = Goto pc' → calls_of k pc' = [] → frame_ok k pc' h.
Proof.
  intros [Hu Hpc] Hstep Hcall. split; [done|]. unfold step_of, next_visit in Hstep.
  destruct pc; repeat case_match; simplify_eq; cbn in Hcall |- *; try done.
  - destruct Hpc as (Hb & Hv & Hc). split; [done|]. split; [by apply visited_next|]. intros j e Hin%Hc. lia.
Qed.

Lemma goto_index pc pc' : step_of (items s) pc = Goto pc' → (pc_index pc < length (items s))%nat → (pc_index pc' < length (items s))%nat.
Proof.
  unfold step_of, next_visit. intros Hstep Hix. destruct pc; repeat case_match; simplify_eq; cbn in *; rewrite ?bool_decide_eq_true in *; done.
Qed.

Lemma goto_inv t k pc rest pc' :
  stack s t = (k, pc) :: rest → step_of (items s) pc = Goto pc' →
  list_inv (post (apply_step t k rest (Goto pc') s)) (h ++ trace (apply_step t k rest (Goto pc') s)).
Proof.
  intros Hst Hstep. destruct (l_frames _ _ Hinv t k pc) as (Hok & Hlt & Hix); [rewrite Hst; left|].
  assert (apply_step t k rest (Goto pc') s = Run (Ret tt) (set_stack t ((k, pc') :: rest) s) (calls_of k pc')) as ->.
  { unfold apply_step. destruct pc'; done. }
  cbn [post trace]. destruct (calls_of k pc') as [|ob obs] eqn:Hc.
  - eapply (list_inv_step s h _ [] t k pc rest [(k, pc')]); [done|done|done|intros; apply stack_set| | | | |done| | |].
    + by intros ob ?%elem_of_nil.
    + by intros c ?%elem_of_nil.
    + intros f ->%list_elem_of_singleton. split; [done|]. rewrite app_nil_r. split; [by apply (goto_ok k pc)|]. by eapply goto_index.
    + apply NoDup_singleton.
    + rewrite app_nil_r. apply Hinv.
    + rewrite app_nil_r. apply Hinv.
    + apply Hinv.
  - destruct pc' as [| | | | | | | | |i e]; cbn in Hc; try done. injection Hc as <- <-.
    assert (pc = Visit i ∧ item (items s) i = Some e) as [-> Hi].
    { unfold step_of, next_visit in Hstep. destruct pc; repeat case_match; simplify_eq; done. }
    destruct Hok as (Hu & Hb & Hv & Hcalled).
    eapply (list_inv_step s h _ _ t k (Visit i) rest [(k, InCall i e)]); [done|done|done|intros; apply stack_set| | | | |done| | |].
    + by intros ob ->%list_elem_of_singleton.
    + by intros c ?%list_elem_of_singleton.
    + intros f ->%list_elem_of_singleton. split; [done|]. split; [|done]. split; [by apply under_way_snoc|]. split; [set_solver|].
      split; [by apply visited_called|]. intros j e'. rewrite elem_of_app, list_elem_of_singleton. intros [Hin%Hcalled|[= -> ->]]; lia.
    + apply NoDup_singleton.
    + constructor; [apply Hinv|]. split; [done|]. split; [done|]. split; [by rewrite <- (l_items _ _ Hinv)|].
      intros e' Hin%Hcalled. lia.
    + intros j. rewrite slot_after_snoc. apply Hinv.
    + apply Hinv.
Qed.

Lemma finish_inv t k pc rest n :
  stack s t = (k, pc) :: rest → step_of (items s) pc = Finish n →
  list_inv (post (apply_step t k rest (Finish n) s)) (h ++ trace (apply_step t k rest (Finish n) s)).
Proof.
  intros Hst Hstep. destruct (l_frames _ _ Hinv t k pc) as ([Hu Hok] & Hlt & Hix); [rewrite Hst; left|].
  change (apply_step t k rest (Finish n) s) with (Run (Ret tt) (set_stack t rest s) [End k n]). cbn [post trace].
  eapply (list_inv_step s h _ _ t k pc rest []); [done|done|done|intros; apply stack_set| | | | |done| | |].
  - by intros ob ->%list_elem_of_singleton.
  - by intros c ?%list_elem_of_singleton.
  - by intros f ?%elem_of_nil.
  - constructor.
  - constructor; [apply Hinv|]. split; [done|]. unfold step_of, next_visit in Hstep.
    destruct pc; repeat case_match; simplify_eq; cbn in Hok.
    all: rewrite ?bool_decide_eq_false in *; destruct Hok as (Hb & Hv & _); eexists; (split; [exact Hb|]); try done.
    + apply (visited_end k (S i)); [lia|by apply visited_next].
    + apply (visited_end k (S i)); [lia|done].
  - intros j. rewrite slot_after_snoc. apply Hinv.
  - apply Hinv.
Qed.
End step.

Section storing.
Context (s : SharedList) (h : list list_obs) (Hinv : list_inv s h).

(** What is known where a call writes an item. *)
Lemma store_ok k pc i o pc' n :
  frame_ok k pc h → step_of (items s) pc = Store i o pc' n →
  (i ≤ length (items s))%nat → obs_ok h (Wrote k i o) ∧
  match pc' with
  | Some pc' => frame_ok k pc' (h ++ [Wrote k i o])
  | None => obs_ok (h ++ [Wrote k i o]) (End k n)
  end.
Proof.
  intros [Hu Hok] Hstep Hi. pose proof (l_items _ _ Hinv) as Hit.
  assert (under_way k (h ++ [Wrote k i o])) as Hu' by by apply under_way_snoc.
  assert (writes_of k (h ++ [Wrote k i o]) = writes_of k h ++ [(i, o)]) as Hw.
  { rewrite writes_of_snoc. cbn. by rewrite bool_decide_true. }
  assert (∀ c, Begin k c ∈ h → Begin k c ∈ h ++ [Wrote k i o]) as Hb' by (intros; set_solver).
  unfold step_of, next_visit in Hstep. destruct pc as [| | | |j e all m|j e all m|j e all m|j| |]; repeat case_match; simplify_eq; cbn in Hok |- *;
    rewrite ?bool_decide_eq_false, ?bool_decide_eq_true in *.
  - destruct Hok as [Hb Hno]. rewrite <- Hit. split; [by split_and!|]. split; [done|]. eexists. split; [by apply Hb'|].
    eexists. by rewrite Hw, Hno.
  - destruct Hok as [Hb Hno]. rewrite <- Hit. split.
    + split_and!; [done|done|done|]. unfold item. by rewrite lookup_ge_None_2 by lia.
    + split; [done|]. eexists. split; [by apply Hb'|]. eexists. by rewrite Hw, Hno.
  - destruct Hok as (Hb & Hn & _). split.
    + split; [done|]. right. exists e. rewrite <- Hit. split; [done|]. by left.
    + split; [done|]. split; [by apply Hb'|]. rewrite Hw, length_app. cbn. split; [lia|done].
  - destruct Hok as (Hb & Hn & Hz). specialize (Hz eq_refl). subst m. destruct (writes_of k h) as [|? ?] eqn:Hwk; [|done]. split.
    + split; [done|]. right. exists e. rewrite <- Hit. split; [done|]. by right.
    + split; [done|]. eexists. split; [by apply Hb'|]. cbn. by rewrite Hw.
  - split; [by split; [|left]|]. split; [done|by apply Hb'].
  - split; [by split; [|left]|]. split; [done|]. eexists. split; [by apply Hb'|done].
Qed.

Lemma store_index pc i o pc' n : step_of (items s) pc = Store i o pc' n → (pc_index pc < length (items s))%nat →
  (i ≤ length (items s))%nat ∧ ∀ pc'', pc' = Some pc'' → (pc_index pc'' < length (store i o (items s)))%nat.
Proof.
  unfold step_of, next_visit. intros Hstep Hix.
  assert ((length (items s) ≤ length (store i o (items s)))%nat) as Hlen
    by (unfold store; case_bool_decide; [rewrite length_insert|rewrite length_app]; lia).
  destruct pc; repeat case_match; simplify_eq; cbn in *; rewrite ?bool_decide_eq_true in *;
    (split; [lia|]); intros pc'' ?; simplify_eq; cbn; lia.
Qed.

Lemma list_store_inv t k pc rest i o pc' n :
  stack s t = (k, pc) :: rest → step_of (items s) pc = Store i o pc' n →
  list_inv (post (apply_step t k rest (Store i o pc' n) s)) (h ++ trace (apply_step t k rest (Store i o pc' n) s)).
Proof.
  intros Hst Hstep. destruct (l_frames _ _ Hinv t k pc) as (Hok & Hlt & Hix); [rewrite Hst; left|].
  destruct (store_index _ _ _ _ _ Hstep Hix) as [Hi Hix']. destruct (store_ok k pc i o pc' n Hok Hstep Hi) as [Hob Hrest].
  assert (good_history (h ++ [Wrote k i o])) as Hg by (constructor; [apply Hinv|done]).
  assert (∀ j, item (store i o (items s)) j = slot_after (h ++ [Wrote k i o]) j) as Hit.
  { intros j. rewrite store_item, slot_after_snoc by done. cbn. by rewrite (l_items _ _ Hinv). }
  assert ((length (items s) ≤ length (store i o (items s)))%nat) as Hlen
    by (unfold store; case_bool_decide; [rewrite length_insert|rewrite length_app]; lia).
  pose proof (store_ne _ i o (l_head _ _ Hinv)) as Hne.
  destruct pc' as [pc'|].
  - change (apply_step t k rest (Store i o (Some pc') n) s) with
      (Run (Ret tt) (set_stack t ((k, pc') :: rest) (set_items (store i o (items s)) s)) [Wrote k i o]). cbn [post trace].
    eapply (list_inv_step s h _ _ t k pc rest [(k, pc')]); [done|done|done|intros; apply (stack_set (set_items (store i o (items s)) s))| | | | |done|done|done|done].
    + by intros ob ->%list_elem_of_singleton.
    + by intros c ?%list_elem_of_singleton.
    + intros f ->%list_elem_of_singleton. split_and!; [done|done|by apply Hix'].
    + apply NoDup_singleton.
  - change (apply_step t k rest (Store i o None n) s) with
      (Run (Ret tt) (set_stack t rest (set_items (store i o (items s)) s)) [Wrote k i o; End k n]). cbn [post trace].
    eapply (list_inv_step s h _ _ t k pc rest []); [done|done|done|intros; apply (stack_set (set_items (store i o (items s)) s))| | | | |done| | |done].
    + intros ob [->|[->|Hnil%elem_of_nil]%elem_of_cons]%elem_of_cons; done.
    + intros c [?|[?|Hnil%elem_of_nil]%elem_of_cons]%elem_of_cons; done.
    + by intros f ?%elem_of_nil.
    + constructor.
    + change [Wrote k i o; End k n] with ([Wrote k i o] ++ [End k n]). rewrite app_assoc. by constructor.
    + intros j. change [Wrote k i o; End k n] with ([Wrote k i o] ++ [End k n]). rewrite app_assoc, slot_after_snoc. apply Hit.
Qed.
End storing.

Lemma writes_of_none k h : (∀ i o, Wrote k i o ∉ h) → writes_of k h = [].
Proof.
  induction h as [|ob h IH] using rev_ind; intros Hno; [done|].
  rewrite writes_of_snoc, IH by (intros i o Hin; apply (Hno i o); set_solver). cbn.
  destruct ob as [|k' i o| |]; try done. case_bool_decide; [|done]. subst k'. destruct (Hno i o). set_solver.
Qed.
Lemma begin_inv s h t c : list_inv s h → calls_out (stack s t) = true →
  list_inv (post (begin_call t c s)) (h ++ trace (begin_call t c s)).
Proof.
  intros [Hg Hit Hh Hf Hfr Hu Ha] Hout. set (k := next_call s).
  assert (∀ c', Begin k c' ∉ h) as Hnew by (intros c' Hin%Hf; unfold k in Hin; lia).
  assert (∀ ob, ob ∈ h → ∃ k', about k' ob ∧ k' < k) as Hold.
  { clear -Hg Hf. assert (∀ ob, ob ∈ h → ∃ k' c, about k' ob ∧ Begin k' c ∈ h) as Hall.
    { induction Hg as [|h ob Hg IH Hob]; [by intros ob ?%elem_of_nil|]. intros ob'. rewrite elem_of_app, list_elem_of_singleton.
      intros [Hin| ->].
      - destruct (IH ltac:(intros k' c Hin'; apply (Hf k' c); set_solver) ob' Hin) as (k' & c & ? & ?). exists k', c. set_solver.
      - destruct ob as [k' c|k' i [e|]|k' i e|k' n]; cbn in Hob; exists k'; try (exists c; set_solver); try (naive_solver set_solver). }
    intros ob (k' & c & ? & Hb)%Hall. exists k'. split; [done|]. by eapply Hf. }
  assert (under_way k h) as Huw.
  { intros n (k' & Hk & Hlt)%Hold. cbn in Hk. lia. }
  assert (writes_of k h = []) as Hw.
  { apply writes_of_none. intros i o (k' & Hk & Hlt)%Hold. cbn in Hk. lia. }
  cbn [begin_call post trace]. unfold begin_call. rewrite pbind_get. cbn [pbind pemit pput value post trace app]. fold k.
  assert (∀ t', stack (mkList (items s) (<[t := (k, start_pc c) :: stack s t]> (stacks s)) (k + 1)) t' =
    if bool_decide (t' = t) then (k, start_pc c) :: stack s t else stack s t') as Hstack by apply (stack_set s t).
  assert (∀ t' k' pc', (k', pc') ∈ stack s t' → k' < k) as Hlt by (intros t' k' pc' Hin; by destruct (Hfr t' k' pc' Hin) as (_ & ? & _)).
  split; cbn [items next_call].
  - constructor; [done|]. exact Hnew.
  - intros i. by rewrite slot_after_snoc.
  - done.
  - intros k' c'. rewrite elem_of_app, list_elem_of_singleton. intros [Hin%Hf|[= -> _]]; unfold k in *; lia.
  - intros t' k' pc'. rewrite Hstack. intros Hin.
    assert ((k' = k ∧ pc' = start_pc c) ∨ (k', pc') ∈ stack s t') as [[-> ->]|Hin'].
    { case_bool_decide as Ht; [|by right]. subst t'. apply elem_of_cons in Hin as [[= -> ->]|?]; [by left|by right]. }
    + split; [|split; [lia|]].
      2: { destruct (items s); [done|]. destruct c; cbn; lia. }
      split; [by apply under_way_snoc|]. rewrite writes_of_snoc, Hw.
      assert (Begin k c ∈ h ++ [Begin k c]) as Hb by set_solver.
      destruct c; cbn; try (by split_and!); try done.
      split; [done|]. split.
      * intros h1 h2 _ i e Hi. lia.
      * intros j e. rewrite elem_of_app, list_elem_of_singleton. intros [(k' & Hk & Hl)%Hold|?]; [cbn in Hk; lia|done].
    + destruct (Hfr t' k' pc' Hin') as (Hok & Hl & Hix). split; [|split; [lia|done]]. apply frame_ok_other; [|done]. cbn. lia.
  - intros t'. rewrite Hstack. case_bool_decide; [|apply Hu]. cbn. apply NoDup_cons. split; [|apply Hu].
    intros ([k' pc'] & Hk & Hin)%list_elem_of_fmap. apply Hlt in Hin. cbn in Hk. lia.
  - assert (∀ t' k' pc', (k', pc') ∈ (if bool_decide (t' = t) then (k, start_pc c) :: stack s t else stack s t') →
      (t' = t ∧ k' = k) ∨ (k', pc') ∈ stack s t') as Hor.
    { intros t' k' pc'. case_bool_decide as Ht; [|by right]. rewrite Ht. intros [[= -> _]|?]%elem_of_cons; [by left|by right]. }
    intros t1 t2 k' pc1 pc2. rewrite !Hstack. intros H1'%Hor H2'%Hor.
    destruct H1' as [[-> ->]|H1'], H2' as [[-> Hk]|H2']; [done|apply Hlt in H2'; lia|subst k'; apply Hlt in H1'; lia|by eapply Ha].
Qed.

Lemma list_reachable s h : reachable list_machine s h → list_inv s h.
Proof.
  revert s h. apply (reachable_invariant list_machine list_inv).
  - intros s ->. split; cbn; try done.
    + constructor.
    + by intros [|i].
    + by intros k c ?%elem_of_nil.
    + intros t k pc. by intros ?%elem_of_nil.
    + intros t. constructor.
    + intros t t' k pc pc' ?%elem_of_nil. done.
  - intros s h op _ Hinv Hop. destruct op as [t c|t]; cbn [m_exec list_machine list_exec]; [by apply begin_inv|].
    unfold list_turn. rewrite pbind_get. destruct (stack s t) as [|[k pc] rest] eqn:Hst; [by cbn; rewrite app_nil_r|].
    destruct (step_of (items s) pc) as [pc'|i o pc' n|n] eqn:Hstep.
    + by apply (goto_inv s h Hinv t k pc).
    + by apply (list_store_inv s h Hinv t k pc).
    + by apply (finish_inv s h Hinv t k pc).
Qed.

(** ** One thread alone *)

(** What a call is for: the items after it, what it returns and the calls it
    makes. *)
Fixpoint list_add (e : E) (l : list (option E)) : list (option E) :=
  match l with
  | [] => [Some e]
  | Some x :: l' => Some x :: list_add e l'
  | None :: l' => Some e :: l'
  end.
Fixpoint list_remove (e : E) (l : list (option E)) : list (option E) :=
  match l with
  | [] => []
  | o :: l' => if bool_decide (o = Some e) then None :: l' else o :: list_remove e l'
  end.
Definition list_remove_all (e : E) (l : list (option E)) : list (option E) :=
  (λ o, if bool_decide (o = Some e) then None else o) <$> l.
Definition count_of (e : E) (l : list (option E)) : Z := Z.of_nat (length (filter (λ o, o = Some e) l)).

Definition list_after (c : list_call) (l : list (option E)) : list (option E) :=
  match c with
  | CallAdd e => list_add e l
  | CallRemove e => list_remove e l
  | CallRemoveAll e => list_remove_all e l
  | CallClear => (λ _, None) <$> l
  | CallForEach => l
  end.
Definition list_result (c : list_call) (l : list (option E)) : Z :=
  match c with
  | CallRemove e => Z.min 1 (count_of e l)
  | CallRemoveAll e => count_of e l
  | _ => 0
  end.
Definition list_calls (c : list_call) (l : list (option E)) : list E :=
  match c with CallForEach => omap id l | _ => [] end.
Definition called_in (h : list list_obs) : list E :=
  omap (λ ob, match ob with Called _ _ e => Some e | _ => None end) h.

Section solo.
Context (t : Z) (m : gmap Z (list (Z * list_pc))) (nk k : Z) (rest : list (Z * list_pc)).
Context (Hfree : map_Forall (λ t' st, t' = t ∨ Forall (λ f : Z * list_pc, calls_of f.1 f.2 = []) st) m).

Definition solo_state (l : list (option E)) (st : list (Z * list_pc)) : SharedList := mkList l (<[t := st]> m) nk.
Definition solo_steps (n : nat) : list list_op := replicate n (OpStep t).

Definition step_frames (r : list_step) : list (Z * list_pc) :=
  match r with Goto pc | Store _ _ (Some pc) _ => (k, pc) :: rest | _ => rest end.
Definition step_items (r : list_step) (l : list (option E)) : list (option E) :=
  match r with Store i o _ _ => store i o l | _ => l end.
Definition step_obs (r : list_step) : list list_obs :=
  match r with
  | Goto pc => calls_of k pc
  | Store i o (Some _) _ => [Wrote k i o]
  | Store i o None n => [Wrote k i o; End k n]
  | Finish n => [End k n]
  end.

Lemma solo_step l pc n h :
  run_ops list_machine (solo_steps (S n)) (solo_state l ((k, pc) :: rest)) h =
  run_ops list_machine (solo_steps n) (solo_state (step_items (step_of l pc) l) (step_frames (step_of l pc)))
    (h ++ step_obs (step_of l pc)).
Proof.
  assert (stack (solo_state l ((k, pc) :: rest)) t = (k, pc) :: rest) as Hst by (unfold stack; cbn; by rewrite lookup_insert_eq).
  cbn [solo_steps replicate run_ops].
  assert (m_allowed list_machine (solo_state l ((k, pc) :: rest)) h (OpStep t) = true) as ->.
  { cbn [m_allowed list_machine list_allowed]. rewrite Hst. destruct (writes_at pc) as [i|]; [|done].
    unfold may_lock. apply bool_decide_eq_true. intros t' st Hin. cbn in Hin. destruct (decide (t' = t)) as [|Hne]; [by left|right].
    rewrite lookup_insert_ne in Hin by done. destruct (Hfree t' st Hin) as [?|Hall]; [done|].
    eapply Forall_impl; [exact Hall|]. intros [k' pc'] Hc. cbn in *. by destruct pc'. }
  cbn [m_exec list_machine list_exec]. unfold list_turn. rewrite pbind_get, Hst.
  destruct (step_of l pc) as [pc'|i o [pc'|] r|r] eqn:Hstep; cbn [items solo_state] in *; rewrite Hstep; unfold apply_step; cbn [step_items step_frames step_obs].
  - destruct pc'; cbn; unfold set_stack, solo_state; cbn; by rewrite insert_insert_eq.
  - cbn. unfold set_stack, set_items, solo_state. cbn. by rewrite insert_insert_eq.
  - cbn. unfold set_stack, set_items, solo_state. cbn. by rewrite insert_insert_eq.
  - cbn. unfold set_stack, solo_state. cbn. by rewrite insert_insert_eq.
Qed.

(** The call ends after [n] steps with the items [l'] and the result [r], having
    called the function on [cs]. *)
Definition finishes (n : nat) (l : list (option E)) (pc : list_pc) (l' : list (option E)) (r : Z) (cs : list E) : Prop :=
  ∃ tr, called_in tr = cs ∧ ∀ h,
    run_ops list_machine (solo_steps n) (solo_state l ((k, pc) :: rest)) h = Some (solo_state l' rest, h ++ tr ++ [End k r]).

Lemma called_in_app h1 h2 : called_in (h1 ++ h2) = called_in h1 ++ called_in h2.
Proof. apply omap_app. Qed.
Lemma finishes_goto n l pc pc' l' r cs :
  step_of l pc = Goto pc' → finishes n l pc' l' r cs → finishes (S n) l pc l' r (called_in (calls_of k pc') ++ cs).
Proof.
  intros Hs (tr & Hc & Hrun). exists (calls_of k pc' ++ tr). split; [by rewrite called_in_app, Hc|].
  intros h. rewrite solo_step, Hs. cbn [step_items step_frames step_obs]. by rewrite Hrun, <- !app_assoc.
Qed.
Lemma finishes_store n l pc i o pc' r0 l' r cs :
  step_of l pc = Store i o (Some pc') r0 → finishes n (store i o l) pc' l' r cs → finishes (S n) l pc l' r cs.
Proof.
  intros Hs (tr & Hc & Hrun). exists (Wrote k i o :: tr). split; [done|].
  intros h. rewrite solo_step, Hs. cbn [step_items step_frames step_obs]. by rewrite Hrun, <- !app_assoc.
Qed.
Lemma finishes_stored l pc i o r l' : step_of l pc = Store i o None r → store i o l = l' → finishes 1 l pc l' r [].
Proof. intros Hs <-. exists [Wrote k i o]. split; [done|]. intros h. by rewrite solo_step, Hs. Qed.
Lemma finishes_end l pc r : step_of l pc = Finish r → finishes 1 l pc l r [].
Proof. intros Hs. exists []. split; [done|]. intros h. by rewrite solo_step, Hs. Qed.

(** At the item [o] with [l1] before and [l2] behind it. *)
Section zipper.
Context (l1 : list (option E)) (o : option E) (l2 : list (option E)).
Lemma zip_item : item (l1 ++ o :: l2) (length l1) = o.
Proof. unfold item. by rewrite list_lookup_middle. Qed.
Lemma zip_store o' : store (length l1) o' (l1 ++ o :: l2) = l1 ++ o' :: l2.
Proof.
  unfold store. rewrite bool_decide_true by (rewrite length_app; cbn; lia).
  by rewrite insert_app_r_alt, Nat.sub_diag by lia.
Qed.
Lemma zip_more : bool_decide (S (length l1) < length (l1 ++ o :: l2))%nat = match l2 with [] => false | _ => true end.
Proof. rewrite length_app. destruct l2; cbn; [apply bool_decide_false|apply bool_decide_true]; lia. Qed.
Lemma zip_next : l1 ++ o :: l2 = (l1 ++ [o]) ++ l2.
Proof. by rewrite <- app_assoc. Qed.
Lemma zip_length : S (length l1) = length (l1 ++ [o]).
Proof. rewrite length_app. cbn. lia. Qed.
End zipper.

Ltac solo_pc := cbn [step_of]; unfold next_visit; rewrite ?zip_item, ?zip_more; try done.

Lemma add_solo e l1 l2 : l2 ≠ [] →
  ∃ n, (n ≤ 3 * length l2)%nat ∧ finishes n (l1 ++ l2) (AddRead (length l1) e) (l1 ++ list_add e l2) 0 [].
Proof.
  revert l1. induction l2 as [|o l2 IH]; intros l1 Hne; [done|]. destruct o as [x|].
  - destruct l2 as [|o' l2].
    + exists 3%nat. split; [cbn; lia|].
      eapply (finishes_goto _ _ _ (AddNext _ _)), (finishes_goto _ _ _ (AddLink _ _)); [solo_pc..|].
      eapply finishes_stored; [solo_pc|]. unfold store. rewrite bool_decide_false by (rewrite length_app; cbn; lia).
      by rewrite <- app_assoc.
    + destruct (IH (l1 ++ [Some x]) ltac:(done)) as (n & Hn & Hf). exists (S (S n)). split; [cbn in *; lia|].
      rewrite <- !app_assoc, length_app in Hf. cbn [length app] in Hf. rewrite Nat.add_1_r in Hf.
      eapply (finishes_goto _ _ _ (AddNext _ _)), (finishes_goto _ _ _ (AddRead _ _)); [solo_pc..|]. exact Hf.
  - exists 2%nat. split; [cbn; lia|]. eapply (finishes_goto _ _ _ (AddWrite _ _)); [solo_pc|].
    eapply finishes_stored; [solo_pc|]. by rewrite zip_store.
Qed.

Lemma remove_solo e l1 l2 : l2 ≠ [] →
  ∃ n, (n ≤ 3 * length l2)%nat ∧
    finishes n (l1 ++ l2) (RemoveRead (length l1) e false 0) (l1 ++ list_remove e l2) (Z.min 1 (count_of e l2)) [].
Proof.
  revert l1. induction l2 as [|o l2 IH]; intros l1 Hne; [done|]. unfold count_of. cbn [list_remove]. rewrite filter_cons.
  destruct (decide (o = Some e)) as [->|Ho].
  - rewrite bool_decide_true by done. exists 2%nat. split; [cbn; lia|].
    replace (Z.min 1 _) with 1 by (cbn; lia).
    eapply (finishes_goto _ _ _ (RemoveWrite _ _ _ _)); [solo_pc; by rewrite bool_decide_true|].
    eapply finishes_stored; [solo_pc; by rewrite bool_decide_true|]. by rewrite zip_store.
  - rewrite bool_decide_false by done. destruct l2 as [|o' l2].
    + exists 2%nat. split; [cbn; lia|].
      eapply (finishes_goto _ _ _ (RemoveNext _ _ _ _)); [solo_pc; by rewrite bool_decide_false|].
      eapply finishes_end. solo_pc.
    + destruct (IH (l1 ++ [o]) ltac:(done)) as (n & Hn & Hf). exists (S (S n)). split; [cbn in *; lia|].
      rewrite <- !app_assoc, length_app in Hf. cbn [length app] in Hf. rewrite Nat.add_1_r in Hf.
      eapply (finishes_goto _ _ _ (RemoveNext _ _ _ _)), (finishes_goto _ _ _ (RemoveRead _ _ _ _));
        [solo_pc; by rewrite bool_decide_false|solo_pc|]. exact Hf.
Qed.

Lemma remove_all_solo e l1 l2 r : l2 ≠ [] →
  ∃ n, (n ≤ 3 * length l2)%nat ∧
    finishes n (l1 ++ l2) (RemoveRead (length l1) e true r) (l1 ++ list_remove_all e l2) (r + count_of e l2) [].
Proof.
  revert l1 r. induction l2 as [|o l2 IH]; intros l1 r Hne; [done|].
  unfold count_of, list_remove_all. cbn [fmap list_fmap]. rewrite filter_cons.
  set (o2 := if bool_decide (o = Some e) then None else o). set (r2 := if bool_decide (o = Some e) then r + 1 else r).
  assert (∃ n, (n ≤ 3 * length (o :: l2) - 1)%nat ∧
    finishes n (l1 ++ o2 :: l2) (RemoveNext (length l1) e true r2) (l1 ++ o2 :: list_remove_all e l2) (r2 + count_of e l2) [] ∧
    (n ≤ 3 * length l2 + 1)%nat) as (n & _ & Hf & Hn).
  { destruct l2 as [|o' l2].
    - exists 1%nat. split; [cbn; lia|]. split; [|cbn; lia]. unfold count_of. cbn [list_remove_all filter list_filter length]. 
      rewrite Z.add_0_r. eapply finishes_end. solo_pc.
    - destruct (IH (l1 ++ [o2]) r2 ltac:(done)) as (n & Hn & Hf). exists (S n). split; [cbn in *; lia|]. split; [|cbn in *; lia].
      rewrite <- !app_assoc, length_app in Hf. cbn [length app] in Hf. rewrite Nat.add_1_r in Hf.
      eapply (finishes_goto _ _ _ (RemoveRead _ _ _ _)); [solo_pc|]. exact Hf. }
  unfold o2, r2 in *. destruct (decide (o = Some e)) as [->|Ho].
  - rewrite bool_decide_true in * by done. exists (S (S n)). split; [cbn; lia|].
    eapply (finishes_goto _ _ _ (RemoveWrite _ _ _ _)); [solo_pc; by rewrite bool_decide_true|].
    eapply finishes_store; [solo_pc; by rewrite bool_decide_true|]. rewrite zip_store. cbn [length].
    replace (r + Z.of_nat (S _)) with (r + 1 + count_of e l2) by (unfold count_of; lia). exact Hf.
  - rewrite bool_decide_false in * by done. exists (S n). split; [cbn; lia|].
    eapply (finishes_goto _ _ _ (RemoveNext _ _ _ _)); [solo_pc; by rewrite bool_decide_false|]. exact Hf.
Qed.

Lemma clear_solo l1 l2 : l2 ≠ [] →
  ∃ n, (n ≤ 3 * length l2)%nat ∧ finishes n (l1 ++ l2) (ClearWrite (length l1)) (l1 ++ ((λ _, None) <$> l2)) 0 [].
Proof.
  revert l1. induction l2 as [|o l2 IH]; intros l1 Hne; [done|]. destruct l2 as [|o' l2].
  - exists 1%nat. split; [cbn; lia|]. eapply finishes_stored; [solo_pc|]. by rewrite zip_store.
  - destruct (IH (l1 ++ [None]) ltac:(done)) as (n & Hn & Hf). exists (S n). split; [cbn in *; lia|].
    rewrite <- !app_assoc, length_app in Hf. cbn [length app] in Hf. rewrite Nat.add_1_r in Hf.
    eapply finishes_store; [solo_pc|]. rewrite zip_store. exact Hf.
Qed.

Lemma for_each_solo l1 l2 : l2 ≠ [] →
  ∃ n, (n ≤ 3 * length l2)%nat ∧ finishes n (l1 ++ l2) (Visit (length l1)) (l1 ++ l2) 0 (omap id l2).
Proof.
  revert l1. induction l2 as [|o l2 IH]; intros l1 Hne; [done|].
  assert (∃ n, (n ≤ 3 * length l2 + 1)%nat ∧ ∀ pc, step_of (l1 ++ o :: l2) pc = next_visit (l1 ++ o :: l2) (length l1) →
    finishes n (l1 ++ o :: l2) pc (l1 ++ o :: l2) 0 (omap id l2)) as (n & Hn & Hf).
  { destruct l2 as [|o' l2].
    - exists 1%nat. split; [cbn; lia|]. intros pc Hpc. eapply finishes_end. rewrite Hpc. solo_pc.
    - destruct (IH (l1 ++ [o]) ltac:(done)) as (n & Hn & Hf). exists (S n). split; [cbn in *; lia|]. intros pc Hpc.
      rewrite <- !app_assoc, length_app in Hf. cbn [length app] in Hf. rewrite Nat.add_1_r in Hf.
      eapply (finishes_goto _ _ _ (Visit _)); [rewrite Hpc; solo_pc|]. exact Hf. }
  destruct o as [e|].
  - exists (S n). split; [cbn; lia|]. eapply (finishes_goto _ _ _ (InCall _ e)); [solo_pc|]. by apply Hf.
  - exists n. split; [cbn; lia|]. apply Hf. cbn [step_of]. by rewrite zip_item.
Qed.

Lemma call_solo c l : l ≠ [] →
  ∃ n, (n ≤ 3 * length l)%nat ∧ finishes n l (start_pc c) (list_after c l) (list_result c l) (list_calls c l).
Proof.
  intros Hl. destruct c as [e|e|e| |]; cbn [start_pc list_after list_result list_calls].
  - by apply (add_solo e []).
  - by apply (remove_solo e []).
  - destruct (remove_all_solo e [] l 0 Hl) as (n & ? & ?). by exists n.
  - by apply (clear_solo []).
  - by apply (for_each_solo []).
Qed.
End solo.

(** ** Properties *)

(** C26. Shared without a lock, the list behaves as if every access were
    atomic. However the threads' calls interleave - adding, removing, clearing,
    iterating, and calls made from the function an iteration calls - the items
    hold what was written last; an element is added by exactly one write, into
    an item that was empty; [remove] and [remove_all] empty only items that hold
    their element and return how many they emptied; the function is called only
    with an element its item holds at that moment, at most once per item; and an
    iteration that has ended has called it for everything that was registered
    when it began and stayed. *)
Theorem shared_list_refines (s : SharedList) (h : list list_obs) :
  reachable list_machine s h →
  (∀ i, item (items s) i = slot_after h i) ∧ ∀ h1 ob h2, h = h1 ++ ob :: h2 → obs_ok h1 ob.
Proof.
  intros [Hg Hit _ _ _ _ _]%list_reachable. split; [done|]. intros h1 ob h2 ->. by eapply good_history_at.
Qed.

(** A call that no other thread disturbs ends within three steps per item
    and does its job: [add] uses the first empty item or appends one, [remove]
    empties the first item that holds the element and [remove_all] each of them,
    returning their number, [clear] empties all, and [for_each] calls the
    function on the elements in order. The other threads may be anywhere except
    inside a function that [for_each] called. *)
Theorem shared_list_alone (s : SharedList) (h : list list_obs) (t : Z) (c : list_call) :
  reachable list_machine s h → calls_out (stack s t) = true →
  map_Forall (λ t' st, t' = t ∨ Forall (λ f : Z * list_pc, calls_of f.1 f.2 = []) st) (stacks s) →
  ∃ n tr s', (n ≤ 3 * length (items s))%nat ∧
    run_ops list_machine (OpCall t c :: replicate n (OpStep t)) s h =
      Some (s', h ++ Begin (next_call s) c :: tr ++ [End (next_call s) (list_result c (items s))]) ∧
    items s' = list_after c (items s) ∧ called_in tr = list_calls c (items s) ∧ ∀ t', stack s' t' = stack s t'.
Proof.
  intros Hs%list_reachable Hout Hfree.
  destruct (call_solo t (stacks s) (next_call s + 1) (next_call s) (stack s t) Hfree c (items s) (l_head _ _ Hs)) as (n & Hn & tr & Hc & Hrun).
  exists n, tr. eexists. split; [done|]. cbn [run_ops m_allowed list_machine list_allowed]. rewrite Hout.
  cbn [m_exec list_machine list_exec]. unfold begin_call. rewrite pbind_get. cbn [pbind pemit pput value post trace app].
  split; [unfold solo_state, solo_steps in Hrun; by rewrite Hrun, <- app_assoc|].
  split; [done|]. split; [done|]. intros t'. unfold solo_state, stack. cbn.
  destruct (decide (t' = t)) as [->|]; [by rewrite lookup_insert_eq|by rewrite lookup_insert_ne].
Qed.
End list.
Arguments list_call : clear implicits.
Arguments list_pc : clear implicits.
Arguments SharedList : clear implicits.
Arguments list_obs : clear implicits.
Arguments list_op : clear implicits.
Arguments list_step : clear implicits.

(** ** Examples *)

(** Thread 1 registers 10 and iterates; from the function it registers 11 and
    removes 10, while thread 2 registers 12. *)
Definition list_example_ops : list (list_op Z) :=
  [OpCall 1 (CallAdd 10); OpStep 1; OpStep 1; OpCall 1 CallForEach; OpStep 1;
   OpCall 1 (CallAdd 11); OpStep 1; OpCall 2 (CallAdd 12); OpStep 2; OpStep 2; OpStep 1; OpStep 2; OpStep 1; OpStep 1;
   OpCall 1 (CallRemove 10); OpStep 1; OpStep 1; OpStep 1; OpStep 1; OpStep 1; OpStep 1].
Definition list_example_run : SharedList Z * list (list_obs Z) :=
  match run_ops list_machine list_example_ops empty_list [] with Some r => r | None => (empty_list, []) end.
Lemma list_example_reachable : reachable list_machine list_example_run.1 list_example_run.2.
Proof. apply (run_ops_from_init list_machine list_example_ops empty_list); [done|]. vm_compute. reflexivity. Qed.

Lemma shared_list_refines_witness :
  items list_example_run.1 = [None; Some 12; Some 11] ∧ ∀ i, item (items list_example_run.1) i = slot_after list_example_run.2 i.
Proof.
  split; [vm_compute; reflexivity|].
  destruct (shared_list_refines list_example_run.1 list_example_run.2 list_example_reachable) as [H _]. exact H.
Defined.

Lemma shared_list_alone_witness :
  ∃ n tr s', (n ≤ 3 * length (items list_example_run.1))%nat ∧
    run_ops list_machine (OpCall 1 CallForEach :: replicate n (OpStep 1)) list_example_run.1 list_example_run.2 =
      Some (s', list_example_run.2 ++ Begin (next_call list_example_run.1) CallForEach :: tr ++ [End (next_call list_example_run.1) 0]) ∧
    called_in tr = [12; 11].
Proof.
  destruct (shared_list_alone list_example_run.1 list_example_run.2 1 CallForEach) as (n & tr & s' & Hn & Hrun & _ & Hc & _).
  - exact list_example_reachable.
  - vm_compute. reflexivity.
  - apply (bool_decide_unpack (map_Forall (λ t' st, t' = 1 ∨ Forall (λ f : Z * list_pc Z, calls_of f.1 f.2 = []) st) (stacks list_example_run.1))).
    vm_compute. exact I.
  - exists n, tr, s'. split; [exact Hn|]. split; [exact Hrun|]. rewrite Hc. vm_compute. reflexivity.
Defined.

(** Two threads that iterate over the same item and both remove its element from
    the function wait for each other's read lock. *)
Definition list_deadlock_ops : list (list_op Z) :=
  [OpCall 1 (CallAdd 10); OpStep 1; OpStep 1; OpCall 1 CallForEach; OpStep 1; OpCall 2 CallForEach; OpStep 2;
   OpCall 1 (CallRemove 10); OpStep 1; OpCall 2 (CallRemove 10); OpStep 2].
Lemma iterations_deadlock :
  match run_ops list_machine list_deadlock_ops empty_list [] with
  | Some (s, h) => m_allowed list_machine s h (OpStep 1) = false ∧ m_allowed list_machine s h (OpStep 2) = false
  | None => False
  end.
Proof. vm_compute. split; reflexivity. Qed.
