(* ===== verification/BasicSurface.v ===== *)
(** A surface of the scene (src/server/scene/basic_surface.cpp): its
    attributes, its layers of buffer streams, its place and input region, its
    cursor, and whom it tells of what.

    The observer lists are [ObserverList]s, each used by one thread at a time
    here.  What the surface keeps in its streams - whom they tell of frames - is
    part of the state; what the streams answer is an argument of the calls that
    ask ([StreamAnswers]).  Transformations, images, frames and alpha values are
    opaque numbers.  Events for the client pass through the [Validator]. *)

From S2P Require Import Prelude Geometry ObserverList.

(** ** State *)
Record StreamInfo := mkStreamInfo { stream : Z; displacement : Displacement; layer_size : option Size }.

(** A static image, or a frame of a stream with its hotspot. *)
Inductive CursorImage := StaticImage (image : Z) | BufferImage (frame : Z) (hotspot : Displacement).
#[export] Instance CursorImage_eq_dec : EqDecision CursorImage.
Proof. solve_decision. Defined.

(** Who hears of a stream's frames: the surface's observers, and its
    [CursorStreamImageAdapter::FramePostObserver]. *)
Inductive listener := Observer (o : Z) | CursorAdapter.
#[export] Instance listener_eq_dec : EqDecision listener.
Proof. solve_decision. Defined.

Inductive attrib :=
  | attrib_type | attrib_state | attrib_swapinterval | attrib_focus | attrib_dpi | attrib_visibility
  | attrib_preferred_orientation | attrib_invalid.
#[export] Instance attrib_eq_dec : EqDecision attrib.
Proof. solve_decision. Defined.

Record BasicSurface := mkBasic {
  observers : list (option Z);
  surface_name : string;
  surface_rect : Rectangle;
  transformation_matrix : Z;
  surface_alpha : Z;
  hidden : bool;
  input_mode : Z;
  custom_input_rectangles : list Rectangle;
  cursor_image_ : option CursorImage;
  layers : list StreamInfo;
  (** the attributes *)
  attributes : attrib → Z;
  confine_pointer_state_ : Z;
  (** [cursor_stream_adapter] *)
  cursor_stream : option Z;
  cursor_hotspot : Displacement;
  (** the observer lists of the streams, as far as this surface fills them *)
  stream_observers : Z → list (option listener)
}.

(** What an observer is told. *)
Inductive note :=
  | AttribChanged (a : attrib) (value : Z)
  | ResizedTo (size : Size)
  | MovedTo (top_left : Point)
  | HiddenSetTo (hide : bool)
  | AlphaSetTo (alpha : Z)
  | OrientationSetTo (orientation : Z)
  | TransformationSetTo (t : Z)
  | ReceptionModeSetTo (mode : Z)
  | CursorImageSetTo (image : CursorImage)
  | CursorImageRemoved
  | CloseRequested
  | KeymapChanged (device : Z) (keymap : string)
  | Renamed (name : string)
  | PlacedRelative (placement : Rectangle).

Inductive basic_obs :=
  | Notify (o : Z) (n : note)
  | StreamResize (stream : Z) (size : Size)
  | AllowFramedropping (stream : Z) (allow : bool)
  | DropOldBuffers (stream : Z).

#[local] Abbreviation M := (prog BasicSurface basic_obs).

Record StreamAnswers := mkStreamAnswers {
  has_submitted_buffer : Z → bool;
  stream_size : Z → Size;
  buffers_ready : Z → Z;
  (** [lock_compositor_buffer] and reading its pixels *)
  cursor_frame : Z → outcome Z
}.

Definition set_rect (r : Rectangle) (s : BasicSurface) : BasicSurface :=
  mkBasic (observers s) (surface_name s) r (transformation_matrix s) (surface_alpha s) (hidden s) (input_mode s)
    (custom_input_rectangles s) (cursor_image_ s) (layers s) (attributes s) (confine_pointer_state_ s) (cursor_stream s)
    (cursor_hotspot s) (stream_observers s).
Definition set_looks (t alpha : Z) (h : bool) (s : BasicSurface) : BasicSurface :=
  mkBasic (observers s) (surface_name s) (surface_rect s) t alpha h (input_mode s)
    (custom_input_rectangles s) (cursor_image_ s) (layers s) (attributes s) (confine_pointer_state_ s) (cursor_stream s)
    (cursor_hotspot s) (stream_observers s).
Definition set_input (mode : Z) (rects : list Rectangle) (confine : Z) (s : BasicSurface) : BasicSurface :=
  mkBasic (observers s) (surface_name s) (surface_rect s) (transformation_matrix s) (surface_alpha s) (hidden s) mode
    rects (cursor_image_ s) (layers s) (attributes s) confine (cursor_stream s) (cursor_hotspot s) (stream_observers s).
Definition set_cursor_state (image : option CursorImage) (st : option Z) (hs : Displacement) (s : BasicSurface) : BasicSurface :=
  mkBasic (observers s) (surface_name s) (surface_rect s) (transformation_matrix s) (surface_alpha s) (hidden s) (input_mode s)
    (custom_input_rectangles s) image (layers s) (attributes s) (confine_pointer_state_ s) st hs (stream_observers s).
Definition set_attribute (a : attrib) (v : Z) (s : BasicSurface) : BasicSurface :=
  mkBasic (observers s) (surface_name s) (surface_rect s) (transformation_matrix s) (surface_alpha s) (hidden s) (input_mode s)
    (custom_input_rectangles s) (cursor_image_ s) (layers s) (λ b, if bool_decide (b = a) then v else attributes s b)
    (confine_pointer_state_ s) (cursor_stream s) (cursor_hotspot s) (stream_observers s).
Definition set_name (n : string) (s : BasicSurface) : BasicSurface :=
  mkBasic (observers s) n (surface_rect s) (transformation_matrix s) (surface_alpha s) (hidden s) (input_mode s)
    (custom_input_rectangles s) (cursor_image_ s) (layers s) (attributes s) (confine_pointer_state_ s) (cursor_stream s)
    (cursor_hotspot s) (stream_observers s).
Definition set_observers (os : list (option Z)) (ls : list StreamInfo) (so : Z → list (option listener)) (s : BasicSurface) : BasicSurface :=
  mkBasic os (surface_name s) (surface_rect s) (transformation_matrix s) (surface_alpha s) (hidden s) (input_mode s)
    (custom_input_rectangles s) (cursor_image_ s) ls (attributes s) (confine_pointer_state_ s) (cursor_stream s)
    (cursor_hotspot s) so.

(** ** Observers *)
Definition registered (s : BasicSurface) : list Z := omap id (observers s).
(** [SurfaceObservers]: each method calls it on every observer. *)
Definition notify (n : note) : M unit :=
  let* s := pget in pfor (registered s) (λ o, pemit (Notify o n)).

Definition on_stream (st : Z) (f : list (option listener) → list (option listener)) (so : Z → list (option listener))
    : Z → list (option listener) :=
  λ x, if bool_decide (x = st) then f (so x) else so x.
(** The streams of the layers, one after the other. *)
Definition on_layers (f : list (option listener) → list (option listener)) (ls : list StreamInfo) (so : Z → list (option listener))
    : Z → list (option listener) :=
  foldl (λ so l, on_stream (stream l) f so) so ls.

Definition add_observer (o : Z) : M unit :=
  pmodify (λ s, set_observers (list_add o (observers s)) (layers s) (on_layers (list_add (Observer o)) (layers s) (stream_observers s)) s).
(** [alive]: the weak pointer locks. *)
Definition remove_observer (o : Z) (alive : bool) : M unit :=
  if alive then
    pmodify (λ s, set_observers (list_remove o (observers s)) (layers s)
      (on_layers (list_remove (Observer o)) (layers s) (stream_observers s)) s)
  else pthrow (runtime_error "Invalid observer (previously destroyed)").

Definition for_observers (s : BasicSurface) (f : listener → list (option listener) → list (option listener))
    (l : list (option listener)) : list (option listener) :=
  foldl (λ l o, f (Observer o) l) l (registered s).
Definition set_streams (ls : list StreamInfo) : M unit :=
  do* pmodify (λ s, set_observers (observers s) ls
        (on_layers (for_observers s list_add) ls (on_layers (for_observers s list_remove) (layers s) (stream_observers s))) s) in
  let* s := pget in notify (MovedTo (top_left (surface_rect s))).

(** ** Place and looks *)
Definition move_to (p : Point) : M unit :=
  do* pmodify (λ s, set_rect (Rect p (size (surface_rect s))) s) in notify (MovedTo p).
Definition set_hidden (h : bool) : M unit :=
  do* pmodify (λ s, set_looks (transformation_matrix s) (surface_alpha s) h s) in notify (HiddenSetTo h).
Definition hide : M unit := set_hidden true.
Definition show : M unit := set_hidden false.
Definition set_alpha (alpha : Z) : M unit :=
  do* pmodify (λ s, set_looks (transformation_matrix s) alpha (hidden s) s) in notify (AlphaSetTo alpha).
Definition set_orientation (o : Z) : M unit := notify (OrientationSetTo o).
Definition set_transformation (t : Z) : M unit :=
  do* pmodify (λ s, set_looks t (surface_alpha s) (hidden s) s) in notify (TransformationSetTo t).
Definition set_reception_mode (mode : Z) : M unit :=
  do* pmodify (λ s, set_input mode (custom_input_rectangles s) (confine_pointer_state_ s) s) in notify (ReceptionModeSetTo mode).
Definition set_input_region (rects : list Rectangle) : M unit :=
  pmodify (λ s, set_input (input_mode s) rects (confine_pointer_state_ s) s).
Definition set_confine_pointer_state (c : Z) : M unit := pmodify (λ s, set_input (input_mode s) (custom_input_rectangles s) c s).
Definition rename (title : string) : M unit :=
  let* s := pget in
  pwhen (negb (bool_decide (surface_name s = title))) (do* pmodify (set_name title) in notify (Renamed title)).
Definition request_client_surface_close : M unit := notify CloseRequested.
Definition set_keymap (device : Z) (keymap : string) : M unit := notify (KeymapChanged device keymap).
Definition placed_relative (placement : Rectangle) : M unit := notify (PlacedRelative placement).

(** [primary] is [surface_buffer_stream], the first layer at construction. *)
Definition resize (primary : Z) (desired_size : Size) : M unit :=
  let new_size := Sz (if width desired_size <=? 0 then 1 else width desired_size)
                     (if height desired_size <=? 0 then 1 else height desired_size) in
  let* s := pget in
  if bool_decide (new_size = size (surface_rect s)) then pret tt
  else
    do* pemit (StreamResize primary new_size) in
    do* pmodify (λ s, set_rect (Rect (top_left (surface_rect s)) new_size) s) in
    notify (ResizedTo new_size).

(** ** Attributes *)
Definition window_types : Z := 9.
Definition window_states : Z := 8.
Definition orientation_mode_any : Z := 15.

(** The checks of [set_type], [set_state], [set_swap_interval], [set_focus_state],
    [set_dpi], [set_visibility] and [set_preferred_orientation]. *)
Definition attribute_error (a : attrib) (v : Z) : option exn :=
  match a with
  | attrib_type => if (v <? 0) || (window_types <? v) then Some (logic_error "Invalid surface type.") else None
  | attrib_state => if (v <? 0) || (window_states <? v) then Some (logic_error "Invalid surface state.") else None
  | attrib_swapinterval => if v <? 0 then Some (logic_error "Invalid swapinterval") else None
  | attrib_focus => if (v =? 0) || (v =? 1) then None else Some (logic_error "Invalid focus state.")
  | attrib_dpi => if v <? 0 then Some (logic_error "Invalid DPI value") else None
  | attrib_visibility => if (v =? 0) || (v =? 1) then None else Some (logic_error "Invalid visibility value")
  | attrib_preferred_orientation => if Z.land v orientation_mode_any =? 0 then Some (logic_error "Invalid orientation mode") else None
  | attrib_invalid => Some (logic_error "Invalid surface attribute.")
  end.

(** What a change of the attribute does to the layers. *)
Definition tell_streams (a : attrib) (v : Z) : M unit :=
  let* s := pget in
  match a with
  | attrib_swapinterval => pfor (layers s) (λ l, pemit (AllowFramedropping (stream l) (v =? 0)))
  | attrib_visibility => pwhen (v =? 1) (pfor (layers s) (λ l, pemit (DropOldBuffers (stream l))))
  | _ => pret tt
  end.

Definition configure (a : attrib) (v : Z) : M Z :=
  match attribute_error a v with
  | Some e => pthrow e
  | None =>
      let* s := pget in
      do* pwhen (negb (attributes s a =? v))
        (do* pmodify (set_attribute a v) in do* tell_streams a v in notify (AttribChanged a v)) in
      pret v
  end.
Definition query (a : attrib) : M Z :=
  let* s := pget in
  match a with
  | attrib_invalid => pthrow (logic_error "Invalid surface attribute.")
  | _ => pret (attributes s a)
  end.

(** ** What is shown and where input goes *)
Section asking.
Context (q : StreamAnswers).

Definition visible (s : BasicSurface) : bool :=
  negb (hidden s) && foldl (λ v l, v || has_submitted_buffer q (stream l)) false (layers s).

Definition input_area_contains (s : BasicSurface) (p : Point) : bool :=
  if visible s then
    match custom_input_rectangles s with
    | [] => contains_point (surface_rect s) p
    | rects =>
        let local := point_add (Pt 0 0) (point_sub p (top_left (surface_rect s))) in
        existsb (λ r, contains_point r local) rects
    end
  else false.

Definition buffers_ready_for_compositor (s : BasicSurface) : Z :=
  foldl (λ m l, Z.max m (buffers_ready q (stream l))) 0 (layers s).

(** [SurfaceSnapshot]: the stream, its screen position, and how it is drawn. *)
Record Snapshot := mkSnapshot { shot_stream : Z; screen_position : Rectangle; shot_transformation : Z; shot_alpha : Z }.
Definition generate_renderables (s : BasicSurface) : list Snapshot :=
  omap (λ l,
    if has_submitted_buffer q (stream l) then
      let sz := match layer_size l with Some sz => sz | None => stream_size q (stream l) end in
      Some (mkSnapshot (stream l) (Rect (point_add (top_left (surface_rect s)) (displacement l)) sz)
              (transformation_matrix s) (surface_alpha s))
    else None) (layers s).

(** ** The cursor *)
Definition post_cursor_image_from_current_buffer : M unit :=
  let* s := pget in
  match cursor_stream s with
  | None => pthrow (undefined_behaviour "null stream")
  | Some st =>
      let* frame := plift (cursor_frame q st) in
      let image := BufferImage frame (cursor_hotspot s) in
      do* pmodify (λ s, set_cursor_state (Some image) (cursor_stream s) (cursor_hotspot s) s) in
      notify (CursorImageSetTo image)
  end.
Definition detach (st : option Z) (so : Z → list (option listener)) : Z → list (option listener) :=
  match st with Some st => on_stream st (list_remove CursorAdapter) so | None => so end.
(** [CursorStreamImageAdapter::update] *)
Definition set_cursor_stream (new_stream : option Z) (new_hotspot : Displacement) : M unit :=
  let* s := pget in
  if bool_decide (new_stream = cursor_stream s ∧ new_hotspot = cursor_hotspot s) then pret tt
  else
    do* (if bool_decide (new_stream = cursor_stream s) then pret tt
         else
           do* pmodify (λ s, set_cursor_state (cursor_image_ s) new_stream (cursor_hotspot s)
                 (set_observers (observers s) (layers s) (detach (cursor_stream s) (stream_observers s)) s)) in
           match new_stream with
           | None => pthrow (undefined_behaviour "null stream")
           | Some st => pmodify (λ s, set_observers (observers s) (layers s) (on_stream st (list_add CursorAdapter) (stream_observers s)) s)
           end) in
    do* pmodify (λ s, set_cursor_state (cursor_image_ s) (cursor_stream s) new_hotspot s) in
    post_cursor_image_from_current_buffer.
(** A frame of stream [st]: its observers are told, the adapter among them. *)
Definition cursor_frame_posted (st : Z) : M unit :=
  let* s := pget in
  pfor (filter (λ l, l = CursorAdapter) (omap id (stream_observers s st))) (λ _, post_cursor_image_from_current_buffer).
Definition set_cursor_image (image : option Z) : M unit :=
  do* pmodify (λ s, set_cursor_state (StaticImage <$> image) None (cursor_hotspot s)
        (set_observers (observers s) (layers s) (detach (cursor_stream s) (stream_observers s)) s)) in
  match image with Some i => notify (CursorImageSetTo (StaticImage i)) | None => notify CursorImageRemoved end.
End asking.

(** ** A surface as a machine *)

(** [default_stream(layers)] *)
Definition construct (name : string) (rect : Rectangle) (confine : Z) (image : option CursorImage) (ls : list StreamInfo) : outcome BasicSurface :=
  match ls with
  | [] => Throw (logic_error "Surface must have content")
  | _ => Ret (mkBasic [None] name rect 0 0 false 0 [] image ls
      (λ a, match a with attrib_state => 1 | attrib_swapinterval => 1 | attrib_preferred_orientation => 15 | _ => 0 end)
      confine None (Dp 0 0) (λ _, [None]))
  end.

Inductive basic_op :=
  | OpAddObserver (o : Z) | OpRemoveObserver (o : Z) (alive : bool) | OpSetStreams (ls : list StreamInfo)
  | OpMoveTo (p : Point) | OpResize (primary : Z) (sz : Size) | OpSetHidden (h : bool) | OpSetAlpha (alpha : Z)
  | OpSetOrientation (o : Z) | OpSetTransformation (t : Z) | OpSetReceptionMode (mode : Z) | OpSetInputRegion (rects : list Rectangle)
  | OpSetConfine (c : Z) | OpRename (title : string) | OpRequestClose | OpSetKeymap (device : Z) (keymap : string)
  | OpPlacedRelative (placement : Rectangle) | OpConfigure (a : attrib) (v : Z)
  | OpSetCursorImage (image : option Z) | OpSetCursorStream (q : StreamAnswers) (st : Z) (hotspot : Displacement)
  | OpCursorFrame (q : StreamAnswers) (st : Z).
Definition basic_exec (op : basic_op) : M unit :=
  match op with
  | OpAddObserver o => add_observer o
  | OpRemoveObserver o alive => remove_observer o alive
  | OpSetStreams ls => set_streams ls
  | OpMoveTo p => move_to p
  | OpResize primary sz => resize primary sz
  | OpSetHidden h => set_hidden h
  | OpSetAlpha alpha => set_alpha alpha
  | OpSetOrientation o => set_orientation o
  | OpSetTransformation t => set_transformation t
  | OpSetReceptionMode mode => set_reception_mode mode
  | OpSetInputRegion rects => set_input_region rects
  | OpSetConfine c => set_confine_pointer_state c
  | OpRename title => rename title
  | OpRequestClose => request_client_surface_close
  | OpSetKeymap device keymap => set_keymap device keymap
  | OpPlacedRelative placement => placed_relative placement
  | OpConfigure a v => do* configure a v in pret tt
  | OpSetCursorImage image => set_cursor_image image
  | OpSetCursorStream q st hotspot => set_cursor_stream q (Some st) hotspot
  | OpCursorFrame q st => cursor_frame_posted q st
  end.
Definition basic_machine : machine :=
  Machine BasicSurface basic_op basic_obs (λ s, ∃ name rect confine image ls, construct name rect confine image ls = Ret s)
    (λ _ _ _, true) basic_exec.

(** ** Counting registrations *)
Section counts.
Context {E : Type} `{EqDecision E}.
Implicit Types (x y : E) (l : list (option E)).

Definition one x y : Z := if bool_decide (x = y) then 1 else 0.
Lemma count_nonneg x l : 0 ≤ count_of x l.
Proof. unfold count_of. lia. Qed.
Lemma count_cons x o l : count_of x (o :: l) = (if bool_decide (o = Some x) then 1 else 0) + count_of x l.
Proof. unfold count_of. rewrite filter_cons. case_decide; [rewrite bool_decide_true by done|rewrite bool_decide_false by done]; cbn [length]; lia. Qed.
Lemma count_add x y l : count_of x (list_add y l) = count_of x l + one x y.
Proof.
  assert ((if bool_decide (Some y = Some x) then 1 else 0) = one x y) as Hone
    by (unfold one; destruct (decide (x = y)) as [->|]; [by rewrite !bool_decide_true|rewrite !bool_decide_false by congruence; done]).
  induction l as [|[z|] l IH]; cbn [list_add]; rewrite ?count_cons, ?IH, ?Hone; [unfold count_of; cbn; lia|lia|].
  rewrite (bool_decide_false (None = Some x)) by done. lia.
Qed.
Lemma count_remove x y l : count_of x (list_remove y l) = count_of x l - Z.min (one x y) (count_of y l).
Proof.
  induction l as [|o l IH]; cbn [list_remove]; [unfold count_of, one; cbn; by case_bool_decide|].
  rewrite !count_cons. pose proof (count_nonneg y l). pose proof (count_nonneg x l).
  destruct (decide (o = Some y)) as [->|Ho].
  - rewrite (bool_decide_true (Some y = Some y)), count_cons, (bool_decide_false (None = Some x)) by done. unfold one.
    destruct (decide (x = y)) as [->|]; [rewrite !bool_decide_true by done; lia|rewrite !bool_decide_false by congruence; lia].
  - rewrite (bool_decide_false (o = Some y)), count_cons, IH by done. lia.
Qed.
Lemma count_elements x l : count_of x l = Z.of_nat (length (filter (λ y, y = x) (omap id l))).
Proof.
  unfold count_of. f_equal. induction l as [|[y|] l IH]; [done| |].
  - cbn [omap list_omap id]. rewrite !filter_cons. destruct (decide (y = x)) as [->|].
    + rewrite !decide_True by done. cbn. by rewrite IH.
    + rewrite !decide_False by congruence. done.
  - cbn [omap list_omap id]. by rewrite filter_cons, decide_False.
Qed.
End counts.

Definition layer_count (st : Z) (ls : list StreamInfo) : Z := Z.of_nat (length (filter (λ l, stream l = st) ls)).

Lemma layer_count_cons st l ls : layer_count st (l :: ls) = (if bool_decide (st = stream l) then 1 else 0) + layer_count st ls.
Proof.
  unfold layer_count. rewrite filter_cons. case_decide as Hs; [rewrite bool_decide_true by done|rewrite bool_decide_false by congruence]; cbn [length]; lia.
Qed.
Lemma count_on_stream st f so x st' :
  count_of x (on_stream st f so st') = if bool_decide (st' = st) then count_of x (f (so st')) else count_of x (so st').
Proof. unfold on_stream. by case_bool_decide. Qed.

(** Adding or removing as many of each listener per layer. *)
Lemma count_on_layers_add f (c : listener → Z) ls so x st :
  (∀ x l, count_of x (f l) = count_of x l + c x) →
  count_of x (on_layers f ls so st) = count_of x (so st) + layer_count st ls * c x.
Proof.
  intros Hf. revert so. induction ls as [|l ls IH]; intros so; [unfold layer_count; cbn; lia|].
  cbn [on_layers foldl]. unfold on_layers in IH. rewrite IH, count_on_stream, layer_count_cons.
  case_bool_decide; [rewrite Hf|]; lia.
Qed.
Lemma count_on_layers_remove f (c : listener → Z) ls so x st :
  (∀ x, 0 ≤ c x) → (∀ x l, c x ≤ count_of x l → count_of x (f l) = count_of x l - c x) →
  layer_count st ls * c x ≤ count_of x (so st) →
  count_of x (on_layers f ls so st) = count_of x (so st) - layer_count st ls * c x.
Proof.
  intros Hc Hf. revert so. induction ls as [|l ls IH]; intros so; [unfold layer_count; cbn; lia|].
  cbn [on_layers foldl]. unfold on_layers in IH. rewrite layer_count_cons. intros Hle. specialize (Hc x).
  assert (0 ≤ layer_count st ls) by (unfold layer_count; lia).
  assert (count_of x (on_stream (stream l) f so st) = count_of x (so st) - (if bool_decide (st = stream l) then c x else 0)) as Hone.
  { rewrite count_on_stream. case_bool_decide; [rewrite Hf by nia; lia|lia]. }
  rewrite IH; rewrite Hone; case_bool_decide; nia.
Qed.

Definition listener_count (s : BasicSurface) (x : listener) : Z :=
  match x with Observer o => count_of o (observers s) | CursorAdapter => 0 end.
Lemma listener_count_elements s x : listener_count s x = Z.of_nat (length (filter (λ y, y = x) (Observer <$> registered s))).
Proof.
  destruct x as [o|]; cbn [listener_count].
  - rewrite count_elements. unfold registered. f_equal. induction (omap id (observers s)) as [|y l IH]; [done|].
    cbn [fmap list_fmap]. rewrite !filter_cons. destruct (decide (y = o)) as [->|]; [rewrite !decide_True by done; cbn [length]; by rewrite IH|].
    by rewrite !decide_False by congruence.
  - induction (registered s) as [|y l IH]; [done|]. cbn [fmap list_fmap]. by rewrite filter_cons, decide_False.
Qed.

Lemma for_observers_add s x l : count_of x (for_observers s list_add l) = count_of x l + listener_count s x.
Proof.
  rewrite listener_count_elements. unfold for_observers. revert l. induction (registered s) as [|o os IH]; intros l; cbn [foldl fmap list_fmap]; [cbn; lia|].
  rewrite IH, count_add, filter_cons. unfold one. case_decide as Hx; [rewrite bool_decide_true by done|rewrite bool_decide_false by congruence]; cbn [length]; lia.
Qed.
Lemma for_observers_remove s x l : listener_count s x ≤ count_of x l →
  count_of x (for_observers s list_remove l) = count_of x l - listener_count s x.
Proof.
  rewrite listener_count_elements. unfold for_observers. revert l. induction (registered s) as [|o os IH]; intros l; cbn [foldl fmap list_fmap]; [cbn; lia|].
  rewrite filter_cons. intros Hle. assert (count_of x (list_remove (Observer o) l) = count_of x l - (if bool_decide (Observer o = x) then 1 else 0)) as Hone.
  { rewrite count_remove. unfold one. case_decide as Hx; [subst x; rewrite !bool_decide_true by done; cbn [length] in Hle; lia|].
    rewrite !bool_decide_false by congruence. pose proof (count_nonneg (Observer o) l). lia. }
  revert Hle Hone. destruct (decide (Observer o = x)) as [Hx|Hx]; [rewrite bool_decide_true by done|rewrite bool_decide_false by done];
    cbn [length]; intros Hle Hone; (rewrite IH; [|lia]); lia.
Qed.

(** ** The invariant *)
Record basic_ok (s : BasicSurface) : Prop := {
  b_heard : ∀ st x, count_of x (stream_observers s st) =
    layer_count st (layers s) * listener_count s x +
    (if bool_decide (x = CursorAdapter ∧ cursor_stream s = Some st) then 1 else 0);
  b_attributes : ∀ a, a ≠ attrib_invalid → attribute_error a (attributes s a) = None
}.

(** Programs that only tell observers or change what the invariant does not
    read. *)
Definition listening (s : BasicSurface) :=
  (observers s, layers s, cursor_stream s, stream_observers s, attributes s).
Lemma basic_ok_same s s' : listening s' = listening s → basic_ok s → basic_ok s'.
Proof.
  unfold listening. intros [= Ho Hl Hc Hso Ha] [H1 H2]. split; [|by rewrite Ha].
  intros st x. rewrite Hl, Hc, Hso, H1. f_equal. unfold listener_count. by rewrite Ho.
Qed.
Lemma surface_notify_run n s : notify n s = Run (Ret tt) s ((λ o, Notify o n) <$> registered s).
Proof. unfold notify. by rewrite pbind_get, pfor_emit. Qed.

Section keeping.
Context (k : list (option Z) * list StreamInfo * option Z * (Z → list (option listener)) * (attrib → Z)).
#[local] Abbreviation keeps m := (preserves (λ s (_ : list basic_obs), listening s = k) m).
Lemma keeps_notify n : keeps (notify n).
Proof. intros s h Hs. by rewrite surface_notify_run. Qed.
Lemma keeps_change f : (∀ s, listening (f s) = listening s) → keeps (pmodify f).
Proof. intros Hf. apply preserves_modify. intros s h <-. apply Hf. Qed.
Lemma keeps_reading {A} (f : BasicSurface → M A) : (∀ s, keeps (f s)) → keeps (pbind pget f).
Proof. intros Hf. apply preserves_bind; [apply preserves_get|done]. Qed.
Lemma keeps_emitting o : keeps (pemit o).
Proof. by apply preserves_emit. Qed.
Lemma keeps_lifted {A} (o : outcome A) : keeps (plift o).
Proof. intros s h Hs. done. Qed.
End keeping.

Ltac keep_listening :=
  repeat match goal with
    | |- preserves _ (pret _) => apply preserves_ret
    | |- preserves _ (pthrow _) => apply preserves_throw
    | |- preserves _ (pwhen _ _) => apply preserves_when
    | |- preserves _ (notify _) => apply keeps_notify
    | |- preserves _ (pemit _) => apply keeps_emitting
    | |- preserves _ (plift _) => apply keeps_lifted
    | |- preserves _ (pmodify _) => apply keeps_change; intros ?; reflexivity
    | |- preserves _ (pbind pget _) => apply keeps_reading; intros ?
    | |- preserves _ (pbind _ _) => apply preserves_bind; [|intros ?]
    | |- preserves _ (pfor _ _) => apply preserves_for; intros ? ?
    | |- preserves _ (match ?x with _ => _ end) => destruct x
    end.

Lemma basic_ok_keeps {A} (m : M A) s : (∀ k, preserves (λ s (_ : list basic_obs), listening s = k) m) → basic_ok s → basic_ok (post (m s)).
Proof. intros Hm. apply basic_ok_same. by apply (Hm (listening s) s []). Qed.
Lemma keeps_post_cursor q k : preserves (λ s (_ : list basic_obs), listening s = k) (post_cursor_image_from_current_buffer q).
Proof. unfold post_cursor_image_from_current_buffer. keep_listening. Qed.

Section steps.
Context (s : BasicSurface) (Hs : basic_ok s).

Lemma layer_count_nonneg st ls : 0 ≤ layer_count st ls.
Proof. unfold layer_count. lia. Qed.
Lemma listener_count_nonneg x : 0 ≤ listener_count s x.
Proof. rewrite listener_count_elements. lia. Qed.

Lemma add_observer_ok o : basic_ok (post (add_observer o s)).
Proof.
  split; [|apply Hs]. intros st x. cbn [add_observer pmodify post stream_observers observers layers cursor_stream set_observers].
  rewrite (count_on_layers_add _ (λ x, one x (Observer o))) by (intros; apply count_add). rewrite (b_heard _ Hs).
  assert (listener_count (post (add_observer o s)) x = listener_count s x + one x (Observer o)) as Hc.
  { destruct x as [o'|]; cbn [listener_count]; [|unfold one; by rewrite bool_decide_false].
    cbn [add_observer pmodify post observers set_observers]. rewrite count_add. unfold one.
    destruct (decide (o' = o)) as [->|]; [by rewrite !bool_decide_true|by rewrite !bool_decide_false by congruence]. }
  cbn [add_observer pmodify post] in Hc. rewrite Hc. lia.
Qed.

Lemma remove_observer_ok o alive : basic_ok (post (remove_observer o alive s)).
Proof.
  destruct alive; [|done]. split; [|apply Hs]. intros st x.
  cbn [remove_observer pmodify post stream_observers observers layers cursor_stream set_observers].
  set (c := λ x, if bool_decide (x = Observer o) then Z.min 1 (count_of o (observers s)) else 0).
  assert (listener_count (post (remove_observer o true s)) x = listener_count s x - c x) as Hc.
  { unfold c. destruct x as [o'|]; cbn [listener_count]; [|by rewrite bool_decide_false].
    cbn [remove_observer pmodify post observers set_observers]. rewrite count_remove. unfold one.
    pose proof (count_nonneg o (observers s)).
    destruct (decide (o' = o)) as [->|]; [by rewrite !bool_decide_true by done|rewrite !bool_decide_false by congruence; lia]. }
  cbn [remove_observer pmodify post] in Hc. rewrite Hc.
  pose proof (b_heard _ Hs st x) as Hh. pose proof (layer_count_nonneg st (layers s)). pose proof (listener_count_nonneg x) as Hn.
  assert (0 ≤ (if bool_decide (x = CursorAdapter ∧ cursor_stream s = Some st) then 1 else 0)) as Hb by (by case_bool_decide).
  destruct (decide (count_of o (observers s) = 0)) as [Hz|Hz].
  - assert (c x = 0) as Hcx by (unfold c; rewrite Hz; by destruct (bool_decide (x = Observer o))).
    rewrite Hcx, Z.sub_0_r, <- Hh.
    assert (count_of (Observer o) (stream_observers s st) = 0 ∨ layer_count st (layers s) = 0) as Hor.
    { left. rewrite (b_heard _ Hs). cbn [listener_count]. rewrite Hz, bool_decide_false by (intros [? _]; done). lia. }
    assert (∀ ls so, (∀ st', count_of (Observer o) (so st') = 0) → count_of x (on_layers (list_remove (Observer o)) ls so st) = count_of x (so st)) as Hsame.
    { clear. intros ls. induction ls as [|l ls IH]; intros so Hso; [done|]. cbn [on_layers foldl]. unfold on_layers in IH.
      assert (∀ y st', count_of y (on_stream (stream l) (list_remove (Observer o)) so st') = count_of y (so st')) as Hone.
      { intros y st'. rewrite count_on_stream. case_bool_decide; [|done]. rewrite count_remove, Hso. unfold one. case_bool_decide; lia. }
      rewrite IH; [by rewrite Hone|intros st'; by rewrite Hone]. }
    apply Hsame. intros st'. rewrite (b_heard _ Hs). cbn [listener_count]. rewrite Hz, bool_decide_false by (intros [? _]; done). lia.
  - assert (Z.min 1 (count_of o (observers s)) = 1) as H1 by (pose proof (count_nonneg o (observers s)); lia).
    assert (c x ≤ listener_count s x) as Hle.
    { unfold c. destruct (decide (x = Observer o)) as [->|Hx]; [rewrite bool_decide_true by done; cbn [listener_count]; lia|by rewrite bool_decide_false]. }
    rewrite (count_on_layers_remove _ c).
    + rewrite Hh. lia.
    + intros y. unfold c. destruct (bool_decide (y = Observer o)); lia.
    + intros y l Hy. rewrite count_remove. unfold c, one in *. rewrite H1 in *.
      destruct (decide (y = Observer o)) as [->|]; [rewrite !bool_decide_true in * by done; lia|rewrite !bool_decide_false by done].
      pose proof (count_nonneg (Observer o) l). lia.
    + rewrite Hh. nia.
Qed.

Lemma set_streams_ok ls : basic_ok (post (set_streams ls s)).
Proof.
  unfold set_streams. rewrite pbind_modify, pbind_get, surface_notify_run. cbn [post]. split; [|apply Hs].
  intros st x. cbn [stream_observers observers layers cursor_stream set_observers].
  change (listener_count (set_observers _ _ _ s) x) with (listener_count s x).
  rewrite (count_on_layers_add _ (listener_count s)) by (intros; apply for_observers_add).
  pose proof (b_heard _ Hs st x) as Hh. pose proof (listener_count_nonneg x).
  assert (0 ≤ (if bool_decide (x = CursorAdapter ∧ cursor_stream s = Some st) then 1 else 0)) as Hb by (by case_bool_decide).
  rewrite (count_on_layers_remove _ (listener_count s)); [lia|apply listener_count_nonneg|apply for_observers_remove|lia].
Qed.

Lemma configure_ok a v : basic_ok (post (configure a v s)).
Proof.
  unfold configure. destruct (attribute_error a v) as [e|] eqn:He; [done|]. rewrite pbind_get.
  unfold pbind at 1. destruct (attributes s a =? v) eqn:Hv; [done|]. cbn [negb pwhen]. rewrite pbind_modify.
  assert (basic_ok (set_attribute a v s)) as H1.
  { split; [apply Hs|]. intros b Hb. cbn. case_bool_decide as Hba; [by subst b|by apply Hs]. }
  assert (basic_ok (post ((do* tell_streams a v in notify (AttribChanged a v)) (set_attribute a v s)))) as H2.
  { apply basic_ok_keeps; [|done]. intros k. unfold tell_streams. keep_listening. }
  destruct (value _); exact H2.
Qed.

(** Taking the adapter off its stream and putting it on another. *)
Lemma reattach_ok image st' hs :
  basic_ok (set_cursor_state image st' hs (set_observers (observers s) (layers s)
    (match st' with Some st => on_stream st (list_add CursorAdapter) (detach (cursor_stream s) (stream_observers s))
     | None => detach (cursor_stream s) (stream_observers s) end) s)).
Proof.
  split; [|apply Hs]. intros st x. cbn [stream_observers layers cursor_stream set_cursor_state set_observers].
  change (listener_count _ x) with (listener_count s x).
  assert (∀ st, count_of x (detach (cursor_stream s) (stream_observers s) st) = layer_count st (layers s) * listener_count s x) as Hd.
  { clear st. intros st. pose proof (b_heard _ Hs st x) as Hh. unfold detach. destruct (cursor_stream s) as [st0|] eqn:Hst0.
    - rewrite count_on_stream. pose proof (b_heard _ Hs st CursorAdapter) as Hca. rewrite Hst0 in Hca. cbn [listener_count] in Hca.
      destruct (decide (st = st0)) as [<-|Heq].
      + rewrite (bool_decide_true (st = st)) by done. rewrite bool_decide_true in Hca by done. rewrite count_remove, Hca. unfold one.
        destruct (decide (x = CursorAdapter)) as [->|Hx]; [rewrite bool_decide_true by done; cbn [listener_count] in *; lia|].
        rewrite (bool_decide_false (x = CursorAdapter)), Hh, bool_decide_false by tauto. lia.
      + rewrite bool_decide_false by done. rewrite Hh, bool_decide_false by (intros [_ [= ->]]; done). lia.
    - rewrite Hh, bool_decide_false by (intros [_ ?]; done). lia. }
  destruct st' as [st'|]; [|rewrite Hd, bool_decide_false by (intros [_ ?]; done); lia].
  rewrite count_on_stream. destruct (decide (st = st')) as [<-|Heq].
  - rewrite (bool_decide_true (st = st)), count_add, Hd by done. unfold one. destruct (decide (x = CursorAdapter)) as [->|Hx].
    + by rewrite !bool_decide_true.
    + by rewrite !bool_decide_false by tauto.
  - rewrite (bool_decide_false (st = st')), Hd, bool_decide_false by (done || (intros [_ [= ->]]; done)). lia.
Qed.

Lemma set_cursor_image_ok image : basic_ok (post (set_cursor_image image s)).
Proof.
  unfold set_cursor_image. rewrite pbind_modify. destruct image as [i|]; rewrite surface_notify_run; cbn [post fmap option_fmap option_map];
    apply (reattach_ok _ None).
Qed.
Lemma set_cursor_stream_ok q st hs : basic_ok (post (set_cursor_stream q (Some st) hs s)).
Proof.
  unfold set_cursor_stream. rewrite pbind_get. destruct (bool_decide (_ ∧ _)); [done|]. case_bool_decide as Hst.
  - rewrite pbind_ret_l. apply basic_ok_keeps; [|done]. intros k. pose proof keeps_post_cursor. keep_listening. auto.
  - rewrite pbind_assoc, pbind_modify, pbind_modify, pbind_modify. apply basic_ok_keeps.
    + intros k. apply keeps_post_cursor.
    + apply (reattach_ok (cursor_image_ s) (Some st) hs).
Qed.
End steps.

Lemma basic_reachable s h : reachable basic_machine s h → basic_ok s.
Proof.
  revert s h. apply (reachable_invariant basic_machine (λ s _, basic_ok s)).
  - intros s (name & rect & confine & image & ls & Hc). unfold construct in Hc. destruct ls as [|l ls]; [done|]. injection Hc as <-. split.
    + intros st x. cbn [stream_observers layers cursor_stream]. rewrite bool_decide_false by (by intros []).
      assert (listener_count (mkBasic [None] name rect 0 0 false 0 [] image (l :: ls)
        (λ a, match a with attrib_state => 1 | attrib_swapinterval => 1 | attrib_preferred_orientation => 15 | _ => 0 end)
        confine None (Dp 0 0) (λ _, [None])) x = 0) as -> by (by destruct x).
      change (count_of x [None]) with 0. lia.
    + intros [| | | | | | |]; done.
  - intros s h op _ Hs _. destruct op; cbn [m_exec basic_machine basic_exec];
      try solve [apply basic_ok_keeps; [intros k; unfold move_to, resize, set_hidden, set_alpha, set_orientation, set_transformation,
        set_reception_mode, set_input_region, set_confine_pointer_state, rename, request_client_surface_close, set_keymap, placed_relative; keep_listening|done]].
    + by apply add_observer_ok.
    + by apply remove_observer_ok.
    + by apply set_streams_ok.
    + pose proof (configure_ok s Hs a v) as Hc. unfold pbind. by destruct (value _).
    + by apply set_cursor_image_ok.
    + by apply set_cursor_stream_ok.
    + unfold cursor_frame_posted. apply basic_ok_keeps; [|done]. intros k. pose proof keeps_post_cursor. keep_listening. auto.
Qed.

(** ** Properties *)

(** C27. A surface hears of exactly what it shows. Whatever observers come and
    go and however often the layers are exchanged, each registered observer is
    on the list of each stream once per registration and layer that shows the
    stream, and on no other; the surface's own cursor adapter is on the list of
    the stream the cursor was last set to, once, and on none when the cursor is a
    static image. A frame of a stream therefore changes the cursor only
    if the cursor shows that stream. And every attribute has a value that
    [configure] accepts: it refuses the others and leaves the surface alone. *)
Theorem surface_listeners (s : BasicSurface) (h : list basic_obs) :
  reachable basic_machine s h →
  (∀ st o, count_of (Observer o) (stream_observers s st) = layer_count st (layers s) * count_of o (observers s)) ∧
  (∀ st, count_of CursorAdapter (stream_observers s st) = if bool_decide (cursor_stream s = Some st) then 1 else 0) ∧
  (∀ q st, cursor_frame_posted q st s =
     if bool_decide (cursor_stream s = Some st) then post_cursor_image_from_current_buffer q s else Run (Ret tt) s []) ∧
  (∀ image, cursor_stream (post (set_cursor_image image s)) = None) ∧
  (∀ a, a ≠ attrib_invalid → attribute_error a (attributes s a) = None) ∧
  ∀ a v e, attribute_error a v = Some e → configure a v s = Run (Throw e) s [].
Proof.
  intros Hs%basic_reachable.
  assert (∀ st, count_of CursorAdapter (stream_observers s st) = if bool_decide (cursor_stream s = Some st) then 1 else 0) as Hc.
  { intros st. rewrite (b_heard _ Hs). cbn [listener_count]. destruct (decide (cursor_stream s = Some st)) as [He|He].
    - rewrite !bool_decide_true by done. lia.
    - rewrite !bool_decide_false by tauto. lia. }
  split; [|split; [exact Hc|split; [|split; [|split; [apply Hs|]]]]].
  - intros st o. rewrite (b_heard _ Hs), bool_decide_false by (by intros []). cbn [listener_count]. lia.
  - intros q st. unfold cursor_frame_posted. rewrite pbind_get. specialize (Hc st). rewrite count_elements in Hc.
    destruct (filter _ _) as [|x [|y l]]; cbn [length] in Hc; case_bool_decide; try lia; [done|].
    cbn [pfor]. unfold pbind, pret. destruct (post_cursor_image_from_current_buffer q s) as [[[]|e] s' tr]; cbn; by rewrite ?app_nil_r.
  - intros image. unfold set_cursor_image. rewrite pbind_modify. by destruct image; rewrite surface_notify_run.
  - intros a v e He. unfold configure. by rewrite He.
Qed.

(** What the layers are told of an attribute. *)
Definition told_streams (a : attrib) (v : Z) (s : BasicSurface) : list basic_obs :=
  match a with
  | attrib_swapinterval => (λ l, AllowFramedropping (stream l) (v =? 0)) <$> layers s
  | attrib_visibility => if v =? 1 then (λ l, DropOldBuffers (stream l)) <$> layers s else []
  | _ => []
  end.

(** Attributes. [configure] either refuses a value that is not one of the
    attribute's, with the error of that attribute and without doing anything, or
    returns it; a value that differs from the current one is stored, the
    layers are told of a swap interval or of becoming visible, and then every
    observer hears of the change once, in order; setting the current value tells
    nobody. The other attributes stay, [query] answers with what was last
    configured, and what is stored is always a value [configure] accepts. *)
Theorem configure_spec (s : BasicSurface) (h : list basic_obs) (a : attrib) (v : Z) :
  reachable basic_machine s h →
  (∀ b, b ≠ attrib_invalid → attribute_error b (attributes s b) = None) ∧
  match attribute_error a v with
  | Some e => configure a v s = Run (Throw e) s []
  | None =>
      value (configure a v s) = Ret v ∧
      (attributes s a = v → configure a v s = Run (Ret v) s []) ∧
      (attributes s a ≠ v →
         configure a v s = Run (Ret v) (set_attribute a v s) (told_streams a v s ++ ((λ o, Notify o (AttribChanged a v)) <$> registered s))) ∧
      value (query a (post (configure a v s))) = Ret v ∧
      ∀ b, b ≠ a → attributes (post (configure a v s)) b = attributes s b
  end.
Proof.
  intros Hs%basic_reachable. split; [apply Hs|]. unfold configure. destruct (attribute_error a v) as [e|] eqn:He; [done|].
  assert (∀ s, tell_streams a v s = Run (Ret tt) s (told_streams a v s)) as Htell.
  { intros s'. unfold tell_streams, told_streams. rewrite pbind_get. destruct a; try done; [by rewrite pfor_emit|].
    destruct (v =? 1); [cbn [pwhen]; by rewrite pfor_emit|done]. }
  rewrite pbind_get. destruct (Z.eqb_spec (attributes s a) v) as [Heq|Hne]; cbn [negb pwhen].
  - rewrite pbind_ret_l. split_and!; [done|done|done| |done]. unfold query. rewrite pbind_get. cbn [post pret]. destruct a; cbn; by rewrite ?Heq.
  - assert ((do* do* pmodify (set_attribute a v) in do* tell_streams a v in notify (AttribChanged a v) in pret v) s =
      Run (Ret v) (set_attribute a v s) (told_streams a v s ++ ((λ o, Notify o (AttribChanged a v)) <$> registered s))) as ->.
    { rewrite pbind_assoc, pbind_modify, pbind_assoc. unfold pbind at 1. rewrite Htell. cbn [value post trace].
      unfold pbind. rewrite surface_notify_run. cbn. by rewrite app_nil_r. }
    split_and!; [done|done|done| |].
    + unfold query. rewrite pbind_get. destruct a; cbn; try done; by rewrite bool_decide_true.
    + intros b Hb. cbn. by rewrite bool_decide_false.
Qed.

(** Where a surface takes input. A surface that is hidden or has nothing to
    show in any layer takes none; otherwise it takes input in its rectangle, or
    when it has an input region in exactly the region's rectangles, placed
    relative to the surface. It has something to show exactly when it gives the
    compositor something to draw. *)
Theorem surface_input_area (q : StreamAnswers) (s : BasicSurface) (p : Point) :
  rect_ok (surface_rect s) → Forall rect_ok (custom_input_rectangles s) → point_ok p →
  point_ok (Pt (px p - px (top_left (surface_rect s))) (py p - py (top_left (surface_rect s)))) →
  (visible q s = true ↔ hidden s = false ∧ generate_renderables q s ≠ []) ∧
  (input_area_contains q s p = true ↔ visible q s = true ∧
     match custom_input_rectangles s with
     | [] => covers (surface_rect s) p
     | rects => ∃ r, r ∈ rects ∧
         covers r (Pt (px p - px (top_left (surface_rect s))) (py p - py (top_left (surface_rect s))))
     end).
Proof.
  intros Hr Hrs Hp Hd. split.
  - unfold visible. rewrite andb_true_iff, negb_true_iff.
    assert (∀ ls b, foldl (λ v l, v || has_submitted_buffer q (stream l)) b ls = true ↔
      b = true ∨ ∃ l, l ∈ ls ∧ has_submitted_buffer q (stream l) = true) as Hfold.
    { intros ls. induction ls as [|l ls IH]; intros b; cbn [foldl].
      - split; [by left|]. intros [?|(l & ?%elem_of_nil & _)]; done.
      - rewrite IH, orb_true_iff. setoid_rewrite elem_of_cons. naive_solver. }
    rewrite Hfold. assert (generate_renderables q s ≠ [] ↔ ∃ l, l ∈ layers s ∧ has_submitted_buffer q (stream l) = true) as ->.
    { unfold generate_renderables. induction (layers s) as [|l ls IH]; cbn.
      - split; [done|]. by intros (l & ?%elem_of_nil & _).
      - destruct (has_submitted_buffer q (stream l)) eqn:Hl.
        + split; [intros _; exists l; by split; [left|]|done].
        + rewrite IH. split; intros (x & Hx & Hb); exists x; (split; [|done]); [by right|].
          apply elem_of_cons in Hx as [->|?]; [congruence|done]. }
    split; [intros [? [?|?]]; done|]. intros [? ?]. by split; [|right].
  - unfold input_area_contains. destruct (visible q s); [|split; [done|by intros []]].
    assert (point_add (Pt 0 0) (point_sub p (top_left (surface_rect s))) =
      Pt (px p - px (top_left (surface_rect s))) (py p - py (top_left (surface_rect s)))) as ->.
    { destruct Hd as [Hx Hy]. cbn [px py] in Hx, Hy. unfold point_add, point_sub. cbn [px py dx dy].
      rewrite !int_sub_exact by (unfold_coords; lia). rewrite !int_add_exact by (unfold_coords; lia). by rewrite !Z.add_0_l. }
    destruct (custom_input_rectangles s) as [|r rs]; [rewrite contains_point_covers by done; tauto|].
    rewrite existsb_exists. split.
    + intros (x & Hx & Hc). split; [done|]. exists x. apply list_elem_of_In in Hx. split; [done|].
      apply contains_point_covers; [|done]. by apply (proj1 (Forall_forall _ _) Hrs).
    + intros (_ & x & Hx & Hc). exists x. split; [by apply list_elem_of_In|]. apply contains_point_covers; [|done].
      by apply (proj1 (Forall_forall _ _) Hrs).
Qed.

(** ** Examples *)

(** A surface with two layers on one stream, an observer, then other layers, and
    a cursor from a stream. *)
Definition basic_example_layer (st : Z) : StreamInfo := mkStreamInfo st (Dp 0 0) None.
Definition basic_example : BasicSurface :=
  match construct "surface" (Rect (Pt 10 10) (Sz 100 50)) 0 None [basic_example_layer 7; basic_example_layer 7] with
  | Ret s => s
  | Throw _ => mkBasic [] "" rectangle0 0 0 false 0 [] None [] (λ _, 0) 0 None (Dp 0 0) (λ _, [])
  end.
Definition basic_example_answers : StreamAnswers := mkStreamAnswers (λ _, true) (λ _, Sz 100 50) (λ _, 1) (λ st, Ret (st + 100)).
Definition basic_example_ops : list basic_op :=
  [OpAddObserver 1; OpAddObserver 2; OpConfigure attrib_swapinterval 0; OpSetStreams [basic_example_layer 8; basic_example_layer 7];
   OpRemoveObserver 1 true; OpSetCursorStream basic_example_answers 8 (Dp 1 1); OpCursorFrame basic_example_answers 8].
Definition basic_example_run : BasicSurface * list basic_obs :=
  match run_ops basic_machine basic_example_ops basic_example [] with Some r => r | None => (basic_example, []) end.
Lemma basic_example_reachable : reachable basic_machine basic_example_run.1 basic_example_run.2.
Proof.
  apply (run_ops_from_init basic_machine basic_example_ops basic_example); [|vm_compute; reflexivity].
  by exists "surface"%string, (Rect (Pt 10 10) (Sz 100 50)), 0, None, [basic_example_layer 7; basic_example_layer 7].
Qed.

Lemma surface_listeners_witness :
  cursor_stream basic_example_run.1 = Some 8 ∧ omap id (stream_observers basic_example_run.1 8) = [CursorAdapter; Observer 2] ∧
  count_of (Observer 2) (stream_observers basic_example_run.1 8) = layer_count 8 (layers basic_example_run.1) * count_of 2 (observers basic_example_run.1).
Proof.
  split; [vm_compute; reflexivity|]. split; [vm_compute; reflexivity|].
  destruct (surface_listeners _ _ basic_example_reachable) as [H _]. apply H.
Defined.

Lemma configure_spec_witness :
  value (configure attrib_visibility 1 basic_example_run.1) = Ret 1 ∧ attribute_error attrib_dpi (attributes basic_example_run.1 attrib_dpi) = None.
Proof.
  destruct (configure_spec _ _ attrib_visibility 1 basic_example_reachable) as [H1 H2]. split; [|by apply H1].
  cbn [attribute_error Z.eqb orb] in H2. destruct H2 as (H2 & _). exact H2.
Defined.

Lemma surface_input_area_witness :
  input_area_contains basic_example_answers basic_example_run.1 (Pt 20 20) = true ∧ covers (surface_rect basic_example_run.1) (Pt 20 20).
Proof.
  assert (surface_rect basic_example_run.1 = Rect (Pt 10 10) (Sz 100 50) ∧ custom_input_rectangles basic_example_run.1 = [] ∧
    input_area_contains basic_example_answers basic_example_run.1 (Pt 20 20) = true) as (Hr & Hc & Hi) by (split_and!; vm_compute; reflexivity).
  split; [exact Hi|].
  destruct (surface_input_area basic_example_answers basic_example_run.1 (Pt 20 20)) as [_ H].
  - rewrite Hr. unfold_coords. cbn. lia.
  - rewrite Hc. constructor.
  - unfold_coords. cbn. lia.
  - rewrite Hr. unfold_coords. cbn. lia.
  - rewrite Hc in H. by apply H.
Defined.

(** Layers set after the swap interval are not told of it. *)
Lemma new_layers_keep_their_interval :
  attributes basic_example_run.1 attrib_swapinterval = 0 ∧ stream <$> layers basic_example_run.1 = [8; 7] ∧
  omap (λ ob, match ob with AllowFramedropping st b => Some (st, b) | _ => None end) basic_example_run.2 = [(7, true); (7, true)].
Proof. split_and!; vm_compute; reflexivity. Qed.

(** The check lets the number of types pass as a type. *)
Lemma number_of_types_is_accepted : attribute_error attrib_type window_types = None.
Proof. reflexivity. Qed.

(** A cursor stream without a frame is refused, but stays attached. *)
Lemma refused_cursor_stream_attached :
  let q := mkStreamAnswers (λ _, false) (λ _, Sz 1 1) (λ _, 0) (λ _, Throw (logic_error "no buffer to give to compositor")) in
  let r := set_cursor_stream q (Some 5) (Dp 1 1) basic_example in
  value r = Throw (logic_error "no buffer to give to compositor") ∧ cursor_stream (post r) = Some 5.
Proof. split; vm_compute; reflexivity. Qed.
