(* ===== verification/ApplicationSession.v ===== *)
(** A client's session (src/server/scene/application_session.cpp): its surfaces
    and buffer streams, and what the client is told of the outputs its surfaces
    are on (surface_event_source.cpp, output_properties_cache.cpp).

    A surface or stream is the id it was made with.  What the session asks of a
    surface or stream is an argument of the operation that asks.  A surface's
    checks on its attributes are [BasicSurface.attribute_error]. *)

From S2P Require Import Prelude Geometry DisplayConfig ObserverList BasicSurface.

(** ** Outputs *)
Record OutputProperties := mkProperties {
  prop_extents : Rectangle;
  prop_dpi : Z;
  (** ordered as the floats *)
  prop_scale : Z;
  prop_refresh_rate : Z;
  prop_form_factor : Z;
  prop_id : Z
}.
(** What a configuration says of an output besides [DisplayConfigurationOutput],
    by id: the resolution over the physical size, the scale, the form factor. *)
Definition OutputData := Z → Z * Z * Z.

(** [OutputPropertiesCache::update_from] *)
Definition properties_of (data : OutputData) (config : DisplayConfiguration) : list OutputProperties :=
  omap (λ o,
    match mode_at o (current_mode_index o) with
    | Some m =>
        let '(dpi, scale, form) := data (output_id o) in
        Some (mkProperties (extents o) dpi scale (vrefresh_hz m) form (output_id o))
    | None => None
    end) config.

(** [OutputPropertiesCache::properties_for]: the first of the largest scale. *)
Definition better (rect : Rectangle) (best : option (nat * OutputProperties)) (e : nat * OutputProperties) : option (nat * OutputProperties) :=
  if overlaps (prop_extents e.2) rect then
    match best with
    | None => Some e
    | Some b => if prop_scale b.2 <? prop_scale e.2 then Some e else best
    end
  else best.
Definition properties_for (cache : list OutputProperties) (rect : Rectangle) : option (nat * OutputProperties) :=
  foldl (better rect) None (imap pair cache).

(** ** State *)
Record Session := mkSession {
  surfaces : gset Z;
  default_content_map : gmap Z Z;
  streams : gset Z;
  next_surface_id : Z;
  (** [output_cache]: its contents and how often it was replaced *)
  output_cache : list OutputProperties;
  cache_age : Z;
  (** per surface the [last_output] of its [SurfaceEventSource]: the entry of a
      cache, which locks while that cache is current *)
  last_output : gmap Z (Z * nat)
}.

Inductive session_obs :=
  | FactoryCreate (surface : Z) (streams : list (Z * Displacement * option Size))
  | StackAdd (surface : Z)
  | StackRemove (surface : Z)
  | SurfaceResizeStream (stream : Z) (size : Size)
  | Configure (surface : Z) (a : attrib) (v : Z)
  | SetInputRegion (surface : Z) (rects : list Rectangle)
  | SurfaceCreated (surface : Z)
  | DestroyingSurface (surface : Z)
  | SetStreams (surface : Z) (streams : list (Z * Displacement * option Size))
  | StreamCreated (stream : Z)
  | DropOutstanding (stream : Z)
  | SetHidden (surface : Z) (hidden : bool)
  | SnapshotOf (stream : Z)
  | NoSnapshot
  (** events for the client *)
  | OutputEvent (surface : Z) (p : OutputProperties)
  | ResizeEvent (surface : Z) (size : Size)
  | DisplayConfigEvent
  | PromptEvent (state : Z)
  | ErrorBuffer.

#[local] Abbreviation M := (prog Session session_obs).

Definition set_surfaces (ss : gset Z) (content : gmap Z Z) (s : Session) : Session :=
  mkSession ss content (streams s) (next_surface_id s) (output_cache s) (cache_age s) (last_output s).
Definition set_streams (st : gset Z) (s : Session) : Session :=
  mkSession (surfaces s) (default_content_map s) st (next_surface_id s) (output_cache s) (cache_age s) (last_output s).
Definition set_next_id (n : Z) (s : Session) : Session :=
  mkSession (surfaces s) (default_content_map s) (streams s) n (output_cache s) (cache_age s) (last_output s).
Definition set_cache (c : list OutputProperties) (age : Z) (s : Session) : Session :=
  mkSession (surfaces s) (default_content_map s) (streams s) (next_surface_id s) c age (last_output s).
Definition set_last (m : gmap Z (Z * nat)) (s : Session) : Session :=
  mkSession (surfaces s) (default_content_map s) (streams s) (next_surface_id s) (output_cache s) (cache_age s) m.

(** ** The client's events *)

(** [last_output.lock()]: an entry of the current cache. *)
Definition locked_output (s : Session) (w : Z) : option nat :=
  match last_output s !! w with
  | Some (age, i) => if bool_decide (age = cache_age s) then Some i else None
  | None => None
  end.
(** [SurfaceEventSource::moved_to] *)
Definition moved_to (w : Z) (rect : Rectangle) : M unit :=
  let* s := pget in
  match properties_for (output_cache s) rect with
  | Some (i, p) =>
      if bool_decide (locked_output s w = Some i) then pret tt
      else
        do* pemit (OutputEvent w p) in
        pmodify (λ s, set_last (<[w := (cache_age s, i)]> (last_output s)) s)
  | None => pret tt
  end.
Definition resized_to (w : Z) (size : Size) : M unit := pemit (ResizeEvent w size).

(** [rect_of]: where the surfaces are. *)
Definition send_display_config (data : OutputData) (config : DisplayConfiguration) (rect_of : Z → Rectangle) : M unit :=
  do* pmodify (λ s, set_cache (properties_of data config) (cache_age s + 1) s) in
  do* pemit DisplayConfigEvent in
  let* s := pget in
  pfor (ascending (surfaces s)) (λ w,
    match properties_for (output_cache s) (rect_of w) with
    | Some (_, p) => pemit (OutputEvent w p)
    | None => pret tt
    end).

(** ** Surfaces *)
Record SurfaceParameters := mkSurfaceParameters {
  content_id : option Z;
  stream_specs : option (list (Z * Displacement * option Size));
  param_size : Size;
  parent_id : option Z;
  param_state : option Z;
  param_type : option Z;
  param_orientation : option Z;
  param_input_shape : option (list Rectangle)
}.
(** What the streams, the factory and the new surface answer. *)
Record SessionAnswers := mkSessionAnswers {
  size_of_stream : Z → Size;
  factory : outcome unit;
  new_rect : Rectangle
}.

Definition next_id : M Z :=
  let* s := pget in do* pput (set_next_id (next_surface_id s + 1) s) in pret (next_surface_id s).
(** [checked_find] *)
Definition find_stream (st : Z) : M unit :=
  let* s := pget in if bool_decide (st ∈ streams s) then pret tt else pthrow (runtime_error "Invalid BufferStreamId").
Definition find_surface (w : Z) : M unit :=
  let* s := pget in if bool_decide (w ∈ surfaces s) then pret tt else pthrow (runtime_error "Invalid SurfaceId").

Definition has_content (p : SurfaceParameters) : bool :=
  bool_decide (is_Some (content_id p)) || match stream_specs p with Some (_ :: _) => true | _ => false end.

(** The stream that becomes the default content. *)
Definition content_stream (q : SessionAnswers) (p : SurfaceParameters) : M Z :=
  match content_id p, stream_specs p with
  | Some st, _ =>
      do* find_stream st in
      do* pwhen (negb (bool_decide (param_size p = size_of_stream q st))) (pemit (SurfaceResizeStream st (param_size p))) in
      pret st
  | None, Some ((st, _, _) :: _) => do* find_stream st in pret st
  | None, _ => pthrow (undefined_behaviour "unset optional or empty list")
  end.
Definition layer_list (p : SurfaceParameters) : M (list (Z * Displacement * option Size)) :=
  match content_id p with
  | Some st => do* find_stream st in pret [(st, Dp 0 0, None)]
  | None =>
      let l := default [] (stream_specs p) in
      do* pfor l (λ e, find_stream e.1.1) in pret l
  end.

(** [surface->configure(a, v)] *)
Definition configure_surface (w : Z) (a : attrib) (v : option Z) : M unit :=
  match v with
  | None => pret tt
  | Some v =>
      do* pemit (Configure w a v) in
      match attribute_error a v with Some e => pthrow e | None => pret tt end
  end.

(** What a surface needs before it is made: its default content and layers. *)
Definition requirements (q : SessionAnswers) (p : SurfaceParameters) : M (Z * list (Z * Displacement * option Size)) :=
  let* st := content_stream q p in
  do* match parent_id p with Some w => find_surface w | None => pret tt end in
  let* ls := layer_list p in
  do* plift (factory q) in
  pret (st, ls).
(** The attributes the client asked for. *)
Definition configure_asked (w : Z) (p : SurfaceParameters) : M unit :=
  do* configure_surface w attrib_state (param_state p) in
  do* configure_surface w attrib_type (param_type p) in
  configure_surface w attrib_preferred_orientation (param_orientation p).

Definition create_surface (q : SessionAnswers) (p : SurfaceParameters) : M Z :=
  let* id := next_id in
  if has_content p then
    let* e := requirements q p in
    do* pemit (FactoryCreate id e.2) in
    do* pemit (StackAdd id) in
    do* configure_asked id p in
    do* match param_input_shape p with Some rects => pemit (SetInputRegion id rects) | None => pret tt end in
    do* pmodify (λ s, set_surfaces ({[id]} ∪ surfaces s) (<[id := e.1]> (default_content_map s)) s) in
    do* moved_to id (new_rect q) in
    do* pemit (SurfaceCreated id) in
    pret id
  else pthrow (logic_error "surface must have content").

(** [destroy_surface(lock, iterator)], [destroy_surface(SurfaceId)],
    [destroy_surface(weak_ptr)] *)
Definition destroy_found (w : Z) : M unit :=
  do* pemit (DestroyingSurface w) in
  do* pmodify (λ s, set_surfaces (surfaces s ∖ {[w]}) (delete w (default_content_map s)) s) in
  pemit (StackRemove w).
Definition destroy_surface (w : Z) : M unit := do* find_surface w in destroy_found w.
Definition destroy_surface_ptr (w : Z) : M unit :=
  let* s := pget in
  if bool_decide (w ∈ surfaces s) then destroy_found w else pthrow (runtime_error "Invalid Surface").

Definition default_surface (s : Session) : option Z := head (ascending (surfaces s)).
Definition take_snapshot : M unit :=
  let* s := pget in
  match default_surface s with
  | Some w =>
      (** [operator[]] *)
      let st := default 0 (default_content_map s !! w) in
      do* find_stream st in pemit (SnapshotOf st)
  | None => pemit NoSnapshot
  end.
Definition hide_session (h : bool) : M unit :=
  let* s := pget in pfor (ascending (surfaces s)) (λ w, pemit (SetHidden w h)).

(** ** Streams and buffers *)
Definition create_buffer_stream (made : outcome unit) : M Z :=
  let* id := next_id in
  do* plift made in
  do* pemit (StreamCreated id) in
  do* pmodify (λ s, set_streams ({[id]} ∪ streams s) s) in
  pret id.
Definition destroy_buffer_stream (st : Z) : M unit :=
  let* s := pget in
  if bool_decide (st ∈ streams s) then
    do* pemit (DropOutstanding st) in pmodify (λ s, set_streams (streams s ∖ {[st]}) s)
  else pthrow (runtime_error "cannot destroy stream: Invalid BufferStreamId").
Definition configure_streams (w : Z) (l : list (Z * Displacement * option Size)) : M unit :=
  do* pfor l (λ e, find_stream e.1.1) in pemit (SetStreams w l).
Definition drop_outstanding_requests : M unit :=
  let* s := pget in pfor (ascending (streams s)) (λ st, pemit (DropOutstanding st)).
(** The three [create_buffer]s: an allocation that fails is reported. *)
Definition create_buffer (made : outcome Z) : M Z :=
  pcatch (plift made) (λ e, do* pemit ErrorBuffer in pthrow e).

(** [~ApplicationSession] *)
Definition destroy_session : M unit :=
  let* s := pget in pfor (ascending (surfaces s)) (λ w, do* pemit (DestroyingSurface w) in pemit (StackRemove w)).

(** ** The session as a machine

    The window manager and the shell name surfaces that exist; prompt sessions
    send their own events. *)
Inductive session_op :=
  | OpCreateSurface (q : SessionAnswers) (p : SurfaceParameters)
  | OpDestroySurface (w : Z)
  | OpDestroySurfacePtr (w : Z)
  | OpCreateStream (made : outcome unit)
  | OpDestroyStream (st : Z)
  | OpConfigureStreams (w : Z) (l : list (Z * Displacement * option Size))
  | OpDropOutstanding
  | OpDisplayConfig (data : OutputData) (config : DisplayConfiguration) (rect_of : Z → Rectangle)
  | OpMoved (w : Z) (rect : Rectangle)
  | OpResized (w : Z) (size : Size)
  | OpHide (h : bool)
  | OpSnapshot
  | OpPrompt (state : Z)
  | OpCreateBuffer (made : outcome Z).
Definition session_exec (op : session_op) : M unit :=
  match op with
  | OpCreateSurface q p => do* create_surface q p in pret tt
  | OpDestroySurface w => destroy_surface w
  | OpDestroySurfacePtr w => destroy_surface_ptr w
  | OpCreateStream made => do* create_buffer_stream made in pret tt
  | OpDestroyStream st => destroy_buffer_stream st
  | OpConfigureStreams w l => configure_streams w l
  | OpDropOutstanding => drop_outstanding_requests
  | OpDisplayConfig data config rect_of => send_display_config data config rect_of
  | OpMoved w rect => moved_to w rect
  | OpResized w size => resized_to w size
  | OpHide h => hide_session h
  | OpSnapshot => take_snapshot
  | OpPrompt state => pemit (PromptEvent state)
  | OpCreateBuffer made => do* create_buffer made in pret tt
  end.
Definition session_allowed (s : Session) (_ : list session_obs) (op : session_op) : bool :=
  match op with OpMoved w _ | OpResized w _ => bool_decide (w ∈ surfaces s) | _ => true end.
Definition new_session (data : OutputData) (initial_config : DisplayConfiguration) : Session :=
  mkSession ∅ ∅ ∅ 0 (properties_of data initial_config) 0 ∅.
Definition session_machine : machine :=
  Machine Session session_op session_obs (λ s, ∃ data config, s = new_session data config) session_allowed session_exec.

(** ** What a history says *)
Definition stack_step (q : gset Z) (ob : session_obs) : gset Z :=
  match ob with StackAdd w => {[w]} ∪ q | StackRemove w => q ∖ {[w]} | _ => q end.
(** The session's surfaces in the stack, and those the listener knows. *)
Definition in_stack (h : list session_obs) : gset Z := foldl stack_step ∅ h.
Definition listed_step (q : gset Z) (ob : session_obs) : gset Z :=
  match ob with SurfaceCreated w => {[w]} ∪ q | DestroyingSurface w => q ∖ {[w]} | _ => q end.
Definition listed (h : list session_obs) : gset Z := foldl listed_step ∅ h.
(** A surface was made but refused an attribute the client asked for. *)
Definition rejected (h : list session_obs) (w : Z) : Prop := ∃ a v, Configure w a v ∈ h ∧ attribute_error a v ≠ None.
(** The output the client was last told a surface is on. *)
Definition told_step (w : Z) (q : option OutputProperties) (ob : session_obs) : option OutputProperties :=
  match ob with OutputEvent w' p => if bool_decide (w' = w) then Some p else q | _ => q end.
Definition told_output (h : list session_obs) (w : Z) : option OutputProperties := foldl (told_step w) None h.

Lemma in_stack_app h tr : in_stack (h ++ tr) = foldl stack_step (in_stack h) tr.
Proof. apply foldl_app. Qed.
Lemma listed_app h tr : listed (h ++ tr) = foldl listed_step (listed h) tr.
Proof. apply foldl_app. Qed.
Lemma told_app h tr w : told_output (h ++ tr) w = foldl (told_step w) (told_output h w) tr.
Proof. apply foldl_app. Qed.
Lemma rejected_app h tr w : rejected (h ++ tr) w ↔ rejected h w ∨ rejected tr w.
Proof. unfold rejected. setoid_rewrite elem_of_app. naive_solver. Qed.

(** Which surface an observation names, if any. *)
Definition names (ob : session_obs) : option Z :=
  match ob with
  | StackAdd w | StackRemove w | Configure w _ _ | SurfaceCreated w | DestroyingSurface w | OutputEvent w _ => Some w
  | _ => None
  end.
Definition unnamed (tr : list session_obs) : Prop := ∀ ob, ob ∈ tr → names ob = None.

Lemma unnamed_same tr h : unnamed tr →
  in_stack (h ++ tr) = in_stack h ∧ listed (h ++ tr) = listed h ∧ (∀ w, told_output (h ++ tr) w = told_output h w) ∧
  ∀ w, rejected (h ++ tr) w ↔ rejected h w.
Proof.
  intros Hun. rewrite in_stack_app, listed_app. assert (unnamed tr → ∀ w, rejected tr w → False) as Hno.
  { intros _ w (a & v & Hin & _). by specialize (Hun _ Hin). }
  split_and!.
  - generalize (in_stack h). clear -Hun. induction tr as [|ob tr IH]; intros q; [done|]. cbn.
    rewrite IH by (intros ob' ?; apply Hun; by right). specialize (Hun ob ltac:(left)). by destruct ob.
  - generalize (listed h). clear -Hun. induction tr as [|ob tr IH]; intros q; [done|]. cbn.
    rewrite IH by (intros ob' ?; apply Hun; by right). specialize (Hun ob ltac:(left)). by destruct ob.
  - intros w. rewrite told_app. generalize (told_output h w). clear -Hun. induction tr as [|ob tr IH]; intros q; [done|]. cbn.
    rewrite IH by (intros ob' ?; apply Hun; by right). specialize (Hun ob ltac:(left)). by destruct ob.
  - intros w. rewrite rejected_app. naive_solver.
Qed.

(** ** The invariant *)
Record session_inv (s : Session) (h : list session_obs) : Prop := {
  s_content : dom (default_content_map s) = surfaces s;
  s_ids : ∀ w, w ∈ surfaces s ∪ streams s → 0 ≤ w < next_surface_id s;
  s_apart : surfaces s ## streams s;
  s_past : ∀ ob w, ob ∈ h → names ob = Some w → w < next_surface_id s;
  s_next : 0 ≤ next_surface_id s;
  s_stack : ∀ w, w ∈ in_stack h ↔ w ∈ surfaces s ∨ rejected h w;
  s_rejected : ∀ w, rejected h w → w ∉ surfaces s;
  s_listed : listed h = surfaces s;
  s_age : ∀ w age i, last_output s !! w = Some (age, i) → age ≤ cache_age s;
  s_told : ∀ w i, locked_output s w = Some i → ∃ p, output_cache s !! i = Some p ∧ told_output h w = Some p
}.

(** What the invariant reads. *)
Definition session_core (s : Session) := (surfaces s, default_content_map s, streams s, output_cache s, cache_age s, last_output s).

Lemma session_inv_unnamed s h s' tr :
  session_inv s h → session_core s' = session_core s → next_surface_id s ≤ next_surface_id s' → unnamed tr → session_inv s' (h ++ tr).
Proof.
  intros [H1 H2 H3 H4 H5 H6 H7 H8 H9 H10] Hc Hn Hun. destruct (unnamed_same tr h Hun) as (Hst & Hli & Hto & Hre).
  unfold session_core in Hc. injection Hc as E1 E2 E3 E4 E5 E6.
  split; rewrite ?E1, ?E2, ?E3, ?E4, ?E5, ?E6, ?Hst, ?Hli; try done.
  - intros w Hw%H2. lia.
  - intros ob w. rewrite elem_of_app. intros [Hin|Hin] Hob; [|by rewrite (Hun ob Hin) in Hob]. specialize (H4 ob w Hin Hob). lia.
  - lia.
  - intros w. by rewrite Hre.
  - intros w. rewrite Hre. apply H7.
  - intros w i. unfold locked_output. rewrite E5, E6, Hto. apply H10.
Qed.

Lemma better_spec rect l best :
  let r := foldl (better rect) best l in
  (∀ e, r = Some e → best = Some e ∨ (e ∈ l ∧ overlaps (prop_extents e.2) rect = true)) ∧
  (∀ e, best = Some e ∨ (e ∈ l ∧ overlaps (prop_extents e.2) rect = true) → ∃ e', r = Some e' ∧ prop_scale e.2 ≤ prop_scale e'.2).
Proof.
  revert best. induction l as [|x l IH]; intros best; cbn [foldl].
  - split; [by left|]. intros e [->|[?%elem_of_nil _]]; [by exists e|done].
  - destruct (IH (better rect best x)) as [H1 H2]. split.
    + intros e [He|[Hin Hov]]%H1; [|right; split; [by right|done]]. unfold better in He.
      destruct (overlaps _ _) eqn:Hov; [|by left]. destruct best as [b|]; [destruct (_ <? _)|]; try (by left); injection He as <-; right; (split; [left|done]).
    + intros e He. assert (∃ e0, better rect best x = Some e0 ∧ prop_scale e.2 ≤ prop_scale e0.2 ∨
        (e ∈ l ∧ overlaps (prop_extents e.2) rect = true)) as [e0 [[Hb Hle]|Hl]].
      { unfold better. destruct He as [->|[[->|Hin]%elem_of_cons Hov]].
        - destruct (overlaps _ _); [|exists e; by left]. destruct (Z.ltb_spec (prop_scale e.2) (prop_scale x.2)); [exists x|exists e]; left; (split; [done|lia]).
        - rewrite Hov. destruct best as [b|]; [|exists x; by left].
          destruct (Z.ltb_spec (prop_scale b.2) (prop_scale x.2)); [exists x|exists b]; left; (split; [done|lia]).
        - exists e. right. done. }
      * destruct (H2 e0) as (e' & ? & ?); [by left|]. exists e'. split; [done|lia].
      * apply H2. by right.
Qed.
Lemma properties_for_in cache rect i p : properties_for cache rect = Some (i, p) →
  cache !! i = Some p ∧ overlaps (prop_extents p) rect = true ∧
  ∀ p', p' ∈ cache → overlaps (prop_extents p') rect = true → prop_scale p' ≤ prop_scale p.
Proof.
  unfold properties_for. intros Hp. destruct (better_spec rect (imap pair cache) None) as [H1 H2].
  destruct (H1 _ Hp) as [?|[Hin Hov]]; [done|]. apply elem_of_lookup_imap in Hin as (j & q & [= -> ->] & Hj). split; [done|]. split; [done|].
  intros p' (j' & Hj')%list_elem_of_lookup Hov'. destruct (H2 (j', p')) as (e' & He' & Hle).
  - right. split; [|done]. apply elem_of_lookup_imap. by exists j', p'.
  - rewrite Hp in He'. by injection He' as <-.
Qed.
Lemma properties_for_none cache rect p : properties_for cache rect = None → p ∈ cache → overlaps (prop_extents p) rect = false.
Proof.
  unfold properties_for. intros Hp (j & Hj)%list_elem_of_lookup. destruct (overlaps _ _) eqn:Hov; [|done].
  destruct (better_spec rect (imap pair cache) None) as [_ H2]. destruct (H2 (j, p)) as (e' & He' & _); [|congruence].
  right. split; [|done]. apply elem_of_lookup_imap. by exists j, p.
Qed.

(** An output event for a surface whose last output does not lock. *)
Lemma emit_output_inv s h w p : session_inv s h → w < next_surface_id s → locked_output s w = None → session_inv s (h ++ [OutputEvent w p]).
Proof.
  intros [H1 H2 H3 H4 H5 H6 H7 H8 H9 H10] Hw Hl.
  assert (∀ x, rejected (h ++ [OutputEvent w p]) x ↔ rejected h x) as Hre.
  { intros x. rewrite rejected_app. split; [|by left]. intros [?|(a & v & Hin & _)]; [done|]. by apply list_elem_of_singleton in Hin. }
  split; rewrite ?in_stack_app, ?listed_app; try done.
  - intros ob x. rewrite elem_of_app, list_elem_of_singleton. intros [Hin| ->]; [by apply H4|]. by intros [= <-].
  - intros x. rewrite Hre. apply H6.
  - intros x. rewrite Hre. apply H7.
  - intros x i Hx. destruct (H10 x i Hx) as (q & Hq & Ht). exists q. split; [done|]. rewrite told_app. cbn.
    rewrite bool_decide_false; [done|]. intros ->. congruence.
Qed.

Lemma moved_to_run w rect s :
  (∃ i p, properties_for (output_cache s) rect = Some (i, p) ∧ locked_output s w ≠ Some i ∧
     moved_to w rect s = Run (Ret tt) (set_last (<[w := (cache_age s, i)]> (last_output s)) s) [OutputEvent w p]) ∨
  (moved_to w rect s = Run (Ret tt) s [] ∧
     ∀ i p, properties_for (output_cache s) rect = Some (i, p) → locked_output s w = Some i).
Proof.
  unfold moved_to. rewrite pbind_get. destruct (properties_for _ _) as [[i p]|]; [|right; by split].
  case_bool_decide as Hl; [right|left; by exists i, p]. split; [done|]. by intros i' p' [= <- <-].
Qed.
Lemma moved_to_inv w rect s h : session_inv s h → w < next_surface_id s →
  session_inv (post (moved_to w rect s)) (h ++ trace (moved_to w rect s)).
Proof.
  intros Hs Hw. destruct (moved_to_run w rect s) as [(i & p & Hp & Hl & ->)|[-> _]]; cbn [post trace]; [|by rewrite app_nil_r].
  destruct Hs as [H1 H2 H3 H4 H5 H6 H7 H8 H9 H10]. apply properties_for_in in Hp as (Hi & _).
  assert (∀ x, rejected (h ++ [OutputEvent w p]) x ↔ rejected h x) as Hre.
  { intros x. rewrite rejected_app. split; [|by left]. intros [?|(a & v & Hin & _)]; [done|]. by apply list_elem_of_singleton in Hin. }
  split; rewrite ?in_stack_app, ?listed_app; cbn; try done.
  - intros ob x. rewrite elem_of_app, list_elem_of_singleton. intros [Hin| ->]; [by apply H4|]. by intros [= <-].
  - intros x. rewrite Hre. apply H6.
  - intros x. rewrite Hre. apply H7.
  - intros x age j. destruct (decide (x = w)) as [->|]; [rewrite lookup_insert_eq; intros [= <- <-]; lia|].
    rewrite lookup_insert_ne by done. apply H9.
  - intros x j. unfold locked_output. cbn. rewrite told_app. cbn. destruct (decide (x = w)) as [->|Hne].
    + rewrite lookup_insert_eq, bool_decide_true, bool_decide_true by done. intros [= <-]. by exists p.
    + rewrite lookup_insert_ne, (bool_decide_false (w = x)) by done. apply (H10 x j).
Qed.

Lemma display_config_inv data config rect_of s h : session_inv s h →
  session_inv (post (send_display_config data config rect_of s)) (h ++ trace (send_display_config data config rect_of s)).
Proof.
  intros Hs. unfold send_display_config. rewrite pbind_modify. set (s1 := set_cache _ _ s).
  assert (∀ w, locked_output s1 w = None) as Hun.
  { intros w. unfold locked_output. cbn. destruct (last_output s !! w) as [[age i]|] eqn:Hl; [|done].
    apply (s_age _ _ Hs) in Hl. rewrite bool_decide_false; [done|lia]. }
  assert (session_inv s1 (h ++ [DisplayConfigEvent])) as H1.
  { destruct Hs as [H1 H2 H3 H4 H5 H6 H7 H8 H9 H10].
    destruct (unnamed_same [DisplayConfigEvent] h) as (Hst & Hli & Hto & Hre); [by intros ob ->%list_elem_of_singleton|].
    split; rewrite ?Hst, ?Hli; cbn; try done.
    - intros ob w. rewrite elem_of_app, list_elem_of_singleton. intros [Hin| ->]; [by apply H4|done].
    - intros w. rewrite Hre. apply H6.
    - intros w. rewrite Hre. apply H7.
    - intros w age i Hl%H9. lia.
    - intros w i Hl. change (locked_output s1 w = Some i) in Hl. by rewrite Hun in Hl. }
  rewrite pbind_emit. cbn [post trace]. rewrite pbind_get.
  set (m := pfor _ _). change (h ++ DisplayConfigEvent :: trace (m s1)) with (h ++ ([DisplayConfigEvent] ++ trace (m s1))). rewrite app_assoc.
  assert (preserves (λ s' h', s' = s1 ∧ session_inv s' h') m) as Hm.
  { apply preserves_for. intros w Hw. apply elem_of_ascending in Hw. destruct (properties_for _ _) as [[i p]|]; [|apply preserves_ret].
    apply preserves_emit. intros s' h' [-> Hs']. split; [done|]. apply emit_output_inv; [done| |apply Hun].
    apply (s_ids _ _ Hs'). set_solver. }
  by apply (Hm s1 (h ++ [DisplayConfigEvent])).
Qed.

(** *** Making a surface *)
Lemma find_stream_run st s : find_stream st s = Run (if bool_decide (st ∈ streams s) then Ret tt else Throw (runtime_error "Invalid BufferStreamId")) s [].
Proof. unfold find_stream. rewrite pbind_get. by case_bool_decide. Qed.
Lemma find_surface_run w s : find_surface w s = Run (if bool_decide (w ∈ surfaces s) then Ret tt else Throw (runtime_error "Invalid SurfaceId")) s [].
Proof. unfold find_surface. rewrite pbind_get. by case_bool_decide. Qed.

(** A program that only looks, and calls nothing that is counted. *)
Definition looks {A} (m : M A) : Prop := ∀ s, post (m s) = s ∧ unnamed (trace (m s)).
Lemma unnamed_nil : unnamed [].
Proof. by intros ob ?%elem_of_nil. Qed.
Lemma unnamed_app a b : unnamed a → unnamed b → unnamed (a ++ b).
Proof. intros Ha Hb ob. rewrite elem_of_app. intros [?|?]; auto. Qed.
Lemma unnamed_one ob : names ob = None → unnamed [ob].
Proof. by intros Hob ob' ->%list_elem_of_singleton. Qed.
Lemma looks_ret {A} (a : A) : looks (pret a).
Proof. intros s. split; [done|apply unnamed_nil]. Qed.
Lemma looks_throw {A} e : looks (pthrow (A := A) e).
Proof. intros s. split; [done|apply unnamed_nil]. Qed.
Lemma looks_lift {A} (o : outcome A) : looks (plift o).
Proof. intros s. split; [done|apply unnamed_nil]. Qed.
Lemma looks_get : looks pget.
Proof. intros s. split; [done|apply unnamed_nil]. Qed.
Lemma looks_emit ob : names ob = None → looks (pemit ob).
Proof. intros Hob s. split; [done|by apply unnamed_one]. Qed.
Lemma looks_bind {A B} (m : M A) (k : A → M B) : looks m → (∀ a, looks (k a)) → looks (pbind m k).
Proof.
  intros Hm Hk s. destruct (Hm s) as [Hp Ht]. unfold pbind. destruct (value (m s)) as [a|e]; cbn; [|done].
  rewrite Hp. destruct (Hk a s) as [-> Ht']. split; [done|by apply unnamed_app].
Qed.
Lemma looks_when b m : looks m → looks (pwhen b m).
Proof. destruct b; [done|intros _; apply looks_ret]. Qed.
Lemma looks_for {A} (l : list A) f : (∀ x, looks (f x)) → looks (pfor l f).
Proof. intros Hf. induction l as [|x l IH]; [apply looks_ret|]. cbn [pfor]. apply looks_bind; [done|by intros _]. Qed.

Ltac looking :=
  repeat match goal with
    | |- looks (pret _) => apply looks_ret
    | |- looks (pthrow _) => apply looks_throw
    | |- looks (plift _) => apply looks_lift
    | |- looks pget => apply looks_get
    | |- looks (pemit _) => apply looks_emit; reflexivity
    | |- looks (pwhen _ _) => apply looks_when
    | |- looks (pfor _ _) => apply looks_for; intros ?
    | |- looks (pbind _ _) => apply looks_bind; [|intros ?]
    | |- looks (if ?b then _ else _) => destruct b
    | |- looks (match ?x with _ => _ end) => destruct x
    end.
Lemma looks_find_stream st : looks (find_stream st).
Proof. unfold find_stream. looking. Qed.
Lemma looks_find_surface w : looks (find_surface w).
Proof. unfold find_surface. looking. Qed.

Lemma looks_requirements q p : looks (requirements q p).
Proof.
  unfold requirements, content_stream, layer_list. pose proof looks_find_stream. pose proof looks_find_surface. looking; auto.
Qed.

(** The attributes the client asked for, in the order they are set. *)
Definition asked (p : SurfaceParameters) : list (attrib * Z) :=
  match param_state p with Some v => [(attrib_state, v)] | None => [] end ++
  match param_type p with Some v => [(attrib_type, v)] | None => [] end ++
  match param_orientation p with Some v => [(attrib_preferred_orientation, v)] | None => [] end.
Lemma configure_run w a v s :
  configure_surface w a v s =
    match v with
    | None => Run (Ret tt) s []
    | Some v => Run (match attribute_error a v with Some e => Throw e | None => Ret tt end) s [Configure w a v]
    end.
Proof. destruct v as [v|]; [|done]. unfold configure_surface. rewrite pbind_emit. by destruct (attribute_error a v). Qed.

(** Either all of them are set, or one is refused and nothing follows it. *)
Lemma configure_asked_run w p s :
  ∃ r tr, configure_asked w p s = Run r s tr ∧ (∀ ob, ob ∈ tr → ∃ a v, ob = Configure w a v) ∧
    match r with
    | Ret _ => tr = (λ e, Configure w e.1 e.2) <$> asked p ∧ ∀ e, e ∈ asked p → attribute_error e.1 e.2 = None
    | Throw e => ∃ a v, (a, v) ∈ asked p ∧ Configure w a v ∈ tr ∧ attribute_error a v = Some e
    end.
Proof.
  unfold configure_asked, asked, pbind. rewrite configure_run.
  destruct (param_state p) as [v1|], (param_type p) as [v2|], (param_orientation p) as [v3|]; cbn [value post trace];
    repeat match goal with
    | |- context [attribute_error ?a ?v] => destruct (attribute_error a v) eqn:?; cbn [value post trace]
    | |- context [configure_surface w ?a ?v s] => rewrite (configure_run w a v s); cbn [value post trace]
    end; (do 2 eexists; split; [reflexivity|]; split;
      [intros ob Hin; set_unfold in Hin; naive_solver|try (split; [done|]; intros e He; set_unfold in He; naive_solver)]);
    try (eexists _, _; split; [|split; [|eassumption]]; set_solver).
Qed.

(** The three ways of [create_surface]. *)
Inductive create_result (q : SessionAnswers) (p : SurfaceParameters) (s : Session) : run Session session_obs Z → Prop :=
  | create_refused e tr : unnamed tr →
      create_result q p s (Run (Throw e) (set_next_id (next_surface_id s + 1) s) tr)
  | create_rejected e tr1 tr2 a v : unnamed tr1 → (a, v) ∈ asked p → attribute_error a v = Some e →
      (∀ ob, ob ∈ tr2 → ∃ a v, ob = Configure (next_surface_id s) a v) → Configure (next_surface_id s) a v ∈ tr2 →
      create_result q p s (Run (Throw e) (set_next_id (next_surface_id s + 1) s) (tr1 ++ StackAdd (next_surface_id s) :: tr2))
  | create_made st tr1 tr2 :
      let id := next_surface_id s in
      let s1 := set_surfaces ({[id]} ∪ surfaces s) (<[id := st]> (default_content_map s)) (set_next_id (id + 1) s) in
      unnamed tr1 → (∀ e, e ∈ asked p → attribute_error e.1 e.2 = None) →
      (∀ ob, ob ∈ tr2 → names ob = None ∨ ∃ a v, (a, v) ∈ asked p ∧ ob = Configure id a v) →
      create_result q p s (Run (Ret id) (post (moved_to id (new_rect q) s1))
        (tr1 ++ StackAdd id :: tr2 ++ trace (moved_to id (new_rect q) s1) ++ [SurfaceCreated id])).

Lemma then_emit {B} ob (k : unit → M B) s v po tr : k tt s = Run v po tr → pbind (pemit ob) k s = Run v po (ob :: tr).
Proof. intros Hk. by rewrite pbind_emit, Hk. Qed.
Lemma then_run {A B} (m : M A) (k : A → M B) s a s' t v po tr :
  m s = Run (Ret a) s' t → k a s' = Run v po tr → pbind m k s = Run v po (t ++ tr).
Proof. intros Hm Hk. by rewrite (pbind_run m k s a s' t _ Hm Hk). Qed.

Lemma create_surface_run q p s : create_result q p s (create_surface q p s).
Proof.
  unfold create_surface, next_id. rewrite pbind_assoc, pbind_get, pbind_assoc, pbind_put, pbind_ret_l.
  set (id := next_surface_id s). set (s1 := set_next_id (id + 1) s).
  destruct (has_content p); [|apply (create_refused q p s _ []), unnamed_nil].
  destruct (looks_requirements q p s1) as [Hp Ht].
  destruct (requirements q p s1) as [r0 s1' treq] eqn:Hreq. cbn [post trace] in Hp, Ht. subst s1'.
  destruct r0 as [[st ls]|e]; [|rewrite (pbind_throw _ _ _ _ _ _ Hreq); by apply create_refused].
  destruct (configure_asked_run id p s1) as (r & tr & Hrun & Htr & Hr). destruct r as [[]|e].
  - destruct Hr as [-> Hok]. set (s2 := set_surfaces ({[id]} ∪ surfaces s1) (<[id := st]> (default_content_map s1)) s1).
    assert (moved_to id (new_rect q) s2 = Run (Ret tt) (post (moved_to id (new_rect q) s2)) (trace (moved_to id (new_rect q) s2))) as Hm.
    { destruct (moved_to_run id (new_rect q) s2) as [(i & pr & _ & _ & ->)|[-> _]]; done. }
    set (tin := match param_input_shape p with Some rects => [SetInputRegion id rects] | None => [] end).
    assert ((match param_input_shape p with Some rects => pemit (SetInputRegion id rects) | None => pret tt end : M unit) s1 =
      Run (Ret tt) s1 tin) as Hin by (unfold tin; by destruct (param_input_shape p)).
    erewrite (then_run _ _ _ _ _ _ _ _ _ Hreq); [|eapply then_emit, then_emit, (then_run _ _ _ _ _ _ _ _ _ Hrun),
      (then_run _ _ _ _ _ _ _ _ _ Hin); rewrite pbind_modify; eapply (then_run _ _ _ _ _ _ _ _ _ Hm), then_emit; reflexivity].
    match goal with |- create_result _ _ _ (Run _ _ ?t) => replace t with
      ((treq ++ [FactoryCreate id ls]) ++ StackAdd id :: (((λ e, Configure id e.1 e.2) <$> asked p) ++ tin) ++
        trace (moved_to id (new_rect q) s2) ++ [SurfaceCreated id]) end.
    2: { cbn. rewrite <- ?app_assoc. cbn. by rewrite <- ?app_assoc. }
    apply (create_made q p s st).
    + apply unnamed_app; [done|by apply unnamed_one].
    + done.
    + intros ob. rewrite elem_of_app, list_elem_of_fmap. intros [([a v] & -> & Hin')|Hin'].
      * right. by exists a, v.
      * left. unfold tin in Hin'. destruct (param_input_shape p); [by apply list_elem_of_singleton in Hin' as ->|by apply elem_of_nil in Hin'].
  - destruct Hr as (a & v & Hin & Hc & He).
    erewrite (then_run _ _ _ _ _ _ _ _ _ Hreq); [|eapply then_emit, then_emit, (pbind_throw _ _ _ _ _ _ Hrun)].
    match goal with |- create_result _ _ _ (Run _ _ ?t) => replace t with ((treq ++ [FactoryCreate id ls]) ++ StackAdd id :: tr) end.
    2: { cbn. rewrite <- ?app_assoc. by cbn. }
    eapply create_rejected; try done. apply unnamed_app; [done|by apply unnamed_one].
Qed.

(** Nothing but attributes and what no surface is named in. *)
Definition quiet (tr : list session_obs) : Prop := ∀ ob, ob ∈ tr → names ob = None ∨ ∃ w a v, ob = Configure w a v.
Lemma quiet_unnamed tr : unnamed tr → quiet tr.
Proof. intros Hun ob Hob. left. auto. Qed.
Lemma quiet_folds tr : quiet tr →
  (∀ q, foldl stack_step q tr = q) ∧ (∀ q, foldl listed_step q tr = q) ∧ ∀ w q, foldl (told_step w) q tr = q.
Proof.
  induction tr as [|ob tr IH]; intros Hq; [done|]. destruct IH as (H1 & H2 & H3); [intros ob' ?; apply Hq; by right|].
  destruct (Hq ob) as [Hob|(w & a & v & ->)]; [left| |]; split_and!; intros; cbn; rewrite ?H1, ?H2, ?H3; try done; by destruct ob.
Qed.

(** The stack, the listener and the client agree on two histories. *)
Lemma session_inv_history s h h' : session_inv s h →
  in_stack h' = in_stack h → listed h' = listed h → (∀ w, told_output h' w = told_output h w) → (∀ ob, ob ∈ h' ↔ ob ∈ h) → session_inv s h'.
Proof.
  intros [H1 H2 H3 H4 H5 H6 H7 H8 H9 H10] Hst Hli Hto Hin.
  assert (∀ w, rejected h' w ↔ rejected h w) as Hre by (intros w; unfold rejected; by setoid_rewrite Hin).
  split; rewrite ?Hst, ?Hli; try done.
  - intros ob w. rewrite Hin. apply H4.
  - intros w. rewrite Hre. apply H6.
  - intros w. rewrite Hre. apply H7.
  - intros w i. rewrite Hto. apply H10.
Qed.

Section new_surface.
Context (s : Session) (h tr1 tr2 : list session_obs).
#[local] Abbreviation id := (next_surface_id s).
Context (Hs : session_inv s h) (Htr1 : unnamed tr1) (Htr2 : ∀ ob, ob ∈ tr2 → names ob = None ∨ ∃ a v, ob = Configure id a v).

Lemma new_quiet : quiet tr2.
Proof. intros ob Hob. destruct (Htr2 ob Hob) as [?|(a & v & ->)]; [by left|right]. by eauto. Qed.
Lemma new_folds : let h1 := h ++ tr1 ++ StackAdd id :: tr2 in
  in_stack h1 = {[id]} ∪ in_stack h ∧ listed h1 = listed h ∧ (∀ w, told_output h1 w = told_output h w) ∧
  (∀ w, rejected h1 w ↔ rejected h w ∨ rejected tr2 w).
Proof.
  destruct (quiet_folds _ (quiet_unnamed _ Htr1)) as (A1 & A2 & A3). destruct (quiet_folds _ new_quiet) as (B1 & B2 & B3).
  intros h1. unfold h1. rewrite in_stack_app, listed_app, !foldl_app, A1, A2. cbn. rewrite B1, B2. split_and!; [done..| |].
  - intros w. rewrite told_app, foldl_app, A3. cbn. by rewrite B3.
  - intros w. rewrite !rejected_app. change (StackAdd id :: tr2) with ([StackAdd id] ++ tr2). rewrite rejected_app.
    assert (¬ rejected tr1 w) by (intros (a & v & Hin & _); by specialize (Htr1 _ Hin)).
    assert (¬ rejected [StackAdd id] w) by (by intros (a & v & Hin%list_elem_of_singleton & _)). tauto.
Qed.
Lemma new_names ob w : ob ∈ h ++ tr1 ++ StackAdd id :: tr2 → names ob = Some w → w < id + 1.
Proof.
  rewrite !elem_of_app, elem_of_cons. intros [Hin|[Hin|[->|Hin]]] Hob.
  - specialize (s_past _ _ Hs _ _ Hin Hob). lia.
  - by rewrite (Htr1 _ Hin) in Hob.
  - injection Hob as <-. lia.
  - destruct (Htr2 _ Hin) as [Hn|(a & v & ->)]; [by rewrite Hn in Hob|]. injection Hob as <-. lia.
Qed.
Lemma not_rejected_new : ¬ rejected h id.
Proof. intros (a & v & Hin & _). specialize (s_past _ _ Hs _ id Hin eq_refl). lia. Qed.

Lemma new_rejected_inv : rejected tr2 id → session_inv (set_next_id (id + 1) s) (h ++ tr1 ++ StackAdd id :: tr2).
Proof.
  intros Hrej. pose proof new_names as Hn. destruct new_folds as (F1 & F2 & F3 & F4).
  assert (∀ w, rejected tr2 w ↔ w = id) as Hr.
  { intros w. split; [|by intros ->]. intros (a & v & Hin & _). destruct (Htr2 _ Hin) as [?|(a' & v' & ?)]; [done|congruence]. }
  destruct Hs as [H1 H2 H3 H4 H5 H6 H7 H8 H9 H10]. split; rewrite ?F1, ?F2; cbn; try done.
  - intros w Hw%H2. lia.
  - lia.
  - intros w. rewrite F4, Hr, elem_of_union, elem_of_singleton. specialize (H6 w). tauto.
  - intros w. rewrite F4, Hr. intros [?| ->]; [by apply H7|]. intros Hw. specialize (H2 id). set_solver by lia.
  - intros w i. rewrite F3. apply H10.
Qed.
Lemma new_made_inv st : (∀ w, ¬ rejected tr2 w) →
  session_inv (set_surfaces ({[id]} ∪ surfaces s) (<[id := st]> (default_content_map s)) (set_next_id (id + 1) s))
    ((h ++ tr1 ++ StackAdd id :: tr2) ++ [SurfaceCreated id]).
Proof.
  intros Hrej. pose proof new_names as Hn. pose proof not_rejected_new as Hnr. destruct new_folds as (F1 & F2 & F3 & F4).
  generalize dependent (h ++ tr1 ++ StackAdd id :: tr2). intros h1 Hn F1 F2 F3 F4.
  assert (∀ w, rejected (h1 ++ [SurfaceCreated id]) w ↔ rejected h w) as Hre.
  { intros w. rewrite rejected_app, F4. specialize (Hrej w).
    assert (¬ rejected [SurfaceCreated id] w) by (by intros (a & v & Hin%list_elem_of_singleton & _)). tauto. }
  destruct Hs as [H1 H2 H3 H4 H5 H6 H7 H8 H9 H10].
  split; rewrite ?in_stack_app, ?listed_app; cbn; rewrite ?F1, ?F2; try done.
  - rewrite dom_insert_L. by rewrite H1.
  - intros w Hw. destruct (decide (w = id)) as [->|]; [lia|]. specialize (H2 w ltac:(set_solver)). lia.
  - assert (id ∉ streams s) by (intros Hin; specialize (H2 id ltac:(set_solver)); lia). set_solver.
  - intros ob w. rewrite elem_of_app, list_elem_of_singleton. intros [Hin| ->]; [by apply Hn|]. intros [= <-]. lia.
  - lia.
  - intros w. rewrite Hre, !elem_of_union, elem_of_singleton. specialize (H6 w). tauto.
  - intros w. rewrite Hre. intros Hw. specialize (H7 w Hw). rewrite not_elem_of_union, not_elem_of_singleton.
    split; [by intros ->|done].
  - by rewrite H8.
  - intros w i. rewrite told_app, F3. apply H10.
Qed.
End new_surface.

Lemma create_surface_inv q p s h : session_inv s h →
  session_inv (post (create_surface q p s)) (h ++ trace (create_surface q p s)).
Proof.
  intros Hs. destruct (create_surface_run q p s) as [e tr Hun|e tr1 tr2 a v Hun Hin He Htr Hc|st tr1 tr2 id s1 Hun Hok Htr]; cbn [post trace].
  - apply (session_inv_unnamed s); [done|done|cbn; lia|done].
  - apply new_rejected_inv; [done|done| |by exists a, v; rewrite He]. intros ob Hob. right. by apply Htr.
  - assert (session_inv s1 ((h ++ tr1 ++ StackAdd id :: tr2) ++ [SurfaceCreated id])) as H1.
    { apply new_made_inv; [done|done| |].
      - intros ob Hob. destruct (Htr ob Hob) as [?|(a & v & _ & ->)]; [by left|right]. by eauto.
      - intros w (a & v & Hin & He). destruct (Htr _ Hin) as [?|(a' & v' & Ha & [= -> -> ->])]; [done|]. by apply He, (Hok (a', v')). }
    apply (moved_to_inv id (new_rect q)) in H1; [|cbn; lia].
    destruct (moved_to_run id (new_rect q) s1) as [(i & pr & _ & _ & Hm)|[Hm _]]; rewrite Hm in *; cbn [post trace] in *.
    + eapply session_inv_history; [exact H1|..].
      * rewrite !in_stack_app, !foldl_app. cbn. by rewrite foldl_app.
      * rewrite !listed_app, !foldl_app. cbn. by rewrite foldl_app.
      * intros w. rewrite !told_app, !foldl_app. cbn. by rewrite foldl_app.
      * intros ob. set_solver.
    + rewrite app_nil_r, <- !app_assoc in H1. exact H1.
Qed.

(** *** The other operations *)
Lemma looks_inv {A} (m : M A) : looks m → preserves session_inv m.
Proof. intros Hm s h Hs. destruct (Hm s) as [Hp Ht]. by apply (session_inv_unnamed s); rewrite ?Hp. Qed.

Lemma destroy_found_inv w s h : session_inv s h → w ∈ surfaces s →
  session_inv (post (destroy_found w s)) (h ++ trace (destroy_found w s)).
Proof.
  intros Hs Hw. unfold destroy_found. rewrite pbind_emit, pbind_modify. cbn [pemit post trace].
  set (h' := h ++ _).
  assert (∀ x, rejected h' x ↔ rejected h x) as Hre.
  { intros x. unfold h'. rewrite rejected_app. assert (¬ rejected [DestroyingSurface w; StackRemove w] x) by (intros (a & v & Hin & _); set_unfold in Hin; naive_solver). tauto. }
  assert (in_stack h' = in_stack h ∖ {[w]} ∧ listed h' = listed h ∖ {[w]} ∧ ∀ x, told_output h' x = told_output h x) as (Hst & Hli & Hto).
  { unfold h'. rewrite in_stack_app, listed_app. split_and!; [done..|]. intros x. by rewrite told_app. }
  destruct Hs as [H1 H2 H3 H4 H5 H6 H7 H8 H9 H10]. split; rewrite ?Hst, ?Hli; cbn; try done.
  - rewrite dom_delete_L. by rewrite H1.
  - intros x Hx. apply H2. set_solver.
  - set_solver.
  - intros ob x. unfold h'. rewrite elem_of_app, !elem_of_cons. intros [Hin|[->|[->|Hnil%elem_of_nil]]]; [by apply H4| | |done];
      intros [= <-]; apply H2; set_solver.
  - intros x. rewrite Hre, !elem_of_difference, elem_of_singleton, H6. specialize (H7 x). destruct (decide (x = w)) as [->|]; tauto.
  - intros x. rewrite Hre. intros Hx%H7. set_solver.
  - by rewrite H8.
  - intros x i. rewrite Hto. apply H10.
Qed.
Lemma destroy_surface_run w s : destroy_surface w s =
  if bool_decide (w ∈ surfaces s) then destroy_found w s else Run (Throw (runtime_error "Invalid SurfaceId")) s [].
Proof.
  unfold destroy_surface. destruct (decide (w ∈ surfaces s)) as [Hw|Hw]; rewrite ?bool_decide_true, ?bool_decide_false by done.
  - unfold pbind. rewrite find_surface_run, bool_decide_true by done. cbn [value post trace app]. by destruct (destroy_found w s).
  - apply pbind_throw. rewrite find_surface_run. by rewrite bool_decide_false.
Qed.

Lemma set_streams_inv st s h : session_inv s h → (∀ x, x ∈ st → x ∈ streams s ∨ 0 ≤ x < next_surface_id s ∧ x ∉ surfaces s) →
  session_inv (set_streams st s) h.
Proof.
  intros [H1 H2 H3 H4 H5 H6 H7 H8 H9 H10] Hst. split; cbn; try done.
  - intros x [Hx|[Hx|Hx]%Hst]%elem_of_union; [apply H2; set_solver|apply H2; set_solver|lia].
  - intros x Hx [Hx'|[_ ?]]%Hst; [|done]. by apply (H3 x).
Qed.
Lemma create_buffer_stream_inv made : preserves session_inv (create_buffer_stream made).
Proof.
  intros s h Hs. unfold create_buffer_stream, next_id. rewrite pbind_assoc, pbind_get, pbind_assoc, pbind_put, pbind_ret_l.
  set (id := next_surface_id s). set (s1 := set_next_id (id + 1) s).
  assert (session_inv s1 h) as H1.
  { rewrite <- (app_nil_r h). apply (session_inv_unnamed s); [done|done|cbn; lia|apply unnamed_nil]. }
  destruct made as [[]|e]; [|rewrite (pbind_throw _ _ s1 e s1 []) by done; cbn; by rewrite app_nil_r].
  rewrite (pbind_run (plift (Ret tt)) _ s1 tt s1 [] _ eq_refl eq_refl). rewrite pbind_emit, pbind_modify. cbn [app post trace pret].
  apply set_streams_inv.
  - apply (session_inv_unnamed s1); [done|done|lia|by apply unnamed_one].
  - intros x [->%elem_of_singleton|Hx]%elem_of_union; [right|by left]. pose proof (s_next _ _ Hs). cbn. split; [lia|].
    intros Hin. pose proof (s_ids _ _ Hs id ltac:(set_solver)). lia.
Qed.
Lemma destroy_buffer_stream_inv st : preserves session_inv (destroy_buffer_stream st).
Proof.
  intros s h Hs. unfold destroy_buffer_stream. rewrite pbind_get. destruct (bool_decide _); [|by apply preserves_throw].
  rewrite pbind_emit. cbn [pmodify post trace]. apply set_streams_inv.
  - apply (session_inv_unnamed s); [done|done|lia|by apply unnamed_one].
  - intros x Hx. left. set_solver.
Qed.
Lemma looks_catch {A} (m : M A) handler : looks m → (∀ e, looks (handler e)) → looks (pcatch m handler).
Proof.
  intros Hm Hh s. destruct (Hm s) as [Hp Ht]. unfold pcatch. destruct (value (m s)) as [a|e]; cbn; [done|].
  rewrite Hp. destruct (Hh e s) as [-> Ht']. split; [done|by apply unnamed_app].
Qed.

Lemma session_reachable s h : reachable session_machine s h → session_inv s h.
Proof.
  apply (reachable_invariant session_machine).
  - intros s' (data & config & ->). split; try done; try set_solver.
    intros w. split; [set_solver|]. intros [?|(a & v & Hnil%elem_of_nil & _)]; [set_solver|done].
  - clear s h. intros s h op _ Hs Hop. pose proof looks_find_stream as Hfs. pose proof looks_find_surface as Hfw. cbn [m_exec session_machine].
    destruct op as [q p|w|w|made|st|w l| |data config rect_of|w rect|w size|b| |state|made]; cbn [session_exec session_allowed m_allowed session_machine] in *.
    + apply after_bind; [by apply create_surface_inv|]. intros ?. apply preserves_ret.
    + rewrite destroy_surface_run. case_bool_decide; [by apply destroy_found_inv|]. cbn. by rewrite app_nil_r.
    + unfold destroy_surface_ptr. rewrite pbind_get. case_bool_decide; [by apply destroy_found_inv|]. cbn. by rewrite app_nil_r.
    + apply after_bind; [by apply create_buffer_stream_inv|]. intros ?. apply preserves_ret.
    + by apply destroy_buffer_stream_inv.
    + apply looks_inv; [|done]. unfold configure_streams. looking. auto.
    + apply looks_inv; [|done]. unfold drop_outstanding_requests. looking.
    + by apply display_config_inv.
    + apply bool_decide_eq_true in Hop. apply moved_to_inv; [done|]. apply (s_ids _ _ Hs). set_solver.
    + apply looks_inv; [|done]. unfold resized_to. looking.
    + apply looks_inv; [|done]. unfold hide_session. looking.
    + apply looks_inv; [|done]. unfold take_snapshot. looking. auto.
    + apply looks_inv; [|done]. looking.
    + apply looks_inv; [|done]. unfold create_buffer. apply looks_bind; [|intros; looking]. apply looks_catch; [looking|intros; looking].
Qed.

(** *** What the client is told of the outputs *)
Lemma told_config (cache : list OutputProperties) (rect_of : Z → Rectangle) (l : list Z) s w q :
  let body x := match properties_for cache (rect_of x) with Some (_, p) => pemit (OutputEvent x p) | None => pret tt end : M unit in
  foldl (told_step w) q (trace (pfor l body s)) =
    match properties_for cache (rect_of w) with Some (_, p) => if bool_decide (w ∈ l) then Some p else q | None => q end.
Proof.
  intros body. revert q. induction l as [|x l IH]; intros q; [by destruct (properties_for _ _) as [[]|]|].
  assert (body x s = Run (Ret tt) s (trace (body x s))) as Hx by (unfold body; by destruct (properties_for cache (rect_of x)) as [[? ?]|]).
  cbn [pfor]. rewrite (pbind_run _ _ _ _ _ _ _ Hx eq_refl). cbn [trace]. rewrite foldl_app, IH. clear IH Hx. unfold body.
  destruct (decide (x = w)) as [->|Hne].
  - destruct (properties_for _ (rect_of w)) as [[i p]|]; [|done]. cbn. rewrite (bool_decide_true (w = w)) by done. rewrite (bool_decide_true (w ∈ w :: l)) by set_solver.
    by destruct (bool_decide _).
  - assert (foldl (told_step w) q (trace (match properties_for cache (rect_of x) with Some (_, p) => pemit (OutputEvent x p) | None => pret tt end s : run Session session_obs unit)) = q) as ->.
    { destruct (properties_for cache (rect_of x)) as [[i p]|]; [cbn; by rewrite bool_decide_false|done]. }
    destruct (properties_for _ (rect_of w)) as [[i p]|]; [|done].
    by rewrite (bool_decide_ext (w ∈ x :: l) (w ∈ l)) by (rewrite elem_of_cons; naive_solver).
Qed.

(** C28. The registers of a session agree.  In every reachable state the
    surfaces are those with a default content, those the listener was told of
    and, with the ones refused an attribute, those in the surface stack;
    surfaces and streams have different ids, below the next one.  When the
    session ends only the refused ones stay in the stack, and the listener
    knows of none. *)
Theorem session_surfaces s h : reachable session_machine s h →
  dom (default_content_map s) = surfaces s ∧ listed h = surfaces s ∧
  (∀ w, w ∈ in_stack h ↔ w ∈ surfaces s ∨ rejected h w) ∧ (∀ w, rejected h w → w ∉ surfaces s) ∧
  surfaces s ## streams s ∧ (∀ w, w ∈ surfaces s ∪ streams s → 0 ≤ w < next_surface_id s) ∧
  let h' := h ++ trace (destroy_session s) in listed h' = ∅ ∧ ∀ w, w ∈ in_stack h' ↔ rejected h w.
Proof.
  intros [H1 H2 H3 H4 H5 H6 H7 H8 _ _]%session_reachable. do 6 (split; [done|]). intros h'.
  assert (∀ l q ql, let tr := trace (pfor l (λ w, do* pemit (DestroyingSurface w) in pemit (StackRemove w) : M unit) s) in
    foldl stack_step q tr = q ∖ list_to_set l ∧ foldl listed_step ql tr = ql ∖ list_to_set l) as Hend.
  { induction l as [|w l IH]; intros q ql; [cbn; split; set_solver|]. cbn [pfor]. rewrite pbind_assoc, pbind_emit, pbind_emit.
    destruct (IH (q ∖ {[w]}) (ql ∖ {[w]})) as [E1 E2]. cbn in E1, E2 |- *. rewrite E1, E2. split; set_solver. }
  unfold h', destroy_session. rewrite in_stack_app, listed_app, pbind_get. destruct (Hend (ascending (surfaces s)) (in_stack h) (listed h)) as [-> ->].
  assert (list_to_set (ascending (surfaces s)) = surfaces s) as ->.
  { apply set_eq. intros w. by rewrite elem_of_list_to_set, elem_of_ascending. }
  rewrite H8. split; [set_solver|]. intros w. rewrite elem_of_difference, H6. specialize (H7 w). tauto.
Qed.

(** A client knows the output of each of its surfaces.  When a surface
    that is on some output has moved, the last output the client was told of is
    one the surface overlaps and none it overlaps has a larger scale; moving it
    again with the outputs unchanged tells it nothing.  A new configuration
    tells it the output of each surface that is on one. *)
Theorem session_outputs s h w : reachable session_machine s h → w ∈ surfaces s →
  (∀ rect, let r := moved_to w rect s in let told := told_output (h ++ trace r) w in
     match properties_for (output_cache s) rect with
     | Some (_, p) =>
         told = Some p ∧ p ∈ output_cache s ∧ overlaps (prop_extents p) rect = true ∧
         (∀ p', p' ∈ output_cache s → overlaps (prop_extents p') rect = true → prop_scale p' ≤ prop_scale p) ∧
         trace (moved_to w rect (post r)) = []
     | None => trace r = [] ∧ ∀ p, p ∈ output_cache s → overlaps (prop_extents p) rect = false
     end) ∧
  ∀ data config rect_of, let r := send_display_config data config rect_of s in
    output_cache (post r) = properties_of data config ∧
    told_output (h ++ trace r) w =
      match properties_for (properties_of data config) (rect_of w) with Some (_, p) => Some p | None => told_output h w end.
Proof.
  intros Hs%session_reachable Hw. split.
  - intros rect r told. destruct (properties_for (output_cache s) rect) as [[i p]|] eqn:Hp.
    + destruct (properties_for_in _ _ _ _ Hp) as (Hi & Hov & Hmax). split; [|split_and!; [by apply list_elem_of_lookup_2 in Hi|done|done|]].
      * unfold told, r. destruct (moved_to_run w rect s) as [(i' & p' & Hp' & _ & ->)|[-> Hl]]; cbn [trace].
        -- rewrite Hp in Hp'. injection Hp' as <- <-. rewrite told_app. cbn. by rewrite bool_decide_true.
        -- destruct (s_told _ _ Hs w i (Hl _ _ Hp)) as (p' & Hp' & Ht). rewrite app_nil_r. congruence.
      * unfold r. destruct (moved_to_run w rect s) as [(i' & p' & Hp' & _ & ->)|[Hr Hl]]; cbn [post]; [|by rewrite Hr; cbn [post]; rewrite Hr].
        unfold moved_to. rewrite pbind_get. cbn [set_last output_cache]. rewrite Hp'. unfold locked_output. cbn [set_last last_output cache_age]. rewrite lookup_insert_eq.
        rewrite (bool_decide_true (cache_age s = cache_age s)) by done. by rewrite bool_decide_true.
    + split; [|by intros p; apply properties_for_none]. unfold r.
      destruct (moved_to_run w rect s) as [(i' & p' & Hp' & _)|[-> _]]; [congruence|done].
  - intros data config rect_of r. unfold r, send_display_config. rewrite pbind_modify, pbind_emit, pbind_get. cbn [post trace].
    set (s1 := set_cache _ _ s). split.
    + change (properties_of data config) with (output_cache s1).
      assert (preserves (λ s' _, s' = s1) (pfor (ascending (surfaces s1)) (λ x,
        match properties_for (output_cache s1) (rect_of x) with Some (_, p) => pemit (OutputEvent x p) | None => pret tt end : M unit))) as Hp.
      { apply preserves_for. intros x _. destruct (properties_for _ _) as [[i p]|]; [by apply preserves_emit|apply preserves_ret]. }
      by rewrite (Hp s1 [] eq_refl).
    + rewrite told_app. cbn [foldl told_step]. rewrite (told_config (output_cache s1)).
      unfold s1. cbn [set_cache output_cache surfaces].
      destruct (properties_for (properties_of data config) (rect_of w)) as [[i p]|]; [|done].
      rewrite bool_decide_true; [done|]. by apply elem_of_ascending.
Qed.

(** *** An example *)
Definition session_example_data : OutputData := λ o, (96, o, 0).
Definition session_example_output (id x : Z) : DisplayConfigurationOutput :=
  mkOutput id [] [mkMode (Sz 100 100) 60] 0 true true (Pt x 0) 0 xrgb_8888 power_on orientation_normal.
Definition session_example_config : DisplayConfiguration := [session_example_output 1 0; session_example_output 2 100].
Definition session_example_answers : SessionAnswers := {| size_of_stream := λ _, Sz 10 10; factory := Ret tt; new_rect := Rect (Pt 0 0) (Sz 10 10) |}.
Definition session_example_params (type : option Z) : SurfaceParameters :=
  mkSurfaceParameters (Some 0) None (Sz 10 10) None None type None None.
Definition session_example_ops : list session_op :=
  [ OpCreateStream (Ret tt); OpCreateSurface session_example_answers (session_example_params None);
    OpCreateSurface session_example_answers (session_example_params (Some 99));
    OpMoved 1 (Rect (Pt 95 0) (Sz 10 10)); OpDisplayConfig session_example_data session_example_config (λ _, Rect (Pt 0 0) (Sz 10 10)) ].
Definition session_example_run := run_ops session_machine session_example_ops (new_session session_example_data session_example_config) [].
Definition session_example_state : Session := (default (new_session session_example_data [], []) session_example_run).1.
Definition session_example_history : list session_obs := (default (new_session session_example_data [], []) session_example_run).2.
Lemma session_example_reachable : reachable session_machine session_example_state session_example_history.
Proof.
  apply (run_ops_from_init session_machine session_example_ops (new_session session_example_data session_example_config)); [by exists session_example_data, session_example_config|].
  vm_compute. reflexivity.
Qed.
(** The surface of a type that is not accepted is in the stack, and nowhere else. *)
Lemma refused_surface_stays_in_stack :
  in_stack session_example_history = {[1; 2]} ∧ surfaces session_example_state = {[1]} ∧
  in_stack (session_example_history ++ trace (destroy_session session_example_state)) = {[2]}.
Proof. split_and!; vm_compute; reflexivity. Qed.
(** A surface that grows onto another output: nothing is sent for it. *)
Lemma resize_tells_no_output :
  trace (resized_to 1 (Sz 200 10) session_example_state) = [ResizeEvent 1 (Sz 200 10)] ∧
  told_output session_example_history 1 = Some (mkProperties (Rect (Pt 0 0) (Sz 100 100)) 96 1 60 0 1) ∧
  snd <$> properties_for (output_cache session_example_state) (Rect (Pt 0 0) (Sz 200 10)) =
    Some (mkProperties (Rect (Pt 100 0) (Sz 100 100)) 96 2 60 0 2).
Proof. split_and!; vm_compute; reflexivity. Qed.

Lemma session_surfaces_witness : surfaces session_example_state = {[1]} ∧
  surfaces session_example_state ## streams session_example_state.
Proof. split; [vm_compute; reflexivity|]. apply (session_surfaces _ _ session_example_reachable). Defined.
Lemma session_outputs_witness :
  told_output (session_example_history ++ trace (moved_to 1 (Rect (Pt 95 0) (Sz 10 10)) session_example_state)) 1 =
    Some (mkProperties (Rect (Pt 100 0) (Sz 100 100)) 96 2 60 0 2).
Proof.
  refine (proj1 (proj1 (session_outputs _ _ 1 session_example_reachable _) (Rect (Pt 95 0) (Sz 10 10)))).
  apply (bool_decide_unpack (1 ∈ surfaces session_example_state)). vm_compute. exact I.
Defined.
