(* ===== verification/Wire.v ===== *)
(** The socket between a client and the server: how messages are framed, sent
    and read on both sides
    (src/common/fd/fd_socket_transmission.cpp, src/client/rpc/stream_socket_transport.cpp,
    src/server/frontend/socket_messenger.cpp, socket_connection.cpp and
    reordering_message_sender.cpp).

    The kernel is a list of answers: what each system call made in turn returns.
    A call after the last answer has not returned yet.  Protobuf parsing is a
    parameter. *)

From S2P Require Import Prelude.

(** ** The socket *)

(** A byte, with the file descriptors that travel with it. *)
Record item := Item { byte : Z; rights : list Z }.
Definition plain (b : Z) : item := Item b [].

(** What a [send] or [recvmsg] returns. *)
Inductive answer := Count (k : nat) | Interrupted | Again | Eof | BrokenPipe | Errno (e : Z).

Record Socket := mkSocket { answers : list answer; incoming : list item }.

(** The items a [recvmsg] of [need] bytes takes when the kernel has [k] to give:
    at least one, none behind one that carries descriptors. *)
Fixpoint taken (n : nat) (l : list item) : list item :=
  match n, l with
  | S n, x :: l => x :: match rights x with [] => taken n l | _ => [] end
  | _, _ => []
  end.
Definition recvmsg (need k : nat) (l : list item) : list item := taken (need `min` (1 `max` k)) l.

(** A call that reads. *)
Inductive received (A : Type) :=
  | Received (v : A) (rest : Socket)
  | Waiting
  (** [told]: the observers were told of the disconnection *)
  | Raised (e : exn) (told : bool).
Arguments Received {A}. Arguments Waiting {A}. Arguments Raised {A}.
Definition reader (A : Type) : Type := Socket → received A.
Definition rret {A} (a : A) : reader A := Received a.
Definition rthrow {A} (e : exn) (told : bool) : reader A := λ _, Raised e told.
Definition rbind {A B} (m : reader A) (k : A → reader B) : reader B := λ s,
  match m s with Received a s' => k a s' | Waiting => Waiting | Raised e told => Raised e told end.
Definition rmap {A B} (f : A → B) (r : received A) : received B :=
  match r with Received a s => Received (f a) s | Waiting => Waiting | Raised e told => Raised e told end.

(** ** The client's reads *)

(** [StreamSocketTransport::receive_data(buffer, bytes_requested)], from
    [need] missing bytes on. *)
Fixpoint receive_loop (ans : list answer) (need : nat) (l : list item) : received (list Z) :=
  match need with
  | O => Received [] (mkSocket ans l)
  | S _ =>
      match ans with
      | [] => Waiting
      | Count k :: ans =>
          match recvmsg need k l with
          | [] => Waiting
          | chunk =>
              if existsb (λ x, negb (bool_decide (rights x = []))) chunk then Raised (runtime_error "Unexpectedly received fds") false
              else rmap (app (byte <$> chunk)) (receive_loop ans (need - length chunk) (drop (length chunk) l))
          end
      | Interrupted :: ans => receive_loop ans need l
      | Eof :: _ => Raised (runtime_error "Failed to read message from server: server has shutdown") true
      | BrokenPipe :: _ => Raised (runtime_error "Failed to read message from server") true
      | (Again | Errno _) :: _ => Raised (runtime_error "Failed to read message from server") false
      end
  end.
Definition receive_data (bytes_requested : nat) : reader (list Z) := λ s,
  if bool_decide (bytes_requested = O) then Raised (logic_error "Attempted to receive 0 bytes") false
  else receive_loop (answers s) bytes_requested (incoming s).

(** [mir::receive_data] with descriptors, [fds] of [expected] read so far.  The
    client's [receive_data(buffer, bytes_requested, fds)] tells its observers
    when it sees a disconnection. *)
Fixpoint fds_loop (ans : list answer) (need expected : nat) (fds : list Z) (l : list item) : received (list Z) :=
  match need with
  | O =>
      if bool_decide (length fds < expected)%nat then Raised (runtime_error "Received fewer fds than expected") false
      else Received fds (mkSocket ans l)
  | S _ =>
      match ans with
      | [] => Waiting
      | Count k :: ans =>
          match recvmsg need k l with
          | [] => Waiting
          | chunk =>
              let got := chunk ≫= rights in
              if bool_decide (expected - length fds < length got)%nat then Raised (runtime_error "Received more fds than expected") false
              else fds_loop ans (need - length chunk) expected (fds ++ got) (drop (length chunk) l)
          end
      | (Interrupted | Again) :: ans => fds_loop ans need expected fds l
      | Eof :: _ => Raised (runtime_error "Failed to read message from server: server has shutdown") true
      | BrokenPipe :: _ => Raised (runtime_error "Failed to read message from server") true
      | Errno _ :: _ => Raised (runtime_error "Failed to read message from server") false
      end
  end.
Definition receive_fds (bytes_requested expected : nat) : reader (list Z) := λ s,
  if bool_decide (bytes_requested = O) then Raised (logic_error "Attempted to receive 0 bytes") false
  else fds_loop (answers s) bytes_requested expected [] (incoming s).

(** ** Writing *)
Definition header_size : nat := 2.
Definition header (length : Z) : list Z := [Z.land (Z.shiftr length 8) 255; Z.land length 255].
(** [mir::send_fds]: one byte, 'M', that carries them all. *)
Definition send_fds (fds : list Z) : list item := match fds with [] => [] | _ => [Item 77 fds] end.
(** [SocketMessenger::send]: the message, then each set of descriptors. *)
Definition frame (body : list Z) (fd_sets : list (list Z)) : list item :=
  (plain <$> header (Z.of_nat (length body)) ++ body) ++ (fd_sets ≫= send_fds).

(** [StreamSocketTransport::send_message]: what is written, and how it ends. *)
Inductive sent := Sent (fds : list item) | Blocked | SendFailed (e : exn) (told : bool).
Fixpoint send_loop (ans : list answer) (buffer : list Z) : list Z * sent :=
  match buffer with
  | [] => ([], Sent [])
  | _ =>
      match ans with
      | [] => ([], Blocked)
      | Count k :: ans =>
          let n := (length buffer `min` (1 `max` k))%nat in
          let r := send_loop ans (drop n buffer) in
          (take n buffer ++ r.1, r.2)
      | (Interrupted | Eof) :: ans => send_loop ans buffer
      | BrokenPipe :: _ => ([], SendFailed (runtime_error "Failed to send message to server") true)
      | (Again | Errno _) :: _ => ([], SendFailed (runtime_error "Failed to send message to server") false)
      end
  end.
Definition send_message (ans : list answer) (buffer : list Z) (fds : list Z) : list Z * sent :=
  let r := send_loop ans buffer in
  (r.1, match r.2 with Sent _ => Sent (send_fds fds) | f => f end).

(** ** One message from the server
    ([MirProtobufRpcChannel::on_data_available], [receive_any_file_descriptors_for]) *)
Definition be16toh (bytes : list Z) : Z := match bytes with [high; low] => Z.shiftl high 8 + low | _ => 0 end.

Section client.
(** The descriptors a parsed body announces, in the order they are received. *)
Context (counts : list Z → list nat).
Fixpoint receive_sets (ns : list nat) : reader (list (list Z)) :=
  match ns with
  | [] => rret []
  | n :: ns => rbind (receive_fds 1 n) (λ fds, rbind (receive_sets ns) (λ sets, rret (fds :: sets)))
  end.
Definition receive_message : reader (list Z * list (list Z)) :=
  rbind (receive_data header_size) (λ h,
  rbind (receive_data (Z.to_nat (be16toh h))) (λ body,
  rbind (receive_sets (counts body)) (λ sets, rret (body, sets)))).
Fixpoint receive_messages (n : nat) : reader (list (list Z * list (list Z))) :=
  match n with
  | O => rret []
  | S n => rbind receive_message (λ m, rbind (receive_messages n) (λ ms, rret (m :: ms)))
  end.
End client.

(** ** The server's connection to a client ([SocketConnection]) *)
Definition MIR_VERSION_NUMBER (major minor micro : Z) : Z := Z.shiftl major 22 + Z.shiftl minor 12 + micro.
Definition current_protocol_version : Z := MIR_VERSION_NUMBER 0 4 0.
Definition oldest_compatible_protocol_version : Z := MIR_VERSION_NUMBER 0 4 0.
Definition next_incompatible_protocol_version : Z := current_protocol_version + MIR_VERSION_NUMBER 0 0 1.

(** What the connection reads of a [protobuf::wire::Invocation]. *)
Record Invocation := mkInvocation { protocol_version : option Z; side_channel_fds : Z }.

(** What the next completed read is for. *)
Inductive phase := ReadingHeader | ReadingBody (size : nat) | ReadingFds (body : list Z) (expected : nat) | Closed.
Record Connection := mkConnection {
  reading : phase;
  client_pid : Z;
  (** what arrived and was not read *)
  arrived : list item;
  (** ghost: what the processor was given *)
  dispatched : list (list Z * list Z)
}.
Inductive connection_obs :=
  | ClientPid (pid : Z)
  | Dispatch (body : list Z) (fds : list Z)
  (** [connections->remove(id())] *)
  | Remove
  (** what leaves the handler *)
  | HandlerThrows (e : exn).
#[export] Instance phase_eq_dec : EqDecision phase.
Proof. solve_decision. Defined.

#[local] Abbreviation M := (prog Connection connection_obs).

Definition set_reading (p : phase) (s : Connection) : Connection := mkConnection p (client_pid s) (arrived s) (dispatched s).
Definition set_pid (pid : Z) (s : Connection) : Connection := mkConnection (reading s) pid (arrived s) (dispatched s).
Definition set_arrived (l : list item) (s : Connection) : Connection := mkConnection (reading s) (client_pid s) l (dispatched s).
Definition set_dispatched (l : list (list Z * list Z)) (s : Connection) : Connection := mkConnection (reading s) (client_pid s) (arrived s) l.

Section server.
(** [Invocation::ParseFromArray], the peer's credentials, and what
    [MessageProcessor::dispatch] answers after the earlier messages. *)
Context (parse : list Z → Invocation) (creds : Z) (processor : list (list Z * list Z) → list Z → list Z → bool).

(** [read_next_message] *)
Definition read_next_message : M unit := pmodify (set_reading ReadingHeader).
Definition disconnect (e : option exn) : M unit :=
  do* pmodify (set_reading Closed) in
  do* pemit Remove in
  match e with Some e => pemit (HandlerThrows e) | None => pret tt end.
(** [on_new_message], after the descriptors *)
Definition deliver (body : list Z) (fds : list Z) : M unit :=
  let* s := pget in
  do* pwhen (client_pid s =? 0) (do* pmodify (set_pid creds) in pemit (ClientPid creds)) in
  do* pemit (Dispatch body fds) in
  do* pmodify (set_dispatched (dispatched s ++ [(body, fds)])) in
  if processor (dispatched s) body fds then read_next_message else disconnect None.
Definition on_new_message (body : list Z) : M unit :=
  let invocation := parse body in
  let v := default (-1) (protocol_version invocation) in
  if (v <? oldest_compatible_protocol_version) || (next_incompatible_protocol_version <=? v) then
    disconnect (Some (runtime_error "Unsupported protocol version"))
  else if 0 <? side_channel_fds invocation then
    pmodify (set_reading (ReadingFds body (Z.to_nat (side_channel_fds invocation))))
  else deliver body [].
(** [receive_fds]: one byte with that many descriptors. *)
Definition on_fds (body : list Z) (expected : nat) (fds : list Z) : M unit :=
  if bool_decide (expected < length fds)%nat then disconnect (Some (runtime_error "Received more fds than expected"))
  else if bool_decide (length fds < expected)%nat then disconnect (Some (runtime_error "Received fewer fds than expected"))
  else deliver body fds.
Definition on_read_size (h : list Z) : M unit :=
  match h with
  | [high_byte; low_byte] => pmodify (set_reading (ReadingBody (Z.to_nat (Z.shiftl high_byte 8 + low_byte))))
  | _ => pthrow (undefined_behaviour "short header")
  end.

(** How many bytes the current read is for. *)
Definition needed (p : phase) : nat :=
  match p with ReadingHeader => header_size | ReadingBody n => n | ReadingFds _ _ => 1 | Closed => 0 end.
(** The read that is pending completes with [l]. *)
Definition on_read (l : list item) : M unit :=
  let* s := pget in
  match reading s with
  | ReadingHeader => on_read_size (byte <$> l)
  | ReadingBody _ => on_new_message (byte <$> l)
  | ReadingFds body expected => on_fds body expected (l ≫= rights)
  | Closed => pret tt
  end.
(** Each completed read takes its bytes, until one has to wait; a message is two
    reads and its descriptors a third. *)
Fixpoint pump (fuel : nat) : M unit :=
  match fuel with
  | O => pret tt
  | S fuel =>
      let* s := pget in
      let n := needed (reading s) in
      if bool_decide (reading s = Closed ∨ length (arrived s) < n)%nat then pret tt
      else
        do* pmodify (set_arrived (drop n (arrived s))) in
        do* on_read (take n (arrived s)) in
        pump fuel
  end.
(** Bytes arrive. *)
Definition arrive (l : list item) : M unit :=
  do* pmodify (λ s, set_arrived (arrived s ++ l) s) in
  let* s := pget in pump (2 * length (arrived s) + 2).
(** The pending read fails. *)
Definition read_fails (message : string) : M unit :=
  let* s := pget in
  if bool_decide (reading s = Closed) then pret tt else disconnect (Some (runtime_error message)).
End server.
Definition new_connection : Connection := mkConnection ReadingHeader 0 [] [].

(** ** Properties *)

Lemma header_spec n : 0 ≤ n < 65536 → be16toh (header n) = n.
Proof.
  intros Hn. unfold be16toh, header. change 255 with (Z.ones 8). rewrite !Z.land_ones, Z.shiftr_div_pow2, Z.shiftl_mul_pow2 by lia.
  change (2 ^ 8) with 256. rewrite (Z.mod_small (n / 256)); [pose proof (Z.div_mod n 256 ltac:(done)); lia|].
  split; [apply Z.div_pos; lia|apply Z.div_lt_upper_bound; lia].
Qed.
(** Whatever the size, the reader sees it modulo 2^16. *)
Lemma header_mod n : 0 ≤ n → be16toh (header n) = n mod 65536.
Proof.
  intros Hn. unfold be16toh, header. change 255 with (Z.ones 8). rewrite !Z.land_ones, Z.shiftr_div_pow2, Z.shiftl_mul_pow2 by lia.
  change (2 ^ 8) with 256. change 65536 with (256 * 256). rewrite Z.rem_mul_r by lia. ring.
Qed.

Lemma taken_length n l : (length (taken n l) ≤ n)%nat.
Proof.
  revert l. induction n as [|n IH]; intros [|x l]; cbn; try lia. destruct (rights x); cbn; [specialize (IH l)|]; lia.
Qed.
Lemma taken_plain n bs l : (n ≤ length bs)%nat → taken n ((plain <$> bs) ++ l) = plain <$> take n bs.
Proof. revert bs. induction n as [|n IH]; intros [|b bs] Hn; cbn in *; try done; [lia|]. f_equal. apply IH. lia. Qed.
Lemma recvmsg_plain k bs l : bs ≠ [] →
  ∃ n, (0 < n ≤ length bs)%nat ∧ recvmsg (length bs) k ((plain <$> bs) ++ l) = plain <$> take n bs.
Proof.
  intros Hbs. exists (length bs `min` (1 `max` k))%nat. destruct bs as [|b bs]; [done|]. cbn [length]. split; [lia|]. apply taken_plain. cbn [length]. lia.
Qed.

(** *** What a reader reads *)
Definition is_count (a : answer) : Prop := match a with Count _ => True | _ => False end.
#[export] Instance is_count_dec a : Decision (is_count a).
Proof. destruct a; apply _. Defined.
Definition counts_of (ans : list answer) : nat := length (filter is_count ans).
Lemma counts_count k ans : counts_of (Count k :: ans) = S (counts_of ans).
Proof. done. Qed.
(** An answer that ends a read with an error, and whether the observers hear. *)
Definition abnormal (a : answer) (told : bool) : Prop :=
  match a with Count _ | Interrupted => False | Eof | BrokenPipe => told = true | Again | Errno _ => told = false end.

(** From a socket that holds [l], and whatever follows, [m] reads [l] and gives
    [v]; it waits only if there are fewer successful calls than bytes, and fails
    only by a call that failed. *)
Definition reads {A} (m : reader A) (l : list item) (v : A) : Prop := ∀ ans later,
  match m (mkSocket ans (l ++ later)) with
  | Received v' rest => v' = v ∧ incoming rest = later ∧ (counts_of ans ≤ length l + counts_of (answers rest))%nat ∧
      ∃ used, ans = used ++ answers rest
  | Waiting => (counts_of ans < length l)%nat
  | Raised _ told => ∃ a, a ∈ ans ∧ abnormal a told
  end.
Lemma reads_ret {A} (a : A) : reads (rret a) [] a.
Proof. intros ans later. split_and!; [done|done|done|by exists []]. Qed.
Lemma reads_bind {A B} (m : reader A) (k : A → reader B) l1 l2 v1 v2 :
  reads m l1 v1 → reads (k v1) l2 v2 → reads (rbind m k) (l1 ++ l2) v2.
Proof.
  intros Hm Hk ans later. unfold rbind. specialize (Hm ans (l2 ++ later)). rewrite <- app_assoc.
  destruct (m _) as [v s'| |]; [|rewrite length_app; lia|done]. destruct Hm as (-> & Hin & Hc & used & Hans).
  destruct s' as [ans' inc']. cbn [answers incoming] in *. subst inc'. specialize (Hk ans' later). destruct (k v1 _) as [v' s''| |].
  - destruct Hk as (-> & Hin & Hc' & used' & Hans'). rewrite length_app. split_and!; [done|done|lia|].
    exists (used ++ used'). by rewrite Hans, Hans', app_assoc.
  - rewrite length_app. lia.
  - destruct Hk as (a & Ha & Hab). exists a. split; [|done]. rewrite Hans. apply elem_of_app. by right.
Qed.

Lemma rmap_reads (r : received (list Z)) (pre bs : list Z) (ans : list answer) (n : nat) later :
  match r with
  | Received v' rest => v' = bs ∧ incoming rest = later ∧ (counts_of ans ≤ n + counts_of (answers rest))%nat ∧ ∃ used, ans = used ++ answers rest
  | Waiting => (counts_of ans < n)%nat
  | Raised _ told => ∃ a, a ∈ ans ∧ abnormal a told
  end →
  match rmap (app pre) r with
  | Received v' rest => v' = pre ++ bs ∧ incoming rest = later ∧ (counts_of ans ≤ n + counts_of (answers rest))%nat ∧ ∃ used, ans = used ++ answers rest
  | Waiting => (counts_of ans < n)%nat
  | Raised _ told => ∃ a, a ∈ ans ∧ abnormal a told
  end.
Proof. destruct r as [v s| |]; cbn; [|done..]. intros (-> & ?). done. Qed.

Lemma receive_loop_reads bs ans later :
  match receive_loop ans (length bs) ((plain <$> bs) ++ later) with
  | Received v' rest => v' = bs ∧ incoming rest = later ∧ (counts_of ans ≤ length bs + counts_of (answers rest))%nat ∧
      ∃ used, ans = used ++ answers rest
  | Waiting => (counts_of ans < length bs)%nat
  | Raised _ told => ∃ a, a ∈ ans ∧ abnormal a told
  end.
Proof.
  revert bs. induction ans as [|a ans IH]; intros bs; (destruct (decide (bs = [])) as [->|Hbs];
    [split_and!; [done|done|done|by exists []]|]).
  - destruct bs as [|b bs]; [done|]. cbn. unfold counts_of. cbn. lia.
  - assert (∃ n, length bs = S n) as [n Hn] by (destruct bs; [done|by eexists]).
    unfold receive_loop; fold receive_loop. rewrite Hn. destruct a as [k| | | | |e].
    + rewrite <- Hn. destruct (recvmsg_plain k bs later Hbs) as (m & Hm & ->).
      destruct (plain <$> take m bs) as [|x chunk] eqn:Hch.
      { apply (f_equal length) in Hch. rewrite length_fmap, length_take in Hch. cbn [length] in Hch. lia. }
      rewrite <- Hch. clear Hch x chunk.
      assert (existsb (λ x, negb (bool_decide (rights x = []))) (plain <$> take m bs) = false) as ->.
      { clear. generalize (take m bs). induction l as [|x l IH]; [done|]. cbn. by rewrite IH. }
      assert (byte <$> (plain <$> take m bs) = take m bs) as ->.
      { rewrite <- list_fmap_compose. apply list_fmap_id. }
      rewrite length_fmap, length_take, Nat.min_l by lia.
      assert (drop m ((plain <$> bs) ++ later) = (plain <$> drop m bs) ++ later) as ->.
      { rewrite drop_app_le by (rewrite length_fmap; lia). by rewrite fmap_drop. }
      specialize (IH (drop m bs)). rewrite length_drop in IH. apply (rmap_reads _ (take m bs)) in IH.
      rewrite take_drop in IH. destruct (rmap _ _) as [v s| |].
      * destruct IH as (-> & ? & Hc & used & ->). split_and!; [done|done| |by exists (Count k :: used)].
        rewrite counts_count. lia.
      * rewrite counts_count. lia.
      * destruct IH as (a & ? & ?). exists a. split; [by right|done].
    + rewrite <- Hn. specialize (IH bs). destruct (receive_loop _ _ _) as [v s| |].
      * destruct IH as (-> & ? & Hc & used & Hu). split_and!; [done|done|done|exists (Interrupted :: used); by rewrite Hu].
      * done.
      * destruct IH as (a & ? & ?). exists a. split; [by right|done].
    + exists Again. split; [left|done].
    + exists Eof. split; [left|done].
    + exists BrokenPipe. split; [left|done].
    + exists (Errno e). split; [left|done].
Qed.
Lemma receive_data_reads bs : bs ≠ [] → reads (receive_data (length bs)) (plain <$> bs) bs.
Proof.
  intros Hbs ans later. unfold receive_data. rewrite bool_decide_false; [|by destruct bs]. cbn [answers incoming].
  rewrite length_fmap. apply receive_loop_reads.
Qed.
Lemma receive_fds_reads b fds : fds ≠ [] → reads (receive_fds 1 (length fds)) [Item b fds] fds.
Proof.
  intros Hfds ans later. unfold receive_fds. rewrite bool_decide_false by done. cbn [answers incoming].
  induction ans as [|a ans IH]; [cbn; unfold counts_of; cbn; lia|]. cbn [fds_loop]. destruct a as [k| | | | |e].
  - assert (recvmsg 1 k ([Item b fds] ++ later) = [Item b fds]) as ->.
    { unfold recvmsg. rewrite Nat.min_l by lia. cbn. by destruct fds. }
    cbn [mbind list_bind app rights length]. rewrite app_nil_r, Nat.sub_0_r, bool_decide_false by lia.
    change (1 - 1)%nat with O. change (drop 1 (Item b fds :: later)) with later.
    destruct ans; cbn [fds_loop]; rewrite bool_decide_false by lia; (split_and!; [done|done|rewrite counts_count; cbn [length answers]; lia|by exists [Count k]]).
  - destruct (fds_loop ans 1 (length fds) [] _) as [v s| |].
    + destruct IH as (-> & ? & ? & used & Hu). split_and!; [done|done|done|exists (Interrupted :: used); by rewrite Hu].
    + done.
    + destruct IH as (a & ? & ?). exists a. split; [by right|done].
  - destruct (fds_loop ans 1 (length fds) [] _) as [v s| |].
    + destruct IH as (-> & ? & ? & used & Hu). split_and!; [done|done|done|exists (Again :: used); by rewrite Hu].
    + done.
    + destruct IH as (a & ? & ?). exists a. split; [by right|done].
  - exists Eof. split; [left|done].
  - exists BrokenPipe. split; [left|done].
  - exists (Errno e). split; [left|done].
Qed.

(** *** From the server to the client *)
Definition carried (sets : list (list Z)) : list (list Z) := filter (λ fds, fds ≠ []) sets.
(** A message that fits the header and announces the descriptors it comes with. *)
Definition message_ok (counts : list Z → list nat) (m : list Z * list (list Z)) : Prop :=
  m.1 ≠ [] ∧ Z.of_nat (length m.1) < 65536 ∧ counts m.1 = length <$> carried m.2.

Lemma carried_frame sets : (sets ≫= send_fds) = Item 77 <$> carried sets.
Proof. induction sets as [|[|fd fds] sets IH]; [done|done|]. cbn. by rewrite IH. Qed.
Lemma receive_sets_reads sets : Forall (λ fds, fds ≠ []) sets → reads (receive_sets (length <$> sets)) (Item 77 <$> sets) sets.
Proof.
  induction 1 as [|fds sets Hfds _ IH]; [apply reads_ret|]. change (Item 77 <$> fds :: sets) with ([Item 77 fds] ++ (Item 77 <$> sets)).
  cbn [fmap list_fmap receive_sets]. eapply reads_bind; [by apply receive_fds_reads|].
  rewrite <- (app_nil_r (Item 77 <$> sets)). eapply reads_bind; [apply IH|apply reads_ret].
Qed.
Lemma receive_message_reads counts m : message_ok counts m → reads (receive_message counts) (frame m.1 m.2) (m.1, carried m.2).
Proof.
  destruct m as [body sets]. intros (Hbody & Hlen & Hcounts). cbn [fst snd] in *. unfold receive_message, frame.
  rewrite fmap_app, <- app_assoc. eapply reads_bind.
  { apply (receive_data_reads (header (Z.of_nat (length body)))). done. }
  rewrite header_spec, Nat2Z.id by lia. eapply reads_bind; [by apply receive_data_reads|].
  rewrite carried_frame, Hcounts, <- (app_nil_r (Item 77 <$> _)). eapply reads_bind; [|apply reads_ret].
  apply receive_sets_reads, Forall_forall. intros fds Hin. by apply list_elem_of_filter in Hin as [? _].
Qed.
Lemma receive_messages_reads counts ms : Forall (message_ok counts) ms →
  reads (receive_messages counts (length ms)) (ms ≫= λ m, frame m.1 m.2) ((λ m, (m.1, carried m.2)) <$> ms).
Proof.
  induction 1 as [|m ms Hm _ IH]; [apply reads_ret|]. cbn [length receive_messages mbind list_bind fmap list_fmap].
  eapply reads_bind; [by apply receive_message_reads|].
  rewrite <- (app_nil_r (ms ≫= _)). eapply reads_bind; [apply IH|apply reads_ret].
Qed.

(** C29. The client reads what the server wrote.  Whatever the pieces the kernel
    delivers, reading as many messages as were framed gives exactly their bodies
    and descriptors, in order, and leaves what follows; the read waits only
    while there were fewer successful calls than bytes, and fails only because a
    call failed, telling the observers exactly of a disconnection. *)
Theorem frames_received counts ms ans later : Forall (message_ok counts) ms →
  let stream := ms ≫= λ m, frame m.1 m.2 in
  match receive_messages counts (length ms) (mkSocket ans (stream ++ later)) with
  | Received v rest => v = ((λ m, (m.1, carried m.2)) <$> ms) ∧ incoming rest = later
  | Waiting => (counts_of ans < length stream)%nat
  | Raised _ told => ∃ a, a ∈ ans ∧ abnormal a told
  end.
Proof.
  intros Hms stream. pose proof (receive_messages_reads counts ms Hms ans later) as H. fold stream in H.
  destruct (receive_messages _ _ _) as [v rest| |]; [|done|done]. by destruct H as (-> & ? & _).
Qed.

(** A body of 2^16 bytes or more is announced as a shorter one. *)
Lemma long_message_misread (body : list Z) : 65536 ≤ Z.of_nat (length body) →
  be16toh (header (Z.of_nat (length body))) < Z.of_nat (length body).
Proof. intros Hl. rewrite header_mod by lia. pose proof (Z.mod_pos_bound (Z.of_nat (length body)) 65536). lia. Qed.

(** *** Writing *)
Lemma send_loop_spec ans buffer :
  let r := send_loop ans buffer in
  r.1 `prefix_of` buffer ∧
  match r.2 with
  | Sent fds => r.1 = buffer ∧ fds = []
  | Blocked => (counts_of ans < length buffer)%nat ∧ r.1 ≠ buffer
  | SendFailed _ told => r.1 ≠ buffer ∧ ∃ a, a ∈ ans ∧ (if told then a = BrokenPipe else a = Again ∨ ∃ e, a = Errno e)
  end.
Proof.
  revert buffer. induction ans as [|a ans IH]; intros buffer r.
  - unfold r. destruct buffer as [|b buffer]; cbn; [done|]. split; [apply prefix_nil|]. unfold counts_of. cbn. split; [lia|done].
  - destruct (decide (buffer = [])) as [->|Hne]; [by destruct a|]. assert (0 < length buffer)%nat as Hpos by (destruct buffer; [done|cbn; lia]).
    destruct a as [k| | | | |e].
    + assert (r = (take (length buffer `min` (1 `max` k)) buffer ++ (send_loop ans (drop (length buffer `min` (1 `max` k)) buffer)).1,
        (send_loop ans (drop (length buffer `min` (1 `max` k)) buffer)).2)) as -> by (unfold r; by destruct buffer).
      set (n := (length buffer `min` (1 `max` k))%nat). assert (0 < n ≤ length buffer)%nat as Hn by lia. clearbody n.
      destruct (IH (drop n buffer)) as [Hp Hr]. cbn [fst snd].
      assert (∀ w, take n buffer ++ w = buffer → w = drop n buffer) as Heq.
      { intros w Hw. apply (app_inv_head (take n buffer)). by rewrite take_drop. }
      split; [destruct Hp as [z Hz]; exists z; by rewrite <- app_assoc, <- Hz, take_drop|]. destruct (send_loop ans (drop n buffer)) as [w [fds| |e told]]; cbn [fst snd] in *.
      * destruct Hr as [-> ->]. split; [apply take_drop|done].
      * rewrite length_drop in Hr. rewrite counts_count. split; [lia|]. intros Hw%Heq. naive_solver.
      * destruct Hr as (Hw & a & ? & ?). split; [by intros ?%Heq|]. exists a. split; [by right|done].
    + assert (r = send_loop ans buffer) as -> by (unfold r; by destruct buffer). destruct (IH buffer) as [Hp Hr]. split; [done|].
      destruct (send_loop ans buffer).2; [done|done|]. destruct Hr as (? & a & ? & ?). split; [done|]. exists a. split; [by right|done].
    + assert (r = ([], SendFailed (runtime_error "Failed to send message to server") false)) as -> by (unfold r; by destruct buffer).
      split; [apply prefix_nil|]. split; [done|]. exists Again. split; [left|by left].
    + assert (r = send_loop ans buffer) as -> by (unfold r; by destruct buffer). destruct (IH buffer) as [Hp Hr]. split; [done|].
      destruct (send_loop ans buffer).2; [done|done|]. destruct Hr as (? & a & ? & ?). split; [done|]. exists a. split; [by right|done].
    + assert (r = ([], SendFailed (runtime_error "Failed to send message to server") true)) as -> by (unfold r; by destruct buffer).
      split; [apply prefix_nil|]. split; [done|]. exists BrokenPipe. split; [left|done].
    + assert (r = ([], SendFailed (runtime_error "Failed to send message to server") false)) as -> by (unfold r; by destruct buffer).
      split; [apply prefix_nil|]. split; [done|]. exists (Errno e). split; [left|right; by exists e].
Qed.
(** What the client writes is the frame of its message. *)
Lemma client_frame ans body fds w items : send_message ans (header (Z.of_nat (length body)) ++ body) fds = (w, Sent items) →
  (plain <$> w) ++ items = frame body [fds].
Proof.
  unfold send_message. pose proof (send_loop_spec ans (header (Z.of_nat (length body)) ++ body)) as [_ Hs].
  destruct (send_loop _ _) as [w' [fds'| |]]; cbn [fst snd] in *; intros [= <- <-]. destruct Hs as [-> _].
  unfold frame. cbn [mbind list_bind]. by rewrite app_nil_r.
Qed.

(** *** From a client to the server *)
Section serving.
Context (parse : list Z → Invocation) (creds : Z) (processor : list (list Z * list Z) → list Z → list Z → bool).
#[local] Abbreviation arrive_here := (arrive parse creds processor).
#[local] Abbreviation pump_here := (pump parse creds processor).
#[local] Abbreviation read_here := (on_read parse creds processor).

(** A message of this protocol version that announces its descriptors. *)
Definition invocation_ok (m : list Z * list Z) : Prop :=
  Z.of_nat (length m.1) < 65536 ∧ protocol_version (parse m.1) = Some current_protocol_version ∧
  side_channel_fds (parse m.1) = Z.of_nat (length m.2).

(** What the connection does of messages, one after the other, whatever pieces
    they arrive_here in. *)
Fixpoint served (earlier : list (list Z * list Z)) (known : bool) (ms : list (list Z * list Z)) : list connection_obs :=
  match ms with
  | [] => []
  | (body, fds) :: ms =>
      (if known then [] else [ClientPid creds]) ++ Dispatch body fds ::
      (if processor earlier body fds then served (earlier ++ [(body, fds)]) true ms else [Remove])
  end.
Definition frames (ms : list (list Z * list Z)) : list item := ms ≫= λ m, frame m.1 [m.2].

(** The connection is inside the stream: [ms] is still to be dispatched, [todo]
    arrived or is on its way. *)
Definition inside (s : Connection) (todo : list item) (ms : list (list Z * list Z)) : Prop :=
  match reading s with
  | ReadingHeader => todo = frames ms
  | ReadingBody n => ∃ body fds ms', ms = (body, fds) :: ms' ∧ n = length body ∧ todo = (plain <$> body) ++ send_fds fds ++ frames ms'
  | ReadingFds body k => ∃ fds ms', ms = (body, fds) :: ms' ∧ fds ≠ [] ∧ k = length fds ∧ todo = send_fds fds ++ frames ms'
  | Closed => True
  end.
Definition still (s : Connection) (ms : list (list Z * list Z)) : list connection_obs :=
  if bool_decide (reading s = Closed) then [] else served (dispatched s) (negb (client_pid s =? 0)) ms.

Lemma frames_cons m ms : frames (m :: ms) =
  (plain <$> header (Z.of_nat (length m.1))) ++ (plain <$> m.1) ++ send_fds m.2 ++ frames ms.
Proof. unfold frames. cbn [mbind list_bind]. unfold frame. cbn [mbind list_bind]. by rewrite fmap_app, app_nil_r, <- !app_assoc. Qed.

(** Every read leaves less to do. *)
Definition effort (s : Connection) : nat := 2 * length (arrived s) + match reading s with ReadingBody _ => 1 | _ => 0 end.

(** After a dispatch the connection is between messages, or closed. *)
Lemma deliver_run s body fds : creds ≠ 0 →
  deliver creds processor body fds s =
    Run (Ret tt) (mkConnection (if processor (dispatched s) body fds then ReadingHeader else Closed)
                    (if client_pid s =? 0 then creds else client_pid s) (arrived s) (dispatched s ++ [(body, fds)]))
      ((if client_pid s =? 0 then [ClientPid creds] else []) ++ Dispatch body fds ::
       (if processor (dispatched s) body fds then [] else [Remove])).
Proof.
  intros Hcreds. unfold deliver. rewrite pbind_get. destruct (client_pid s =? 0) eqn:Hpid; cbn [pwhen].
  - rewrite pbind_assoc, pbind_modify, pbind_emit, pbind_emit, pbind_modify. by destruct (processor _ _ _).
  - rewrite pbind_ret_l, pbind_emit, pbind_modify. by destruct (processor _ _ _).
Qed.


Lemma take_prefix (l future a b : list item) n : l ++ future = a ++ b → length a = n → (n ≤ length l)%nat →
  take n l = a ∧ drop n l ++ future = b.
Proof.
  intros Heq <- Hle.
  assert (take (length a) (l ++ future) = a) as Ht by (rewrite Heq; apply take_app_length).
  assert (drop (length a) (l ++ future) = b) as Hd by (rewrite Heq; apply drop_app_length).
  rewrite take_app_le in Ht by done. by rewrite drop_app_le in Hd.
Qed.
Lemma plain_bytes (bs : list Z) : byte <$> (plain <$> bs) = bs.
Proof. rewrite <- list_fmap_compose. apply list_fmap_id. Qed.

Lemma deliver_inside s body fds ms future : creds ≠ 0 → arrived s ++ future = frames ms → reading s ≠ Closed →
  ∃ s' tr, deliver creds processor body fds s = Run (Ret tt) s' tr ∧ arrived s' = arrived s ∧
    effort s' = (2 * length (arrived s))%nat ∧ inside s' (arrived s' ++ future) ms ∧ still s ((body, fds) :: ms) = tr ++ still s' ms.
Proof.
  intros Hcreds Hin Hopen. rewrite deliver_run by done. do 2 eexists. split; [done|]. split; [done|].
  split; [unfold effort; cbn; destruct (processor _ _ _); lia|]. unfold inside, still. cbn.
  rewrite (bool_decide_false (reading s = Closed)) by done. destruct (processor _ _ _); cbn.
  - split; [done|]. destruct (Z.eqb_spec (client_pid s) 0); cbn.
    + by rewrite (proj2 (Z.eqb_neq creds 0) Hcreds).
    + by rewrite (proj2 (Z.eqb_neq (client_pid s) 0)).
  - split; [done|]. rewrite app_nil_r. by destruct (client_pid s =? 0).
Qed.

(** One completed read. *)
Lemma on_read_step s future ms : Forall invocation_ok ms → creds ≠ 0 → inside s (arrived s ++ future) ms →
  reading s ≠ Closed → (needed (reading s) ≤ length (arrived s))%nat →
  let n := needed (reading s) in
  ∃ s' ms' tr, read_here (take n (arrived s)) (set_arrived (drop n (arrived s)) s) = Run (Ret tt) s' tr ∧
    arrived s' = drop n (arrived s) ∧ (effort s' < effort s)%nat ∧ Forall invocation_ok ms' ∧
    inside s' (arrived s' ++ future) ms' ∧ still s ms = tr ++ still s' ms'.
Proof.
  intros Hms Hcreds Hin Hopen Hlen n. unfold Wire.on_read. rewrite pbind_get. cbn [set_arrived reading].
  unfold inside in Hin. destruct (reading s) as [|k|body k|] eqn:Hr; [..|done]; cbn [needed] in *.
  - destruct Hms as [|[body fds] ms Hm Hms].
    { apply (f_equal length) in Hin. rewrite length_app in Hin. unfold header_size in Hlen. cbn in Hin. lia. }
    rewrite frames_cons in Hin. cbn [fst snd] in Hin. destruct (take_prefix _ _ _ _ n Hin) as [-> Hd]; [done|done|].
    rewrite plain_bytes. cbn [on_read_size header]. eexists _, ((body, fds) :: ms), []. split; [reflexivity|].
    change (Z.shiftl _ 8 + _) with (be16toh (header (Z.of_nat (length body)))).
    destruct Hm as [Hl Hm]. cbn [fst] in Hl. rewrite header_spec, Nat2Z.id by lia.
    split; [done|]. split; [unfold effort; cbn; rewrite Hr, length_drop; unfold n, header_size in *; lia|].
    split; [by constructor|]. split; [by exists body, fds, ms|]. unfold still. cbn. by rewrite Hr.
  - destruct Hin as (body & fds & ms' & -> & -> & Hin). destruct (take_prefix _ _ _ _ n Hin) as [-> Hd]; [by rewrite length_fmap|done|].
    rewrite plain_bytes. apply Forall_cons in Hms as [(Hl & Hv & Hfds) Hms]. cbn [fst snd] in *.
    unfold on_new_message. rewrite Hv, Hfds. cbn [default orb]. change ((_ <? _) || (_ <=? _)) with false. cbv iota.
    destruct fds as [|fd fds].
    + cbn [length Z.of_nat Z.ltb Z.compare]. destruct (deliver_inside (set_arrived (drop n (arrived s)) s) body [] ms' future) as (s' & tr & Hrun & Ha & He & Hi & Hs);
        [done|done|cbn; by rewrite Hr|]. exists s', ms', tr. split; [done|]. rewrite Ha in Hi |- *. split; [done|].
      split; [rewrite He; unfold effort; cbn; rewrite Hr, length_drop; lia|]. split; [done|]. split; [done|].
      unfold still in *. cbn in Hs. by rewrite Hr in Hs |- *.
    + change (0 <? Z.of_nat (length (fd :: fds))) with true. cbv iota. eexists _, ((body, fd :: fds) :: ms'), []. split; [reflexivity|].
      split; [done|]. split; [unfold effort; cbn; rewrite Hr, length_drop; lia|]. split; [by constructor|]. split; [exists (fd :: fds), ms'; split_and!; [done|done|by rewrite Nat2Z.id|done]|].
      unfold still. cbn. by rewrite Hr.
  - destruct Hin as (fds & ms' & -> & Hne & -> & Hin). destruct fds as [|fd fds]; [done|]. change (send_fds (fd :: fds)) with [Item 77 (fd :: fds)] in Hin.
    destruct (take_prefix _ _ _ _ n Hin) as [-> Hd]; [done|done|]. cbn [mbind list_bind rights]. rewrite app_nil_r.
    unfold on_fds. rewrite !bool_decide_false by lia. apply Forall_cons in Hms as [_ Hms].
    destruct (deliver_inside (set_arrived (drop n (arrived s)) s) body (fd :: fds) ms' future) as (s' & tr & Hrun & Ha & He & Hi & Hs);
      [done|done|cbn; by rewrite Hr|]. exists s', ms', tr. split; [done|]. rewrite Ha in Hi |- *. split; [done|].
      split; [rewrite He; unfold effort; cbn; rewrite Hr, length_drop; lia|]. split; [done|]. split; [done|].
    unfold still in *. cbn in Hs. by rewrite Hr in Hs |- *.
Qed.

Lemma pump_S fuel s : pump_here (S fuel) s =
  if bool_decide (reading s = Closed ∨ length (arrived s) < needed (reading s))%nat then Run (Ret tt) s []
  else pbind (read_here (take (needed (reading s)) (arrived s))) (λ _, pump_here fuel) (set_arrived (drop (needed (reading s)) (arrived s)) s).
Proof. cbn [Wire.pump]. rewrite pbind_get. destruct (bool_decide _); [done|]. by rewrite pbind_modify. Qed.

Lemma pump_run fuel s future ms : Forall invocation_ok ms → creds ≠ 0 → inside s (arrived s ++ future) ms →
  ∃ s' ms' tr, pump_here fuel s = Run (Ret tt) s' tr ∧ Forall invocation_ok ms' ∧ inside s' (arrived s' ++ future) ms' ∧
    still s ms = tr ++ still s' ms' ∧
    (effort s < fuel → reading s' = Closed ∨ length (arrived s') < needed (reading s'))%nat.
Proof.
  revert s ms. induction fuel as [|fuel IH]; intros s ms Hms Hcreds Hin.
  - exists s, ms, []. split_and!; [done|done|done|done|lia].
  - rewrite pump_S. destruct (decide (reading s = Closed ∨ length (arrived s) < needed (reading s))%nat) as [Hq|Hq].
    + rewrite bool_decide_true by done. by exists s, ms, [].
    + rewrite bool_decide_false by done. apply Decidable.not_or in Hq as [Hopen Hlen].
      destruct (on_read_step s future ms) as (s1 & ms1 & tr1 & Hrun & Ha & He & Hms1 & Hin1 & Hs1); [done|done|done|done|lia|].
      destruct (IH s1 ms1 Hms1 Hcreds Hin1) as (s2 & ms2 & tr2 & Hrun2 & Hms2 & Hin2 & Hs2 & Hq2).
      exists s2, ms2, (tr1 ++ tr2). rewrite (pbind_run _ _ _ _ _ _ _ Hrun Hrun2). split; [done|]. split; [done|]. split; [done|].
      split; [by rewrite Hs1, Hs2, app_assoc|]. intros Hf. apply Hq2. lia.
Qed.

(** Pieces of the stream, one after the other. *)
Lemma chunks_run chunks s future ms : Forall invocation_ok ms → creds ≠ 0 →
  inside s (arrived s ++ concat chunks ++ future) ms → reading s = Closed ∨ (length (arrived s) < needed (reading s))%nat →
  ∃ s' ms' tr, pfor chunks arrive_here s = Run (Ret tt) s' tr ∧ inside s' (arrived s' ++ future) ms' ∧
    still s ms = tr ++ still s' ms' ∧ (reading s' = Closed ∨ length (arrived s') < needed (reading s'))%nat.
Proof.
  revert s ms. induction chunks as [|l chunks IH]; intros s ms Hms Hcreds Hin Hq; [by exists s, ms, []|].
  cbn [pfor concat] in *. unfold Wire.arrive at 1. set (s0 := set_arrived (arrived s ++ l) s).
  destruct (pump_run (2 * length (arrived s0) + 2) s0 (concat chunks ++ future) ms) as (s1 & ms1 & tr1 & Hrun1 & Hms1 & Hin1 & Hs1 & Hq1); [done|done| |].
  { unfold s0, inside in *. cbn. by rewrite <- !app_assoc in *. }
  destruct (IH s1 ms1) as (s2 & ms2 & tr2 & Hrun2 & Hin2 & Hs2 & Hq2); [done|done|done| |].
  { apply Hq1. unfold effort. destruct (reading s0); lia. }
  exists s2, ms2, (tr1 ++ tr2). split; [|split; [done|split; [|done]]].
  - rewrite pbind_assoc, pbind_modify. fold s0. rewrite pbind_assoc, pbind_get.
    by rewrite (pbind_run _ _ _ _ _ _ _ Hrun1 Hrun2).
  - change (still s ms) with (still s0 ms). by rewrite Hs1, Hs2, app_assoc.
Qed.
End serving.

(** C30. The server dispatches what the client wrote.  However the stream of
    framed messages is cut into pieces, the connection gives the processor
    exactly their bodies and descriptors, in order, up to the first it is told
    to stop after, and then removes itself; it has learnt the client's pid
    before the first.  Of a stream that has not all arrived it has done the
    beginning of this. *)
Theorem frames_served parse creds processor ms chunks future :
  Forall (invocation_ok parse) ms → creds ≠ 0 → concat chunks ++ future = frames ms →
  let r := pfor chunks (arrive parse creds processor) new_connection in
  value r = Ret tt ∧ trace r `prefix_of` served creds processor [] false ms ∧
  (future = [] → trace r = served creds processor [] false ms).
Proof.
  intros Hms Hcreds Hstream r.
  destruct (chunks_run parse creds processor chunks new_connection future ms) as (s & ms' & tr & Hrun & Hin & Hs & Hq); [done|done|done|right; apply Nat.lt_0_2|].
  unfold r. rewrite Hrun. cbn [value trace]. change (still creds processor new_connection ms) with (served creds processor [] false ms) in Hs. rewrite Hs.
  split; [done|]. split; [by apply prefix_app_r|]. intros ->. rewrite app_nil_r in Hin. unfold still.
  destruct (decide (reading s = Closed)) as [Hc|Hopen]; [rewrite bool_decide_true by done; by rewrite app_nil_r|].
  destruct Hq as [?|Hq]; [done|]. unfold inside in Hin. destruct (reading s) as [|n|body n|] eqn:Hr; [..|done]; cbn [needed] in Hq.
  - destruct ms' as [|m ms']; [cbn; rewrite bool_decide_false by done; by rewrite app_nil_r|].
    rewrite Hin, frames_cons, length_app in Hq. unfold header_size in Hq. cbn in Hq. lia.
  - destruct Hin as (body & fds & ms'' & -> & -> & Hin). rewrite Hin, length_app, length_fmap in Hq. lia.
  - destruct Hin as ([|fd fds] & ms'' & -> & ? & -> & Hin); [done|]. rewrite Hin in Hq. cbn in Hq. lia.
Qed.

(** ** Messages held back ([ReorderingMessageSender])

    A message is its number.  [uncork] first lets the messages of others pass
    and then sends the buffered ones: another thread may send in between. *)
Record Reordering := mkReordering {
  corked : bool;
  buffered_messages : list Z;
  (** messages [uncork] still has to send *)
  uncorking : list Z;
  (** senders that found it uncorked and have released the lock *)
  passing : list Z
}.
(** [Forwarded held m]: [sink->send], by [uncork] or by the sender itself. *)
Inductive reordering_obs := Accepted (held : bool) (m : Z) | Forwarded (held : bool) (m : Z).
Inductive reordering_op :=
  | OpSend (m : Z)
  (** [sink->send] of a message that found the sender uncorked *)
  | OpPass (m : Z)
  (** called once *)
  | OpUncork
  (** [uncork] sends the next buffered message *)
  | OpUncorkStep.
Definition reordering_exec (op : reordering_op) : prog Reordering reordering_obs unit :=
  let* s := pget in
  match op with
  | OpSend m =>
      do* pemit (Accepted (corked s) m) in
      if corked s then pput (mkReordering true (buffered_messages s ++ [m]) (uncorking s) (passing s))
      else pput (mkReordering false (buffered_messages s) (uncorking s) (passing s ++ [m]))
  | OpPass m =>
      do* pput (mkReordering (corked s) (buffered_messages s) (uncorking s) (erase_first m (passing s))) in
      pemit (Forwarded false m)
  | OpUncork => pput (mkReordering false [] (buffered_messages s) (passing s))
  | OpUncorkStep =>
      match uncorking s with
      | m :: l => do* pemit (Forwarded true m) in pput (mkReordering (corked s) (buffered_messages s) l (passing s))
      | [] => pret tt
      end
  end.
Definition reordering_machine : machine :=
  Machine Reordering reordering_op reordering_obs (λ s, s = mkReordering true [] [] [])
    (λ s _ op, match op with OpPass m => bool_decide (m ∈ passing s) | OpUncork => corked s | _ => true end) reordering_exec.

(** The messages accepted, or forwarded, while corked ([held]) or later. *)
Definition accepted (held : bool) (h : list reordering_obs) : list Z :=
  omap (λ o, match o with Accepted b m => if bool_decide (b = held) then Some m else None | _ => None end) h.
Definition forwarded (held : bool) (h : list reordering_obs) : list Z :=
  omap (λ o, match o with Forwarded b m => if bool_decide (b = held) then Some m else None | _ => None end) h.

Lemma accepted_snoc held h o : accepted held (h ++ [o]) =
  accepted held h ++ match o with Accepted b m => if bool_decide (b = held) then [m] else [] | _ => [] end.
Proof. unfold accepted. rewrite omap_app. cbn. by destruct o as [b m|b m]; [destruct (bool_decide _)|]. Qed.
Lemma forwarded_snoc held h o : forwarded held (h ++ [o]) =
  forwarded held h ++ match o with Forwarded b m => if bool_decide (b = held) then [m] else [] | _ => [] end.
Proof. unfold forwarded. rewrite omap_app. cbn. by destruct o as [b m|b m]; [|destruct (bool_decide _)]. Qed.

(** Messages sent while corked are forwarded in their order, none before the
    sender is uncorked; later ones each once, and perhaps before those. *)
Definition held_back (s : Reordering) (h : list reordering_obs) : Prop :=
  accepted true h = forwarded true h ++ uncorking s ++ buffered_messages s ∧
  accepted false h ≡ₚ forwarded false h ++ passing s ∧
  (corked s = true → forwarded true h = [] ∧ forwarded false h = [] ∧ uncorking s = [] ∧ passing s = []) ∧
  (corked s = false → buffered_messages s = []).
Lemma held_back_messages s h : reachable reordering_machine s h → held_back s h.
Proof.
  apply (reachable_invariant reordering_machine).
  - by intros s0 ->.
  - clear s h. intros [c b u p] h op _ (H1 & H2 & H3 & H4) Hop. unfold held_back in *. cbn [corked buffered_messages uncorking passing] in *. destruct op as [m|m| |]; cbn [m_exec reordering_machine reordering_exec m_allowed] in *; unfold reordering_exec; rewrite pbind_get; cbn.
    + destruct c; cbn; rewrite !accepted_snoc, !forwarded_snoc; cbn; rewrite ?app_nil_r.
      * rewrite H1, <- !app_assoc. split_and!; [done|done|by intros _; apply H3|done].
      * rewrite H2, <- app_assoc. by split_and!.
    + apply bool_decide_eq_true in Hop. cbn in Hop. destruct c; [destruct (H3 eq_refl) as (_ & _ & _ & ->); by apply elem_of_nil in Hop|].
      rewrite !accepted_snoc, !forwarded_snoc. cbn. rewrite ?app_nil_r. split_and!; [done| |done|done].
      rewrite H2, <- app_assoc. f_equiv. rewrite bool_decide_true by done. symmetry. by apply erase_first_perm.
    + destruct c; [|done]. destruct (H3 eq_refl) as (E1 & E2 & -> & ->). rewrite ?app_nil_r in *. by split_and!.
    + destruct u as [|m u]; cbn; [by rewrite app_nil_r|]. rewrite !accepted_snoc, !forwarded_snoc. cbn. rewrite ?app_nil_r, H1, <- !app_assoc.
      split_and!; [done|done| |done]. intros ->. by destruct (H3 eq_refl) as (_ & _ & ? & _).
Qed.

(** ** Examples *)

(** Two messages, one with two descriptors, in pieces of up to three bytes. *)
Definition wire_example_counts (body : list Z) : list nat := if bool_decide (body = [7; 8; 9]) then [2%nat] else [].
Definition wire_example_messages : list (list Z * list (list Z)) := [([1; 2; 3; 4], [[]]); ([7; 8; 9], [[20; 21]])].
Definition wire_example_answers : list answer := concat (replicate 8 [Count 3; Interrupted]).
Lemma frames_received_witness :
  receive_messages wire_example_counts 2 (mkSocket wire_example_answers (wire_example_messages ≫= λ m, frame m.1 m.2)) =
    Received [([1; 2; 3; 4], []); ([7; 8; 9], [[20; 21]])] (mkSocket [Interrupted; Count 3; Interrupted; Count 3; Interrupted] []) ∧
  match receive_messages wire_example_counts (length wire_example_messages)
          (mkSocket [Count 3; Eof] ((wire_example_messages ≫= λ m, frame m.1 m.2) ++ [])) with
  | Raised _ told => ∃ a, a ∈ [Count 3; Eof] ∧ abnormal a told
  | _ => False
  end.
Proof.
  split; [vm_compute; reflexivity|].
  pose proof (frames_received wire_example_counts wire_example_messages [Count 3; Eof] []) as H.
  cbv zeta in H. specialize (H ltac:(repeat constructor; (discriminate || reflexivity))). vm_compute in H |- *. exact H.
Defined.

Definition wire_example_parse (body : list Z) : Invocation :=
  mkInvocation (Some current_protocol_version) (if bool_decide (body = [7; 8; 9]) then 2 else 0).
Definition wire_example_invocations : list (list Z * list Z) := [([1; 2; 3; 4], []); ([7; 8; 9], [20; 21]); ([5], [])].
Definition wire_example_processor (earlier : list (list Z * list Z)) (body fds : list Z) : bool := negb (bool_decide (body = [5])).
Definition wire_example_chunks : list (list item) :=
  [take 1 (frames wire_example_invocations); take 8 (drop 1 (frames wire_example_invocations)); drop 9 (frames wire_example_invocations)].
Lemma frames_served_witness :
  trace (pfor wire_example_chunks (arrive wire_example_parse 42 wire_example_processor) new_connection) =
    [ClientPid 42; Dispatch [1; 2; 3; 4] []; Dispatch [7; 8; 9] [20; 21]; Dispatch [5] []; Remove].
Proof.
  refine (proj2 (proj2 (frames_served wire_example_parse 42 wire_example_processor wire_example_invocations wire_example_chunks [] _ _ _)) eq_refl).
  - repeat constructor.
  - discriminate.
  - vm_compute. reflexivity.
Defined.
(** A message of 65536 bytes, read as an empty one: the client gives up. *)
Lemma overlong_message_ends_the_client :
  receive_message (λ _, []) (mkSocket [Count (Z.to_nat 65538)] (frame (replicate (Z.to_nat 65536) 1) [])) =
    Raised (logic_error "Attempted to receive 0 bytes") false.
Proof. vm_compute. reflexivity. Qed.
