(* ===== verification/RpcChannel.v ===== *)
(** A client's calls of the server and their completion
    (src/client/rpc/mir_basic_rpc_channel.cpp, mir_protobuf_rpc_channel.cpp).

    A call is the closure it was made with, a number.  Several threads are
    inside the channel: those that make calls, the one that reads results, the
    one that runs delayed results, and any that finds the server gone.  Each
    step between two locks of the pending calls is an operation of its own; the
    closures run between steps and may call again.  How a result is read from
    the socket is [Wire]; what a populated response and the events do is not
    modelled, except that they may throw. *)

From S2P Require Import Prelude.

(** Where a thread is inside the channel. *)
Inductive stage :=
  (** [on_data_available], the response is filled in *)
  | Populated (id : Z)
  (** [complete_response]: the closure taken, if there was one; whether the
      delayed results are watched afterwards *)
  | TakenCall (call : option Z) (rewatch : bool)
  | RanCall (rewatch : bool)
  (** [force_completion]: at the head of its loop; before a closure *)
  | Forcing
  | ForcingCall (call : Z).

Record Channel := mkChannel {
  discard : bool;
  next_message_id : Z;
  (** [pending_calls], by id *)
  pending_calls : gmap Z Z;
  running_callbacks : Z;
  prioritise_next_request : bool;
  id_to_wait_for : option Z;
  disconnected : bool;
  (** [delayed_processor]: the results whose completion is queued, and whether
      the multiplexer watches it *)
  delayed : list Z;
  watched : bool;
  threads : list stage
}.

Inductive channel_obs :=
  | Call (call : Z)
  | Send (id : Z)
  (** the closure is run *)
  | Completed (call : Z)
  | OrphanedResult
  | ResultProcessingFailed
  | ConnectionLost.

#[export] Instance channel_obs_eq_dec : EqDecision channel_obs.
Proof. solve_decision. Defined.

#[local] Abbreviation M := (prog Channel channel_obs).

Definition set_calls (p : gmap Z Z) (running : Z) (ts : list stage) (s : Channel) : Channel :=
  mkChannel (discard s) (next_message_id s) p running (prioritise_next_request s) (id_to_wait_for s) (disconnected s) (delayed s) (watched s) ts.
Definition set_next_id (n : Z) (s : Channel) : Channel :=
  mkChannel (discard s) n (pending_calls s) (running_callbacks s) (prioritise_next_request s) (id_to_wait_for s) (disconnected s) (delayed s) (watched s) (threads s).
Definition set_priority (next : bool) (wait : option Z) (s : Channel) : Channel :=
  mkChannel (discard s) (next_message_id s) (pending_calls s) (running_callbacks s) next wait (disconnected s) (delayed s) (watched s) (threads s).
Definition set_delayed (l : list Z) (w : bool) (s : Channel) : Channel :=
  mkChannel (discard s) (next_message_id s) (pending_calls s) (running_callbacks s) (prioritise_next_request s) (id_to_wait_for s) (disconnected s) l w (threads s).
Definition set_disconnected (s : Channel) : Channel :=
  mkChannel (discard s) (next_message_id s) (pending_calls s) (running_callbacks s) (prioritise_next_request s) (id_to_wait_for s) true (delayed s) (watched s) (threads s).
Definition set_discard (s : Channel) : Channel :=
  mkChannel true (next_message_id s) (pending_calls s) (running_callbacks s) (prioritise_next_request s) (id_to_wait_for s) (disconnected s) (delayed s) (watched s) (threads s).

(** A thread enters the channel. *)
Definition enter (t : stage) : M unit := pmodify (λ s, set_calls (pending_calls s) (running_callbacks s) (threads s ++ [t]) s).

(** *** [PendingCallCache] *)
Definition save_completion_details (id call : Z) : M unit :=
  pmodify (λ s, set_calls (<[id := call]> (pending_calls s)) (running_callbacks s) (threads s) s).
(** [complete_response], until its lock is released: the call, if it is pending. *)
Definition take_call (id : Z) : M (option Z) :=
  let* s := pget in
  do* pput (set_calls (delete id (pending_calls s)) (running_callbacks s + 1) (threads s) s) in
  pret (pending_calls s !! id).
Definition callback_done : M unit :=
  pmodify (λ s, set_calls (pending_calls s) (running_callbacks s - 1) (threads s) s).
(** [force_completion], to its loop *)
Definition begin_force : M unit :=
  do* pmodify (λ s, set_calls (pending_calls s) (running_callbacks s + 1) (threads s) s) in enter Forcing.
Definition first_pending (p : gmap Z Z) : option (Z * Z) := head (entries p).
(** [wait_till_complete] returns *)
Definition all_complete (s : Channel) : bool := (running_callbacks s =? 0) && bool_decide (pending_calls s = ∅).

(** *** [MirProtobufRpcChannel] *)
Definition notify_disconnected : M unit :=
  let* s := pget in
  do* pwhen (negb (disconnected s)) (do* pmodify set_disconnected in pemit ConnectionLost) in
  begin_force.

Definition next_id : M Z :=
  let* s := pget in
  do* pput (set_next_id (int32 (next_message_id s + 1)) s) in pret (next_message_id s).
(** [call_method]; [sends]: whether the transport sends the message. *)
Definition call_method (call : Z) (sends : bool) : M unit :=
  let* s := pget in
  do* pemit (Call call) in
  if discard s then pemit (Completed call)
  else
    let* id := next_id in
    do* save_completion_details id call in
    do* pwhen (prioritise_next_request s) (pmodify (set_priority false (Some id))) in
    do* pemit (Send id) in
    if sends then pret tt else notify_disconnected.
(** [on_data_available] of the result of call [id], until the response is
    filled in; [processes]: neither the events nor the response throws. *)
Definition on_result (id : Z) (processes : bool) : M unit :=
  let* s := pget in
  if processes && bool_decide (is_Some (pending_calls s !! id)) then enter (Populated id)
  else pemit ResultProcessingFailed.
Definition process_next_request_first : M unit :=
  pmodify (λ s, set_delayed (delayed s) false (set_priority true (id_to_wait_for s) s)).

(** What a thread does next, and where it is then. *)
Definition advance (t : stage) : M (option stage) :=
  match t with
  | Populated id =>
      let* s := pget in
      match id_to_wait_for s with
      | Some w =>
          if id =? w then let* c := take_call id in pret (Some (TakenCall c true))
          else do* pmodify (λ s, set_delayed (delayed s ++ [id]) (watched s) s) in pret None
      | None => let* c := take_call id in pret (Some (TakenCall c false))
      end
  | TakenCall c rewatch =>
      do* pemit match c with Some c => Completed c | None => OrphanedResult end in pret (Some (RanCall rewatch))
  | RanCall rewatch =>
      do* callback_done in
      do* pwhen rewatch (pmodify (λ s, set_delayed (delayed s) true s)) in pret None
  | Forcing =>
      let* s := pget in
      match first_pending (pending_calls s) with
      | Some (id, c) =>
          do* pput (set_calls (delete id (pending_calls s)) (running_callbacks s) (threads s) s) in pret (Some (ForcingCall c))
      | None => do* callback_done in pret None
      end
  | ForcingCall c => do* pemit (Completed c) in pret (Some Forcing)
  end.
Definition step_thread (n : nat) : M unit :=
  let* s := pget in
  match threads s !! n with
  | Some t =>
      let* t' := advance t in
      pmodify (λ s, set_calls (pending_calls s) (running_callbacks s)
        (match t' with Some t' => <[n := t']> (threads s) | None => delete n (threads s) end) s)
  | None => pret tt
  end.
(** The multiplexer runs a delayed completion. *)
Definition run_delayed : M unit :=
  let* s := pget in
  match delayed s with
  | id :: l =>
      if watched s then
        do* pmodify (set_delayed l true) in
        let* c := take_call id in enter (TakenCall c false)
      else pret tt
  | [] => pret tt
  end.

Inductive channel_op :=
  | OpCall (call : Z) (sends : bool)
  | OpResult (id : Z) (processes : bool)
  | OpDisconnected
  | OpNextFirst
  | OpDiscardFuture
  | OpThread (n : nat)
  | OpDelayed.
Definition channel_exec (op : channel_op) : M unit :=
  match op with
  | OpCall call sends => call_method call sends
  | OpResult id processes => on_result id processes
  | OpDisconnected => notify_disconnected
  | OpNextFirst => process_next_request_first
  | OpDiscardFuture => pmodify set_discard
  | OpThread n => step_thread n
  | OpDelayed => run_delayed
  end.
(** Each call has its closure, and fewer than 2^32 are pending: the next id is
    free. *)
Definition channel_allowed (s : Channel) (h : list channel_obs) (op : channel_op) : bool :=
  match op with
  | OpCall call _ => bool_decide (Call call ∉ h) && bool_decide (pending_calls s !! next_message_id s = None)
  | _ => true
  end.
Definition new_channel : Channel := mkChannel false 0 ∅ 0 false None false [] true [].
Definition channel_machine : machine :=
  Machine Channel channel_op channel_obs (λ s, s = new_channel) channel_allowed channel_exec.

(** ** What a history says *)
Definition calls (h : list channel_obs) : list Z := omap (λ o, match o with Call c => Some c | _ => None end) h.
Definition completed (h : list channel_obs) : list Z := omap (λ o, match o with Completed c => Some c | _ => None end) h.
Lemma calls_app h1 h2 : calls (h1 ++ h2) = calls h1 ++ calls h2.
Proof. apply omap_app. Qed.
Lemma completed_app h1 h2 : completed (h1 ++ h2) = completed h1 ++ completed h2.
Proof. apply omap_app. Qed.
Lemma elem_of_calls h c : c ∈ calls h ↔ Call c ∈ h.
Proof.
  unfold calls. rewrite list_elem_of_omap. split; [|intros; by exists (Call c)]. by intros ([] & Hin & [= ->]).
Qed.

(** The closures a thread took and has not run; whether it is counted in
    [running_callbacks]. *)
Definition held (t : stage) : list Z := match t with TakenCall (Some c) _ | ForcingCall c => [c] | _ => [] end.
Definition counted (t : stage) : Z := match t with Populated _ => 0 | _ => 1 end.
Definition held_opt (t : option stage) : list Z := match t with Some t => held t | None => [] end.
Definition counted_opt (t : option stage) : Z := match t with Some t => counted t | None => 0 end.
Definition waiting_calls (p : gmap Z Z) : list Z := (map_to_list p).*2.
Definition all_held (ts : list stage) : list Z := ts ≫= held.
Definition all_counted (ts : list stage) : Z := foldr (λ t n, counted t + n) 0 ts.

Record channel_inv (s : Channel) (h : list channel_obs) : Prop := {
  c_calls : calls h ≡ₚ completed h ++ waiting_calls (pending_calls s) ++ all_held (threads s);
  c_once : NoDup (calls h);
  c_running : running_callbacks s = all_counted (threads s)
}.

Lemma all_held_perm ts ts' : ts ≡ₚ ts' → all_held ts ≡ₚ all_held ts'.
Proof. intros Hp. unfold all_held. by rewrite Hp. Qed.
Lemma all_counted_perm ts ts' : ts ≡ₚ ts' → all_counted ts = all_counted ts'.
Proof. unfold all_counted. induction 1; cbn; lia. Qed.
Lemma all_held_snoc ts t : all_held (ts ++ [t]) = all_held ts ++ held t.
Proof. unfold all_held. rewrite bind_app. cbn. by rewrite app_nil_r. Qed.
Lemma all_counted_snoc ts t : all_counted (ts ++ [t]) = all_counted ts + counted t.
Proof. unfold all_counted. induction ts as [|x ts IH]; cbn; lia. Qed.
(** A thread moves on, or leaves. *)
Definition moved (n : nat) (t : option stage) (ts : list stage) : list stage :=
  match t with Some t => <[n := t]> ts | None => delete n ts end.
Lemma away_spec ts n t : ts !! n = Some t →
  all_held ts ≡ₚ held t ++ all_held (delete n ts) ∧ all_counted ts = counted t + all_counted (delete n ts).
Proof. intros Hn%delete_Permutation. split; [apply (all_held_perm _ _ Hn)|apply (all_counted_perm _ _ Hn)]. Qed.
Lemma moved_spec ts n t t' : ts !! n = Some t →
  held t ++ all_held (moved n t' ts) ≡ₚ held_opt t' ++ all_held ts ∧
  counted t + all_counted (moved n t' ts) = counted_opt t' + all_counted ts.
Proof.
  intros Hn.
  destruct (away_spec ts n t Hn) as [E1 E2]. destruct t' as [t'|]; cbn [moved held_opt counted_opt].
  - destruct (away_spec (<[n := t']> ts) n t') as [E3 E4]; [apply list_lookup_insert_eq; by eapply lookup_lt_Some|].
    assert (delete n (<[n := t']> ts) = delete n ts) as Hd by (rewrite !delete_take_drop, take_insert_ge, drop_insert_lt by lia; done).
    rewrite Hd in E3, E4. rewrite E1, E3, E2, E4. split; [solve_Permutation|lia].
  - by rewrite E1, E2.
Qed.

Lemma waiting_delete p id c : p !! id = Some c → waiting_calls p ≡ₚ c :: waiting_calls (delete id p).
Proof. intros Hp. unfold waiting_calls. by rewrite <- (map_to_list_delete p id c Hp). Qed.
Lemma waiting_insert p id c : p !! id = None → waiting_calls (<[id := c]> p) ≡ₚ c :: waiting_calls p.
Proof. intros Hp. unfold waiting_calls. by rewrite map_to_list_insert. Qed.
Lemma first_pending_Some p id c : first_pending p = Some (id, c) → p !! id = Some c.
Proof.
  unfold first_pending. intros Hp. apply elem_of_map_to_list. rewrite <- entries_perm. destruct (entries p); [done|].
  injection Hp as ->. left.
Qed.
Lemma first_pending_None p : first_pending p = None → p = ∅.
Proof.
  unfold first_pending. intros Hp. apply map_to_list_empty_iff. destruct (entries p) eqn:He; [|done].
  apply Permutation_nil_r. by rewrite <- (entries_perm p), He.
Qed.

(** One step of a thread: the closures it ran, the others. *)
Lemma take_call_run id s : take_call id s =
  Run (Ret (pending_calls s !! id)) (set_calls (delete id (pending_calls s)) (running_callbacks s + 1) (threads s) s) [].
Proof. unfold take_call. by rewrite pbind_get, pbind_put. Qed.
Lemma taken_waiting p id b : waiting_calls (delete id p) ++ held (TakenCall (p !! id) b) ≡ₚ waiting_calls p.
Proof.
  destruct (p !! id) as [c|] eqn:Hp; cbn.
  - rewrite (waiting_delete _ _ _ Hp). symmetry. apply Permutation_cons_append.
  - by rewrite app_nil_r, delete_id.
Qed.
Lemma advance_spec t s :
  ∃ t' s' tr, advance t s = Run (Ret t') s' tr ∧ calls tr = [] ∧ threads s' = threads s ∧
    running_callbacks s' = running_callbacks s + counted_opt t' - counted t ∧
    completed tr ++ waiting_calls (pending_calls s') ++ held_opt t' ≡ₚ waiting_calls (pending_calls s) ++ held t.
Proof.
  destruct t as [id|c b|b| |c]; cbn [advance counted held].
  - rewrite pbind_get. destruct (id_to_wait_for s) as [w|]; [destruct (id =? w)|].
    + erewrite pbind_run by (apply take_call_run || reflexivity). do 3 eexists. split; [reflexivity|]. cbn.
      split_and!; [done|done|lia|]. rewrite app_nil_r. apply (taken_waiting _ _ true).
    + rewrite pbind_modify. do 3 eexists. split; [reflexivity|]. cbn. split_and!; [done|done|lia|]. done.
    + erewrite pbind_run by (apply take_call_run || reflexivity). do 3 eexists. split; [reflexivity|]. cbn.
      split_and!; [done|done|lia|]. rewrite app_nil_r. apply (taken_waiting _ _ false).
  - rewrite pbind_emit. do 3 eexists. split; [reflexivity|]. destruct c as [c|]; cbn; (split_and!; [done|done|lia|]); [|done].
    rewrite app_nil_r. apply Permutation_cons_append.
  - unfold callback_done. rewrite pbind_modify. destruct b; cbn [pwhen]; [rewrite pbind_modify|rewrite pbind_ret_l];
      (do 3 eexists; split; [reflexivity|]; cbn; split_and!; [done|done|lia|done]).
  - rewrite pbind_get. destruct (first_pending (pending_calls s)) as [[id c]|] eqn:Hp.
    + rewrite pbind_put. do 3 eexists. split; [reflexivity|]. cbn. split_and!; [done|done|lia|].
      apply first_pending_Some in Hp. rewrite (waiting_delete _ _ _ Hp), app_nil_r. symmetry. apply Permutation_cons_append.
    + unfold callback_done. rewrite pbind_modify. do 3 eexists. split; [reflexivity|]. cbn. split_and!; [done|done|lia|done].
  - rewrite pbind_emit. do 3 eexists. split; [reflexivity|]. cbn. split_and!; [done|done|lia|]. rewrite app_nil_r. apply Permutation_cons_append.
Qed.

Lemma step_thread_inv n s h : channel_inv s h → channel_inv (post (step_thread n s)) (h ++ trace (step_thread n s)).
Proof.
  intros [H1 H2 H3]. unfold step_thread. rewrite pbind_get. destruct (threads s !! n) as [t|] eqn:Ht; [|cbn; by rewrite app_nil_r].
  destruct (advance_spec t s) as (t' & s' & tr & Hrun & Hc & Hts & Hr & Hp).
  erewrite pbind_run by (apply Hrun || reflexivity). cbn [post trace pmodify]. rewrite app_nil_r.
  destruct (moved_spec _ n t t' Ht) as [Hm1 Hm2]. split; cbn [set_calls pending_calls threads running_callbacks].
  - rewrite calls_app, Hc, app_nil_r, completed_app, H1. rewrite Hts.
    change (match t' with Some t' => _ | None => _ end) with (moved n t' (threads s)).
    apply (Permutation_app_inv_l (held_opt t')). rewrite <- !app_assoc.
    transitivity (completed h ++ (completed tr ++ waiting_calls (pending_calls s') ++ held_opt t') ++ all_held (moved n t' (threads s))).
    + rewrite Hp, <- (app_assoc (waiting_calls _)), Hm1. solve_Permutation.
    + solve_Permutation.
  - by rewrite calls_app, Hc, app_nil_r.
  - rewrite Hr, H3, Hts. change (match t' with Some t' => _ | None => _ end) with (moved n t' (threads s)). lia.
Qed.

(** *** The other operations *)
Lemma enter_inv t s h : channel_inv s h → held t = [] →
  channel_inv (set_calls (pending_calls s) (running_callbacks s + counted t) (threads s ++ [t]) s) h.
Proof.
  intros [H1 H2 H3] Ht. split; cbn; [|done|].
  - by rewrite all_held_snoc, Ht, app_nil_r.
  - rewrite all_counted_snoc. lia.
Qed.
Lemma quiet_call_inv s h o : channel_inv s h → calls [o] = [] → completed [o] = [] → channel_inv s (h ++ [o]).
Proof. intros [H1 H2 H3] Hc Hd. split; [|by rewrite calls_app, Hc, app_nil_r|done]. by rewrite calls_app, completed_app, Hc, Hd, !app_nil_r. Qed.
Definition core (s : Channel) := (pending_calls s, running_callbacks s, threads s).
Lemma core_inv s s' h : channel_inv s h → core s' = core s → channel_inv s' h.
Proof. intros [H1 H2 H3] [= E1 E2 E3]. split; by rewrite ?E1, ?E2, ?E3. Qed.

Lemma notify_disconnected_inv : preserves channel_inv notify_disconnected.
Proof.
  intros s h Hs. unfold notify_disconnected, begin_force, enter. rewrite pbind_get. destruct (disconnected s); cbn [negb pwhen].
  - rewrite pbind_ret_l, pbind_modify. cbn [post trace pmodify]. rewrite app_nil_r. exact (enter_inv Forcing s h Hs eq_refl).
  - rewrite pbind_assoc, pbind_modify, pbind_emit, pbind_modify. cbn [post trace pmodify].
    refine (enter_inv Forcing (set_disconnected s) _ _ eq_refl). apply quiet_call_inv; [by apply (core_inv s)|done|done].
Qed.
Lemma call_method_inv c sends s h : channel_inv s h → Call c ∉ h → pending_calls s !! next_message_id s = None →
  channel_inv (post (call_method c sends s)) (h ++ trace (call_method c sends s)).
Proof.
  intros Hs Hc Hid. unfold call_method. rewrite pbind_get, pbind_emit. cbn [post trace].
  assert (NoDup (calls h ++ [c])) as Hnd.
  { apply NoDup_app. split; [apply Hs|]. split; [|by apply NoDup_singleton]. intros x Hx. rewrite list_elem_of_singleton. intros ->.
    by apply elem_of_calls in Hx. }
  destruct (discard s).
  - cbn. change [Call c; Completed c] with ([Call c] ++ [Completed c]). destruct Hs as [H1 H2 H3].
    split; [|by rewrite !calls_app|done]. rewrite !calls_app, !completed_app. cbn. rewrite ?app_nil_r, H1. solve_Permutation.
  - unfold next_id, save_completion_details. rewrite pbind_assoc, pbind_get, pbind_assoc, pbind_put, pbind_ret_l, pbind_modify.
    set (id := next_message_id s) in *. set (s1 := set_calls _ _ _ _).
    assert (channel_inv s1 (h ++ [Call c])) as H1.
    { destruct Hs as [H1 H2 H3]. split; [|by rewrite calls_app|done]. unfold s1. cbn.
      rewrite calls_app, completed_app. cbn. rewrite app_nil_r, H1, (waiting_insert _ _ _ Hid). solve_Permutation. }
    set (m := pbind (pwhen _ _) _). assert (preserves channel_inv m) as Hm.
    { apply preserves_bind; [apply preserves_when, preserves_modify; intros; by apply (core_inv s0)|]. intros _.
      apply preserves_bind; [apply preserves_emit; intros; by apply quiet_call_inv|]. intros _.
      destruct sends; [apply preserves_ret|apply notify_disconnected_inv]. }
    specialize (Hm s1 _ H1). by rewrite <- app_assoc in Hm.
Qed.

Lemma channel_reachable s h : reachable channel_machine s h → channel_inv s h.
Proof.
  apply (reachable_invariant channel_machine).
  - intros s0 ->. split; [done|apply NoDup_nil_2|done].
  - clear s h. intros s h op _ Hs Hop. cbn [m_exec channel_machine m_allowed] in *.
    destruct op as [c sends|id ok| | | |n|]; cbn [channel_exec channel_allowed] in *.
    + apply andb_prop in Hop as [Hc%bool_decide_eq_true Hid%bool_decide_eq_true]. by apply call_method_inv.
    + unfold on_result. rewrite pbind_get. destruct (_ && _); [|by apply quiet_call_inv]. cbn. rewrite app_nil_r.
      pose proof (enter_inv (Populated id) s h Hs eq_refl) as He. cbn [counted] in He. by rewrite Z.add_0_r in He.
    + by apply notify_disconnected_inv.
    + cbn. rewrite app_nil_r. by apply (core_inv s).
    + cbn. rewrite app_nil_r. by apply (core_inv s).
    + by apply step_thread_inv.
    + unfold run_delayed. rewrite pbind_get. destruct (delayed s) as [|id l]; [cbn; by rewrite app_nil_r|].
      destruct (watched s); [|cbn; by rewrite app_nil_r]. rewrite pbind_modify.
      erewrite pbind_run by (apply take_call_run || reflexivity). cbn [post trace enter pmodify app set_calls set_delayed pending_calls running_callbacks threads].
      rewrite app_nil_r. destruct Hs as [H1 H2 H3]. split; cbn; [|done|].
      * rewrite all_held_snoc, H1, app_assoc, <- (taken_waiting (pending_calls s) id false). solve_Permutation.
      * rewrite all_counted_snoc. cbn. lia.
Qed.

(** C31. Every call is completed once.  In every reachable state the calls made
    are those whose closure was run, those pending and those a thread has just
    taken, each in one place: no closure runs twice and none is lost.  When
    [wait_for_outstanding_calls] can return every call made was completed, and
    no thread is still inside a completion. *)
Theorem calls_completed_once s h : reachable channel_machine s h →
  calls h ≡ₚ completed h ++ waiting_calls (pending_calls s) ++ all_held (threads s) ∧ NoDup (completed h) ∧
  (all_complete s = true → completed h ≡ₚ calls h ∧ Forall (λ t, counted t = 0) (threads s)).
Proof.
  intros [H1 H2 H3]%channel_reachable. split; [done|]. split.
  - rewrite H1 in H2. by apply NoDup_app in H2 as [? _].
  - unfold all_complete. intros [Hr%Z.eqb_eq Hp%bool_decide_eq_true]%andb_prop. rewrite H3 in Hr. rewrite Hp in H1.
    assert (Forall (λ t, counted t = 0) (threads s) ∧ all_held (threads s) = []) as [Ht Hh].
    { clear -Hr. assert (∀ ts, 0 ≤ all_counted ts) as Hpos by (intros ts; unfold all_counted; induction ts as [|[] ts IH]; cbn; lia).
      induction (threads s) as [|t ts IH]; [done|]. cbn in Hr. change (foldr _ 0 ts) with (all_counted ts) in Hr. specialize (Hpos ts).
      destruct t; cbn in Hr; try lia. destruct IH as [IH1 IH2]; [done|]. split; [by constructor|done]. }
    split; [|done]. rewrite H1, Hh. cbn. by rewrite app_nil_r.
Qed.

(** *** When the server is gone *)
Fixpoint repeat_step (k n : nat) : M unit :=
  match k with O => pret tt | S k => do* step_thread n in repeat_step k n end.
Lemma step_forcing n s id c : threads s !! n = Some Forcing → first_pending (pending_calls s) = Some (id, c) →
  step_thread n s = Run (Ret tt) (set_calls (delete id (pending_calls s)) (running_callbacks s) (<[n := ForcingCall c]> (threads s)) s) [].
Proof.
  intros Ht Hp. unfold step_thread. rewrite pbind_get, Ht. cbn [advance].
  erewrite pbind_run; [|rewrite pbind_get, Hp, pbind_put; reflexivity|reflexivity]. done.
Qed.
Lemma step_forcing_call n s c : threads s !! n = Some (ForcingCall c) →
  step_thread n s = Run (Ret tt) (set_calls (pending_calls s) (running_callbacks s) (<[n := Forcing]> (threads s)) s) [Completed c].
Proof. intros Ht. unfold step_thread. by rewrite pbind_get, Ht. Qed.
Lemma step_forcing_end n s : threads s !! n = Some Forcing → first_pending (pending_calls s) = None →
  step_thread n s = Run (Ret tt) (set_calls (pending_calls s) (running_callbacks s - 1) (delete n (threads s)) s) [].
Proof.
  intros Ht Hp. unfold step_thread. rewrite pbind_get, Ht. cbn [advance].
  erewrite pbind_run; [|rewrite pbind_get, Hp; unfold callback_done; rewrite pbind_modify; reflexivity|reflexivity]. done.
Qed.

Lemma force_drains k n s : size (pending_calls s) = k → threads s !! n = Some Forcing →
  ∃ s', value (repeat_step (2 * k + 1) n s) = Ret tt ∧ post (repeat_step (2 * k + 1) n s) = s' ∧ pending_calls s' = ∅ ∧
    threads s' = delete n (threads s) ∧ completed (trace (repeat_step (2 * k + 1) n s)) ≡ₚ waiting_calls (pending_calls s).
Proof.
  revert s. induction k as [|k IH]; intros s Hk Hn.
  - assert (pending_calls s = ∅) as Hp by (by apply map_size_empty_iff). eexists. cbn.
    rewrite (pbind_run _ _ _ _ _ _ _ (step_forcing_end n s Hn ltac:(by rewrite Hp)) eq_refl). cbn. rewrite Hp. by split_and!.
  - destruct (first_pending (pending_calls s)) as [[id c]|] eqn:Hf.
    2: { apply first_pending_None in Hf. rewrite Hf, map_size_empty in Hk. done. }
    pose proof (first_pending_Some _ _ _ Hf) as Hid.
    replace (2 * S k + 1)%nat with (S (S (2 * k + 1))) by lia. cbn [repeat_step].
    set (s1 := set_calls (delete id (pending_calls s)) (running_callbacks s) (<[n := ForcingCall c]> (threads s)) s).
    assert (n < length (threads s))%nat as Hlt by (by eapply lookup_lt_Some).
    assert (threads s1 !! n = Some (ForcingCall c)) as Hn1 by (by apply list_lookup_insert_eq).
    set (s2 := set_calls (pending_calls s1) (running_callbacks s1) (<[n := Forcing]> (threads s1)) s1).
    destruct (IH s2) as (s' & Hv & Hs' & Hp' & Ht' & Hc').
    { cbn. rewrite map_size_delete_Some by (by exists c). lia. }
    { cbn. apply list_lookup_insert_eq. by rewrite length_insert. }
    exists s'. rewrite (pbind_run _ _ _ _ _ _ _ (step_forcing n s id c Hn Hf) (pbind_run _ _ _ _ _ _ _ (step_forcing_call n s1 c Hn1) eq_refl)).
    cbn [value post trace app]. split; [done|]. split; [done|]. split; [done|]. split.
    + rewrite Ht'. cbn. rewrite !delete_take_drop, !take_insert_ge, !drop_insert_lt by lia. done.
    + cbn. rewrite (waiting_delete _ _ _ Hid). by f_equiv.
Qed.

(** C32. A lost connection completes what is pending.  From every reachable
    state, when the connection is found lost, one thread's next 2k+1 steps, with
    k calls pending, run their closures and end its loop; nothing is pending
    then, and if no other thread is inside, all calls made were completed. *)
Theorem disconnection_completes s h : reachable channel_machine s h →
  let s1 := post (notify_disconnected s) in let h1 := h ++ trace (notify_disconnected s) in
  let r := repeat_step (2 * size (pending_calls s) + 1) (length (threads s)) s1 in
  value r = Ret tt ∧ pending_calls (post r) = ∅ ∧ threads (post r) = threads s ∧
  (threads s = [] → completed (h1 ++ trace r) ≡ₚ calls (h1 ++ trace r)).
Proof.
  intros Hs s1 h1 r.
  assert (pending_calls s1 = pending_calls s ∧ threads s1 = threads s ++ [Forcing]) as [Hp1 Ht1].
  { unfold s1, notify_disconnected, begin_force, enter. rewrite pbind_get. by destruct (disconnected s). }
  destruct (force_drains (size (pending_calls s)) (length (threads s)) s1) as (s' & Hv & Hs' & Hp & Ht & Hc).
  { by rewrite Hp1. } { rewrite Ht1. by apply list_lookup_middle. }
  unfold r. rewrite Hs'. split; [done|]. split; [done|].
  assert (threads s' = threads s) as Hts.
  { rewrite Ht, Ht1, delete_take_drop, take_app_length, drop_ge; [by rewrite app_nil_r|]. rewrite length_app. cbn. lia. }
  split; [done|]. intros Hnil. pose proof (channel_reachable _ _ Hs) as Hinv.
  pose proof (notify_disconnected_inv s h Hinv) as H1. fold s1 h1 in H1.
  assert (preserves channel_inv (repeat_step (2 * size (pending_calls s) + 1) (length (threads s)))) as Hrep.
  { generalize (2 * size (pending_calls s) + 1)%nat as k. induction k as [|k IH]; [apply preserves_ret|]. cbn. apply preserves_bind; [|by intros _].
    intros s2 h2. apply step_thread_inv. }
  specialize (Hrep s1 h1 H1). rewrite Hs' in Hrep. destruct Hrep as [Hcalls _ _].
  rewrite Hcalls, Hp, Hts, Hnil. cbn. by rewrite app_nil_r.
Qed.

(** *** An example *)

(** Two calls; the first is answered; then the server is gone while its closure
    is about to run. *)
Definition channel_example_ops : list channel_op := [OpCall 10 true; OpCall 11 true; OpCall 12 true; OpResult 0 true; OpThread 0].
Definition channel_example_run := run_ops channel_machine channel_example_ops new_channel [].
Definition channel_example_state : Channel := (default (new_channel, []) channel_example_run).1.
Definition channel_example_history : list channel_obs := (default (new_channel, []) channel_example_run).2.
Lemma channel_example_reachable : reachable channel_machine channel_example_state channel_example_history.
Proof. apply (run_ops_from_init channel_machine channel_example_ops new_channel); [done|]. vm_compute. reflexivity. Qed.

Lemma calls_completed_once_witness : threads channel_example_state = [TakenCall (Some 10) false] ∧
  [10; 11; 12] ≡ₚ completed channel_example_history ++ waiting_calls (pending_calls channel_example_state) ++ [10].
Proof.
  split; [vm_compute; reflexivity|].
  pose proof (proj1 (calls_completed_once _ _ channel_example_reachable)) as H. vm_compute in H |- *. exact H.
Defined.
Lemma disconnection_completes_witness :
  let s1 := post (notify_disconnected channel_example_state) in
  let r := repeat_step 5 1 s1 in
  pending_calls (post r) = ∅ ∧ completed (trace r) = [11; 12].
Proof.
  split; [|vm_compute; reflexivity].
  exact (proj1 (proj2 (disconnection_completes _ _ channel_example_reachable))).
Defined.

(** After the response that was to come first, later results are still put on
    the queue instead of being completed by the reader. *)
Lemma later_results_are_delayed :
  let run := run_ops channel_machine [OpNextFirst; OpCall 10 true; OpCall 11 true; OpResult 0 true; OpThread 0; OpThread 0; OpThread 0;
    OpResult 1 true; OpThread 0] new_channel [] in
  (λ r, (watched r.1, delayed r.1, completed r.2)) <$> run = Some (true, [1], [10]).
Proof. vm_compute. reflexivity. Qed.
(** A result whose events or response throw: its call stays pending. *)
Lemma unprocessed_result_stays_pending :
  let run := run_ops channel_machine [OpCall 10 true; OpResult 0 false] new_channel [] in
  (λ r, (pending_calls r.1 !! 0, all_complete r.1)) <$> run = Some (Some 10, false).
Proof. vm_compute. reflexivity. Qed.
