(* ===== verification/MessageProcessor.v ===== *)
(** How the server answers a client's calls: the dispatch of an invocation to
    its handler, its response, and what becomes of errors
    (src/server/frontend/protobuf_message_processor.cpp,
    include/server/mir/frontend/template_protobuf_message_processor.h).

    A handler of the display server is what it does with its [done] callback and
    how it ends; that its parameters parse is part of the operation. *)

From S2P Require Import Prelude.

Inductive handler_end :=
  | Returns
  | SecurityCheckError
  | ClientVisibleError (domain code : Z)
  | Fails (what : string).
Record handling := mkHandling {
  (** whether it runs [done], or keeps it to run it later, before it ends *)
  runs_done : bool;
  keeps_done : bool;
  ends : handler_end
}.

Inductive response := Result | StructuredError (domain code : Z) | ErrorText (what : string).

Record Processor := mkProcessor {
  (** the invocations whose callback a handler kept *)
  kept : list Z
}.
Inductive processor_obs :=
  | Received (id : Z) (owed : bool)
  | Answer (id : Z) (r : response)
  | UnknownMethod (id : Z)
  | ExceptionHandled (id : Z).
#[local] Abbreviation M := (prog Processor processor_obs).

(** [invoke] of template_protobuf_message_processor.h: the callback ends with the
    call. *)
Definition invoke (id : Z) (parses : bool) (h : handling) : M unit :=
  if parses then
    do* pwhen (runs_done h) (pemit (Answer id Result)) in
    match ends h with
    | Returns => pret tt
    | SecurityCheckError => pthrow (runtime_error "Invalid Cookie")
    | ClientVisibleError d c => pemit (Answer id (StructuredError d c))
    | Fails what => pemit (Answer id (ErrorText what))
    end
  else pthrow (runtime_error "Failed to parse message parameters!").

(** [invoke] with a [SelfDeletingCallback]: it may be kept, and runs once. *)
Definition invoke_deferred (id : Z) (parses : bool) (h : handling) : M unit :=
  if parses then
    do* pwhen (runs_done h) (pemit (Answer id Result)) in
    do* pwhen (keeps_done h) (pmodify (λ s, mkProcessor (kept s ++ [id]))) in
    match ends h with
    | Returns => pret tt
    | SecurityCheckError => pthrow (runtime_error "Invalid Cookie")
    (** the error is put into the message, which nobody sends *)
    | ClientVisibleError _ _ => pret tt
    | Fails what =>
        if runs_done h || keeps_done h then pthrow (undefined_behaviour "callback run twice")
        else pemit (Answer id (ErrorText what))
    end
  else pthrow (runtime_error "Failed to parse message parameters!").

Inductive method_kind := Plain | Deferring | Disconnecting | Debugging | Unknown.
Definition methods : list (string * method_kind) :=
  [ ("connect", Plain); ("create_surface", Plain); ("submit_buffer", Deferring); ("allocate_buffers", Plain);
    ("release_buffers", Plain); ("release_surface", Plain); ("platform_operation", Deferring); ("configure_display", Plain);
    ("remove_session_configuration", Plain); ("set_base_display_configuration", Plain); ("configure_surface", Plain);
    ("modify_surface", Plain); ("create_screencast", Plain); ("screencast_buffer", Plain); ("screencast_to_buffer", Plain);
    ("release_screencast", Plain); ("create_buffer_stream", Plain); ("release_buffer_stream", Plain); ("configure_cursor", Plain);
    ("new_fds_for_prompt_providers", Plain); ("start_prompt_session", Plain); ("stop_prompt_session", Plain);
    ("disconnect", Disconnecting); ("pong", Plain); ("configure_buffer_stream", Plain); ("raise_surface", Plain);
    ("translate_surface_to_screen", Debugging); ("request_persistent_surface_id", Plain);
    ("preview_base_display_configuration", Plain); ("confirm_base_display_configuration", Plain);
    ("cancel_base_display_configuration_preview", Plain) ]%string.
Definition kind_of (method_name : string) : method_kind :=
  match find_if (λ m, bool_decide (m.1 = method_name)) methods with Some m => m.2 | None => Unknown end.

(** [dispatch] *)
Definition dispatch (id : Z) (method_name : string) (parses : bool) (h : handling) : M bool :=
  pcatch
    (match kind_of method_name with
     | Plain => do* invoke id parses h in pret true
     | Deferring => do* invoke_deferred id parses h in pret true
     | Disconnecting => do* invoke id parses h in pret false
     | Debugging =>
         do* pcatch (invoke id parses h)
           (λ _, do* pemit (Answer id (ErrorText "Server does not support the client debugging interface")) in
                 pemit (ExceptionHandled id)) in
         pret true
     | Unknown => do* pemit (UnknownMethod id) in pret false
     end)
    (λ _, do* pemit (ExceptionHandled id) in pret false).

(** What a client may expect of a call: one answer, unless the connection is
    given up or the error is dropped. *)
Definition owes_answer (method_name : string) (parses : bool) (h : handling) : bool :=
  match kind_of method_name with
  | Unknown => false
  | Debugging => true
  | Deferring => parses && match ends h with SecurityCheckError | ClientVisibleError _ _ => false | _ => true end
  | _ => parses && match ends h with SecurityCheckError => false | _ => true end
  end.
(** Runs or keeps its callback if it returns, and does not if it throws; only
    [submit_buffer] and [platform_operation] may keep it. *)
Definition proper (method_name : string) (h : handling) : bool :=
  match ends h with
  | Returns => xorb (runs_done h) (keeps_done h) && (negb (keeps_done h) || match kind_of method_name with Deferring => true | _ => false end)
  | _ => negb (runs_done h) && negb (keeps_done h)
  end.

Inductive processor_op :=
  | OpDispatch (id : Z) (method_name : string) (parses : bool) (h : handling)
  (** a kept callback is run *)
  | OpDone (id : Z).
Definition processor_exec (op : processor_op) : M unit :=
  match op with
  | OpDispatch id method_name parses h =>
      do* pemit (Received id (owes_answer method_name parses h)) in
      do* dispatch id method_name parses h in pret tt
  | OpDone id => do* pmodify (λ s, mkProcessor (erase_first id (kept s))) in pemit (Answer id Result)
  end.
Definition received_ids (hist : list processor_obs) : list Z :=
  omap (λ o, match o with Received i _ => Some i | _ => None end) hist.
(** The calls that were answered, and those an answer is owed to. *)
Definition answered_ids (hist : list processor_obs) : list Z :=
  omap (λ o, match o with Answer i _ => Some i | _ => None end) hist.
Definition owed_ids (hist : list processor_obs) : list Z :=
  omap (λ o, match o with Received i true => Some i | _ => None end) hist.
Definition processor_allowed (s : Processor) (hist : list processor_obs) (op : processor_op) : bool :=
  match op with
  | OpDispatch id method_name _ h => bool_decide (id ∉ received_ids hist) && proper method_name h
  | OpDone id => bool_decide (id ∈ kept s)
  end.
Definition processor_machine : machine :=
  Machine Processor processor_op processor_obs (λ s, s = mkProcessor []) processor_allowed processor_exec.


(** ** Properties *)
Lemma answered_app h1 h2 : answered_ids (h1 ++ h2) = answered_ids h1 ++ answered_ids h2.
Proof. apply omap_app. Qed.
Lemma owed_app h1 h2 : owed_ids (h1 ++ h2) = owed_ids h1 ++ owed_ids h2.
Proof. apply omap_app. Qed.
Lemma received_app h1 h2 : received_ids (h1 ++ h2) = received_ids h1 ++ received_ids h2.
Proof. apply omap_app. Qed.

(** A dispatch of a proper handler: the answer it gives or the callback it
    leaves. *)
Lemma dispatch_proper_run id method_name parses h s : proper method_name h = true →
  ∃ v tr, dispatch id method_name parses h s =
      Run (Ret v) (mkProcessor (kept s ++ if owes_answer method_name parses h && keeps_done h then [id] else [])) tr ∧
    answered_ids tr = (if owes_answer method_name parses h && negb (keeps_done h) then [id] else []) ∧
    owed_ids tr = [] ∧ received_ids tr = [].
Proof.
  destruct s as [l]. destruct h as [runs keeps e]. unfold proper, dispatch, owes_answer, invoke, invoke_deferred. cbn [runs_done keeps_done ends kept].
  destruct (kind_of method_name), parses, e as [| |d c|what], runs, keeps; cbn; try done; intros _;
    (do 2 eexists; split; [by rewrite ?app_nil_r|done]).
Qed.

(** Whether the connection goes on reading. *)
Definition goes_on (method_name : string) (parses : bool) (h : handling) : bool :=
  match kind_of method_name with
  | Unknown | Disconnecting => false
  | Debugging => true
  | _ => parses && match ends h with SecurityCheckError => false | _ => true end
  end.
Lemma dispatch_value id method_name parses h s : proper method_name h = true →
  value (dispatch id method_name parses h s) = Ret (goes_on method_name parses h).
Proof.
  destruct h as [runs keeps e]. unfold proper, dispatch, goes_on, invoke, invoke_deferred. cbn [runs_done keeps_done ends].
  by destruct (kind_of method_name), parses, e as [| |d c|what], runs, keeps.
Qed.

(** ** The methods by name *)
Definition known (method_name : string) : Prop := method_name ∈ methods.*1.
#[export] Instance known_dec m : Decision (known m).
Proof. unfold known. apply _. Defined.

Lemma unknown_kind m : kind_of m = Unknown ↔ ¬ known m.
Proof.
  unfold kind_of, known. destruct (find_if _ methods) as [x|] eqn:Hf.
  - apply find_if_Some in Hf as [Hx Hm%bool_decide_eq_true]. split.
    + assert (Forall (λ x, x.2 ≠ Unknown) methods) as Hall by (unfold methods; repeat constructor; discriminate).
      rewrite Forall_forall in Hall. intros Hu. by destruct (Hall x Hx).
    + intros []. subst m. by apply list_elem_of_fmap_2.
  - rewrite find_if_None in Hf. split; [|done].
    intros _ (x & -> & Hx)%list_elem_of_fmap. specialize (Hf x Hx). by apply bool_decide_eq_false in Hf.
Qed.
Lemma known_kind m : known m ↔ kind_of m ≠ Unknown.
Proof. rewrite unknown_kind. split; [auto|apply dec_stable]. Qed.
Lemma kind_listed k m : k ≠ Unknown → kind_of m = k → (m, k) ∈ methods.
Proof.
  intros Hk. unfold kind_of. destruct (find_if _ methods) as [x|] eqn:Hf; [|by intros <-].
  apply find_if_Some in Hf as [Hx Hm%bool_decide_eq_true]. destruct x as [n k']. cbn in *. by intros <-; subst n.
Qed.
Lemma kind_names m :
  (kind_of m = Debugging ↔ m = "translate_surface_to_screen"%string) ∧
  (kind_of m = Disconnecting ↔ m = "disconnect"%string) ∧
  (kind_of m = Deferring ↔ m = "submit_buffer"%string ∨ m = "platform_operation"%string).
Proof.
  split_and!; split.
  2, 4: by intros ->. 4: by intros [->| ->].
  all: intros Hm%kind_listed; [|done]; unfold methods in Hm;
    repeat (apply elem_of_cons in Hm as [Hm|Hm]; [by simplify_eq; auto|]); by apply elem_of_nil in Hm.
Qed.

(** What the cases of a call come to. *)
Definition forged (h : handling) : Prop := ends h = SecurityCheckError.
Definition client_error (h : handling) : Prop := ∃ d c, ends h = ClientVisibleError d c.
Lemma goes_on_iff m parses h : goes_on m parses h = true ↔
  m = "translate_surface_to_screen"%string ∨
  known m ∧ m ≠ "disconnect"%string ∧ parses = true ∧ ¬ forged h.
Proof.
  unfold goes_on, forged. destruct (kind_names m) as (<- & <- & _). rewrite known_kind.
  destruct (kind_of m), parses, (ends h); naive_solver.
Qed.
Lemma owes_answer_iff m parses h : owes_answer m parses h = true ↔
  m = "translate_surface_to_screen"%string ∨
  known m ∧ parses = true ∧ ¬ forged h ∧
    ¬ ((m = "submit_buffer"%string ∨ m = "platform_operation"%string) ∧ client_error h).
Proof.
  unfold owes_answer, forged, client_error. destruct (kind_names m) as (<- & _ & <-).
  rewrite known_kind.
  destruct (kind_of m), parses, (ends h); naive_solver.
Qed.

Definition processor_inv (s : Processor) (h : list processor_obs) : Prop :=
  owed_ids h ≡ₚ answered_ids h ++ kept s ∧ NoDup (received_ids h) ∧ sublist (owed_ids h) (received_ids h).
Lemma processor_reachable s h : reachable processor_machine s h → processor_inv s h.
Proof.
  apply (reachable_invariant processor_machine).
  - intros s0 ->. split_and!; [done|apply NoDup_nil_2|done].
  - clear s h. intros s h op _ (H1 & H2 & H3) Hop. cbn [m_exec processor_machine m_allowed] in *.
    destruct op as [id method_name parses hd|id]; cbn [processor_exec processor_allowed] in *.
    + apply andb_prop in Hop as [Hid%bool_decide_eq_true Hproper]. rewrite pbind_emit. unfold pbind.
      destruct (dispatch_proper_run id method_name parses hd s Hproper) as (v & tr & -> & Ha & Ho & Hr). cbn [value post trace pret app].
      rewrite app_nil_r. unfold processor_inv. cbn [kept]. set (o := Received id _). change (o :: tr) with ([o] ++ tr).
      rewrite owed_app, answered_app, received_app, (owed_app [_]), (answered_app [_]), (received_app [_]), Ha, Ho, Hr, !app_nil_r. cbn.
      split_and!.
      * rewrite H1. destruct (owes_answer _ _ _), (keeps_done hd); cbn; rewrite ?app_nil_r, <- ?app_assoc; try done. f_equiv. apply Permutation_app_comm.
      * apply NoDup_app. split; [done|]. split; [|apply NoDup_singleton]. by intros x Hx ->%list_elem_of_singleton.
      * destruct (owes_answer _ _ _); cbn; [by apply sublist_app|rewrite app_nil_r; by apply sublist_inserts_r].
    + apply bool_decide_eq_true in Hop. rewrite pbind_modify. cbn [pemit value post trace]. unfold processor_inv. cbn [kept].
      rewrite owed_app, answered_app, received_app. cbn. rewrite !app_nil_r. split_and!; [|done|done].
      rewrite H1, <- app_assoc. f_equiv. symmetry. by apply erase_first_perm.
Qed.

(** C33. A call is answered at most once, now or later.  The handlers are those
    that, when they return, either have run their callback or keep it
    ([submit_buffer] and [platform_operation] only), and when they throw have
    done neither ([proper]).  In every reachable state the calls that are owed an
    answer are those answered and those whose callback a handler keeps, each once,
    and no other call is answered.  An answer is owed to every
    [translate_surface_to_screen], even if it does not parse or has a forged
    cookie, and to calls of the other known methods if their parameters parse and
    no forged cookie is found, except [submit_buffer] and [platform_operation]
    when they end in an error for the client to see.  The connection goes on
    exactly after every [translate_surface_to_screen] and after calls of the
    other known methods but [disconnect] if their parameters parse and no forged
    cookie is found. *)
Theorem calls_answered_once s h : reachable processor_machine s h →
  owed_ids h ≡ₚ answered_ids h ++ kept s ∧ NoDup (answered_ids h ++ kept s) ∧
  ∀ id method_name parses hd, proper method_name hd = true →
    let r := dispatch id method_name parses hd s in
    value r = Ret (goes_on method_name parses hd) ∧
    answered_ids (trace r) ++ drop (length (kept s)) (kept (post r)) = (if owes_answer method_name parses hd then [id] else []) ∧
    (goes_on method_name parses hd = true ↔
      method_name = "translate_surface_to_screen"%string ∨
      known method_name ∧ method_name ≠ "disconnect"%string ∧ parses = true ∧ ends hd ≠ SecurityCheckError) ∧
    (owes_answer method_name parses hd = true ↔
      method_name = "translate_surface_to_screen"%string ∨
      known method_name ∧ parses = true ∧ ends hd ≠ SecurityCheckError ∧
        ¬ ((method_name = "submit_buffer"%string ∨ method_name = "platform_operation"%string) ∧
           ∃ d c, ends hd = ClientVisibleError d c)).
Proof.
  intros (H1 & H2 & H3)%processor_reachable. split; [done|]. split.
  - rewrite <- H1. by eapply sublist_NoDup.
  - intros id method_name parses hd Hproper. cbn zeta. split; [by apply dispatch_value|]. split; [|split; [apply goes_on_iff|apply owes_answer_iff]].
    destruct (dispatch_proper_run id method_name parses hd s Hproper) as (v & tr & -> & Ha & _). cbn [trace post kept]. rewrite Ha.
    rewrite drop_app_length. by destruct (owes_answer _ _ _), (keeps_done hd).
Qed.

(** *** Examples *)
Definition processor_example_ops : list processor_op :=
  [ OpDispatch 0 "connect" true (mkHandling true false Returns); OpDispatch 1 "submit_buffer" true (mkHandling false true Returns);
    OpDispatch 2 "configure_display" true (mkHandling false false (ClientVisibleError 1 2)); OpDone 1 ].
Definition processor_example_run := run_ops processor_machine processor_example_ops (mkProcessor []) [].
Definition processor_example_state : Processor := (default (mkProcessor [], []) processor_example_run).1.
Definition processor_example_history : list processor_obs := (default (mkProcessor [], []) processor_example_run).2.
Lemma processor_example_reachable : reachable processor_machine processor_example_state processor_example_history.
Proof. apply (run_ops_from_init processor_machine processor_example_ops (mkProcessor [])); [done|]. vm_compute. reflexivity. Qed.
Lemma calls_answered_once_witness : answered_ids processor_example_history = [0; 2; 1] ∧
  owed_ids processor_example_history ≡ₚ answered_ids processor_example_history ++ kept processor_example_state.
Proof.
  split; [vm_compute; reflexivity|]. exact (proj1 (calls_answered_once _ _ processor_example_reachable)).
Defined.
(** An error for the client to see is not sent by the two methods that may keep
    their callback. *)
Lemma client_error_is_dropped s :
  dispatch 0 "platform_operation" true (mkHandling false false (ClientVisibleError 1 2)) s = Run (Ret true) s [].
Proof. destruct s. reflexivity. Qed.
(** The reply of a server without coordinate translation goes to calls that do
    not parse; a translator that throws has its own message sent. *)
Lemma debug_reply_is_for_malformed_calls s :
  answered_ids (trace (dispatch 0 "translate_surface_to_screen" false (mkHandling true false Returns) s)) = [0] ∧
  trace (dispatch 0 "translate_surface_to_screen" true (mkHandling false false (Fails "Unsupported feature requested")) s) =
    [Answer 0 (ErrorText "Unsupported feature requested")].
Proof. destruct s. split; reflexivity. Qed.
