(* ===== verification/CursorController.v ===== *)
(** Which image the mouse cursor shows
    (src/server/input/cursor_controller.cpp).

    Surfaces and images are numbers; the input scene, bottom first, is an
    argument of what asks it.  [Observer]s are the calls the scene and its
    surfaces make.  The controller changes its state under [cursor_state_guard]
    and tells the cursor after releasing it, the observers of the surfaces have
    a mutex of their own: a call is a sequence of steps, and the steps of several
    threads interleave. *)

From S2P Require Import Prelude Geometry.

(** What the input scene answers of a surface. *)
Record Target := mkTarget { input_area : Point → bool; cursor_image : option Z }.

(** Where a call is. *)
Inductive cursor_pc :=
  (** in [add_surface_observer], before the map is locked *)
  | Inserting (surface observer : Z)
  (** before [update_cursor_image] has the lock *)
  | ToUpdate
  (** in [set_cursor_image_locked], behind [lock.unlock()]; a move goes on to
      [cursor->move_to] *)
  | Showing (image : option Z) (move : option Point)
  | ToMove (p : Point).

Record Controller := mkController {
  (** [UpdateCursorOnSceneChanges::surface_observers] *)
  surface_observers : gmap Z Z;
  (** the observers that saw a frame *)
  first_frame_posted : gset Z;
  cursor_location : Point;
  default_cursor_image : option Z;
  current_cursor : option Z;
  (** the next observer made *)
  next_observer : Z;
  calls : list (Z * cursor_pc)
}.

(** Calls made, and a mark where [current_cursor] changes. *)
Inductive cursor_obs :=
  | Changed (image : option Z)
  | Show (image : Z)
  | Hide
  | MoveTo (p : Point)
  | AddObserver (surface observer : Z)
  | RemoveObserver (surface observer : Z).
#[local] Abbreviation M := (prog Controller cursor_obs).

Definition set_surface_observers (m : gmap Z Z) (s : Controller) : Controller :=
  mkController m (first_frame_posted s) (cursor_location s) (default_cursor_image s) (current_cursor s) (next_observer s) (calls s).
Definition set_first_frame (o : Z) (s : Controller) : Controller :=
  mkController (surface_observers s) ({[o]} ∪ first_frame_posted s) (cursor_location s) (default_cursor_image s) (current_cursor s)
    (next_observer s) (calls s).
Definition set_location (p : Point) (s : Controller) : Controller :=
  mkController (surface_observers s) (first_frame_posted s) p (default_cursor_image s) (current_cursor s) (next_observer s) (calls s).
Definition set_current_image (i : option Z) (s : Controller) : Controller :=
  mkController (surface_observers s) (first_frame_posted s) (cursor_location s) (default_cursor_image s) i (next_observer s) (calls s).
Definition set_next_observer (n : Z) (s : Controller) : Controller :=
  mkController (surface_observers s) (first_frame_posted s) (cursor_location s) (default_cursor_image s) (current_cursor s) n (calls s).
Definition set_calls (l : list (Z * cursor_pc)) (s : Controller) : Controller :=
  mkController (surface_observers s) (first_frame_posted s) (cursor_location s) (default_cursor_image s) (current_cursor s)
    (next_observer s) l.

(** ** The image *)
Definition topmost_surface_containing_point (ts : list Target) (p : Point) : option Target :=
  foldl (λ top t, if input_area t p then Some t else top) None ts.
(** [set_cursor_image_locked], under the lock: the image that is left to show. *)
Definition set_cursor_image_locked (image : option Z) : M (option (option Z)) :=
  let* s := pget in
  if bool_decide (current_cursor s = image) then pret None
  else do* pput (set_current_image image s) in do* pemit (Changed image) in pret (Some image).
Definition update_cursor_image_locked (ts : list Target) : M (option (option Z)) :=
  let* s := pget in
  match topmost_surface_containing_point ts (cursor_location s) with
  | Some t => set_cursor_image_locked (cursor_image t)
  | None => set_cursor_image_locked (default_cursor_image s)
  end.
(** What is left of it after [lock.unlock()]; [empty]: the images without a size. *)
Definition show_current (empty : Z → bool) (image : option Z) : M unit :=
  match image with
  | Some i => if empty i then pemit Hide else pemit (Show i)
  | None => pemit Hide
  end.

(** ** What it hears

    The parts of the calls up to where they release a lock. *)
Definition enter (t : Z) (pc : cursor_pc) : M unit := pmodify (λ s, set_calls ((t, pc) :: calls s) s).

Definition cursor_moved_to (t : Z) (ts : list Target) (p : Point) : M unit :=
  do* pmodify (set_location p) in
  let* image := update_cursor_image_locked ts in
  enter t (match image with Some i => Showing i (Some p) | None => ToMove p end).

Inductive surface_change :=
  | Resized | Moved | HiddenSet | FramePosted | AlphaSet | TransformationSet | ReceptionModeSet | CursorImageSet | CursorImageRemoved
  | AttribChanged | OrientationSet | CloseRequested.
(** [UpdateCursorOnSurfaceChanges], one of them. *)
Definition surface_changed (t observer : Z) (c : surface_change) : M unit :=
  let* s := pget in
  match c with
  | AttribChanged | OrientationSet | CloseRequested => pret tt
  | FramePosted =>
      if bool_decide (observer ∈ first_frame_posted s) then pret tt
      else do* pmodify (set_first_frame observer) in enter t ToUpdate
  | _ => enter t ToUpdate
  end.
(** [UpdateCursorOnSceneChanges::surface_added] and [surface_exists], up to where
    [add_surface_observer] locks the map *)
Definition surface_added (t w : Z) : M unit :=
  let* s := pget in
  let observer := next_observer s in
  do* pmodify (set_next_observer (observer + 1)) in
  do* pemit (AddObserver w observer) in
  enter t (Inserting w observer).
Definition surface_removed (t w : Z) : M unit :=
  let* s := pget in
  do* match (surface_observers s !! w : option Z) with
      | Some o => do* pemit (RemoveObserver w o) in pput (set_surface_observers (delete w (surface_observers s)) s)
      | None => pret tt
      end in
  enter t ToUpdate.
(** [surfaces_reordered] and [scene_changed] *)
Definition scene_changed (t : Z) : M unit := enter t ToUpdate.
Definition end_observation : M unit :=
  let* s := pget in
  do* pfor (entries (surface_observers s)) (λ e, pemit (RemoveObserver e.1 e.2)) in
  pmodify (set_surface_observers ∅).

(** A thread's call goes on; [ts]: the scene, when it is asked. *)
Definition cursor_turn (empty : Z → bool) (t : Z) (ts : list Target) : M unit :=
  let* s := pget in
  match split_at t (calls s) with
  | None => pret tt
  | Some (a, pc, b) =>
      let goto pc := pmodify (set_calls (a ++ (t, pc) :: b)) in
      let finish := pmodify (set_calls (a ++ b)) in
      match pc with
      | Inserting w observer =>
          do* pmodify (λ s, set_surface_observers (<[w := observer]> (surface_observers s)) s) in goto ToUpdate
      | ToUpdate =>
          let* image := update_cursor_image_locked ts in
          match image with Some i => goto (Showing i None) | None => finish end
      | Showing image move =>
          do* show_current empty image in
          match move with Some p => goto (ToMove p) | None => finish end
      | ToMove p => do* pemit (MoveTo p) in finish
      end
  end.

(** ** As a machine

    A thread that is not in a call may make one, for the scene or one of the
    surfaces' observers.  The scene says that a surface is added once, and
    neither that it is removed nor that the observation ends before that call is
    over.  Which images are empty does not change. *)
Section machine.
Context (empty : Z → bool).
Inductive cursor_op :=
  | OpMoved (t : Z) (ts : list Target) (p : Point)
  | OpSurfaceChanged (t observer : Z) (c : surface_change)
  | OpSurfaceAdded (t w : Z)
  | OpSurfaceRemoved (t w : Z)
  | OpSceneChanged (t : Z)
  | OpEndObservation
  | OpStep (t : Z) (ts : list Target).
Definition cursor_exec (op : cursor_op) : M unit :=
  match op with
  | OpMoved t ts p => cursor_moved_to t ts p
  | OpSurfaceChanged t o c => surface_changed t o c
  | OpSurfaceAdded t w => surface_added t w
  | OpSurfaceRemoved t w => surface_removed t w
  | OpSceneChanged t => scene_changed t
  | OpEndObservation => end_observation
  | OpStep t ts => cursor_turn empty t ts
  end.
Definition free (s : Controller) (t : Z) : bool := bool_decide (t ∉ (calls s).*1).
Definition inserts (w : Z) (pc : cursor_pc) : bool := match pc with Inserting w' _ => bool_decide (w' = w) | _ => false end.
Definition being_added (s : Controller) (w : Z) : bool := existsb (λ c, inserts w c.2) (calls s).
Definition cursor_allowed (s : Controller) (op : cursor_op) : bool :=
  match op with
  | OpMoved t _ _ | OpSceneChanged t => free s t
  | OpSurfaceChanged t o _ => free s t && bool_decide (o < next_observer s)
  | OpSurfaceAdded t w => free s t && bool_decide (surface_observers s !! w = None) && negb (being_added s w)
  | OpSurfaceRemoved t w => free s t && negb (being_added s w)
  | OpEndObservation => forallb (λ c, match c.2 with Inserting _ _ => false | _ => true end) (calls s)
  | OpStep _ _ => true
  end.
Definition new_controller (default_image : option Z) : Controller := mkController ∅ ∅ (Pt 0 0) default_image default_image 0 [].
Definition cursor_machine : machine :=
  Machine Controller cursor_op cursor_obs (λ s, ∃ image, s = new_controller image) (λ s _ op, cursor_allowed s op) cursor_exec.
End machine.

(** ** What a history says *)

(** What is on the screen (the image last shown, [Some None] when hidden), how
    many changes of the image are not shown yet, and whether the last one came
    while another was not. *)
Record Screen := mkScreen { shown : option (option Z); to_show : nat; overtaken : bool }.
Definition screen_step (q : Screen) (ob : cursor_obs) : Screen :=
  match ob with
  | Changed _ => mkScreen (shown q) (S (to_show q)) (bool_decide (to_show q ≠ 0%nat))
  | Show i => mkScreen (Some (Some i)) (pred (to_show q)) (overtaken q)
  | Hide => mkScreen (Some None) (pred (to_show q)) (overtaken q)
  | _ => q
  end.
Definition screen (h : list cursor_obs) : Screen := foldl screen_step (mkScreen None 0 false) h.
(** The surfaces observed, and by whom. *)
Definition observed_step (m : gset (Z * Z)) (ob : cursor_obs) : gset (Z * Z) :=
  match ob with AddObserver w o => {[(w, o)]} ∪ m | RemoveObserver w o => m ∖ {[(w, o)]} | _ => m end.
Definition observed_by (h : list cursor_obs) : gset (Z * Z) := foldl observed_step ∅ h.
(** How an image looks. *)
Definition looks_like (empty : Z → bool) (image : option Z) : option Z :=
  match image with Some i => if empty i then None else Some i | None => None end.
(** The image there should be: that of the topmost surface under the cursor. *)
Definition wanted (ts : list Target) (p : Point) (default_image : option Z) : option Z :=
  match find_if (λ t, input_area t p) (rev ts) with Some t => cursor_image t | None => default_image end.

Lemma topmost_wanted ts p : topmost_surface_containing_point ts p = find_if (λ t, input_area t p) (rev ts).
Proof.
  unfold topmost_surface_containing_point. induction ts as [|t ts IH] using rev_ind; [done|].
  rewrite foldl_app, rev_app_distr. cbn. rewrite find_if_cons. by destruct (input_area t p).
Qed.
(** The section under the lock makes the current image the wanted one. *)
Lemma update_locked_run ts s :
  let image := wanted ts (cursor_location s) (default_cursor_image s) in
  update_cursor_image_locked ts s =
    if bool_decide (current_cursor s = image) then Run (Ret None) s []
    else Run (Ret (Some image)) (set_current_image image s) [Changed image].
Proof.
  cbv zeta. unfold update_cursor_image_locked, wanted. rewrite pbind_get, topmost_wanted.
  destruct (find_if _ _) as [t|]; unfold set_cursor_image_locked; rewrite pbind_get; by case_bool_decide.
Qed.

(** ** Invariants *)
Definition shows (pc : cursor_pc) : list (option Z) := match pc with Showing image _ => [image] | _ => [] end.
Definition adds (pc : cursor_pc) : list Z := match pc with Inserting w _ => [w] | _ => [] end.

(** The image: what is left to show, in any order. *)
Record image_inv (empty : Z → bool) (s : Controller) (l : list (option Z)) (q : Screen) : Prop := {
  im_count : to_show q = length l;
  im_current : overtaken q = false → ∀ i, i ∈ l → i = current_cursor s;
  im_shown : overtaken q = false → l = [] →
    match shown q with Some i => i = looks_like empty (current_cursor s) | None => current_cursor s = default_cursor_image s end
}.
(** The observers; [fs]: where the calls are. *)
Record observer_inv (m : gmap Z Z) (next : Z) (fs : list cursor_pc) (K : gset (Z * Z)) : Prop := {
  ob_known w o : (w, o) ∈ K ↔ m !! w = Some o ∨ Inserting w o ∈ fs;
  ob_next w o : (w, o) ∈ K → o < next;
  ob_once : NoDup (fs ≫= adds);
  ob_new w o : Inserting w o ∈ fs → m !! w = None
}.
Record cursor_inv (empty : Z → bool) (s : Controller) (h : list cursor_obs) : Prop := {
  ci_threads : NoDup (calls s).*1;
  ci_image : image_inv empty s ((calls s).*2 ≫= shows) (screen h);
  ci_observers : observer_inv (surface_observers s) (next_observer s) (calls s).*2 (observed_by h)
}.

Lemma screen_app h tr : screen (h ++ tr) = foldl screen_step (screen h) tr.
Proof. apply foldl_app. Qed.
Lemma observed_app h tr : observed_by (h ++ tr) = foldl observed_step (observed_by h) tr.
Proof. apply foldl_app. Qed.

#[export] Instance image_inv_perm empty s : Proper ((≡ₚ) ==> (=) ==> iff) (image_inv empty s).
Proof.
  assert (∀ l l' q, l ≡ₚ l' → image_inv empty s l q → image_inv empty s l' q) as H.
  { intros l l' q Hp [H1 H2 H3]. constructor; [by rewrite <- Hp|by setoid_rewrite <- Hp|].
    intros Ho ->. apply Permutation_nil_r in Hp. by apply H3. }
  intros l l' Hp q ? <-. split; by apply H.
Qed.
#[export] Instance observer_inv_perm m next : Proper ((≡ₚ) ==> (=) ==> iff) (observer_inv m next).
Proof.
  assert (∀ l l' q, l ≡ₚ l' → observer_inv m next l q → observer_inv m next l' q) as H.
  { intros l l' q Hp [H1 H2 H3 H4]. constructor; [by setoid_rewrite <- Hp|done|by rewrite <- Hp|by setoid_rewrite <- Hp]. }
  intros l l' Hp q ? <-. split; by apply H.
Qed.

(** *** The image *)
Section image.
Context (empty : Z → bool).

(** The section under the lock: what it leaves to show. *)
Definition left_to_show (ts : list Target) (s : Controller) : list (option Z) :=
  let image := wanted ts (cursor_location s) (default_cursor_image s) in
  if bool_decide (current_cursor s = image) then [] else [image].
Lemma image_update ts s s' l q :
  image_inv empty s l q → let image := wanted ts (cursor_location s) (default_cursor_image s) in
  current_cursor s' = image → default_cursor_image s' = default_cursor_image s →
  image_inv empty s' (left_to_show ts s ++ l) (foldl screen_step q (Changed <$> left_to_show ts s)).
Proof.
  intros [H1 H2 H3] image Hc Hd. unfold left_to_show. fold image. case_bool_decide as Hi; cbn [app fmap list_fmap foldl screen_step].
  - constructor; rewrite ?Hc, ?Hd, <- ?Hi; done.
  - constructor; cbn [to_show overtaken shown]; [by rewrite H1| |done].
    intros Ho i. apply bool_decide_eq_false, dec_stable in Ho. rewrite H1 in Ho. apply length_zero_iff_nil in Ho as ->.
    by intros ->%list_elem_of_singleton.
Qed.
Lemma image_same s s' l q :
  current_cursor s' = current_cursor s → default_cursor_image s' = default_cursor_image s → image_inv empty s l q → image_inv empty s' l q.
Proof. intros Hc Hd [H1 H2 H3]. constructor; by rewrite ?Hc, ?Hd. Qed.

Lemma show_current_run image s :
  show_current empty image s = Run (Ret tt) s [match looks_like empty image with Some i => Show i | None => Hide end].
Proof. unfold show_current, looks_like. destruct image as [i|]; [|done]. by destruct (empty i). Qed.
Lemma image_shown image s s' l q :
  image_inv empty s (image :: l) q → current_cursor s' = current_cursor s → default_cursor_image s' = default_cursor_image s →
  image_inv empty s' l (screen_step q (match looks_like empty image with Some i => Show i | None => Hide end)).
Proof.
  intros [H1 H2 H3] Hc Hd.
  assert (∀ v : option Z, screen_step q (match v with Some i => Show i | None => Hide end) =
    mkScreen (Some v) (pred (to_show q)) (overtaken q)) as -> by by intros [].
  constructor; cbn; rewrite ?Hc; [by rewrite H1| |].
  - intros Ho i Hi. apply H2; [done|by right].
  - intros Ho _. rewrite (H2 Ho image) by left. done.
Qed.
End image.

(** *** The observers *)
Lemma observers_move m next pc pcs r K :
  observer_inv m next (pc :: r) K → adds pc = [] → Forall (λ p, adds p = []) pcs → observer_inv m next (pcs ++ r) K.
Proof.
  intros [H1 H2 H3 H4] Hpc Hpcs.
  assert (∀ w o, Inserting w o ∈ pc :: r ↔ Inserting w o ∈ pcs ++ r) as Hin.
  { intros w o. rewrite elem_of_cons, elem_of_app. rewrite Forall_forall in Hpcs. split.
    - intros [<-|?]; [done|by right].
    - intros [Hp%Hpcs|?]; [done|by right]. }
  constructor; [intros w o; by rewrite <- Hin|done| |intros w o; rewrite <- Hin; apply H4].
  cbn in H3. rewrite Hpc in H3. rewrite bind_app. rewrite Forall_forall in Hpcs.
  assert (pcs ≫= adds = []) as ->; [|done]. clear - Hpcs. induction pcs as [|p pcs IH]; [done|]. cbn.
  rewrite (Hpcs p) by left. apply IH. intros x Hx. apply Hpcs. by right.
Qed.
Lemma observers_enter m next pc r K : observer_inv m next r K → adds pc = [] → observer_inv m next (pc :: r) K.
Proof.
  intros H Hpc. apply (observers_move _ _ ToUpdate [pc] r); [|done|by constructor].
  destruct H as [H1 H2 H3 H4]. constructor; [|done|done|].
  - intros w o. rewrite H1, elem_of_cons. split; [intros [?|?]; [by left|by right; right]|intros [?|[?|?]]; [by left|done|by right]].
  - intros w o [?|?]%elem_of_cons; [done|by eapply H4].
Qed.
Lemma observers_add m next w r K :
  observer_inv m next r K → m !! w = None → w ∉ r ≫= adds →
  observer_inv m (next + 1) (Inserting w next :: r) ({[(w, next)]} ∪ K).
Proof.
  intros [H1 H2 H3 H4] Hw Hr. constructor.
  - intros x o. rewrite elem_of_union, elem_of_singleton, H1, elem_of_cons. split.
    + intros [[= -> ->]|[?|?]]; [by right; left|by left|by right; right].
    + intros [?|[[= -> ->]|?]]; [by right; left|by left|by right; right].
  - intros x o [[= -> ->]%elem_of_singleton|?%H2]%elem_of_union; lia.
  - cbn. apply NoDup_cons. done.
  - intros x o [[= -> ->]|?]%elem_of_cons; [done|by eapply H4].
Qed.
Lemma observers_insert m next w o r K :
  observer_inv m next (Inserting w o :: r) K → observer_inv (<[w := o]> m) next r K.
Proof.
  intros [H1 H2 H3 H4]. cbn in H3. apply NoDup_cons in H3 as [Hw H3].
  assert (∀ o', Inserting w o' ∉ r) as Hno.
  { intros o' Hin. apply Hw. apply list_elem_of_bind. exists (Inserting w o'). by split; [left|]. }
  assert (m !! w = None) as Hmw by (apply (H4 w o); left).
  constructor; [|done|done|].
  - intros x o'. rewrite H1, elem_of_cons. destruct (decide (x = w)) as [->|Hne].
    + rewrite lookup_insert_eq, Hmw. split.
      * intros [?|[[= ->]|?]]; [done|by left|by right].
      * intros [[= ->]|?]; [by right; left|by right; right].
    + rewrite lookup_insert_ne by done. split; [intros [?|[[= ? ?]|?]]; [by left|done|by right]|intros [?|?]; [by left|by right; right]].
  - intros x o' Hin. rewrite lookup_insert_ne; [apply (H4 x o'); by right|]. intros ->. by eapply Hno.
Qed.
Lemma observers_remove m next w o r K :
  observer_inv m next r K → m !! w = Some o → observer_inv (delete w m) next r (K ∖ {[(w, o)]}).
Proof.
  intros [H1 H2 H3 H4] Hw. constructor; [| |done|].
  - intros x o'. rewrite elem_of_difference, elem_of_singleton, H1. destruct (decide (x = w)) as [->|Hne].
    + rewrite lookup_delete_eq, Hw. split.
      * intros [[[= ->]|Hin] Hno]; [by destruct Hno|by right].
      * intros [?|Hin]; [done|]. apply H4 in Hin. congruence.
    + rewrite lookup_delete_ne by done. split; [by intros [? _]|]. intros ?. split; [done|]. by intros [= ? ?].
  - intros x o' [? _]%elem_of_difference. by eapply H2.
  - intros x o' Hin. rewrite lookup_delete. destruct (decide (w = x)); [done|]. by eapply H4.
Qed.
Lemma observers_clear m next r K :
  observer_inv m next r K → (∀ w o, Inserting w o ∉ r) → observer_inv ∅ next r (K ∖ list_to_set (entries m)).
Proof.
  intros [H1 H2 H3 H4] Hno. constructor; [| |done|].
  - intros x o. rewrite elem_of_difference, elem_of_list_to_set, elem_of_entries, H1. split.
    + intros [[?|?] ?]; [done|by right].
    + intros [?%lookup_empty_Some|?%Hno]; done.
  - intros x o [? _]%elem_of_difference. by eapply H2.
  - intros x o ?%Hno. done.
Qed.

(** ** Every step keeps the invariants *)
Section steps.
Context (empty : Z → bool).
#[local] Abbreviation after r h := (cursor_inv empty (post (r : run Controller cursor_obs unit)) (h ++ trace (r : run Controller cursor_obs unit))).

Lemma cursor_enter_good t pc s s' h h' :
  cursor_inv empty s h → t ∉ (calls s).*1 → calls s' = (t, pc) :: calls s →
  image_inv empty s' (shows pc ++ ((calls s).*2 ≫= shows)) (screen h') →
  observer_inv (surface_observers s') (next_observer s') (pc :: (calls s).*2) (observed_by h') → cursor_inv empty s' h'.
Proof.
  intros Hinv Ht Hc H1 H2. constructor; rewrite Hc; [|done..]. apply NoDup_cons. split; [done|apply Hinv].
Qed.

(** A call that changed nothing and goes on to update the image. *)
Lemma to_update_good t s s' h :
  cursor_inv empty s h → t ∉ (calls s).*1 →
  (∃ f, s' = set_calls (calls s) f ∧ current_cursor f = current_cursor s ∧ default_cursor_image f = default_cursor_image s ∧
    surface_observers f = surface_observers s ∧ next_observer f = next_observer s) →
  after (enter t ToUpdate s') h.
Proof.
  intros Hinv Ht (f & -> & H1 & H2 & H3 & H4). cbn [enter pmodify post trace]. rewrite app_nil_r.
  eapply cursor_enter_good; [done..| |]; cbn.
  - eapply image_same; [..|apply Hinv]; done.
  - rewrite H3, H4. by apply observers_enter; [apply Hinv|].
Qed.

Lemma moved_good t ts p s h : cursor_inv empty s h → t ∉ (calls s).*1 → after (cursor_moved_to t ts p s) h.
Proof.
  intros Hinv Ht. unfold cursor_moved_to. rewrite pbind_modify. set (s1 := set_location p s).
  assert (image_inv empty s1 ((calls s).*2 ≫= shows) (screen h)) as Him by (eapply image_same; [..|apply Hinv]; done).
  pose proof (image_update empty ts s1) as Hup. unfold left_to_show in Hup.
  assert (∀ tr, (∀ x, x ∈ tr → ∃ i, x = Changed i) → foldl observed_step (observed_by h) tr = observed_by h) as Hobs.
  { intros tr Htr. induction tr as [|x tr IH]; [done|]. destruct (Htr x) as [i ->]; [left|]. cbn. apply IH. intros y Hy. apply Htr. by right. }
  pose proof (update_locked_run ts s1) as Hrun. cbv zeta in Hrun.
  case_bool_decide as Hi; (erewrite pbind_run; [|exact Hrun|reflexivity]); cbn [value post trace enter pmodify app];
    (eapply cursor_enter_good; [done..| |]; cbn).
  - rewrite app_nil_r. by eapply image_same; [..|exact Him].
  - rewrite app_nil_r. apply observers_enter; [apply Hinv|done].
  - rewrite screen_app. eapply (image_same _ (set_current_image (wanted ts p (default_cursor_image s)) s1)); [done..|].
    by apply (Hup _ _ _ Him).
  - rewrite observed_app, Hobs; [apply observers_enter; [apply Hinv|done]|].
    intros x ->%list_elem_of_singleton. by eexists.
Qed.

Lemma changed_good t o c s h : cursor_inv empty s h → t ∉ (calls s).*1 → after (surface_changed t o c s) h.
Proof.
  intros Hinv Ht. unfold surface_changed. rewrite pbind_get.
  assert (after (enter t ToUpdate s) h) as Hto by (apply to_update_good with s; [done..|by exists s; destruct s]).
  assert (after (pret tt s) h) as Hno by by rewrite app_nil_r.
  destruct c; try done. case_bool_decide; [done|]. rewrite pbind_modify.
  apply to_update_good with s; [done..|]. exists (set_first_frame o s). by destruct s.
Qed.

Lemma not_being_added s w : being_added s w = false → w ∉ (calls s).*2 ≫= adds.
Proof.
  unfold being_added. intros Hb (pc & Hpc & Hin)%list_elem_of_bind.
  apply list_elem_of_fmap in Hin as ([t pc'] & -> & Hin).
  assert (existsb (λ c, inserts w c.2) (calls s) = true) as Ht; [|congruence]. apply existsb_exists. exists (t, pc').
  split; [by apply list_elem_of_In|]. destruct pc'; try by apply elem_of_nil in Hpc.
  apply list_elem_of_singleton in Hpc as <-. cbn. by apply bool_decide_eq_true.
Qed.

Lemma added_good t w s h :
  cursor_inv empty s h → t ∉ (calls s).*1 → surface_observers s !! w = None → being_added s w = false →
  after (surface_added t w s) h.
Proof.
  intros Hinv Ht Hw Hb. unfold surface_added. rewrite pbind_get. cbn zeta. rewrite pbind_modify, pbind_emit.
  cbn [enter pmodify post trace]. eapply cursor_enter_good; [done..| |]; cbn.
  - rewrite screen_app. cbn. eapply image_same; [..|apply Hinv]; done.
  - rewrite observed_app. cbn. apply observers_add; [apply Hinv|done|by apply not_being_added].
Qed.

Lemma removed_good t w s h : cursor_inv empty s h → t ∉ (calls s).*1 → after (surface_removed t w s) h.
Proof.
  intros Hinv Ht. unfold surface_removed. rewrite pbind_get. destruct (surface_observers s !! w) as [o|] eqn:Hw.
  - rewrite pbind_assoc, pbind_emit, pbind_put. cbn [enter pmodify post trace]. eapply cursor_enter_good; [done..| |]; cbn.
    + rewrite screen_app. cbn. eapply image_same; [..|apply Hinv]; done.
    + rewrite observed_app. cbn. apply observers_enter; [|done]. apply observers_remove; [apply Hinv|done].
  - rewrite pbind_ret_l. apply to_update_good with s; [done..|]. exists s. by destruct s.
Qed.

Lemma end_observation_good s h :
  cursor_inv empty s h → (∀ w o, Inserting w o ∉ (calls s).*2) → after (end_observation s) h.
Proof.
  intros Hinv Hno. unfold end_observation. rewrite pbind_get.
  rewrite (pbind_run _ _ _ _ _ _ _ (pfor_emit (entries (surface_observers s)) (λ e, RemoveObserver e.1 e.2) s) eq_refl).
  cbn [post trace pmodify]. rewrite app_nil_r.
  assert (∀ (l : list (Z * Z)) q, foldl screen_step q ((λ e, RemoveObserver e.1 e.2) <$> l) = q) as Hsh.
  { intros l. induction l as [|e l IH]; intros q; [done|]. cbn. apply IH. }
  assert (∀ (l : list (Z * Z)) q, foldl observed_step q ((λ e, RemoveObserver e.1 e.2) <$> l) = q ∖ list_to_set l) as Hobs.
  { intros l. induction l as [|[w o] l IH]; intros q; [cbn; set_solver|]. cbn. rewrite IH. set_solver. }
  constructor; [apply Hinv|..]; rewrite ?screen_app, ?observed_app, ?Hsh, ?Hobs; cbn.
  - eapply image_same; [..|apply Hinv]; done.
  - apply observers_clear; [apply Hinv|done].
Qed.

(** *** A call goes on *)
Section turn.
Context (t : Z) (a b : list (Z * cursor_pc)) (pc : cursor_pc) (s : Controller) (h : list cursor_obs).
Context (Hcalls : calls s = a ++ (t, pc) :: b) (Hinv : cursor_inv empty s h).
Let r := (a ++ b).*2.

Lemma pcs_before : (calls s).*2 ≡ₚ pc :: r.
Proof. rewrite Hcalls. unfold r. rewrite !fmap_app. cbn. by rewrite Permutation_middle. Qed.
Lemma turn_image : image_inv empty s (shows pc ++ (r ≫= shows)) (screen h).
Proof. change (shows pc ++ (r ≫= shows)) with ((pc :: r) ≫= shows). rewrite <- pcs_before. apply Hinv. Qed.
Lemma turn_observers : observer_inv (surface_observers s) (next_observer s) (pc :: r) (observed_by h).
Proof. rewrite <- pcs_before. apply Hinv. Qed.

Lemma cursor_goto_good pc' s' h' : calls s' = a ++ (t, pc') :: b →
  image_inv empty s' (shows pc' ++ (r ≫= shows)) (screen h') →
  observer_inv (surface_observers s') (next_observer s') (pc' :: r) (observed_by h') → cursor_inv empty s' h'.
Proof.
  intros Hc H1 H2. assert ((calls s').*2 ≡ₚ pc' :: r) as Hp.
  { rewrite Hc. unfold r. rewrite !fmap_app. cbn. by rewrite Permutation_middle. }
  constructor; [|by rewrite Hp..]. rewrite Hc, (fst_middle a b t pc pc'), <- Hcalls. apply Hinv.
Qed.
Lemma cursor_finish_good s' h' : calls s' = a ++ b → image_inv empty s' (r ≫= shows) (screen h') →
  observer_inv (surface_observers s') (next_observer s') r (observed_by h') → cursor_inv empty s' h'.
Proof.
  intros Hc H1 H2. constructor; [|by rewrite Hc..]. rewrite Hc.
  pose proof (ci_threads _ _ _ Hinv) as Hnd. rewrite Hcalls, fmap_app in Hnd. cbn in Hnd. rewrite <- Permutation_middle in Hnd.
  apply NoDup_cons in Hnd as [_ Hnd]. by rewrite fmap_app.
Qed.
(** The observers are as they were. *)
Lemma observers_goto pc' K : adds pc = [] → adds pc' = [] → K = observed_by h →
  observer_inv (surface_observers s) (next_observer s) (pc' :: r) K.
Proof. intros H1 H2 ->. apply (observers_move _ _ pc [pc']); [apply turn_observers|done|by constructor]. Qed.
Lemma observers_finish K : adds pc = [] → K = observed_by h → observer_inv (surface_observers s) (next_observer s) r K.
Proof. intros H1 ->. apply (observers_move _ _ pc []); [apply turn_observers|done|by constructor]. Qed.
End turn.

Lemma cursor_turn_good t ts s h : cursor_inv empty s h → after (cursor_turn empty t ts s) h.
Proof.
  intros Hinv. unfold cursor_turn. rewrite pbind_get. destruct (split_at t (calls s)) as [[[a pc] b]|] eqn:Hsp; [|by rewrite app_nil_r].
  apply split_at_spec in Hsp. cbn zeta. pose proof (turn_image _ _ _ _ _ _ Hsp Hinv) as Him. destruct pc as [w o| |image move|p].
  - rewrite pbind_modify. cbn [pmodify post trace]. rewrite app_nil_r. eapply (cursor_goto_good t a b _ s h Hsp Hinv); [done|..]; cbn.
    + by eapply image_same; [..|exact Him].
    + apply observers_enter; [|done]. apply observers_insert. by eapply turn_observers.
  - pose proof (update_locked_run ts s) as Hrun. cbv zeta in Hrun. pose proof (image_update empty ts s) as Hup. unfold left_to_show in Hup.
    case_bool_decide as Hi; (erewrite pbind_run; [|exact Hrun|reflexivity]); cbn [value post trace pmodify app].
    + rewrite app_nil_r. eapply (cursor_finish_good t a b _ s h Hsp Hinv); [done|..]; cbn.
      * by eapply image_same; [..|exact Him].
      * by eapply (observers_finish t a b _ s h Hsp Hinv).
    + eapply (cursor_goto_good t a b _ s h Hsp Hinv); [done|..]; cbn.
      * rewrite screen_app. eapply (image_same _ (set_current_image (wanted ts (cursor_location s) (default_cursor_image s)) s)); [done..|].
        by apply (Hup _ _ _ Him).
      * eapply (observers_goto t a b _ s h Hsp Hinv); [done|done|]. by rewrite observed_app.
  - erewrite pbind_run; [|apply show_current_run|reflexivity]. cbn in Him.
    assert (observed_by (h ++ [match looks_like empty image with Some i => Show i | None => Hide end]) = observed_by h) as Hobs.
    { rewrite observed_app. by destruct (looks_like empty image). }
    destruct move as [p|]; cbn [value post trace pmodify]; rewrite app_nil_r.
    + eapply (cursor_goto_good t a b _ s h Hsp Hinv); [done|..]; cbn.
      * rewrite screen_app. by eapply image_shown.
      * by eapply (observers_goto t a b _ s h Hsp Hinv).
    + eapply (cursor_finish_good t a b _ s h Hsp Hinv); [done|..]; cbn.
      * rewrite screen_app. by eapply image_shown.
      * by eapply (observers_finish t a b _ s h Hsp Hinv).
  - rewrite pbind_emit. cbn [pmodify post trace]. eapply (cursor_finish_good t a b _ s h Hsp Hinv); [done|..]; cbn.
    + rewrite screen_app. by eapply image_same; [..|exact Him].
    + eapply (observers_finish t a b _ s h Hsp Hinv); [done|]. by rewrite observed_app.
Qed.

Lemma cursor_reachable s h : reachable (cursor_machine empty) s h → cursor_inv empty s h.
Proof.
  apply (reachable_invariant (cursor_machine empty)).
  - intros s0 [image ->]. constructor; cbn; [apply NoDup_nil_2|constructor; [done|by intros _ i ?%elem_of_nil|done]|]. constructor; [|by intros w o ?%elem_of_empty|apply NoDup_nil_2|by intros w o ?%elem_of_nil].
    intros w o. split; [by intros ?%elem_of_empty|]. intros [?%lookup_empty_Some|?%elem_of_nil]; done.
  - intros s0 h0 op _ Hinv Hop. cbn [m_exec m_allowed cursor_machine cursor_exec] in *.
    destruct op as [t ts p|t o c|t w|t w|t| |t ts]; cbn [cursor_allowed] in Hop; unfold free in Hop;
      rewrite ?andb_true_iff, ?negb_true_iff, ?bool_decide_eq_true in Hop; cbn [cursor_exec].
    + by apply moved_good. + destruct Hop. by apply changed_good.
    + destruct Hop as [[? ?] ?]. by apply added_good.
    + destruct Hop. by apply removed_good.
    + apply to_update_good with s0; [done..|]. exists s0. by destruct s0.
    + apply end_observation_good; [done|]. intros w o ([t pc] & Hpc & Hin)%list_elem_of_fmap. cbn in Hpc. subst pc.
      rewrite forallb_forall in Hop. apply list_elem_of_In in Hin. by specialize (Hop _ Hin).
    + by apply cursor_turn_good.
Qed.
End steps.

(** The section under the lock of a call: after it the current image is the
    wanted one. *)
Lemma locked_section empty s h t ts :
  cursor_inv empty s h → (t, ToUpdate) ∈ calls s →
  current_cursor (post (cursor_exec empty (OpStep t ts) s)) = wanted ts (cursor_location s) (default_cursor_image s).
Proof.
  intros Hinv Ht. cbn [cursor_exec]. unfold cursor_turn. rewrite pbind_get.
  destruct (split_at t (calls s)) as [[[a pc] b]|] eqn:Hsp.
  2: { apply split_at_None in Hsp. destruct Hsp. apply list_elem_of_fmap. by exists (t, ToUpdate). }
  apply split_at_spec in Hsp. assert (pc = ToUpdate) as ->.
  { eapply (unique_pc (calls s) t); [apply Hinv| |done]. rewrite Hsp. apply elem_of_app. right. left. }
  cbn zeta. pose proof (update_locked_run ts s) as Hrun. cbv zeta in Hrun.
  case_bool_decide as Hi; (erewrite pbind_run; [|exact Hrun|reflexivity]); done.
Qed.
Lemma moved_section empty s t ts p :
  let s' := post (cursor_exec empty (OpMoved t ts p) s) in
  cursor_location s' = p ∧ current_cursor s' = wanted ts p (default_cursor_image s).
Proof.
  cbn [cursor_exec]. unfold cursor_moved_to. rewrite pbind_modify.
  pose proof (update_locked_run ts (set_location p s)) as Hrun. cbv zeta in Hrun.
  case_bool_decide as Hi; (erewrite pbind_run; [|exact Hrun|reflexivity]); done.
Qed.

(** The calls that are to update the image: those of the scene, and of a surface
    where something changed that can matter. *)
Definition is_relevant (s : Controller) (op : cursor_op) : option Z :=
  match op with
  | OpSurfaceAdded t _ | OpSurfaceRemoved t _ | OpSceneChanged t => Some t
  | OpSurfaceChanged t o FramePosted => if bool_decide (o ∈ first_frame_posted s) then None else Some t
  | OpSurfaceChanged _ _ (AttribChanged | OrientationSet | CloseRequested) => None
  | OpSurfaceChanged t _ _ => Some t
  | _ => None
  end.
Definition will_update (pc : cursor_pc) : bool := match pc with Inserting _ _ | ToUpdate => true | _ => false end.
Lemma relevant_calls empty s op t :
  is_relevant s op = Some t → ∃ pc, (t, pc) ∈ calls (post (cursor_exec empty op s)) ∧ will_update pc = true.
Proof.
  assert (∀ s', ∃ pc, (t, pc) ∈ calls (post (enter t ToUpdate s')) ∧ will_update pc = true) as Hto.
  { intros s'. exists ToUpdate. by split; [left|]. }
  destruct op as [t' ts p|t' o c|t' w|t' w|t'| |t' ts]; cbn [is_relevant cursor_exec]; try done.
  - unfold surface_changed. rewrite pbind_get. destruct c; try done; try (intros [= ->]; apply Hto).
    case_bool_decide; [done|]. intros [= ->]. rewrite pbind_modify. apply Hto.
  - intros [= ->]. unfold surface_added. rewrite pbind_get. cbn zeta. rewrite pbind_modify, pbind_emit. eexists. by split; [left|].
  - intros [= ->]. unfold surface_removed. rewrite pbind_get. destruct (surface_observers s !! w) as [o|].
    + rewrite pbind_assoc, pbind_emit, pbind_put. apply Hto.
    + rewrite pbind_ret_l. apply Hto.
  - intros [= ->]. apply Hto.
Qed.

(** C34. The cursor shows the image of the topmost surface under it.  Whatever
    the threads do between the sections under the locks: the section of a move
    or an update makes the current image that of the topmost surface whose input
    area has the cursor, or the default; every call of the scene, and every change
    of a surface that can matter, has such a section to come; when no change of
    the image is left to show, and the last one did not come while another was,
    what is on the screen is the current image (before the first one, the current
    image is the default); and the scene's surfaces are observed, by the observers
    in the map and those about to be put into it. *)
Theorem cursor_shows_topmost empty s h :
  reachable (cursor_machine empty) s h →
  (∀ t ts p, let s' := post (cursor_exec empty (OpMoved t ts p) s) in
     cursor_location s' = p ∧ current_cursor s' = wanted ts p (default_cursor_image s)) ∧
  (∀ t ts, (t, ToUpdate) ∈ calls s →
     current_cursor (post (cursor_exec empty (OpStep t ts) s)) = wanted ts (cursor_location s) (default_cursor_image s)) ∧
  (∀ op t, is_relevant s op = Some t → ∃ pc, (t, pc) ∈ calls (post (cursor_exec empty op s)) ∧ will_update pc = true) ∧
  to_show (screen h) = length ((calls s).*2 ≫= shows) ∧
  (to_show (screen h) = 0%nat → overtaken (screen h) = false →
     match shown (screen h) with
     | Some i => i = looks_like empty (current_cursor s)
     | None => current_cursor s = default_cursor_image s
     end) ∧
  (∀ w o, (w, o) ∈ observed_by h ↔ surface_observers s !! w = Some o ∨ ∃ t, (t, Inserting w o) ∈ calls s).
Proof.
  intros Hinv%cursor_reachable. destruct (ci_image _ _ _ Hinv) as [H1 H2 H3]. split_and!.
  - intros t ts p. apply moved_section.
  - intros t ts. by apply locked_section with h.
  - apply relevant_calls.
  - done.
  - intros Hq Ho. apply H3; [done|]. apply length_zero_iff_nil. congruence.
  - intros w o. rewrite (ob_known _ _ _ _ (ci_observers _ _ _ Hinv)), list_elem_of_fmap.
    split; (intros [?|Hin]; [by left|right]).
    + destruct Hin as ([t pc] & Hpc & Hin). cbn in Hpc. subst. by exists t.
    + destruct Hin as [t Hin]. by exists (t, Inserting w o).
Qed.

(** *** Examples *)
Definition cursor_example_targets : list Target := [mkTarget (λ p, px p <? 50) (Some 1); mkTarget (λ p, px p <? 20) (Some 2)].
Definition cursor_example_ops : list cursor_op :=
  [OpSurfaceAdded 7 1; OpStep 7 []; OpStep 7 []; OpMoved 5 cursor_example_targets (Pt 30 0); OpStep 5 []; OpStep 5 []; OpSceneChanged 7].
Definition cursor_example_run := run_ops (cursor_machine (λ _, false)) cursor_example_ops (new_controller (Some 0)) [].
Definition cursor_example_state : Controller := (default (new_controller None, []) cursor_example_run).1.
Definition cursor_example_history : list cursor_obs := (default (new_controller None, []) cursor_example_run).2.
Lemma cursor_example_reachable : reachable (cursor_machine (λ _, false)) cursor_example_state cursor_example_history.
Proof.
  apply (run_ops_from_init (cursor_machine (λ _, false)) cursor_example_ops (new_controller (Some 0))); [by exists (Some 0)|]. vm_compute. reflexivity.
Qed.
Lemma cursor_shows_topmost_witness :
  shown (screen cursor_example_history) = Some (looks_like (λ _, false) (current_cursor cursor_example_state)) ∧
  current_cursor cursor_example_state = Some 1 ∧
  current_cursor (post (cursor_exec (λ _, false) (OpStep 7 (take 1 cursor_example_targets)) cursor_example_state)) = Some 1 ∧
  current_cursor (post (cursor_exec (λ _, false) (OpMoved 5 cursor_example_targets (Pt 60 0)) cursor_example_state)) = Some 0.
Proof.
  destruct (cursor_shows_topmost _ _ _ cursor_example_reachable) as (Hm & Hu & _ & _ & Hs & _).
  assert (shown (screen cursor_example_history) = Some (Some 1)) as Hsh by (vm_compute; reflexivity). rewrite Hsh in *.
  split; [|split; [vm_compute; reflexivity|split]].
  - apply (f_equal Some). apply Hs; vm_compute; reflexivity.
  - apply Hu. assert (calls cursor_example_state = [(7, ToUpdate)]) as -> by (vm_compute; reflexivity). left.
  - exact (proj2 (Hm 5 cursor_example_targets (Pt 60 0))).
Defined.

(** Two threads: the first has changed the image to that of the lower surface and
    released the lock, the second changes it to that of the upper one and shows
    it, then the first shows its own.  Nothing is under way any more, and the
    screen keeps the wrong image; updating again shows nothing. *)
Definition late_update_ops : list cursor_op :=
  [OpMoved 5 cursor_example_targets (Pt 30 0); OpMoved 7 cursor_example_targets (Pt 10 0); OpStep 7 []; OpStep 7 []; OpStep 5 [];
   OpStep 5 []; OpSceneChanged 7; OpStep 7 cursor_example_targets].
Lemma late_update_shows_old_image :
  ∃ s h, reachable (cursor_machine (λ _, false)) s h ∧ calls s = [] ∧
    shown (screen h) = Some (Some 1) ∧ current_cursor s = Some 2.
Proof.
  set (r := default (new_controller None, []) (run_ops (cursor_machine (λ _, false)) late_update_ops (new_controller (Some 0)) [])).
  exists r.1, r.2. split; [|by vm_compute].
  apply (run_ops_from_init (cursor_machine (λ _, false)) late_update_ops (new_controller (Some 0))); [by exists (Some 0)|]. vm_compute. reflexivity.
Qed.
