(* ===== verification/TouchspotController.v ===== *)
(** The touch spots drawn over the scene
    (src/server/input/touchspot_controller.cpp).

    A [TouchspotRenderable] is its index; all show the same buffer. *)

From S2P Require Import Prelude Geometry.

Record Touchspots := mkTouchspots {
  (** [touchspot_renderables]: their positions *)
  touchspot_renderables : list Point;
  enabled : bool;
  renderables_in_use : nat
}.
Inductive spot_obs :=
  | AddVisualization (i : nat)
  | RemoveVisualization (i : nat)
  | EmitSceneChanged.
#[local] Abbreviation M := (prog Touchspots spot_obs).

(** Half the size of the image, 64x64. *)
Definition half_spot : Displacement := Dp 32 32.
(** [TouchspotRenderable::move_center_to] *)
Definition move_center_to (i : nat) (p : Point) : M unit :=
  pmodify (λ s, mkTouchspots (<[i := point_move_back p half_spot]> (touchspot_renderables s)) (enabled s) (renderables_in_use s)).
(** [while (touchspot_renderables.size() < num_touches) ...] *)
Definition make_renderables (n : nat) : M unit :=
  pmodify (λ s, mkTouchspots (touchspot_renderables s ++ replicate (n - length (touchspot_renderables s)) (Pt 0 0)) (enabled s) (renderables_in_use s)).
Definition visualize_touches (touches : list Point) : M unit :=
  let* s := pget in
  let num_touches := if enabled s then length touches else O in
  do* make_renderables num_touches in
  do* pfor (imap pair (take num_touches touches)) (λ e,
        do* move_center_to e.1 e.2 in
        pwhen (bool_decide (renderables_in_use s ≤ e.1)%nat) (pemit (AddVisualization e.1))) in
  do* pfor (seq num_touches (renderables_in_use s - num_touches)) (λ i, pemit (RemoveVisualization i)) in
  do* pmodify (λ s, mkTouchspots (touchspot_renderables s) (enabled s) num_touches) in
  pwhen (bool_decide (0 < num_touches)%nat) (pemit EmitSceneChanged).
Definition set_enabled (b : bool) : M unit :=
  pmodify (λ s, mkTouchspots (touchspot_renderables s) b (renderables_in_use s)).

Inductive spot_op := OpVisualize (touches : list Point) | OpEnable | OpDisable.
Definition spot_exec (op : spot_op) : M unit :=
  match op with OpVisualize touches => visualize_touches touches | OpEnable => set_enabled true | OpDisable => set_enabled false end.
Definition spot_machine : machine :=
  Machine Touchspots spot_op spot_obs (λ s, s = mkTouchspots [] false O) (λ _ _ _, true) spot_exec.

(** The spots the scene shows. *)
Definition spot_step (q : list nat) (ob : spot_obs) : list nat :=
  match ob with AddVisualization i => q ++ [i] | RemoveVisualization i => filter (λ j, j ≠ i) q | _ => q end.
Definition visualized (h : list spot_obs) : list nat := foldl spot_step [] h.
Lemma visualized_app h tr : visualized (h ++ tr) = foldl spot_step (visualized h) tr.
Proof. apply foldl_app. Qed.

Definition spot_inv (s : Touchspots) (h : list spot_obs) : Prop :=
  visualized h = seq 0 (renderables_in_use s) ∧ (renderables_in_use s ≤ length (touchspot_renderables s))%nat.

(** The loop over the touches, from the [k]th on. *)
Lemma touches_loop used touches k s : (k + length touches ≤ length (touchspot_renderables s))%nat →
  pfor (imap (λ i p, (k + i, p)%nat) touches) (λ e,
      do* move_center_to e.1 e.2 in pwhen (bool_decide (used ≤ e.1)%nat) (pemit (AddVisualization e.1)) : M unit) s =
    Run (Ret tt)
      (mkTouchspots (take k (touchspot_renderables s) ++ ((λ p, point_move_back p half_spot) <$> touches) ++
                       drop (k + length touches) (touchspot_renderables s)) (enabled s) (renderables_in_use s))
      (AddVisualization <$> filter (λ i, (used ≤ i)%nat) (seq k (length touches))).
Proof.
  revert k s. induction touches as [|p touches IH]; intros k s Hk.
  - cbn. rewrite Nat.add_0_r, take_drop. by destruct s.
  - cbn [imap pfor length] in *. rewrite Nat.add_0_r. cbn [fst snd].
    set (s1 := mkTouchspots (<[k := point_move_back p half_spot]> (touchspot_renderables s)) (enabled s) (renderables_in_use s)).
    assert (((do* move_center_to k p in pwhen (bool_decide (used ≤ k)%nat) (pemit (AddVisualization k))) : M unit) s =
      Run (Ret tt) s1 (if bool_decide (used ≤ k)%nat then [AddVisualization k] else [])) as Hone.
    { unfold move_center_to. rewrite pbind_modify. by destruct (bool_decide _). }
    specialize (IH (S k) s1). cbn [s1 touchspot_renderables enabled renderables_in_use] in IH.
    assert (imap ((λ i p, (k + i, p)%nat) ∘ S) touches = imap (λ i p, (S k + i, p)%nat) touches) as Himap.
    { apply imap_ext. intros i x _. cbn. f_equal. lia. }
    rewrite Himap, (pbind_run _ _ _ _ _ _ _ Hone (IH ltac:(rewrite length_insert; lia))). cbn [value post trace]. f_equal.
    + f_equal. rewrite take_insert_lt, drop_insert_lt by lia. cbn [fmap list_fmap].
      rewrite (take_S_r _ _ (default (Pt 0 0) (touchspot_renderables s !! k))).
      2: { destruct (lookup_lt_is_Some_2 (touchspot_renderables s) k ltac:(lia)) as [x Hx]. by rewrite Hx. }
      rewrite insert_app_r_alt by (rewrite length_take; lia). rewrite length_take, Nat.min_l, Nat.sub_diag by lia. cbn.
      rewrite <- app_assoc. cbn. do 3 f_equal. f_equal. lia.
    + cbn [seq]. rewrite filter_cons. destruct (decide (used ≤ k)%nat); [rewrite bool_decide_true by done|rewrite bool_decide_false by done]; done.
Qed.

(** Everything [visualize_touches] does. *)
Lemma visualize_run touches s : 
  let n := if enabled s then length touches else O in
  let rs := touchspot_renderables s ++ replicate (n - length (touchspot_renderables s)) (Pt 0 0) in
  visualize_touches touches s =
    Run (Ret tt) (mkTouchspots (((λ p, point_move_back p half_spot) <$> take n touches) ++ drop n rs) (enabled s) n)
      ((AddVisualization <$> filter (λ i, (renderables_in_use s ≤ i)%nat) (seq 0 n)) ++
       (RemoveVisualization <$> seq n (renderables_in_use s - n)) ++ (if bool_decide (0 < n)%nat then [EmitSceneChanged] else [])).
Proof.
  cbv zeta. unfold visualize_touches. rewrite pbind_get. set (n := if enabled s then _ else _).
  assert (length (take n touches) = n) as Hn by (unfold n; rewrite length_take; destruct (enabled s); lia).
  unfold make_renderables. rewrite pbind_modify. set (rs := touchspot_renderables s ++ _).
  pose proof (touches_loop (renderables_in_use s) (take n touches) 0 (mkTouchspots rs (enabled s) (renderables_in_use s))) as Hloop.
  cbn [touchspot_renderables enabled renderables_in_use] in Hloop. rewrite Hn in Hloop.
  specialize (Hloop ltac:(unfold rs; rewrite length_app, length_replicate; lia)).
  rewrite (pbind_run _ _ _ _ _ _ _ Hloop eq_refl), (pbind_run _ _ _ _ _ _ _ (pfor_emit _ _ _) eq_refl), pbind_modify.
  cbn [value post trace]. by destruct (bool_decide _).
Qed.

Lemma spot_reachable s h : reachable spot_machine s h → spot_inv s h.
Proof.
  apply (reachable_invariant spot_machine).
  - by intros s0 ->.
  - clear s h. intros s h op _ [H1 H2] _. destruct op as [touches| |]; cbn [m_exec spot_machine spot_exec];
      [|by unfold spot_inv; cbn; rewrite app_nil_r..].
    rewrite visualize_run. cbv zeta. cbn [post trace]. set (n := if enabled s then _ else _). unfold spot_inv. cbn [touchspot_renderables renderables_in_use].
    split; [|rewrite length_app, length_fmap, length_take; unfold n; destruct (enabled s); cbn; lia].
    rewrite visualized_app, H1, !foldl_app. generalize (renderables_in_use s) as used. intros used.
    assert (∀ l q, foldl spot_step q (AddVisualization <$> l) = q ++ l) as Hadd.
    { intros l. induction l as [|i l IH]; intros q; cbn; [by rewrite app_nil_r|]. by rewrite IH, <- app_assoc. }
    assert (∀ l q, foldl spot_step q (RemoveVisualization <$> l) = filter (λ j, j ∉ l) q) as Hrem.
    { intros l. induction l as [|i l IH]; intros q; cbn; [rewrite (filter_all _ q); [done|by intros ? _ ?%elem_of_nil]|].
      rewrite IH, list_filter_filter. apply filter_ext_in. intros j _. rewrite not_elem_of_cons. tauto. }
    rewrite Hadd, Hrem. assert (∀ q, foldl spot_step q (if bool_decide (0 < n)%nat then [EmitSceneChanged] else []) = q) as -> by (intros q; by destruct (bool_decide _)).
    clearbody n. clear. destruct (decide (used ≤ n)%nat) as [Hle|Hgt].
    + assert (∃ d, n = used + d)%nat as [d ->] by (exists (n - used)%nat; lia).
      replace (used - (used + d))%nat with O by lia. cbn [seq]. rewrite (filter_all (λ j, j ∉ [])) by (intros; apply not_elem_of_nil).
      rewrite seq_app, filter_app, (filter_none _ (seq 0 used)), (filter_all _ (seq (0 + used) _)); [done|..].
      * intros i [? ?]%elem_of_seq. lia.
      * intros i [_ ?]%elem_of_seq. lia.
    + assert (∃ d, used = n + d)%nat as [d ->] by (exists (used - n)%nat; lia). replace (n + d - n)%nat with d by lia.
      rewrite (filter_none _ (seq 0 n)) by (intros i [_ ?]%elem_of_seq; lia). rewrite app_nil_r, seq_app, filter_app.
      rewrite (filter_all _ (seq 0 n)), (filter_none _ (seq (0 + n) _)); [by rewrite app_nil_r|..].
      * intros i [? ?]%elem_of_seq Hno. apply Hno, elem_of_seq. lia.
      * intros i [_ ?]%elem_of_seq [? _]%elem_of_seq. lia.
Qed.

(** The scene shows a spot per touch.  In every reachable state the scene
    shows the renderables in use, each added once; visualizing touches shows
    them, centred on the touches, or none while disabled, removes what is left
    over, and asks for a new frame exactly if some touch is shown. *)
Theorem spots_follow_touches s h touches : reachable spot_machine s h →
  visualized h = seq 0 (renderables_in_use s) ∧
  let r := visualize_touches touches s in let n := if enabled s then length touches else O in
  value r = Ret tt ∧ visualized (h ++ trace r) = seq 0 n ∧
  (∀ i p, touches !! i = Some p → (i < n)%nat → touchspot_renderables (post r) !! i = Some (point_move_back p half_spot)) ∧
  (EmitSceneChanged ∈ trace r ↔ (0 < n)%nat).
Proof.
  intros Hs. destruct (spot_reachable s h Hs) as [H1 H2]. split; [done|]. intros r n.
  assert (spot_inv (post r) (h ++ trace r)) as [H3 _].
  { apply spot_reachable. exact (reachable_step spot_machine s h (OpVisualize touches) Hs eq_refl). }
  unfold r in *. rewrite visualize_run in *. cbv zeta in *. fold n in H3 |- *. cbn [value post trace touchspot_renderables renderables_in_use] in *.
  split; [done|]. split; [done|]. split.
  - intros i p Hp Hi. rewrite lookup_app_l by (rewrite length_fmap, length_take; apply lookup_lt_Some in Hp; lia).
    rewrite list_lookup_fmap, lookup_take_lt by done. by rewrite Hp.
  - rewrite !elem_of_app. destruct (decide (0 < n)%nat) as [Hn|Hn]; [rewrite bool_decide_true by done|rewrite bool_decide_false by done].
    + split; [done|]. intros _. right. right. left.
    + split; [|done]. intros [Hin|[Hin|Hin%elem_of_nil]]; [..|done]; by apply list_elem_of_fmap in Hin as (? & ? & _).
Qed.

(** *** An example *)
Definition spot_example_ops : list spot_op := [OpEnable; OpVisualize [Pt 100 100; Pt 200 200; Pt 300 300]].
Definition spot_example_run := run_ops spot_machine spot_example_ops (mkTouchspots [] false O) [].
Definition spot_example_state : Touchspots := (default (mkTouchspots [] false O, []) spot_example_run).1.
Definition spot_example_history : list spot_obs := (default (mkTouchspots [] false O, []) spot_example_run).2.
Lemma spot_example_reachable : reachable spot_machine spot_example_state spot_example_history.
Proof. apply (run_ops_from_init spot_machine spot_example_ops (mkTouchspots [] false O)); [done|]. vm_compute. reflexivity. Qed.
Lemma spots_follow_touches_witness : renderables_in_use spot_example_state = 3%nat ∧
  visualized (spot_example_history ++ trace (visualize_touches [Pt 110 100] spot_example_state)) = [0%nat].
Proof.
  split; [vm_compute; reflexivity|].
  exact (proj1 (proj2 (proj2 (spots_follow_touches _ _ [Pt 110 100] spot_example_reachable)))).
Defined.
(** Disabled spots stay until the next touches are visualized. *)
Lemma disabled_spots_stay : trace (set_enabled false spot_example_state) = [] ∧ visualized spot_example_history = [0; 1; 2]%nat.
Proof. split; vm_compute; reflexivity. Qed.
