(* ===== verification/SystemCompositor.v ===== *)
(** The window manager of a system compositor
    (src/server/shell/system_compositor_window_manager.cpp,
    surface_ready_observer.cpp): every surface fills the output it asked for, and
    the last session to become ready has the focus.

    Surfaces, sessions and outputs are numbers.  The display layout is
    [DisplayConfig.place_in_output] of the current configuration; what the
    session builds and who follows in the focus are arguments. *)

From S2P Require Import Prelude Geometry DisplayConfig.

Record SystemCompositor := mkSystemCompositor {
  (** by surface *)
  output_map : gmap Z Z;
  (** the live surfaces: their session and where they are *)
  live : gmap Z (Z * Rectangle);
  (** the surfaces whose [SurfaceReadyObserver] is registered *)
  waiting : gset Z
}.
Inductive compositor_obs :=
  | Build (session surface : Z) (rect : Rectangle)
  | Rename (surface : Z) (name : string)
  | SurfaceMoveTo (surface : Z) (p : Point)
  | SurfaceResize (surface : Z) (s : Size)
  | DestroySurface (session surface : Z)
  | SetFocusTo (session : option Z) (surface : option Z).
#[local] Abbreviation M := (prog SystemCompositor compositor_obs).

Definition set_outputs (m : gmap Z Z) (s : SystemCompositor) : SystemCompositor := mkSystemCompositor m (live s) (waiting s).
Definition set_live (m : gmap Z (Z * Rectangle)) (s : SystemCompositor) : SystemCompositor := mkSystemCompositor (output_map s) m (waiting s).
Definition set_waiting (q : gset Z) (s : SystemCompositor) : SystemCompositor := mkSystemCompositor (output_map s) (live s) q.

(** [session->default_surface()]: its first. *)
Definition default_surface_of (s : SystemCompositor) (session : Z) : option Z :=
  head (filter (λ w, match live s !! w with Some (x, _) => bool_decide (x = session) | None => false end = true) (ascending (dom (live s)))).

(** The surface keeps a size of at least one by one ([BasicSurface.resize]). *)
Definition kept_size (sz : Size) : Size :=
  Sz (if width sz <=? 0 then 1 else width sz) (if height sz <=? 0 then 1 else height sz).
(** [surface->move_to(rect.top_left); surface->resize(rect.size)] *)
Definition put_surface (w : Z) (rect : Rectangle) : M unit :=
  do* pemit (SurfaceMoveTo w (top_left rect)) in
  do* pemit (SurfaceResize w (size rect)) in
  pmodify (λ s, set_live (alter (λ e, (e.1, Rect (top_left rect) (kept_size (size rect)))) w (live s)) s).
Definition place_surface (conf : DisplayConfiguration) (w output : Z) : M unit :=
  let* s := pget in
  match live s !! w with
  | Some (_, rect) => let '(found, rect') := place_in_output conf output rect in pwhen found (put_surface w rect')
  | None => pret tt
  end.

Section manager.
Context (conf : DisplayConfiguration).

(** [build]: the surface the session makes, if it can. *)
Definition add_surface (session output : Z) (params : Rectangle) (build : outcome Z) : M Z :=
  if output =? 0 then pthrow (runtime_error "An output ID must be specified")
  else
    let rect := (place_in_output conf output params).2 in
    let* w := plift build in
    do* pemit (Build session w rect) in
    do* pmodify (λ s, set_live (<[w := (session, rect)]> (live s)) s) in
    do* pmodify (λ s, set_waiting ({[w]} ∪ waiting s) s) in
    do* pmodify (λ s, set_outputs (<[w := output]> (output_map s)) s) in
    pret w.
Definition modify_surface (w : Z) (name : option string) (output : option Z) : M unit :=
  do* match name with Some n => pemit (Rename w n) | None => pret tt end in
  match output with
  | Some output =>
      do* place_surface conf w output in
      pmodify (λ s, set_outputs (<[w := output]> (output_map s)) s)
  | None => pret tt
  end.
Definition remove_surface (session w : Z) : M unit :=
  do* pemit (DestroySurface session w) in
  do* pmodify (λ s, set_waiting (waiting s ∖ {[w]}) (set_live (delete w (live s)) s)) in
  pmodify (λ s, set_outputs (delete w (output_map s)) s).
(** Whatever the area: every surface is placed again. *)
Definition add_display : M unit :=
  let* s := pget in
  pfor (entries (output_map s)) (λ e, place_surface conf e.1 e.2).
End manager.

(** A session ends with its surfaces; their entries stay until removed. *)
Definition remove_session (session : Z) (focused : option Z) (next_session : option Z) : M unit :=
  do* pmodify (λ s, let gone := filter (λ e, e.2.1 = session) (live s) in
         set_waiting (waiting s ∖ dom gone) (set_live (live s ∖ gone) s)) in
  if bool_decide (focused = Some session) then
    let* s := pget in
    match next_session with
    | Some n => pemit (SetFocusTo (Some n) (default_surface_of s n))
    | None => pemit (SetFocusTo None None)
    end
  else pret tt.
(** [SurfaceReadyObserver::frame_posted] *)
Definition frame_posted (w : Z) : M unit :=
  let* s := pget in
  match live s !! w with
  | Some (session, _) =>
      if bool_decide (w ∈ waiting s) then
        do* pemit (SetFocusTo (Some session) (default_surface_of s session)) in
        pput (set_waiting (waiting s ∖ {[w]}) s)
      else pret tt
  | None => pret tt
  end.

(** ** As a machine

    The configuration changes, and the display listener is told of each area of
    the new one. *)
Inductive compositor_op :=
  | OpAddSurface (conf : DisplayConfiguration) (session output : Z) (params : Rectangle) (build : outcome Z)
  | OpModifySurface (conf : DisplayConfiguration) (w : Z) (name : option string) (output : option Z)
  | OpRemoveSurface (session w : Z)
  | OpAddDisplay (conf : DisplayConfiguration)
  | OpRemoveSession (session : Z) (focused next : option Z)
  | OpFramePosted (w : Z).
Definition compositor_exec (op : compositor_op) : M unit :=
  match op with
  | OpAddSurface conf session output params build => do* add_surface conf session output params build in pret tt
  | OpModifySurface conf w name output => modify_surface conf w name output
  | OpRemoveSurface session w => remove_surface session w
  | OpAddDisplay conf => add_display conf
  | OpRemoveSession session focused next => remove_session session focused next
  | OpFramePosted w => frame_posted w
  end.
(** New surfaces are new, and only those that exist are modified. *)
Definition compositor_allowed (s : SystemCompositor) (_ : list compositor_obs) (op : compositor_op) : bool :=
  match op with
  | OpAddSurface _ _ _ _ (Ret w) => bool_decide (live s !! w = None ∧ output_map s !! w = None)
  | OpModifySurface _ w _ _ => bool_decide (is_Some (live s !! w))
  | _ => true
  end.
Definition system_compositor_machine : machine :=
  Machine SystemCompositor compositor_op compositor_obs (λ s, s = mkSystemCompositor ∅ ∅ ∅) compositor_allowed compositor_exec.

(** ** Properties *)

(** Where a surface on [output] belongs. *)
Definition placed (conf : DisplayConfiguration) (output : Z) (rect : Rectangle) : Rectangle :=
  let '(found, r) := place_in_output conf output rect in if found then Rect (top_left r) (kept_size (size r)) else rect.

Lemma place_surface_run conf w output s :
  ∃ tr, place_surface conf w output s =
    Run (Ret tt) (set_live (alter (λ e, (e.1, placed conf output e.2)) w (live s)) s) tr.
Proof.
  unfold place_surface, placed. rewrite pbind_get. destruct s as [om lv wt]. cbn [live].
  assert (∀ f : Z * Rectangle → Z * Rectangle, (∀ e, lv !! w = Some e → f e = e) → alter f w lv = lv) as Hsame.
  { intros f Hf. apply map_eq. intros x. destruct (decide (x = w)) as [->|]; [|by rewrite lookup_alter_ne].
    rewrite lookup_alter_eq. destruct (lv !! w) as [e|]; [|done]. cbn. by rewrite Hf. }
  destruct (lv !! w) as [[sess rect]|] eqn:Hw.
  - destruct (place_in_output conf output rect) as [found r] eqn:Hp. destruct found; cbn [pwhen].
    + unfold put_surface. rewrite pbind_emit, pbind_emit. eexists. cbn. f_equal. unfold set_live. cbn. f_equal.
      apply map_eq. intros x. destruct (decide (x = w)) as [->|]; [|by rewrite !lookup_alter_ne].
      rewrite !lookup_alter_eq, Hw. cbn. by rewrite Hp.
    + eexists. unfold set_live. cbn. rewrite Hsame; [done|]. intros e [= <-]. cbn. by rewrite Hp.
  - eexists. unfold set_live. cbn. rewrite Hsame; [done|]. intros e ?. congruence.
Qed.
(** Placing the surfaces of a list. *)
Lemma place_all conf l s : NoDup l.*1 →
  ∃ s' tr, pfor l (λ e, place_surface conf e.1 e.2) s = Run (Ret tt) s' tr ∧ output_map s' = output_map s ∧ waiting s' = waiting s ∧
    ∀ w, live s' !! w =
      match find_if (λ e, bool_decide (e.1 = w)) l with
      | Some (_, output) => (λ e, (e.1, placed conf output e.2)) <$> live s !! w
      | None => live s !! w
      end.
Proof.
  revert s. induction l as [|[x output] l IH]; intros s Hnd; [by exists s, []|].
  apply NoDup_cons in Hnd as [Hx Hnd]. destruct (place_surface_run conf x output s) as [tr Hrun].
  destruct (IH (set_live (alter (λ e, (e.1, placed conf output e.2)) x (live s)) s) Hnd) as (s' & tr' & Hrun' & Ho & Hq & Hl).
  exists s', (tr ++ tr'). cbn [pfor fst snd]. rewrite (pbind_run _ _ _ _ _ _ _ Hrun Hrun'). split; [done|]. split; [done|]. split; [done|].
  intros w. rewrite Hl, find_if_cons. cbn. destruct (decide (x = w)) as [->|Hne].
  - rewrite bool_decide_true, lookup_alter_eq by done.
    assert (find_if (λ e : Z * Z, bool_decide (e.1 = w)) l = None) as ->; [|done].
    apply find_if_None. intros [y o] Hin. apply bool_decide_eq_false. intros Hy. cbn in Hy. subst y. destruct Hx. apply list_elem_of_fmap. by exists (w, o).
  - by rewrite bool_decide_false, lookup_alter_ne.
Qed.

Record system_inv (s : SystemCompositor) : Prop := {
  y_outputs : dom (live s) ⊆ dom (output_map s);
  y_waiting : waiting s ⊆ dom (live s)
}.
Lemma system_inv_live s m : system_inv s → dom m = dom (live s) → system_inv (set_live m s).
Proof. intros [H1 H2] Hm. split; cbn; by rewrite Hm. Qed.

Lemma find_entry (m : gmap Z Z) w : find_if (λ e : Z * Z, bool_decide (e.1 = w)) (entries m) = (λ o, (w, o)) <$> m !! w.
Proof.
  destruct (m !! w) as [o|] eqn:Hm; cbn.
  - destruct (find_if _ (entries m)) as [[x o']|] eqn:Hf.
    + apply find_if_Some in Hf as [Hin Hx%bool_decide_eq_true]. cbn in Hx. subst x. apply elem_of_entries in Hin. congruence.
    + apply elem_of_entries in Hm. apply (proj1 (find_if_None _ _) Hf) in Hm. by apply bool_decide_eq_false in Hm.
  - apply find_if_None. intros [x o] Hin%elem_of_entries. apply bool_decide_eq_false. cbn. intros ->. congruence.
Qed.
Lemma add_display_run conf s :
  ∃ s' tr, add_display conf s = Run (Ret tt) s' tr ∧ output_map s' = output_map s ∧ waiting s' = waiting s ∧
    ∀ w, live s' !! w = match output_map s !! w with
      | Some output => (λ e, (e.1, placed conf output e.2)) <$> live s !! w | None => live s !! w end.
Proof.
  unfold add_display. rewrite pbind_get. destruct (place_all conf (entries (output_map s)) s) as (s' & tr & -> & Ho & Hq & Hl); [apply entries_keys_NoDup|].
  exists s', tr. split_and!; [done..|]. intros w. rewrite Hl, find_entry. by destruct (output_map s !! w).
Qed.
Lemma same_dom {A} (m m' : gmap Z A) : (∀ w, is_Some (m' !! w) ↔ is_Some (m !! w)) → dom m' = dom m.
Proof. intros Hm. apply set_eq. intros w. by rewrite !elem_of_dom. Qed.

Lemma system_compositor_reachable s h : reachable system_compositor_machine s h → system_inv s.
Proof.
  apply (reachable_invariant system_compositor_machine (λ s _, system_inv s)).
  - intros s0 ->. by split.
  - clear s h. intros s h op _ Hs Hop. cbn [m_exec system_compositor_machine m_allowed] in *. destruct (Hs) as [H1 H2].
    destruct op as [conf sess out params build|conf w name out|sess w|conf|sess focused next|w]; cbn [compositor_exec compositor_allowed] in *.
    + unfold add_surface. destruct (out =? 0); [done|]. destruct build as [w|e]; [|done].
      rewrite pbind_assoc, pbind_plift, pbind_assoc, pbind_emit, pbind_assoc, pbind_modify, pbind_assoc, pbind_modify, pbind_assoc, pbind_modify.
      cbn [post pret]. split; cbn; rewrite ?dom_insert_L; set_solver.
    + apply bool_decide_eq_true in Hop. unfold modify_surface.
      assert (∀ s', output_map s' = output_map s ∧ live s' = live s ∧ waiting s' = waiting s →
        system_inv (post (match out with Some output => do* place_surface conf w output in pmodify (λ s, set_outputs (<[w := output]> (output_map s)) s)
          | None => pret tt end s'))) as Hrest.
      { intros s' (E1 & E2 & E3). destruct out as [o|]; [|cbn; by split; rewrite ?E1, ?E2, ?E3].
        destruct (place_surface_run conf w o s') as [tr Hrun]. rewrite (pbind_run _ _ _ _ _ _ _ Hrun eq_refl). cbn.
        split; cbn; rewrite ?dom_insert_L, ?dom_alter_L, ?E1, ?E2, ?E3; set_solver. }
      destruct name; [rewrite pbind_emit|rewrite pbind_ret_l]; by apply Hrest.
    + unfold remove_surface. rewrite pbind_emit, pbind_modify. cbn. split; cbn; rewrite !dom_delete_L; set_solver.
    + destruct (add_display_run conf s) as (s' & tr & -> & Ho & Hq & Hl). cbn.
      assert (dom (live s') = dom (live s)) as Hd.
      { apply same_dom. intros w. rewrite Hl. destruct (output_map s !! w); [|done]. by rewrite fmap_is_Some. }
      split; by rewrite ?Ho, ?Hq, ?Hd.
    + unfold remove_session. rewrite pbind_modify.
      assert (system_inv (set_waiting (waiting s ∖ dom (filter (λ e, e.2.1 = sess) (live s))) (set_live (live s ∖ filter (λ e, e.2.1 = sess) (live s)) s))) as Hgone.
      { split; cbn; rewrite dom_difference_L; set_solver. }
      destruct (bool_decide _); [|done]. rewrite pbind_get. by destruct next.
    + unfold frame_posted. rewrite pbind_get. destruct (live s !! w) as [[sess r]|]; [|done]. destruct (bool_decide _); [|done].
      rewrite pbind_emit. cbn. split; cbn; set_solver.
Qed.

(** Two outputs never share an id. *)
Lemma place_in_output_spec conf o rect : NoDup (output_id <$> conf) → o ∈ conf → is_Some (mode_at o (current_mode_index o)) →
  place_in_output conf (output_id o) rect = (true, Rect (output_top_left o) (size (extents o))).
Proof.
  intros Hnd Hin Hm. unfold place_in_output. apply list_elem_of_split in Hin as (l1 & l2 & ->). rewrite foldl_app. cbn [foldl].
  rewrite (bool_decide_true (output_id o = output_id o)), (bool_decide_true (is_Some _)) by done. cbn [andb].
  generalize (true, Rect (output_top_left o) (size (extents o))) as acc. intros acc.
  rewrite fmap_app, fmap_cons in Hnd. apply NoDup_app in Hnd as (_ & _ & Hnd). apply NoDup_cons in Hnd as [Hno _].
  induction l2 as [|o' l2 IH]; [done|]. cbn [foldl]. rewrite fmap_cons, not_elem_of_cons in Hno. destruct Hno as [Hne Hno].
  rewrite (bool_decide_false (output_id o' = output_id o)) by congruence. by apply IH.
Qed.

(** Every surface fills its output.  In every reachable state each live
    surface has an output.  When the configuration has changed, placing the
    surfaces again puts every one whose output is in use exactly onto it, any
    other where the layout says, and leaves whom they belong to alone; moving a
    surface to another output puts it onto that.  A new surface is refused exactly without an
    output id, or if the session cannot make it. *)
Theorem surfaces_fill_outputs s h conf o w sess rect : reachable system_compositor_machine s h →
  NoDup (output_id <$> conf) → o ∈ conf → is_Some (mode_at o (current_mode_index o)) → live s !! w = Some (sess, rect) →
  let place := Rect (output_top_left o) (kept_size (size (extents o))) in
  is_Some (output_map s !! w) ∧
  (let s' := post (add_display conf s) in
    live s' !! w = Some (sess, if bool_decide (output_map s !! w = Some (output_id o)) then place else placed conf (default 0 (output_map s !! w)) rect) ∧
    output_map s' = output_map s) ∧
  (let s' := post (modify_surface conf w None (Some (output_id o)) s) in
    live s' !! w = Some (sess, place) ∧ output_map s' !! w = Some (output_id o)) ∧
  ∀ output params build, (∃ e, value (add_surface conf sess output params build s) = Throw e) ↔ output = 0 ∨ ∃ e, build = Throw e.
Proof.
  intros [H1 H2]%system_compositor_reachable Hnd Ho Hm Hw place.
  assert (placed conf (output_id o) rect = place) as Hplace by (unfold placed; by rewrite (place_in_output_spec conf o)).
  assert (is_Some (output_map s !! w)) as [out Hout].
  { apply elem_of_dom, H1, elem_of_dom. by eexists. }
  split; [by eexists|]. split; [|split].
  - destruct (add_display_run conf s) as (s' & tr & -> & Hom & _ & Hl). cbn [post]. split; [|done]. rewrite Hl, Hout, Hw. cbn.
    do 2 f_equal. case_bool_decide as Heq; [|done]. by injection Heq as ->.
  - unfold modify_surface. rewrite pbind_ret_l. destruct (place_surface_run conf w (output_id o) s) as [tr Hrun].
    rewrite (pbind_run _ _ _ _ _ _ _ Hrun eq_refl). cbn. rewrite lookup_alter_eq, lookup_insert_eq, Hw. cbn. by rewrite Hplace.
  - intros output params build. unfold add_surface. destruct (Z.eqb_spec output 0) as [->|Hne].
    + split; [by left|]. by eexists.
    + destruct build as [w'|e]; [|split; [intros _; right; by exists e|by eexists]].
      split; [by intros [e ?]|]. by intros [?|[e ?]].
Qed.

(** *** An example *)
Definition compositor_example_output (id x : Z) : DisplayConfigurationOutput :=
  mkOutput id [] [mkMode (Sz 800 600) 60] 0 true true (Pt x 0) 0 xrgb_8888 power_on orientation_normal.
Definition compositor_example_config (x : Z) : DisplayConfiguration := [compositor_example_output 1 0; compositor_example_output 2 x].
Definition compositor_example_ops : list compositor_op :=
  [ OpAddSurface (compositor_example_config 800) 5 2 (Rect (Pt 0 0) (Sz 10 10)) (Ret 7); OpFramePosted 7 ].
Definition compositor_example_run := run_ops system_compositor_machine compositor_example_ops (mkSystemCompositor ∅ ∅ ∅) [].
Definition compositor_example_state : SystemCompositor := (default (mkSystemCompositor ∅ ∅ ∅, []) compositor_example_run).1.
Definition compositor_example_history : list compositor_obs := (default (mkSystemCompositor ∅ ∅ ∅, []) compositor_example_run).2.
Lemma compositor_example_reachable : reachable system_compositor_machine compositor_example_state compositor_example_history.
Proof. apply (run_ops_from_init system_compositor_machine compositor_example_ops (mkSystemCompositor ∅ ∅ ∅)); [done|]. vm_compute. reflexivity. Qed.
Lemma surfaces_fill_outputs_witness :
  compositor_example_history = [Build 5 7 (Rect (Pt 800 0) (Sz 800 600)); SetFocusTo (Some 5) (Some 7)] ∧
  live (post (add_display (compositor_example_config 1600) compositor_example_state)) !! 7 = Some (5, Rect (Pt 1600 0) (Sz 800 600)).
Proof.
  split; [vm_compute; reflexivity|].
  refine (proj1 (proj1 (proj2 (surfaces_fill_outputs _ _ (compositor_example_config 1600) (compositor_example_output 2 1600) 7 5 (Rect (Pt 800 0) (Sz 800 600))
    compositor_example_reachable _ _ _ _)))).
  - apply (bool_decide_unpack (NoDup _)). vm_compute. exact I.
  - right. left.
  - by eexists.
  - vm_compute. reflexivity.
Defined.
(** A surface for an output that does not exist is made all the same. *)
Lemma unknown_output_is_accepted :
  value (add_surface (compositor_example_config 800) 5 9 (Rect (Pt 0 0) (Sz 10 10)) (Ret 8) compositor_example_state) = Ret 8.
Proof. vm_compute. reflexivity. Qed.
