(* ===== verification/Multiplexer.v ===== *)
(** Watching file descriptors from several threads
    (common/dispatch/multiplexing_dispatchable.cpp, utils.cpp).

    Dispatchables are numbers, with their descriptors and the events they want.
    The kernel keeps an entry per watched descriptor that points to an element of
    [dispatchee_holder] ([interest], read off the calls made); its answers come
    with each step and must fit that.  Between its critical sections and system
    calls a call is a [frame]; a thread's calls nest, as what is dispatched may
    call the multiplexer again.  The new element is a new address. *)

From S2P Require Import Prelude.

(** ** Events *)
Definition readable : Z := 1.
Definition writable : Z := 2.
Definition remote_closed : Z := 4.
Definition error_event : Z := 8.
Definition EPOLLIN : Z := 1.
Definition EPOLLOUT : Z := 4.
Definition EPOLLERR : Z := 8.
Definition EPOLLHUP : Z := 16.
Definition EPOLLRDHUP : Z := 8192.
Definition EPOLLONESHOT : Z := Z.shiftl 1 30.
Definition has (events mask : Z) : bool := negb (Z.land events mask =? 0).
Definition epoll_to_fd_event (events : Z) : Z :=
  Z.lor (if has events EPOLLIN then readable else 0)
    (Z.lor (if has events EPOLLOUT then writable else 0)
      (Z.lor (if has events (Z.lor EPOLLHUP EPOLLRDHUP) then remote_closed else 0)
        (if has events EPOLLERR then error_event else 0))).
Definition fd_event_to_epoll (event : Z) : Z :=
  Z.lor (if has event readable then EPOLLIN else 0)
    (Z.lor (if has event writable then EPOLLOUT else 0)
      (Z.lor (if has event remote_closed then Z.lor EPOLLRDHUP EPOLLHUP else 0)
        (if has event error_event then EPOLLERR else 0))).

Definition EEXIST : Z := 17.
Definition ENOENT : Z := 2.

(** ** Calls *)
Inductive frame :=
  (** [add_watch] before [epoll_ctl], and after it failed *)
  | AddCtl (h d : Z) (sequential : bool)
  | AddUndo (h d errno : Z)
  (** [remove_watch] before [epoll_ctl], and behind it *)
  | RemoveCtl (fd : Z)
  | RemoveErase (fd : Z)
  (** [dispatch] in [source->dispatch], and before it arms the descriptor again *)
  | InDispatch (h d : Z) (rearm_source : bool)
  | Rearm (h d : Z).
#[export] Instance frame_eq_dec : EqDecision frame.
Proof. solve_decision. Defined.

Record Multiplexer := mkMultiplexer {
  (** by address: the dispatchable and whether it is sequential *)
  dispatchee_holder : gmap Z (Z * bool);
  next_address : Z;
  (** the calls under way with their threads, a thread's innermost first *)
  frames : list (Z * frame)
}.
Inductive mux_obs :=
  | EpollAdd (fd h mask : Z)
  | EpollMod (fd h mask : Z)
  | EpollDel (fd : Z)
  | EpollReport (fd : Z)
  | Dispatched (t d events : Z)
  (** a call about a descriptor ends *)
  | CallEnd (t : Z) (fd : option Z) (r : outcome bool).
#[local] Abbreviation M := (prog Multiplexer mux_obs).

Definition set_holder (m : gmap Z (Z * bool)) (s : Multiplexer) : Multiplexer := mkMultiplexer m (next_address s) (frames s).
Definition set_frames (fs : list (Z * frame)) (s : Multiplexer) : Multiplexer := mkMultiplexer (dispatchee_holder s) (next_address s) fs.
Definition push_frame (t : Z) (f : frame) (s : Multiplexer) : Multiplexer := set_frames ((t, f) :: frames s) s.

Section multiplexer.
(** [Dispatchable::watch_fd] and [relevant_events] *)
Context (watch_fd relevant_events : Z → Z).

(** ** Beginning a call *)
Definition emplace_watch (t d : Z) (sequential : bool) : M unit :=
  pmodify (λ s, mkMultiplexer (<[next_address s := (d, sequential)]> (dispatchee_holder s)) (next_address s + 1)
                  ((t, AddCtl (next_address s) d sequential) :: frames s)).
Definition begin_remove (t fd : Z) : M unit := pmodify (push_frame t (RemoveCtl fd)).
(** What [epoll_wait] answers. *)
Inductive wait_answer := WaitFails | NothingReady | Ready (fd h events : Z).
(** [dispatch], to where it calls the source: [epoll_wait] and the reading of
    the element share one critical section. *)
Definition begin_dispatch (t events : Z) (answer : wait_answer) : M unit :=
  if has events error_event then pemit (CallEnd t None (Ret false))
  else
    match answer with
    | WaitFails => pemit (CallEnd t None (Throw (runtime_error "Failed to wait on fds")))
    | NothingReady => pemit (CallEnd t None (Ret true))
    | Ready fd h ready =>
        do* pemit (EpollReport fd) in
        let* s := pget in
        match (dispatchee_holder s !! h : option (Z * bool)) with
        | Some (source, rearm_source) =>
            do* pemit (Dispatched t source (epoll_to_fd_event ready)) in
            pput (push_frame t (InDispatch h source rearm_source) s)
        | None => pthrow (undefined_behaviour "freed element of dispatchee_holder")
        end
    end.

(** ** Going on *)
Inductive turn_answer := Success | Errno (e : Z) | Returns (r : outcome bool).
Definition add_mask (d : Z) (sequential : bool) : Z :=
  Z.lor (fd_event_to_epoll (relevant_events d)) (if sequential then EPOLLONESHOT else 0).
Definition monitor_error (e : Z) : exn :=
  if e =? EEXIST then logic_error "Attempted to monitor the same fd twice" else runtime_error "Failed to monitor fd".
Definition turn (t : Z) (answer : turn_answer) : M unit :=
  let* s := pget in
  match split_at t (frames s) with
  | None => pret tt
  | Some (before, f, behind) =>
      let goto (g : frame) : M unit := pmodify (set_frames (before ++ (t, g) :: behind)) in
      let leave (fd : Z) (r : outcome bool) : M unit :=
        do* pemit (CallEnd t (Some fd) r) in pmodify (set_frames (before ++ behind)) in
      match f, answer with
      | AddCtl h d sequential, Success =>
          do* pemit (EpollAdd (watch_fd d) h (add_mask d sequential)) in leave (watch_fd d) (Ret true)
      | AddCtl h d _, Errno e => goto (AddUndo h d e)
      | AddUndo h d e, _ =>
          if dispatchee_holder s !! h is Some _ then
            do* pmodify (set_holder (delete h (dispatchee_holder s))) in leave (watch_fd d) (Throw (monitor_error e))
          else pthrow (undefined_behaviour "freed element of dispatchee_holder")
      | RemoveCtl fd, Success => do* pemit (EpollDel fd) in goto (RemoveErase fd)
      | RemoveCtl fd, Errno e =>
          leave fd (if e =? ENOENT then Ret true else Throw (runtime_error "Failed to remove fd monitor"))
      | RemoveErase fd, _ =>
          do* pmodify (set_holder (filter (λ x, watch_fd x.2.1 ≠ fd) (dispatchee_holder s))) in leave fd (Ret true)
      | InDispatch h d rearm_source, Returns r =>
          match r with
          | Ret false => goto (RemoveCtl (watch_fd d))
          | Ret true => if rearm_source then goto (Rearm h d) else leave (watch_fd d) (Ret true)
          | Throw e => leave (watch_fd d) (Throw e)
          end
      | Rearm h d, Success =>
          do* pemit (EpollMod (watch_fd d) h (add_mask d true)) in leave (watch_fd d) (Ret true)
      | Rearm h d, Errno _ => leave (watch_fd d) (Ret true)
      | _, _ => pret tt
      end
  end.

(** ** The kernel

    By descriptor: the pointer, the events and whether they are reported. *)
Definition interest_step (m : gmap Z (Z * Z * bool)) (ob : mux_obs) : gmap Z (Z * Z * bool) :=
  match ob with
  | EpollAdd fd h mask | EpollMod fd h mask => <[fd := (h, mask, true)]> m
  | EpollDel fd => delete fd m
  | EpollReport fd => alter (λ e, if has e.1.2 EPOLLONESHOT then (e.1, false) else e) fd m
  | _ => m
  end.
Definition interest (h : list mux_obs) : gmap Z (Z * Z * bool) := foldl interest_step ∅ h.

(** ** As a machine *)
Inductive mux_op :=
  | OpAddWatch (t d : Z) (sequential : bool)
  | OpRemoveWatch (t fd : Z)
  | OpDispatch (t events : Z) (answer : wait_answer)
  | OpTurn (t : Z) (answer : turn_answer).
Definition mux_exec (op : mux_op) : M unit :=
  match op with
  | OpAddWatch t d sequential => emplace_watch t d sequential
  | OpRemoveWatch t fd => begin_remove t fd
  | OpDispatch t events answer => begin_dispatch t events answer
  | OpTurn t answer => turn t answer
  end.
(** The descriptor a call is about. *)
Definition about (f : frame) : Z :=
  match f with
  | AddCtl _ d _ | AddUndo _ d _ | InDispatch _ d _ | Rearm _ d => watch_fd d
  | RemoveCtl fd | RemoveErase fd => fd
  end.
Definition registered (h : list mux_obs) (fd : Z) : bool := bool_decide (is_Some (interest h !! fd)).
Definition call_fits (h : list mux_obs) (fd : Z) (refused : Z) (add : bool) (answer : turn_answer) : bool :=
  match answer with
  | Success => Bool.eqb (registered h fd) (negb add)
  | Errno e => if e =? refused then Bool.eqb (registered h fd) add else true
  | Returns _ => false
  end.
Definition fits (h : list mux_obs) (f : frame) (answer : turn_answer) : bool :=
  match f with
  | AddCtl _ d _ => call_fits h (watch_fd d) EEXIST true answer
  | RemoveCtl fd => call_fits h fd ENOENT false answer
  (** modifying a watched descriptor does not fail *)
  | Rearm _ d => match answer with Success => registered h (watch_fd d) | Errno _ => negb (registered h (watch_fd d)) | Returns _ => false end
  | InDispatch _ _ _ => if answer is Returns _ then true else false
  | AddUndo _ _ _ | RemoveErase _ => true
  end.
(** A thread may call when it is not in a call, or in what is dispatched. *)
Definition may_call (s : Multiplexer) (t : Z) : bool :=
  match split_at t (frames s) with None => true | Some (_, InDispatch _ _ _, _) => true | _ => false end.
(** A descriptor is added only when it is not watched and no call about it is
    under way, in any thread. *)
Definition may_add (s : Multiplexer) (fd : Z) : bool :=
  bool_decide (map_Forall (λ _ x, watch_fd x.1 ≠ fd) (dispatchee_holder s)) && bool_decide (Forall (λ x, about x.2 ≠ fd) (frames s)).
Definition mux_allowed (s : Multiplexer) (h : list mux_obs) (op : mux_op) : bool :=
  match op with
  | OpAddWatch t d _ => may_call s t && may_add s (watch_fd d)
  | OpRemoveWatch t _ => may_call s t
  | OpDispatch t _ answer =>
      may_call s t &&
      match answer with
      | Ready fd p _ => match interest h !! fd with Some (q, _, armed) => bool_decide (q = p) && armed | None => false end
      | _ => true
      end
  | OpTurn t answer => match split_at t (frames s) with Some (_, f, _) => fits h f answer | None => false end
  end.
Definition mux_machine : machine :=
  Machine Multiplexer mux_op mux_obs (λ s, s = mkMultiplexer ∅ 0 []) mux_allowed mux_exec.

(** ** The invariant *)

(** The calls, without their threads. *)
Definition adding (f : frame) : bool := match f with AddCtl _ _ _ | AddUndo _ _ _ => true | _ => false end.
Definition adds (fd : Z) (f : frame) : Prop := adding f = true ∧ about f = fd.
#[local] Instance adds_dec fd f : Decision (adds fd f).
Proof. apply _. Defined.
(** Dispatching a sequential source, until it is armed again. *)
Definition serving (f : frame) : bool := match f with InDispatch _ _ true | Rearm _ _ => true | _ => false end.
Definition serves (fd : Z) (f : frame) : Prop := serving f = true ∧ about f = fd.
#[local] Instance serves_dec fd f : Decision (serves fd f).
Proof. apply _. Defined.
(** The call will remove the element [h] of [d], or have it watched. *)
Definition owns (h d : Z) (f : frame) : Prop :=
  match f with
  | AddCtl h' d' _ | AddUndo h' d' _ => h' = h ∧ d' = d
  | RemoveErase fd => fd = watch_fd d
  | _ => False
  end.
(** The call will arm the descriptor or remove it. *)
Definition returning (fd : Z) (f : frame) : Prop :=
  match f with InDispatch _ d true | Rearm _ d => watch_fd d = fd | RemoveCtl fd' => fd' = fd | _ => False end.
(** What a single call may rely on. *)
Definition frame_ok (hs : gmap Z (Z * bool)) (m : gmap Z (Z * Z * bool)) (f : frame) : Prop :=
  match f with
  | AddCtl h d q => hs !! h = Some (d, q) ∧ m !! watch_fd d = None
  | AddUndo h d _ => (∃ q, hs !! h = Some (d, q)) ∧ m !! watch_fd d = None
  | RemoveErase fd => m !! fd = None
  | InDispatch h d true | Rearm h d =>
      ∀ p mask armed, m !! watch_fd d = Some (p, mask, armed) → p = h ∧ has mask EPOLLONESHOT = true ∧ armed = false
  | _ => True
  end.

Record mux_inv (hs : gmap Z (Z * bool)) (next : Z) (fs : list frame) (m : gmap Z (Z * Z * bool)) (bad : gset Z) : Prop := {
  (** every pointer of the kernel is good *)
  x_live : ∀ fd h mask armed, m !! fd = Some (h, mask, armed) → ∃ d, hs !! h = Some (d, has mask EPOLLONESHOT) ∧ watch_fd d = fd;
  x_next : ∀ h x, hs !! h = Some x → h < next;
  x_inj : ∀ h1 h2 x1 x2, hs !! h1 = Some x1 → hs !! h2 = Some x2 → watch_fd x1.1 = watch_fd x2.1 → h1 = h2;
  x_own : ∀ h d q, hs !! h = Some (d, q) → (∃ mask armed, m !! watch_fd d = Some (h, mask, armed)) ∨ ∃ f, f ∈ fs ∧ owns h d f;
  x_frames : ∀ f, f ∈ fs → frame_ok hs m f;
  (** while a descriptor is added, other calls about it only try to remove it *)
  x_adding : ∀ f g, f ∈ fs → g ∈ fs → adding f = true → about g = about f → adding g = true ∨ ∃ fd, g = RemoveCtl fd;
  x_adds : ∀ fd, (length (filter (adds fd) fs) ≤ 1)%nat;
  x_serves : ∀ fd, (length (filter (serves fd) fs) ≤ 1)%nat;
  x_armed : ∀ fd h mask, m !! fd = Some (h, mask, false) → has mask EPOLLONESHOT = true ∧ (fd ∈ bad ∨ ∃ f, f ∈ fs ∧ returning fd f)
}.

(** Descriptors whose calls ended by an exception. *)
Definition bad_step (q : gset Z) (ob : mux_obs) : gset Z :=
  match ob with CallEnd _ (Some fd) (Throw _) => {[fd]} ∪ q | _ => q end.
Definition ended_badly (h : list mux_obs) : gset Z := foldl bad_step ∅ h.
Definition mux_inv' (s : Multiplexer) (h : list mux_obs) : Prop :=
  mux_inv (dispatchee_holder s) (next_address s) (frames s).*2 (interest h) (ended_badly h).

Lemma interest_app h tr : interest (h ++ tr) = foldl interest_step (interest h) tr.
Proof. apply foldl_app. Qed.
Lemma ended_badly_app h tr : ended_badly (h ++ tr) = foldl bad_step (ended_badly h) tr.
Proof. apply foldl_app. Qed.

Lemma oneshot_events e : has (fd_event_to_epoll e) EPOLLONESHOT = false.
Proof. unfold fd_event_to_epoll. by destruct (has e readable), (has e writable), (has e remote_closed), (has e error_event). Qed.
Lemma add_mask_oneshot d q : has (add_mask d q) EPOLLONESHOT = q.
Proof.
  unfold add_mask, fd_event_to_epoll.
  by destruct (has _ readable), (has _ writable), (has _ remote_closed), (has _ error_event), q.
Qed.

(** *** Rules about the calls *)
Lemma inv_perm hs n fs fs' m bad : fs ≡ₚ fs' → mux_inv hs n fs m bad → mux_inv hs n fs' m bad.
Proof.
  intros Hp [H1 H2 H3 H4 H5 H6 H7 H8 H9].
  split; try done; try (by intros ?; rewrite <- Hp); intros *; repeat setoid_rewrite <- Hp; eauto.
Qed.
Lemma filter_le_cons (P : frame → Prop) `{∀ x, Decision (P x)} f fs : (length (filter P fs) ≤ length (filter P (f :: fs)))%nat.
Proof. rewrite filter_cons. destruct (decide _); cbn; lia. Qed.
(** A call ends whose work is done. *)
Lemma inv_drop hs n f fs m bad : mux_inv hs n (f :: fs) m bad →
  (∀ h d q, owns h d f → hs !! h = Some (d, q) → ∃ mask armed, m !! watch_fd d = Some (h, mask, armed)) →
  (∀ fd h mask, returning fd f → m !! fd = Some (h, mask, false) → fd ∈ bad) →
  mux_inv hs n fs m bad.
Proof.
  intros [H1 H2 H3 H4 H5 H6 H7 H8 H9] Hown Hret. split; try done.
  - intros h d q Hh. destruct (H4 h d q Hh) as [?|(g & [->|Hg]%elem_of_cons & Ho)]; [by left|left; by eapply Hown|right; by exists g].
  - intros g Hg. apply H5. by right.
  - intros g g' Hg Hg'. apply H6; by right.
  - intros fd. eapply Nat.le_trans; [apply filter_le_cons|apply H7].
  - intros fd. eapply Nat.le_trans; [apply filter_le_cons|apply H8].
  - intros fd h mask Hfd. destruct (H9 fd h mask Hfd) as [Hos [?|(g & [->|Hg]%elem_of_cons & Hg')]]; (split; [done|]); [by left|left; by eapply Hret|right; by exists g].
Qed.
(** A call begins. *)
Lemma inv_push hs n f fs m bad : mux_inv hs n fs m bad → frame_ok hs m f →
  (∀ g, g ∈ fs → about g = about f → adding f = false ∧ (adding g = true → ∃ fd, f = RemoveCtl fd)) →
  (serving f = true → ∀ g, g ∈ fs → ¬ serves (about f) g) → mux_inv hs n (f :: fs) m bad.
Proof.
  intros [H1 H2 H3 H4 H5 H6 H7 H8 H9] Hf Hadd Hserve. split; try done.
  - intros h d q Hh. destruct (H4 h d q Hh) as [?|(g & Hg & Ho)]; [by left|right; exists g; split; [by right|done]].
  - intros g [->|Hg]%elem_of_cons; [done|by apply H5].
  - intros g g' [->|Hg]%elem_of_cons [->|Hg']%elem_of_cons Ha Hab.
    + by left.
    + destruct (Hadd g' Hg' Hab). congruence.
    + right. by destruct (Hadd g Hg (eq_sym Hab)) as [_ Hx]; apply Hx.
    + by apply (H6 g).
  - intros fd. rewrite filter_cons. destruct (decide (adds fd f)) as [[Ha <-]|]; [|done].
    assert (filter (adds (about f)) fs = []) as ->; [|done]. apply filter_none. intros g Hg [_ Hab].
    destruct (Hadd g Hg Hab). congruence.
  - intros fd. rewrite filter_cons. destruct (decide (serves fd f)) as [[Ha <-]|]; [|done].
    assert (filter (serves (about f)) fs = []) as ->; [|done]. apply filter_none. by apply Hserve.
  - intros fd h mask Hfd. destruct (H9 fd h mask Hfd) as [Hos [?|(g & Hg & Hg')]]; (split; [done|]); [by left|right].
    exists g. split; [by right|done].
Qed.
(** More exceptions. *)
Lemma inv_bad hs n fs m bad bad' : bad ⊆ bad' → mux_inv hs n fs m bad → mux_inv hs n fs m bad'.
Proof.
  intros Hb [H1 H2 H3 H4 H5 H6 H7 H8 H9]. split; try done. intros fd h mask Hfd.
  destruct (H9 fd h mask Hfd) as [Hos [?|?]]; split; try done; [left; set_solver|by right].
Qed.
(** A call goes on; nothing else changes. *)
Lemma inv_swap hs n f g fs m bad : mux_inv hs n (f :: fs) m bad → frame_ok hs m g → about g = about f →
  (∀ h d, owns h d f → owns h d g) → (∀ fd, returning fd f → returning fd g) →
  (adding g = true → adding f = true) → (serving g = true → serving f = true) →
  (adding f = true ∨ (∃ fd, f = RemoveCtl fd) → adding g = true ∨ ∃ fd, g = RemoveCtl fd) → mux_inv hs n (g :: fs) m bad.
Proof.
  intros [H1 H2 H3 H4 H5 H6 H7 H8 H9] Hok Hab Hown Hret Hadd Hserve Hkind.
  assert (∀ P : frame → Prop, (P f → P g) → (∃ x, x ∈ f :: fs ∧ P x) → ∃ x, x ∈ g :: fs ∧ P x) as Hex.
  { intros P HP (x & [->|Hx]%elem_of_cons & Hpx); [exists g; split; [left|by apply HP]|exists x; split; [by right|done]]. }
  split; try done.
  - intros h d q Hh. destruct (H4 h d q Hh) as [?|Hx]; [by left|right]. eapply Hex; [apply Hown|done].
  - intros x [->|Hx]%elem_of_cons; [done|]. apply H5. by right.
  - intros x y [->|Hx]%elem_of_cons [->|Hy]%elem_of_cons Hxa Hxy.
    + by left.
    + apply (H6 f); [left|by right|by apply Hadd|by rewrite Hxy].
    + apply Hkind. apply (H6 x); [by right|left|done|by rewrite <- Hab].
    + apply (H6 x); [by right|by right|done|done].
  - intros fd. specialize (H7 fd). rewrite filter_cons in *. destruct (decide (adds fd g)) as [[Hg Hgf]|].
    + rewrite decide_True in H7 by (split; [by apply Hadd|by rewrite <- Hab]). done.
    + destruct (decide _); cbn in *; lia.
  - intros fd. specialize (H8 fd). rewrite filter_cons in *. destruct (decide (serves fd g)) as [[Hg Hgf]|].
    + rewrite decide_True in H8 by (split; [by apply Hserve|by rewrite <- Hab]). done.
    + destruct (decide _); cbn in *; lia.
  - intros fd h mask Hfd. destruct (H9 fd h mask Hfd) as [Hos [?|Hx]]; (split; [done|]); [by left|right]. eapply Hex; [apply Hret|done].
Qed.
(** Two calls that count are one. *)
Lemma at_most_one (P : frame → Prop) `{∀ x, Decision (P x)} f fs g : (length (filter P (f :: fs)) ≤ 1)%nat → P f → g ∈ fs → ¬ P g.
Proof.
  intros Hl Hf Hg Hpg. rewrite filter_cons, decide_True in Hl by done. cbn in Hl.
  assert (g ∈ filter P fs) as Hin by by apply list_elem_of_filter. destruct (filter P fs); [by apply elem_of_nil in Hin|cbn in Hl; lia].
Qed.

(** A call ends that has armed its descriptor. *)
Lemma inv_arm hs n f fs m bad h d mask : mux_inv hs n (f :: fs) m bad →
  hs !! h = Some (d, has mask EPOLLONESHOT) → about f = watch_fd d → (∀ h' d', owns h' d' f → h' = h) →
  (∀ g, g ∈ fs → about g = watch_fd d → match g with RemoveCtl _ | InDispatch _ _ false => True | _ => False end) →
  mux_inv hs n fs (<[watch_fd d := (h, mask, true)]> m) bad.
Proof.
  intros [H1 H2 H3 H4 H5 H6 H7 H8 H9] Hh Hab Hown Hg. split; try done.
  - intros fd p k armed. destruct (decide (fd = watch_fd d)) as [->|Hne].
    + rewrite lookup_insert_eq. intros [= <- <- <-]. by exists d.
    + rewrite lookup_insert_ne by done. apply H1.
  - intros p d' q Hp. destruct (decide (watch_fd d' = watch_fd d)) as [Heq|Hne].
    + left. rewrite Heq, lookup_insert_eq. rewrite (H3 p h _ _ Hp Hh Heq). by do 2 eexists.
    + destruct (H4 p d' q Hp) as [(k & a & Hk)|(g & [->|Hin]%elem_of_cons & Ho)].
      * left. rewrite lookup_insert_ne by done. by do 2 eexists.
      * apply Hown in Ho as ->. rewrite Hh in Hp. by injection Hp as <- _.
      * right. by exists g.
  - intros g Hin. pose proof (H5 g ltac:(by right)) as Hok. destruct (decide (about g = watch_fd d)) as [Heq|Hne].
    { specialize (Hg g Hin Heq). destruct g as [| | | |? ? []|]; done. }
    destruct g as [| | | |? ? []|]; cbn in *; try done; rewrite ?lookup_insert_ne by done; done.
  - intros g g' Hin Hin'. apply H6; by right.
  - intros fd. eapply Nat.le_trans; [apply filter_le_cons|apply H7].
  - intros fd. eapply Nat.le_trans; [apply filter_le_cons|apply H8].
  - intros fd p k. destruct (decide (fd = watch_fd d)) as [->|Hne]; [by rewrite lookup_insert_eq|]. rewrite lookup_insert_ne by done.
    intros Hfd. destruct (H9 fd p k Hfd) as [Hos [?|(g & [->|Hin]%elem_of_cons & Hr)]]; (split; [done|]); [by left| |right; by exists g].
    destruct Hne. destruct f as [| | | |? ? []|]; cbn in *; try done; congruence.
Qed.

(** *** The steps *)
Lemma inv_emplace hs n fs m bad d q : mux_inv hs n fs m bad →
  (∀ h x, hs !! h = Some x → watch_fd x.1 ≠ watch_fd d) → (∀ f, f ∈ fs → about f ≠ watch_fd d) →
  mux_inv (<[n := (d, q)]> hs) (n + 1) (AddCtl n d q :: fs) m bad.
Proof.
  intros [H1 H2 H3 H4 H5 H6 H7 H8 H9] Hno Hfs.
  assert (hs !! n = None) as Hn. { destruct (hs !! n) as [x|] eqn:Hx; [|done]. apply H2 in Hx. lia. }
  assert (m !! watch_fd d = None) as Hm.
  { destruct (m !! watch_fd d) as [[[p k] a]|] eqn:Hx; [|done]. destruct (H1 _ _ _ _ Hx) as (d' & Hp & Hd). by destruct (Hno _ _ Hp). }
  assert (∀ h, hs !! h ≠ None → <[n := (d, q)]> hs !! h = hs !! h) as Hold.
  { intros h Hh. rewrite lookup_insert_ne; [done|]. intros <-. done. }
  split.
  - intros fd h k a Hfd. destruct (H1 _ _ _ _ Hfd) as (d' & Hp & Hd). exists d'. split; [|done]. by rewrite Hold; rewrite Hp.
  - intros h x. destruct (decide (h = n)) as [->|]; [lia|]. rewrite lookup_insert_ne by done. intros ?%H2. lia.
  - intros h1 h2 x1 x2. destruct (decide (h1 = n)) as [->|], (decide (h2 = n)) as [->|]; rewrite ?lookup_insert_eq, ?lookup_insert_ne by done; try done.
    + intros [= <-] Hx Heq. by destruct (Hno _ _ Hx).
    + intros Hx [= <-] Heq. by destruct (Hno _ _ Hx).
    + apply H3.
  - intros h d' q'. destruct (decide (h = n)) as [->|].
    + rewrite lookup_insert_eq. intros [= <- <-]. right. exists (AddCtl n d q). split; [left|done].
    + rewrite lookup_insert_ne by done. intros Hh. destruct (H4 h d' q' Hh) as [?|(f & Hf & Ho)]; [by left|right]. exists f. split; [by right|done].
  - intros f [->|Hf]%elem_of_cons; [by cbn; rewrite lookup_insert_eq|]. pose proof (H5 f Hf) as Hok.
    destruct f as [h d' q'|h d' e| | | |]; cbn in *; try done.
    + destruct Hok as [Hh ?]. split; [|done]. by rewrite Hold; rewrite Hh.
    + destruct Hok as [[q' Hh] ?]. split; [|done]. exists q'. by rewrite Hold; rewrite Hh.
  - intros f g [->|Hf]%elem_of_cons [->|Hg]%elem_of_cons Ha Hab; [by left|by destruct (Hfs g Hg)|by destruct (Hfs f Hf)|by apply (H6 f)].
  - intros fd. rewrite filter_cons. destruct (decide (adds fd _)) as [[_ <-]|]; [|done].
    rewrite filter_none; [done|]. intros g Hg [_ Hab]. by destruct (Hfs g Hg).
  - intros fd. rewrite filter_cons, decide_False; [done|]. by intros [? _].
  - intros fd h k Hfd. destruct (H9 fd h k Hfd) as [Hos [?|(f & Hf & Hr)]]; (split; [done|]); [by left|right]. exists f. split; [by right|done].
Qed.
Lemma inv_report hs n fs m bad fd h mask d q : mux_inv hs n fs m bad → m !! fd = Some (h, mask, true) → hs !! h = Some (d, q) →
  mux_inv hs n (InDispatch h d q :: fs) (alter (λ e, if has e.1.2 EPOLLONESHOT then (e.1, false) else e) fd m) bad.
Proof.
  intros [H1 H2 H3 H4 H5 H6 H7 H8 H9] Hfd Hh.
  destruct (H1 _ _ _ _ Hfd) as (d' & Hp & Hd). rewrite Hh in Hp. injection Hp as <- ->.
  set (m' := alter _ fd m).
  assert (∀ p, (∃ k a, m' !! fd = Some (p, k, a)) ↔ p = h) as Hp.
  { intros p. unfold m'. rewrite lookup_alter_eq, Hfd. cbn. destruct (has mask EPOLLONESHOT); (split; [by intros (? & ? & [= -> _ _])|intros ->; by do 2 eexists]). }
  assert (∀ x p k a, m' !! x = Some (p, k, a) → ∃ a', m !! x = Some (p, k, a')) as Hm'.
  { intros x p k a. unfold m'. destruct (decide (x = fd)) as [->|Hne].
    - rewrite lookup_alter_eq, Hfd. cbn. destruct (has mask _); intros [= <- <- <-]; by eexists.
    - rewrite lookup_alter_ne by done. intros ->. by eexists. }
  assert (∀ x, m !! x = None → m' !! x = None) as Hnone.
  { intros x Hx. unfold m'. destruct (decide (x = fd)) as [->|Hne]; [congruence|]. by rewrite lookup_alter_ne. }
  assert (∀ x, x ≠ fd → m' !! x = m !! x) as Hsame by (intros x ?; unfold m'; by rewrite lookup_alter_ne).
  assert (∀ g, g ∈ fs → serves fd g → False) as Hns.
  { intros g Hg [Hs Hab]. pose proof (H5 g Hg) as Hok. rewrite <- Hab in Hfd.
    destruct g as [| | | |? ? []|]; cbn in *; try done; destruct (Hok _ _ _ Hfd) as (? & ? & ?); done. }
  split; try done.
  - intros x p k a Hx. destruct (Hm' _ _ _ _ Hx) as [a' Ha]. by eapply H1.
  - intros p d' q' Hq. destruct (H4 p d' q' Hq) as [(k & a & Hk)|(f & Hf & Ho)].
    + left. destruct (decide (watch_fd d' = fd)) as [Heq|Hne].
      * rewrite Heq. apply Hp. rewrite Heq in Hk. congruence.
      * rewrite Hsame by done. by do 2 eexists.
    + right. exists f. split; [by right|done].
  - intros f [->|Hf]%elem_of_cons.
    + cbn. destruct (has mask EPOLLONESHOT) eqn:Ho; [|done]. intros p k a. rewrite Hd. unfold m'. rewrite lookup_alter_eq, Hfd. cbn. rewrite Ho.
      by intros [= <- <- <-].
    + pose proof (H5 f Hf) as Hok. destruct (decide (about f = fd)) as [Heq|Hne].
      * assert (¬ serves fd f) as Hn by (intros ?; by eapply Hns). unfold serves in Hn.
        destruct f as [| | | |? ? []|]; cbn in *; try done; try (by destruct Hn); destruct_and?; try split; try done; by apply Hnone.
      * destruct f as [| | | |? ? []|]; cbn in *; try done; rewrite ?Hsame by done; done.
  - intros f g [->|Hf]%elem_of_cons [->|Hg]%elem_of_cons Ha Hab; try done; [|by apply (H6 f)].
    pose proof (H5 f Hf) as Hok. cbn in Hab. destruct f; cbn in *; try done; destruct Hok as [_ Hok]; congruence.
  - intros x. rewrite filter_cons. destruct (decide (serves x _)) as [[_ Hx]|]; [|done]. cbn in Hx.
    rewrite filter_none; [done|]. intros g Hg Hs. eapply Hns; [done|]. by rewrite <- Hd, Hx.
  - intros x p k Hx. destruct (decide (x = fd)) as [->|Hne].
    + assert (has mask EPOLLONESHOT = true ∧ k = mask) as [Ho ->].
      { unfold m' in Hx. rewrite lookup_alter_eq, Hfd in Hx. cbn in Hx. by destruct (has mask _); injection Hx as <- <-. }
      split; [done|]. right. eexists. split; [left|]. cbn. by rewrite Ho.
    + rewrite Hsame in Hx by done. destruct (H9 x p k Hx) as [Hos [?|(f & Hf & Hr)]]; (split; [done|]); [by left|right]. exists f. split; [by right|done].
Qed.
Lemma inv_undo hs n fs m bad h d e : mux_inv hs n (AddUndo h d e :: fs) m bad → mux_inv (delete h hs) n fs m bad.
Proof.
  intros [H1 H2 H3 H4 H5 H6 H7 H8 H9]. destruct (H5 _ ltac:(left)) as [[q Hh] Hm].
  assert (∀ p x, delete h hs !! p = Some x ↔ hs !! p = Some x ∧ p ≠ h) as Hdel by (intros; rewrite lookup_delete_Some; naive_solver).
  split.
  - intros fd p k a Hfd. destruct (H1 _ _ _ _ Hfd) as (d' & Hp & Hd). exists d'. split; [|done]. apply Hdel. split; [done|]. intros ->.
    rewrite Hh in Hp. injection Hp as <- _. congruence.
  - intros p x [Hp _]%Hdel. by eapply H2.
  - intros p1 p2 x1 x2 [Hp1 _]%Hdel [Hp2 _]%Hdel. by eapply H3.
  - intros p d' q' [Hp Hne]%Hdel. destruct (H4 _ _ _ Hp) as [?|(f & [->|Hf]%elem_of_cons & Ho)]; [by left| |right; by exists f]. cbn in Ho. by destruct Ho.
  - intros f Hf. pose proof (H5 f ltac:(by right)) as Hok.
    assert (¬ adds (watch_fd d) f) as Hna by (eapply (at_most_one _ (AddUndo h d e)); [apply H7|done|done]). unfold adds in Hna.
    destruct f as [p d' q'|p d' e'| | | |]; cbn in *; try done.
    + destruct Hok as [Hp ?]. split; [|done]. apply Hdel. split; [done|]. intros ->. apply Hna. split; [done|]. congruence.
    + destruct Hok as [[q' Hp] ?]. split; [|done]. exists q'. apply Hdel. split; [done|]. intros ->. apply Hna. split; [done|]. congruence.
  - intros f g Hf Hg. apply H6; by right.
  - intros fd. eapply Nat.le_trans; [apply filter_le_cons|apply H7].
  - intros fd. eapply Nat.le_trans; [apply filter_le_cons|apply H8].
  - intros fd p k Hfd. destruct (H9 fd p k Hfd) as [Hos [?|(f & [->|Hf]%elem_of_cons & Hr)]]; (split; [done|]); [by left|done|right; by exists f].
Qed.
Lemma inv_unwatch hs n fs m bad fd x : mux_inv hs n (RemoveCtl fd :: fs) m bad → m !! fd = Some x →
  mux_inv hs n (RemoveErase fd :: fs) (delete fd m) bad.
Proof.
  intros [H1 H2 H3 H4 H5 H6 H7 H8 H9] Hx.
  assert (∀ y e, delete fd m !! y = Some e ↔ m !! y = Some e ∧ y ≠ fd) as Hdel by (intros; rewrite lookup_delete_Some; naive_solver).
  assert (∀ y, m !! y = None → delete fd m !! y = None) as Hnone by (intros; apply lookup_delete_None; by right).
  split.
  - intros y p k a [Hy _]%Hdel. by eapply H1.
  - done.
  - done.
  - intros p d q Hp. destruct (H4 _ _ _ Hp) as [(k & a & Hk)|(f & [->|Hf]%elem_of_cons & Ho)]; [|done|right; exists f; split; [by right|done]].
    destruct (decide (watch_fd d = fd)) as [Heq|Hne].
    + right. exists (RemoveErase fd). split; [left|done].
    + left. exists k, a. by apply Hdel.
  - intros f [->|Hf]%elem_of_cons; [by cbn; rewrite lookup_delete_eq|]. pose proof (H5 f ltac:(by right)) as Hok.
    destruct f as [| | | |? ? []|]; cbn in *; try done; [destruct Hok; split; [done|by apply Hnone]..|by apply Hnone| |];
      intros p k a [Hy _]%Hdel; by eapply Hok.
  - assert (∀ f, f ∈ fs → adding f = true → about f ≠ fd) as Hno.
    { intros f Hf Ha Hab. pose proof (H5 f ltac:(by right)) as Hok. destruct f; cbn in *; try done; destruct Hok as [_ Hok]; congruence. }
    intros f g [->|Hf]%elem_of_cons [->|Hg]%elem_of_cons Ha Hab; try done; [by destruct (Hno f Hf Ha)|]. apply (H6 f); [by right|by right|done|done].
  - intros y. specialize (H7 y). rewrite filter_cons in *. rewrite decide_False in * by (by intros [? _]). done.
  - intros y. specialize (H8 y). rewrite filter_cons in *. rewrite decide_False in * by (by intros [? _]). done.
  - intros y p k [Hy Hne]%Hdel. destruct (H9 _ _ _ Hy) as [Hos [?|(f & [->|Hf]%elem_of_cons & Hr)]]; (split; [done|]); [by left|by destruct Hne|right].
    exists f. split; [by right|done].
Qed.
Lemma inv_erase hs n fs m bad fd : mux_inv hs n (RemoveErase fd :: fs) m bad →
  mux_inv (filter (λ x, watch_fd x.2.1 ≠ fd) hs) n fs m bad.
Proof.
  intros [H1 H2 H3 H4 H5 H6 H7 H8 H9]. pose proof (H5 _ ltac:(left)) as Hm. cbn in Hm.
  assert (∀ p x, filter (λ x, watch_fd x.2.1 ≠ fd) hs !! p = Some x ↔ hs !! p = Some x ∧ watch_fd x.1 ≠ fd) as Hfil by (intros; by rewrite map_lookup_filter_Some).
  split.
  - intros y p k a Hy. destruct (H1 _ _ _ _ Hy) as (d & Hp & Hd). exists d. split; [|done]. apply Hfil. split; [done|]. cbn. congruence.
  - intros p x [Hp _]%Hfil. by eapply H2.
  - intros p1 p2 x1 x2 [Hp1 _]%Hfil [Hp2 _]%Hfil. by eapply H3.
  - intros p d q [Hp Hne]%Hfil. destruct (H4 _ _ _ Hp) as [?|(f & [->|Hf]%elem_of_cons & Ho)]; [by left|by destruct Hne|right; by exists f].
  - intros f Hf. pose proof (H5 f ltac:(by right)) as Hok.
    assert (adding f = true → about f ≠ fd) as Hno.
    { intros Ha Hab. destruct (H6 f (RemoveErase fd)) as [|[? ?]]; [by right|left|done|done|done|done]. }
    destruct f as [p d q|p d e| | | |]; cbn in *; try done.
    + destruct Hok. split; [|done]. apply Hfil. split; [done|by apply Hno].
    + destruct Hok as [[q Hp] ?]. split; [|done]. exists q. apply Hfil. split; [done|by apply Hno].
  - intros f g Hf Hg. apply H6; by right.
  - intros y. eapply Nat.le_trans; [apply filter_le_cons|apply H7].
  - intros y. eapply Nat.le_trans; [apply filter_le_cons|apply H8].
  - intros y p k Hy. destruct (H9 _ _ _ Hy) as [Hos [?|(f & [->|Hf]%elem_of_cons & Hr)]]; (split; [done|]); [by left|done|right; by exists f].
Qed.

(** *** The machine *)
Lemma leave_perm (a b : list (Z * frame)) t f l : l = a ++ (t, f) :: b → l.*2 ≡ₚ f :: (a ++ b).*2.
Proof. intros ->. rewrite !fmap_app. cbn. symmetry. apply Permutation_middle. Qed.
Lemma goto_perm (a b : list (Z * frame)) t (g : frame) : (a ++ (t, g) :: b).*2 ≡ₚ g :: (a ++ b).*2.
Proof. by eapply leave_perm. Qed.

(** What a thread's turn leads to. *)
Lemma turn_inv s h t answer : mux_inv' s h → mux_allowed s h (OpTurn t answer) = true →
  let r := turn t answer s in mux_inv' (post r) (h ++ trace r) ∧ value r = Ret tt.
Proof.
  intros Hi. cbn [mux_allowed]. destruct (split_at t (frames s)) as [[[a f] b]|] eqn:Hs; [|done]. intros Hfit.
  unfold turn. rewrite pbind_get, Hs. pose proof (leave_perm _ _ _ _ _ (split_at_spec _ _ _ _ _ Hs)) as Hp.
  unfold mux_inv' in Hi. set (rest := (a ++ b).*2) in *. apply (inv_perm _ _ _ _ _ _ Hp) in Hi.
  destruct s as [hs n l]. cbn [dispatchee_holder next_address frames] in *.
  pose proof (x_frames _ _ _ _ _ Hi f ltac:(left)) as Hok.
  assert (∀ (m : gmap Z (Z * bool)) g bad' h', mux_inv m n (g :: rest) (interest h') bad' → bad' = ended_badly h' →
    mux_inv' (mkMultiplexer m n (a ++ (t, g) :: b)) h') as Hgoto.
  { intros m g bad' h' Hm ->. unfold mux_inv'. cbn. eapply inv_perm; [|exact Hm]. symmetry. apply goto_perm. }
  assert (∀ fd, returning fd f → registered h fd = false → ∀ p mask, interest h !! fd = Some (p, mask, false) → fd ∈ ended_badly h) as Hun.
  { intros fd _ Hr%bool_decide_eq_false p mask Hm. destruct Hr. by eexists. }
  destruct f as [p d q|p d e|fd|fd|p d q|p d].
  - destruct answer as [|e|]; [..|done]; cbn [fits call_fits] in Hfit.
    + cbn. split; [|done]. unfold mux_inv'. cbn. rewrite interest_app, ended_badly_app. cbn.
      eapply (inv_arm _ _ (AddCtl p d q)); try done.
      * rewrite add_mask_oneshot. by destruct Hok.
      * by intros ? ? [-> _].
      * intros g Hg Hab. destruct (x_adding _ _ _ _ _ Hi (AddCtl p d q) g) as [Ha|[fd ->]]; [left|by right|done|done| |done].
        by destruct (at_most_one (adds (watch_fd d)) (AddCtl p d q) rest g (x_adds _ _ _ _ _ Hi _)).
    + cbn. split; [|done]. rewrite app_nil_r. eapply Hgoto; [|done]. eapply inv_swap; [exact Hi|..]; try done; [|by intros; left].
      destruct Hok. split; [by eexists|done].
  - cbn. destruct Hok as [[q Hh] Hm]. rewrite Hh. cbn. split; [|done]. unfold mux_inv'. cbn. rewrite interest_app, ended_badly_app. cbn.
    eapply inv_bad; [|by eapply inv_undo]. set_solver.
  - destruct answer as [|e|]; [..|done]; cbn [fits call_fits] in Hfit.
    + cbn. split; [|done]. eapply Hgoto; [|done]. rewrite interest_app, ended_badly_app. cbn.
      unfold registered in Hfit. case_bool_decide as Hr; [|done]. destruct Hr as [x Hx]. by eapply inv_unwatch.
    + cbn. destruct (Z.eqb_spec e ENOENT) as [->|Hne]; cbn; (split; [|done]); unfold mux_inv'; cbn; rewrite interest_app, ended_badly_app; cbn.
      * eapply inv_drop; [exact Hi|done|]. intros fd' p mask Hr Hm. eapply (Hun fd'); [done| |done].
        cbn in Hr. subst fd'.  by destruct (registered h fd).
      * eapply inv_drop; [eapply inv_bad; [|exact Hi]; set_solver|done|]. intros fd' p mask Hr Hm. cbn in Hr. set_solver.
  - cbn. split; [|done]. unfold mux_inv'. cbn. rewrite interest_app, ended_badly_app. cbn. by apply inv_erase.
  - destruct answer as [| |r]; [done..|]. destruct r as [[]|e].
    + destruct q; cbn.
      * split; [|done]. rewrite app_nil_r. eapply Hgoto; [|done]. eapply inv_swap; [exact Hi|..]; try done. by intros [|[? ?]].
      * split; [|done]. unfold mux_inv'. cbn. rewrite interest_app, ended_badly_app. cbn. by eapply inv_drop; [exact Hi|..].
    + cbn. split; [|done]. rewrite app_nil_r. eapply Hgoto; [|done]. eapply inv_swap; [exact Hi|..]; try done; [by destruct q|].
      intros _. right. by eexists.
    + cbn. split; [|done]. unfold mux_inv'. cbn. rewrite interest_app, ended_badly_app. cbn.
      eapply inv_drop; [eapply inv_bad; [|exact Hi]; set_solver|done|]. intros fd p' mask Hr Hm. destruct q; cbn in Hr; [|done]. set_solver.
  - destruct answer as [|e|]; [..|done]; cbn [fits] in Hfit.
    + cbn. split; [|done]. unfold mux_inv'. cbn. rewrite interest_app, ended_badly_app. cbn.
      unfold registered in Hfit. case_bool_decide as Hr; [|done]. destruct Hr as [[[p' mask] armed] Hx].
      destruct (Hok _ _ _ Hx) as (-> & Ho & ->). destruct (x_live _ _ _ _ _ Hi _ _ _ _ Hx) as (d' & Hh & Hd). rewrite <- Hd.
      eapply (inv_arm _ _ (Rearm p d)); [exact Hi| |by cbn|done|].
      * by rewrite add_mask_oneshot, Hh, Ho.
      * rewrite Hd. intros g Hg Hab. pose proof (x_frames _ _ _ _ _ Hi g ltac:(by right)) as Hg'.
        assert (¬ serves (watch_fd d) g) as Hns by (by eapply (at_most_one _ (Rearm p d)); [apply (x_serves _ _ _ _ _ Hi)|..]). unfold serves in Hns.
        destruct g as [| | | |? ? []|]; cbn in *; try done; try (by destruct Hns); destruct_and?; congruence.
    + cbn. split; [|done]. unfold mux_inv'. cbn. rewrite interest_app, ended_badly_app. cbn.
      eapply inv_drop; [exact Hi|done|]. intros fd p' mask Hr Hm. eapply (Hun fd); [done| |done]. cbn in Hr. subst fd. by destruct (registered h _).
Qed.
Lemma mux_step s h op : mux_inv' s h → mux_allowed s h op = true →
  let r := mux_exec op s in mux_inv' (post r) (h ++ trace r) ∧ value r = Ret tt.
Proof.
  intros Hi Hop. destruct op as [t d q|t fd|t ev answer|t answer]; [..|by apply turn_inv].
  - cbn. split; [|done]. rewrite app_nil_r. cbn in Hop. apply andb_prop in Hop as [_ [Hh%bool_decide_eq_true Hf%bool_decide_eq_true]%andb_prop].
    unfold mux_inv'. cbn. apply inv_emplace; [done|..].
    + intros p x Hx. by apply (Hh p x).
    + intros f Hin. apply list_elem_of_fmap in Hin as (x & -> & Hx). rewrite Forall_forall in Hf. by apply Hf.
  - cbn. split; [|done]. rewrite app_nil_r. unfold mux_inv'. cbn. apply inv_push; try done. intros g _ _. split; [done|]. by eexists.
  - cbn [mux_exec]. unfold begin_dispatch.
    assert (∀ e, let r := (pemit (CallEnd t None e) : M unit) s in mux_inv' (post r) (h ++ trace r) ∧ value r = Ret tt) as Hend.
    { intros e. cbn. split; [|done]. unfold mux_inv'. rewrite interest_app, ended_badly_app. cbn. done. }
    destruct (has ev error_event); [by apply Hend|]. destruct answer as [| |fd p ready]; [by apply Hend..|].
    cbn in Hop. apply andb_prop in Hop as [_ Hop]. destruct (interest h !! fd) as [[[q mask] armed]|] eqn:Hm; [|done].
    apply andb_prop in Hop as [->%bool_decide_eq_true ->]. destruct (x_live _ _ _ _ _ Hi _ _ _ _ Hm) as (d & Hh & Hd).
    cbn. rewrite Hh. cbn. split; [|done]. unfold mux_inv'. cbn. rewrite interest_app, ended_badly_app. cbn. by eapply inv_report.
Qed.
Lemma mux_reachable s h : reachable mux_machine s h → mux_inv' s h.
Proof.
  apply (reachable_invariant mux_machine).
  - intros s0 ->. unfold mux_inv'. cbn.
    split; try done; try (by intros ? ?%elem_of_nil); try (by intros ? ? ?%elem_of_nil); intros *; cbn; lia.
  - intros s0 h0 op _ Hi Hop. by apply mux_step.
Qed.

(** C35. Watching is safe.  While a descriptor is added only when no call about
    it is under way, the kernel's pointers are good - so no step reads a freed
    element - and each sequential source is dispatched in one thread at a time.
    When no call is under way exactly the watched descriptors have an element,
    and each of them is reported when it becomes ready, unless a call about it
    ended by an exception. *)
Theorem watching_is_safe s h : reachable mux_machine s h →
  (∀ fd p mask armed, interest h !! fd = Some (p, mask, armed) →
     ∃ d, dispatchee_holder s !! p = Some (d, has mask EPOLLONESHOT) ∧ watch_fd d = fd) ∧
  (∀ op, mux_allowed s h op = true → value (mux_exec op s) = Ret tt) ∧
  (∀ fd, (length (filter (serves fd) (frames s).*2) ≤ 1)%nat) ∧
  (frames s = [] →
     (∀ p d q, dispatchee_holder s !! p = Some (d, q) → ∃ mask armed, interest h !! watch_fd d = Some (p, mask, armed)) ∧
     ∀ fd p mask armed, interest h !! fd = Some (p, mask, armed) → armed = true ∨ fd ∈ ended_badly h).
Proof.
  intros Hi%mux_reachable. split; [apply (x_live _ _ _ _ _ Hi)|]. split; [|split].
  - intros op Hop. by apply (mux_step s h op Hi Hop).
  - apply (x_serves _ _ _ _ _ Hi).
  - intros Hf. unfold mux_inv' in Hi. rewrite Hf in Hi. split.
    + intros p d q Hh. destruct (x_own _ _ _ _ _ Hi _ _ _ Hh) as [?|(f & ?%elem_of_nil & _)]; done.
    + intros fd p mask [] Hm; [by left|right]. destruct (x_armed _ _ _ _ _ Hi _ _ _ Hm) as [_ [?|(f & ?%elem_of_nil & _)]]; done.
Qed.

(** The events survive the trip to the kernel and back. *)
Lemma events_roundtrip e : 0 ≤ e < 16 → epoll_to_fd_event (fd_event_to_epoll e) = e.
Proof.
  intros He. assert (Forall (λ e, epoll_to_fd_event (fd_event_to_epoll e) = e) (Z.of_nat <$> seq 0 16)) as Hall.
  { apply (bool_decide_unpack (Forall _ _)). vm_compute. exact I. }
  rewrite Forall_forall in Hall. apply Hall, list_elem_of_fmap. exists (Z.to_nat e). rewrite elem_of_seq. lia.
Qed.
End multiplexer.

(** *** Examples

    Dispatchables watch the descriptor of their number.  One sequential
    dispatchable that two threads dispatch in turn. *)
Definition mux_example_machine : machine := mux_machine (λ d, d) (λ _, readable).
Definition mux_example_ops : list mux_op :=
  [ OpAddWatch 1 5 true; OpTurn 1 Success; OpAddWatch 1 6 false; OpTurn 1 Success;
    OpDispatch 1 readable (Ready 5 0 EPOLLIN); OpDispatch 2 readable (Ready 6 1 EPOLLIN); OpTurn 1 (Returns (Ret true)) ].
Definition new_multiplexer : Multiplexer := mkMultiplexer ∅ 0 [].
Definition mux_example_run := run_ops mux_example_machine mux_example_ops new_multiplexer [].
Definition mux_example_state : Multiplexer := (default (new_multiplexer, []) mux_example_run).1.
Definition mux_example_history : list mux_obs := (default (new_multiplexer, []) mux_example_run).2.
Lemma mux_example_reachable : reachable mux_example_machine mux_example_state mux_example_history.
Proof. apply (run_ops_from_init mux_example_machine mux_example_ops new_multiplexer); [done|]. vm_compute. reflexivity. Qed.
Lemma watching_is_safe_witness : frames mux_example_state = [(2, InDispatch 1 6 false); (1, Rearm 0 5)] ∧
  (length (filter (serves (λ d, d) 5) (frames mux_example_state).*2) ≤ 1)%nat ∧
  value (mux_exec (λ d, d) (λ _, readable) (OpTurn 1 Success) mux_example_state) = Ret tt.
Proof.
  split; [vm_compute; reflexivity|]. destruct (watching_is_safe _ _ _ _ mux_example_reachable) as (_ & Hop & Hone & _).
  split; [apply Hone|]. apply Hop. vm_compute. reflexivity.
Defined.

(** A sequence of steps, whether or not the descriptors are added with care. *)
Fixpoint mux_run (ops : list mux_op) (s : Multiplexer) : run Multiplexer mux_obs unit :=
  match ops with
  | [] => Run (Ret tt) s []
  | op :: ops => pbind (mux_exec (λ d, d) (λ _, readable) op) (λ _, mux_run ops) s
  end.
(** Thread 1 removes a descriptor; behind its [EPOLL_CTL_DEL] thread 2 adds it
    again; then thread 1 erases both elements and the kernel keeps a pointer to
    the second. *)
Lemma adding_while_removing_dangles :
  let r := mux_run [ OpAddWatch 1 5 true; OpTurn 1 Success; OpRemoveWatch 1 5; OpTurn 1 Success;
                     OpAddWatch 2 5 true; OpTurn 2 Success; OpTurn 1 Success ] new_multiplexer in
  interest (trace r) !! 5 = Some (1, add_mask (λ _, readable) 5 true, true) ∧ dispatchee_holder (post r) = ∅ ∧
  value (begin_dispatch 2 readable (Ready 5 1 EPOLLIN) (post r)) = Throw (undefined_behaviour "freed element of dispatchee_holder").
Proof. vm_compute. done. Qed.
(** What is dispatched removes itself and adds itself again: arming it behind the
    dispatch gives the kernel the old pointer. *)
Lemma adding_while_dispatched_dangles :
  let r := mux_run [ OpAddWatch 1 5 true; OpTurn 1 Success; OpDispatch 1 readable (Ready 5 0 EPOLLIN);
                     OpRemoveWatch 1 5; OpTurn 1 Success; OpTurn 1 Success; OpAddWatch 1 5 true; OpTurn 1 Success;
                     OpTurn 1 (Returns (Ret true)); OpTurn 1 Success ] new_multiplexer in
  interest (trace r) !! 5 = Some (0, add_mask (λ _, readable) 5 true, true) ∧ dispatchee_holder (post r) !! 0 = None.
Proof. vm_compute. done. Qed.
(** An exception out of a sequential source: it stays, and is not reported again. *)
Lemma throwing_source_is_never_armed :
  let r := mux_run [ OpAddWatch 1 5 true; OpTurn 1 Success; OpDispatch 1 readable (Ready 5 0 EPOLLIN);
                     OpTurn 1 (Returns (Throw (runtime_error "source"))) ] new_multiplexer in
  frames (post r) = [] ∧ dispatchee_holder (post r) !! 0 = Some (5, true) ∧
  interest (trace r) !! 5 = Some (0, add_mask (λ _, readable) 5 true, false).
Proof. vm_compute. done. Qed.
(** Adding a watched descriptor is refused and leaves no trace. *)
Lemma watched_twice_is_refused :
  let r := mux_run [ OpAddWatch 1 5 true; OpTurn 1 Success; OpAddWatch 1 5 true; OpTurn 1 (Errno EEXIST); OpTurn 1 Success ] new_multiplexer in
  dispatchee_holder (post r) = {[0 := (5, true)]} ∧
  last (trace r) = Some (CallEnd 1 (Some 5) (Throw (logic_error "Attempted to monitor the same fd twice"))).
Proof. vm_compute. done. Qed.
