(* ===== verification/ActionQueue.v ===== *)
(** Queues of actions that any thread may fill and run
    (common/dispatch/action_queue.cpp).

    The descriptor is an eventfd semaphore: its count is what was written less
    what was read ([tokens], from the history); what the system calls answer
    comes with each step and must fit that.  Actions and threads are numbers. *)

From S2P Require Import Prelude Multiplexer.

Record ActionQueue := mkActionQueue {
  actions : list Z;
  (** the threads between [consume] and the list's lock *)
  consumed : list Z
}.
Inductive queue_obs :=
  | Enqueued (a : Z)
  | Woken
  | TokenRead (t : Z)
  (** the thread calls the action *)
  | RunAction (t a : Z).
#[local] Abbreviation M := (prog ActionQueue queue_obs).

(** [wake] with the answer of [write]. *)
Definition wake (written : bool) : M unit :=
  if written then pemit Woken else pthrow (runtime_error "Failed to wake action queue").
Definition enqueue (a : Z) (written : bool) : M unit :=
  do* pmodify (λ s, mkActionQueue (actions s ++ [a]) (consumed s)) in
  do* pemit (Enqueued a) in
  wake written.

Inductive read_answer := TokenTaken | NothingThere | ReadFails.
Definition consume (t : Z) (answer : read_answer) : M bool :=
  match answer with
  | TokenTaken => do* pemit (TokenRead t) in pret true
  | NothingThere => pret false
  | ReadFails => pthrow (runtime_error "Failed to consume action queue notification")
  end.
(** [dispatch] up to the lock: the result, if it returns here. *)
Definition begin_queue_dispatch (t events : Z) (answer : read_answer) : M (option bool) :=
  if has events error_event then pret (Some false)
  else
    let* taken := consume t answer in
    if taken then do* pmodify (λ s, mkActionQueue (actions s) (consumed s ++ [t])) in pret None
    (* another thread has won the race *)
    else pret (Some true).
(** The rest of [dispatch]. *)
Definition take_action (t : Z) : M unit :=
  let* s := pget in
  match actions s with
  | [] => pthrow (undefined_behaviour "front of an empty list")
  | a :: rest => do* pput (mkActionQueue rest (erase_first t (consumed s))) in pemit (RunAction t a)
  end.

(** ** As a machine *)
Inductive queue_op :=
  | OpEnqueue (a : Z) (written : bool)
  | OpQueueDispatch (t events : Z) (answer : read_answer)
  | OpTakeAction (t : Z).
Definition queue_exec (op : queue_op) : M unit :=
  match op with
  | OpEnqueue a written => enqueue a written
  | OpQueueDispatch t events answer => do* begin_queue_dispatch t events answer in pret tt
  | OpTakeAction t => take_action t
  end.
Definition count_obs (p : queue_obs → bool) (h : list queue_obs) : nat := length (filter (λ ob, p ob = true) h).
Definition is_enqueued (ob : queue_obs) : bool := if ob is Enqueued _ then true else false.
Definition is_woken (ob : queue_obs) : bool := if ob is Woken then true else false.
Definition is_read (ob : queue_obs) : bool := if ob is TokenRead _ then true else false.
Definition tokens (h : list queue_obs) : nat := count_obs is_woken h - count_obs is_read h.
Definition queue_allowed (s : ActionQueue) (h : list queue_obs) (op : queue_op) : bool :=
  match op with
  | OpEnqueue _ _ => true
  | OpQueueDispatch _ _ answer =>
      match answer with TokenTaken => bool_decide (0 < tokens h)%nat | NothingThere => bool_decide (tokens h = 0%nat) | ReadFails => true end
  | OpTakeAction t => bool_decide (t ∈ consumed s)
  end.
Definition queue_machine : machine :=
  Machine ActionQueue queue_op queue_obs (λ s, s = mkActionQueue [] []) queue_allowed queue_exec.

(** ** Properties *)

(** The actions enqueued, and run, in order. *)
Definition enqueued (h : list queue_obs) : list Z := h ≫= λ ob, match ob with Enqueued a => [a] | _ => [] end.
Definition taken (h : list queue_obs) : list Z := h ≫= λ ob, match ob with RunAction _ a => [a] | _ => [] end.
(** Wake-ups that failed. *)
Definition unwoken (h : list queue_obs) : nat := count_obs is_enqueued h - count_obs is_woken h.

Record queue_inv (s : ActionQueue) (h : list queue_obs) : Prop := {
  q_order : enqueued h = taken h ++ actions s;
  q_tokens : (length (actions s) + count_obs is_read h = count_obs is_enqueued h + length (consumed s))%nat;
  q_reads : (count_obs is_read h ≤ count_obs is_woken h)%nat;
  q_wakes : (count_obs is_woken h ≤ count_obs is_enqueued h)%nat
}.
Lemma count_app p h tr : count_obs p (h ++ tr) = (count_obs p h + count_obs p tr)%nat.
Proof. unfold count_obs. by rewrite filter_app, length_app. Qed.
Lemma queue_count_cons p ob h : count_obs p (ob :: h) = ((if p ob then 1 else 0) + count_obs p h)%nat.
Proof. unfold count_obs. rewrite filter_cons. destruct (p ob); [by rewrite decide_True|by rewrite decide_False]. Qed.
Lemma count_nil p : count_obs p [] = 0%nat.
Proof. done. Qed.
Lemma enqueued_app h tr : enqueued (h ++ tr) = enqueued h ++ enqueued tr.
Proof. apply bind_app. Qed.
Lemma taken_app h tr : taken (h ++ tr) = taken h ++ taken tr.
Proof. apply bind_app. Qed.
(** As many actions wait as there are tokens and threads that took one, and
    failed wake-ups. *)
Lemma queue_length s h : queue_inv s h → length (actions s) = (tokens h + length (consumed s) + unwoken h)%nat.
Proof. intros [_ H2 H3 H4]. unfold tokens, unwoken. lia. Qed.

Lemma queue_step s h op : queue_inv s h → queue_allowed s h op = true →
  let r := queue_exec op s in queue_inv (post r) (h ++ trace r) ∧
  (match op with OpEnqueue _ false | OpQueueDispatch _ _ ReadFails => True | _ => value r = Ret tt end).
Proof.
  intros Hi Hop. pose proof (queue_length s h Hi) as Hlen. destruct Hi as [H1 H2 H3 H4].
  assert (queue_inv s h) as Hi by done.
  destruct op as [a w|t ev answer|t]; cbn [queue_exec queue_allowed] in *.
  - unfold enqueue. rewrite pbind_modify, pbind_emit. split; [|by destruct w]. destruct w; cbn;
      (split; rewrite ?enqueued_app, ?taken_app, ?count_app, ?queue_count_cons, ?count_nil; cbn; [by rewrite H1, !app_nil_r, app_assoc|rewrite ?length_app; cbn; lia|lia..]).
  - unfold begin_queue_dispatch. destruct (has ev error_event); [cbn; rewrite app_nil_r; split; [done|by destruct answer]|].
    destruct answer; [|cbn; rewrite app_nil_r; by split..]. apply bool_decide_eq_true in Hop. cbn. split; [|done].
    unfold tokens in Hop. split; rewrite ?enqueued_app, ?taken_app, ?count_app, ?queue_count_cons, ?count_nil; cbn; [by rewrite !app_nil_r|rewrite ?length_app; cbn; lia|lia..].
  - apply bool_decide_eq_true in Hop. unfold take_action. rewrite pbind_get. pose proof (erase_first_perm t (consumed s) Hop) as Hp.
    apply Permutation_length in Hp. cbn in Hp. destruct (actions s) as [|a rest] eqn:Ha; [cbn in Hlen; lia|].
    rewrite pbind_put. cbn. split; [|done]. cbn in H2. split; rewrite ?enqueued_app, ?taken_app, ?count_app, ?queue_count_cons, ?count_nil; cbn; try lia.
    by rewrite app_nil_r, H1, <- app_assoc.
Qed.
Lemma queue_reachable s h : reachable queue_machine s h → queue_inv s h.
Proof.
  apply (reachable_invariant queue_machine); [by intros s0 ->; split|]. intros s0 h0 op _ Hs Hop. by apply queue_step.
Qed.

(** Actions are run in order, once each.  Whatever threads enqueue and
    dispatch, the actions run so far and those that wait, in this order, are the
    ones enqueued; as many wait as the descriptor has tokens and threads are
    about to take one, and wake-ups failed; so a thread that took a token finds
    an action, and when the descriptor is not readable and no thread is about to
    take one, every action was run. *)
Theorem actions_run_in_order s h : reachable queue_machine s h →
  enqueued h = taken h ++ actions s ∧
  length (actions s) = (tokens h + length (consumed s) + unwoken h)%nat ∧
  (∀ t, t ∈ consumed s → ∃ a, value (take_action t s) = Ret tt ∧ trace (take_action t s) = [RunAction t a] ∧ head (actions s) = Some a) ∧
  (tokens h = 0%nat → consumed s = [] → unwoken h = 0%nat → taken h = enqueued h).
Proof.
  intros Hi%queue_reachable. pose proof (queue_length s h Hi) as Hlen. destruct Hi as [H1 H2 H3 H4]. split; [done|]. split; [done|]. split.
  - intros t Ht. unfold take_action. rewrite pbind_get. destruct (actions s) as [|a rest]; [|by exists a].
    destruct (consumed s); [by apply elem_of_nil in Ht|cbn in Hlen; lia].
  - intros Ht Hc Hu. rewrite Ht, Hc, Hu in Hlen. cbn in Hlen. by rewrite H1, (nil_length_inv _ Hlen), app_nil_r.
Qed.

(** *** An example *)
Definition queue_example_ops : list queue_op :=
  [ OpEnqueue 10 true; OpEnqueue 11 true; OpQueueDispatch 1 readable TokenTaken; OpQueueDispatch 2 readable TokenTaken;
    OpQueueDispatch 3 readable NothingThere; OpTakeAction 2 ].
Definition queue_example_run := run_ops queue_machine queue_example_ops (mkActionQueue [] []) [].
Definition queue_example_state : ActionQueue := (default (mkActionQueue [] [], []) queue_example_run).1.
Definition queue_example_history : list queue_obs := (default (mkActionQueue [] [], []) queue_example_run).2.
Lemma queue_example_reachable : reachable queue_machine queue_example_state queue_example_history.
Proof. apply (run_ops_from_init queue_machine queue_example_ops (mkActionQueue [] [])); [done|]. vm_compute. reflexivity. Qed.
Lemma actions_run_in_order_witness : actions queue_example_state = [11] ∧ consumed queue_example_state = [1] ∧
  ∃ a, value (take_action 1 queue_example_state) = Ret tt ∧ trace (take_action 1 queue_example_state) = [RunAction 1 a] ∧ head (actions queue_example_state) = Some a.
Proof.
  split; [vm_compute; reflexivity|]. split; [vm_compute; reflexivity|].
  apply (proj1 (proj2 (proj2 (actions_run_in_order _ _ queue_example_reachable)))). apply (bool_decide_unpack (1 ∈ _)). vm_compute. exact I.
Defined.
