(* ===== verification/ThreadedDispatcher.v ===== *)
(** The threads that dispatch a source (common/dispatch/threaded_dispatcher.cpp).

    Threads and callers are numbers, and each takes its steps on its own: from
    one critical section, system call or dispatch to the next.  A thread leaves
    its loop when it reads a token of the semaphore that [thread_exiter] watches
    - the multiplexer gives it to one thread at a time ([Multiplexer]) - or when
    an exception comes out of it.  [tokens] are what was written less what was
    read; what poll and the dispatched source do comes with a thread's step. *)

From S2P Require Import Prelude Multiplexer.

(** Where a thread is in [dispatch_loop]. *)
Inductive thread_pc :=
  | Starting
  | Looping
  (** [unregister_thread], and between its critical sections *)
  | Unregistering
  | Erasing
  | Ended.
#[export] Instance thread_pc_eq_dec : EqDecision thread_pc.
Proof. solve_decision. Defined.
(** Where a caller is in [remove_thread]. *)
Inductive remove_pc := Waiting | Joining (t : Z).
#[export] Instance remove_pc_eq_dec : EqDecision remove_pc.
Proof. solve_decision. Defined.

Record ThreadedDispatcher := mkDispatcher {
  threadpool : list (Z * thread_pc);
  running_flags : gmap Z bool;
  terminating_threads : list Z;
  shutting_down : bool;
  removers : list (Z * remove_pc);
  (** in the destructor: what it is about to write, then the threads joined *)
  to_write : option nat;
  joined : nat
}.
Inductive thread_obs :=
  | TokensWritten (n : nat)
  | TokenGone (t : Z)
  | SourceDispatched (t : Z)
  | ExceptionHandled (t : Z)
  | ThreadRemoved (c t : Z)
  | RemoveFailed (c : Z).
#[local] Abbreviation M := (prog ThreadedDispatcher thread_obs).

Definition set_pool (l : list (Z * thread_pc)) (s : ThreadedDispatcher) : ThreadedDispatcher :=
  mkDispatcher l (running_flags s) (terminating_threads s) (shutting_down s) (removers s) (to_write s) (joined s).
Definition set_flags (m : gmap Z bool) (s : ThreadedDispatcher) : ThreadedDispatcher :=
  mkDispatcher (threadpool s) m (terminating_threads s) (shutting_down s) (removers s) (to_write s) (joined s).
Definition set_terminating (l : list Z) (s : ThreadedDispatcher) : ThreadedDispatcher :=
  mkDispatcher (threadpool s) (running_flags s) l (shutting_down s) (removers s) (to_write s) (joined s).
Definition set_removers (l : list (Z * remove_pc)) (s : ThreadedDispatcher) : ThreadedDispatcher :=
  mkDispatcher (threadpool s) (running_flags s) (terminating_threads s) (shutting_down s) l (to_write s) (joined s).
Definition set_shutdown (b : bool) (n : option nat) (k : nat) (s : ThreadedDispatcher) : ThreadedDispatcher :=
  mkDispatcher (threadpool s) (running_flags s) (terminating_threads s) b (removers s) n k.

(** ** A thread *)
Inductive loop_answer :=
  | Interrupted
  | PollFailed
  (** [thread_exiter] is dispatched *)
  | ExitReady
  (** the source is, and returns or throws; or another thread took the event *)
  | SourceReady
  | SourceThrows
  | EventStolen.
(** [register_thread] *)
Definition register_thread (t : Z) : M unit :=
  do* pmodify (λ s, set_flags (<[t := true]> (running_flags s)) s) in
  let* s := pget in
  pwhen (shutting_down s) (pemit (TokensWritten 1)).
(** [ThreadShutdownRequestHandler::dispatch] *)
Definition dispatch_exit (t : Z) : M unit :=
  do* pemit (TokenGone t) in
  let* s := pget in
  match running_flags s !! t with
  | Some _ => pput (set_flags (<[t := false]> (running_flags s)) s)
  | None => pthrow (out_of_range "_Map_base::at")
  end.
(** The second section of [unregister_thread]. *)
Definition erase_flag (t : Z) : M unit :=
  let* s := pget in
  match running_flags s !! t with
  | Some _ => pput (set_flags (delete t (running_flags s)) s)
  | None => pthrow (logic_error "Attempted to unregister a not-registered thread")
  end.
Definition thread_turn (t : Z) (answer : loop_answer) : M unit :=
  let* s := pget in
  match split_at t (threadpool s) with
  | None => pret tt
  | Some (before, pc, behind) =>
      let goto (pc : thread_pc) : M unit := pmodify (set_pool (before ++ (t, pc) :: behind)) in
      match pc with
      | Starting => do* register_thread t in goto Looping
      | Looping =>
          match answer with
          | Interrupted | EventStolen => pret tt
          | SourceReady => pemit (SourceDispatched t)
          | ExitReady => do* dispatch_exit t in goto Unregistering
          | PollFailed | SourceThrows => do* pemit (ExceptionHandled t) in goto Unregistering
          end
      | Unregistering => do* pmodify (λ s, set_terminating (terminating_threads s ++ [t]) s) in goto Erasing
      | Erasing => do* erase_flag t in goto Ended
      | Ended => pret tt
      end
  end.

(** ** The callers *)
Definition add_thread (t : Z) : M unit := pmodify (λ s, set_pool (threadpool s ++ [(t, Starting)]) s).
Definition begin_remove_thread (c : Z) : M unit :=
  do* pemit (TokensWritten 1) in pmodify (λ s, set_removers (removers s ++ [(c, Waiting)]) s).
Definition remove_turn (c : Z) (timed_out : bool) : M unit :=
  let* s := pget in
  match split_at c (removers s) with
  | None => pret tt
  | Some (before, Waiting, behind) =>
      if timed_out then
        do* pmodify (set_removers (before ++ behind)) in pemit (RemoveFailed c)
      else
        match last (terminating_threads s) with
        | Some killed =>
            do* pmodify (set_terminating (take (length (terminating_threads s) - 1) (terminating_threads s))) in
            pmodify (set_removers (before ++ (c, Joining killed) :: behind))
        | None => pret tt
        end
  | Some (before, Joining t, behind) =>
      match split_at t (threadpool s) with
      | Some (before', _, behind') =>
          do* pmodify (set_pool (before' ++ behind')) in
          do* pmodify (set_removers (before ++ behind)) in
          pemit (ThreadRemoved c t)
      | None => pthrow (undefined_behaviour "join of end()")
      end
  end.
(** The destructor: [terminate_all_threads_async], then the joins. *)
Definition begin_shutdown : M unit := pmodify (λ s, set_shutdown true (Some (size (running_flags s))) 0 s).
Definition write_shutdown : M unit :=
  let* s := pget in
  match to_write s with
  | Some n => do* pemit (TokensWritten n) in pput (set_shutdown true None 0 s)
  | None => pret tt
  end.
Definition join_next : M unit := pmodify (λ s, set_shutdown true None (S (joined s)) s).

(** ** As a machine

    No thread is added or removed behind the beginning of the destructor. *)
Inductive thread_op :=
  | OpThread (t : Z) (answer : loop_answer)
  | OpAddThread (t : Z)
  | OpRemoveThread (c : Z)
  | OpRemoveTurn (c : Z) (timed_out : bool)
  | OpShutdown
  | OpShutdownWrite
  | OpJoinNext.
Definition thread_exec (op : thread_op) : M unit :=
  match op with
  | OpThread t answer => thread_turn t answer
  | OpAddThread t => add_thread t
  | OpRemoveThread c => begin_remove_thread c
  | OpRemoveTurn c timed_out => remove_turn c timed_out
  | OpShutdown => begin_shutdown
  | OpShutdownWrite => write_shutdown
  | OpJoinNext => join_next
  end.
Definition written_step (n : nat) (ob : thread_obs) : nat := match ob with TokensWritten k => (n + k)%nat | _ => n end.
Definition written (h : list thread_obs) : nat := foldl written_step 0%nat h.
Definition gone_step (n : nat) (ob : thread_obs) : nat := match ob with TokenGone _ => S n | _ => n end.
Definition gone (h : list thread_obs) : nat := foldl gone_step 0%nat h.
Definition thread_allowed (s : ThreadedDispatcher) (h : list thread_obs) (op : thread_op) : bool :=
  match op with
  | OpThread t answer =>
      match split_at t (threadpool s) with
      | Some (_, Looping, _) => if answer is ExitReady then bool_decide (gone h < written h)%nat else true
      | Some _ => true
      | None => false
      end
  | OpAddThread t => negb (shutting_down s) && bool_decide (t ∉ (threadpool s).*1)
  | OpRemoveThread c => negb (shutting_down s) && bool_decide (c ∉ (removers s).*1)
  | OpRemoveTurn c timed_out =>
      match split_at c (removers s) with
      | Some (_, Waiting, _) => timed_out || bool_decide (terminating_threads s ≠ [])
      (** [join] waits *)
      | Some (_, Joining t, _) => match split_at t (threadpool s) with Some (_, pc, _) => bool_decide (pc = Ended) | None => true end
      | None => false
      end
  | OpShutdown => negb (shutting_down s) && bool_decide (removers s = [])
  | OpShutdownWrite => if to_write s is Some _ then true else false
  | OpJoinNext =>
      shutting_down s && bool_decide (to_write s = None) &&
      match threadpool s !! joined s with Some (_, pc) => bool_decide (pc = Ended) | None => false end
  end.
(** The constructor starts one thread. *)
Definition dispatcher_machine : machine :=
  Machine ThreadedDispatcher thread_op thread_obs (λ s, ∃ t, s = mkDispatcher [(t, Starting)] ∅ [] false [] None 0) thread_allowed thread_exec.

(** ** Properties *)
Definition count_pc (pc : thread_pc) (l : list (Z * thread_pc)) : nat := length (filter (λ e, e.2 = pc) l).
Definition join_targets (l : list (Z * remove_pc)) : list Z := l ≫= λ r, match r.2 with Joining t => [t] | Waiting => [] end.
(** How far a thread is from its end. *)
Definition rank (pc : thread_pc) : nat := match pc with Starting => 4 | Looping => 3 | Unregistering => 2 | Erasing => 1 | Ended => 0 end.
Definition steps_left (l : list (Z * thread_pc)) : nat := sum_list_with (λ e, rank e.2) l.
Definition waiting (l : list (Z * remove_pc)) : nat := length (filter (λ r, r.2 = Waiting) l).
(** What the history says of threads that left by an exception, and of removals. *)
Definition exceptions (h : list thread_obs) : nat := length (filter (λ ob, match ob with ExceptionHandled _ => true | _ => false end = true) h).
Definition removals (h : list thread_obs) : nat := length (filter (λ ob, match ob with ThreadRemoved _ _ => true | _ => false end = true) h).
Definition failures (h : list thread_obs) : nat := length (filter (λ ob, match ob with RemoveFailed _ => true | _ => false end = true) h).

Record thread_inv (s : ThreadedDispatcher) (h : list thread_obs) : Prop := {
  t_nodup : NoDup (threadpool s).*1;
  t_out : NoDup (terminating_threads s ++ join_targets (removers s));
  t_out_pc : ∀ t, t ∈ terminating_threads s ++ join_targets (removers s) ↔ (t, Erasing) ∈ threadpool s ∨ (t, Ended) ∈ threadpool s;
  t_flags : ∀ t, is_Some (running_flags s !! t) ↔ (t, Looping) ∈ threadpool s ∨ (t, Unregistering) ∈ threadpool s ∨ (t, Erasing) ∈ threadpool s;
  t_gone : (gone h ≤ written h)%nat;
  (** a token for every thread in the loop *)
  t_live : shutting_down s = true → (count_pc Looping (threadpool s) + gone h ≤ written h + default 0%nat (to_write s))%nat ∧ removers s = [];
  (** who left the loop, and who called *)
  t_left : (gone h + exceptions h = count_pc Unregistering (threadpool s) + length (terminating_threads s) + length (join_targets (removers s)) + removals h)%nat;
  t_called : shutting_down s = false → (written h = length (removers s) + removals h + failures h)%nat;
  t_joined : ∀ k e, (k < joined s)%nat → threadpool s !! k = Some e → e.2 = Ended;
  t_early : shutting_down s = false → joined s = 0%nat ∧ to_write s = None
}.

Lemma written_app h tr : written (h ++ tr) = foldl written_step (written h) tr.
Proof. apply foldl_app. Qed.
Lemma gone_app h tr : gone (h ++ tr) = foldl gone_step (gone h) tr.
Proof. apply foldl_app. Qed.
Lemma exceptions_app h tr : exceptions (h ++ tr) = (exceptions h + exceptions tr)%nat.
Proof. unfold exceptions. by rewrite filter_app, length_app. Qed.
Lemma removals_app h tr : removals (h ++ tr) = (removals h + removals tr)%nat.
Proof. unfold removals. by rewrite filter_app, length_app. Qed.
Lemma failures_app h tr : failures (h ++ tr) = (failures h + failures tr)%nat.
Proof. unfold failures. by rewrite filter_app, length_app. Qed.

Lemma count_middle pc a b t q : count_pc pc (a ++ (t, q) :: b) = (count_pc pc (a ++ b) + if decide (q = pc) then 1 else 0)%nat.
Proof. unfold count_pc. rewrite !filter_app, filter_cons, !length_app. cbn. destruct (decide _); cbn; lia. Qed.
Lemma left_middle a b t q : steps_left (a ++ (t, q) :: b) = (steps_left (a ++ b) + rank q)%nat.
Proof. unfold steps_left. rewrite !sum_list_with_app. cbn. lia. Qed.
Lemma lookup_middle (a b : list (Z * thread_pc)) t q q' k e : q ≠ Ended → (∀ i x, (i < k)%nat → (a ++ (t, q) :: b) !! i = Some x → x.2 = Ended) →
  ∀ i, (i < k)%nat → (a ++ (t, q') :: b) !! i = Some e → e.2 = Ended.
Proof.
  intros Hq Hall i Hi He. destruct (decide (i = length a)) as [->|Hne].
  - destruct Hq. apply (Hall (length a) (t, q)); [done|]. by rewrite list_lookup_middle.
  - apply (Hall i e Hi). destruct (decide (i < length a)%nat).
    + by rewrite lookup_app_l in * by done.
    + rewrite lookup_app_r in * by lia. destruct (i - length a)%nat eqn:Hd; [lia|done].
Qed.
(** The looping threads have flags. *)
Lemma looping_flags s h : thread_inv s h → (count_pc Looping (threadpool s) ≤ size (running_flags s))%nat.
Proof.
  intros Hi. unfold count_pc. set (l := filter _ _).
  assert (NoDup l.*1) as Hnd by (eapply sublist_NoDup; [apply (t_nodup _ _ Hi)|apply fmap_sublist, sublist_filter]).
  rewrite <- (length_fmap fst), <- (size_list_to_set (C := gset Z)), <- size_dom by done. apply subseteq_size.
  intros t. rewrite elem_of_list_to_set, elem_of_dom. intros ([u p] & -> & [Hp Hin]%list_elem_of_filter)%list_elem_of_fmap. cbn in *. subst p.
  apply (t_flags _ _ Hi). by left.
Qed.

Ltac thread_count :=
  rewrite ?written_app, ?gone_app, ?exceptions_app, ?removals_app, ?failures_app, ?count_middle in *;
  unfold exceptions, removals, failures in *; cbn -[count_pc steps_left join_targets] in *; intros; try done;
  repeat (case_decide; try congruence);
  repeat match goal with
  | H : ?x = ?x → _ |- _ => specialize (H eq_refl)
  | H : ?x = ?y → _, H' : ?x = ?y |- _ => specialize (H H')
  | H : _ ∧ _ |- _ => destruct H
  end; cbn in *; lia.
Ltac thread_run :=
  unfold register_thread, dispatch_exit, erase_flag, pbind, pmodify, pput, pget, pwhen, pemit, pret,
    set_pool, set_flags, set_terminating, set_removers, set_shutdown;
  cbn -[count_pc steps_left join_targets]; rewrite ?left_middle; cbn -[count_pc steps_left join_targets].
(** *** A thread's step *)
Definition flagged (pc : thread_pc) : bool := match pc with Looping | Unregistering | Erasing => true | _ => false end.
Definition left_loop (pc : thread_pc) : bool := match pc with Erasing | Ended => true | _ => false end.
Lemma move_inv a b t q q' flags flags' term term' sd rem tw jn h tr :
  thread_inv (mkDispatcher (a ++ (t, q) :: b) flags term sd rem tw jn) h → q ≠ Ended →
  NoDup (term' ++ join_targets rem) →
  (∀ u, u ∈ term' ++ join_targets rem ↔ (u = t ∧ left_loop q' = true) ∨ (u ≠ t ∧ u ∈ term ++ join_targets rem)) →
  (∀ u, is_Some (flags' !! u) ↔ (u = t ∧ flagged q' = true) ∨ (u ≠ t ∧ is_Some (flags !! u))) →
  (gone (h ++ tr) ≤ written (h ++ tr))%nat →
  (sd = true → count_pc Looping (a ++ (t, q') :: b) + gone (h ++ tr) ≤ written (h ++ tr) + default 0%nat tw)%nat →
  (gone (h ++ tr) + exceptions (h ++ tr) = count_pc Unregistering (a ++ (t, q') :: b) + length term' + length (join_targets rem) + removals (h ++ tr))%nat →
  (sd = false → written (h ++ tr) = length rem + removals (h ++ tr) + failures (h ++ tr))%nat →
  thread_inv (mkDispatcher (a ++ (t, q') :: b) flags' term' sd rem tw jn) (h ++ tr).
Proof.
  intros [H1 H2 H3 H4 H5 H6 H7 H8 H9 H10] Hq N1 N2 N3 N4 N5 N6 N7. cbn [threadpool running_flags terminating_threads shutting_down removers to_write joined] in *.
  split; cbn [threadpool running_flags terminating_threads shutting_down removers to_write joined]; try done.
  - by rewrite (fst_middle _ _ _ q).
  - intros u. rewrite N2, H3, !(elem_middle a b t q q' u) by done. destruct q'; cbn; naive_solver.
  - intros u. rewrite N3, H4, !(elem_middle a b t q q' u) by done. destruct q'; cbn; naive_solver.
  - intros Hsd. split; [by apply N5|by apply H6].
  - intros k e Hk He. by eapply (lookup_middle a b t q q').
Qed.
Lemma thread_turn_inv s h t answer : thread_inv s h → thread_allowed s h (OpThread t answer) = true →
  let r := thread_turn t answer s in thread_inv (post r) (h ++ trace r) ∧ value r = Ret tt ∧ (steps_left (threadpool (post r)) ≤ steps_left (threadpool s))%nat ∧
  (answer = ExitReady → (∃ pc, (t, pc) ∈ threadpool s ∧ pc ≠ Ended) → (steps_left (threadpool (post r)) < steps_left (threadpool s))%nat) ∧
  removers (post r) = removers s ∧ (threadpool (post r)).*1 = (threadpool s).*1.
Proof.
  intros Hi. cbn [thread_allowed]. destruct (split_at t (threadpool s)) as [[[a pc] b]|] eqn:Hs; [|done]. intros Hok.
  unfold thread_turn. rewrite pbind_get, Hs. apply split_at_spec in Hs. pose proof Hi as [H1 H2 H3 H4 H5 H6 H7 H8 H9 H10].
  destruct s as [pool flags term sd rem tw jn].
  cbn [threadpool running_flags terminating_threads shutting_down removers to_write joined] in *. subst pool.
  assert (∀ p, (t, p) ∈ a ++ (t, pc) :: b ↔ p = pc) as Hpc.
  { intros p. split; [intros Hp; eapply unique_pc; [exact H1|done|]|intros ->]; apply elem_of_app; right; left. }
  assert (left_loop pc = false → t ∉ term ++ join_targets rem) as Hout by (intros Hl; rewrite H3, !Hpc; intros [<-|<-]; done).
  assert (∀ u (m : gmap Z bool) b', is_Some (<[t := b']> m !! u) ↔ u = t ∨ (u ≠ t ∧ is_Some (m !! u))) as Hins.
  { intros u m b'. destruct (decide (u = t)) as [->|]; [rewrite lookup_insert_eq|rewrite lookup_insert_ne by done]; naive_solver. }
  assert (flagged pc = true → is_Some (flags !! t)) as Hfl by (intros Hf; rewrite H4, !Hpc; destruct pc; naive_solver).
  assert (∀ u, u ∈ term ++ join_targets rem → left_loop pc = false → u ≠ t) as Hne by (intros u Hu Hl ->; by apply Hout).
  assert (∀ u, is_Some (flags !! u) ↔ (u = t ∧ flagged pc = true) ∨ (u ≠ t ∧ is_Some (flags !! u))) as Hflags.
  { intros u. destruct (decide (u = t)) as [->|]; [|naive_solver]. rewrite H4, !Hpc. destruct pc; cbn; naive_solver. }
  assert (term ++ [t] ++ join_targets rem ≡ₚ t :: term ++ join_targets rem) as Hperm by (cbn; by rewrite <- Permutation_middle).
  rewrite !count_middle in *. destruct pc.
  - thread_run. destruct sd; thread_run; (split; [|split_and!; try done; [lia|intros; lia|apply fst_middle]]);
      (eapply (move_inv a b t Starting Looping); [exact Hi|done|done|naive_solver|intros u; rewrite Hins; naive_solver|..]; thread_count).
  - destruct answer.
    + thread_run. rewrite app_nil_r. by split_and!.
    + thread_run. split; [|split_and!; try done; [lia|apply fst_middle]].
      eapply (move_inv a b t Looping Unregistering); [exact Hi|done|done|naive_solver|exact Hflags|..]; thread_count.
    + thread_run. destruct (Hfl eq_refl) as [f ->]. thread_run. split; [|split_and!; try done; [lia|intros; lia|apply fst_middle]].
      apply bool_decide_eq_true in Hok.
      eapply (move_inv a b t Looping Unregistering); [exact Hi|done|done|naive_solver|intros u; rewrite Hins; naive_solver|..]; thread_count.
    + thread_run. split; [|by split_and!].
      eapply (move_inv a b t Looping Looping); [exact Hi|done|done|naive_solver|exact Hflags|..]; thread_count.
    + thread_run. split; [|split_and!; try done; [lia|apply fst_middle]].
      eapply (move_inv a b t Looping Unregistering); [exact Hi|done|done|naive_solver|exact Hflags|..]; thread_count.
    + thread_run. rewrite app_nil_r. by split_and!.
  - thread_run. split; [|split_and!; try done; [lia|intros; lia|apply fst_middle]].
    eapply (move_inv a b t Unregistering Erasing); [exact Hi|done| | |exact Hflags|..]; rewrite <- ?app_assoc.
    + rewrite Hperm. apply NoDup_cons. split; [by apply Hout|done].
    + intros u. rewrite Hperm, elem_of_cons. naive_solver.
    + thread_count.
    + thread_count.
    + rewrite length_app. thread_count.
    + thread_count.
  - thread_run. destruct (Hfl eq_refl) as [f ->]. thread_run. split; [|split_and!; try done; [lia|intros; lia|apply fst_middle]].
    eapply (move_inv a b t Erasing Ended); [exact Hi|done|done| | |thread_count..].
    + intros u. destruct (decide (u = t)) as [->|]; [|naive_solver]. rewrite H3, !Hpc. naive_solver.
    + intros u. destruct (decide (u = t)) as [->|]; [rewrite lookup_delete_eq|rewrite lookup_delete_ne by done; naive_solver].
      split; [by intros [? ?]|naive_solver].
  - thread_run. rewrite app_nil_r. split_and!; try done. intros _ (p & Hp%Hpc & Hn). done.
Qed.

(** *** The callers' steps *)
Lemma join_targets_app l k : join_targets (l ++ k) = join_targets l ++ join_targets k.
Proof. apply bind_app. Qed.
Lemma join_targets_cons c pc l : join_targets ((c, pc) :: l) = match pc with Joining t => t :: join_targets l | Waiting => join_targets l end.
Proof. by destruct pc. Qed.
Lemma join_targets_nil : join_targets [] = [].
Proof. done. Qed.
Lemma last_split {A} (l : list A) x : last l = Some x → l = take (length l - 1) l ++ [x].
Proof.
  destruct l as [|y l _] using rev_ind; [done|]. rewrite last_snoc, length_app. cbn. intros [= ->].
  replace (length l + 1 - 1)%nat with (length l) by lia. by rewrite take_app_length.
Qed.
Lemma thread_step s h op : thread_inv s h → thread_allowed s h op = true →
  let r := thread_exec op s in thread_inv (post r) (h ++ trace r) ∧ value r = Ret tt ∧
  (shutting_down s = true → (steps_left (threadpool (post r)) ≤ steps_left (threadpool s))%nat).
Proof.
  intros Hi Hop. destruct op as [t answer|t|c|c timed_out| | |]; cbn [thread_exec].
  { destruct (thread_turn_inv s h t answer Hi Hop) as (H1 & H2 & H3 & _). by split_and!. }
  all: pose proof Hi as [H1 H2 H3 H4 H5 H6 H7 H8 H9 H10]; destruct s as [pool flags term sd rem tw jn];
    cbn [threadpool running_flags terminating_threads shutting_down removers to_write joined thread_allowed] in *.
  - apply andb_prop in Hop as [Hsd%negb_true_iff Ht%bool_decide_eq_true]. unfold add_thread. thread_run. rewrite app_nil_r. subst sd. split; [|done].
    split; cbn [threadpool running_flags terminating_threads shutting_down removers to_write joined]; try done.
    + rewrite fmap_app. apply NoDup_app. split; [done|]. split; [by intros x Hx ->%list_elem_of_singleton|apply NoDup_singleton].
    + intros u. rewrite H3, !elem_of_app, !list_elem_of_singleton. naive_solver.
    + intros u. rewrite H4, !elem_of_app, !list_elem_of_singleton. naive_solver.
    + rewrite count_middle, app_nil_r. case_decide; [done|]. lia.
    + destruct H10 as [-> _]; [done|]. intros k e Hk. lia.
  - apply andb_prop in Hop as [Hsd%negb_true_iff Hc]. unfold begin_remove_thread. thread_run. subst sd. split; [|done].
    split; cbn [threadpool running_flags terminating_threads shutting_down removers to_write joined]; rewrite ?join_targets_app, ?join_targets_cons, ?join_targets_nil;
      rewrite ?app_nil_r, ?length_app; try done; try thread_count.
  - unfold remove_turn. rewrite pbind_get. cbn [removers]. destruct (split_at c rem) as [[[a pc] b]|] eqn:Hs; [|done].
    apply split_at_spec in Hs. subst rem. assert (sd = false) as -> by (destruct sd; [by destruct H6 as [_ ?]; destruct a|done]).
    rewrite join_targets_app, join_targets_cons in *. destruct pc as [|t].
    + destruct timed_out.
      * thread_run. split; [|done].
        split; cbn [threadpool running_flags terminating_threads shutting_down removers to_write joined]; rewrite ?join_targets_app; try done;
          rewrite ?length_app in *; thread_count.
      * cbn [terminating_threads]. destruct (last term) as [killed|] eqn:Hl; [|thread_run; rewrite app_nil_r; split_and!; try done; by split; rewrite ?join_targets_app, ?join_targets_cons].
        apply last_split in Hl. set (term' := take _ term) in *. thread_run. split; [|done]. rewrite app_nil_r.
        assert (term' ++ join_targets a ++ killed :: join_targets b ≡ₚ term ++ join_targets a ++ join_targets b) as Hp.
        { rewrite Hl at 1. rewrite <- app_assoc. cbn. by rewrite <- !Permutation_middle. }
        split; cbn [threadpool running_flags terminating_threads shutting_down removers to_write joined]; rewrite ?join_targets_app, ?join_targets_cons; try done.
        -- by rewrite Hp.
        -- intros u. by rewrite Hp.
        -- apply Permutation_length in Hp. rewrite !length_app in *. cbn [length] in *. lia.
        -- rewrite length_app in *. done.
    + cbn [threadpool]. destruct (split_at t pool) as [[[a' pc] b']|] eqn:Ht.
      2:{ apply split_at_None in Ht. destruct Ht. assert (t ∈ term ++ join_targets a ++ t :: join_targets b) as [?|?]%H3.
          { apply elem_of_app. right. apply elem_of_app. right. left. }
          all: apply list_elem_of_fmap; eexists (t, _); split; [done|eassumption]. }
      apply bool_decide_eq_true in Hop as ->. apply split_at_spec in Ht. subst pool. thread_run. split; [|done].
      rewrite !fmap_app in H1. cbn in H1. rewrite <- Permutation_middle in H1. apply NoDup_cons in H1 as [Hno H1]. rewrite <- fmap_app in Hno, H1.
      assert (term ++ join_targets a ++ t :: join_targets b ≡ₚ t :: term ++ join_targets a ++ join_targets b) as Hp by (by rewrite <- !Permutation_middle).
      rewrite Hp in H2. apply NoDup_cons in H2 as [Hout H2].
      assert (∀ q, (t, q) ∉ a' ++ b') as Hnot by (intros q Hq; apply Hno, list_elem_of_fmap; by exists (t, q)).
      split; cbn [threadpool running_flags terminating_threads shutting_down removers to_write joined]; rewrite ?join_targets_app; try done.
      * intros u. destruct (decide (u = t)) as [->|Hne]; [split; [done|]; by intros [?%Hnot|?%Hnot]|].
        specialize (H3 u). rewrite Hp, elem_of_cons, <- !Permutation_middle, !elem_of_cons in H3. naive_solver.
      * intros u. rewrite H4, <- !Permutation_middle, !elem_of_cons. naive_solver.
      * rewrite !length_app in *. cbn [length] in *. thread_count.
      * rewrite !length_app in *. cbn [length] in *. thread_count.
      * rewrite !length_app in *. cbn [length] in *. thread_count.
      * destruct H10 as [-> _]; [done|]. intros k e Hk. lia.
  - apply andb_prop in Hop as [Hsd%negb_true_iff Hr%bool_decide_eq_true]. unfold begin_shutdown. thread_run. rewrite app_nil_r. subst sd rem. split; [|done].
    pose proof (looping_flags _ _ Hi) as Hlf. cbn -[count_pc] in Hlf.
    split; cbn [threadpool running_flags terminating_threads shutting_down removers to_write joined]; try done; [intros _; split; [cbn -[count_pc]; lia|done]|intros ? ? ?; lia].
  - unfold write_shutdown. thread_run. destruct tw as [n|]; [|done]. thread_run. split; [|done].
    assert (sd = true) as -> by (destruct sd; [done|by destruct H10 as [_ ?]]). destruct (H6 eq_refl) as [H6' H6''].
    split; cbn [threadpool running_flags terminating_threads shutting_down removers to_write joined]; try done; try thread_count.
    intros _. split; [thread_count|done].
  - apply andb_prop in Hop as [[-> Htw%bool_decide_eq_true]%andb_prop Hj]. unfold join_next. thread_run. rewrite app_nil_r. subst tw. split; [|done].
    split; cbn [threadpool running_flags terminating_threads shutting_down removers to_write joined]; try done.
    intros k e Hk He. destruct (decide (k = jn)) as [->|]; [|apply (H9 k e); [lia|done]]. rewrite He in Hj. destruct e as [u p].
    by apply bool_decide_eq_true in Hj.
Qed.
Lemma thread_reachable s h : reachable dispatcher_machine s h → thread_inv s h.
Proof.
  apply (reachable_invariant dispatcher_machine).
  - intros s0 [t ->]. split; cbn; try done; try lia; try (by repeat constructor; apply not_elem_of_nil).
    + intros u. rewrite !list_elem_of_singleton. split; [by intros ?%elem_of_nil|by intros [[=]|[=]]].
    + intros u. rewrite !list_elem_of_singleton, lookup_empty. split; [by intros [? ?]|by intros [[=]|[[=]|[=]]]].
  - intros s0 h0 op _ Hs Hop. by apply thread_step.
Qed.

(** C36. Threads come and go as they are told.  In every reachable state no step
    fails.  Before the destructor, the tokens and the threads on their way out
    are those that callers of [remove_thread] asked for, and those that left by
    an exception: without exceptions each call that returns joined a thread that
    left for it.  In the destructor there is a token for every thread in the
    loop, so each thread that has not ended can step towards its end, no step
    leads away from it, and what is to be joined next ends. *)
Theorem threads_come_and_go s h : reachable dispatcher_machine s h →
  (∀ op, thread_allowed s h op = true → value (thread_exec op s) = Ret tt) ∧
  (shutting_down s = false →
     (written h - gone h) + count_pc Unregistering (threadpool s) + length (terminating_threads s) = waiting (removers s) + failures h + exceptions h)%nat ∧
  (shutting_down s = true →
     (∀ op, thread_allowed s h op = true → steps_left (threadpool (post (thread_exec op s))) ≤ steps_left (threadpool s))%nat ∧
     (to_write s = None → ∀ t pc, (t, pc) ∈ threadpool s → pc ≠ Ended →
        thread_allowed s h (OpThread t ExitReady) = true ∧
        (steps_left (threadpool (post (thread_turn t ExitReady s))) < steps_left (threadpool s))%nat) ∧
     (to_write s = None → steps_left (threadpool s) = 0%nat → (joined s < length (threadpool s))%nat → thread_allowed s h OpJoinNext = true)).
Proof.
  intros Hi%thread_reachable. pose proof Hi as [H1 H2 H3 H4 H5 H6 H7 H8 H9 H10]. split; [|split].
  - intros op Hop. by apply (thread_step s h op).
  - intros Hsd. specialize (H8 Hsd). assert (length (removers s) = waiting (removers s) + length (join_targets (removers s)))%nat as Hl.
    { clear. unfold waiting. induction (removers s) as [|[c [|t]] l IH]; [done|..]; rewrite filter_cons, join_targets_cons; case_decide; cbn [length snd] in *; try congruence; lia. }
    lia.
  - intros Hsd. destruct (H6 Hsd) as [Hlive Hrem]. split; [|split].
    + intros op Hop. by apply (thread_step s h op).
    + intros Htw t pc Hin Hpc. rewrite Htw in Hlive. cbn -[count_pc] in Hlive.
      assert (thread_allowed s h (OpThread t ExitReady) = true) as Hop.
      { cbn. destruct (split_at t (threadpool s)) as [[[a q] b]|] eqn:Hs.
        - destruct q; try done. apply bool_decide_eq_true. apply split_at_spec in Hs. rewrite Hs, count_middle in Hlive. case_decide; [lia|done].
        - apply split_at_None in Hs. destruct Hs. apply list_elem_of_fmap. by exists (t, pc). }
      split; [done|]. eapply thread_turn_inv; [done..|]. by exists pc.
    + intros Htw Hleft Hj. cbn. rewrite Hsd, Htw, bool_decide_true by done. cbn.
      destruct (lookup_lt_is_Some_2 _ _ Hj) as [[t pc] He]. rewrite He. apply bool_decide_eq_true.
      apply list_elem_of_lookup_2 in He. clear -He Hleft. induction (threadpool s) as [|[u q] l IH]; [by apply elem_of_nil in He|].
      cbn in Hleft. apply elem_of_cons in He as [[= <- <-]|He]; [destruct pc; cbn in Hleft; done || lia|]. apply IH; try done. unfold steps_left. lia.
Qed.

(** *** Examples *)
Definition dispatcher_example_ops : list thread_op :=
  [ OpThread 1 EventStolen; OpAddThread 2; OpThread 2 EventStolen; OpRemoveThread 50; OpThread 2 ExitReady; OpThread 2 EventStolen ].
Definition new_dispatcher : ThreadedDispatcher := mkDispatcher [(1, Starting)] ∅ [] false [] None 0.
Definition dispatcher_example_run := run_ops dispatcher_machine dispatcher_example_ops new_dispatcher [].
Definition dispatcher_example_state : ThreadedDispatcher := (default (new_dispatcher, []) dispatcher_example_run).1.
Definition dispatcher_example_history : list thread_obs := (default (new_dispatcher, []) dispatcher_example_run).2.
Lemma dispatcher_example_reachable : reachable dispatcher_machine dispatcher_example_state dispatcher_example_history.
Proof. apply (run_ops_from_init dispatcher_machine dispatcher_example_ops new_dispatcher); [by exists 1|]. vm_compute. reflexivity. Qed.
Lemma threads_come_and_go_witness : terminating_threads dispatcher_example_state = [2] ∧ threadpool dispatcher_example_state = [(1, Looping); (2, Erasing)] ∧
  value (thread_exec (OpRemoveTurn 50 false) dispatcher_example_state) = Ret tt.
Proof.
  split; [vm_compute; reflexivity|]. split; [vm_compute; reflexivity|].
  apply (proj1 (threads_come_and_go _ _ dispatcher_example_reachable)). vm_compute. reflexivity.
Defined.
(** A thread that an exception ended is joined by the next [remove_thread]; the
    token of that call ends another thread, which stays in the pool. *)
Lemma removal_after_exception_ends_two :
  let ops := [ OpThread 1 EventStolen; OpAddThread 2; OpThread 2 EventStolen; OpThread 1 SourceThrows; OpThread 1 EventStolen; OpThread 1 EventStolen;
               OpRemoveThread 50; OpRemoveTurn 50 false; OpRemoveTurn 50 false; OpThread 2 ExitReady; OpThread 2 EventStolen; OpThread 2 EventStolen ] in
  match run_ops dispatcher_machine ops new_dispatcher [] with
  | Some (s, h) => removals h = 1%nat ∧ threadpool s = [(2, Ended)] ∧ exceptions h = 1%nat
  | None => False
  end.
Proof. vm_compute. done. Qed.

