(* ===== verification/MainLoop.v ===== *)
(** The actions of the main loop (server/glib_main_loop.cpp,
    glib_main_loop_sources.cpp).

    An iteration of GLib's context first collects the ready sources of the
    highest priority, then dispatches them one by one; what any thread does in
    between are steps of their own.  Sources and owners are numbers; [None] is
    the null owner of [spawn].  Timers and descriptors are sources too: the
    former are the alarms of [FrameDropping]. *)

From S2P Require Import Prelude.

Inductive loop_source :=
  (** [add_server_action_gsource]: what [should_dispatch] asks *)
  | ServerAction (owner : option Z)
  (** the idle source of [stop], of high priority *)
  | StopSource.
#[export] Instance loop_source_eq_dec : EqDecision loop_source.
Proof. solve_decision. Defined.

Record MainLoop := mkMainLoop {
  running : bool;
  main_loop_exception : option exn;
  do_not_process : list Z;
  (** attached to the context, and what the iteration has still to dispatch *)
  sources : gmap Z loop_source;
  next_source : Z;
  collected : list Z;
  (** a thread is in [run] *)
  in_run : bool
}.
Inductive loop_obs :=
  | Attached (id : Z) (source : loop_source)
  | Paused (owner : Z)
  | Resumed (owner : Z)
  | RunBegins
  | Collected (ids : list Z)
  (** the action runs and, perhaps, throws *)
  | ActionRuns (id : Z) (r : outcome unit)
  | RunEnds (r : outcome unit).
#[local] Abbreviation M := (prog MainLoop loop_obs).

Definition set_running (b : bool) (s : MainLoop) : MainLoop :=
  mkMainLoop b (main_loop_exception s) (do_not_process s) (sources s) (next_source s) (collected s) (in_run s).
Definition set_exception (e : option exn) (s : MainLoop) : MainLoop :=
  mkMainLoop (running s) e (do_not_process s) (sources s) (next_source s) (collected s) (in_run s).
Definition set_paused (l : list Z) (s : MainLoop) : MainLoop :=
  mkMainLoop (running s) (main_loop_exception s) l (sources s) (next_source s) (collected s) (in_run s).
Definition set_sources (m : gmap Z loop_source) (s : MainLoop) : MainLoop :=
  mkMainLoop (running s) (main_loop_exception s) (do_not_process s) m (next_source s) (collected s) (in_run s).
Definition set_collected (l : list Z) (s : MainLoop) : MainLoop :=
  mkMainLoop (running s) (main_loop_exception s) (do_not_process s) (sources s) (next_source s) l (in_run s).
Definition set_in_run (b : bool) (s : MainLoop) : MainLoop :=
  mkMainLoop (running s) (main_loop_exception s) (do_not_process s) (sources s) (next_source s) (collected s) b.

Definition attach (source : loop_source) : M unit :=
  let* s := pget in
  do* pemit (Attached (next_source s) source) in
  pput (mkMainLoop (running s) (main_loop_exception s) (do_not_process s) (<[next_source s := source]> (sources s)) (next_source s + 1) (collected s) (in_run s)).
Definition enqueue_action (owner : Z) : M unit := attach (ServerAction (Some owner)).
Definition spawn : M unit := attach (ServerAction None).
Definition stop : M unit := attach StopSource.
Definition pause_processing_for (owner : Z) : M unit :=
  do* pemit (Paused owner) in
  pmodify (λ s, if bool_decide (owner ∈ do_not_process s) then s else set_paused (do_not_process s ++ [owner]) s).
Definition resume_processing_for (owner : Z) : M unit :=
  do* pemit (Resumed owner) in
  pmodify (λ s, set_paused (filter (λ o, o ≠ owner) (do_not_process s)) s).
Definition should_process_actions_for (s : MainLoop) (owner : Z) : bool := bool_decide (owner ∉ do_not_process s).
Definition handle_exception (e : exn) : M unit := do* pmodify (set_exception (Some e)) in stop.

(** ** The loop *)

(** [prepare] and [check] of a source. *)
Definition ready (s : MainLoop) (source : loop_source) : bool :=
  match source with
  | ServerAction (Some owner) => should_process_actions_for s owner
  | ServerAction None | StopSource => true
  end.
Definition begin_run : M unit := do* pemit RunBegins in pmodify (λ s, set_in_run true (set_running true (set_exception None s))).
(** [g_main_context_iteration] collects [ids]. *)
Definition collect (ids : list Z) : M unit := do* pemit (Collected ids) in pmodify (set_collected ids).
(** It dispatches the next of them; an action's result comes with the step. *)
Definition dispatch_next (r : outcome unit) : M unit :=
  let* s := pget in
  match collected s with
  | [] => pret tt
  | id :: rest =>
      do* pput (set_collected rest (set_sources (delete id (sources s)) s)) in
      match sources s !! id with
      | Some (ServerAction _) =>
          do* pemit (ActionRuns id r) in
          match r with Ret _ => pret tt | Throw e => handle_exception e end
      | Some StopSource => pmodify (set_running false)
      | None => pret tt
      end
  end.
(** The end of the iteration; the condition of [while (running)] is false. *)
Definition end_run : M unit :=
  let* s := pget in
  do* pemit (RunEnds (match main_loop_exception s with Some e => Throw e | None => Ret tt end)) in
  pmodify (set_in_run false).

(** ** As a machine *)
Inductive loop_op :=
  | OpEnqueueAction (owner : Z)
  | OpSpawn
  | OpStop
  | OpPause (owner : Z)
  | OpResume (owner : Z)
  | OpBeginRun
  | OpCollect (ids : list Z)
  | OpDispatch (r : outcome unit)
  | OpEndRun.
Definition loop_exec (op : loop_op) : M unit :=
  match op with
  | OpEnqueueAction owner => enqueue_action owner
  | OpSpawn => spawn
  | OpStop => stop
  | OpPause owner => pause_processing_for owner
  | OpResume owner => resume_processing_for owner
  | OpBeginRun => begin_run
  | OpCollect ids => collect ids
  | OpDispatch r => dispatch_next r
  | OpEndRun => end_run
  end.
(** The ready sources of the highest priority. *)
Definition ready_ids (s : MainLoop) : gset Z :=
  let stops := dom (filter (λ x, x.2 = StopSource) (sources s)) in
  if bool_decide (stops = ∅) then dom (filter (λ x, ready s x.2 = true) (sources s)) else stops.
Definition loop_allowed (s : MainLoop) (_ : list loop_obs) (op : loop_op) : bool :=
  match op with
  | OpBeginRun => negb (in_run s)
  (** the loop runs on, and the iteration before has ended *)
  | OpCollect ids => in_run s && running s && bool_decide (collected s = [] ∧ NoDup ids ∧ list_to_set ids = ready_ids s ∧ ids ≠ [])
  | OpDispatch _ => bool_decide (collected s ≠ [])
  | OpEndRun => in_run s && negb (running s) && bool_decide (collected s = [])
  | _ => true
  end.
Definition loop_machine : machine :=
  Machine MainLoop loop_op loop_obs (λ s, s = mkMainLoop false None [] ∅ 0 [] false) loop_allowed loop_exec.

(** ** Properties *)

(** The actions given to the loop, and those that ran. *)
Definition attached_step (m : gmap Z loop_source) (ob : loop_obs) : gmap Z loop_source :=
  match ob with Attached id source => <[id := source]> m | _ => m end.
Definition attached (h : list loop_obs) : gmap Z loop_source := foldl attached_step ∅ h.
Definition ran (h : list loop_obs) : list Z := h ≫= λ ob, match ob with ActionRuns id _ => [id] | _ => [] end.
(** Owners that were paused and not resumed. *)
Definition paused_step (q : gset Z) (ob : loop_obs) : gset Z :=
  match ob with Paused o => {[o]} ∪ q | Resumed o => q ∖ {[o]} | _ => q end.
Definition paused (h : list loop_obs) : gset Z := foldl paused_step ∅ h.
(** What was thrown last since [run] began. *)
Definition thrown_step (q : option exn) (ob : loop_obs) : option exn :=
  match ob with RunBegins => None | ActionRuns _ (Throw e) => Some e | _ => q end.
Definition thrown (h : list loop_obs) : option exn := foldl thrown_step None h.

Record loop_inv (s : MainLoop) (h : list loop_obs) : Prop := {
  l_next : ∀ id, id ∈ dom (attached h) → id < next_source s;
  l_sources : ∀ id source, sources s !! id = Some source → attached h !! id = Some source;
  l_ran : NoDup (ran h) ∧ ∀ id, id ∈ ran h → sources s !! id = None ∧ is_Some (attached h !! id);
  l_kept : ∀ id owner, attached h !! id = Some (ServerAction owner) → id ∈ ran h ∨ is_Some (sources s !! id);
  l_collected : NoDup (collected s) ∧ ∀ id, id ∈ collected s → is_Some (sources s !! id);
  l_paused : ∀ o, o ∈ do_not_process s ↔ o ∈ paused h;
  l_thrown : main_loop_exception s = thrown h
}.
(** An exception has the loop stop. *)
Definition stopping (s : MainLoop) : Prop := is_Some (main_loop_exception s) → running s = false ∨ ∃ id, sources s !! id = Some StopSource.
Lemma attached_app h tr : attached (h ++ tr) = foldl attached_step (attached h) tr.
Proof. apply foldl_app. Qed.
Lemma ran_app h tr : ran (h ++ tr) = ran h ++ ran tr.
Proof. apply bind_app. Qed.
Lemma paused_owners_app h tr : paused (h ++ tr) = foldl paused_step (paused h) tr.
Proof. apply foldl_app. Qed.
Lemma thrown_app h tr : thrown (h ++ tr) = foldl thrown_step (thrown h) tr.
Proof. apply foldl_app. Qed.

Lemma elem_of_ready_ids s id : id ∈ ready_ids s →
  ∃ source, sources s !! id = Some source ∧ ready s source = true ∧ (source = StopSource ∨ ∀ x, sources s !! x ≠ Some StopSource).
Proof.
  unfold ready_ids. set (stops := dom _). case_bool_decide as He.
  - intros (x & [Hx Hr]%map_lookup_filter_Some)%elem_of_dom. exists x. split; [done|]. split; [done|]. right. intros y Hy.
    assert (y ∈ stops) as Hin; [|by rewrite He in Hin; apply elem_of_empty in Hin].
    apply elem_of_dom. exists StopSource. by apply map_lookup_filter_Some.
  - intros (x & [Hx Heq]%map_lookup_filter_Some)%elem_of_dom. cbn in Heq. subst x. exists StopSource. split; [done|]. split; [done|by left].
Qed.
Lemma ready_is_collected s id source : (∀ x, sources s !! x ≠ Some StopSource) → sources s !! id = Some source → ready s source = true → id ∈ ready_ids s.
Proof.
  intros Hno Hs Hr. unfold ready_ids. rewrite bool_decide_true.
  - apply elem_of_dom. exists source. by apply map_lookup_filter_Some.
  - apply set_eq. intros x. split; [|by intros ?%elem_of_empty]. intros (y & [Hy Heq]%map_lookup_filter_Some)%elem_of_dom. cbn in Heq. subst y. by destruct (Hno x).
Qed.

Lemma attach_run source s : attach source s =
  Run (Ret tt) (mkMainLoop (running s) (main_loop_exception s) (do_not_process s) (<[next_source s := source]> (sources s)) (next_source s + 1) (collected s) (in_run s))
    [Attached (next_source s) source].
Proof. done. Qed.
Lemma attach_inv s h source : loop_inv s h → let r := attach source s in
  loop_inv (post r) (h ++ trace r) ∧ (stopping s ∨ source = StopSource → stopping (post r)).
Proof.
  intros [H1 H2 H3 H4 H5 H6 H7]. rewrite attach_run. cbn [post trace].
  assert (sources s !! next_source s = None) as Hn.
  { destruct (sources s !! next_source s) eqn:Hx; [|done]. apply H2 in Hx. apply (mk_is_Some), elem_of_dom, H1 in Hx. lia. }
  assert (attached h !! next_source s = None) as Ha by (apply not_elem_of_dom; intros ?%H1; lia).
  split.
  - split; rewrite ?attached_app, ?ran_app, ?paused_owners_app, ?thrown_app; cbn; rewrite ?app_nil_r; try done.
    + intros id. rewrite dom_insert, elem_of_union, elem_of_singleton. intros [->|?%H1]; lia.
    + intros id x. destruct (decide (id = next_source s)) as [->|]; [by rewrite !lookup_insert_eq|]. rewrite !lookup_insert_ne by done. apply H2.
    + destruct H3 as [Hnd H3]. split; [done|]. intros id Hid. destruct (H3 id Hid) as [Hs Hat]. destruct (decide (id = next_source s)) as [->|].
      * rewrite Ha in Hat. by destruct Hat.
      * by rewrite !lookup_insert_ne.
    + intros id o. destruct (decide (id = next_source s)) as [->|]; [rewrite !lookup_insert_eq; by right; eexists|]. rewrite !lookup_insert_ne by done. apply H4.
    + destruct H5 as [Hnd H5]. split; [done|]. intros id Hid. destruct (decide (id = next_source s)) as [->|]; [rewrite lookup_insert_eq; by eexists|].
      rewrite lookup_insert_ne by done. by apply H5.
  - intros [Hst| ->] He; cbn in *.
    + destruct (Hst He) as [?|[id Hid]]; [by left|]. right. exists id. rewrite lookup_insert_ne; [done|]. intros <-. congruence.
    + right. eexists. apply lookup_insert_eq.
Qed.
(** A source is dispatched. *)
Lemma dispatch_inv s h id rest source r : loop_inv s h → collected s = id :: rest → sources s !! id = Some source →
  let s1 := set_collected rest (set_sources (delete id (sources s)) s) in
  match source with
  | ServerAction _ => loop_inv (match r with Throw e => set_exception (Some e) s1 | Ret _ => s1 end) (h ++ [ActionRuns id r])
  | StopSource => loop_inv (set_running false s1) h
  end.
Proof.
  intros [H1 H2 [H3 H3'] H4 [H5 H5'] H6 H7] Hc Hs s1. rewrite Hc in H5, H5'. apply NoDup_cons in H5 as [Hid H5].
  assert (id ∉ ran h) as Hran by (intros Hin; destruct (H3' id Hin) as [? _]; congruence).
  assert (∀ x y, delete id (sources s) !! x = Some y ↔ x ≠ id ∧ sources s !! x = Some y) as Hdel by (intros; rewrite lookup_delete_Some; naive_solver).
  assert (∀ x, x ∈ rest → is_Some (delete id (sources s) !! x)) as Hrest.
  { intros x Hx. rewrite lookup_delete_ne by (by intros ->). apply H5'. by right. }
  destruct source as [o|].
  - assert (loop_inv (set_exception (match r with Throw e => Some e | Ret _ => main_loop_exception s end) s1) (h ++ [ActionRuns id r])) as Hi.
    { split; rewrite ?attached_app, ?ran_app, ?paused_owners_app, ?thrown_app; cbn; rewrite ?app_nil_r; try done.
      - intros x y [_ Hx]%Hdel. by apply H2.
      - split; [apply NoDup_app; split; [done|]; split; [by intros x Hx ->%list_elem_of_singleton|apply NoDup_singleton]|].
        intros x [Hx| ->%list_elem_of_singleton]%elem_of_app; [|rewrite lookup_delete_eq; split; [done|]; eexists; by apply H2].
        destruct (H3' x Hx) as [? ?]. split; [apply lookup_delete_None; by right|done].
      - intros x o' Hx. rewrite elem_of_app, list_elem_of_singleton. destruct (decide (x = id)) as [->|]; [tauto|].
        rewrite lookup_delete_ne by done. destruct (H4 x o' Hx); tauto.
      - rewrite <- H7. by destruct r. }
    by destruct r as [[]|e]; destruct s.
  - split; cbn; try done.
    + intros x y [_ Hx]%Hdel. by apply H2.
    + split; [done|]. intros x Hx. destruct (H3' x Hx) as [? ?]. split; [apply lookup_delete_None; by right|done].
    + intros x o' Hx. destruct (H4 x o' Hx) as [?|[y Hy]]; [by left|right]. exists y. apply Hdel. split; [|done]. intros ->.
      apply H2 in Hs. congruence.
Qed.
Lemma loop_step s h op : loop_inv s h → stopping s → loop_allowed s h op = true →
  let r := loop_exec op s in loop_inv (post r) (h ++ trace r) ∧ stopping (post r) ∧ value r = Ret tt.
Proof.
  intros Hi Hst Hop. pose proof Hi as [H1 H2 H3 H4 H5 H6 H7].
  assert (∀ source, let r := attach source s in loop_inv (post r) (h ++ trace r) ∧ stopping (post r) ∧ value r = Ret tt) as Hattach.
  { intros source. destruct (attach_inv s h source Hi) as [? ?]. split_and!; auto. }
  destruct op as [owner| | |owner|owner| |ids|r|]; cbn [loop_exec]; try apply Hattach; cbn [loop_allowed] in Hop.
  - unfold pause_processing_for. rewrite pbind_emit. cbn [pmodify post trace value]. case_bool_decide as Ho; (split; [|by split]);
      (split; rewrite ?attached_app, ?ran_app, ?paused_owners_app, ?thrown_app; cbn -[union]; rewrite ?app_nil_r; try done);
      intros o; rewrite elem_of_union, elem_of_singleton, <- H6; [|rewrite elem_of_app, list_elem_of_singleton]; naive_solver.
  - cbn. split; [|split; done]. split; rewrite ?attached_app, ?ran_app, ?paused_owners_app, ?thrown_app; cbn -[difference]; rewrite ?app_nil_r; try done.
    intros o. rewrite elem_of_difference, elem_of_singleton, <- H6, list_elem_of_filter. naive_solver.
  - cbn. split; [|split; [by intros [? ?]|done]]. split; rewrite ?attached_app, ?ran_app, ?paused_owners_app, ?thrown_app; cbn; rewrite ?app_nil_r; done.
  - cbn. apply andb_prop in Hop as [_ (_ & Hnd & Hids & _)%bool_decide_eq_true]. split; [|split; done].
    split; rewrite ?attached_app, ?ran_app, ?paused_owners_app, ?thrown_app; cbn; rewrite ?app_nil_r; try done.
    split; [done|]. intros id Hid. assert (id ∈ ready_ids s) as (x & Hx & _)%elem_of_ready_ids by (rewrite <- Hids; by apply elem_of_list_to_set). by eexists.
  - apply bool_decide_eq_true in Hop. unfold dispatch_next. rewrite pbind_get. destruct (collected s) as [|id rest] eqn:Hc; [done|].
    rewrite pbind_put. destruct H5 as [_ H5]. destruct (H5 id ltac:(left)) as [source Hs]. pose proof (dispatch_inv s h id rest source r Hi Hc Hs) as Hd.
    rewrite Hs. destruct source as [o|].
    + set (s1 := set_collected rest _) in *. rewrite pbind_emit.
      assert (stopping s1) as Hs1.
      { intros He. destruct (Hst He) as [?|[x Hx]]; [by left|right]. exists x. cbn. rewrite lookup_delete_ne; [done|]. intros <-. congruence. }
      destruct r as [[]|e]; [by split|]. unfold handle_exception, stop. rewrite pbind_modify. cbn [post trace value].
      destruct (attach_inv _ _ StopSource Hd) as [Ha Hb]. split; [|split; [apply Hb; by right|done]].
      rewrite <- app_assoc in Ha. exact Ha.
    + cbn. rewrite app_nil_r. split; [done|]. split; [|done]. intros _. by left.
  - cbn. split; [|split; done]. split; rewrite ?attached_app, ?ran_app, ?paused_owners_app, ?thrown_app; cbn; rewrite ?app_nil_r; done.
Qed.
Lemma loop_reachable s h : reachable loop_machine s h → loop_inv s h ∧ stopping s.
Proof.
  apply (reachable_invariant loop_machine (λ s h, loop_inv s h ∧ stopping s)).
  - intros s0 ->. split; [|by intros [? ?]]. split; cbn; try done; try set_solver; (split; [constructor|set_solver]).
  - intros s0 h0 op _ [Hi Hst] Hop. destruct (loop_step s0 h0 op Hi Hst Hop) as (? & ? & _). by split.
Qed.

(** C37. The main loop runs each action once.  In every reachable state an action
    given to the loop has run once or is still there.  An iteration collects no
    action of an owner that is paused, every other action if the loop was not
    asked to stop, and none if it was; only what was collected runs.  An
    exception has the loop stop: nothing but the request to stop is collected
    any more, and [run] throws what was thrown last since it began - and returns
    when nothing was. *)
Theorem main_loop_runs_actions s h : reachable loop_machine s h →
  NoDup (ran h) ∧ (∀ id owner, attached h !! id = Some (ServerAction owner) → (id ∈ ran h ↔ sources s !! id = None)) ∧
  (∀ ids, loop_allowed s h (OpCollect ids) = true →
     (∀ id owner, id ∈ ids → sources s !! id = Some (ServerAction (Some owner)) → owner ∉ paused h) ∧
     (∀ id owner, sources s !! id = Some (ServerAction owner) →
        id ∈ ids ↔ (∀ x, sources s !! x ≠ Some StopSource) ∧ (∀ o, owner = Some o → o ∉ paused h)) ∧
     (is_Some (thrown h) → ∀ id, id ∈ ids → sources s !! id = Some StopSource)) ∧
  (∀ r id, ran (h ++ trace (dispatch_next r s)) = ran h ++ [id] → head (collected s) = Some id) ∧
  trace (end_run s) = [RunEnds (match thrown h with Some e => Throw e | None => Ret tt end)].
Proof.
  intros [Hi Hst]%loop_reachable. pose proof Hi as [H1 H2 [H3 H3'] H4 H5 H6 H7]. split; [done|]. split; [|split; [|split]].
  - intros id o Ho. split; [intros Hin; by apply H3'|]. intros Hn. destruct (H4 id o Ho) as [?|[? ?]]; [done|congruence].
  - intros ids Hop. cbn in Hop. apply andb_prop in Hop as [[_ Hrun]%andb_prop (_ & _ & Hids & _)%bool_decide_eq_true].
    assert (∀ id, id ∈ ids ↔ id ∈ ready_ids s) as Hin by (intros id; by rewrite <- Hids, elem_of_list_to_set).
    assert (∀ o, ready s (ServerAction o) = true ↔ ∀ o', o = Some o' → o' ∉ paused h) as Hready.
    { intros [o|]; cbn; [|split; done]. unfold should_process_actions_for. rewrite bool_decide_eq_true, H6. naive_solver. }
    split; [|split].
    + intros id o (x & Hx & Hr & _)%Hin%elem_of_ready_ids Hs. rewrite Hs in Hx. injection Hx as <-. by apply (proj1 (Hready (Some o)) Hr).
    + intros id o Hs. rewrite Hin. split.
      * intros (x & Hx & Hr & Hno)%elem_of_ready_ids. rewrite Hs in Hx. injection Hx as <-. destruct Hno as [?|Hno]; [done|]. split; [done|by apply Hready].
      * intros [Hno Hr]. eapply ready_is_collected; [done..|by apply Hready].
    + rewrite <- H7. intros He id (x & Hx & _ & [->|Hno])%Hin%elem_of_ready_ids; [done|]. destruct (Hst He) as [?|[y Hy]]; [congruence|by destruct (Hno y)].
  - intros r id. rewrite ran_app. intros Heq%app_inv_head. unfold dispatch_next in Heq. rewrite pbind_get in Heq.
    destruct (collected s) as [|x rest]; [done|]. rewrite pbind_put in Heq. cbn. f_equal.
    destruct (sources s !! x) as [[o|]|]; [|done..]. rewrite pbind_emit in Heq. cbn in Heq. by injection Heq.
  - cbn. by rewrite H7.
Qed.

(** *** Examples *)
Definition loop_example_ops : list loop_op :=
  [ OpEnqueueAction 1; OpEnqueueAction 2; OpSpawn; OpPause 2; OpBeginRun; OpCollect [0; 2]; OpDispatch (Ret tt);
    OpDispatch (Throw (runtime_error "work")) ].
Definition new_loop : MainLoop := mkMainLoop false None [] ∅ 0 [] false.
Definition loop_example_run := run_ops loop_machine loop_example_ops new_loop [].
Definition loop_example_state : MainLoop := (default (new_loop, []) loop_example_run).1.
Definition loop_example_history : list loop_obs := (default (new_loop, []) loop_example_run).2.
Lemma loop_example_reachable : reachable loop_machine loop_example_state loop_example_history.
Proof. apply (run_ops_from_init loop_machine loop_example_ops new_loop); [done|]. vm_compute. reflexivity. Qed.
Lemma main_loop_runs_actions_witness : ran loop_example_history = [0; 2] ∧ thrown loop_example_history = Some (runtime_error "work") ∧
  sources loop_example_state = {[1 := ServerAction (Some 2); 3 := StopSource]} ∧
  ∀ id, id ∈ [3] → sources loop_example_state !! id = Some StopSource.
Proof.
  split; [vm_compute; reflexivity|]. split; [vm_compute; reflexivity|]. split; [vm_compute; reflexivity|].
  destruct (main_loop_runs_actions _ _ loop_example_reachable) as (_ & _ & Hc & _). destruct (Hc [3]) as (_ & _ & He); [vm_compute; reflexivity|].
  apply He. by eexists.
Defined.
