(* ===== verification/InputDevices.v ===== *)
(** The settings of input devices and the configurations that describe them
    (server/input/default_device.cpp, common/input/mir_input_config.cpp).

    A [DefaultDevice] is what the server keeps of a device; its methods are
    programs on it.  What they put into the device's queue and tell the key
    mapper are the observations. *)

From S2P Require Import Prelude Float32.

(** ** Settings *)
Definition float64 : Type := spec_float.
#[export] Instance float64_eq_dec : EqDecision float64 := float32_eq_dec.
Definition f64_of_int (z : Z) : float64 := binary_normalize 53 1024 z 0 false.

Record PointerSettings := mkPointerSettings {
  handedness : Z;
  cursor_acceleration_bias : float64;
  acceleration : Z;
  horizontal_scroll_scale : float64;
  vertical_scroll_scale : float64
}.
Record TouchpadSettings := mkTouchpadSettings {
  click_mode : Z;
  scroll_mode : Z;
  button_down_scroll_button : Z;
  tap_to_click : bool;
  disable_while_typing : bool;
  disable_with_mouse : bool;
  middle_mouse_button_emulation : bool
}.
Record Keymap := mkKeymap { keymap_model : string; keymap_layout : string; keymap_variant : string; keymap_options : string }.
#[export] Instance pointer_settings_eq_dec : EqDecision PointerSettings.
Proof. solve_decision. Defined.
#[export] Instance touchpad_settings_eq_dec : EqDecision TouchpadSettings.
Proof. solve_decision. Defined.
#[export] Instance keymap_eq_dec : EqDecision Keymap.
Proof. solve_decision. Defined.
Definition default_keymap : Keymap := mkKeymap "pc105+inet" "us" "" "".

Definition no_scroll_button : Z := 0.
Definition scroll_mode_button_down_scroll : Z := 4.
Definition capability_keyboard : Z := 4.

(** ** Configurations *)

(** [MirInputDevice] *)
Record InputDeviceConfig := mkDeviceConfig {
  config_id : Z;
  config_capabilities : Z;
  config_name : string;
  config_unique_id : string;
  pointer_config : option PointerSettings;
  touchpad_config : option TouchpadSettings;
  keyboard_config : option Keymap
}.
(** [MirInputConfig] *)
Definition InputConfig : Type := list InputDeviceConfig.
Definition add_device_config (conf : InputDeviceConfig) (c : InputConfig) : InputConfig := c ++ [conf].
Definition get_device_config_by_id (id : Z) (c : InputConfig) : option InputDeviceConfig := find_if (λ item, config_id item =? id) c.
Definition remove_device_by_id (id : Z) (c : InputConfig) : InputConfig := filter (λ conf, config_id conf ≠ id) c.

(** ** Devices *)
Record DefaultDevice := mkDevice {
  device_id : Z;
  capabilities : Z;
  device_name : string;
  unique_id : string;
  pointer : option PointerSettings;
  touchpad : option TouchpadSettings;
  keyboard : option Keymap;
  (** [actions] is set *)
  device_enabled : bool
}.
Inductive device_obs :=
  | ApplyPointer (id : Z) (settings : PointerSettings)
  | ApplyTouchpad (id : Z) (settings : TouchpadSettings)
  | SetKeymap (id : Z) (keymap : Keymap).
#[local] Abbreviation M := (prog DefaultDevice device_obs).

Definition has_keyboard (d : DefaultDevice) : bool := negb (Z.land (capabilities d) capability_keyboard =? 0).
Definition set_pointer (p : PointerSettings) (d : DefaultDevice) : DefaultDevice :=
  mkDevice (device_id d) (capabilities d) (device_name d) (unique_id d) (Some p) (touchpad d) (keyboard d) (device_enabled d).
Definition set_touchpad (p : TouchpadSettings) (d : DefaultDevice) : DefaultDevice :=
  mkDevice (device_id d) (capabilities d) (device_name d) (unique_id d) (pointer d) (Some p) (keyboard d) (device_enabled d).
Definition set_keyboard (k : Keymap) (d : DefaultDevice) : DefaultDevice :=
  mkDevice (device_id d) (capabilities d) (device_name d) (unique_id d) (pointer d) (touchpad d) (Some k) (device_enabled d).
Definition disable_queue (d : DefaultDevice) : DefaultDevice :=
  mkDevice (device_id d) (capabilities d) (device_name d) (unique_id d) (pointer d) (touchpad d) (keyboard d) false.

(** What an [InputDevice] of a platform says of itself. *)
Record Hardware := mkHardware {
  hw_capabilities : Z;
  hw_name : string;
  hw_unique_id : string;
  hw_pointer : option PointerSettings;
  hw_touchpad : option TouchpadSettings
}.
(** [DefaultDevice::DefaultDevice] *)
Definition new_device (id : Z) (hw : Hardware) : DefaultDevice :=
  let d := mkDevice id (hw_capabilities hw) (hw_name hw) (hw_unique_id hw) (hw_pointer hw) (hw_touchpad hw) None true in
  if has_keyboard d then set_keyboard default_keymap d else d.
Definition new_device_obs (id : Z) (hw : Hardware) : list device_obs :=
  if keyboard (new_device id hw) is Some k then [SetKeymap id k] else [].

Definition bias_out_of_range (bias : float64) : bool := SFltb bias (f64_of_int (-1)) || SFltb (f64_of_int 1) bias.
Definition apply_pointer_configuration (conf : PointerSettings) : M unit :=
  let* d := pget in
  if pointer d is None then pthrow (invalid_argument "Cannot apply a pointer configuration")
  else if bias_out_of_range (cursor_acceleration_bias conf) then pthrow (invalid_argument "Cursor acceleration bias out of range")
  else
    do* pmodify (set_pointer conf) in
    pwhen (device_enabled d) (pemit (ApplyPointer (device_id d) conf)).
Definition no_button_to_scroll (conf : TouchpadSettings) : bool :=
  negb (Z.land (scroll_mode conf) scroll_mode_button_down_scroll =? 0) && (button_down_scroll_button conf =? no_scroll_button).
Definition apply_touchpad_configuration (conf : TouchpadSettings) : M unit :=
  let* d := pget in
  if touchpad d is None then pthrow (invalid_argument "Cannot apply a touchpad configuration")
  else if no_button_to_scroll conf then pthrow (invalid_argument "No scroll button configured")
  else
    do* pmodify (set_touchpad conf) in
    pwhen (device_enabled d) (pemit (ApplyTouchpad (device_id d) conf)).
Definition apply_keyboard_configuration (conf : Keymap) : M unit :=
  let* d := pget in
  if negb (has_keyboard d) then pthrow (invalid_argument "Cannot apply a keyboard configuration")
  else if negb (device_enabled d) then pret tt
  else
    match keyboard d with
    | Some k => if bool_decide (k = conf) then pret tt else do* pput (set_keyboard conf d) in pemit (SetKeymap (device_id d) conf)
    | None => pthrow (logic_error "Value not set")
    end.

(** [get_device_config] of config_changer.cpp, [from_handle] of default_input_device_hub.cpp *)
Definition get_device_config (d : DefaultDevice) : InputDeviceConfig :=
  mkDeviceConfig (device_id d) (capabilities d) (device_name d) (unique_id d) (pointer d) (touchpad d) (keyboard d).
(** [apply_device_config] of config_changer.cpp *)
Definition apply_device_config (config : option InputDeviceConfig) : M unit :=
  match config with
  | None => pret tt
  | Some c =>
      let* d := pget in
      do* match pointer_config c, pointer d with Some p, Some _ => apply_pointer_configuration p | _, _ => pret tt end in
      let* d := pget in
      do* match touchpad_config c, touchpad d with Some p, Some _ => apply_touchpad_configuration p | _, _ => pret tt end in
      let* d := pget in
      match keyboard_config c, keyboard d with Some k, Some _ => apply_keyboard_configuration k | _, _ => pret tt end
  end.

(** ** Properties *)

(** A keyboard has a keymap. *)
Definition device_ok (d : DefaultDevice) : Prop := has_keyboard d = true ↔ is_Some (keyboard d).
(** The configuration can be applied. *)
Definition valid_device_config (c : InputDeviceConfig) : bool :=
  (if pointer_config c is Some p then negb (bias_out_of_range (cursor_acceleration_bias p)) else true) &&
  (if touchpad_config c is Some p then negb (no_button_to_scroll p) else true).
(** The device has the settings that the configuration has for it. *)
Definition obeys (c : InputDeviceConfig) (d : DefaultDevice) : Prop :=
  (∀ p, pointer_config c = Some p → is_Some (pointer d) → pointer d = Some p) ∧
  (∀ p, touchpad_config c = Some p → is_Some (touchpad d) → touchpad d = Some p) ∧
  (∀ k, keyboard_config c = Some k → is_Some (keyboard d) → device_enabled d = true → keyboard d = Some k).
(** The same device, with other settings. *)
Definition same_device (d d' : DefaultDevice) : Prop :=
  device_id d' = device_id d ∧ capabilities d' = capabilities d ∧ device_enabled d' = device_enabled d ∧
  (is_Some (pointer d') ↔ is_Some (pointer d)) ∧ (is_Some (touchpad d') ↔ is_Some (touchpad d)) ∧ (is_Some (keyboard d') ↔ is_Some (keyboard d)).

Lemma new_device_ok id hw : device_ok (new_device id hw).
Proof.
  unfold device_ok, new_device. set (d := mkDevice _ _ _ _ _ _ _ _). destruct (has_keyboard d) eqn:Hk.
  - split; [intros _; by eexists|]. by intros _.
  - rewrite Hk. split; [done|]. by intros [? ?].
Qed.

Lemma apply_device_config_same c d : same_device d (post (apply_device_config c d)).
Proof.
  assert (∀ d, same_device d d) as Hrefl by done.
  assert (∀ (m : M unit) (k : DefaultDevice → M unit) d, (∀ d, same_device d (post (m d))) → (∀ d' d, same_device d (post (k d' d))) →
    same_device d (post (pbind m (λ _, pbind pget k) d))) as Hseq.
  { intros m k d0 Hm Hk. specialize (Hm d0). unfold pbind at 1. destruct (value (m d0)); cbn [post]; [|done].
    specialize (Hk (post (m d0)) (post (m d0))). rewrite pbind_get.
    destruct Hm as (A1 & A2 & A3 & A4 & A5 & A6), Hk as (B1 & B2 & B3 & B4 & B5 & B6).
    split_and!; congruence || (etransitivity; eassumption). }
  assert (∀ p d, same_device d (post (apply_pointer_configuration p d))) as Hp.
  { intros p d0. unfold apply_pointer_configuration. rewrite pbind_get. destruct (pointer d0) as [q|] eqn:Hq; [|done].
    destruct (bias_out_of_range _); [done|]. rewrite pbind_modify. unfold same_device.
    destruct (device_enabled d0) eqn:He; cbn; rewrite Hq, ?He; split_and!; done || (split; intros _; by eexists). }
  assert (∀ p d, same_device d (post (apply_touchpad_configuration p d))) as Ht.
  { intros p d0. unfold apply_touchpad_configuration. rewrite pbind_get. destruct (touchpad d0) as [q|] eqn:Hq; [|done].
    destruct (no_button_to_scroll _); [done|]. rewrite pbind_modify. unfold same_device.
    destruct (device_enabled d0) eqn:He; cbn; rewrite Hq, ?He; split_and!; done || (split; intros _; by eexists). }
  assert (∀ p d, same_device d (post (apply_keyboard_configuration p d))) as Hk.
  { intros k d0. unfold apply_keyboard_configuration. rewrite pbind_get. destruct (negb _); [done|]. destruct (negb _); [done|].
    destruct (keyboard d0) as [q|] eqn:Hq; [|done]. case_bool_decide; [done|]. rewrite pbind_put. unfold same_device. cbn.
    rewrite Hq. split_and!; done || (split; intros _; by eexists). }
  destruct c as [c|]; [|done]. unfold apply_device_config. rewrite pbind_get.
  do 2 (apply Hseq; [intros; by repeat case_match|]; intros ? ?). by repeat case_match.
Qed.

(** A valid configuration is applied. *)
Lemma apply_device_config_obeys c d : device_ok d → valid_device_config c = true →
  let r := apply_device_config (Some c) d in value r = Ret tt ∧ obeys c (post r).
Proof.
  intros Hd [Hp Ht]%andb_prop. unfold apply_device_config. rewrite pbind_get.
  assert (∃ d1 t, (match pointer_config c, pointer d with Some p, Some _ => apply_pointer_configuration p | _, _ => pret tt end : M unit) d = Run (Ret tt) d1 t ∧
    device_ok d1 ∧ (∀ p, pointer_config c = Some p → is_Some (pointer d1) → pointer d1 = Some p)) as (d1 & t1 & H1 & Hd1 & Hp1).
  { destruct (pointer_config c) as [p|]; [|by exists d, []]. destruct (pointer d) as [q|] eqn:Hq; [|exists d, []; split_and!; try done; intros ? _ [? ?]; congruence].
    unfold apply_pointer_configuration. rewrite pbind_get, Hq. apply negb_true_iff in Hp as ->. rewrite pbind_modify.
    exists (set_pointer p d). destruct (device_enabled d); cbn; eexists; split_and!; try done; by intros ? [= ->]. }
  rewrite (pbind_run _ _ _ _ _ _ _ H1 eq_refl), pbind_get.
  assert (∃ d2 t, (match touchpad_config c, touchpad d1 with Some p, Some _ => apply_touchpad_configuration p | _, _ => pret tt end : M unit) d1 = Run (Ret tt) d2 t ∧
    device_ok d2 ∧ pointer d2 = pointer d1 ∧ (∀ p, touchpad_config c = Some p → is_Some (touchpad d2) → touchpad d2 = Some p)) as (d2 & t2 & H2 & Hd2 & Hp2 & Ht2).
  { destruct (touchpad_config c) as [p|]; [|by exists d1, []]. destruct (touchpad d1) as [q|] eqn:Hq; [|exists d1, []; split_and!; try done; intros ? _ [? ?]; congruence].
    unfold apply_touchpad_configuration. rewrite pbind_get, Hq. apply negb_true_iff in Ht as ->. rewrite pbind_modify.
    exists (set_touchpad p d1). destruct (device_enabled d1); cbn; eexists; split_and!; try done; by intros ? [= ->]. }
  rewrite (pbind_run _ _ _ _ _ _ _ H2 eq_refl), pbind_get. cbn [value post trace].
  rewrite <- Hp2 in Hp1. unfold obeys. destruct (keyboard_config c) as [k|] eqn:Hck.
  - destruct (keyboard d2) as [q|] eqn:Hq.
    + unfold apply_keyboard_configuration. rewrite pbind_get. rewrite (proj2 Hd2) by by eexists. cbn [negb].
      destruct (device_enabled d2) eqn:He; cbn [negb].
      * rewrite Hq. case_bool_decide as Heq; cbn; (split; [done|]); split_and!; try done; intros ? [= <-] _ _; by subst.
      * cbn. split; [done|]. split_and!; try done. intros ? _ _. by rewrite He.
    + cbn. split; [done|]. split_and!; try done. intros ? _ [? ?]. congruence.
  - cbn. split; [done|]. by split_and!.
Qed.
(** What a device is configured to is a configuration it obeys. *)
Lemma obeys_own_config d : obeys (get_device_config d) d.
Proof. by split_and!. Qed.
(** The comparison lets a bias that is not a number pass. *)
Lemma nan_bias_is_in_range : bias_out_of_range S754_nan = false ∧ bias_out_of_range (f64_of_int 2) = true ∧ bias_out_of_range (f64_of_int 1) = false.
Proof. by vm_compute. Qed.
