(* ===== verification/InputHub.v ===== *)
(** The input devices of the server (server/input/default_input_device_hub.cpp).

    The platform adds and removes devices; what the rest of the server is told
    goes through the queue of the main loop ([observer_queue]), which runs its
    actions one at a time and in order.  Devices of the platform and observers
    are numbers. *)

From S2P Require Import Prelude InputDevices.

(** The actions the hub enqueues. *)
Inductive hub_action :=
  | AddHandle (d : DefaultDevice)
  | RemoveHandle (id : Z)
  | AddObserver (o : Z)
  | RemoveObserver (o : option Z).

Record DeviceHub := mkHub {
  (** the platform's devices with the ids of their handles *)
  devices : list (Z * Z);
  device_id_generator : Z;
  observer_queue : list hub_action;
  hub_handles : list DefaultDevice;
  hub_observers : list Z;
  hub_config : InputConfig;
  hub_ready : bool
}.
Inductive hub_obs :=
  | SeatAddDevice (id : Z)
  | SeatRemoveDevice (id : Z)
  | WatchQueue (id : Z)
  | UnwatchQueue (id : Z)
  | StartDevice (dev : Z)
  | StopDevice (dev : Z)
  | DeviceAdded (o id : Z)
  | DeviceRemoved (o id : Z)
  | ChangesComplete (o : Z)
  | InputConfigChange (c : InputConfig)
  | ReadyForUserInput
  | StopReceivingInput.
#[local] Abbreviation M := (prog DeviceHub hub_obs).

Definition set_devices (l : list (Z * Z)) (next : Z) (s : DeviceHub) : DeviceHub :=
  mkHub l next (observer_queue s) (hub_handles s) (hub_observers s) (hub_config s) (hub_ready s).
Definition set_queue (q : list hub_action) (s : DeviceHub) : DeviceHub :=
  mkHub (devices s) (device_id_generator s) q (hub_handles s) (hub_observers s) (hub_config s) (hub_ready s).
Definition set_known (l : list DefaultDevice) (c : InputConfig) (s : DeviceHub) : DeviceHub :=
  mkHub (devices s) (device_id_generator s) (observer_queue s) l (hub_observers s) c (hub_ready s).
Definition set_observers (l : list Z) (s : DeviceHub) : DeviceHub :=
  mkHub (devices s) (device_id_generator s) (observer_queue s) (hub_handles s) l (hub_config s) (hub_ready s).
Definition set_ready (b : bool) (s : DeviceHub) : DeviceHub :=
  mkHub (devices s) (device_id_generator s) (observer_queue s) (hub_handles s) (hub_observers s) (hub_config s) b.
Definition enqueue_action (a : hub_action) : M unit := pmodify (λ s, set_queue (observer_queue s ++ [a]) s).

(** ** Calls of the platform; [None] is a null pointer *)
Definition create_new_device_id (s : DeviceHub) : Z := int64 (device_id_generator s + 1).
Definition add_device (device : option (Z * Hardware)) : M unit :=
  match device with
  | None => pthrow (invalid_argument "Invalid input device")
  | Some (dev, hw) =>
      let* s := pget in
      match find_if (λ item, item.1 =? dev) (devices s) with
      | Some _ => pthrow (logic_error "Input device already managed by server")
      | None =>
          let id := create_new_device_id s in
          let handle := new_device id hw in
          do* pput (set_devices (devices s ++ [(dev, id)]) id s) in
          do* pemit (SeatAddDevice id) in
          (* [RegisteredDevice::start] *)
          do* pemit (WatchQueue id) in
          do* pemit (StartDevice dev) in
          enqueue_action (AddHandle handle)
      end
  end.
Definition remove_device (device : option Z) : M unit :=
  match device with
  | None => pthrow (invalid_argument "Invalid input device")
  | Some dev =>
      let* s := pget in
      do* pfor (filter (λ item, item.1 = dev) (devices s)) (λ item,
            do* pemit (SeatRemoveDevice item.2) in
            (* [RegisteredDevice::stop] *)
            do* pemit (UnwatchQueue item.2) in
            do* pemit (StopDevice dev) in
            enqueue_action (RemoveHandle item.2)) in
      if find_if (λ item, item.1 =? dev) (devices s) is None then pthrow (logic_error "Input device not managed by server")
      else pmodify (λ s, set_devices (filter (λ item, item.1 ≠ dev) (devices s)) (device_id_generator s) s)
  end.

(** ** Actions of the main loop *)
Definition add_device_handle (handle : DefaultDevice) : M unit :=
  do* pmodify (λ s, set_known (hub_handles s ++ [handle]) (add_device_config (get_device_config handle) (hub_config s)) s) in
  let* s := pget in
  do* pemit (InputConfigChange (hub_config s)) in
  do* pfor (hub_observers s) (λ o, do* pemit (DeviceAdded o (device_id handle)) in pemit (ChangesComplete o)) in
  if negb (hub_ready s) && bool_decide (hub_handles s ≠ []) then do* pemit ReadyForUserInput in pmodify (set_ready true) else pret tt.
Definition remove_device_handle (id : Z) : M unit :=
  let* s := pget in
  do* pfor (filter (λ d, device_id d = id) (hub_handles s)) (λ d,
        pfor (hub_observers s) (λ o, do* pemit (DeviceRemoved o (device_id d)) in pemit (ChangesComplete o))) in
  if bool_decide (id ∉ device_id <$> hub_handles s) then pret tt
  else
    do* pmodify (λ s, set_known (filter (λ d, device_id d ≠ id) (hub_handles s)) (remove_device_by_id id (hub_config s)) s) in
    let* s := pget in
    do* pemit (InputConfigChange (hub_config s)) in
    if hub_ready s && bool_decide (hub_handles s = []) then do* pmodify (set_ready false) in pemit StopReceivingInput else pret tt.
Definition observe (o : Z) : M unit :=
  do* pmodify (λ s, set_observers (hub_observers s ++ [o]) s) in
  let* s := pget in
  do* pfor (hub_handles s) (λ d, pemit (DeviceAdded o (device_id d))) in
  pemit (ChangesComplete o).
Definition unobserve (o : option Z) : M unit :=
  pmodify (λ s, set_observers (filter (λ x, Some x ≠ o) (hub_observers s)) s).
Definition run_action (a : hub_action) : M unit :=
  match a with
  | AddHandle d => add_device_handle d
  | RemoveHandle id => remove_device_handle id
  | AddObserver o => observe o
  | RemoveObserver o => unobserve o
  end.
Definition run_next_action : M unit :=
  let* s := pget in
  match observer_queue s with
  | [] => pret tt
  | a :: rest => do* pput (set_queue rest s) in run_action a
  end.

(** ** What a device reports

    [RegisteredDevice]: it has a seat between start and stop. *)
Inductive event_type := InputEvent | InputDeviceState | OtherEvent.
#[export] Instance event_type_eq_dec : EqDecision event_type.
Proof. solve_decision. Defined.
(** Whether the seat gets the event. *)
Definition handle_input (seat : bool) (type : event_type) : outcome bool :=
  if bool_decide (type = OtherEvent) then Throw (invalid_argument "Invalid input event received from device") else Ret seat.
(** [bounding_rectangle], [key_state] and [pointer_state] *)
Definition with_seat {A} (seat : option A) : outcome A :=
  match seat with Some a => Ret a | None => Throw (runtime_error "Device not started and has no seat assigned") end.

(** ** As a machine *)
Inductive hub_op :=
  | OpAddDevice (device : option (Z * Hardware))
  | OpRemoveDevice (device : option Z)
  | OpAddObserver (o : Z)
  | OpRemoveObserver (o : option Z)
  | OpRunAction.
Definition hub_exec (op : hub_op) : M unit :=
  match op with
  | OpAddDevice device => add_device device
  | OpRemoveDevice device => remove_device device
  | OpAddObserver o => enqueue_action (AddObserver o)
  | OpRemoveObserver o => enqueue_action (RemoveObserver o)
  | OpRunAction => run_next_action
  end.
Definition tells (o : Z) (ob : hub_obs) : bool := match ob with DeviceAdded x _ => x =? o | _ => false end.
Definition observer_of (a : hub_action) : list Z := match a with AddObserver o => [o] | _ => [] end.
(** An observer is added once, and the ids do not run out. *)
Definition hub_allowed (s : DeviceHub) (h : list hub_obs) (op : hub_op) : bool :=
  match op with
  | OpAddObserver o => bool_decide (o ∉ hub_observers s ++ (observer_queue s ≫= observer_of)) && negb (existsb (tells o) h)
  | OpAddDevice _ => bool_decide (device_id_generator s < 2 ^ 63 - 1)
  | _ => true
  end.
Definition hub_machine : machine :=
  Machine DeviceHub hub_op hub_obs (λ s, s = mkHub [] 0 [] [] [] [] false) hub_allowed hub_exec.

(** ** What a history says *)

(** Who was told of which device, and whether each was new, or was known. *)
Definition tell_step (q : gset (Z * Z) * bool) (ob : hub_obs) : gset (Z * Z) * bool :=
  match ob with
  | DeviceAdded o id => ({[(o, id)]} ∪ q.1, q.2 && bool_decide ((o, id) ∉ q.1))
  | DeviceRemoved o id => (q.1 ∖ {[(o, id)]}, q.2 && bool_decide ((o, id) ∈ q.1))
  | _ => q
  end.
Definition told (h : list hub_obs) : gset (Z * Z) * bool := foldl tell_step (∅, true) h.
(** What the clients and the status listener heard last. *)
Definition said_step (q : InputConfig * bool) (ob : hub_obs) : InputConfig * bool :=
  match ob with InputConfigChange c => (c, q.2) | ReadyForUserInput => (q.1, true) | StopReceivingInput => (q.1, false) | _ => q end.
Definition said (h : list hub_obs) : InputConfig * bool := foldl said_step ([], false) h.
(** The ids once the queue was run. *)
Definition action_ids (l : list Z) (a : hub_action) : list Z :=
  match a with AddHandle d => l ++ [device_id d] | RemoveHandle id => filter (λ x, x ≠ id) l | _ => l end.
Definition coming (a : hub_action) : list Z := match a with AddHandle d => [device_id d] | _ => [] end.

Record hub_inv (s : DeviceHub) (h : list hub_obs) : Prop := {
  g_told : (told h).2 = true;
  g_known : ∀ o id, o ∈ hub_observers s → (o, id) ∈ (told h).1 ↔ id ∈ device_id <$> hub_handles s;
  g_new : ∀ o, o ∈ observer_queue s ≫= observer_of → ∀ id, (o, id) ∉ (told h).1;
  g_observers : NoDup (hub_observers s ++ (observer_queue s ≫= observer_of));
  g_said : said h = (hub_config s, hub_ready s);
  g_ready : hub_ready s = true ↔ hub_handles s ≠ [];
  g_config : config_id <$> hub_config s = device_id <$> hub_handles s;
  g_ids : NoDup ((device_id <$> hub_handles s) ++ (observer_queue s ≫= coming));
  g_range : ∀ id, id ∈ (device_id <$> hub_handles s) ++ (observer_queue s ≫= coming) ∨ id ∈ (devices s).*2 → 0 < id ≤ device_id_generator s;
  g_devices : NoDup (devices s).*1 ∧ NoDup (devices s).*2;
  g_replay : foldl action_ids (device_id <$> hub_handles s) (observer_queue s) = (devices s).*2;
  g_generator : 0 ≤ device_id_generator s < 2 ^ 63
}.

Lemma told_devices_app h tr : told (h ++ tr) = foldl tell_step (told h) tr.
Proof. apply foldl_app. Qed.
Lemma said_app h tr : said (h ++ tr) = foldl said_step (said h) tr.
Proof. apply foldl_app. Qed.
Lemma find_registered (dev : Z) (l : list (Z * Z)) : find_if (λ item, item.1 =? dev) l = None ↔ dev ∉ l.*1.
Proof.
  rewrite find_if_None. split.
  - intros Hno ((d, id) & -> & Hin)%list_elem_of_fmap. specialize (Hno _ Hin). cbn in Hno. rewrite Z.eqb_refl in Hno. done.
  - intros Hno [d id] Hin. apply Z.eqb_neq. cbn. intros ->. apply Hno, list_elem_of_fmap. by exists (dev, id).
Qed.
Lemma same_fst (l : list (Z * Z)) dev id x : NoDup l.*1 → (dev, id) ∈ l → x ∈ l → x.1 = dev → x = (dev, id).
Proof. intros Hnd Hin Hx Heq. by apply (NoDup_fmap_inj fst l). Qed.
(** Dropping the device is dropping its id. *)
Lemma drop_device (l : list (Z * Z)) dev id : NoDup l.*1 → NoDup l.*2 → (dev, id) ∈ l →
  (filter (λ item, item.1 ≠ dev) l).*2 = filter (λ x, x ≠ id) l.*2.
Proof.
  intros H1 H2 Hin.
  assert (∀ x, x ∈ l → x.1 ≠ dev ↔ x.2 ≠ id) as Heq.
  { intros x Hx. split; intros Hne ?; apply Hne; [rewrite (NoDup_fmap_inj snd l x (dev, id))|rewrite (NoDup_fmap_inj fst l x (dev, id))]; done. }
  clear H1 H2 Hin. induction l as [|x l IH]; [done|]. specialize (IH ltac:(intros y Hy; apply Heq; by right)).
  rewrite filter_cons. rewrite fmap_cons, filter_cons, <- IH. pose proof (Heq x ltac:(left)). do 2 (destruct (decide _)); try done; tauto.
Qed.
Lemma filter_device (l : list (Z * Z)) dev id : NoDup l.*1 → (dev, id) ∈ l → filter (λ item, item.1 = dev) l = [(dev, id)].
Proof.
  intros Hnd Hin. induction l as [|[d i] l IH]; [by apply elem_of_nil in Hin|]. apply NoDup_cons in Hnd as [Hd Hnd].
  rewrite filter_cons. apply elem_of_cons in Hin as [[= <- <-]|Hin].
  - rewrite decide_True by done. rewrite filter_none; [done|]. intros x Hx Heq. apply Hd, list_elem_of_fmap. exists x. done.
  - rewrite decide_False; [by apply IH|]. cbn. intros ->. apply Hd, list_elem_of_fmap. by exists (dev, id).
Qed.

(** Telling the observers of a device. *)
Definition tell_added (id o : Z) : list hub_obs := [DeviceAdded o id; ChangesComplete o].
Definition tell_removed (id o : Z) : list hub_obs := [DeviceRemoved o id; ChangesComplete o].
Lemma said_told q (f : Z → Z → list hub_obs) id os : (f = tell_added ∨ f = tell_removed) → foldl said_step q (os ≫= f id) = q.
Proof. intros Hf. revert q. induction os as [|o os IH]; intros q; [done|]. cbn. rewrite foldl_app, IH. by destruct Hf as [-> | ->]. Qed.
Lemma told_added id os q : NoDup os → (∀ o, o ∈ os → (o, id) ∉ q.1) →
  (foldl tell_step q (os ≫= tell_added id)).2 = q.2 ∧
  ∀ o i, (o, i) ∈ (foldl tell_step q (os ≫= tell_added id)).1 ↔ (o ∈ os ∧ i = id) ∨ (o, i) ∈ q.1.
Proof.
  revert q. induction os as [|x os IH]; intros q Hnd Hq.
  - split; [done|]. intros o i. cbn. split; [by right|]. by intros [[?%elem_of_nil _]|?].
  - apply NoDup_cons in Hnd as [Hx Hnd]. cbn -[union].
    destruct (IH ({[(x, id)]} ∪ q.1, q.2 && bool_decide ((x, id) ∉ q.1)) Hnd) as [I1 I2].
    { intros o Ho. cbn. rewrite elem_of_union, elem_of_singleton. intros [[= ->]|Hin]; [done|]. apply (Hq o); [by right|done]. }
    split.
    + rewrite I1. cbn. rewrite bool_decide_true by (apply Hq; left). by destruct q.2.
    + intros o i. rewrite I2. cbn. rewrite elem_of_union, elem_of_singleton, elem_of_cons. split; [intros [[? ?]|[[= -> ->]|?]]|intros [[[->|?] ->]|?]]; tauto.
Qed.
Lemma told_removed id os q : NoDup os → (∀ o, o ∈ os → (o, id) ∈ q.1) →
  (foldl tell_step q (os ≫= tell_removed id)).2 = q.2 ∧
  ∀ o i, (o, i) ∈ (foldl tell_step q (os ≫= tell_removed id)).1 ↔ (o, i) ∈ q.1 ∧ ¬ (o ∈ os ∧ i = id).
Proof.
  revert q. induction os as [|x os IH]; intros q Hnd Hq.
  - split; [done|]. intros o i. cbn. split; [|tauto]. intros ?. split; [done|]. by intros [?%elem_of_nil _].
  - apply NoDup_cons in Hnd as [Hx Hnd]. cbn -[difference].
    destruct (IH (q.1 ∖ {[(x, id)]}, q.2 && bool_decide ((x, id) ∈ q.1)) Hnd) as [I1 I2].
    { intros o Ho. cbn. rewrite elem_of_difference, elem_of_singleton. split; [apply Hq; by right|]. by intros [= ->]. }
    split.
    + rewrite I1. cbn. rewrite bool_decide_true by (apply Hq; left). by destruct q.2.
    + intros o i. rewrite I2. cbn. rewrite elem_of_difference, elem_of_singleton, elem_of_cons. split.
      * intros [[Hin Hne] Hno]. split; [done|]. intros [[->|?] ->]; [by apply Hne|by apply Hno].
      * intros [Hin Hno]. split; [|tauto]. split; [done|]. intros [= -> ->]. apply Hno. by split; [left|].
Qed.
(** Telling a new observer of the devices. *)
Lemma told_all o ids q : NoDup ids → (∀ id, (o, id) ∉ q.1) →
  (foldl tell_step q ((λ id, DeviceAdded o id) <$> ids)).2 = q.2 ∧
  ∀ x i, (x, i) ∈ (foldl tell_step q ((λ id, DeviceAdded o id) <$> ids)).1 ↔ (x = o ∧ i ∈ ids) ∨ (x, i) ∈ q.1.
Proof.
  intros Hnd Hq. assert (∀ id, id ∈ ids → (o, id) ∉ q.1) as Hq' by auto. clear Hq. revert q Hq'.
  induction ids as [|id ids IH]; intros q Hq.
  - split; [done|]. intros x i. cbn. split; [by right|]. by intros [[_ ?%elem_of_nil]|?].
  - apply NoDup_cons in Hnd as [Hid Hnd]. cbn -[union].
    destruct (IH Hnd ({[(o, id)]} ∪ q.1, q.2 && bool_decide ((o, id) ∉ q.1))) as [I1 I2].
    { intros i Hi. cbn. rewrite elem_of_union, elem_of_singleton. intros [[= ->]|Hin]; [done|]. apply (Hq i); [by right|done]. }
    split.
    + rewrite I1. cbn. rewrite bool_decide_true by (apply Hq; left). by destruct q.2.
    + intros x i. rewrite I2. cbn. rewrite elem_of_union, elem_of_singleton, elem_of_cons. split; [intros [[? ?]|[[= -> ->]|?]]|intros [[-> [->|?]]|?]]; tauto.
Qed.
Lemma told_grows o id h : (o, id) ∈ (told h).1 → existsb (tells o) h = true.
Proof.
  induction h as [|ob h IH] using rev_ind; [cbn; set_solver|]. rewrite told_devices_app, existsb_app, orb_true_iff. cbn.
  destruct ob; cbn; try (intros ?; left; by apply IH).
  - rewrite elem_of_union, elem_of_singleton. intros [[= -> ->]|?]; [right; by rewrite Z.eqb_refl|left; by apply IH].
  - rewrite elem_of_difference. intros [? _]. left. by apply IH.
Qed.

(** *** The actions *)
Lemma add_handle_run d s :
  let c := add_device_config (get_device_config d) (hub_config s) in
  add_device_handle d s = Run (Ret tt) (set_ready true (set_known (hub_handles s ++ [d]) c s))
    (InputConfigChange c :: (hub_observers s ≫= tell_added (device_id d)) ++ (if hub_ready s then [] else [ReadyForUserInput])).
Proof.
  cbv zeta. unfold add_device_handle. rewrite pbind_modify, pbind_get, pbind_emit. set (s1 := set_known _ _ s).
  assert (pfor (hub_observers s1) (λ o, do* pemit (DeviceAdded o (device_id d)) in pemit (ChangesComplete o) : M unit) s1 =
    Run (Ret tt) s1 (hub_observers s ≫= tell_added (device_id d))) as Hfor by by apply pfor_trace.
  assert (hub_handles s1 ≠ []) as Hne by (cbn; by destruct (hub_handles s)).
  rewrite bool_decide_true by done. change (hub_ready s1) with (hub_ready s).
  destruct (hub_ready s) eqn:Hr; cbn [negb andb]; rewrite (pbind_run _ _ _ _ _ _ _ Hfor eq_refl); cbn; [|done].
  f_equal. unfold s1, set_known, set_ready. cbn. by rewrite Hr.
Qed.
Lemma remove_handle_run id s : NoDup (device_id <$> hub_handles s) →
  let c := remove_device_by_id id (hub_config s) in
  let hs := filter (λ d, device_id d ≠ id) (hub_handles s) in
  remove_device_handle id s =
    if bool_decide (id ∈ device_id <$> hub_handles s) then
      Run (Ret tt) (set_ready (hub_ready s && bool_decide (hs ≠ [])) (set_known hs c s))
        ((hub_observers s ≫= tell_removed id) ++ InputConfigChange c :: (if hub_ready s && bool_decide (hs = []) then [StopReceivingInput] else []))
    else Run (Ret tt) s [].
Proof.
  intros Hnd. cbv zeta. unfold remove_device_handle. rewrite pbind_get.
  assert (∀ d, pfor (hub_observers s) (λ o, do* pemit (DeviceRemoved o (device_id d)) in pemit (ChangesComplete o) : M unit) s =
    Run (Ret tt) s (hub_observers s ≫= tell_removed (device_id d))) as Hfor by (intros d; by apply pfor_trace).
  destruct (decide (id ∈ device_id <$> hub_handles s)) as [Hin|Hin].
  - rewrite (bool_decide_false (id ∉ _)), (bool_decide_true (id ∈ _)) by tauto. apply list_elem_of_fmap in Hin as (d & Hd & Hin).
    assert (filter (λ d, device_id d = id) (hub_handles s) = [d]) as ->.
    { rewrite Hd. clear Hd Hfor. induction (hub_handles s) as [|x l IH]; [by apply elem_of_nil in Hin|].
      apply NoDup_cons in Hnd as [Hx Hnd]. rewrite filter_cons. apply elem_of_cons in Hin as [->|Hin].
      - rewrite decide_True by done. rewrite filter_none; [done|]. intros y Hy Heq. apply Hx, list_elem_of_fmap. exists y. done.
      - rewrite decide_False; [by apply IH|]. intros Heq. apply Hx, list_elem_of_fmap. exists d. done. }
    cbn [pfor]. rewrite pbind_assoc. rewrite (pbind_run _ _ _ _ _ _ _ (Hfor d) eq_refl).
    rewrite pbind_ret_l, pbind_modify, pbind_get, pbind_emit. set (s1 := set_known _ _ s).
    change (hub_ready s1) with (hub_ready s). change (hub_handles s1) with (filter (λ d, device_id d ≠ id) (hub_handles s)). rewrite <- Hd.
    destruct (hub_ready s) eqn:Hr; [|cbn; f_equal; unfold s1, set_known, set_ready; cbn; by rewrite Hr].
    cbn [andb]. case_bool_decide as He.
    + rewrite bool_decide_false by (intros Hn; by apply Hn). done.
    + rewrite bool_decide_true by done. cbn. f_equal. unfold s1, set_known, set_ready. cbn. by rewrite Hr.
  - rewrite (bool_decide_true (id ∉ _)), (bool_decide_false (id ∈ _)) by done. rewrite filter_none; [done|]. intros d Hd Heq. apply Hin, list_elem_of_fmap. by exists d.
Qed.
Lemma observe_run o s : observe o s =
  Run (Ret tt) (set_observers (hub_observers s ++ [o]) s) (((λ id, DeviceAdded o id) <$> (device_id <$> hub_handles s)) ++ [ChangesComplete o]).
Proof.
  unfold observe. rewrite pbind_modify, pbind_get.
  rewrite (pbind_run _ _ _ _ _ _ _ (pfor_emit _ _ _) eq_refl). cbn. by rewrite <- list_fmap_compose.
Qed.

Lemma action_ids_app l q a : foldl action_ids l (q ++ [a]) = action_ids (foldl action_ids l q) a.
Proof. by rewrite foldl_app. Qed.
Lemma config_ids_removed id (c : InputConfig) (ds : list DefaultDevice) : config_id <$> c = device_id <$> ds →
  config_id <$> remove_device_by_id id c = device_id <$> filter (λ d, device_id d ≠ id) ds.
Proof.
  unfold remove_device_by_id, InputConfig in *. revert c. induction ds as [|d ds IH]; intros [|x c]; try done. intros [= Hx Hc].
  rewrite !filter_cons, Hx. destruct (decide _); [by rewrite !fmap_cons, Hx, (IH c)|by apply IH].
Qed.
Lemma filter_ids id (ds : list DefaultDevice) : device_id <$> filter (λ d, device_id d ≠ id) ds = filter (λ x, x ≠ id) (device_id <$> ds).
Proof. induction ds as [|d ds IH]; [done|]. rewrite fmap_cons, !filter_cons. destruct (decide _); [by rewrite fmap_cons, IH|done]. Qed.

(** The next action, with the rest of the queue behind it. *)
Lemma run_action_inv a rest s h : hub_inv (set_queue (a :: rest) s) h →
  let r := run_action a (set_queue rest s) in hub_inv (post r) (h ++ trace r) ∧ value r = Ret tt.
Proof.
  intros [H1 H2 H3 H4 H5 H6 H7 H8 H9 H10 H11 H12]. destruct s as [ds gen q hs os c rd].
  unfold set_queue in *. cbn [devices device_id_generator observer_queue hub_handles hub_observers hub_config hub_ready] in *.
  destruct a as [d|id|o|o]; cbn [run_action].
  - rewrite add_handle_run. cbn [hub_config hub_handles hub_observers hub_ready]. set (id := device_id d) in *.
    cbn [foldl action_ids mbind list_bind coming observer_of app] in *. split; [|done]. cbn [post trace].
    assert (id ∉ device_id <$> hs) as Hid. { apply NoDup_app in H8 as (_ & Hd & _). intros Hin. apply (Hd id Hin). left. }
    assert (∀ o, o ∈ os → (o, id) ∉ (told h).1) as Hnew by (intros o Ho; by rewrite H2).
    apply NoDup_app in H4 as Hos. destruct Hos as (Hos & Hdis & _).
    destruct (told_added id os (told h) Hos Hnew) as [T1 T2].
    assert (∀ q tr, tr = (if rd then [] else [ReadyForUserInput]) → foldl tell_step q tr = q) as Hskip by (intros ? ? ->; by destruct rd).
    split; rewrite ?told_devices_app, ?said_app; cbn [devices device_id_generator observer_queue hub_handles hub_observers hub_config hub_ready
      set_known set_ready foldl tell_step said_step]; rewrite ?foldl_app, ?(Hskip _ _ eq_refl); try done.
    + by rewrite T1.
    + intros o i Ho. rewrite T2, (H2 o i Ho), fmap_app, elem_of_app. change (device_id <$> [d]) with [id]. rewrite list_elem_of_singleton. tauto.
    + intros o Ho i. rewrite T2. intros [[Hin _]|Hin]; [by apply (Hdis o)|by apply (H3 o Ho i)].
    + rewrite said_told by by left. rewrite H5. by destruct rd.
    + split; [|done]. intros _. by destruct hs.
    + unfold add_device_config. rewrite !fmap_app, H7. done.
    + rewrite fmap_app, <- app_assoc. done.
    + intros i. rewrite fmap_app, <- app_assoc. apply H9.
    + rewrite fmap_app. done.
  - rewrite remove_handle_run by (by apply NoDup_app in H8 as (? & _)).
    cbn [hub_config hub_handles hub_observers hub_ready]. cbn [foldl action_ids mbind list_bind coming observer_of app] in *.
    apply NoDup_app in H4 as Hos. destruct Hos as (Hos & Hdis & _).
    assert (rd = true ∧ hs ≠ [] ∨ rd = false ∧ hs = []) as Hrd.
    { destruct rd; [left|right]; split; try done; [by apply H6|]. destruct hs; [done|]. by destruct H6 as [_ ?]; exfalso; discriminate H. }
    case_bool_decide as Hin.
    + cbn [post trace value]. split; [|done].
      destruct (told_removed id os (told h) Hos) as [T1 T2]; [intros o Ho; by rewrite H2|].
      set (hs' := filter _ hs) in *.
      assert (∀ q tr, tr = (if rd && bool_decide (hs' = []) then [StopReceivingInput] else []) → foldl tell_step q tr = q) as Hskip by (intros ? ? ->; by destruct (_ && _)).
      assert (hs ≠ []) as Hne. { intros ->. by apply elem_of_nil in Hin. }
      destruct Hrd as [[-> _]|[_ ?]]; [|done]. cbn [andb] in *.
      split; rewrite ?told_devices_app, ?said_app; cbn [devices device_id_generator observer_queue hub_handles hub_observers hub_config hub_ready
        set_known set_ready]; rewrite ?foldl_app; cbn [foldl tell_step said_step]; rewrite ?(Hskip _ _ eq_refl); try done.
      * by rewrite T1.
      * intros o i Ho. unfold hs'. rewrite T2, (H2 o i Ho), filter_ids, list_elem_of_filter. split; [intros [? Hno]; split; [|done]; intros ->; by apply Hno|].
        intros [Hi ?]. split; [done|]. by intros [_ ?].
      * intros o Ho i. rewrite T2. intros [Hi _]. by apply (H3 o Ho i).
      * rewrite said_told by by right. rewrite H5. cbn. case_bool_decide as He; [rewrite bool_decide_false by (intros Hn; by apply Hn)|rewrite bool_decide_true by done]; done.
      * by rewrite bool_decide_eq_true.
      * by apply config_ids_removed.
      * unfold hs'. rewrite filter_ids. eapply NoDup_app_sublist; [apply sublist_filter|exact H8].
      * intros i [Hi|Hi]; [|by apply H9; right]. apply H9. left. revert Hi. rewrite !elem_of_app. unfold hs'. rewrite filter_ids, list_elem_of_filter. tauto.
      * unfold hs'. by rewrite filter_ids.
    + cbn. split; [|done]. rewrite app_nil_r. split; try done. cbn. rewrite filter_all in H11; [done|]. intros x Hx ->. done.
  - rewrite observe_run. cbn [post trace value]. split; [|done]. cbn [foldl action_ids mbind list_bind coming observer_of app] in *.
    assert (∀ id, (o, id) ∉ (told h).1) as Hnew by (apply H3; left).
    apply NoDup_app in H8 as Hnd. destruct Hnd as (Hnd & _ & _).
    destruct (told_all o (device_id <$> hs) (told h) Hnd Hnew) as [T1 T2].
    assert ((o ∉ os) ∧ (o ∉ rest ≫= observer_of)) as [Ho1 Ho2].
    { apply NoDup_app in H4 as (_ & Hd & Hr). apply NoDup_cons in Hr as [? _]. split; [|done]. intros Ho. apply (Hd o Ho). left. }
    assert (∀ q ids, foldl said_step q ((λ id, DeviceAdded o id) <$> ids) = q) as Hsaid.
    { intros q' ids. induction ids as [|i ids IH]; [done|]. apply IH. }
    split; rewrite ?told_devices_app, ?said_app; cbn [devices device_id_generator observer_queue hub_handles hub_observers hub_config hub_ready set_observers];
      rewrite ?foldl_app, ?Hsaid; cbn [foldl tell_step said_step]; try done.
    + by rewrite T1.
    + intros x i [Hx| ->%list_elem_of_singleton]%elem_of_app; rewrite T2.
      * rewrite (H2 x i Hx). split; [intros [[-> _]|?]; done|by right].
      * split; [intros [[_ ?]|Hin]; [done|by destruct (Hnew i)]|by left].
    + intros x Hx i. rewrite T2. intros [[-> _]|Hin]; [done|]. apply (H3 x ltac:(by right) i Hin).
    + rewrite <- app_assoc. done.
  - cbn. split; [|done]. rewrite app_nil_r. cbn [foldl action_ids mbind list_bind coming observer_of app] in *.
    split; cbn; try done.
    + intros x i [_ Hx]%list_elem_of_filter. by apply H2.
    + eapply NoDup_app_sublist; [apply sublist_filter|exact H4].
Qed.
Lemma hub_step s h op : hub_inv s h → hub_allowed s h op = true →
  let r := hub_exec op s in hub_inv (post r) (h ++ trace r).
Proof.
  intros Hi Hop. pose proof Hi as [H1 H2 H3 H4 H5 H6 H7 H8 H9 H10 H11 H12].
  destruct op as [[[dev hw]|]|[dev|]|o|o|]; cbn [hub_exec]; try (by cbn; rewrite app_nil_r).
  - unfold add_device. rewrite pbind_get. destruct (find_if _ _) as [x|] eqn:Hf; [by cbn; rewrite app_nil_r|].
    apply find_registered in Hf. cbn in Hop. apply bool_decide_eq_true in Hop.
    assert (create_new_device_id s = device_id_generator s + 1) as -> by (unfold create_new_device_id; apply int64_id; lia).
    set (id := device_id_generator s + 1) in *. rewrite pbind_put, !pbind_emit. cbn [post trace value enqueue_action pmodify].
    assert (device_id (new_device id hw) = id) as Hnew by (unfold new_device; by case_match).
    assert (∀ x, x ∈ (device_id <$> hub_handles s) ++ (observer_queue s ≫= coming) ∨ x ∈ (devices s).*2 → x ≠ id) as Hfresh by (intros x Hx ->; apply H9 in Hx; lia).
    split; rewrite ?told_devices_app, ?said_app; cbn [devices device_id_generator observer_queue hub_handles hub_observers hub_config hub_ready set_devices set_queue foldl tell_step said_step];
      rewrite ?bind_app, ?action_ids_app; cbn [mbind list_bind coming observer_of]; rewrite ?app_nil_r; try done.
    + rewrite Hnew, app_assoc. apply NoDup_app. split; [done|]. split; [|apply NoDup_singleton]. intros x Hx ->%list_elem_of_singleton. by eapply Hfresh; [left|].
    + intros x. rewrite Hnew, fmap_app, !elem_of_app. change ([(dev, id)].*2) with [id]. rewrite !list_elem_of_singleton.
      specialize (H9 x). rewrite elem_of_app in H9. intros Hx. assert (x = id ∨ 0 < x ≤ device_id_generator s) by tauto. unfold id in *. lia.
    + destruct H10 as [Hd1 Hd2]. rewrite !fmap_app. cbn. split; apply NoDup_app; (split; [done|]); (split; [|apply NoDup_singleton]).
      * by intros x Hx ->%list_elem_of_singleton.
      * intros x Hx ->%list_elem_of_singleton. by eapply Hfresh; [right|].
    + rewrite H11. cbn. rewrite Hnew, fmap_app. done.
    + lia.
  - unfold remove_device. rewrite pbind_get. destruct H10 as [Hd1 Hd2].
    destruct (decide (dev ∈ (devices s).*1)) as [Hin|Hin].
    + assert (find_if (λ item, item.1 =? dev) (devices s) ≠ None) as Hf by (rewrite find_registered; tauto).
      apply list_elem_of_fmap in Hin as ([d id] & Heq & Hin). cbn in Heq. subst d. rewrite (filter_device _ dev id) by done.
      destruct (find_if _ (devices s)); [clear Hf|done].
      unfold enqueue_action, pbind, pemit, pmodify, pret. cbn [pfor value post trace fst snd app]. unfold pbind, pret. cbn [value post trace app].
      split; rewrite ?told_devices_app, ?said_app; cbn [devices device_id_generator observer_queue hub_handles hub_observers hub_config hub_ready set_devices set_queue foldl tell_step said_step];
        rewrite ?bind_app, ?action_ids_app; cbn [mbind list_bind coming observer_of]; rewrite ?app_nil_r; try done.
      * intros x [Hx|Hx]; [by apply H9; left|]. apply H9. right. rewrite (drop_device _ dev id) in Hx by done. by apply list_elem_of_filter in Hx as [_ ?].
      * split; (eapply sublist_NoDup; [|apply fmap_sublist, sublist_filter]); done.
      * rewrite H11. cbn. by rewrite (drop_device _ dev id).
    + rewrite filter_none by (intros x Hx Heq; apply Hin, list_elem_of_fmap; by exists x). cbn [pfor]. rewrite pbind_ret_l.
      rewrite (proj2 (find_registered dev (devices s)) Hin). by cbn; rewrite app_nil_r.
  - cbn. rewrite app_nil_r. cbn in Hop. apply andb_prop in Hop as [Ho%bool_decide_eq_true Hnew%negb_true_iff].
    split; cbn; rewrite ?bind_app, ?action_ids_app; cbn; rewrite ?app_nil_r; try done.
    + intros x [Hx| ->%list_elem_of_singleton]%elem_of_app i; [by apply H3|]. intros Hin%told_grows. congruence.
    + rewrite app_assoc. apply NoDup_app. split; [done|]. split; [|apply NoDup_singleton]. by intros x Hx ->%list_elem_of_singleton.
  - cbn. rewrite app_nil_r. split; cbn; rewrite ?bind_app, ?action_ids_app; cbn; rewrite ?app_nil_r; done.
  - unfold run_next_action. rewrite pbind_get. destruct (observer_queue s) as [|a rest] eqn:Hq; [by cbn; rewrite app_nil_r|].
    rewrite pbind_put. apply run_action_inv. destruct s. cbn in *. by rewrite <- Hq.
Qed.
Lemma hub_reachable s h : reachable hub_machine s h → hub_inv s h.
Proof.
  apply (reachable_invariant hub_machine).
  - intros s0 ->. split; cbn; try done; try (by constructor); try lia; try (by split; constructor); set_solver.
  - intros s0 h0 op _ Hs Hop. by apply hub_step.
Qed.

(** C39. The server knows the devices of the platform.  In every reachable state
    each observer was told of every device once, when it came, and of its
    removal once, and so knows exactly the current ones; the configuration last
    sent to the clients lists them; the status listener heard that there is
    input exactly if there is a device.  Once the actions queued are run these
    are the platform's devices, each with an id of its own.  Adding a device
    twice, removing an unknown one and null pointers are refused without effect. *)
Theorem hub_knows_devices s h : reachable hub_machine s h →
  (told h).2 = true ∧
  (∀ o id, o ∈ hub_observers s → (o, id) ∈ (told h).1 ↔ id ∈ device_id <$> hub_handles s) ∧
  (config_id <$> (said h).1) = device_id <$> hub_handles s ∧ ((said h).2 = true ↔ hub_handles s ≠ []) ∧
  NoDup (devices s).*2 ∧ (observer_queue s = [] → device_id <$> hub_handles s = (devices s).*2) ∧
  ∀ dev hw, let refused r := (∃ e, value r = Throw e) ∧ post r = s ∧ trace r = [] in
    (if bool_decide (dev ∈ (devices s).*1) then refused (add_device (Some (dev, hw)) s) else refused (remove_device (Some dev) s)) ∧
    refused (add_device None s) ∧ refused (remove_device None s).
Proof.
  intros [H1 H2 H3 H4 H5 H6 H7 H8 H9 H10 H11 H12]%hub_reachable. rewrite H5. split; [done|]. split; [done|]. split; [done|].
  split; [done|]. split; [apply H10|]. split; [by intros Hq; rewrite Hq in H11|].
  intros dev hw refused. split; [|split; (split; [by eexists|done])]. case_bool_decide as Hin.
  - unfold add_device. rewrite pbind_get. destruct (find_if _ _) eqn:Hf; [split; [by eexists|done]|]. by apply find_registered in Hf.
  - unfold remove_device. rewrite pbind_get.
    rewrite filter_none by (intros x Hx Heq; apply Hin, list_elem_of_fmap; by exists x). cbn [pfor]. rewrite pbind_ret_l.
    rewrite (proj2 (find_registered dev (devices s)) Hin). split; [by eexists|done].
Qed.

(** *** An example *)
Definition hub_example_mouse : Hardware := mkHardware 2 "mouse" "" None None.
Definition hub_example_ops : list hub_op :=
  [ OpAddObserver 100; OpAddDevice (Some (11, hub_example_mouse)); OpRunAction; OpRunAction; OpAddDevice (Some (12, hub_example_mouse)); OpRemoveDevice (Some 11); OpRunAction ].
Definition new_hub : DeviceHub := mkHub [] 0 [] [] [] [] false.
Definition hub_example_run := run_ops hub_machine hub_example_ops new_hub [].
Definition hub_example_state : DeviceHub := (default (new_hub, []) hub_example_run).1.
Definition hub_example_history : list hub_obs := (default (new_hub, []) hub_example_run).2.
Lemma hub_example_reachable : reachable hub_machine hub_example_state hub_example_history.
Proof. apply (run_ops_from_init hub_machine hub_example_ops new_hub); [done|]. vm_compute. reflexivity. Qed.
Lemma hub_knows_devices_witness : device_id <$> hub_handles hub_example_state = [1; 2] ∧ (devices hub_example_state).*2 = [2] ∧
  ((100, 1) ∈ (told hub_example_history).1 ↔ 1 ∈ device_id <$> hub_handles hub_example_state).
Proof.
  split; [vm_compute; reflexivity|]. split; [vm_compute; reflexivity|].
  refine (proj1 (proj2 (hub_knows_devices _ _ hub_example_reachable)) 100 1 _). apply (bool_decide_unpack (100 ∈ _)). vm_compute. exact I.
Defined.
