(* ===== verification/ConfigChanger.v ===== *)
(** Which input configuration the devices have
    (server/input/config_changer.cpp): the base configuration, or that of the
    session with the focus.

    Sessions are numbers.  [handles] are the devices of the hub, in its order;
    what [session_container] lists comes with a call. *)

From S2P Require Import Prelude InputDevices.

Record ConfigChanger := mkConfigChanger {
  handles : list DefaultDevice;
  base : InputConfig;
  config_map : gmap Z InputConfig;
  focused_session : option Z;
  base_configuration_applied : bool
}.
Inductive config_obs :=
  | OnDevice (ob : device_obs)
  | SendInputConfig (session : Z) (config : InputConfig)
  (** [InputConfigurationFailedError] *)
  | SendConfigError (session : Z) (what : string).
#[local] Abbreviation M := (prog ConfigChanger config_obs).

Definition set_handles (l : list DefaultDevice) (s : ConfigChanger) : ConfigChanger :=
  mkConfigChanger l (base s) (config_map s) (focused_session s) (base_configuration_applied s).
Definition set_base (c : InputConfig) (s : ConfigChanger) : ConfigChanger :=
  mkConfigChanger (handles s) c (config_map s) (focused_session s) (base_configuration_applied s).
Definition set_config_map (m : gmap Z InputConfig) (s : ConfigChanger) : ConfigChanger :=
  mkConfigChanger (handles s) (base s) m (focused_session s) (base_configuration_applied s).
Definition set_focused_session (f : option Z) (s : ConfigChanger) : ConfigChanger :=
  mkConfigChanger (handles s) (base s) (config_map s) f (base_configuration_applied s).
Definition set_applied (b : bool) (s : ConfigChanger) : ConfigChanger :=
  mkConfigChanger (handles s) (base s) (config_map s) (focused_session s) b.

(** ** Applying *)

(** [devices->for_each_mutable_input_device] with a method of the devices. *)
Fixpoint for_each_device (body : DefaultDevice → prog DefaultDevice device_obs unit) (ds : list DefaultDevice) :
    run (list DefaultDevice) device_obs unit :=
  match ds with
  | [] => Run (Ret tt) [] []
  | d :: ds =>
      let r := body d d in
      match value r with
      | Throw e => Run (Throw e) (post r :: ds) (trace r)
      | Ret _ => let r' := for_each_device body ds in Run (value r') (post r :: post r') (trace r ++ trace r')
      end
  end.
Definition apply_config (config : InputConfig) : M unit :=
  do* pcomponent handles set_handles (λ ob, pemit (OnDevice ob))
        (for_each_device (λ d, apply_device_config (get_device_config_by_id (device_id d) config))) in
  pmodify (set_applied false).
Definition apply_config_at_session (config : InputConfig) (session : Z) : M unit :=
  pcatch (do* apply_config config in pemit (SendInputConfig session config))
    (λ e, match e with invalid_argument what => pemit (SendConfigError session what) | _ => pthrow e end).
Definition apply_base_config : M unit :=
  let* s := pget in
  do* apply_config (base s) in
  pmodify (set_applied true).

Section sessions.
(** [session_container] *)
Context (sessions : list Z).

Definition send_base_config_to_all_sessions : M unit :=
  let* s := pget in pfor sessions (λ session, pemit (SendInputConfig session (base s))).

Definition configure (session : Z) (config : InputConfig) : M unit :=
  do* pmodify (λ s, set_config_map (<[session := config]> (config_map s)) s) in
  let* s := pget in
  if bool_decide (focused_session s = Some session) then apply_config_at_session config session else pret tt.
Definition set_base_configuration (config : InputConfig) : M unit :=
  do* pmodify (set_base config) in
  do* apply_base_config in
  send_base_config_to_all_sessions.

(** ** Devices that come and go *)
Definition forget_device (id : Z) (s : ConfigChanger) : ConfigChanger :=
  set_config_map (remove_device_by_id id <$> config_map s) (set_base (remove_device_by_id id (base s)) s).
Definition learn_device (d : DefaultDevice) (s : ConfigChanger) : ConfigChanger :=
  let initial_config := get_device_config d in
  set_config_map (add_device_config initial_config <$> config_map s) (set_base (add_device_config initial_config (base s)) s).
Definition devices_updated (added : list DefaultDevice) (removed : list Z) : M unit :=
  do* pfor removed (λ id, pmodify (forget_device id)) in
  do* pfor added (λ d, pmodify (learn_device d)) in
  send_base_config_to_all_sessions.
(** [DeviceChangeTracker], told by the hub of one device at a time. *)
Definition device_added (d : DefaultDevice) : M unit :=
  do* pmodify (λ s, set_handles (handles s ++ [d]) s) in
  devices_updated [d] [].
Definition device_removed (id : Z) : M unit :=
  do* devices_updated [] [id] in
  pmodify (λ s, set_handles (filter (λ d, device_id d ≠ id) (handles s)) s).

(** ** Sessions that come and go *)
Definition focus_change_handler (session : Z) : M unit :=
  do* pmodify (set_focused_session (Some session)) in
  let* s := pget in
  match (config_map s !! session : option InputConfig) with
  | Some config => apply_config_at_session config session
  | None => if base_configuration_applied s then pret tt else do* apply_base_config in send_base_config_to_all_sessions
  end.
Definition no_focus_handler : M unit :=
  do* pmodify (set_focused_session None) in
  let* s := pget in
  if base_configuration_applied s then pret tt else apply_base_config.
Definition session_stopping_handler (session : Z) : M unit :=
  pmodify (λ s, set_config_map (delete session (config_map s)) s).
End sessions.

(** ** As a machine *)
Inductive config_op :=
  | OpConfigure (session : Z) (config : InputConfig)
  | OpSetBase (sessions : list Z) (config : InputConfig)
  | OpDeviceAdded (sessions : list Z) (d : DefaultDevice)
  | OpDeviceRemoved (sessions : list Z) (id : Z)
  (** the platform takes the device away: [disable_queue] *)
  | OpDeviceStopped (id : Z)
  | OpFocusChange (sessions : list Z) (session : Z)
  | OpNoFocus
  | OpSessionStopping (session : Z).
Definition config_exec (op : config_op) : M unit :=
  match op with
  | OpConfigure session config => configure session config
  | OpSetBase sessions config => set_base_configuration sessions config
  | OpDeviceAdded sessions d => device_added sessions d
  | OpDeviceRemoved sessions id => device_removed sessions id
  | OpDeviceStopped id => pmodify (λ s, set_handles ((λ d, if device_id d =? id then disable_queue d else d) <$> handles s) s)
  | OpFocusChange sessions session => focus_change_handler sessions session
  | OpNoFocus => no_focus_handler
  | OpSessionStopping session => session_stopping_handler session
  end.
Definition valid_config (c : InputConfig) : bool := forallb valid_device_config c.
Definition mentions (id : Z) (c : InputConfig) : bool := existsb (λ x, config_id x =? id) c.
(** Configurations are valid, and none is about a device that is still to come. *)
Definition config_allowed (s : ConfigChanger) (_ : list config_obs) (op : config_op) : bool :=
  match op with
  | OpConfigure _ config | OpSetBase _ config => valid_config config
  | OpDeviceAdded _ d =>
      negb (mentions (device_id d) (base s)) && bool_decide (map_Forall (λ _ c, mentions (device_id d) c = false) (config_map s)) &&
      bool_decide (device_id d ∉ device_id <$> handles s) &&
      valid_device_config (get_device_config d) && bool_decide (has_keyboard d = true ↔ is_Some (keyboard d))
  | _ => true
  end.
Definition config_machine : machine :=
  Machine ConfigChanger config_op config_obs (λ s, s = mkConfigChanger [] [] ∅ None true) config_allowed config_exec.

(** ** Properties *)

(** The devices have what the configuration has for them. *)
Definition agrees (c : InputConfig) (ds : list DefaultDevice) : Prop :=
  ∀ d x, d ∈ ds → get_device_config_by_id (device_id d) c = Some x → obeys x d.

Record config_inv (s : ConfigChanger) : Prop := {
  f_ok : ∀ d, d ∈ handles s → device_ok d;
  f_base_valid : valid_config (base s) = true;
  f_map_valid : ∀ k c, config_map s !! k = Some c → valid_config c = true;
  f_base : base_configuration_applied s = true → agrees (base s) (handles s);
  f_session : ∀ k c, base_configuration_applied s = false → focused_session s = Some k → config_map s !! k = Some c → agrees c (handles s)
}.

Lemma valid_config_get c id x : valid_config c = true → get_device_config_by_id id c = Some x → valid_device_config x = true.
Proof.
  unfold valid_config. rewrite forallb_forall. intros Hv [Hin _]%find_if_Some. apply Hv. by apply list_elem_of_In.
Qed.
Lemma for_each_device_run c ds : valid_config c = true → (∀ d, d ∈ ds → device_ok d) →
  let r := for_each_device (λ d, apply_device_config (get_device_config_by_id (device_id d) c)) ds in
  value r = Ret tt ∧ agrees c (post r) ∧ (∀ d, d ∈ post r → device_ok d) ∧ device_id <$> post r = device_id <$> ds.
Proof.
  intros Hv. induction ds as [|d ds IH]; intros Hok; [split_and!; try done; by intros ? ? ?%elem_of_nil|].
  cbn [for_each_device]. destruct IH as (IH1 & IH2 & IH3 & IH4); [intros x Hx; apply Hok; by right|].
  set (r := apply_device_config _ d).
  assert (value r = Ret tt ∧ ∀ x, get_device_config_by_id (device_id d) c = Some x → obeys x (post r)) as [Hval Hob].
  { unfold r. destruct (get_device_config_by_id (device_id d) c) as [x|] eqn:Hx; [|done].
    destruct (apply_device_config_obeys x d) as [H1 H2]; [apply Hok; left|by eapply valid_config_get|]. split; [done|]. by intros ? [= <-]. }
  pose proof (apply_device_config_same (get_device_config_by_id (device_id d) c) d) as (Hid & Hcap & _ & _ & _ & Hkb). fold r in Hid, Hcap, Hkb.
  rewrite Hval. cbn [value post trace]. split; [done|]. split; [|split].
  - intros y x [->|Hy]%elem_of_cons Hx; [apply Hob; by rewrite <- Hid|by apply IH2].
  - intros y [->|Hy]%elem_of_cons; [|by apply IH3]. unfold device_ok, has_keyboard in *. rewrite Hcap, Hkb. apply (Hok d). left.
  - cbn. by rewrite IH4, Hid.
Qed.
Lemma apply_config_run c s : valid_config c = true → (∀ d, d ∈ handles s → device_ok d) →
  ∃ ds tr, apply_config c s = Run (Ret tt) (set_applied false (set_handles ds s)) tr ∧ agrees c ds ∧ (∀ d, d ∈ ds → device_ok d) ∧
    device_id <$> ds = device_id <$> handles s ∧ (∀ ob, ob ∈ tr → ∃ x, ob = OnDevice x).
Proof.
  intros Hv Hok. destruct (for_each_device_run c (handles s) Hv Hok) as (H1 & H2 & H3 & H4). unfold apply_config.
  set (r := for_each_device _ (handles s)) in *.
  assert (pcomponent handles set_handles (λ ob, pemit (OnDevice ob) : M unit) (for_each_device (λ d, apply_device_config (get_device_config_by_id (device_id d) c))) s =
    Run (Ret tt) (set_handles (post r) s) (OnDevice <$> trace r)) as Hrun.
  { unfold pcomponent. fold r. rewrite (pbind_run _ _ _ _ _ _ _ (pfor_emit _ _ _) eq_refl). cbn. by rewrite app_nil_r, H1. }
  rewrite (pbind_run _ _ _ _ _ _ _ Hrun eq_refl). do 2 eexists. split; [reflexivity|]. split_and!; try done.
  cbn. rewrite app_nil_r. intros ob (x & -> & _)%list_elem_of_fmap. by eexists.
Qed.
Lemma apply_base_run s : config_inv s →
  ∃ ds tr, apply_base_config s = Run (Ret tt) (set_applied true (set_handles ds s)) tr ∧ config_inv (set_applied true (set_handles ds s)).
Proof.
  intros [H1 H2 H3 _ _]. destruct (apply_config_run (base s) s H2 H1) as (ds & tr & Hrun & Ha & Hok & Hid & _).
  unfold apply_base_config. rewrite pbind_get, (pbind_run _ _ _ _ _ _ _ Hrun eq_refl). do 2 eexists. split; [reflexivity|].
  split; cbn; done.
Qed.
(** Applying the configuration of the session in the focus. *)
Lemma apply_session_run c k s : config_inv s → focused_session s = Some k → config_map s !! k = Some c →
  ∃ ds tr, apply_config_at_session c k s = Run (Ret tt) (set_applied false (set_handles ds s)) (tr ++ [SendInputConfig k c]) ∧
    config_inv (set_applied false (set_handles ds s)) ∧ agrees c ds.
Proof.
  intros [H1 H2 H3 _ _] Hf Hc. destruct (apply_config_run c s (H3 _ _ Hc) H1) as (ds & tr & Hrun & Ha & Hok & Hid & _).
  unfold apply_config_at_session, pcatch. rewrite (pbind_run _ _ _ _ _ _ _ Hrun eq_refl). cbn [value post trace pemit].
  do 2 eexists. split; [reflexivity|]. split; [|done]. split; cbn; try done.
  intros ? ? _. rewrite Hf. intros [= <-]. rewrite Hc. by intros [= <-].
Qed.
Lemma send_base_run sessions s : send_base_config_to_all_sessions sessions s = Run (Ret tt) s ((λ k, SendInputConfig k (base s)) <$> sessions).
Proof. unfold send_base_config_to_all_sessions. rewrite pbind_get. apply pfor_emit. Qed.

Lemma get_removed id id' c : id ≠ id' → get_device_config_by_id id (remove_device_by_id id' c) = get_device_config_by_id id c.
Proof.
  intros Hne. unfold get_device_config_by_id, remove_device_by_id, find_if, InputConfig in *. apply (f_equal head). rewrite list_filter_filter.
  apply filter_ext_in. intros x _. rewrite Z.eqb_eq. split; [tauto|]. intros ->. by split.
Qed.
Lemma get_added id c x : get_device_config_by_id id (add_device_config x c) =
  match get_device_config_by_id id c with Some y => Some y | None => if config_id x =? id then Some x else None end.
Proof. unfold get_device_config_by_id, add_device_config. rewrite find_if_app. by rewrite find_if_cons. Qed.
Lemma mentions_get id c : mentions id c = false → get_device_config_by_id id c = None.
Proof.
  intros Hm. apply find_if_None. intros x Hx. destruct (config_id x =? id) eqn:He; [|done]. exfalso.
  enough (mentions id c = true) by congruence. apply existsb_exists. exists x. split; [by apply list_elem_of_In|done].
Qed.
Lemma valid_removed id c : valid_config c = true → valid_config (remove_device_by_id id c) = true.
Proof.
  unfold valid_config. rewrite !forallb_forall. intros Hv x Hx%list_elem_of_In. apply Hv, list_elem_of_In.
  by apply list_elem_of_filter in Hx as [_ ?].
Qed.
Lemma valid_added x c : valid_config c = true → valid_device_config x = true → valid_config (add_device_config x c) = true.
Proof. unfold valid_config, add_device_config. intros Hv Hx. rewrite forallb_app. by rewrite Hv; cbn; rewrite Hx. Qed.
Lemma agrees_removed id c ds : agrees c ds → agrees (remove_device_by_id id c) (filter (λ d, device_id d ≠ id) ds).
Proof. intros Ha d x [Hne Hd]%list_elem_of_filter Hx. apply Ha; [done|]. by rewrite <- (get_removed _ id). Qed.
Lemma agrees_added d c ds : agrees c ds → mentions (device_id d) c = false → device_id d ∉ device_id <$> ds →
  agrees (add_device_config (get_device_config d) c) (ds ++ [d]).
Proof.
  intros Ha Hm Hd e x [He| ->%list_elem_of_singleton]%elem_of_app; rewrite get_added.
  - destruct (get_device_config_by_id (device_id e) c) as [y|] eqn:Hy; [intros [= <-]; by apply Ha|].
    destruct (Z.eqb_spec (config_id (get_device_config d)) (device_id e)) as [Heq|]; [|done]. destruct Hd. cbn in Heq. rewrite Heq.
    by apply list_elem_of_fmap_2.
  - rewrite (mentions_get _ _ Hm). cbn. rewrite Z.eqb_refl. intros [= <-]. apply obeys_own_config.
Qed.

Lemma devices_updated_added sessions d s : ∃ tr,
  devices_updated sessions [d] [] s = Run (Ret tt) (learn_device d s) tr.
Proof. unfold devices_updated. cbn [pfor]. rewrite pbind_ret_l, pbind_assoc, pbind_modify, pbind_ret_l, send_base_run. by eexists. Qed.
Lemma devices_updated_removed sessions id s : ∃ tr,
  devices_updated sessions [] [id] s = Run (Ret tt) (forget_device id s) tr.
Proof. unfold devices_updated. cbn [pfor]. rewrite pbind_assoc, pbind_modify, !pbind_ret_l, send_base_run. by eexists. Qed.
Lemma inv_map s m : config_inv s →
  (∀ k c, m !! k = Some c → valid_config c = true) →
  (∀ k c, base_configuration_applied s = false → focused_session s = Some k → m !! k = Some c → agrees c (handles s)) →
  config_inv (set_config_map m s).
Proof. intros [H1 H2 H3 H4 H5] Hv Ha. by split. Qed.

(** The focus moves to a session without a configuration, or to none. *)
Lemma inv_focus s f : config_inv s → (∀ k, f = Some k → config_map s !! k = None) → config_inv (set_focused_session f s).
Proof. intros [H1 H2 H3 H4 H5] Hf. split; try done. intros k c _ Hk Hc. cbn in *. by rewrite (Hf k Hk) in Hc. Qed.

Lemma config_step s op : config_inv s → config_allowed s [] op = true →
  let r := config_exec op s in config_inv (post r) ∧ value r = Ret tt.
Proof.
  intros Hi Hop. pose proof Hi as [H1 H2 H3 H4 H5]. destruct op as [k c|ss c|ss d|ss id|id|ss k| |k]; cbn [config_exec] in *.
  - unfold configure. rewrite pbind_modify, pbind_get. set (s1 := set_config_map _ s). cbn [focused_session s1].
    assert (∀ k' c', config_map s1 !! k' = Some c' → valid_config c' = true) as Hv.
    { intros k' c'. cbn. destruct (decide (k' = k)) as [->|]; [rewrite lookup_insert_eq; by intros [= <-]|]. rewrite lookup_insert_ne by done. apply H3. }
    change (focused_session s1) with (focused_session s). case_bool_decide as Hf.
    + destruct (apply_config_run c s1) as (ds & tr & Hrun & Ha & Hok & Hid & _); [by apply (Hv k); cbn; rewrite lookup_insert_eq|done|].
      unfold apply_config_at_session, pcatch. rewrite (pbind_run _ _ _ _ _ _ _ Hrun eq_refl). cbn [value post trace pemit]. split; [|done].
      split; try done. intros k' c' _. cbn. rewrite Hf. intros [= <-]. rewrite lookup_insert_eq. by intros [= <-].
    + split; [|done]. apply inv_map; [done|done|]. intros k' c' Hb Hk'. rewrite lookup_insert_ne by congruence. by apply H5.
  - unfold set_base_configuration. rewrite pbind_modify.
    destruct (apply_config_run c (set_base c s)) as (ds & tr & Hrun & Ha & Hok & Hid & _); [done|done|].
    assert (apply_base_config (set_base c s) = Run (Ret tt) (set_applied true (set_handles ds (set_base c s))) (tr ++ [])) as Hb.
    { unfold apply_base_config. by rewrite pbind_get, (pbind_run _ _ _ _ _ _ _ Hrun eq_refl). }
    rewrite (pbind_run _ _ _ _ _ _ _ Hb (send_base_run _ _)). cbn [value post trace]. split; [|done]. by split.
  - unfold device_added. rewrite pbind_modify. destruct (devices_updated_added ss d (set_handles (handles s ++ [d]) s)) as [tr ->].
    cbn [value post]. split; [|done]. cbn in Hop.
    apply andb_prop in Hop as [[[[Hb%negb_true_iff Hm%bool_decide_eq_true]%andb_prop Hid%bool_decide_eq_true]%andb_prop Hv]%andb_prop Hok%bool_decide_eq_true].
    split.
    + intros x [?| ->%list_elem_of_singleton]%elem_of_app; [by apply H1|done].
    + by apply valid_added.
    + intros k c. cbn. rewrite lookup_fmap. destruct (config_map s !! k) as [c'|] eqn:Hc; [|done]. intros [= <-]. apply valid_added; [by eapply H3|done].
    + intros Hf. by apply agrees_added; [apply H4|..].
    + intros k c Hf Hk. cbn. rewrite lookup_fmap. destruct (config_map s !! k) as [c'|] eqn:Hc; [|done]. intros [= <-].
      apply agrees_added; [by eapply H5|by apply (Hm k)|done].
  - unfold device_removed. destruct (devices_updated_removed ss id s) as [tr Hrun]. rewrite (pbind_run _ _ _ _ _ _ _ Hrun eq_refl).
    cbn [value post pmodify]. split; [|done]. split.
    + intros d [_ Hd]%list_elem_of_filter. by apply H1.
    + by apply valid_removed.
    + intros k c. cbn. rewrite lookup_fmap. destruct (config_map s !! k) as [c'|] eqn:Hc; [|done]. intros [= <-]. apply valid_removed. by eapply H3.
    + intros Hf. by apply agrees_removed, H4.
    + intros k c Hf Hk. cbn. rewrite lookup_fmap. destruct (config_map s !! k) as [c'|] eqn:Hc; [|done]. intros [= <-].
      apply agrees_removed. by eapply H5.
  - cbn. split; [|done]. set (f := λ d, if device_id d =? id then disable_queue d else d).
    assert (∀ c, agrees c (handles s) → agrees c (f <$> handles s)) as Hag.
    { intros c Ha d x (e & -> & He)%list_elem_of_fmap. unfold f at 1 2. destruct (device_id e =? id); [|by apply Ha].
      intros Hx. destruct (Ha e x He Hx) as (A1 & A2 & A3). by split_and!. }
    split; try done.
    + intros d (e & -> & He)%list_elem_of_fmap. unfold f. destruct (device_id e =? id); by apply (H1 e).
    + intros Hf. by apply Hag, H4.
    + intros k c Hf Hk Hc. by eapply Hag, H5.
  - unfold focus_change_handler. rewrite pbind_modify, pbind_get. set (s1 := set_focused_session _ s). change (config_map s1) with (config_map s). change (base_configuration_applied s1) with (base_configuration_applied s).
    destruct (config_map s !! k) as [c|] eqn:Hc.
    + destruct (apply_config_run c s1) as (ds & tr & Hrun & Ha & Hok & Hid & _); [by eapply H3|done|].
      unfold apply_config_at_session, pcatch. rewrite (pbind_run _ _ _ _ _ _ _ Hrun eq_refl). cbn [value post trace pemit]. split; [|done].
      split; try done. intros k' c' _. cbn. intros [= <-]. rewrite Hc. by intros [= <-].
    + assert (config_inv s1) as Hs1 by (apply inv_focus; [done|]; by intros ? [= <-]).
      destruct (base_configuration_applied s) eqn:Hb; [done|].
      destruct (apply_base_run s1 Hs1) as (ds & tr & Hrun & Hi'). rewrite (pbind_run _ _ _ _ _ _ _ Hrun (send_base_run _ _)). done.
  - unfold no_focus_handler. rewrite pbind_modify, pbind_get. set (s1 := set_focused_session _ s). change (base_configuration_applied s1) with (base_configuration_applied s).
    assert (config_inv s1) as Hs1 by by apply inv_focus.
    destruct (base_configuration_applied s) eqn:Hb; [done|]. by destruct (apply_base_run s1 Hs1) as (ds & tr & -> & Hi').
  - cbn. split; [|done]. apply inv_map; [done| |].
    + intros k' c' [_ Hc]%lookup_delete_Some. by eapply H3.
    + intros k' c' Hb Hk [_ Hc]%lookup_delete_Some. by eapply H5.
Qed.
Lemma config_reachable s h : reachable config_machine s h → config_inv s.
Proof.
  apply (reachable_invariant config_machine (λ s _, config_inv s)).
  - intros s0 ->. split; try done. by intros ? ?%elem_of_nil.
  - intros s0 h0 op _ Hs Hop. by apply config_step.
Qed.

(** C38. The devices are configured for the focus.  While configurations are
    valid no call fails, and in every reachable state the devices have the base
    configuration when it is said to be applied, and else that of the session
    with the focus.  A session that gets the focus finds the devices in its own
    configuration, and is sent it, or in the base configuration if it has none;
    without a focus they are in the base configuration. *)
Theorem devices_follow_focus s h : reachable config_machine s h →
  (∀ op, config_allowed s h op = true → value (config_exec op s) = Ret tt) ∧
  (base_configuration_applied s = true → agrees (base s) (handles s)) ∧
  (∀ k c, base_configuration_applied s = false → focused_session s = Some k → config_map s !! k = Some c → agrees c (handles s)) ∧
  (∀ sessions k, let r := focus_change_handler sessions k s in
     match config_map s !! k with
     | Some c => agrees c (handles (post r)) ∧ SendInputConfig k c ∈ trace r
     | None => agrees (base s) (handles (post r))
     end) ∧
  agrees (base s) (handles (post (no_focus_handler s))).
Proof.
  intros Hi%config_reachable. pose proof Hi as [H1 H2 H3 H4 H5]. split; [|split; [done|split; [done|split]]].
  - intros op Hop. by apply config_step.
  - intros sessions k r. destruct (config_step s (OpFocusChange sessions k) Hi eq_refl) as [[I1 I2 I3 I4 I5] Hval].
    cbn [config_exec] in *. fold r in I1, I2, I3, I4, I5, Hval. unfold focus_change_handler in r. 
    destruct (config_map s !! k) as [c|] eqn:Hc.
    + destruct (apply_config_run c (set_focused_session (Some k) s)) as (ds & tr & Hrun & Ha & _); [by eapply H3|done|].
      unfold r. rewrite pbind_modify, pbind_get. change (config_map (set_focused_session (Some k) s)) with (config_map s). rewrite Hc.
      unfold apply_config_at_session, pcatch. rewrite (pbind_run _ _ _ _ _ _ _ Hrun eq_refl). cbn [value post trace pemit].
      split; [done|]. apply elem_of_app. right. left.
    + revert I4. unfold r. rewrite pbind_modify, pbind_get. change (config_map (set_focused_session (Some k) s)) with (config_map s). rewrite Hc.
      change (base_configuration_applied (set_focused_session (Some k) s)) with (base_configuration_applied s).
      destruct (base_configuration_applied s) eqn:Hb; [intros _; by apply H4|].
      assert (config_inv (set_focused_session (Some k) s)) as Hs1 by (apply inv_focus; [done|]; by intros ? [= <-]).
      destruct (apply_base_run _ Hs1) as (ds & tr & Hrun & Hi'). rewrite (pbind_run _ _ _ _ _ _ _ Hrun (send_base_run _ _)).
      intros I4. by apply I4.
  - unfold no_focus_handler. rewrite pbind_modify, pbind_get.
    change (base_configuration_applied (set_focused_session None s)) with (base_configuration_applied s).
    destruct (base_configuration_applied s) eqn:Hb; [by apply H4|].
    assert (config_inv (set_focused_session None s)) as Hs1 by by apply inv_focus.
    destruct (apply_base_run _ Hs1) as (ds & tr & Hrun & Hi'). rewrite Hrun. by apply (f_base _ Hi').
Qed.

(** *** Examples

    Two mice; session 7 wants the first left-handed. *)
Definition example_settings (hand : Z) (bias : Z) : PointerSettings := mkPointerSettings hand (f64_of_int bias) 2 (f64_of_int 1) (f64_of_int 1).
Definition example_mouse (id : Z) : DefaultDevice := new_device id (mkHardware 2 "mouse" "" (Some (example_settings 0 0)) None).
Definition example_config (id hand bias : Z) : InputConfig := [mkDeviceConfig id 2 "mouse" "" (Some (example_settings hand bias)) None None].
Definition config_example_ops : list config_op :=
  [ OpDeviceAdded [7; 8] (example_mouse 1); OpDeviceAdded [7; 8] (example_mouse 2); OpConfigure 7 (example_config 1 1 0); OpFocusChange [7; 8] 7 ].
Definition new_changer : ConfigChanger := mkConfigChanger [] [] ∅ None true.
Definition config_example_run := run_ops config_machine config_example_ops new_changer [].
Definition config_example_state : ConfigChanger := (default (new_changer, []) config_example_run).1.
Definition config_example_history : list config_obs := (default (new_changer, []) config_example_run).2.
Lemma config_example_reachable : reachable config_machine config_example_state config_example_history.
Proof. apply (run_ops_from_init config_machine config_example_ops new_changer); [done|]. vm_compute. reflexivity. Qed.
Lemma devices_follow_focus_witness :
  (pointer <$> handles config_example_state) = [Some (example_settings 1 0); Some (example_settings 0 0)] ∧
  agrees (base config_example_state) (handles (post (no_focus_handler config_example_state))) ∧
  value (config_exec (OpConfigure 8 (example_config 2 1 1)) config_example_state) = Ret tt.
Proof.
  destruct (devices_follow_focus _ _ config_example_reachable) as (Hop & _ & _ & _ & Hno).
  split; [vm_compute; reflexivity|]. split; [exact Hno|]. apply Hop. vm_compute. reflexivity.
Defined.
(** A configuration that a later device refuses stays half applied, and the base
    configuration still counts as applied: losing the focus does not undo it. *)
Lemma refused_configuration_sticks :
  let s0 := post (no_focus_handler config_example_state) in
  let s1 := post (configure 8 (example_config 1 1 0 ++ example_config 2 1 2) s0) in
  let focus := focus_change_handler [7; 8] 8 s1 in
  let s3 := post (no_focus_handler (post focus)) in
  (pointer <$> handles s0) = [Some (example_settings 0 0); Some (example_settings 0 0)] ∧
  last (trace focus) = Some (SendConfigError 8 "Cursor acceleration bias out of range") ∧
  base_configuration_applied s3 = true ∧ base s3 = base s0 ∧
  (pointer <$> handles s3) = [Some (example_settings 1 0); Some (example_settings 0 0)].
Proof. vm_compute. done. Qed.
(** A new base configuration displaces that of the session with the focus. *)
Lemma new_base_displaces_session :
  let s := post (set_base_configuration [7; 8] (base config_example_state) config_example_state) in
  focused_session s = Some 7 ∧ config_map s !! 7 = config_map config_example_state !! 7 ∧
  (pointer <$> handles config_example_state) = [Some (example_settings 1 0); Some (example_settings 0 0)] ∧
  (pointer <$> handles s) = [Some (example_settings 0 0); Some (example_settings 0 0)].
Proof. vm_compute. done. Qed.
